(* ===== verification/_CoqProject ===== *)
-Q . S2P
Prelude.v
GoBytes.v
WalFrame.v
GoReflect.v
RowCodec.v
WalLog.v
ChunkStore.v
RelationSchema.v
SchemaRows.v
RelationModel.v
RelationGraph.v
CommittedGraph.v
Transaction.v
Locks.v
PublishedIndex.v
RelationDelta.v
DeltaCommit.v
IndexSpecs.v
SecondaryIndex.v
IndexCommit.v
Storage.v
Recovery.v
Persistence.v
Table.v
Wiring.v
Aggregate.v
GraphCommit.v
World.v
Commit.v
Api.v
Tower.v
TowerRun.v
Flush.v
CommitSteps.v
CommitEffect.v
TowerEffect.v
TowerReplica.v
BranchCopy.v
SliceCells.v
CommitGuard.v
Durability.v
