(* ===== verification/Prelude.v ===== *)
(** * Nestory: verification of the persistent in-memory object graph

    Nestory keeps Go structs in memory as the database: entities live in
    stable cells, relations between them are pointers, changes are committed by
    optimistic transactions and survive in write-ahead logs and chunk files.
    This library translates the program into executable definitions and proves
    what its parts promise. Source names are kept where Rocq allows it.

    ** Ground

    - [Prelude] (this file): outcomes of Go functions (value, error, panic),
      machine integers, slices, sorting, map iteration orders, bounded loops.
    - [GoBytes], [GoReflect]: byte buffers and big-endian accessors; struct
      types with tags, typed values, the heap of cells behind pointers.

    A Go map is a [gmap]; ranging over it follows [map_range], whose order is
    an arbitrary instance of [MapOrder], so theorems hold for every order. A
    pointer to an entity is a location of one heap. A slice is a value, except
    in [SliceCells], where the copies readers get are made on a memory with slice
    headers and arrays. Integers keep their width where the code can overflow;
    the versions of rows and the epochs of tables, which count up by one from 0,
    are not wrapped.

    Reflection panics as it does in Go: fields that are not exported cannot be
    set or read as interfaces ([spec_exported], [field_exported]), and
    [reflect.Copy] wants identical element types ([is_byte]). Registration
    accepts relations in unexported fields and slices of named byte types, so
    theorems about code that would panic on them state what they ask of the
    types.

    ** Parts of the program and the files that model them

    - Durability. [WalFrame], [RowCodec], [WalLog] model src/wal.go and
      src/transaction_wal.go: frames, the scalar row codec, appends under
      failures of the operating system, replay. [Storage] models
      src/storage.go: chunk files, loading, recovery from both logs, saving;
      [Recovery] and [Persistence] hold its theorems. gob is a parameter.
    - Stores and tables. [ChunkStore] models src/chunkstore.go. [Table] models
      one [DB[T]] (src/db.go, src/persist.go, src/indices.go, src/query.go,
      src/unsafe.go): rows, ids, writes, deletes, the log, the queues.
    - Schema. [RelationSchema] models relation tags and their validation
      (src/relations.go), [SchemaRows] the flat persisted rows (src/schema.go).
    - Secondary indexes. [IndexSpecs], [SecondaryIndex], [IndexCommit] model
      src/secondary_index.go and prove what a commit does to the indexes.
    - The relation graph (src/relation_runtime.go, src/relation_index.go).
      [RelationModel] builds and checks a whole graph, [RelationGraph] has its
      theorems. [CommittedGraph] is the published ownership and its index,
      [PublishedIndex] what the index holds, [RelationDelta] the incremental
      change a commit makes to it, [DeltaCommit] what that change preserves.
      [Wiring] points relation fields at the live entities.
    - Transactions (src/engine.go, src/transaction.go, src/snapshot.go).
      [Transaction] is what a transaction collects and how changes are
      detected, [Aggregate] the detached branches readers get. [BranchCopy] says
      what these are as values, and what becomes of overlapping ones;
      [SliceCells] runs the same code on slices in memory, with
      [cloneSliceFields], and shows that the copies share no slice of an exported
      field with the rows.
      [GraphCommit] is the validation of a whole new graph. [World] is the state
      of the process with the monad of its operations, [Commit] the commit,
      which composes all of the above: table versions, graph, unique indexes,
      one log frame, rows, indexes, published graph. [CommitSteps] specifies the
      steps of a commit on rows and tables, [CommitEffect] and [CommitGuard]
      have the theorems of the whole. [Durability] follows a commit through its
      log to the table a process that starts afterwards loads: the parts
      composed end to end.
    - Public operations. [Api] has registering and opening a table, the
      operations of a transaction, creates, deletes, lookups and the views
      (src/persist.go, src/transaction.go, src/query.go, src/view.go). [Flush]
      is the unsafe path, which queues changes and flushes them with their
      relations (src/unsafe.go, src/relation_runtime.go).
    - Tower (src/tower.go): writable shadow copies of branches. [Tower] has the
      plans, the comparison of shadows with live rows, refreshing and the
      diff; [TowerRun] the commits of a diff, the retry loop and the updates
      that use it (src/transaction.go, src/tracked.go). [TowerEffect] proves
      what a write does, [TowerReplica] what a replica shows.
    - Locks (src/branchlock.go and the callers of locks). [Locks] has the lock
      programs of the operations as a step relation over Go read-write locks,
      with the mutexes an update takes before them: of its row, of a tree of
      the Tower, of the rebuild.

    ** What the theorems show

    - Crash safety: acknowledged appends survive, torn frames are dropped, a
      transaction over several types is recovered whole or not at all, chunk
      files are replaced atomically, recovery is last-writer-wins.
    - Codecs: rows and frames round trip, decoders are total on any bytes for
      the row types they can set. A slice of a named byte type is encoded, and
      decoding it panics.
    - Stores: slots are stable, the store refines a list, clean blocks are
      unchanged. An entity comes back from its row field by field: scalars as
      they were, persisted relations as keys on hollow targets, computed slices
      nil.
    - Schema: registration decides the ownership rules on every type graph; the
      rules are stated on fields and tags ([schema_rules]), apart from the code.
    - Indexes: a commit is accepted exactly when unique keys stay unique, keeps
      every index in step with the table and agrees with a rebuild; range
      queries return exactly the matching rows in order.
    - Graph: an accepted graph has one owner per node and no cycles; deletes
      cascade to exactly what is owned; incremental commits keep the published
      graph consistent when the relation fields are exported; branches are
      ownership trees, computed in bounded time.
    - Copies: what a reader or a transaction gets is a copy of a branch in
      structs of its own, with arrays of its own behind the slices in exported
      fields, and pointers inside the branch that lead to the copies.
    - Commits: repeated reads of a transaction give one copy; no commit
      succeeds if a row whose copy it changed, or that it staged for deletion,
      changed since it was read (rows that a delete takes along are not checked);
      a commit that leaves the graph alone writes all its rows or none, and keeps
      the indexes in step, unless it deletes a row that it also changed or
      created. Such a commit of values the log can hold to a table without
      relations survives a restart, wherever its log write breaks off: the new
      process finds the table before it or after it, and after it once the
      commit has reported success.
    - Tower: a write that settles gives every compared row exactly the fields of
      its shadow that differ; a change of relations is handed to a transaction;
      otherwise nothing changes. A refreshed replica shows the rows.
    - Locks: commits without deletes, clones, reads, flushes and updates, through
      the Tower or in transactions, complete with exclusive writers, if none of
      them locks a row that another one of them creates.
    - Defects the model shows are theorems about concrete runs: torn appends in
      the middle of a log, recovery order over two logs, colliding columns, the
      unlock of deleted rows, unique lookups erased by a delete, a write of
      another transaction taken back by the Tower, an edit dropped after
      overlapping reads, an edit of a running callback overwritten by a refresh,
      a row deleted by a cascade although another commit rewrote it, and the
      unlock of a mutex nobody holds after a row was created.

    ** Bounds and fuel

    Loops of the code are [for_range] with a bound, or recursion with fuel, and
    running out is a panic of the model: the worklist of a cascade is bounded by
    the nodes, walks up the owners by the owners, the branch of an entity by
    the length of the children lists, the staging of creates by the pointers in
    the heap, log replay by the length of the file. Retrying an update is
    bounded by a number of attempts, an argument of [TowerRun.towerRun], and a
    run that needs more is [unfinished]. The theorems show success where they
    claim it, so running out is excluded there.

    ** Not modelled

    The encoding gob produces and the file system are parameters. Clock, fsync
    ordering beyond the order of calls, and goroutines other than through the
    lock programs are left out; in particular an update of a Tower replica is
    one step, except where a theorem spells out its parts. The lock programs
    have the locks of operations, not the ones inside a single step
    (committedOwnership, db.mu, snapshotMu, the engine's and the log's mutex),
    and no callback that calls the library again. Slices and maps inside of
    structs, arrays or other slices are shared between a row and its copies in
    the program; they are values here, in [SliceCells] too. As values, two
    slices with one backing array are compared element by element, where
    [reflect.DeepEqual] answers at once; the answers differ only on NaNs. A match
    field that is not exported makes Go panic where its value is used as a map
    key. The model has this panic where rows are built and pointers wired; where
    the graph is built or compared it reads the value, so there the theorems
    speak also of runs that Go breaks off. How the runtime lays
    out a struct in memory is not modelled: comparing a run of fields
    byte by byte is a parameter of [Tower], as is the comparison of a field
    type the schema does not know. src/doc.go is documentation.
    On an error path, edits of a commit to its own detached copies are not kept
    by the model; no later step reads them. *)
From stdpp Require Export base tactics option list list_numbers sorting gmap strings fin_maps.
From Stdlib Require Export ZArith Lia.
From Stdlib Require Export Strings.Byte.

(** ** Outcomes of Go functions

    A Go function that returns [(value, error)] and may also panic is a value
    of [outcome]. Errors are the sentinel the code wraps with [%w] or, for an
    error built with [errors.New] or [fmt.Errorf] alone, the text that
    identifies the message. *)

Inductive gerror :=
  | ErrConflict
  | ErrExpiredSnapshot
  | ErrNotFound
  | ErrAlreadyExists
  | ErrUniqueViolation
  | ErrRelationSchema
  | ErrRelationInvariant
  | ErrDeleteRestricted
  | ErrUndeclaredWrite
  | ErrText (message : string).

Inductive outcome (A : Type) :=
  | Ok (value : A)
  | Fail (err : gerror)
  | Panic.
Arguments Ok {_} _.
Arguments Fail {_} _.
Arguments Panic {_}.

#[export] Instance outcome_ret : MRet outcome := @Ok.
#[export] Instance outcome_bind : MBind outcome := fun A B f m =>
  match m with Ok a => f a | Fail e => Fail e | Panic => Panic end.
#[export] Instance outcome_fmap : FMap outcome := fun A B f m =>
  match m with Ok a => Ok (f a) | Fail e => Fail e | Panic => Panic end.

Definition is_ok {A} (m : outcome A) : bool :=
  match m with Ok _ => true | _ => false end.

#[export] Instance gerror_eq_dec : EqDecision gerror.
Proof. solve_decision. Defined.
#[export] Instance outcome_eq_dec {A} `{EqDecision A} : EqDecision (outcome A).
Proof. solve_decision. Defined.
#[export] Instance byte_eq_dec : EqDecision byte := Byte.byte_eq_dec.

(** [for _, x := range l] whose body may return early with an error. *)
Fixpoint fold_outcome {A B} (f : B -> A -> outcome B) (acc : B) (l : list A) : outcome B :=
  match l with
  | [] => Ok acc
  | x :: rest => acc' ← f acc x; fold_outcome f acc' rest
  end.

(** [for range n] whose body may [return]: [inl] carries the loop state on,
    [inr] is the early return. *)
Fixpoint for_range {S R} (n : nat) (body : S -> outcome (S + R)) (s : S) : outcome (S + R) :=
  match n with
  | O => Ok (inl s)
  | S n' =>
      r ← body s;
      match r with inl s' => for_range n' body s' | inr ret => Ok (inr ret) end
  end.

(** ** Machine integers: Go's [int] is 64 bits wide *)

Definition to_uint (w : Z) (z : Z) : Z := z mod 2 ^ w.
Definition to_sint (w : Z) (z : Z) : Z := (z + 2 ^ (w - 1)) mod 2 ^ w - 2 ^ (w - 1).
Definition uint_range (w z : Z) : Prop := (0 <= z < 2 ^ w)%Z.
Definition sint_range (w z : Z) : Prop := (- 2 ^ (w - 1) <= z < 2 ^ (w - 1))%Z.
Definition maxUint32 : Z := (2 ^ 32 - 1)%Z.
Definition maxInt : Z := (2 ^ 63 - 1)%Z.

(** ** Slices indexed by Go integers *)

Definition zlen {A} (l : list A) : Z := Z.of_nat (length l).
Definition ztake {A} (n : Z) (l : list A) : list A := take (Z.to_nat n) l.
Definition zdrop {A} (n : Z) (l : list A) : list A := drop (Z.to_nat n) l.

(** [l[lo:hi]]: panics unless [0 <= lo <= hi <= len l]. *)
Definition slice {A} (l : list A) (lo hi : Z) : outcome (list A) :=
  if (0 <=? lo)%Z && (lo <=? hi)%Z && (hi <=? zlen l)%Z
  then Ok (ztake (hi - lo) (zdrop lo l)) else Panic.

(** [l[lo:]]. *)
Definition slice_from {A} (l : list A) (lo : Z) : outcome (list A) := slice l lo (zlen l).

(** [l[i]], which panics out of range. *)
Definition at_index {A} (l : list A) (i : Z) : outcome A :=
  if (0 <=? i)%Z then match l !! Z.to_nat i with Some x => Ok x | None => Panic end else Panic.

(** [copy(dst[off:], src)]: copies what fits and panics when [off] is past the
    end of [dst]. *)
Definition copy_at {A} (dst : list A) (off : Z) (src : list A) : outcome (list A) :=
  if (0 <=? off)%Z && (off <=? zlen dst)%Z then
    let n := Z.min (zlen src) (zlen dst - off) in
    Ok (ztake off dst ++ ztake n src ++ zdrop (off + n) dst)
  else Panic.

(** [sort.Search(n, f)]: the binary search of the standard library, which
    returns the smallest index for which [f] holds when [f] is monotone.
    [fuel] bounds the halvings; [n] of them always suffice. *)
Fixpoint search_loop (fuel : nat) (i j : nat) (f : nat -> bool) : nat :=
  match fuel with
  | O => i
  | S fuel' =>
      if (i <? j)%nat then
        let h := ((i + j) / 2)%nat in
        if f h then search_loop fuel' i h f else search_loop fuel' (S h) j f
      else i
  end.
Definition sort_search (n : nat) (f : nat -> bool) : nat := search_loop n 0 n f.
#[global] Arguments sort_search : simpl never.

(** [cmp.Compare] on integers, as Go returns it. *)
Definition cmp_compare (a b : Z) : Z :=
  match (a ?= b)%Z with Lt => -1 | Eq => 0 | Gt => 1 end%Z.

(** [cmp.Compare] on strings: bytewise. *)
Definition string_compare (a b : string) : Z :=
  match String.compare a b with Lt => -1 | Eq => 0 | Gt => 1 end%Z.

(** [slices.SortFunc]; on comparators without distinct equal elements any
    sorting algorithm gives this result. *)
Definition SortFunc {A} (cmp : A -> A -> Z) (l : list A) : list A :=
  @merge_sort A (fun a b => (cmp a b <= 0)%Z) (fun a b => Z_le_dec (cmp a b) 0) l.

(** What [SortFunc] asks of a comparator: a strict weak order. *)
Class GoOrder {A} (cmp : A -> A -> Z) : Prop := {
  order_flip : forall a b, (cmp a b <= 0 <-> 0 <= cmp b a)%Z;
  order_trans : forall a b c, (cmp a b <= 0 -> cmp b c <= 0 -> cmp a c <= 0)%Z;
}.

(** [slices.Insert(l, i, x)] and [slices.Delete(l, i, i+1)]. *)
Definition slices_insert {A} (l : list A) (i : nat) (x : A) : list A := take i l ++ x :: drop i l.
Definition slices_delete {A} (l : list A) (i : nat) : list A := take i l ++ drop (S i) l.

(** ** Iteration over Go maps

    Go leaves the order of [range] over a map unspecified. A [MapOrder]
    instance is one such choice; definitions that range over a map take it as
    an argument, so a theorem about them holds for every choice. *)
Class MapOrder (K : Type) `{Countable K} := {
  map_range : forall {V : Type}, gmap K V -> list (K * V);
  map_range_perm : forall {V : Type} (m : gmap K V), map_range m ≡ₚ map_to_list m;
}.

Definition set_range `{MapOrder K} (s : gset K) : list K :=
  (map_range (gset_to_gmap tt s)).*1.

#[export] Program Instance map_order_default K `{Countable K} : MapOrder K | 100 :=
  {| map_range := fun V m => map_to_list m |}.
Next Obligation. intros; reflexivity. Defined.

Declare Scope nestory_scope.
Delimit Scope nestory_scope with nestory.
(** [if c { return e }; k]: the early return of a Go function. *)
Notation "'when' c '=>' e ';;' k" := (if c then e else k)
  (at level 100, c at level 99, e at level 99, k at level 200, right associativity,
   format "'when'  c  '=>'  e  ';;' '//' k") : nestory_scope.
#[global] Open Scope nestory_scope.

(** * Lemmas *)

Create HintDb nestory.
Create Rewrite HintDb nestory.

Ltac inv_ok :=
  repeat match goal with
  | H : Ok _ = Ok _ |- _ => injection H as H; subst
  | H : Ok _ = Fail _ |- _ => discriminate H
  | H : Ok _ = Panic |- _ => discriminate H
  | H : Fail _ = Ok _ |- _ => discriminate H
  | H : Panic = Ok _ |- _ => discriminate H
  end.

(** Case analysis on the outcome a bind runs. *)
Ltac bind_ok H :=
  match type of H with
  | mbind ?f ?m = _ =>
      let a := fresh "v" in let E := fresh "E" in
      destruct m as [a | |] eqn:E; simpl in H; try discriminate H
  end.

Lemma fold_outcome_app {A B} (f : B -> A -> outcome B) acc l1 l2 :
  fold_outcome f acc (l1 ++ l2) =
  (acc' ← fold_outcome f acc l1; fold_outcome f acc' l2).
Proof.
  revert acc; induction l1 as [|x l1 IH]; intros acc; simpl; [done|].
  destruct (f acc x); simpl; auto.
Qed.

Lemma fold_outcome_fmap {A B C} (g : C -> A) (f : B -> A -> outcome B) acc l :
  fold_outcome (fun b c => f b (g c)) acc l = fold_outcome f acc (g <$> l).
Proof.
  revert acc; induction l as [|x l IH]; intros acc; [done|].
  simpl. destruct (f acc (g x)); simpl; auto.
Qed.

(** An invariant of the accumulator that every step preserves holds at the end. *)
Lemma fold_outcome_inv {A B} (P : B -> Prop) (f : B -> A -> outcome B) l :
  (forall b a b', a ∈ l -> P b -> f b a = Ok b' -> P b') ->
  forall acc acc', P acc -> fold_outcome f acc l = Ok acc' -> P acc'.
Proof.
  induction l as [|x l IH]; intros Hstep acc acc' Hacc H; simpl in H; inv_ok; [done|].
  bind_ok H. eapply IH; [|by eapply Hstep; [left | exact Hacc | exact E]|exact H].
  intros b a b' Ha. apply Hstep. by right.
Qed.

Lemma to_uint_range w z : (0 <= w)%Z -> uint_range w (to_uint w z).
Proof. intros. apply Z.mod_pos_bound. lia. Qed.

Lemma to_uint_small w z : uint_range w z -> to_uint w z = z.
Proof. apply Z.mod_small. Qed.

Lemma to_sint_range w z : (1 <= w)%Z -> sint_range w (to_sint w z).
Proof.
  intros Hw. unfold sint_range, to_sint.
  assert (2 ^ w = 2 * 2 ^ (w - 1))%Z as E by (rewrite <- Z.pow_succ_r by lia; f_equal; lia).
  pose proof (Z.mod_pos_bound (z + 2 ^ (w - 1)) (2 ^ w)). lia.
Qed.

Lemma to_sint_small w z : (1 <= w)%Z -> sint_range w z -> to_sint w z = z.
Proof.
  unfold sint_range, to_sint. intros Hw H.
  assert (2 ^ w = 2 * 2 ^ (w - 1))%Z as E by (rewrite <- Z.pow_succ_r by lia; f_equal; lia).
  rewrite Z.mod_small; lia.
Qed.

(** Reading back as signed the two's complement image of a signed integer. *)
Lemma to_sint_to_uint w z : (1 <= w)%Z -> sint_range w z -> to_sint w (to_uint w z) = z.
Proof.
  intros Hw H. rewrite <- (to_sint_small w z Hw H) at 2. unfold to_sint, to_uint.
  f_equal. by rewrite Z.add_mod_idemp_l by lia.
Qed.

Lemma to_uint_to_sint w z : (1 <= w)%Z -> uint_range w z -> to_uint w (to_sint w z) = z.
Proof.
  intros Hw H. rewrite <- (to_uint_small w z H) at 2. unfold to_sint, to_uint.
  rewrite Zminus_mod_idemp_l. f_equal. lia.
Qed.

Lemma zlen_nonneg {A} (l : list A) : (0 <= zlen l)%Z.
Proof. unfold zlen. lia. Qed.
Lemma zlen_nil {A} : zlen (@nil A) = 0%Z.
Proof. done. Qed.
Lemma zlen_cons {A} (x : A) l : zlen (x :: l) = (1 + zlen l)%Z.
Proof. unfold zlen. simpl. lia. Qed.
Lemma zlen_app {A} (l1 l2 : list A) : zlen (l1 ++ l2) = (zlen l1 + zlen l2)%Z.
Proof. unfold zlen. rewrite length_app. lia. Qed.
Lemma zlen_replicate {A} n (x : A) : zlen (replicate n x) = Z.of_nat n.
Proof. unfold zlen. by rewrite length_replicate. Qed.
#[export] Hint Rewrite @zlen_nil @zlen_cons @zlen_app @zlen_replicate : nestory.

Lemma zlen_app_inj {A} (a b c d : list A) :
  a ++ b = c ++ d -> zlen a = zlen c -> a = c /\ b = d.
Proof. intros E L. apply app_inj_1; [unfold zlen in L; lia|done]. Qed.
Lemma zlen_app_inj_l {A} (a b c d : list A) :
  a ++ b = c ++ d -> zlen a = zlen c -> a = c.
Proof. intros E L. by destruct (zlen_app_inj a b c d). Qed.
Lemma to_nat_zlen {A} (l : list A) : Z.to_nat (zlen l) = length l.
Proof. apply Nat2Z.id. Qed.
Lemma zlen_0_inv {A} (l : list A) : zlen l = 0%Z -> l = [].
Proof. destruct l; [done|]. rewrite zlen_cons. pose proof (zlen_nonneg l). lia. Qed.

Lemma zdrop_app {A} (a b : list A) : zdrop (zlen a) (a ++ b) = b.
Proof. unfold zdrop, zlen. rewrite Nat2Z.id. apply drop_app_length. Qed.
Lemma ztake_app {A} (a b : list A) : ztake (zlen a) (a ++ b) = a.
Proof. unfold ztake, zlen. rewrite Nat2Z.id. apply take_app_length. Qed.

(** The slice of a concatenation that starts and ends at its joints. *)
Lemma slice_joints {A} (a b c : list A) lo hi :
  lo = zlen a -> hi = (zlen a + zlen b)%Z -> slice (a ++ b ++ c) lo hi = Ok b.
Proof.
  intros -> ->. unfold slice. autorewrite with nestory.
  pose proof (zlen_nonneg a). pose proof (zlen_nonneg b). pose proof (zlen_nonneg c).
  destruct (_ && _) eqn:E; [|lia].
  rewrite zdrop_app. replace (zlen a + zlen b - zlen a)%Z with (zlen b) by lia.
  by rewrite ztake_app.
Qed.

Lemma slice_from_joint {A} (a b : list A) lo :
  lo = zlen a -> slice_from (a ++ b) lo = Ok b.
Proof.
  intros ->. unfold slice_from. rewrite <- (app_nil_r b) at 1.
  apply slice_joints; [done|]. by rewrite zlen_app.
Qed.

Lemma slice_ok {A} (l : list A) lo hi :
  (0 <= lo <= hi)%Z -> (hi <= zlen l)%Z ->
  exists a b c, l = a ++ b ++ c /\ zlen a = lo /\ zlen b = (hi - lo)%Z /\ slice l lo hi = Ok b.
Proof.
  intros H1 H2. exists (ztake lo l), (ztake (hi - lo) (zdrop lo l)), (zdrop hi l).
  assert (zlen (ztake lo l) = lo) as L1.
  { unfold zlen, ztake in *. rewrite length_take. lia. }
  assert (zlen (ztake (hi - lo) (zdrop lo l)) = hi - lo)%Z as L2.
  { unfold zlen, ztake, zdrop in *. rewrite length_take, length_drop. lia. }
  assert (l = ztake lo l ++ ztake (hi - lo) (zdrop lo l) ++ zdrop hi l) as EQ.
  { unfold ztake, zdrop. replace (Z.to_nat hi) with (Z.to_nat lo + Z.to_nat (hi - lo))%nat by lia.
    by rewrite <- drop_drop, take_drop, take_drop. }
  repeat split; auto. rewrite EQ at 1. apply slice_joints; lia.
Qed.

Lemma slice_inv {A} (l : list A) lo hi b :
  slice l lo hi = Ok b ->
  (0 <= lo <= hi)%Z /\ (hi <= zlen l)%Z /\
  exists a c, l = a ++ b ++ c /\ zlen a = lo /\ zlen b = (hi - lo)%Z.
Proof.
  intros H. assert (0 <= lo <= hi /\ hi <= zlen l)%Z as [H1 H2].
  { unfold slice in H. destruct (_ && _) eqn:E in H; [lia|discriminate]. }
  destruct (slice_ok l lo hi H1 H2) as (a & b' & c & E & La & Lb & S).
  rewrite S in H. inv_ok. eauto 10.
Qed.

(** Writing a block over a gap of its own length. *)
Lemma copy_at_joints {A} (a gap c src : list A) off :
  off = zlen a -> zlen gap = zlen src ->
  copy_at (a ++ gap ++ c) off src = Ok (a ++ src ++ c).
Proof.
  intros -> Hg. unfold copy_at. autorewrite with nestory.
  pose proof (zlen_nonneg a). pose proof (zlen_nonneg src). pose proof (zlen_nonneg c).
  destruct (_ && _) eqn:E; [|lia]. rewrite Z.min_l by lia. do 2 f_equal.
  - apply ztake_app.
  - f_equal.
    + rewrite <- (app_nil_r src) at 2. apply ztake_app.
    + replace (zlen a + zlen src)%Z with (zlen (a ++ gap)) by (rewrite zlen_app; lia).
      by rewrite app_assoc, zdrop_app.
Qed.

(** [sort.Search] on a predicate that is monotone on [0..n). *)
Lemma search_loop_spec f n fuel i j :
  (forall a b, a <= b < n -> f a = true -> f b = true) ->
  i <= j <= n -> j - i <= fuel ->
  (forall k, k < i -> f k = false) -> (forall k, j <= k < n -> f k = true) ->
  let r := search_loop fuel i j f in
  i <= r <= j /\ (forall k, k < r -> f k = false) /\ (forall k, r <= k < n -> f k = true).
Proof.
  intros Hm. revert i j. induction fuel as [|fuel IH]; intros i j Hij Hf Hlo Hhi; cbn [search_loop].
  { assert (i = j) as -> by lia. auto. }
  destruct (Nat.ltb_spec i j); [|assert (i = j) as -> by lia; auto].
  pose proof (Nat.Div0.div_lt_upper_bound (i + j) 2 j ltac:(lia)) as Hh.
  pose proof (Nat.div_le_lower_bound (i + j) 2 i ltac:(lia) ltac:(lia)) as Hl.
  cbv zeta in IH. set (h := (i + j) / 2) in *.
  destruct (f h) eqn:Eh.
  - destruct (IH i h) as (R1 & R2 & R3); [lia|lia|done| |].
    + intros k Hk. apply (Hm h k); [lia|done].
    + split_and!; [lia|lia|auto..].
  - destruct (IH (S h) j) as (R1 & R2 & R3); [lia|lia| |done|].
    + intros k Hk. destruct (f k) eqn:Ek; [|done].
      rewrite (Hm k h) in Eh; [done|lia|done].
    + split_and!; [lia|lia|auto..].
Qed.

Lemma sort_search_spec f n :
  (forall a b, a <= b < n -> f a = true -> f b = true) ->
  sort_search n f <= n /\ (forall k, k < sort_search n f -> f k = false) /\
  (forall k, sort_search n f <= k < n -> f k = true).
Proof.
  intros Hm. destruct (search_loop_spec f n n 0 n) as (H1 & H2 & H3); auto; [lia..|].
  unfold sort_search. split; [lia|auto].
Qed.

Lemma cmp_compare_refl a : cmp_compare a a = 0%Z.
Proof. unfold cmp_compare. by rewrite Z.compare_refl. Qed.
Lemma cmp_compare_spec a b :
  (cmp_compare a b < 0 <-> a < b)%Z /\ (cmp_compare a b = 0 <-> a = b)%Z /\
  (cmp_compare a b > 0 <-> a > b)%Z.
Proof. unfold cmp_compare. destruct (Z.compare_spec a b); lia. Qed.

Lemma set_range_elem `{MapOrder K} (s : gset K) k : k ∈ set_range s <-> k ∈ s.
Proof.
  unfold set_range. rewrite map_range_perm. rewrite list_elem_of_fmap. split.
  - intros ([k' []] & -> & Hk). apply elem_of_map_to_list in Hk.
    by apply lookup_gset_to_gmap_Some in Hk as [? _].
  - intros Hk. exists (k, tt). split; [done|]. apply elem_of_map_to_list.
    by apply lookup_gset_to_gmap_Some.
Qed.

Lemma map_range_elem `{MapOrder K} {V} (m : gmap K V) k v :
  (k, v) ∈ map_range m <-> m !! k = Some v.
Proof. rewrite map_range_perm. apply elem_of_map_to_list. Qed.

Lemma map_range_nodup `{MapOrder K} {V} (m : gmap K V) : NoDup (map_range m).*1.
Proof. rewrite map_range_perm. apply NoDup_fst_map_to_list. Qed.

(** ** Comparators *)

Lemma map_range_empty {K V} `{MapOrder K} : map_range (∅ : gmap K V) = [].
Proof. apply Permutation_nil_r. by rewrite map_range_perm, map_to_list_empty. Qed.
Lemma map_range_one `{MapOrder K} {V} (k : K) (v : V) : map_range ({[ k := v ]} : gmap K V) = [(k, v)].
Proof. apply Permutation_singleton_r. by rewrite map_range_perm, map_to_list_singleton. Qed.
Lemma set_range_empty `{MapOrder K} : set_range (∅ : gset K) = [].
Proof. unfold set_range. assert (gset_to_gmap tt (∅ : gset K) = ∅) as -> by apply gset_to_gmap_empty. by rewrite map_range_empty. Qed.
Lemma set_range_nodup `{MapOrder K} (s : gset K) : NoDup (set_range s).
Proof. apply map_range_nodup. Qed.

Lemma set_range_length `{MapOrder K} (s : gset K) : length (set_range s) = size s.
Proof.
  rewrite <- (size_list_to_set (C := gset K)) by apply set_range_nodup. f_equal.
  apply set_eq. intros x. by rewrite elem_of_list_to_set, set_range_elem.
Qed.

(** Nested loops as one loop over what they visit. *)
Lemma foldl_omap {A B C} (g : A -> option B) (f : C -> B -> C) acc l :
  foldl (fun acc x => match g x with Some y => f acc y | None => acc end) acc l = foldl f acc (omap g l).
Proof. revert acc. induction l as [|x l IH]; intros acc; cbn; [done|]. by destruct (g x); cbn; rewrite IH. Qed.

Lemma foldl_bind {A B C} (g : A -> list B) (f : C -> B -> C) acc l :
  foldl (fun acc x => foldl f acc (g x)) acc l = foldl f acc (l ≫= g).
Proof. revert acc. induction l as [|x l IH]; intros acc; cbn; [done|]. by rewrite foldl_app, IH. Qed.

Lemma NoDup_omap_inj {A B} (g : A -> option B) l :
  (forall x y z, g x = Some z -> g y = Some z -> x = y) -> NoDup l -> NoDup (omap g l).
Proof.
  intros Hinj. induction 1 as [|x l Hx _ IH]; cbn; [constructor|]. destruct (g x) as [y|] eqn:E; [|done].
  constructor; [|done]. intros (z & Hz & E')%list_elem_of_omap. by rewrite (Hinj _ _ _ E E') in Hx.
Qed.

#[export] Instance cmp_compare_order : GoOrder cmp_compare.
Proof.
  split.
  - intros a b. pose proof (cmp_compare_spec a b). pose proof (cmp_compare_spec b a). lia.
  - intros a b c. pose proof (cmp_compare_spec a b). pose proof (cmp_compare_spec b c).
    pose proof (cmp_compare_spec a c). lia.
Qed.

Lemma string_compare_spec a b : string_compare a b = 0%Z <-> a = b.
Proof.
  unfold string_compare. split.
  - destruct (String.compare a b) eqn:E; [|done|done]. intros _. by apply String.compare_eq_iff.
  - intros ->. assert (String.compare b b = Eq) as ->; [|done].
    pose proof (String.compare_antisym b b). by destruct (String.compare b b).
Qed.

#[export] Instance string_compare_order : GoOrder string_compare.
Proof.
  assert (forall a b, (string_compare a b <= 0)%Z <-> String.le a b) as Hle.
  { intros a b. unfold string_compare, String.le, String.leb. by destruct (String.compare a b). }
  split.
  - intros a b. unfold string_compare. rewrite (String.compare_antisym a b).
    destruct (String.compare b a); cbn; lia.
  - intros a b c. rewrite !Hle. intros. by etransitivity.
Qed.

Lemma order_lt {A} (cmp : A -> A -> Z) `{!GoOrder cmp} a b : (cmp a b < 0 <-> 0 < cmp b a)%Z.
Proof. pose proof (order_flip a b). pose proof (order_flip b a). lia. Qed.

Lemma order_eq {A} (cmp : A -> A -> Z) `{!GoOrder cmp} a b : (cmp a b = 0 <-> cmp b a = 0)%Z.
Proof. pose proof (order_flip a b). pose proof (order_flip b a). lia. Qed.

Section sort_func.
Context {A} (cmp : A -> A -> Z) `{!GoOrder cmp}.
#[local] Instance le_trans : Transitive (fun a b => (cmp a b <= 0)%Z).
Proof. intros a b c. apply order_trans. Qed.
#[local] Instance le_total : Total (fun a b => (cmp a b <= 0)%Z).
Proof. intros a b. pose proof (order_flip a b). lia. Qed.

Lemma SortFunc_perm l : SortFunc cmp l ≡ₚ l.
Proof. apply merge_sort_Permutation. Qed.

Lemma SortFunc_sorted l : StronglySorted (fun a b => (cmp a b <= 0)%Z) (SortFunc cmp l).
Proof. apply StronglySorted_merge_sort; apply _. Qed.

(** Sorting lists of the same distinct elements gives the same list. *)
Lemma sorted_unique l1 l2 :
  (forall a b, a ∈ l1 -> b ∈ l1 -> cmp a b = 0%Z -> a = b) ->
  StronglySorted (fun a b => (cmp a b <= 0)%Z) l1 -> StronglySorted (fun a b => (cmp a b <= 0)%Z) l2 ->
  l1 ≡ₚ l2 -> l1 = l2.
Proof.
  intros Hanti H1 H2 Hp. apply (StronglySorted_unique_strong (fun a b => (cmp a b <= 0)%Z)); [|done..].
  intros a b Ha Hb. rewrite <- Hp in Hb. intros. apply Hanti; [done..|].
  pose proof (order_flip b a). lia.
Qed.

Lemma SortFunc_unique l1 l2 :
  (forall a b, a ∈ l1 -> b ∈ l1 -> cmp a b = 0%Z -> a = b) -> l1 ≡ₚ l2 -> SortFunc cmp l1 = SortFunc cmp l2.
Proof.
  intros Hanti Hp. apply sorted_unique; [|apply SortFunc_sorted..|by rewrite !SortFunc_perm].
  intros a b. rewrite !SortFunc_perm. apply Hanti.
Qed.

Lemma SortFunc_strict l :
  (forall a b, a ∈ l -> b ∈ l -> cmp a b = 0%Z -> a = b) -> NoDup l ->
  StronglySorted (fun a b => (cmp a b < 0)%Z) (SortFunc cmp l).
Proof.
  intros Hanti Hnd. assert (NoDup (SortFunc cmp l)) as Hnd' by (by rewrite SortFunc_perm).
  assert (forall x, x ∈ SortFunc cmp l -> x ∈ l) as Hin by (intros x; by rewrite SortFunc_perm).
  pose proof (SortFunc_sorted l) as Hs. induction Hs as [|x xs Hs IH Hle]; constructor.
  - apply NoDup_cons in Hnd' as [_ ?]. apply IH; [done|]. intros y Hy. apply Hin. by right.
  - apply NoDup_cons in Hnd' as [Hx _]. rewrite Forall_forall in Hle |- *. intros y Hy. specialize (Hle y Hy).
    assert (cmp x y <> 0%Z); [|lia]. intros E. apply Hx. rewrite (Hanti x y); [done|apply Hin; left|apply Hin; by right|done].
Qed.
End sort_func.

(** Lexicographic composition, and comparison through a projection. *)
Definition lex_cmp {A} (c1 c2 : A -> A -> Z) (a b : A) : Z := if (c1 a b =? 0)%Z then c2 a b else c1 a b.

#[export] Instance lex_cmp_order {A} (c1 c2 : A -> A -> Z) `{!GoOrder c1, !GoOrder c2} : GoOrder (lex_cmp c1 c2).
Proof.
  unfold lex_cmp. split.
  - intros a b. pose proof (order_flip (cmp := c1) a b). pose proof (order_flip (cmp := c1) b a).
    pose proof (order_flip (cmp := c2) a b).
    destruct (Z.eqb_spec (c1 a b) 0), (Z.eqb_spec (c1 b a) 0); lia.
  - intros a b c. pose proof (order_trans (cmp := c1) a b c). pose proof (order_trans (cmp := c2) a b c).
    pose proof (order_trans (cmp := c1) c a b). pose proof (order_trans (cmp := c1) b c a).
    pose proof (order_flip (cmp := c1) a b). pose proof (order_flip (cmp := c1) b a).
    pose proof (order_flip (cmp := c1) b c). pose proof (order_flip (cmp := c1) c b).
    pose proof (order_flip (cmp := c1) a c). pose proof (order_flip (cmp := c1) c a).
    destruct (Z.eqb_spec (c1 a b) 0), (Z.eqb_spec (c1 b c) 0), (Z.eqb_spec (c1 a c) 0); lia.
Qed.

Lemma on_order {A B} (f : B -> A) (c : A -> A -> Z) `{!GoOrder c} : GoOrder (fun a b => c (f a) (f b)).
Proof. split; intros; [apply order_flip; apply _|by eapply order_trans]. Qed.

#[export] Instance const_order {A} : GoOrder (fun _ _ : A => 0%Z).
Proof. split; intros; lia. Qed.
