(* ===== verification/GoBytes.v ===== *)
(** * Byte buffers and [encoding/binary]

    The big-endian accessors of Go's standard library on byte slices, over the
    byte-list splitting of coqutil. *)
From S2P Require Import Prelude.
From coqutil Require LittleEndianList.
Import LittleEndianList(le_split, le_combine, length_le_split, le_combine_split, split_le_combine, le_combine_bound).

(** [binary.BigEndian.PutUintN] of [n] bytes into [buf[off:]]. *)
Definition be_put (n : nat) (v : Z) : list byte := rev (le_split n v).
Definition be_get (bs : list byte) : Z := le_combine (rev bs).

Definition PutUint (n : nat) (buf : list byte) (off v : Z) : outcome (list byte) :=
  if (0 <=? off)%Z && (off + Z.of_nat n <=? zlen buf)%Z
  then copy_at buf off (be_put n v) else Panic.

(** [binary.BigEndian.UintN(buf)]: the first [n] bytes, a panic when there are fewer. *)
Definition Uint (n : nat) (buf : list byte) : outcome Z :=
  head ← slice buf 0 (Z.of_nat n); Ok (be_get head).

Definition string_bytes (s : string) : list byte := String.list_byte_of_string s.
Definition bytes_string (bs : list byte) : string := String.string_of_list_byte bs.

(** [make([]byte, n)]. *)
Definition make_bytes (n : Z) : outcome (list byte) :=
  if (0 <=? n)%Z then Ok (replicate (Z.to_nat n) Byte.x00) else Panic.

(** * Lemmas *)

Lemma zlen_be_put n v : zlen (be_put n v) = Z.of_nat n.
Proof. unfold zlen, be_put. by rewrite length_rev, length_le_split. Qed.
#[export] Hint Rewrite zlen_be_put : nestory.

Lemma be_get_put n v : be_get (be_put n v) = (v mod 2 ^ (8 * Z.of_nat n))%Z.
Proof. unfold be_get, be_put. rewrite rev_involutive, le_combine_split. do 2 f_equal. lia. Qed.

Lemma be_put_get n bs : length bs = n -> be_put n (be_get bs) = bs.
Proof.
  intros <-. unfold be_get, be_put. rewrite <- (length_rev bs), split_le_combine.
  apply rev_involutive.
Qed.

Lemma be_get_range bs : uint_range (8 * zlen bs) (be_get bs).
Proof.
  unfold be_get, uint_range, zlen. pose proof (le_combine_bound (rev bs)) as H.
  by rewrite length_rev in H.
Qed.

Lemma PutUint_joints (a gap c : list byte) n off v :
  off = zlen a -> zlen gap = Z.of_nat n ->
  PutUint n (a ++ gap ++ c) off v = Ok (a ++ be_put n v ++ c).
Proof.
  intros -> Hg. unfold PutUint. autorewrite with nestory.
  pose proof (zlen_nonneg a). pose proof (zlen_nonneg c).
  destruct (_ && _) eqn:E; [|lia]. apply copy_at_joints; [done|].
  by rewrite zlen_be_put.
Qed.

Lemma Uint_put n v rest :
  uint_range (8 * Z.of_nat n) v -> Uint n (be_put n v ++ rest) = Ok v.
Proof.
  intros Hv. unfold Uint.
  assert (slice (be_put n v ++ rest) 0 (Z.of_nat n) = Ok (be_put n v)) as ->.
  { apply (slice_joints [] (be_put n v) rest); [done|]. by rewrite zlen_be_put. }
  simpl. f_equal. rewrite be_get_put. by apply Z.mod_small.
Qed.

(** Reading never fails on a long enough buffer and tells what the bytes were. *)
Lemma Uint_inv n buf v :
  Uint n buf = Ok v ->
  exists rest, buf = be_put n v ++ rest /\ uint_range (8 * Z.of_nat n) v.
Proof.
  unfold Uint. intros H. bind_ok H. inv_ok.
  apply slice_inv in E as (_ & _ & a & c & -> & La & Lb).
  destruct a; [|unfold zlen in La; simpl in La; lia].
  exists c. simpl. unfold zlen in Lb. split.
  - f_equal. symmetry. apply be_put_get. lia.
  - replace (Z.of_nat n) with (zlen v0) by (unfold zlen; lia). apply be_get_range.
Qed.

Lemma Uint_ok n buf : (Z.of_nat n <= zlen buf)%Z -> exists v, Uint n buf = Ok v.
Proof.
  intros H. unfold Uint.
  destruct (slice_ok buf 0 (Z.of_nat n)) as (? & b & ? & _ & _ & _ & ->); [lia|lia|].
  simpl. eauto.
Qed.

Lemma slice_from_ok {A} (l : list A) lo :
  (0 <= lo <= zlen l)%Z -> exists a b, l = a ++ b /\ zlen a = lo /\ slice_from l lo = Ok b.
Proof.
  intros H. destruct (slice_ok l lo (zlen l)) as (a & b & c & E & La & Lb & S); [lia|lia|].
  assert (c = []) as ->.
  { apply (f_equal zlen) in E. autorewrite with nestory in E. destruct c; [done|].
    rewrite zlen_cons in E. pose proof (zlen_nonneg c). lia. }
  exists a, b. rewrite app_nil_r in E. auto.
Qed.

Lemma bytes_string_bytes s : bytes_string (string_bytes s) = s.
Proof. apply String.string_of_list_byte_of_string. Qed.
Lemma string_bytes_string bs : string_bytes (bytes_string bs) = bs.
Proof. apply String.list_byte_of_string_of_list_byte. Qed.
#[export] Hint Rewrite bytes_string_bytes string_bytes_string : nestory.
