(* ===== verification/WalFrame.v ===== *)
(** * WAL frames (src/wal.go, lines 21-37, 74-136 and 219-287)

    The two binary frame codecs: the per-type log ([walRow]) and the
    instance-wide transaction log ([transactionWALRow]). Both encoders fill a
    preallocated buffer by offset and both decoders walk a buffer by offset;
    [RowFormat] states what the two row layouts have in common, and the frame
    theorems are proved once against it. *)
From S2P Require Import Prelude GoBytes.

(** ** Data *)

Record walRow := { Id : Z; Row : list byte }.
Record walFrame := { Rows : list walRow }.
Record transactionWALRow := { Type_ : string; row_ : walRow }.
Record transactionWALFrame := { TRows : list transactionWALRow }.

Definition frameHeader : Z := 4.
Definition walRowHeader : Z := 12.
Definition transactionRowHeader : Z := 16.

(** ** Encoders *)

(** The loop body that writes one row at [offset]. *)
Definition putWALRow (st : list byte * Z) (row : walRow) : outcome (list byte * Z) :=
  let '(frame, offset) := st in
  frame ← PutUint 8 frame offset (to_uint 64 (Id row));
  frame ← PutUint 4 frame (offset + 8) (to_uint 32 (zlen (Row row)));
  frame ← copy_at frame (offset + walRowHeader) (Row row);
  Ok (frame, offset + (walRowHeader + zlen (Row row)))%Z.

Definition encodeWALFrame (rec : walFrame) : outcome (list byte) :=
  let bodySize := foldl (fun acc row =>
    to_uint 64 (acc + (walRowHeader + zlen (Row row)))) frameHeader (Rows rec) in
  when (maxUint32 <? bodySize)%Z || (maxUint32 <? zlen (Rows rec))%Z =>
    Fail (ErrText "nestory: WAL frame is too large") ;;
  frame ← make_bytes (frameHeader + to_sint 64 bodySize);
  frame ← PutUint 4 frame 0 (to_uint 32 bodySize);
  frame ← PutUint 4 frame frameHeader (to_uint 32 (zlen (Rows rec)));
  st ← fold_outcome putWALRow (frame, (frameHeader * 2)%Z) (Rows rec);
  Ok st.1.

Definition putTransactionWALRow (st : list byte * Z) (row : transactionWALRow) : outcome (list byte * Z) :=
  let '(frame, offset) := st in
  let typ := string_bytes (Type_ row) in
  let data := Row (row_ row) in
  frame ← PutUint 4 frame offset (to_uint 32 (zlen typ));
  frame ← PutUint 8 frame (offset + 4) (to_uint 64 (Id (row_ row)));
  frame ← PutUint 4 frame (offset + 12) (to_uint 32 (zlen data));
  frame ← copy_at frame (offset + transactionRowHeader) typ;
  frame ← copy_at frame (offset + transactionRowHeader + zlen typ) data;
  Ok (frame, offset + (transactionRowHeader + zlen typ + zlen data))%Z.

Definition encodeTransactionWALFrame (rec : transactionWALFrame) : outcome (list byte) :=
  let bodySize := foldl (fun acc row =>
    to_uint 64 (acc + (transactionRowHeader + zlen (string_bytes (Type_ row)) + zlen (Row (row_ row)))))
    frameHeader (TRows rec) in
  when (maxUint32 <? bodySize)%Z || (maxUint32 <? zlen (TRows rec))%Z =>
    Fail (ErrText "nestory: transaction WAL frame is too large") ;;
  frame ← make_bytes (frameHeader + to_sint 64 bodySize);
  frame ← PutUint 4 frame 0 (to_uint 32 bodySize);
  frame ← PutUint 4 frame frameHeader (to_uint 32 (zlen (TRows rec)));
  st ← fold_outcome putTransactionWALRow (frame, (frameHeader * 2)%Z) (TRows rec);
  Ok st.1.

(** ** Decoders: [(rows, valid)] *)

Definition decodeWALRow (body : list byte) (st : list walRow * Z) :
    outcome ((list walRow * Z) + (list walRow * bool)) :=
  let '(rows, offset) := st in
  when (zlen body - offset <? walRowHeader)%Z => Ok (inr ([], false)) ;;
  at_id ← slice_from body offset;
  raw ← Uint 8 at_id;
  let id := to_sint 64 raw in
  at_size ← slice_from body (offset + 8);
  rowSize ← Uint 4 at_size;
  let offset := (offset + walRowHeader)%Z in
  when (zlen body - offset <? rowSize)%Z => Ok (inr ([], false)) ;;
  data ← slice body offset (offset + rowSize);
  Ok (inl (rows ++ [{| Id := id; Row := data |}], offset + rowSize)%Z).

Definition decodeWALFrame (body : list byte) : outcome (list walRow * bool) :=
  when (zlen body <? 4)%Z => Ok ([], false) ;;
  count ← Uint 4 body;
  when ((zlen body - 4) `quot` walRowHeader <? count)%Z => Ok ([], false) ;;
  r ← for_range (Z.to_nat count) (decodeWALRow body) ([], 4%Z);
  match r with
  | inr ret => Ok ret
  | inl (rows, offset) => Ok (rows, (offset =? zlen body)%Z)
  end.

Definition decodeTransactionWALRow (body : list byte) (st : list transactionWALRow * Z) :
    outcome ((list transactionWALRow * Z) + (list transactionWALRow * bool)) :=
  let '(rows, offset) := st in
  when (zlen body - offset <? transactionRowHeader)%Z => Ok (inr ([], false)) ;;
  at_type ← slice_from body offset;
  typeSize ← Uint 4 at_type;
  at_id ← slice_from body (offset + 4);
  raw ← Uint 8 at_id;
  let id := to_sint 64 raw in
  at_size ← slice_from body (offset + 12);
  rowSize ← Uint 4 at_size;
  let offset := (offset + transactionRowHeader)%Z in
  when (zlen body - offset <? typeSize)%Z || (zlen body - offset - typeSize <? rowSize)%Z =>
    Ok (inr ([], false)) ;;
  name ← slice body offset (offset + typeSize);
  let offset := (offset + typeSize)%Z in
  data ← slice body offset (offset + rowSize);
  Ok (inl (rows ++ [{| Type_ := bytes_string name; row_ := {| Id := id; Row := data |} |}],
           offset + rowSize)%Z).

Definition decodeTransactionWALFrame (body : list byte) : outcome (list transactionWALRow * bool) :=
  when (zlen body <? 4)%Z => Ok ([], false) ;;
  count ← Uint 4 body;
  when ((zlen body - 4) `quot` transactionRowHeader <? count)%Z => Ok ([], false) ;;
  r ← for_range (Z.to_nat count) (decodeTransactionWALRow body) ([], 4%Z);
  match r with
  | inr ret => Ok ret
  | inl (rows, offset) => Ok (rows, (offset =? zlen body)%Z)
  end.

(** ** What a row layout promises to the frame codec *)

Class RowFormat (R : Type) := {
  row_header : Z;
  row_bytes : R -> list byte;
  row_ok : R -> Prop;
  row_put : list byte * Z -> R -> outcome (list byte * Z);
  row_step : list byte -> list R * Z -> outcome ((list R * Z) + (list R * bool));
  row_header_pos : (0 < row_header)%Z;
  row_header_le : forall r, (row_header <= zlen (row_bytes r))%Z;
  row_put_spec : forall pre gap post r,
    zlen gap = zlen (row_bytes r) ->
    row_put (pre ++ gap ++ post, zlen pre) r =
    Ok (pre ++ row_bytes r ++ post, zlen pre + zlen (row_bytes r))%Z;
  row_step_spec : forall pre post acc r,
    row_ok r ->
    row_step (pre ++ row_bytes r ++ post) (acc, zlen pre) =
    Ok (inl (acc ++ [r], zlen pre + zlen (row_bytes r)))%Z;
  row_step_total : forall body acc off,
    (0 <= off <= zlen body)%Z ->
    row_step body (acc, off) = Ok (inr ([], false)) \/
    exists pre post r, row_ok r /\ body = pre ++ row_bytes r ++ post /\ zlen pre = off;
}.

(** The reference layout of a frame: length prefix, row count, rows. *)
Definition frame_body `{RowFormat R} (rows : list R) : list byte :=
  be_put 4 (zlen rows) ++ concat (row_bytes <$> rows).
Definition frame_bytes `{RowFormat R} (rows : list R) : list byte :=
  be_put 4 (zlen (frame_body rows)) ++ frame_body rows.
(** Rows an encoder accepts and a decoder gives back unchanged. *)
Definition frame_ok `{RowFormat R} (rows : list R) : Prop :=
  Forall row_ok rows /\ (zlen (frame_body rows) <= maxUint32)%Z.

(** One lemma for the two decoders: [decode] is their common shape. *)
Definition decode_shape `{RowFormat R} (body : list byte) : outcome (list R * bool) :=
  when (zlen body <? 4)%Z => Ok ([], false) ;;
  count ← Uint 4 body;
  when ((zlen body - 4) `quot` row_header <? count)%Z => Ok ([], false) ;;
  r ← for_range (Z.to_nat count) (row_step body) ([], 4%Z);
  match r with
  | inr ret => Ok ret
  | inl (rows, offset) => Ok (rows, (offset =? zlen body)%Z)
  end.

(** The two row layouts. *)
Definition wal_row_bytes (r : walRow) : list byte :=
  be_put 8 (to_uint 64 (Id r)) ++ be_put 4 (to_uint 32 (zlen (Row r))) ++ Row r.
Definition wal_row_ok (r : walRow) : Prop :=
  sint_range 64 (Id r) /\ (zlen (Row r) <= maxUint32)%Z.

Definition transaction_row_bytes (r : transactionWALRow) : list byte :=
  be_put 4 (to_uint 32 (zlen (string_bytes (Type_ r)))) ++ be_put 8 (to_uint 64 (Id (row_ r))) ++
  be_put 4 (to_uint 32 (zlen (Row (row_ r)))) ++ string_bytes (Type_ r) ++ Row (row_ r).
Definition transaction_row_ok (r : transactionWALRow) : Prop :=
  wal_row_ok (row_ r) /\ (zlen (string_bytes (Type_ r)) <= maxUint32)%Z.

(** Rows used by the examples. *)
Definition sample_rows : list walRow :=
  [{| Id := 7; Row := [Byte.x01; Byte.x2a] |}; {| Id := -3; Row := [] |}].

(** * Lemmas *)

Section frame_lemmas.
Context `{RowFormat R}.
Implicit Types (rows : list R) (body : list byte).

Lemma row_put_all rows pre gap :
  zlen gap = zlen (concat (row_bytes <$> rows)) ->
  fold_outcome row_put (pre ++ gap, zlen pre) rows =
  Ok (pre ++ concat (row_bytes <$> rows), zlen pre + zlen (concat (row_bytes <$> rows)))%Z.
Proof.
  revert pre gap. induction rows as [|r rows IH]; intros pre gap Hg; csimpl in *.
  { apply zlen_0_inv in Hg as ->. by rewrite zlen_nil, Z.add_0_r. }
  rewrite zlen_app in Hg.
  destruct (slice_ok gap 0 (zlen (row_bytes r))) as (a & g1 & g2 & -> & La & Lg & _).
  { pose proof (zlen_nonneg (row_bytes r)); lia. }
  { pose proof (zlen_nonneg (concat (row_bytes <$> rows))); lia. }
  apply zlen_0_inv in La as ->. cbn [app] in *.
  rewrite row_put_spec by lia. csimpl.
  rewrite zlen_app in Hg. specialize (IH (pre ++ row_bytes r) g2).
  rewrite zlen_app, <- !app_assoc in IH. rewrite IH by lia.
  rewrite zlen_app. by rewrite Z.add_assoc.
Qed.

Lemma row_step_all rows pre post acc :
  Forall row_ok rows ->
  for_range (length rows) (row_step (pre ++ concat (row_bytes <$> rows) ++ post)) (acc, zlen pre) =
  Ok (inl (acc ++ rows, zlen pre + zlen (concat (row_bytes <$> rows))))%Z.
Proof.
  intros Hok. revert pre acc. induction Hok as [|r rows Hr Hok IH]; intros pre acc; csimpl.
  { by rewrite app_nil_r, Z.add_0_r. }
  rewrite <- app_assoc, row_step_spec by done. csimpl.
  specialize (IH (pre ++ row_bytes r) (acc ++ [r])).
  rewrite zlen_app, <- !app_assoc in IH. rewrite IH, zlen_app. by rewrite Z.add_assoc.
Qed.

(** Running the decoder loop on any buffer either rejects or has consumed
    exactly the layout of the rows it accumulated. *)
Lemma row_step_sound n body acc off :
  (0 <= off <= zlen body)%Z ->
  for_range n (row_step body) (acc, off) = Ok (inr ([], false)) \/
  exists pre post rows,
    Forall row_ok rows /\ length rows = n /\ zlen pre = off /\
    body = pre ++ concat (row_bytes <$> rows) ++ post /\
    for_range n (row_step body) (acc, off) =
      Ok (inl (acc ++ rows, off + zlen (concat (row_bytes <$> rows))))%Z.
Proof.
  revert acc off. induction n as [|n IH]; intros acc off Hoff.
  { right. destruct (slice_from_ok body off Hoff) as (a & b & -> & La & _).
    exists a, b, []. simpl. rewrite app_nil_r, Z.add_0_r. auto. }
  cbn [for_range]. destruct (row_step_total body acc off Hoff)
    as [-> | (pre & post & r & Hr & Hb & Hp)]; [by left|].
  rewrite Hb, <- Hp, row_step_spec by done. cbn [mbind outcome_bind].
  rewrite <- Hb.
  destruct (IH (acc ++ [r]) (zlen pre + zlen (row_bytes r))%Z)
    as [-> | (pre' & post' & rows & Hok & Hlen & Hpre & Hbody & ->)].
  - rewrite Hb. autorewrite with nestory. pose proof (zlen_nonneg pre).
    pose proof (zlen_nonneg post). pose proof (zlen_nonneg (row_bytes r)). lia.
  - by left.
  - right. exists pre, post', (r :: rows). simpl. rewrite <- !app_assoc, zlen_app, Z.add_assoc.
    assert (pre' = pre ++ row_bytes r) as ->.
    { rewrite Hb, app_assoc in Hbody. eapply app_inj_1 in Hbody as [? _]; [done|].
      rewrite <- zlen_app in Hpre. unfold zlen in Hpre. lia. }
    rewrite <- app_assoc in Hbody. split_and!; auto.
Qed.

Lemma concat_rows_ge rows :
  (row_header * zlen rows <= zlen (concat (row_bytes <$> rows)))%Z.
Proof.
  induction rows as [|r rows IH]; csimpl; [autorewrite with nestory; lia|].
  autorewrite with nestory. pose proof (row_header_le r). lia.
Qed.

Lemma zlen_frame_body rows :
  zlen (frame_body rows) = (4 + zlen (concat (row_bytes <$> rows)))%Z.
Proof. unfold frame_body. by autorewrite with nestory. Qed.

Lemma zlen_frame_bytes rows : zlen (frame_bytes rows) = (4 + zlen (frame_body rows))%Z.
Proof. unfold frame_bytes. by autorewrite with nestory. Qed.

Lemma frame_ok_count rows : frame_ok rows -> (0 <= zlen rows <= maxUint32)%Z.
Proof.
  intros [_ Hle]. rewrite zlen_frame_body in Hle. pose proof (concat_rows_ge rows).
  pose proof row_header_pos. pose proof (zlen_nonneg rows). split; [done|]. nia.
Qed.

(** The buffer the encoders allocate and fill is the reference layout. *)
Lemma fill_frame rows size :
  size = zlen (frame_body rows) -> (size <= maxUint32)%Z ->
  (frame ← make_bytes (4 + to_sint 64 size);
   frame ← PutUint 4 frame 0 (to_uint 32 size);
   frame ← PutUint 4 frame 4 (to_uint 32 (zlen rows));
   st ← fold_outcome row_put (frame, (4 * 2)%Z) rows; Ok st.1) = Ok (frame_bytes rows).
Proof.
  intros -> Hle. unfold maxUint32 in Hle.
  pose proof (zlen_nonneg (frame_body rows)).
  rewrite to_sint_small by (unfold sint_range; lia).
  pose proof (zlen_nonneg rows). pose proof (concat_rows_ge rows). pose proof row_header_pos.
  assert (zlen rows < 2 ^ 32)%Z by (rewrite zlen_frame_body in Hle; nia).
  rewrite (to_uint_small 32 (zlen rows)), (to_uint_small 32 (zlen (frame_body rows)))
    by (unfold uint_range; lia).
  unfold make_bytes. destruct (Z.leb_spec 0 (4 + zlen (frame_body rows))); [|lia].
  cbn [mbind outcome_bind].
  set (g := concat (row_bytes <$> rows)).
  replace (replicate (Z.to_nat (4 + zlen (frame_body rows))) Byte.x00)
    with ([] ++ replicate 4 Byte.x00 ++ replicate 4 Byte.x00 ++ replicate (length g) Byte.x00).
  2:{ rewrite zlen_frame_body, app_nil_l.
      rewrite <- !replicate_add. f_equal. unfold g, zlen. lia. }
  rewrite PutUint_joints by done. cbn [mbind outcome_bind app].
  rewrite PutUint_joints by done. cbn [mbind outcome_bind].
  rewrite app_assoc.
  replace (4 * 2)%Z with (zlen (be_put 4 (zlen (frame_body rows)) ++ be_put 4 (zlen rows)))
    by (by rewrite zlen_app, !zlen_be_put).
  rewrite row_put_all; [|unfold g; by rewrite zlen_replicate].
  cbn [mbind outcome_bind fst]. rewrite <- app_assoc. reflexivity.
Qed.

Lemma bodySize_spec (sz : R -> Z) rows acc :
  (forall r, sz r = zlen (row_bytes r)) -> (0 <= acc)%Z ->
  (acc + zlen (concat (row_bytes <$> rows)) < 2 ^ 64)%Z ->
  foldl (fun a r => to_uint 64 (a + sz r)) acc rows =
  (acc + zlen (concat (row_bytes <$> rows)))%Z.
Proof.
  intros Hsz. revert acc. induction rows as [|r rows IH]; intros acc H0 Hlt; csimpl in *.
  { by rewrite Z.add_0_r. }
  autorewrite with nestory in *. pose proof (zlen_nonneg (row_bytes r)).
  pose proof (zlen_nonneg (concat (row_bytes <$> rows))).
  rewrite Hsz, to_uint_small by (unfold uint_range; lia). rewrite IH by lia. lia.
Qed.

Lemma decode_shape_frame rows :
  frame_ok rows -> decode_shape (frame_body rows) = Ok (rows, true).
Proof.
  intros Hok. pose proof (frame_ok_count rows Hok) as Hcount. destruct Hok as [Hok Hle].
  unfold decode_shape. rewrite zlen_frame_body in *. pose proof row_header_pos.
  pose proof (concat_rows_ge rows). pose proof (zlen_nonneg (concat (row_bytes <$> rows))).
  destruct (Z.ltb_spec (4 + zlen (concat (row_bytes <$> rows))) 4); [lia|].
  unfold frame_body. rewrite Uint_put by (unfold uint_range, maxUint32 in *; lia).
  cbn [mbind outcome_bind].
  rewrite Z.quot_div_nonneg by lia.
  destruct (Z.ltb_spec ((4 + zlen (concat (row_bytes <$> rows)) - 4) / row_header) (zlen rows)) as [Hlt|_].
  { exfalso. assert (zlen rows <= (4 + zlen (concat (row_bytes <$> rows)) - 4) / row_header)%Z;
      [|lia]. apply Z.div_le_lower_bound; lia. }
  pose proof (row_step_all rows (be_put 4 (zlen rows)) [] [] Hok) as E.
  rewrite app_nil_r, zlen_be_put in E. rewrite to_nat_zlen.
  change (Z.of_nat 4) with 4%Z in E. rewrite E. cbn [mbind outcome_bind app].
  by rewrite Z.eqb_refl.
Qed.

Lemma decode_shape_sound body :
  decode_shape body = Ok ([], false) \/
  (exists rows post, Forall row_ok rows /\ body = be_put 4 (zlen rows) ++ concat (row_bytes <$> rows) ++ post /\
     decode_shape body = Ok (rows, bool_decide (post = []))).
Proof.
  unfold decode_shape. destruct (Z.ltb_spec (zlen body) 4); [by left|].
  destruct (Uint_ok 4 body) as [count Hcount]; [lia|]. rewrite Hcount. cbn [mbind outcome_bind].
  destruct (Z.ltb_spec ((zlen body - 4) `quot` row_header) count); [by left|].
  apply Uint_inv in Hcount as (rest & Hrest & Hrange).
  destruct (row_step_sound (Z.to_nat count) body [] 4)
    as [-> | (pre & post & rows & Hok & Hlen & Hpre & Hbody & ->)]; [lia|by left|].
  right. exists rows, post. cbn [mbind outcome_bind app].
  assert (count = zlen rows) as -> by (unfold zlen, uint_range in *; lia).
  assert (pre = be_put 4 (zlen rows)) as ->.
  { rewrite Hrest in Hbody. eapply app_inj_1 in Hbody as [? _]; [done|].
    pose proof (zlen_be_put 4 (zlen rows)). unfold zlen in *. lia. }
  split_and!; auto. f_equal. f_equal. rewrite Hbody. autorewrite with nestory.
  destruct post as [|b post]; [rewrite bool_decide_true by done; apply Z.eqb_eq; rewrite zlen_nil; lia|].
  rewrite bool_decide_false by done. apply Z.eqb_neq. rewrite zlen_cons. pose proof (zlen_nonneg post). lia.
Qed.

(** Frames are self-delimiting: equal concatenations start with equal frames. *)
Lemma frame_body_inj rows rows' :
  frame_ok rows -> frame_ok rows' -> frame_body rows = frame_body rows' -> rows = rows'.
Proof.
  intros H1 H2 E. apply decode_shape_frame in H1, H2. rewrite E in H1. congruence.
Qed.
End frame_lemmas.

(** ** The two instances *)

(** Peel a gap of known length into the blocks the encoder writes. *)
Lemma split_gap {A} (gap : list A) n m :
  zlen gap = (n + m)%Z -> (0 <= n)%Z -> (0 <= m)%Z ->
  exists g1 g2, gap = g1 ++ g2 /\ zlen g1 = n /\ zlen g2 = m.
Proof.
  intros Hg Hn Hm. destruct (slice_from_ok gap n) as (a & b & -> & La & _); [lia|].
  exists a, b. rewrite zlen_app in Hg. split_and!; auto; lia.
Qed.

(** Reading back a block of the layout at its offset. *)
Lemma read_uint n body off v pre post :
  body = pre ++ be_put n v ++ post -> off = zlen pre -> uint_range (8 * Z.of_nat n) v ->
  exists b, slice_from body off = Ok b /\ Uint n b = Ok v.
Proof.
  intros -> -> Hv. eexists. split; [by apply slice_from_joint|by apply Uint_put].
Qed.

Lemma read_slice body lo hi (pre b post : list byte) :
  body = pre ++ b ++ post -> lo = zlen pre -> hi = (zlen pre + zlen b)%Z -> slice body lo hi = Ok b.
Proof. intros -> -> ->. by apply slice_joints. Qed.

(** Reading an integer at an in-range offset exposes the bytes it was read from. *)
Lemma Uint_at n body off :
  (0 <= off)%Z -> (off + Z.of_nat n <= zlen body)%Z ->
  exists v b pre post, slice_from body off = Ok b /\ Uint n b = Ok v /\
    uint_range (8 * Z.of_nat n) v /\ zlen pre = off /\ b = be_put n v ++ post /\
    body = pre ++ be_put n v ++ post.
Proof.
  intros H1 H2. destruct (slice_from_ok body off) as (pre & b & -> & Hp & ->); [lia|].
  rewrite zlen_app in H2. destruct (Uint_ok n b) as [v Hv]; [lia|].
  pose proof (Uint_inv n b v Hv) as (post & -> & Hr).
  exists v, (be_put n v ++ post), pre, post. auto 10.
Qed.

(** Two readings of one buffer at consecutive offsets agree on the prefix. *)
Lemma next_prefix (body p b q p' r : list byte) :
  body = p ++ b ++ q -> body = p' ++ r -> zlen p' = (zlen p + zlen b)%Z -> p' = p ++ b.
Proof.
  intros -> E L. symmetry. eapply zlen_app_inj_l; [by rewrite <- app_assoc|].
  rewrite zlen_app. lia.
Qed.

#[export] Program Instance walRow_format : RowFormat walRow := {|
  row_header := walRowHeader;
  row_bytes := wal_row_bytes;
  row_ok := wal_row_ok;
  row_put := putWALRow;
  row_step := decodeWALRow;
|}.
Next Obligation. done. Qed.
Next Obligation.
  intros r. unfold wal_row_bytes, walRowHeader. autorewrite with nestory.
  pose proof (zlen_nonneg (Row r)). lia.
Qed.
Next Obligation.
  intros pre gap post r Hg. unfold wal_row_bytes in *. autorewrite with nestory in Hg.
  pose proof (zlen_nonneg (Row r)).
  apply split_gap in Hg as (g1 & g & -> & L1 & Hg); [|lia..].
  apply split_gap in Hg as (g2 & g3 & -> & L2 & L3); [|lia..].
  unfold putWALRow. rewrite <- !app_assoc, PutUint_joints by done. cbn [mbind outcome_bind].
  rewrite app_assoc, PutUint_joints by (rewrite ?zlen_app, ?zlen_be_put; done).
  cbn [mbind outcome_bind]. rewrite app_assoc.
  rewrite copy_at_joints by (rewrite ?zlen_app, ?zlen_be_put; unfold walRowHeader; lia).
  cbn [mbind outcome_bind]. rewrite <- !app_assoc. do 2 f_equal.
  autorewrite with nestory. unfold walRowHeader. lia.
Qed.
Next Obligation.
  intros pre post acc r [Hid Hlen].
  set (body := pre ++ wal_row_bytes r ++ post). set (n := zlen (Row r)) in *.
  assert (body = pre ++ wal_row_bytes r ++ post) as E by done. clearbody body.
  unfold wal_row_bytes in E. rewrite <- !app_assoc in E.
  pose proof (zlen_nonneg (Row r)). pose proof (zlen_nonneg post). unfold maxUint32 in *.
  assert (zlen body = zlen pre + (12 + n + zlen post))%Z as Lbody.
  { rewrite E. autorewrite with nestory. unfold n. lia. }
  rewrite (to_uint_small 32) in E by (unfold uint_range; lia).
  destruct (read_uint 8 body (zlen pre) _ _ _ E) as (b1 & S1 & U1); [done|apply to_uint_range; lia|].
  rewrite (app_assoc pre) in E.
  destruct (read_uint 4 body (zlen pre + 8) _ _ _ E) as (b2 & S2 & U2);
    [by rewrite zlen_app, zlen_be_put|unfold uint_range; lia|].
  rewrite (app_assoc (pre ++ _)) in E.
  assert (slice body (zlen pre + 12) (zlen pre + 12 + n) = Ok (Row r)) as S3.
  { eapply read_slice; [exact E|rewrite !zlen_app, !zlen_be_put; fold n; lia..]. }
  unfold decodeWALRow, walRowHeader. rewrite S1, S2. cbn [mbind outcome_bind].
  rewrite U1, U2. cbn [mbind outcome_bind]. fold n. rewrite S3. cbn [mbind outcome_bind].
  destruct (Z.ltb_spec (zlen body - zlen pre) 12); [lia|].
  destruct (Z.ltb_spec (zlen body - (zlen pre + 12)) n); [lia|].
  rewrite to_sint_to_uint by (done || lia). unfold wal_row_bytes. autorewrite with nestory.
  destruct r as [id row]. cbn [Id Row] in *. do 3 f_equal. fold n. lia.
Qed.
Next Obligation.
  intros body acc off Hoff. unfold decodeWALRow.
  destruct (Z.ltb_spec (zlen body - off) walRowHeader) as [|H1]; [by left|].
  unfold walRowHeader in H1.
  destruct (Uint_at 8 body off) as (id & b1 & pre & post & -> & U1 & Rid & Hpre & Hb1 & Hbody); [lia..|].
  destruct (Uint_at 4 body (off + 8)) as (sz & b2 & pre2 & post2 & -> & U2 & Rsz & Hpre2 & Hb2 & Hbody2); [lia..|].
  cbn [mbind outcome_bind]. rewrite U1, U2. cbn [mbind outcome_bind].
  destruct (Z.ltb_spec (zlen body - (off + walRowHeader)) sz) as [|H2]; [by left|].
  right. unfold walRowHeader, uint_range in *.
  destruct (slice_ok body (off + 12) (off + 12 + sz)) as (pre3 & data & post3 & Hbody3 & L3 & Ld & _); [lia..|].
  apply (next_prefix _ _ _ _ _ _ Hbody) in Hbody2 as P2; [|rewrite zlen_be_put; lia]. subst pre2.
  apply (next_prefix _ _ _ _ _ _ Hbody2) in Hbody3 as P3; [|rewrite zlen_be_put; lia]. subst pre3.
  exists pre, post3, {| Id := to_sint 64 id; Row := data |}. split_and!; [|..|done].
  - split; simpl; [apply to_sint_range; lia|unfold maxUint32; lia].
  - unfold wal_row_bytes. cbn [Id Row]. rewrite to_uint_to_sint by (unfold uint_range; lia).
    rewrite to_uint_small by (unfold uint_range; lia).
    replace (zlen data) with sz by lia. rewrite Hbody3 at 1. by rewrite <- !app_assoc.
Qed.

#[export] Program Instance transactionWALRow_format : RowFormat transactionWALRow := {|
  row_header := transactionRowHeader;
  row_bytes := transaction_row_bytes;
  row_ok := transaction_row_ok;
  row_put := putTransactionWALRow;
  row_step := decodeTransactionWALRow;
|}.
Next Obligation. done. Qed.
Next Obligation.
  intros r. unfold transaction_row_bytes, transactionRowHeader. autorewrite with nestory.
  pose proof (zlen_nonneg (Row (row_ r))). pose proof (zlen_nonneg (string_bytes (Type_ r))). lia.
Qed.
Next Obligation.
  intros pre gap post r Hg. unfold transaction_row_bytes, putTransactionWALRow in *.
  autorewrite with nestory in Hg.
  set (typ := string_bytes (Type_ r)) in *. set (data := Row (row_ r)) in *.
  pose proof (zlen_nonneg data). pose proof (zlen_nonneg typ).
  apply split_gap in Hg as (g1 & g & -> & L1 & Hg); [|lia..].
  apply split_gap in Hg as (g2 & g' & -> & L2 & Hg); [|lia..].
  apply split_gap in Hg as (g3 & g'' & -> & L3 & Hg); [|lia..].
  apply split_gap in Hg as (g4 & g5 & -> & L4 & L5); [|lia..].
  cbv zeta. rewrite <- !app_assoc, PutUint_joints by done. cbn [mbind outcome_bind].
  rewrite app_assoc, PutUint_joints by (rewrite ?zlen_app, ?zlen_be_put; done).
  cbn [mbind outcome_bind].
  rewrite app_assoc, PutUint_joints by (rewrite ?zlen_app, ?zlen_be_put; lia).
  cbn [mbind outcome_bind].
  rewrite app_assoc, copy_at_joints by (rewrite ?zlen_app, ?zlen_be_put; unfold transactionRowHeader; lia).
  cbn [mbind outcome_bind].
  rewrite app_assoc, copy_at_joints by (rewrite ?zlen_app, ?zlen_be_put; unfold transactionRowHeader; lia).
  cbn [mbind outcome_bind]. rewrite <- !app_assoc. do 2 f_equal.
  autorewrite with nestory. unfold transactionRowHeader. lia.
Qed.
Next Obligation.
  intros pre post acc r [[Hid Hlen] Htyp].
  set (body := pre ++ transaction_row_bytes r ++ post).
  assert (body = pre ++ transaction_row_bytes r ++ post) as E by done. clearbody body.
  unfold transaction_row_bytes in E. rewrite <- !app_assoc in E.
  set (n := zlen (Row (row_ r))) in *. set (m := zlen (string_bytes (Type_ r))) in *.
  assert (0 <= n /\ 0 <= m)%Z as [? ?] by (split; apply zlen_nonneg).
  pose proof (zlen_nonneg post). unfold maxUint32 in *.
  assert (zlen body = zlen pre + (16 + m + n + zlen post))%Z as Lbody.
  { rewrite E. autorewrite with nestory. fold n m. lia. }
  rewrite !(to_uint_small 32) in E by (unfold uint_range; lia).
  destruct (read_uint 4 body (zlen pre) _ _ _ E) as (b1 & S1 & U1); [done|unfold uint_range; lia|].
  rewrite (app_assoc pre) in E.
  destruct (read_uint 8 body (zlen pre + 4) _ _ _ E) as (b2 & S2 & U2);
    [by rewrite zlen_app, zlen_be_put|apply to_uint_range; lia|].
  rewrite (app_assoc (pre ++ _)) in E.
  destruct (read_uint 4 body (zlen pre + 12) _ _ _ E) as (b3 & S3 & U3);
    [rewrite !zlen_app, !zlen_be_put; lia|unfold uint_range; lia|].
  rewrite (app_assoc ((pre ++ _) ++ _)) in E.
  assert (slice body (zlen pre + 16) (zlen pre + 16 + m) = Ok (string_bytes (Type_ r))) as S4.
  { eapply read_slice; [exact E|rewrite !zlen_app, !zlen_be_put; fold m; lia..]. }
  rewrite (app_assoc (((pre ++ _) ++ _) ++ _)) in E.
  assert (slice body (zlen pre + 16 + m) (zlen pre + 16 + m + n) = Ok (Row (row_ r))) as S5.
  { eapply read_slice; [exact E|rewrite !zlen_app, !zlen_be_put; fold n m; lia..]. }
  unfold decodeTransactionWALRow, transactionRowHeader. rewrite S1, S2, S3. cbn [mbind outcome_bind].
  rewrite U1, U2, U3. cbn [mbind outcome_bind]. fold n m. rewrite S4.
  cbn [mbind outcome_bind]. rewrite S5. cbn [mbind outcome_bind].
  destruct (Z.ltb_spec (zlen body - zlen pre) 16); [lia|].
  destruct (Z.ltb_spec (zlen body - (zlen pre + 16)) m); [lia|].
  destruct (Z.ltb_spec (zlen body - (zlen pre + 16) - m) n); [lia|]. cbn [orb].
  rewrite to_sint_to_uint by (done || lia). rewrite bytes_string_bytes.
  unfold transaction_row_bytes. autorewrite with nestory.
  destruct r as [ty [id row]]. cbn [Type_ row_ Id Row] in *. do 3 f_equal. fold n m. lia.
Qed.
Next Obligation.
  intros body acc off Hoff. unfold decodeTransactionWALRow, transactionRowHeader.
  destruct (Z.ltb_spec (zlen body - off) 16) as [|H1]; [by left|].
  destruct (Uint_at 4 body off) as (tsz & b0 & pre & post & -> & U0 & Rt & Hpre & Hb0 & Hbody); [lia..|].
  destruct (Uint_at 8 body (off + 4)) as (id & b1 & pre1 & post1 & -> & U1 & Rid & Hpre1 & Hb1 & Hbody1); [lia..|].
  destruct (Uint_at 4 body (off + 12)) as (sz & b2 & pre2 & post2 & -> & U2 & Rsz & Hpre2 & Hb2 & Hbody2); [lia..|].
  cbn [mbind outcome_bind]. rewrite U0, U1, U2. cbn [mbind outcome_bind]. unfold uint_range in *.
  destruct (Z.ltb_spec (zlen body - (off + 16)) tsz) as [|H2]; [by left|].
  destruct (Z.ltb_spec (zlen body - (off + 16) - tsz) sz) as [|H3]; [by left|].
  right.
  destruct (slice_ok body (off + 16) (off + 16 + tsz)) as (pre3 & typ & post3 & Hbody3 & L3 & Lt & _); [lia..|].
  destruct (slice_ok body (off + 16 + tsz) (off + 16 + tsz + sz)) as (pre4 & data & post4 & Hbody4 & L4 & Ld & _); [lia..|].
  apply (next_prefix _ _ _ _ _ _ Hbody) in Hbody1 as P1; [|rewrite zlen_be_put; lia]. subst pre1.
  apply (next_prefix _ _ _ _ _ _ Hbody1) in Hbody2 as P2; [|rewrite zlen_be_put; lia]. subst pre2.
  apply (next_prefix _ _ _ _ _ _ Hbody2) in Hbody3 as P3; [|rewrite zlen_be_put; lia]. subst pre3.
  apply (next_prefix _ _ _ _ _ _ Hbody3) in Hbody4 as P4; [|lia]. subst pre4.
  exists pre, post4, {| Type_ := bytes_string typ; row_ := {| Id := to_sint 64 id; Row := data |} |}.
  split_and!; [|..|done].
  - split; [split|]; simpl; rewrite ?string_bytes_string; [apply to_sint_range; lia|unfold maxUint32; lia..].
  - unfold transaction_row_bytes. cbn [Type_ row_ Id Row]. rewrite string_bytes_string.
    rewrite to_uint_to_sint by (unfold uint_range; lia).
    rewrite !to_uint_small by (unfold uint_range; lia).
    replace (zlen data) with sz by lia. replace (zlen typ) with tsz by lia.
    rewrite Hbody4 at 1. by rewrite <- !app_assoc.
Qed.

Lemma decodeWALFrame_shape body : decodeWALFrame body = decode_shape body.
Proof. reflexivity. Qed.
Lemma decodeTransactionWALFrame_shape body : decodeTransactionWALFrame body = decode_shape body.
Proof. reflexivity. Qed.

Lemma decode_shape_iff `{RowFormat R} (body : list byte) (rows : list R) :
  (zlen body <= maxUint32)%Z ->
  decode_shape body = Ok (rows, true) <-> Forall row_ok rows /\ body = frame_body rows.
Proof.
  intros Hlen. split.
  - intros E. destruct (decode_shape_sound body) as [E' | (rows' & post & Hok & Hb & E')];
      rewrite E' in E; [congruence|].
    injection E as -> Hpost. apply bool_decide_eq_true in Hpost as ->.
    rewrite app_nil_r in Hb. auto.
  - intros [Hok ->]. by apply decode_shape_frame.
Qed.

Lemma decode_shape_total `{RowFormat R} (body : list byte) :
  exists rows valid, decode_shape body = Ok (rows, valid).
Proof.
  destruct (decode_shape_sound body) as [-> | (rows & post & _ & _ & ->)]; eauto.
Qed.

Lemma encodeWALFrame_ok rec :
  (zlen (frame_body (Rows rec)) < 2 ^ 64)%Z ->
  encodeWALFrame rec =
  if (zlen (frame_body (Rows rec)) <=? maxUint32)%Z then Ok (frame_bytes (Rows rec))
  else Fail (ErrText "nestory: WAL frame is too large").
Proof.
  intros Hlt. unfold encodeWALFrame. rewrite zlen_frame_body in Hlt.
  rewrite (bodySize_spec (fun row => walRowHeader + zlen (Row row))%Z);
    [|intros r; cbn; unfold wal_row_bytes, walRowHeader; autorewrite with nestory; lia|done|exact Hlt].
  unfold frameHeader. rewrite <- zlen_frame_body.
  destruct (Z.ltb_spec maxUint32 (zlen (frame_body (Rows rec)))), (Z.leb_spec (zlen (frame_body (Rows rec))) maxUint32);
    [lia|done| |lia].
  destruct (Z.ltb_spec maxUint32 (zlen (Rows rec))) as [C|_]; cbn [orb].
  - exfalso. rewrite zlen_frame_body in *. pose proof (concat_rows_ge (Rows rec)). cbn in *.
    unfold walRowHeader in *. pose proof (zlen_nonneg (Rows rec)). lia.
  - pose proof (fill_frame (Rows rec) _ eq_refl H) as F.
    by change (@row_put walRow _) with putWALRow in F.
Qed.

Lemma encodeTransactionWALFrame_ok rec :
  (zlen (frame_body (TRows rec)) < 2 ^ 64)%Z ->
  encodeTransactionWALFrame rec =
  if (zlen (frame_body (TRows rec)) <=? maxUint32)%Z then Ok (frame_bytes (TRows rec))
  else Fail (ErrText "nestory: transaction WAL frame is too large").
Proof.
  intros Hlt. unfold encodeTransactionWALFrame. rewrite zlen_frame_body in Hlt.
  rewrite (bodySize_spec (fun row =>
      transactionRowHeader + zlen (string_bytes (Type_ row)) + zlen (Row (row_ row)))%Z);
    [|intros r; cbn; unfold transaction_row_bytes, transactionRowHeader; autorewrite with nestory; lia|done|exact Hlt].
  unfold frameHeader. rewrite <- zlen_frame_body.
  destruct (Z.ltb_spec maxUint32 (zlen (frame_body (TRows rec)))), (Z.leb_spec (zlen (frame_body (TRows rec))) maxUint32);
    [lia|done| |lia].
  destruct (Z.ltb_spec maxUint32 (zlen (TRows rec))) as [C|_]; cbn [orb].
  - exfalso. rewrite zlen_frame_body in *. pose proof (concat_rows_ge (TRows rec)). cbn in *.
    unfold transactionRowHeader in *. pose proof (zlen_nonneg (TRows rec)). lia.
  - pose proof (fill_frame (TRows rec) _ eq_refl H) as F.
    by change (@row_put transactionWALRow _) with putTransactionWALRow in F.
Qed.

(** * Properties *)

(** The offset-driven encoder of the per-type log allocates a buffer of
    exactly the right size and fills it with the length prefix, the row count
    and the rows; it fails exactly when the body does not fit the 32-bit
    length prefix, and it never panics. *)
Theorem encodeWALFrame_layout (rec : walFrame) :
  (zlen (frame_body (Rows rec)) < 2 ^ 64)%Z ->
  encodeWALFrame rec =
  if (zlen (frame_body (Rows rec)) <=? maxUint32)%Z then Ok (frame_bytes (Rows rec))
  else Fail (ErrText "nestory: WAL frame is too large").
Proof. apply encodeWALFrame_ok. Qed.

Lemma encodeWALFrame_layout_witness :
  encodeWALFrame {| Rows := sample_rows |} = Ok (frame_bytes sample_rows) /\
  length (frame_bytes sample_rows) = 34.
Proof.
  split; [|vm_compute; reflexivity].
  apply (encodeWALFrame_layout {| Rows := sample_rows |}). vm_compute. reflexivity.
Defined.

(** C35: the per-type frame decoder accepts a body if and only if it is the
    encoding of the rows it returns, so every frame decodes to the rows that
    were encoded and no two row lists share an encoding. *)
Theorem decodeWALFrame_iff (body : list byte) (rows : list walRow) :
  (zlen body <= maxUint32)%Z ->
  decodeWALFrame body = Ok (rows, true) <-> Forall wal_row_ok rows /\ body = frame_body rows.
Proof. exact (decode_shape_iff body rows). Qed.

Lemma decodeWALFrame_iff_witness :
  decodeWALFrame (frame_body sample_rows) = Ok (sample_rows, true).
Proof.
  apply decodeWALFrame_iff; [vm_compute; discriminate|].
  split; [|reflexivity]. repeat constructor; vm_compute; congruence.
Defined.

(** The same for the instance-wide transaction log: an encoded
    transaction decodes to exactly its rows, in order and with their types,
    and the decoder accepts nothing but encodings. *)
Theorem transaction_frame_roundtrip (rec : transactionWALFrame) (body : list byte) (rows : list transactionWALRow) :
  (zlen (frame_body (TRows rec)) <= maxUint32)%Z -> (zlen body <= maxUint32)%Z ->
  Forall transaction_row_ok (TRows rec) ->
  encodeTransactionWALFrame rec = Ok (frame_bytes (TRows rec)) /\
  decodeTransactionWALFrame (frame_body (TRows rec)) = Ok (TRows rec, true) /\
  (decodeTransactionWALFrame body = Ok (rows, true) <->
   Forall transaction_row_ok rows /\ body = frame_body rows).
Proof.
  intros H1 H2 H3. split_and!.
  - rewrite encodeTransactionWALFrame_ok by (unfold maxUint32 in *; lia).
    by destruct (Z.leb_spec (zlen (frame_body (TRows rec))) maxUint32); [|lia].
  - exact (decode_shape_frame (TRows rec) (conj H3 H1)).
  - exact (decode_shape_iff body rows H2).
Qed.

Lemma transaction_frame_roundtrip_witness :
  let rec := {| TRows := [{| Type_ := "User"; row_ := {| Id := 5; Row := [Byte.xff] |} |};
                          {| Type_ := "Log"; row_ := {| Id := -9; Row := [] |} |}] |} in
  decodeTransactionWALFrame (frame_body (TRows rec)) = Ok (TRows rec, true).
Proof.
  intros rec. eapply (transaction_frame_roundtrip rec [] []); [vm_compute; discriminate|vm_compute; discriminate|].
  repeat constructor; vm_compute; congruence.
Defined.

(** Both frame decoders are total: on every byte string, however
    corrupted, they return a verdict and never read out of range. *)
Theorem decoders_never_panic (body : list byte) :
  (exists rows valid, decodeWALFrame body = Ok (rows, valid)) /\
  (exists rows valid, decodeTransactionWALFrame body = Ok (rows, valid)).
Proof.
  rewrite decodeWALFrame_shape, decodeTransactionWALFrame_shape.
  split; apply decode_shape_total.
Qed.
