(* ===== verification/GoReflect.v ===== *)
(** * Go types and values as the code sees them through [reflect]

    The part of [reflect] the program uses: kinds, struct fields with their
    tags, values, zero values, the conversions [SetInt], [SetUint], [SetFloat]
    and [Float], and [reflect.Type] identity. A value does not carry its type;
    functions that inspect [value.Kind()] take the type alongside. A [*T] is a
    location of the heap; nil is [None]. *)
From S2P Require Import Prelude GoBytes.

Definition loc := positive.

Inductive basic :=
  | KBool
  | KInt | KInt8 | KInt16 | KInt32 | KInt64
  | KUint | KUint8 | KUint16 | KUint32 | KUint64
  | KFloat32 | KFloat64
  | KString.

(** [reflect.Type]. Two basic types are the same when kind and name agree
    ([type Seq int] is not [int]); struct types a pointer leads to are named. *)
Inductive gotype :=
  | TBasic (name : string) (k : basic)
  | TSlice (elem : gotype)
  | TArray (n : nat) (elem : gotype)
  | TStruct (name : string) (fields : list (string * bool * gotype)) (* name, exported, type *)
  | TPointer (target : string)
  | TOther (name : string). (* maps, channels, functions, interfaces, complex numbers *)

#[export] Instance basic_eq_dec : EqDecision basic.
Proof. solve_decision. Defined.

(** Identity of types. *)
Fixpoint gotype_eqb (a b : gotype) : bool :=
  match a, b with
  | TBasic n k, TBasic n' k' => bool_decide (n = n') && bool_decide (k = k')
  | TSlice a, TSlice b => gotype_eqb a b
  | TArray n a, TArray n' b => (n =? n')%nat && gotype_eqb a b
  | TStruct n fs, TStruct n' fs' =>
      bool_decide (n = n') &&
      (fix go fs fs' := match fs, fs' with
       | [], [] => true
       | (x, e, t) :: fs, (x', e', t') :: fs' => bool_decide (x = x') && Bool.eqb e e' && gotype_eqb t t' && go fs fs'
       | _, _ => false end) fs fs'
  | TPointer n, TPointer n' => bool_decide (n = n')
  | TOther n, TOther n' => bool_decide (n = n')
  | _, _ => false
  end.

Inductive goval :=
  | VBool (b : bool)
  | VInt (z : Z)
  | VUint (z : Z)
  | VFloat (bits : Z) (* IEEE 754 pattern at the width of its kind *)
  | VString (s : string)
  | VBytes (o : option (list byte)) (* a slice whose element kind is Uint8 *)
  | VSlice (o : option (list goval))
  | VArray (l : list goval)
  | VStruct (l : list goval)
  | VPointer (p : option loc)
  | VOther (id : N).

Definition is_signed (k : basic) : option Z :=
  match k with
  | KInt | KInt64 => Some 64 | KInt8 => Some 8 | KInt16 => Some 16 | KInt32 => Some 32
  | _ => None
  end%Z.
Definition is_unsigned (k : basic) : option Z :=
  match k with
  | KUint | KUint64 => Some 64 | KUint8 => Some 8 | KUint16 => Some 16 | KUint32 => Some 32
  | _ => None
  end%Z.
Definition is_float (k : basic) : option Z :=
  match k with KFloat32 => Some 32 | KFloat64 => Some 64 | _ => None end%Z.

Definition is_uint8 (t : gotype) : bool :=
  match t with TBasic _ KUint8 => true | _ => false end.
(** The predeclared [byte], and no other type of its kind. *)
Definition is_byte (t : gotype) : bool :=
  match t with TBasic name KUint8 => bool_decide (name = "uint8"%string) | _ => false end.

(** ** float32 and float64: bit patterns and the two conversions *)

(** Fields of a pattern with [m] mantissa and [e] exponent bits. *)
Definition fl_mant (m bits : Z) : Z := bits mod 2 ^ m.
Definition fl_exp (m e bits : Z) : Z := (bits / 2 ^ m) mod 2 ^ e.
Definition fl_sign (m e bits : Z) : Z := (bits / 2 ^ (m + e)) mod 2.

(** [float64(x)] of a float32: exact, and quiets a signalling NaN. *)
Definition f32_widen (b : Z) : Z :=
  let s := fl_sign 23 8 b in let x := fl_exp 23 8 b in let m := fl_mant 23 b in
  (s * 2 ^ 63 +
   (if x =? 255 then
      2047 * 2 ^ 52 + (if m =? 0 then 0
                       else if m <? 2 ^ 22 then m * 2 ^ 29 + 2 ^ 51 else m * 2 ^ 29)
    else if x =? 0 then
      (if m =? 0 then 0
       else let k := Z.log2 m in (k + 874) * 2 ^ 52 + (m - 2 ^ k) * 2 ^ (52 - k))
    else (x + 896) * 2 ^ 52 + m * 2 ^ 29))%Z.

(** Division by [2^n] rounding to nearest, ties to even. *)
Definition round_shift (v n : Z) : Z :=
  (let q := v / 2 ^ n in let r := v mod 2 ^ n in let half := 2 ^ (n - 1) in
   if (r <? half) || ((r =? half) && Z.even q) then q else q + 1)%Z.

(** [float32(x)] of a float64: overflow to infinity, gradual underflow. *)
Definition f32_narrow (b : Z) : Z :=
  let s := fl_sign 52 11 b in let x := fl_exp 52 11 b in let m := fl_mant 52 b in
  (s * 2 ^ 31 +
   (if x =? 2047 then
      255 * 2 ^ 23 + (if m =? 0 then 0 else Z.lor (2 ^ 22) (m / 2 ^ 29))
    else
      let sig := if x =? 0 then m else 2 ^ 52 + m in
      let t := Z.max x 1 - 896 in
      let r := if 1 <=? t then (t - 1) * 2 ^ 23 + round_shift sig 29
               else round_shift sig (30 - t) in
      Z.min r (255 * 2 ^ 23)))%Z.

Definition is_signalling32 (b : Z) : bool :=
  ((fl_exp 23 8 b =? 255) && (0 <? fl_mant 23 b) && (fl_mant 23 b <? 2 ^ 22))%Z.

(** [value.Float()] and [value.SetFloat]: the float64 pattern of a value of kind [k]. *)
Definition float_bits (k : basic) (bits : Z) : Z :=
  match k with KFloat32 => f32_widen bits | _ => bits end.
Definition set_float (k : basic) (bits64 : Z) : Z :=
  match k with KFloat32 => f32_narrow bits64 | _ => bits64 end.

(** ** Typing and zero values *)

Definition basic_ok (k : basic) (v : goval) : bool :=
  match k, v with
  | KBool, VBool _ => true
  | KString, VString _ => true
  | _, VInt z => match is_signed k with
                 | Some w => (- 2 ^ (w - 1) <=? z) && (z <? 2 ^ (w - 1)) | None => false end
  | _, VUint z => match is_unsigned k with
                  | Some w => (0 <=? z) && (z <? 2 ^ w) | None => false end
  | _, VFloat b => match is_float k with
                   | Some w => (0 <=? b) && (b <? 2 ^ w) | None => false end
  | _, _ => false
  end%Z.

Fixpoint value_ok (t : gotype) (v : goval) {struct t} : bool :=
  match t, v with
  | TBasic _ k, _ => basic_ok k v
  | TSlice e, VBytes _ => is_uint8 e
  | TSlice e, VSlice None => negb (is_uint8 e)
  | TSlice e, VSlice (Some l) => negb (is_uint8 e) && forallb (value_ok e) l
  | TArray n e, VArray l => (length l =? n)%nat && forallb (value_ok e) l
  | TStruct _ fs, VStruct l =>
      (fix go fs l := match fs, l with
                      | [], [] => true
                      | (_, _, ft) :: fs', fv :: l' => value_ok ft fv && go fs' l'
                      | _, _ => false end) fs l
  | TPointer _, VPointer _ => true
  | TOther _, VOther _ => true
  | _, _ => false
  end.

Definition basic_zero (k : basic) : goval :=
  match k with
  | KBool => VBool false
  | KString => VString ""
  | KInt | KInt8 | KInt16 | KInt32 | KInt64 => VInt 0
  | KUint | KUint8 | KUint16 | KUint32 | KUint64 => VUint 0
  | KFloat32 | KFloat64 => VFloat 0
  end.

(** [reflect.Zero]. *)
Fixpoint zero_value (t : gotype) : goval :=
  match t with
  | TBasic _ k => basic_zero k
  | TSlice e => if is_uint8 e then VBytes None else VSlice None
  | TArray n e => VArray (replicate n (zero_value e))
  | TStruct _ fs => VStruct ((fix go fs := match fs with
                                           | [] => [] | (_, _, ft) :: fs' => zero_value ft :: go fs' end) fs)
  | TPointer _ => VPointer None
  | TOther _ => VOther 0
  end.

(** [value.IsZero()] of a value of type [t]; a negative zero is zero. *)
Definition is_zero_float (k : basic) (bits : Z) : bool := (bits mod 2 ^ (match k with KFloat32 => 31 | _ => 63 end) =? 0)%Z.
Fixpoint is_zero (t : gotype) (v : goval) {struct t} : bool :=
  match t, v with
  | _, VBool b => negb b
  | _, VInt z | _, VUint z => (z =? 0)%Z
  | TBasic _ k, VFloat b => is_zero_float k b
  | _, VString s => bool_decide (s = ""%string)
  | _, VBytes o => bool_decide (o = None)
  | _, VSlice o => bool_decide (o = None)
  | _, VPointer p => bool_decide (p = None)
  | _, VOther id => (id =? 0)%N
  | TArray _ e, VArray l => forallb (is_zero e) l
  | TStruct _ fs, VStruct l => forallb id (zip_with (fun f => is_zero f.2) fs l)
  | _, _ => false
  end.

(** ** Declared struct types

    A program declares named structs; [reflect.Type] values of two named
    structs are equal when their names are. Fields promoted from embedded
    structs are not modelled. *)
Record structField := {
  fname : string;
  ftype : gotype;
  exported : bool;
  tag : list (string * string); (* key:"value" pairs of the field tag *)
}.
Record structDef := {
  fields : list structField;
  is_entity : bool; (* the type or its pointer has a [GetId() int] method *)
}.
Definition typeEnv := gmap string structDef.

(** [f.Tag.Lookup(key)] and [f.Tag.Get(key)]. *)
Fixpoint tag_lookup (key : string) (tags : list (string * string)) : option string :=
  match tags with
  | [] => None
  | (k, v) :: rest => if decide (k = key) then Some v else tag_lookup key rest
  end.
Definition tag_get (key : string) (f : structField) : string := default "" (tag_lookup key (tag f)).

(** [t.FieldByName(name)]: the position and the field. *)
Fixpoint field_index (name : string) (fs : list structField) : option (nat * structField) :=
  match fs with
  | [] => None
  | f :: rest => if decide (fname f = name) then Some (0, f)
                 else (fun p => (S p.1, p.2)) <$> field_index name rest
  end.
Definition FieldByName (d : structDef) (name : string) : option (nat * structField) :=
  field_index name (fields d).

(** ** Go values as keys of maps *)

(** The leaves of the tree a value is encoded as. *)
Definition goval_leaf : Type := bool + (Z + Z + Z) + string + option (list byte) + option loc + N.
#[export] Instance byte_countable : Countable byte.
Proof.
  refine (inj_countable Byte.to_N Byte.of_N _). apply Byte.of_to_N.
Defined.
Fixpoint goval_encode (v : goval) : gen_tree goval_leaf :=
  match v with
  | VBool b => GenLeaf (inl (inl (inl (inl (inl b)))))
  | VInt z => GenLeaf (inl (inl (inl (inl (inr (inl (inl z)))))))
  | VUint z => GenLeaf (inl (inl (inl (inl (inr (inl (inr z)))))))
  | VFloat z => GenLeaf (inl (inl (inl (inl (inr (inr z))))))
  | VString s => GenLeaf (inl (inl (inl (inr s))))
  | VBytes o => GenLeaf (inl (inl (inr o)))
  | VPointer p => GenLeaf (inl (inr p))
  | VOther n => GenLeaf (inr n)
  | VSlice None => GenNode 0 []
  | VSlice (Some l) => GenNode 1 (goval_encode <$> l)
  | VArray l => GenNode 2 (goval_encode <$> l)
  | VStruct l => GenNode 3 (goval_encode <$> l)
  end.
Fixpoint goval_decode (t : gen_tree goval_leaf) : goval :=
  match t with
  | GenLeaf (inl (inl (inl (inl (inl b))))) => VBool b
  | GenLeaf (inl (inl (inl (inl (inr (inl (inl z))))))) => VInt z
  | GenLeaf (inl (inl (inl (inl (inr (inl (inr z))))))) => VUint z
  | GenLeaf (inl (inl (inl (inl (inr (inr z)))))) => VFloat z
  | GenLeaf (inl (inl (inl (inr s)))) => VString s
  | GenLeaf (inl (inl (inr o))) => VBytes o
  | GenLeaf (inl (inr p)) => VPointer p
  | GenLeaf (inr n) => VOther n
  | GenNode 1 l => VSlice (Some (goval_decode <$> l))
  | GenNode 2 l => VArray (goval_decode <$> l)
  | GenNode 3 l => VStruct (goval_decode <$> l)
  | GenNode _ _ => VSlice None
  end.
Lemma goval_decode_encode v : goval_decode (goval_encode v) = v.
Proof.
  revert v. fix IH 1. intros [b|z|z|z|s|o|[l|]|l|l|p|n]; try reflexivity; cbn; repeat f_equal;
    (induction l as [|x l IHl]; cbn; [reflexivity|by rewrite IH, IHl]).
Qed.
#[export] Instance goval_eq_dec : EqDecision goval.
Proof.
  intros x y. destruct (decide (goval_encode x = goval_encode y)) as [E|E].
  - left. by rewrite <- (goval_decode_encode x), E, goval_decode_encode.
  - right. by intros ->.
Defined.
#[export] Instance goval_countable : Countable goval.
Proof. exact (inj_countable' goval_encode goval_decode goval_decode_encode). Defined.

(** * Lemmas *)

(** Induction over types that reaches into arrays and struct fields. *)
Lemma gotype_rect' (P : gotype -> Prop) :
  (forall name k, P (TBasic name k)) ->
  (forall e, P e -> P (TSlice e)) ->
  (forall n e, P e -> P (TArray n e)) ->
  (forall name fs, Forall (fun f => P f.2) fs -> P (TStruct name fs)) ->
  (forall target, P (TPointer target)) ->
  (forall name, P (TOther name)) ->
  forall t, P t.
Proof.
  intros HB HS HA HT HP HO. fix IH 1. intros [name k | e | n e | name fs | target | name].
  - apply HB.
  - by apply HS.
  - by apply HA.
  - apply HT. induction fs as [|f fs IHfs]; constructor; [apply IH|exact IHfs].
  - apply HP.
  - apply HO.
Qed.

Lemma gotype_eqb_eq a b : gotype_eqb a b = true <-> a = b.
Proof.
  revert b. induction a as [name k|e IH|n e IH|name fs IH|target|name] using gotype_rect'; intros [n1 k1|e1|n1 e1|n1 fs1|n1|n1]; cbn;
    rewrite ?andb_true_iff, ?bool_decide_eq_true, ?Nat.eqb_eq, ?IH; try naive_solver.
  assert ((fix go fs fs' := match fs, fs' with
       | [], [] => true
       | (x, e, t) :: fs, (x', e', t') :: fs' => bool_decide (x = x') && Bool.eqb e e' && gotype_eqb t t' && go fs fs'
       | _, _ => false end) fs fs1 = true <-> fs = fs1) as ->; [|naive_solver].
  revert fs1. induction IH as [|[[x e] t] fs Ht _ IH]; intros [|[[x' e'] t'] fs']; try done.
  rewrite !andb_true_iff, bool_decide_eq_true, Bool.eqb_true_iff, IH. cbn in Ht. rewrite Ht. naive_solver.
Qed.

(** Typing of struct fields as a relation between the two lists. *)
Lemma value_ok_struct name fs l :
  value_ok (TStruct name fs) (VStruct l) = true <->
  Forall2 (fun f v => value_ok f.2 v = true) fs l.
Proof.
  simpl. revert l. induction fs as [|[[n e] t] fs IH]; intros [|v l]; split; intros H;
    try discriminate; try (by constructor); try (by inversion H).
  - apply andb_true_iff in H as [H1 H2]. constructor; [done|]. by apply IH.
  - inversion H; subst. apply andb_true_iff. split; [done|]. by apply IH.
Qed.

Lemma round_shift_exact v n : (0 < n)%Z -> round_shift (v * 2 ^ n) n = v.
Proof.
  intros Hn. unfold round_shift. rewrite Z.div_mul by lia. rewrite Z.mod_mul by lia.
  pose proof (Z.pow_pos_nonneg 2 (n - 1)). destruct (Z.ltb_spec 0 (2 ^ (n - 1))); [done|lia].
Qed.

(** A float pattern is determined by its three fields. *)
Lemma fl_fields m e s x f :
  (0 < m)%Z -> (0 < e)%Z -> (0 <= s < 2)%Z -> (0 <= x < 2 ^ e)%Z -> (0 <= f < 2 ^ m)%Z ->
  let b := (s * 2 ^ (m + e) + (x * 2 ^ m + f))%Z in
  fl_sign m e b = s /\ fl_exp m e b = x /\ fl_mant m b = f.
Proof.
  intros Hm He Hs Hx Hf b. unfold fl_sign, fl_exp, fl_mant, b.
  rewrite Z.pow_add_r by lia.
  pose proof (Z.pow_pos_nonneg 2 m). pose proof (Z.pow_pos_nonneg 2 e).
  replace (s * (2 ^ m * 2 ^ e) + (x * 2 ^ m + f))%Z with ((s * 2 ^ e + x) * 2 ^ m + f)%Z by lia.
  assert (((s * 2 ^ e + x) * 2 ^ m + f) / 2 ^ m = s * 2 ^ e + x)%Z as E1.
  { rewrite Z.div_add_l by lia. rewrite (Z.div_small f) by lia. lia. }
  split_and!.
  - rewrite <- Z.div_div by lia. rewrite E1, Z.div_add_l by lia. rewrite (Z.div_small x) by lia.
    rewrite Z.add_0_r. by apply Z.mod_small.
  - rewrite E1, Z.add_comm, Z.mod_add by lia. by apply Z.mod_small.
  - rewrite Z.add_comm, Z.mod_add by lia. by apply Z.mod_small.
Qed.

Lemma f64_fields s x f :
  (0 <= s < 2)%Z -> (0 <= x < 2048)%Z -> (0 <= f < 2 ^ 52)%Z ->
  f32_narrow (s * 2 ^ 63 + (x * 2 ^ 52 + f)) =
  (s * 2 ^ 31 +
   (if x =? 2047 then 255 * 2 ^ 23 + (if f =? 0 then 0 else Z.lor (2 ^ 22) (f / 2 ^ 29))
    else
      let sig := if x =? 0 then f else 2 ^ 52 + f in
      let t := Z.max x 1 - 896 in
      let r := if 1 <=? t then (t - 1) * 2 ^ 23 + round_shift sig 29
               else round_shift sig (30 - t) in
      Z.min r (255 * 2 ^ 23)))%Z.
Proof.
  intros Hs Hx Hf. pose proof (fl_fields 52 11 s x f) as F. cbv zeta in F.
  change (52 + 11)%Z with 63%Z in F. destruct F as (F1 & F2 & F3); [lia..|].
  unfold f32_narrow. by rewrite F1, F2, F3.
Qed.

(** Setting a bit that is already set. *)
Lemma lor_top_bit n m : (0 <= n)%Z -> (2 ^ n <= m < 2 ^ (n + 1))%Z -> Z.lor (2 ^ n) m = m.
Proof.
  intros Hn Hm. apply Z.bits_inj'. intros i Hi. rewrite Z.lor_spec, Z.pow2_bits_eqb by lia.
  destruct (Z.eqb_spec n i) as [<-|]; [|done]. simpl.
  assert (Z.log2 m = n) as <- by (apply Z.log2_unique; [lia|]; rewrite <- Z.add_1_r; lia).
  rewrite Z.bit_log2; [done|]. pose proof (Z.pow_pos_nonneg 2 (Z.log2 m)). lia.
Qed.

Lemma fl_recompose m e b :
  (0 < m)%Z -> (0 < e)%Z -> (0 <= b < 2 ^ (m + e + 1))%Z ->
  b = (fl_sign m e b * 2 ^ (m + e) + (fl_exp m e b * 2 ^ m + fl_mant m b))%Z /\
  (0 <= fl_sign m e b < 2)%Z /\ (0 <= fl_exp m e b < 2 ^ e)%Z /\ (0 <= fl_mant m b < 2 ^ m)%Z.
Proof.
  intros Hm He Hb. unfold fl_sign, fl_exp, fl_mant.
  pose proof (Z.pow_pos_nonneg 2 m). pose proof (Z.pow_pos_nonneg 2 e).
  assert (b / 2 ^ (m + e) = (b / 2 ^ m) / 2 ^ e)%Z as E by (rewrite Z.pow_add_r, Z.div_div by lia; done).
  assert (0 <= b / 2 ^ (m + e) < 2)%Z as Hs.
  { split; [apply Z.div_pos; [lia|apply Z.pow_pos_nonneg; lia]|].
    apply Z.div_lt_upper_bound; [apply Z.pow_pos_nonneg; lia|].
    rewrite Z.pow_add_r in Hb by lia. lia. }
  rewrite (Z.mod_small (b / 2 ^ (m + e))) by lia.
  split_and!; try apply Z.mod_pos_bound; try lia.
  rewrite E, Z.pow_add_r by lia.
  pose proof (Z.div_mod b (2 ^ m)). pose proof (Z.div_mod (b / 2 ^ m) (2 ^ e)). nia.
Qed.

(** Widening loses nothing: converting back gives the original float32. *)
Lemma f32_narrow_widen b :
  uint_range 32 b -> is_signalling32 b = false -> f32_narrow (f32_widen b) = b.
Proof.
  intros Hb Hsig. destruct (fl_recompose 23 8 b) as (Eb & Hs & Hx & Hm); [lia|lia|exact Hb|].
  unfold is_signalling32 in Hsig. rewrite Eb at 2. unfold f32_widen.
  set (s := fl_sign 23 8 b) in *. set (x := fl_exp 23 8 b) in *. set (m := fl_mant 23 b) in *.
  cbv zeta. clearbody s x m. clear Eb Hb b.
  destruct (Z.eqb_spec x 255) as [->|Hx1]; [|destruct (Z.eqb_spec x 0) as [->|Hx0]].
  - (* infinities and NaNs *)
    destruct (Z.eqb_spec m 0) as [->|Hm0]; [rewrite f64_fields by lia; done|].
    destruct (Z.ltb_spec 0 m); [|lia]. cbn [andb Z.eqb Pos.eqb] in Hsig.
    destruct (Z.ltb_spec m (2 ^ 22)); [done|].
    rewrite f64_fields by lia.
    destruct (Z.eqb_spec (m * 2 ^ 29) 0); [lia|]. rewrite Z.eqb_refl, Z.div_mul by lia.
    rewrite lor_top_bit by lia. done.
  - (* zeros and subnormals *)
    destruct (Z.eqb_spec m 0) as [->|Hm0].
    { change 0%Z with (0 * 2 ^ 52 + 0)%Z at 1. rewrite f64_fields by lia. done. }
    pose proof (Z.log2_spec m ltac:(lia)) as Hk. cbv zeta. set (k := Z.log2 m) in *.
    assert (0 <= k)%Z by apply Z.log2_nonneg.
    assert (k < 23)%Z by (apply Z.log2_lt_pow2; lia).
    rewrite Z.pow_succ_r in Hk by lia.
    assert (2 ^ 52 = 2 ^ k * 2 ^ (52 - k))%Z as P by (rewrite <- Z.pow_add_r by lia; f_equal; lia).
    pose proof (Z.pow_pos_nonneg 2 (52 - k)).
    rewrite f64_fields; [|lia|lia|nia]. cbv zeta.
    destruct (Z.eqb_spec (k + 874) 2047), (Z.eqb_spec (k + 874) 0); try lia.
    destruct (Z.leb_spec 1 (Z.max (k + 874) 1 - 896)); [lia|].
    replace (2 ^ 52 + (m - 2 ^ k) * 2 ^ (52 - k))%Z with (m * 2 ^ (52 - k))%Z by lia.
    replace (30 - (Z.max (k + 874) 1 - 896))%Z with (52 - k)%Z by lia.
    rewrite round_shift_exact by lia. lia.
  - (* normal numbers *)
    rewrite f64_fields by lia. cbv zeta.
    destruct (Z.eqb_spec (x + 896) 2047), (Z.eqb_spec (x + 896) 0); try lia.
    destruct (Z.leb_spec 1 (Z.max (x + 896) 1 - 896)); [|lia].
    replace (2 ^ 52 + m * 2 ^ 29)%Z with ((2 ^ 23 + m) * 2 ^ 29)%Z by lia.
    rewrite round_shift_exact by lia. lia.
Qed.

Lemma f32_widen_range b : uint_range 32 b -> uint_range 64 (f32_widen b).
Proof.
  intros Hb. destruct (fl_recompose 23 8 b) as (_ & Hs & Hx & Hm); [lia|lia|exact Hb|].
  unfold f32_widen, uint_range.
  set (s := fl_sign 23 8 b) in *. set (x := fl_exp 23 8 b) in *. set (m := fl_mant 23 b) in *.
  cbv zeta. clearbody s x m.
  destruct (Z.eqb_spec x 255) as [->|]; [|destruct (Z.eqb_spec x 0) as [->|]];
    (destruct (Z.eqb_spec m 0) as [->|]; [lia|]).
  - destruct (Z.ltb_spec m (2 ^ 22)); lia.
  - pose proof (Z.log2_spec m ltac:(lia)) as Hk. set (k := Z.log2 m) in *.
    assert (0 <= k)%Z by apply Z.log2_nonneg.
    assert (k < 23)%Z by (apply Z.log2_lt_pow2; lia).
    rewrite Z.pow_succ_r in Hk by lia.
    assert (2 ^ 52 = 2 ^ k * 2 ^ (52 - k))%Z as P by (rewrite <- Z.pow_add_r by lia; f_equal; lia).
    pose proof (Z.pow_pos_nonneg 2 (52 - k)).
    assert (0 <= (m - 2 ^ k) * 2 ^ (52 - k) < 2 ^ 52)%Z by nia. lia.
  - lia.
Qed.

Lemma lor_range n a b :
  (0 < n)%Z -> (0 <= a < 2 ^ n)%Z -> (0 <= b < 2 ^ n)%Z -> (0 <= Z.lor a b < 2 ^ n)%Z.
Proof.
  intros Hn Ha Hb. assert (0 <= Z.lor a b)%Z by (apply Z.lor_nonneg; lia). split; [done|].
  destruct (Z.eq_dec (Z.lor a b) 0) as [->|Hne]; [lia|].
  apply Z.log2_lt_pow2; [lia|]. rewrite Z.log2_lor by lia.
  assert (forall c, (0 <= c < 2 ^ n)%Z -> (Z.log2 c < n)%Z) as L.
  { intros c Hc. destruct (Z.eq_dec c 0) as [->|]; [simpl; lia|]. apply Z.log2_lt_pow2; lia. }
  pose proof (L a Ha). pose proof (L b Hb). lia.
Qed.

Lemma round_shift_nonneg v n : (0 <= v)%Z -> (0 <= n)%Z -> (0 <= round_shift v n)%Z.
Proof.
  intros Hv Hn. unfold round_shift. pose proof (Z.pow_pos_nonneg 2 n).
  pose proof (Z.div_pos v (2 ^ n)). case_match; lia.
Qed.

Lemma f32_narrow_range b : uint_range 64 b -> uint_range 32 (f32_narrow b).
Proof.
  intros Hb. destruct (fl_recompose 52 11 b) as (_ & Hs & Hx & Hm); [lia|lia|exact Hb|].
  unfold f32_narrow, uint_range.
  set (s := fl_sign 52 11 b) in *. set (x := fl_exp 52 11 b) in *. set (m := fl_mant 52 b) in *.
  cbv zeta. clearbody s x m.
  destruct (Z.eqb_spec x 2047) as [->|].
  - destruct (Z.eqb_spec m 0) as [->|]; [lia|].
    pose proof (lor_range 23 (2 ^ 22) (m / 2 ^ 29)).
    assert (0 <= m / 2 ^ 29 < 2 ^ 23)%Z.
    { split; [apply Z.div_pos; lia|apply Z.div_lt_upper_bound; lia]. }
    lia.
  - pose proof (round_shift_nonneg (if (x =? 0)%Z then m else 2 ^ 52 + m) 29).
    pose proof (round_shift_nonneg (if (x =? 0)%Z then m else 2 ^ 52 + m) (30 - (Z.max x 1 - 896))).
    destruct (Z.leb_spec 1 (Z.max x 1 - 896)); destruct (Z.eqb_spec x 0); lia.
Qed.

Lemma is_zero_zero t : is_zero t (zero_value t) = true.
Proof.
  induction t as [name k|e _|m e IH|name fs IH|tgt|name] using gotype_rect'; cbn.
  - by destruct k.
  - by destruct (is_uint8 e).
  - induction m; cbn; [done|]. by rewrite IH.
  - induction IH as [|[[? ?] ft] fs Hf _ IHfs]; cbn; [done|]. cbn in Hf. by rewrite Hf.
  - done.
  - done.
Qed.

Lemma value_ok_zero t : value_ok t (zero_value t) = true.
Proof.
  induction t as [name k|e _|m e IH|name fs IH|tgt|name] using gotype_rect'; cbn.
  - by destruct k.
  - destruct (is_uint8 e) eqn:E; cbn; by rewrite ?E.
  - rewrite length_replicate, Nat.eqb_refl. cbn. apply forallb_forall. intros v Hv.
    apply list_elem_of_In, elem_of_replicate in Hv as [-> _]. done.
  - induction IH as [|[[? ?] ft] fs Hf _ IHfs]; cbn; [done|]. cbn in Hf. by rewrite Hf.
  - done.
  - done.
Qed.

(** ** Fields by name *)

Lemma field_index_Some name fs i f : field_index name fs = Some (i, f) -> fs !! i = Some f /\ fname f = name.
Proof.
  revert i. induction fs as [|g fs IH]; intros i E; cbn in E; [done|].
  destruct (decide (fname g = name)) as [Hn|Hn]; [by injection E as <- <-|].
  destruct (field_index name fs) as [[j h]|]; [|done]. cbn in E. injection E as <- ->. by apply IH.
Qed.

Lemma field_index_lookup fs i f :
  NoDup (fname <$> fs) -> fs !! i = Some f -> field_index (fname f) fs = Some (i, f).
Proof.
  revert i. induction fs as [|g fs IH]; intros i Hnd Hi; [done|].
  cbn in Hnd. apply NoDup_cons in Hnd as [Hg Hnd]. destruct i as [|i]; cbn in Hi |- *.
  - injection Hi as ->. by rewrite decide_True.
  - rewrite decide_False; [by rewrite (IH i)|]. intros E. apply Hg. rewrite E.
    apply list_elem_of_fmap_2. by eapply list_elem_of_lookup_2.
Qed.
