(* ===== verification/RowCodec.v ===== *)
(** * The row codec (src/wal.go, lines 289-549)

    A flat schema row is written with a compact scalar codec when every field
    supports it and with [encoding/gob] otherwise; the first byte says which.
    gob itself is a parameter of the model. *)
From S2P Require Import Prelude GoBytes GoReflect.

Definition rowEncodingGob : byte := Byte.x00.
Definition rowEncodingScalar : byte := Byte.x01.

Definition malformed : gerror := ErrText "nestory: malformed scalar WAL row".

(** ** Sizes: [None] is Go's [(0, false)] *)

Fixpoint scalarAggregateSize (size : Z) (fields : list (option Z)) : option Z :=
  match fields with
  | [] => Some size
  | None :: _ => None
  | Some fieldSize :: rest =>
      if (maxInt - fieldSize <? size)%Z then None
      else scalarAggregateSize (size + fieldSize) rest
  end.

Definition bytes_len (o : option (list byte)) : Z := zlen (default [] o).

Fixpoint scalarValueSize (t : gotype) (v : goval) {struct t} : option Z :=
  match t, v with
  | TBasic _ KBool, _ => Some 1
  | TBasic _ KString, VString s =>
      if (maxUint32 <? zlen (string_bytes s))%Z then None else Some (4 + zlen (string_bytes s))
  | TBasic _ KString, _ => None
  | TBasic _ _, _ => Some 8
  | TSlice e, VBytes o =>
      if negb (is_uint8 e) || (maxUint32 <=? bytes_len o)%Z then None else Some (4 + bytes_len o)
  | TArray _ e, VArray l => scalarAggregateSize 0 (map (scalarValueSize e) l)
  | TStruct _ fs, VStruct l =>
      if forallb (fun f => f.1.2) fs
      then scalarAggregateSize 0 (zip_with (fun f => scalarValueSize f.2) fs l) else None
  | _, _ => None
  end%Z.

Definition is_struct (t : gotype) : bool := match t with TStruct _ _ => true | _ => false end.

Definition scalarRowSize (t : gotype) (row : goval) : option Z :=
  if negb (is_struct t) then None else
  match scalarValueSize t row with
  | None => None
  | Some size => if (size =? maxInt)%Z then None else Some (size + 1)%Z
  end.

(** ** Encoding into [out = buf[base:]]; the result carries the buffer and the
    number of bytes written *)

Definition encoder := list byte -> Z -> outcome (list byte * Z).

Fixpoint encodeScalarAggregate (fields : list encoder) (buf : list byte) (base offset : Z) :
    outcome (list byte * Z) :=
  match fields with
  | [] => Ok (buf, offset)
  | encode :: rest =>
      when (zlen buf <? base + offset)%Z => Panic ;;
      r ← encode buf (base + offset)%Z;
      encodeScalarAggregate rest r.1 base (offset + r.2)%Z
  end.

Definition copied (buf : list byte) (off : Z) (src : list byte) : Z := Z.min (zlen src) (zlen buf - off).

Fixpoint encodeScalarValue (t : gotype) (v : goval) (buf : list byte) (base : Z) {struct t} :
    outcome (list byte * Z) :=
  match t, v with
  | TBasic _ KBool, VBool b =>
      buf' ← (if b then
                if (base <? zlen buf)%Z then copy_at buf base [Byte.x01] else Panic
              else Ok buf);
      Ok (buf', 1%Z)
  | TBasic _ KString, VString s =>
      buf' ← PutUint 4 buf base (to_uint 32 (zlen (string_bytes s)));
      buf'' ← copy_at buf' (base + 4) (string_bytes s);
      Ok (buf'', 4 + copied buf' (base + 4) (string_bytes s))%Z
  | TBasic _ _, VInt z => buf' ← PutUint 8 buf base (to_uint 64 z); Ok (buf', 8%Z)
  | TBasic _ _, VUint z => buf' ← PutUint 8 buf base z; Ok (buf', 8%Z)
  | TBasic _ k, VFloat bits => buf' ← PutUint 8 buf base (float_bits k bits); Ok (buf', 8%Z)
  | TSlice _, VBytes None => buf' ← PutUint 4 buf base 0; Ok (buf', 4%Z)
  | TSlice _, VBytes (Some bs) =>
      buf' ← PutUint 4 buf base (to_uint 32 (zlen bs + 1));
      buf'' ← copy_at buf' (base + 4) bs;
      Ok (buf'', 4 + copied buf' (base + 4) bs)%Z
  | TArray _ e, VArray l => encodeScalarAggregate (map (encodeScalarValue e) l) buf base 0
  | TStruct _ fs, VStruct l =>
      encodeScalarAggregate (zip_with (fun f => encodeScalarValue f.2) fs l) buf base 0
  | _, _ => Panic
  end.

Definition encodeScalarRow (buf : list byte) (base : Z) (t : gotype) (row : goval) : outcome (list byte) :=
  r ← encodeScalarValue t row buf base; Ok r.1.

(** ** Decoding: the value and the number of bytes read *)

Definition decoder := list byte -> outcome (goval * Z).

Fixpoint decodeScalarAggregate (fields : list decoder) (data : list byte) (offset : Z) :
    outcome (list goval * Z) :=
  match fields with
  | [] => Ok ([], offset)
  | decode :: rest =>
      from ← slice_from data offset;
      r ← decode from;
      rs ← decodeScalarAggregate rest data (offset + r.2)%Z;
      Ok (r.1 :: rs.1, rs.2)
  end.

Definition decode_word (data : list byte) : outcome Z :=
  when (zlen data <? 8)%Z => Fail malformed ;;
  Uint 8 data.

(** [value.SetX(...)]: reflect panics on a value reached through an
    unexported field. The element types of [reflect.Copy] have to be the same,
    so the copy of the bytes into a slice of a named byte type panics. *)
Definition set (canSet : bool) (v : goval) (read : Z) : outcome (goval * Z) :=
  if canSet then Ok (v, read) else Panic.

Fixpoint decodeScalarValue (canSet : bool) (t : gotype) (data : list byte) {struct t} :
    outcome (goval * Z) :=
  match t with
  | TBasic _ KBool =>
      when (zlen data <? 1)%Z => Fail malformed ;;
      b ← at_index data 0;
      when negb (bool_decide (b = Byte.x00) || bool_decide (b = Byte.x01)) => Fail malformed ;;
      set canSet (VBool (bool_decide (b = Byte.x01))) 1
  | TBasic _ KString =>
      when (zlen data <? 4)%Z => Fail malformed ;;
      size ← Uint 4 data;
      when (zlen data - 4 <? size)%Z => Fail malformed ;;
      text ← slice data 4 (4 + size);
      set canSet (VString (bytes_string text)) (4 + size)
  | TBasic _ k =>
      word ← decode_word data;
      match is_signed k, is_unsigned k with
      | Some w, _ => set canSet (VInt (to_sint w (to_sint 64 word))) 8
      | None, Some w => set canSet (VUint (to_uint w word)) 8
      | None, None => set canSet (VFloat (set_float k word)) 8
      end
  | TSlice e =>
      when (zlen data <? 4)%Z || negb (is_uint8 e) => Fail malformed ;;
      encodedSize ← Uint 4 data;
      when (encodedSize =? 0)%Z => set canSet (VBytes None) 4 ;;
      let size := to_uint 32 (encodedSize - 1) in
      when (zlen data - 4 <? size)%Z => Fail malformed ;;
      decoded ← slice data 4 (4 + size);
      when negb (is_byte e) => Panic ;;
      set canSet (VBytes (Some decoded)) (4 + size)
  | TArray n e =>
      r ← decodeScalarAggregate (replicate n (decodeScalarValue canSet e)) data 0;
      Ok (VArray r.1, r.2)
  | TStruct _ fs =>
      r ← decodeScalarAggregate (map (fun f => decodeScalarValue (canSet && f.1.2) f.2) fs) data 0;
      Ok (VStruct r.1, r.2)
  | TPointer _ | TOther _ => Fail (ErrText "nestory: scalar WAL row contains")
  end.

Definition decodeScalarRow (data : list byte) (t : gotype) : outcome goval :=
  r ← decodeScalarValue true t data;
  when negb (r.2 =? zlen data)%Z => Fail malformed ;;
  Ok r.1.

(** ** The tagged row: gob is the fallback *)

Section tagged.
Context (gob_encode : gotype -> goval -> outcome (list byte)).
Context (gob_decode : gotype -> list byte -> outcome goval).

Definition encodeRow (t : gotype) (v : goval) : outcome (list byte) :=
  match scalarRowSize t v with
  | Some size =>
      row ← make_bytes size;
      row ← (if (0 <? zlen row)%Z then copy_at row 0 [rowEncodingScalar] else Panic);
      encodeScalarRow row 1 t v
  | None =>
      payload ← gob_encode t v;
      Ok (rowEncodingGob :: payload)
  end.

Definition decodeRow (data : list byte) (rowType : gotype) : outcome goval :=
  when (zlen data =? 0)%Z => Fail (ErrText "nestory: empty WAL row") ;;
  tag ← at_index data 0;
  payload ← slice_from data 1;
  if decide (tag = rowEncodingGob) then gob_decode rowType payload
  else if decide (tag = rowEncodingScalar) then decodeScalarRow payload rowType
  else Fail (ErrText "nestory: unknown WAL row encoding").
End tagged.

(** ** Reference layout *)

Fixpoint scalar_bytes (t : gotype) (v : goval) {struct t} : list byte :=
  match t, v with
  | TBasic _ KBool, VBool b => [if b then Byte.x01 else Byte.x00]
  | TBasic _ KString, VString s => be_put 4 (to_uint 32 (zlen (string_bytes s))) ++ string_bytes s
  | TBasic _ _, VInt z => be_put 8 (to_uint 64 z)
  | TBasic _ _, VUint z => be_put 8 z
  | TBasic _ k, VFloat bits => be_put 8 (float_bits k bits)
  | TSlice _, VBytes None => be_put 4 0
  | TSlice _, VBytes (Some bs) => be_put 4 (to_uint 32 (zlen bs + 1)) ++ bs
  | TArray _ e, VArray l => concat (map (scalar_bytes e) l)
  | TStruct _ fs, VStruct l => concat (zip_with (fun f => scalar_bytes f.2) fs l)
  | _, _ => []
  end.

(** The values the codec restores exactly: well typed, and no float32 is a
    signalling NaN (Go's float32/float64 conversions quiet those). *)
Fixpoint no_signalling (t : gotype) (v : goval) {struct t} : bool :=
  match t, v with
  | TBasic _ KFloat32, VFloat b => negb (is_signalling32 b)
  | TArray _ e, VArray l => forallb (no_signalling e) l
  | TStruct _ fs, VStruct l => forallb id (zip_with (fun f => no_signalling f.2) fs l)
  | _, _ => true
  end.

(** Its byte slices are slices of [byte] itself, unless they are nil. *)
Fixpoint copyable (t : gotype) (v : goval) {struct t} : bool :=
  match t, v with
  | TSlice e, VBytes (Some _) => is_byte e
  | TArray _ e, VArray l => forallb (copyable e) l
  | TStruct _ fs, VStruct l => forallb id (zip_with (fun f => copyable f.2) fs l)
  | _, _ => true
  end.

(** Types the decoder can set: no struct has an unexported field, and a slice
    of a type of kind uint8 is a slice of [byte]. *)
Fixpoint settable (t : gotype) : bool :=
  match t with
  | TSlice e => negb (is_uint8 e) || is_byte e
  | TArray _ e => settable e
  | TStruct _ fs => forallb (fun f => f.1.2) fs && forallb (fun f => settable f.2) fs
  | _ => true
  end.

(** A sample row for the examples: one field of each encoding. *)
Definition sample_type : gotype :=
  TStruct "" [("Id", true, TBasic "int" KInt); ("Name", true, TBasic "string" KString);
              ("Blob", true, TSlice (TBasic "uint8" KUint8)); ("Ratio", true, TBasic "float32" KFloat32);
              ("Ok", true, TBasic "bool" KBool); ("Seq", true, TArray 2 (TBasic "int8" KInt8))]%string.
Definition sample_value : goval :=
  VStruct [VInt 7; VString "Ada"; VBytes (Some [Byte.xff]); VFloat 1; VBool true;
           VArray [VInt (-128); VInt 127]].

(** * Lemmas *)

Definition zeros (n : Z) : list byte := replicate (Z.to_nat n) Byte.x00.
Definition zsum (l : list Z) : Z := foldr Z.add 0%Z l.

(** What one field's encoder and decoder do at its place in a row. *)
Definition enc_at (enc : encoder) (bs : list byte) (n : Z) : Prop :=
  zlen bs = n /\
  forall pre post, enc (pre ++ zeros n ++ post) (zlen pre) = Ok (pre ++ bs ++ post, n).
Definition dec_at (dec : decoder) (bs : list byte) (r : option goval) : Prop :=
  forall rest, dec (bs ++ rest) = match r with Some v => Ok (v, zlen bs) | None => Panic end.
(** What the decoder gives back for a value. *)
Definition read_back (t : gotype) (v : goval) : option goval := if copyable t v then Some v else None.

Lemma zlen_zeros n : (0 <= n)%Z -> zlen (zeros n) = n.
Proof. intros. unfold zeros. rewrite zlen_replicate. lia. Qed.

Lemma zeros_split n m : (0 <= n)%Z -> (0 <= m)%Z -> zeros (n + m) = zeros n ++ zeros m.
Proof. intros. unfold zeros. rewrite <- replicate_add. f_equal. lia. Qed.

Lemma scalarAggregateSize_sum fields s total :
  scalarAggregateSize s fields = Some total ->
  exists ns, fields = Some <$> ns /\ total = (s + zsum ns)%Z.
Proof.
  revert s. induction fields as [|[f|] fields IH]; intros s E; simpl in E.
  - exists []. simpl. split; [done|]. injection E as ->. lia.
  - destruct (_ <? _)%Z; [done|]. destruct (IH _ E) as (ns & -> & ->).
    exists (f :: ns). simpl. split; [done|lia].
  - done.
Qed.

Lemma encode_aggregate encs bss ns :
  Forall3 enc_at encs bss ns ->
  zlen (concat bss) = zsum ns /\
  forall pre done_ post,
    encodeScalarAggregate encs (pre ++ done_ ++ zeros (zsum ns) ++ post) (zlen pre) (zlen done_) =
    Ok (pre ++ done_ ++ concat bss ++ post, zlen done_ + zsum ns)%Z.
Proof.
  induction 1 as [|enc bs n encs bss ns [Hlen Henc] Hall [IHlen IH]]; simpl.
  { split; [done|]. intros. by rewrite Z.add_0_r. }
  assert (0 <= n)%Z by (rewrite <- Hlen; apply zlen_nonneg).
  assert (0 <= zsum ns)%Z by (rewrite <- IHlen; apply zlen_nonneg).
  split; [rewrite zlen_app; lia|]. intros pre done_ post.
  rewrite zeros_split by lia. rewrite <- !app_assoc.
  destruct (Z.ltb_spec (zlen (pre ++ done_ ++ zeros n ++ zeros (zsum ns) ++ post)) (zlen pre + zlen done_)) as [C|_].
  { exfalso. rewrite !zlen_app in C. pose proof (zlen_nonneg (zeros n)).
    pose proof (zlen_nonneg (zeros (zsum ns))). pose proof (zlen_nonneg post). lia. }
  rewrite <- zlen_app, app_assoc, Henc. cbn [mbind outcome_bind fst snd].
  specialize (IH pre (done_ ++ bs) post). rewrite zlen_app, Hlen in IH.
  rewrite <- !app_assoc in IH. rewrite <- app_assoc, IH. by rewrite Z.add_assoc.
Qed.

Lemma decode_aggregate decs bss rs :
  Forall3 dec_at decs bss rs ->
  forall done_ rest,
    decodeScalarAggregate decs (done_ ++ concat bss ++ rest) (zlen done_) =
    match mapM id rs with Some vs => Ok (vs, zlen done_ + zlen (concat bss))%Z | None => Panic end.
Proof.
  induction 1 as [|dec bs v decs bss vs Hdec Hall IH]; intros done_ rest; simpl.
  { by rewrite Z.add_0_r. }
  rewrite slice_from_joint by done. cbn [mbind outcome_bind].
  rewrite <- app_assoc, Hdec. destruct v as [v|]; [|done]. cbn [mbind outcome_bind fst snd option_bind id].
  specialize (IH (done_ ++ bs) rest). rewrite <- !app_assoc, zlen_app in IH. rewrite IH.
  destruct (mapM id vs); [|done]. cbn. by rewrite zlen_app, Z.add_assoc.
Qed.

Lemma read_back_all (ts : list gotype) (vs : list goval) : length ts = length vs ->
  mapM id (zip_with read_back ts vs) = if forallb id (zip_with copyable ts vs) then Some vs else None.
Proof.
  revert vs. induction ts as [|t ts IH]; intros [|v vs] Hl; try discriminate Hl; [done|]. injection Hl as Hl. cbn. rewrite (IH vs Hl).
  unfold read_back, id. destruct (copyable t v); cbn; [|done]. by destruct (forallb _ _).
Qed.

Lemma enc_word z : enc_at (fun buf base => buf' ← PutUint 8 buf base z; Ok (buf', 8%Z)) (be_put 8 z) 8.
Proof.
  split; [by rewrite zlen_be_put|]. intros pre post.
  by rewrite PutUint_joints by (rewrite ?zlen_zeros; done).
Qed.

(** A length word followed by that many bytes. *)
Lemma enc_counted w bs :
  enc_at (fun buf base => buf' ← PutUint 4 buf base w; buf'' ← copy_at buf' (base + 4) bs;
                          Ok (buf'', 4 + copied buf' (base + 4) bs)%Z)
         (be_put 4 w ++ bs) (4 + zlen bs).
Proof.
  pose proof (zlen_nonneg bs).
  split; [by rewrite zlen_app, zlen_be_put|]. intros pre post.
  rewrite zeros_split by lia. rewrite <- app_assoc, PutUint_joints by done.
  cbn [mbind outcome_bind]. rewrite (app_assoc pre), copy_at_joints
    by (rewrite ?zlen_app, ?zlen_be_put, ?zlen_zeros; lia).
  cbn [mbind outcome_bind]. rewrite <- !app_assoc. do 2 f_equal. f_equal.
  unfold copied. rewrite !zlen_app, zlen_be_put, zlen_zeros by lia.
  pose proof (zlen_nonneg post). lia.
Qed.

Lemma dec_word z (f : Z -> goval) v :
  uint_range 64 z -> f z = v ->
  dec_at (fun data => word ← decode_word data; Ok (f word, 8%Z)) (be_put 8 z) (Some v).
Proof.
  intros Hz <- rest. unfold decode_word. rewrite zlen_app, zlen_be_put.
  pose proof (zlen_nonneg rest). destruct (Z.ltb_spec (Z.of_nat 8 + zlen rest) 8); [lia|].
  rewrite Uint_put by done. done.
Qed.

Definition codec_at (t : gotype) (v : goval) (n : Z) : Prop :=
  enc_at (encodeScalarValue t v) (scalar_bytes t v) n /\
  (no_signalling t v = true -> dec_at (decodeScalarValue true t) (scalar_bytes t v) (read_back t v)).

Lemma codec_basic name k v n :
  basic_ok k v = true -> scalarValueSize (TBasic name k) v = Some n -> codec_at (TBasic name k) v n.
Proof.
  intros Hok Hn.
  destruct k; destruct v; try discriminate Hok; cbn in Hn;
    try (injection Hn as <-; split; [apply (enc_word _)|intros Hns]).
  - (* bool *) injection Hn as <-. split.
    + split; [done|]. intros pre post. cbn. destruct b; [|done].
      rewrite !zlen_app. change (zlen (zeros 1)) with 1%Z. pose proof (zlen_nonneg post).
      destruct (Z.ltb_spec (zlen pre) (zlen pre + (1 + zlen post))); [|lia].
      by rewrite copy_at_joints.
    + intros _ rest. cbn. rewrite zlen_cons. pose proof (zlen_nonneg rest).
      destruct (Z.ltb_spec (1 + zlen rest) 1); [lia|]. by destruct b.
  - apply (dec_word _ (fun w => VInt (to_sint 64 (to_sint 64 w)))); [by apply to_uint_range|]; cbn in Hok.
    rewrite to_sint_to_uint, to_sint_small; unfold sint_range; auto; lia.
  - apply (dec_word _ (fun w => VInt (to_sint 8 (to_sint 64 w)))); [by apply to_uint_range|]; cbn in Hok.
    rewrite to_sint_to_uint, to_sint_small; unfold sint_range; auto; lia.
  - apply (dec_word _ (fun w => VInt (to_sint 16 (to_sint 64 w)))); [by apply to_uint_range|]; cbn in Hok.
    rewrite to_sint_to_uint, to_sint_small; unfold sint_range; auto; lia.
  - apply (dec_word _ (fun w => VInt (to_sint 32 (to_sint 64 w)))); [by apply to_uint_range|]; cbn in Hok.
    rewrite to_sint_to_uint, to_sint_small; unfold sint_range; auto; lia.
  - apply (dec_word _ (fun w => VInt (to_sint 64 (to_sint 64 w)))); [by apply to_uint_range|]; cbn in Hok.
    rewrite to_sint_to_uint, to_sint_small; unfold sint_range; auto; lia.
  - cbn in Hok; apply (dec_word _ (fun w => VUint (to_uint 64 w))); [|rewrite to_uint_small]; unfold uint_range; auto; lia.
  - cbn in Hok; apply (dec_word _ (fun w => VUint (to_uint 8 w))); [|rewrite to_uint_small]; unfold uint_range; auto; lia.
  - cbn in Hok; apply (dec_word _ (fun w => VUint (to_uint 16 w))); [|rewrite to_uint_small]; unfold uint_range; auto; lia.
  - cbn in Hok; apply (dec_word _ (fun w => VUint (to_uint 32 w))); [|rewrite to_uint_small]; unfold uint_range; auto; lia.
  - cbn in Hok; apply (dec_word _ (fun w => VUint (to_uint 64 w))); [|rewrite to_uint_small]; unfold uint_range; auto; lia.
  - cbn in Hok, Hns. assert (uint_range 32 bits) by (unfold uint_range; lia).
    apply (dec_word _ (fun w => VFloat (f32_narrow w))); [by apply f32_widen_range|].
    rewrite f32_narrow_widen; [done|done|]. by destruct (is_signalling32 bits).
  - cbn in Hok; apply (dec_word _ (fun w => VFloat w)); [unfold float_bits, uint_range; lia|done].
  - (* string *) pose proof (zlen_nonneg (string_bytes s)).
    destruct (Z.ltb_spec maxUint32 (zlen (string_bytes s))) as [|Hle]; [done|].
    injection Hn as <-. unfold maxUint32 in Hle. split; [apply enc_counted|].
    intros _ rest. cbn. rewrite !zlen_app, zlen_be_put. pose proof (zlen_nonneg rest).
    destruct (Z.ltb_spec (Z.of_nat 4 + zlen (string_bytes s) + zlen rest) 4); [lia|].
    rewrite <- app_assoc, Uint_put by (apply to_uint_range; lia). cbn [mbind outcome_bind].
    rewrite to_uint_small by (unfold uint_range; lia).
    destruct (Z.ltb_spec (Z.of_nat 4 + zlen (string_bytes s) + zlen rest - 4) (zlen (string_bytes s))); [lia|].
    rewrite slice_joints by (rewrite ?zlen_be_put; lia). cbn [mbind outcome_bind].
    by rewrite bytes_string_bytes.
Qed.

Lemma codec_bytes e o n :
  value_ok (TSlice e) (VBytes o) = true -> scalarValueSize (TSlice e) (VBytes o) = Some n ->
  codec_at (TSlice e) (VBytes o) n.
Proof.
  cbn. intros He. rewrite He. cbn. unfold bytes_len.
  destruct (Z.leb_spec maxUint32 (zlen (default [] o))) as [|Hlt]; [done|]. intros [= <-].
  destruct o as [bs|]; cbn in *.
  - pose proof (zlen_nonneg bs). split; [apply enc_counted|]. unfold maxUint32 in Hlt.
    intros _ rest. cbn. rewrite He, !zlen_app, zlen_be_put. pose proof (zlen_nonneg rest).
    destruct (Z.ltb_spec (Z.of_nat 4 + zlen bs + zlen rest) 4); [lia|]. cbn [orb negb].
    rewrite <- app_assoc, Uint_put by (apply to_uint_range; lia). cbn [mbind outcome_bind].
    rewrite (to_uint_small 32 (zlen bs + 1)) by (unfold uint_range; lia).
    destruct (Z.eqb_spec (zlen bs + 1) 0); [lia|].
    rewrite (to_uint_small 32) by (unfold uint_range; lia). rewrite Z.add_simpl_r.
    destruct (Z.ltb_spec (Z.of_nat 4 + zlen bs + zlen rest - 4) (zlen bs)); [lia|].
    rewrite slice_joints by (rewrite ?zlen_be_put; lia). unfold read_back. cbn. by destruct (is_byte e).
  - split.
    + split; [done|]. intros pre post. cbn. by rewrite PutUint_joints.
    + intros _ rest. unfold decodeScalarValue, scalar_bytes. rewrite He, zlen_app, zlen_be_put.
      pose proof (zlen_nonneg rest). destruct (Z.ltb_spec (Z.of_nat 4 + zlen rest) 4); [lia|].
      cbn [orb negb]. by rewrite Uint_put by done.
Qed.

(** An aggregate of fields that each obey the codec obeys it. *)
Lemma codec_aggregate (ts : list gotype) (vs : list goval) ns :
  Forall3 codec_at ts vs ns ->
  enc_at (fun buf base => encodeScalarAggregate (zip_with encodeScalarValue ts vs) buf base 0)
         (concat (zip_with scalar_bytes ts vs)) (zsum ns) /\
  (forallb id (zip_with no_signalling ts vs) = true -> forall rest,
   decodeScalarAggregate (map (decodeScalarValue true) ts) (concat (zip_with scalar_bytes ts vs) ++ rest) 0 =
   if forallb id (zip_with copyable ts vs) then Ok (vs, zlen (concat (zip_with scalar_bytes ts vs))) else Panic).
Proof.
  intros Hall. split.
  - assert (Forall3 enc_at (zip_with encodeScalarValue ts vs) (zip_with scalar_bytes ts vs) ns) as He.
    { induction Hall as [|t v n ts' vs' ns' [Hc _] _ IH]; constructor; auto. }
    destruct (encode_aggregate _ _ _ He) as [Hlen Henc]. split; [done|].
    intros pre post. exact (Henc pre [] post).
  - intros Hns rest.
    assert (Forall3 dec_at (map (decodeScalarValue true) ts) (zip_with scalar_bytes ts vs) (zip_with read_back ts vs)) as Hd.
    { clear -Hall Hns. induction Hall as [|t v n ts' vs' ns' [_ Hc] _ IH]; constructor;
        cbn in Hns; apply andb_true_iff in Hns as [? ?]; auto. }
    pose proof (decode_aggregate _ _ _ Hd [] rest) as E. cbn [app] in E. change (zlen []) with 0%Z in E.
    rewrite E, read_back_all by exact (Forall3_length_lm _ _ _ _ Hall). by destruct (forallb id (zip_with copyable ts vs)).
Qed.

Lemma Forall3_from_sizes (ts : list gotype) (vs : list goval) (ns : list Z) :
  Forall (fun t => forall v n, value_ok t v = true -> scalarValueSize t v = Some n -> codec_at t v n) ts ->
  Forall2 (fun t v => value_ok t v = true) ts vs ->
  zip_with scalarValueSize ts vs = Some <$> ns -> Forall3 codec_at ts vs ns.
Proof.
  intros HP Hv. revert ns. induction Hv as [|t v ts vs Hv0 Hv IH]; intros [|n ns] E; try discriminate E.
  - constructor.
  - apply Forall_cons in HP as [HP0 HP]. injection E as E0 E. constructor; auto.
Qed.

Lemma decode_exported (fs : list (string * bool * gotype)) :
  forallb (fun f => f.1.2) fs = true ->
  map (fun f => decodeScalarValue f.1.2 f.2) fs = map (decodeScalarValue true) fs.*2.
Proof.
  induction fs as [|f fs IH]; simpl; [done|]. intros [-> Hf]%andb_true_iff. by rewrite IH.
Qed.

(** Every well-typed scalar value obeys the codec. *)
Lemma codec_value t v n :
  value_ok t v = true -> scalarValueSize t v = Some n -> codec_at t v n.
Proof.
  revert v n. induction t as [name k|e IH|m e IH|name fs IH|target|name] using gotype_rect'; intros v n Hv Hn.
  - by apply codec_basic.
  - destruct v; try discriminate. by apply codec_bytes.
  - destruct v as [| | | | | | |l| | |]; try discriminate. cbn in Hv, Hn.
    apply andb_true_iff in Hv as [Hlen Hv]. apply Nat.eqb_eq in Hlen as <-.
    apply scalarAggregateSize_sum in Hn as (ns & Hns & ->). rewrite Z.add_0_l.
    assert (forall {A} (f : gotype -> goval -> A), map (f e) l = zip_with f (replicate (length l) e) l) as Z1.
    { intros A f. clear. induction l; simpl; congruence. }
    destruct (codec_aggregate (replicate (length l) e) l ns) as [He Hd].
    { apply Forall3_from_sizes; [by apply Forall_replicate| |by rewrite <- Z1].
      apply Forall2_same_length_lookup_2; [by rewrite length_replicate|].
      intros i t v Ht Hvi. apply lookup_replicate in Ht as [-> _].
      rewrite forallb_forall in Hv. apply Hv, list_elem_of_In. by eapply list_elem_of_lookup_2. }
    split; cbn; rewrite !Z1; [exact He|].
    intros Hns'. intros rest. rewrite forallb_forall in Hns'.
    rewrite <- (fmap_replicate (decodeScalarValue true) (length l) e : map _ _ = _).
    rewrite Hd; [unfold read_back; cbn; rewrite <- Z1; replace (forallb id (map (copyable e) l)) with (forallb (copyable e) l)
      by (clear; induction l; cbn; congruence); by destruct (forallb (copyable e) l)|]. rewrite <- Z1. apply forallb_forall.
    intros b Hb. apply in_map_iff in Hb as (v & <- & Hb). apply (Hns' v Hb).
  - destruct v as [| | | | | | | |l| |]; try discriminate. apply value_ok_struct in Hv. cbn in Hn.
    destruct (forallb _ fs) eqn:Hexp; [|done].
    apply scalarAggregateSize_sum in Hn as (ns & Hns & ->). rewrite Z.add_0_l.
    assert (forall {A} (f : gotype -> goval -> A), zip_with (fun fld => f fld.2) fs l = zip_with f fs.*2 l) as Z1.
    { intros A f. clear. revert l. induction fs as [|fld fs IHf]; intros [|v l]; simpl; [done..|].
      by rewrite IHf. }
    destruct (codec_aggregate fs.*2 l ns) as [He Hd].
    { apply Forall3_from_sizes; [by apply Forall_fmap| |by rewrite <- Z1]. by apply Forall2_fmap_l. }
    split; cbn; rewrite !Z1; [exact He|]. intros Hns' rest.
    rewrite decode_exported by done. rewrite Hd by done. unfold read_back. cbn. rewrite Z1. by destruct (forallb id (zip_with copyable fs.*2 l)).
  - by destruct v.
  - by destruct v.
Qed.

(** ** Decoding arbitrary bytes *)

(** A decoder is safe when on every input it returns a value of type [t] and
    how much of the input it read, or reports malformed data. *)
Definition dec_safe (t : gotype) (data : list byte) (r : outcome (goval * Z)) : Prop :=
  match r with
  | Ok (v, n) => value_ok t v = true /\ (0 <= n <= zlen data)%Z
  | Fail _ => True
  | Panic => False
  end.

Lemma decode_word_safe data : 
  match decode_word data with Ok w => uint_range 64 w /\ (8 <= zlen data)%Z | Fail _ => True | Panic => False end.
Proof.
  unfold decode_word. destruct (Z.ltb_spec (zlen data) 8); [done|].
  destruct (Uint_ok 8 data) as [w Hw]; [lia|]. rewrite Hw.
  apply Uint_inv in Hw as (? & _ & Hr). split; [exact Hr|lia].
Qed.

Lemma dec_safe_basic name k data : dec_safe (TBasic name k) data (decodeScalarValue true (TBasic name k) data).
Proof.
  pose proof (decode_word_safe data) as Hw.
  destruct k; cbn [decodeScalarValue is_signed is_unsigned set_float];
    try (destruct (decode_word data) as [w| |]; [|done|done]; destruct Hw as [Hw Hl]; cbn; split; [|lia]).
  - destruct (Z.ltb_spec (zlen data) 1); [done|]. unfold at_index. cbn.
    destruct data as [|b data]; [by rewrite zlen_nil in *|]. simpl.
    destruct (negb _); [done|]. split; [done|]. rewrite zlen_cons. pose proof (zlen_nonneg data). lia.
  - pose proof (to_sint_range 64 (to_sint 64 w)). unfold sint_range in *. lia.
  - pose proof (to_sint_range 8 (to_sint 64 w)). unfold sint_range in *. lia.
  - pose proof (to_sint_range 16 (to_sint 64 w)). unfold sint_range in *. lia.
  - pose proof (to_sint_range 32 (to_sint 64 w)). unfold sint_range in *. lia.
  - pose proof (to_sint_range 64 (to_sint 64 w)). unfold sint_range in *. lia.
  - pose proof (to_uint_range 64 w). unfold uint_range in *. lia.
  - pose proof (to_uint_range 8 w). unfold uint_range in *. lia.
  - pose proof (to_uint_range 16 w). unfold uint_range in *. lia.
  - pose proof (to_uint_range 32 w). unfold uint_range in *. lia.
  - pose proof (to_uint_range 64 w). unfold uint_range in *. lia.
  - pose proof (f32_narrow_range w Hw). unfold uint_range in *. lia.
  - unfold uint_range in *. lia.
  - destruct (Z.ltb_spec (zlen data) 4); [done|].
    destruct (Uint_ok 4 data) as [sz Hsz]; [lia|]. rewrite Hsz. cbn [mbind outcome_bind].
    apply Uint_inv in Hsz as (? & _ & Hr). unfold uint_range in Hr.
    destruct (Z.ltb_spec (zlen data - 4) sz); [done|].
    destruct (slice_ok data 4 (4 + sz)) as (? & ? & ? & _ & _ & _ & ->); [lia|lia|].
    cbn. split; [done|lia].
Qed.

Lemma dec_safe_bytes e data : settable (TSlice e) = true -> dec_safe (TSlice e) data (decodeScalarValue true (TSlice e) data).
Proof.
  cbn. intros Hs. destruct (Z.ltb_spec (zlen data) 4); [done|]. destruct (is_uint8 e) eqn:He; [|done]. cbn [orb negb] in *.
  destruct (Uint_ok 4 data) as [sz Hsz]; [lia|]. rewrite Hsz. cbn [mbind outcome_bind].
  apply Uint_inv in Hsz as (? & _ & Hr). unfold uint_range in Hr.
  destruct (Z.eqb_spec sz 0); [cbn; rewrite He; split; [done|lia]|].
  rewrite to_uint_small by (unfold uint_range; lia).
  destruct (Z.ltb_spec (zlen data - 4) (sz - 1)); [done|].
  destruct (slice_ok data 4 (4 + (sz - 1))) as (? & ? & ? & _ & _ & _ & ->); [lia|lia|].
  cbn. rewrite Hs. cbn. rewrite He. split; [done|lia].
Qed.

Lemma decode_aggregate_safe (ts : list gotype) data off :
  Forall (fun t => forall data, dec_safe t data (decodeScalarValue true t data)) ts ->
  (0 <= off <= zlen data)%Z ->
  match decodeScalarAggregate (map (decodeScalarValue true) ts) data off with
  | Ok (vs, n) => Forall2 (fun t v => value_ok t v = true) ts vs /\ (0 <= n <= zlen data)%Z
  | Fail _ => True
  | Panic => False
  end.
Proof.
  intros HP. revert off. induction HP as [|t ts Ht HP IH]; intros off Hoff; cbn; [by split|].
  destruct (slice_from_ok data off Hoff) as (a & from & Hd & La & ->). cbn [mbind outcome_bind].
  specialize (Ht from). destruct (decodeScalarValue true t from) as [[v n]| |]; cbn in *; [|done|done].
  destruct Ht as [Hv Hn]. specialize (IH (off + n)%Z).
  assert (zlen data = zlen a + zlen from)%Z by (by rewrite Hd, zlen_app).
  destruct (decodeScalarAggregate _ data (off + n)) as [[vs m]| |]; cbn in *; try lia; try done.
  destruct IH as [IH1 IH2]; [lia|]. split; [by constructor|done].
Qed.

Lemma dec_safe_value t data :
  settable t = true -> dec_safe t data (decodeScalarValue true t data).
Proof.
  revert data. induction t as [name k|e _|m e IH|name fs IH|target|name] using gotype_rect'; intros data Hexp.
  - apply dec_safe_basic.
  - by apply dec_safe_bytes.
  - pose proof (decode_aggregate_safe (replicate m e) data 0) as H.
    cbn. rewrite (fmap_replicate (decodeScalarValue true) m e : map _ _ = _) in H.
    pose proof (zlen_nonneg data).
    assert (Forall (fun t => forall data, dec_safe t data (decodeScalarValue true t data)) (replicate m e))
      as HF by (apply Forall_replicate; auto).
    specialize (H HF ltac:(lia)).
    destruct (decodeScalarAggregate _ data 0) as [[vs n]| |]; cbn; [|done|done].
    destruct H as [Hv Hn]. split; [|done]. apply andb_true_iff. split.
    { apply Nat.eqb_eq. apply Forall2_length in Hv. by rewrite length_replicate in Hv. }
    apply forallb_forall. intros v Hin. apply list_elem_of_In, list_elem_of_lookup in Hin as [i Hi].
    destruct (Forall2_lookup_r _ _ _ _ _ Hv Hi) as (t & Ht & Hok).
    by apply lookup_replicate in Ht as [-> _].
  - cbn in Hexp. apply andb_true_iff in Hexp as [Hexp Hin].
    pose proof (decode_aggregate_safe fs.*2 data 0) as H. cbn. rewrite decode_exported by done.
    pose proof (zlen_nonneg data).
    assert (Forall (fun t => forall data, dec_safe t data (decodeScalarValue true t data)) fs.*2) as HF.
    { apply Forall_fmap, Forall_forall. intros f Hf d. rewrite Forall_forall in IH.
      apply IH; [done|]. rewrite forallb_forall in Hin. by apply Hin, list_elem_of_In. }
    specialize (H HF ltac:(lia)).
    destruct (decodeScalarAggregate _ data 0) as [[vs n]| |]; cbn; [|done|done].
    destruct H as [Hv Hn]. split; [|done]. apply (value_ok_struct name). by apply Forall2_fmap_l in Hv.
  - done.
  - done.
Qed.

(** The codec writes the tag, then every field at its place. *)
Lemma encodeRow_scalar gob_encode t v n :
  value_ok t v = true -> scalarRowSize t v = Some n ->
  encodeRow gob_encode t v = Ok (rowEncodingScalar :: scalar_bytes t v) /\ n = (1 + zlen (scalar_bytes t v))%Z.
Proof.
  intros Hv Hn. unfold encodeRow. rewrite Hn. unfold scalarRowSize in Hn.
  destruct (negb (is_struct t)); [done|]. destruct (scalarValueSize t v) as [size|] eqn:Hs; [|done].
  destruct (Z.eqb_spec size maxInt); [done|]. injection Hn as <-.
  destruct (codec_value t v size Hv Hs) as [[Hlen Henc] _]. pose proof (zlen_nonneg (scalar_bytes t v)).
  split; [|lia]. unfold make_bytes. destruct (Z.leb_spec 0 (size + 1)) as [_|]; [|lia].
  replace (size + 1)%Z with (1 + size)%Z by lia.
  fold (zeros (1 + size)). rewrite zeros_split by lia. cbn [mbind outcome_bind].
  rewrite zlen_app, !zlen_zeros by lia. destruct (Z.ltb_spec 0 (1 + size)); [|lia].
  pose proof (copy_at_joints [] (zeros 1) (zeros size) [rowEncodingScalar] 0 eq_refl eq_refl) as Etag.
  cbn [app] in Etag. rewrite Etag.
  cbn [mbind outcome_bind]. unfold encodeScalarRow.
  pose proof (Henc [rowEncodingScalar] []) as E. rewrite !app_nil_r in E.
  change (zlen [rowEncodingScalar]) with 1%Z in E. cbn [app]. cbn [app] in E. by rewrite E.
Qed.

Lemma decodeRow_tagged gob_decode tag payload t :
  decodeRow gob_decode (tag :: payload) t =
  if decide (tag = rowEncodingGob) then gob_decode t payload
  else if decide (tag = rowEncodingScalar) then decodeScalarRow payload t
  else Fail (ErrText "nestory: unknown WAL row encoding").
Proof.
  unfold decodeRow. rewrite zlen_cons. pose proof (zlen_nonneg payload).
  destruct (Z.eqb_spec (1 + zlen payload) 0); [lia|]. cbn [at_index Z.leb Z.to_nat lookup list_lookup mbind outcome_bind].
  pose proof (slice_from_joint [tag] payload 1 eq_refl) as Es. cbn [app] in Es. by rewrite Es.
Qed.

Lemma decodeScalarRow_total data t :
  settable t = true -> decodeScalarRow data t <> Panic.
Proof.
  intros Hexp. unfold decodeScalarRow. pose proof (dec_safe_value t data Hexp) as H.
  destruct (decodeScalarValue true t data) as [[v n]| |]; cbn; [by destruct (negb _)|done|done].
Qed.

Lemma decodeRow_total gob_decode data t :
  (forall data, gob_decode t data <> Panic) -> settable t = true -> decodeRow gob_decode data t <> Panic.
Proof.
  intros Hgob Hexp. destruct data as [|tag payload]; [done|]. rewrite decodeRow_tagged.
  destruct (decide _); [done|]. destruct (decide _); [by apply decodeScalarRow_total|done].
Qed.

Lemma codec_reads_back gob_encode gob_decode t v :
  value_ok t v = true ->
  match scalarRowSize t v with
  | Some size =>
      exists data, encodeRow gob_encode t v = Ok data /\ zlen data = size /\
        (no_signalling t v = true -> decodeRow gob_decode data t = if copyable t v then Ok v else Panic)
  | None =>
      forall data, encodeRow gob_encode t v = Ok data ->
        exists payload, gob_encode t v = Ok payload /\ decodeRow gob_decode data t = gob_decode t payload
  end.
Proof.
  intros Hv. destruct (scalarRowSize t v) as [size|] eqn:Hs.
  - destruct (encodeRow_scalar gob_encode t v size Hv Hs) as [-> ->].
    eexists. split_and!; [done|by rewrite zlen_cons|]. intros Hns.
    rewrite decodeRow_tagged. cbn. unfold decodeScalarRow.
    assert (exists n, scalarValueSize t v = Some n) as [n Hn].
    { unfold scalarRowSize in Hs. destruct (negb _); [done|]. destruct (scalarValueSize t v); [eauto|done]. }
    destruct (codec_value t v n Hv Hn) as [_ Hd]. specialize (Hd Hns []). rewrite app_nil_r in Hd.
    rewrite Hd. unfold read_back. destruct (copyable t v); [|done]. cbn [mbind outcome_bind fst snd]. by rewrite Z.eqb_refl.
  - intros data. unfold encodeRow. rewrite Hs. intros E. bind_ok E. inv_ok.
    eexists. split; [done|]. by rewrite decodeRow_tagged.
Qed.

(** C16: a row survives the trip through its encoding. A flat row whose fields
    the compact codec supports is written in exactly the number of bytes the
    codec sized it at, behind the scalar tag, and reads back as the same value,
    unless it holds a slice of a named byte type, which the encoder takes and
    on which the decoder panics (a defect). Any other row goes through gob behind
    the gob tag and reads back as what gob gives back. A float32 that is a
    signalling NaN is left out. *)
Theorem row_codec_roundtrip gob_encode gob_decode t v :
  value_ok t v = true ->
  match scalarRowSize t v with
  | Some size =>
      exists data, encodeRow gob_encode t v = Ok data /\ zlen data = size /\
        (no_signalling t v = true -> decodeRow gob_decode data t = if copyable t v then Ok v else Panic)
  | None =>
      forall data, encodeRow gob_encode t v = Ok data ->
        exists payload, gob_encode t v = Ok payload /\ decodeRow gob_decode data t = gob_decode t payload
  end.
Proof. apply codec_reads_back. Qed.

Definition named_type : gotype := TStruct "" [("Flags", true, TSlice (TBasic "Flag" KUint8))]%string.
Definition named_value : goval := VStruct [VBytes (Some [Byte.x01])].

Lemma row_codec_roundtrip_witness :
  (value_ok sample_type sample_value = true /\
   exists data, encodeRow (fun _ _ => Ok []) sample_type sample_value = Ok data /\ zlen data = 46%Z /\
     (no_signalling sample_type sample_value = true ->
      decodeRow (fun _ _ => Panic) data sample_type = Ok sample_value)) /\
  exists data, encodeRow (fun _ _ => Ok []) named_type named_value = Ok data /\ zlen data = 6%Z /\
    (no_signalling named_type named_value = true ->
     decodeRow (fun _ _ => Fail malformed) data named_type = Panic).
Proof.
  split; [split; [reflexivity|]|].
  - exact (row_codec_roundtrip (fun _ _ => Ok []) (fun _ _ => Panic) sample_type sample_value eq_refl).
  - exact (row_codec_roundtrip (fun _ _ => Ok []) (fun _ _ => Fail malformed) named_type named_value eq_refl).
Defined.

(** C36: the scalar decoder is total on arbitrary bytes. For a row type it can
    set - exported fields only, also in nested structs, and no slices of a named
    byte type - decoding either reports a malformed row or yields a value of the
    row type (integers within their width, arrays of their length), whatever
    the log holds, and it never indexes outside the input. *)
Theorem decodeScalarRow_safe data t :
  settable t = true ->
  match decodeScalarRow data t with
  | Ok v => value_ok t v = true
  | Fail _ => True
  | Panic => False
  end.
Proof.
  intros Hexp. unfold decodeScalarRow. pose proof (dec_safe_value t data Hexp) as H.
  destruct (decodeScalarValue true t data) as [[v n]| |]; cbn; [|done|done].
  destruct (negb _); [done|]. by destruct H.
Qed.

Lemma decodeScalarRow_safe_witness :
  settable sample_type = true /\
  match decodeScalarRow (replicate 44 Byte.x00) sample_type with
  | Ok v => value_ok sample_type v = true | Fail _ => True | Panic => False end.
Proof. split; [reflexivity|]. exact (decodeScalarRow_safe (replicate 44 Byte.x00) sample_type eq_refl). Defined.
