(* ===== verification/WalLog.v ===== *)
(** * The write-ahead logs (src/wal.go, lines 39-72, 138-217, and
      src/transaction_wal.go)

    The logs as the code drives them: a handle opened lazily on a file of the
    disk, frames appended and synced, the file removed by a flush, and the
    replay loops that read the frames back. What the operating system answers
    to one call is an argument of the operation. *)
From S2P Require Import Prelude GoBytes WalFrame GoReflect RowCodec.

(** ** Data *)

(** The files under the data directory that the logs touch. *)
Notation disk := (gmap string (list byte)).

(** [opened] says whether the field [f] holds an open file. The mutex of both
    structs makes each operation below one atomic step. *)
Record wal := { wal_path : string; opened : bool }.
Record transactionWAL := { tw_path : string; tw_opened : bool }.

(** Answers of the operating system to the calls of one append: [written] is
    how many bytes of the frame a failing [Write] leaves in the file. *)
Record append_env := {
  mkdir_error : option gerror;
  open_error : option gerror;
  write_error : option gerror;
  written : Z;
  sync_error : option gerror;
}.

Record truncate_env := { close_error : option gerror; remove_error : option gerror }.

Record recoveredRow := { rec_id : Z; rec_row : option goval; deleted : bool }.

(** ** Appending *)

Definition openWAL (path : string) : wal := {| wal_path := path; opened := false |}.
Definition openTransactionWAL (path : string) : transactionWAL :=
  {| tw_path := path; tw_opened := false |}.

(** [os.OpenFile] with [O_CREATE|O_WRONLY|O_APPEND]. *)
Definition open_append (files : disk) (path : string) : disk :=
  match files !! path with Some _ => files | None => <[path := []]> files end.

(** [f.Write(frame)] then [f.Sync()] on a file opened for appending. *)
Definition write_sync (env : append_env) (files : disk) (path : string) (frame : list byte) :
    disk * outcome unit :=
  let contents := default [] (files !! path) in
  match write_error env with
  | Some e => (<[path := contents ++ ztake (written env) frame]> files, Fail e)
  | None =>
      (<[path := contents ++ frame]> files,
       match sync_error env with Some e => Fail e | None => Ok tt end)
  end.

Definition appendFrame (w : wal) (env : append_env) (files : disk) (rec : walFrame) :
    wal * disk * outcome unit :=
  let append w files :=
    match encodeWALFrame rec with
    | Ok frame => let '(files, r) := write_sync env files (wal_path w) frame in (w, files, r)
    | Fail e => (w, files, Fail e)
    | Panic => (w, files, Panic)
    end in
  if opened w then append w files
  else match open_error env with
       | Some e => (w, files, Fail e)
       | None => append {| wal_path := wal_path w; opened := true |} (open_append files (wal_path w))
       end.

Definition appendTransactionFrame (w : transactionWAL) (env : append_env) (files : disk)
    (rec : transactionWALFrame) : transactionWAL * disk * outcome unit :=
  let append w files :=
    match encodeTransactionWALFrame rec with
    | Ok frame => let '(files, r) := write_sync env files (tw_path w) frame in (w, files, r)
    | Fail e => (w, files, Fail e)
    | Panic => (w, files, Panic)
    end in
  if tw_opened w then append w files
  else match mkdir_error env with
       | Some e => (w, files, Fail e)
       | None =>
           match open_error env with
           | Some e => (w, files, Fail e)
           | None => append {| tw_path := tw_path w; tw_opened := true |} (open_append files (tw_path w))
           end
       end.

(** ** Truncating and closing *)

(** [os.Remove]; a file that does not exist is no error for the callers. *)
Definition remove_file (env : truncate_env) (files : disk) (path : string) : disk * outcome unit :=
  match files !! path with
  | None => (files, Ok tt)
  | Some _ =>
      match remove_error env with Some e => (files, Fail e) | None => (delete path files, Ok tt) end
  end.

Definition truncate (w : wal) (env : truncate_env) (files : disk) : wal * disk * outcome unit :=
  let w' := {| wal_path := wal_path w; opened := false |} in
  match (if opened w then close_error env else None) with
  | Some e => (w', files, Fail e)
  | None => let '(files, r) := remove_file env files (wal_path w) in (w', files, r)
  end.

Definition truncateTransaction (w : transactionWAL) (env : truncate_env) (files : disk) :
    transactionWAL * disk * outcome unit :=
  let w' := {| tw_path := tw_path w; tw_opened := false |} in
  match (if tw_opened w then close_error env else None) with
  | Some e => (w', files, Fail e)
  | None => let '(files, r) := remove_file env files (tw_path w) in (w', files, r)
  end.

Definition close (w : transactionWAL) (env : truncate_env) : transactionWAL * outcome unit :=
  if negb (tw_opened w) then (w, Ok tt) else
  ({| tw_path := tw_path w; tw_opened := false |},
   match close_error env with Some e => Fail e | None => Ok tt end).

(** ** The process-wide transaction log

    [path] is [filepath.Join(DataDir, "transactions.wal")]. The replaced log
    is returned closed, although the code drops it. *)
Definition transactionWALName : string := "transactions.wal".
Record registry := { reg_path : string; reg_log : option transactionWAL }.

Definition sharedTransactionWAL (path : string) (env : truncate_env) (reg : registry) :
    registry * option transactionWAL :=
  match reg_log reg with
  | Some log =>
      if decide (reg_path reg = path) then (reg, None)
      else ({| reg_path := path; reg_log := Some (openTransactionWAL path) |}, Some (close log env).1)
  | None => ({| reg_path := path; reg_log := Some (openTransactionWAL path) |}, None)
  end.

Definition resetSharedTransactionWAL (env : truncate_env) (reg : registry) :
    registry * option transactionWAL :=
  ({| reg_path := ""; reg_log := None |}, (fun log => (close log env).1) <$> reg_log reg).

(** ** Replay *)

(** [os.Open] followed by reading: [ReadUpTo bytes] is what can be read
    before the end of the file or a read error, which the loops treat alike. *)
Inductive opened_file :=
  | NotExist
  | OpenFailed (e : gerror)
  | ReadUpTo (contents : list byte).

(** The read loop of both logs: a short header, a short body or an undecodable
    frame breaks out of it, an error of [visit] returns from it. *)
Fixpoint replay_loop {R} (decodeFrame : list byte -> outcome (list R * bool))
    (visit : list recoveredRow -> R -> outcome (list recoveredRow))
    (fuel : nat) (out : list recoveredRow) (f : list byte) : outcome (list recoveredRow) :=
  match fuel with
  | O => Panic
  | S fuel =>
      when (zlen f <? 4)%Z => Ok out ;;
      n ← Uint 4 f;
      let f := zdrop 4 f in
      when (zlen f <? n)%Z => Ok out ;;
      r ← decodeFrame (ztake n f);
      when negb r.2 => Ok out ;;
      out ← fold_outcome visit out r.1;
      replay_loop decodeFrame visit fuel out (zdrop n f)
  end.

(** Every round consumes its header, so the length of the file is fuel enough
    (see [replay_loop_unfold]). *)
Definition replay_file {R} decodeFrame visit (f : opened_file) : outcome (list recoveredRow) :=
  match f with
  | NotExist => Ok []
  | OpenFailed e => Fail e
  | ReadUpTo contents =>
      @replay_loop R decodeFrame visit (S (length contents)) [] contents
  end.

Section replay.
Context (gob_decode : gotype -> list byte -> outcome goval).

(** The body of the inner loop of [replayWAL]. *)
Definition recoverRow (rowType : gotype) (out : list recoveredRow) (p : walRow) :
    outcome (list recoveredRow) :=
  when (Id p <? 0)%Z && (zlen (Row p) =? 0)%Z =>
    Ok (out ++ [{| rec_id := to_sint 64 (- Id p); rec_row := None; deleted := true |}]) ;;
  when (Id p <=? 0)%Z => Fail (ErrText "nestory: malformed WAL row id") ;;
  rv ← decodeRow gob_decode (Row p) rowType;
  Ok (out ++ [{| rec_id := Id p; rec_row := Some rv; deleted := false |}]).

Definition replayWAL (rowType : gotype) (f : opened_file) : outcome (list recoveredRow) :=
  replay_file decodeWALFrame (recoverRow rowType) f.

(** The body of the inner loop of [replayTransactionWAL]. *)
Definition recoverTransactionRow (typeName : string) (rowType : gotype) (out : list recoveredRow)
    (row : transactionWALRow) : outcome (list recoveredRow) :=
  when negb (bool_decide (Type_ row = typeName)) => Ok out ;;
  when (Id (row_ row) <? 0)%Z && (zlen (Row (row_ row)) =? 0)%Z =>
    Ok (out ++ [{| rec_id := to_sint 64 (- Id (row_ row)); rec_row := None; deleted := true |}]) ;;
  when (Id (row_ row) <=? 0)%Z => Fail (ErrText "nestory: malformed transaction WAL row id") ;;
  value ← decodeRow gob_decode (Row (row_ row)) rowType;
  Ok (out ++ [{| rec_id := Id (row_ row); rec_row := Some value; deleted := false |}]).

Definition replayTransactionWAL (typeName : string) (rowType : gotype) (f : opened_file) :
    outcome (list recoveredRow) :=
  replay_file decodeTransactionWALFrame (recoverTransactionRow typeName rowType) f.
End replay.

(** ** Specification *)

(** The frames of a log that lie wholly within its first [len] bytes. *)
Fixpoint complete_frames `{RowFormat R} (frames : list (list R)) (len : Z) : list (list R) :=
  match frames with
  | [] => []
  | rows :: rest =>
      if (zlen (frame_bytes rows) <=? len)%Z
      then rows :: complete_frames rest (len - zlen (frame_bytes rows)) else []
  end.

Definition log_bytes `{RowFormat R} (frames : list (list R)) : list byte :=
  concat (frame_bytes <$> frames).

(** Whether the whole frame of an append reached the file. *)
Definition fully_written (w : wal) (env : append_env) (rec : walFrame) : bool :=
  (opened w || bool_decide (open_error env = None)) && is_ok (encodeWALFrame rec) &&
  (bool_decide (write_error env = None) || (zlen (frame_bytes (Rows rec)) <=? written env)%Z).

(** A run of appends that all reported success. *)
Fixpoint acknowledged (w : wal) (files : disk) (recs : list (walFrame * append_env)) : option (wal * disk) :=
  match recs with
  | [] => Some (w, files)
  | (rec, env) :: rest =>
      let '(w', files', r) := appendFrame w env files rec in
      if is_ok r then acknowledged w' files' rest else None
  end.

(** Environments and rows of the examples. *)
Definition env_ok : append_env :=
  {| mkdir_error := None; open_error := None; write_error := None; written := 0; sync_error := None |}.
Definition env_torn : append_env :=
  {| mkdir_error := None; open_error := None; write_error := Some (ErrText "no space left on device");
     written := 6; sync_error := None |}.
Definition tombstone (id : Z) : walFrame := {| Rows := [{| Id := - id; Row := [] |}] |}.

(** * Lemmas *)

Section replay_lemmas.
Context `{RowFormat R} (visit : list recoveredRow -> R -> outcome (list recoveredRow)).
Implicit Types (rows : list R) (f : list byte).

Lemma zdrop_length f n : (0 <= n <= zlen f)%Z -> zlen (zdrop n f) = (zlen f - n)%Z.
Proof. intros. unfold zdrop, zlen in *. rewrite length_drop. lia. Qed.

(** Any fuel beyond the length of the file gives the same result. *)
Lemma replay_loop_fuel decode fuel fuel' out f :
  length f < fuel -> length f < fuel' ->
  replay_loop decode visit fuel out f = replay_loop decode visit fuel' out f.
Proof.
  revert fuel' out f. induction fuel as [|fuel IH]; intros fuel' out f Hf Hf'; [lia|].
  destruct fuel' as [|fuel']; [lia|]. cbn [replay_loop].
  destruct (Z.ltb_spec (zlen f) 4); [done|].
  destruct (Uint 4 f) as [n| |] eqn:Hn; cbn [mbind outcome_bind]; [|done..].
  apply Uint_inv in Hn as (_ & _ & Hn). unfold uint_range in Hn.
  destruct (Z.ltb_spec (zlen (zdrop 4 f)) n); [done|].
  destruct (decode _) as [[rows valid]| |]; cbn [mbind outcome_bind fst snd]; [|done..].
  destruct (negb valid); [done|].
  destruct (fold_outcome visit out rows) as [out'| |]; cbn [mbind outcome_bind]; [|done..].
  assert (length (zdrop n (zdrop 4 f)) < length f) as Hlt.
  { pose proof (zdrop_length f 4). pose proof (zdrop_length (zdrop 4 f) n). unfold zlen in *. lia. }
  apply IH; lia.
Qed.

Lemma replay_loop_frame rows rest fuel out :
  frame_ok rows ->
  replay_loop decode_shape visit (S fuel) out (frame_bytes rows ++ rest) =
  (out' ← fold_outcome visit out rows; replay_loop decode_shape visit fuel out' rest).
Proof.
  intros Hok. cbn [replay_loop]. unfold frame_bytes. rewrite <- app_assoc.
  pose proof (zlen_nonneg (frame_body rows)). pose proof (zlen_nonneg rest).
  rewrite !zlen_app, zlen_be_put.
  destruct (Z.ltb_spec (Z.of_nat 4 + (zlen (frame_body rows) + zlen rest)) 4); [lia|].
  rewrite Uint_put by (destruct Hok; unfold uint_range, maxUint32 in *; lia). cbn [mbind outcome_bind].
  change 4%Z with (zlen (be_put 4 (zlen (frame_body rows)))) at 1 2 3.
  rewrite zdrop_app, zlen_app. destruct (Z.ltb_spec (zlen (frame_body rows) + zlen rest) (zlen (frame_body rows))); [lia|].
  rewrite ztake_app, decode_shape_frame by done. cbn [mbind outcome_bind fst snd negb].
  by rewrite zdrop_app.
Qed.

(** A log cut inside a frame ends at the previous frame. *)
Lemma replay_loop_torn rows len fuel out :
  frame_ok rows -> (0 <= len < zlen (frame_bytes rows))%Z ->
  replay_loop decode_shape visit (S fuel) out (ztake len (frame_bytes rows)) = Ok out.
Proof.
  intros Hok Hlen. rewrite zlen_frame_bytes in Hlen. cbn [replay_loop].
  assert (zlen (ztake len (frame_bytes rows)) = len) as Hl.
  { pose proof (zlen_frame_bytes rows). unfold ztake, zlen in *. rewrite length_take. lia. }
  rewrite Hl. destruct (Z.ltb_spec len 4); [done|].
  assert (ztake len (frame_bytes rows) =
          be_put 4 (zlen (frame_body rows)) ++ ztake (len - 4) (frame_body rows)) as E.
  { unfold frame_bytes, ztake. rewrite take_app.
    pose proof (zlen_be_put 4 (zlen (frame_body rows))) as L. unfold zlen in L at 1.
    rewrite take_ge by lia. f_equal. f_equal. lia. }
  rewrite E, Uint_put by (destruct Hok; unfold uint_range, maxUint32 in *; lia). cbn [mbind outcome_bind].
  change 4%Z with (zlen (be_put 4 (zlen (frame_body rows)))) at 1. rewrite zdrop_app.
  assert (zlen (ztake (len - 4) (frame_body rows)) = len - 4)%Z as Hl2.
  { unfold ztake, zlen in *. rewrite length_take. lia. }
  rewrite Hl2. by destruct (Z.ltb_spec (len - 4) (zlen (frame_body rows))); [|lia].
Qed.

Lemma ztake_app_ge {A} (a b : list A) n :
  (zlen a <= n)%Z -> ztake n (a ++ b) = a ++ ztake (n - zlen a) b.
Proof.
  intros. unfold ztake, zlen in *. rewrite take_app, take_ge by lia. f_equal. f_equal. lia.
Qed.
Lemma ztake_app_le {A} (a b : list A) n : (n <= zlen a)%Z -> ztake n (a ++ b) = ztake n a.
Proof. intros. unfold ztake, zlen in *. rewrite take_app_le by lia. done. Qed.

Lemma replay_loop_crash frames len fuel out :
  Forall frame_ok frames -> (0 <= len)%Z -> length (ztake len (log_bytes frames)) < fuel ->
  replay_loop decode_shape visit fuel out (ztake len (log_bytes frames)) =
  fold_outcome visit out (concat (complete_frames frames len)).
Proof.
  intros Hok. revert len fuel out. induction Hok as [|rows frames Hr Hok IH]; intros len fuel out Hlen Hfuel.
  - destruct fuel as [|fuel]; [lia|]. cbn. unfold ztake. by rewrite take_nil.
  - destruct fuel as [|fuel]; [lia|]. unfold log_bytes in *. cbn [complete_frames].
    rewrite fmap_cons, concat_cons in *. destruct (Z.leb_spec (zlen (frame_bytes rows)) len).
    + rewrite ztake_app_ge in * by done. rewrite replay_loop_frame by done.
      rewrite concat_cons, fold_outcome_app.
      destruct (fold_outcome visit out rows); cbn [mbind outcome_bind]; [|done..].
      apply IH; [lia|]. rewrite length_app in Hfuel.
      pose proof (zlen_frame_bytes rows). pose proof (zlen_nonneg (frame_body rows)). unfold zlen in *. lia.
    + rewrite ztake_app_le by lia. apply replay_loop_torn; [done|lia].
Qed.

Lemma complete_frames_app frames rows len :
  (0 <= len)%Z ->
  complete_frames (frames ++ [rows]) (zlen (log_bytes frames) + len) =
  frames ++ complete_frames [rows] len.
Proof.
  intros Hlen. induction frames as [|r frames IH]; [done|].
  unfold log_bytes in *. cbn [app]. rewrite fmap_cons, concat_cons, zlen_app.
  cbn [complete_frames] in *. pose proof (zlen_nonneg (concat (frame_bytes <$> frames))).
  destruct (Z.leb_spec (zlen (frame_bytes r)) (zlen (frame_bytes r) + zlen (concat (frame_bytes <$> frames)) + len)); [|lia].
  f_equal. rewrite <- IH. f_equal. lia.
Qed.

Lemma log_bytes_snoc (frames : list (list R)) rows :
  log_bytes (frames ++ [rows]) = log_bytes frames ++ frame_bytes rows.
Proof. unfold log_bytes. rewrite fmap_app, concat_app. cbn. by rewrite app_nil_r. Qed.
End replay_lemmas.

Lemma replay_loop_total {R} `{RowFormat R} (P : recoveredRow -> Prop) visit fuel out f :
  (forall out r, Forall P out -> match visit out r with
     Ok out' => Forall P out' | Fail _ => True | Panic => False end) ->
  Forall P out -> length f < fuel ->
  match replay_loop decode_shape visit fuel out f with
  | Ok out' => Forall P out' | Fail _ => True | Panic => False
  end.
Proof.
  intros Hv. revert out f. induction fuel as [|fuel IH]; intros out f Hout Hf; [lia|]. cbn [replay_loop].
  destruct (Z.ltb_spec (zlen f) 4); [done|].
  destruct (Uint_ok 4 f) as [n Hn]; [lia|]. rewrite Hn. cbn [mbind outcome_bind].
  apply Uint_inv in Hn as (_ & _ & Hn). unfold uint_range in Hn.
  destruct (Z.ltb_spec (zlen (zdrop 4 f)) n); [done|].
  assert (length (zdrop n (zdrop 4 f)) < fuel) as Hlt.
  { pose proof (zdrop_length f 4). pose proof (zdrop_length (zdrop 4 f) n). unfold zlen in *. lia. }
  destruct (decode_shape_total (ztake n (zdrop 4 f))) as (rows & valid & ->). cbn [mbind outcome_bind fst snd].
  destruct (negb valid); [done|].
  assert (match fold_outcome visit out rows with
          | Ok out' => Forall P out' | Fail _ => True | Panic => False end) as Hfold.
  { revert out Hout. induction rows as [|r rows IHr]; intros out Hout; cbn; [done|].
    specialize (Hv out r Hout). destruct (visit out r); cbn; [by apply IHr|done|done]. }
  destruct (fold_outcome visit out rows); cbn [mbind outcome_bind]; [by apply IH|done|done].
Qed.

(** One append, as the file sees it: the frame or a part of it follows the
    old contents. *)
Lemma appendFrame_file w env files rec :
  (zlen (frame_body (Rows rec)) < 2 ^ 64)%Z -> (0 <= written env)%Z ->
  let '(w', files', r) := appendFrame w env files rec in
  wal_path w' = wal_path w /\
  (forall p, p <> wal_path w -> files' !! p = files !! p) /\
  exists len, (0 <= len)%Z /\
    default [] (files' !! wal_path w) =
      default [] (files !! wal_path w) ++ ztake len (frame_bytes (Rows rec)) /\
    (fully_written w env rec = (zlen (frame_bytes (Rows rec)) <=? len)%Z) /\
    (r = Ok tt -> fully_written w env rec = true /\ is_ok (encodeWALFrame rec) = true /\ opened w' = true).
Proof.
  intros Hsz Hwr. unfold appendFrame, fully_written.
  pose proof (encodeWALFrame_ok rec Hsz) as Henc.
  pose proof (zlen_nonneg (frame_body (Rows rec))). pose proof (zlen_frame_bytes (Rows rec)) as Hfb.
  assert (forall (x : list byte), ztake (zlen x) x = x) as Hall.
  { intros x. rewrite <- (app_nil_r x) at 2. apply ztake_app. }
  assert (forall w' files1, wal_path w' = wal_path w -> opened w' = true ->
    (forall p, p <> wal_path w -> files1 !! p = files !! p) ->
    default [] (files1 !! wal_path w) = default [] (files !! wal_path w) ->
    let '(w'', files', r) := match encodeWALFrame rec with
    | Ok frame => let '(files2, r) := write_sync env files1 (wal_path w') frame in (w', files2, r)
    | Fail e => (w', files1, Fail e)
    | Panic => (w', files1, Panic)
    end in
    wal_path w'' = wal_path w /\ (forall p, p <> wal_path w -> files' !! p = files !! p) /\
    exists len, (0 <= len)%Z /\
    default [] (files' !! wal_path w) = default [] (files !! wal_path w) ++ ztake len (frame_bytes (Rows rec)) /\
    (is_ok (encodeWALFrame rec) && (bool_decide (write_error env = None) || (zlen (frame_bytes (Rows rec)) <=? written env)%Z) =
       (zlen (frame_bytes (Rows rec)) <=? len)%Z) /\
    (r = Ok tt -> is_ok (encodeWALFrame rec) && (bool_decide (write_error env = None) || (zlen (frame_bytes (Rows rec)) <=? written env)%Z) = true /\
       is_ok (encodeWALFrame rec) = true /\ opened w'' = true)) as Happ.
  { intros w' files1 Hp Ho Hfr Hfile. rewrite Henc.
    destruct (zlen (frame_body (Rows rec)) <=? maxUint32)%Z; cbn [is_ok andb].
    - unfold write_sync. rewrite Hp. destruct (write_error env) as [e|] eqn:We.
      + split_and!; [done|intros p Hne; rewrite lookup_insert_ne by done; by apply Hfr|].
        exists (written env). rewrite lookup_insert_eq. cbn [default].
        split_and!; [done|by rewrite <- Hfile|by rewrite bool_decide_false by done|done].
      + split_and!; [done|intros p Hne; rewrite lookup_insert_ne by done; by apply Hfr|].
        exists (zlen (frame_bytes (Rows rec))). rewrite lookup_insert_eq. cbn [default].
        rewrite bool_decide_true by done. cbn [orb].
        split_and!; [lia|by rewrite <- Hfile, Hall|by rewrite Z.leb_refl|by intros _].
    - split_and!; [done..|]. exists 0%Z. unfold ztake. cbn. rewrite app_nil_r.
      split_and!; [done|done| |done]. symmetry. apply Z.leb_gt. lia. }
  destruct (opened w) eqn:Ho; cbn [orb].
  - by apply Happ.
  - destruct (open_error env) as [e|] eqn:Oe.
    + rewrite bool_decide_false by done. cbn [andb]. split_and!; [done..|].
      exists 0%Z. unfold ztake. cbn. rewrite app_nil_r.
      split_and!; [done|done| |done]. symmetry. apply Z.leb_gt. lia.
    + rewrite bool_decide_true by done. cbn [andb]. apply Happ; [done..| |].
      * intros p Hne. unfold open_append. destruct (files !! wal_path w); [done|]. by rewrite lookup_insert_ne.
      * unfold open_append. destruct (files !! wal_path w) eqn:E; rewrite ?lookup_insert_eq, ?E; done.
Qed.

Lemma complete_frames_one (rec : walFrame) len :
  complete_frames [Rows rec] len =
  if (zlen (frame_bytes (Rows rec)) <=? len)%Z then [Rows rec] else [].
Proof. cbn [complete_frames]. by destruct (_ <=? _)%Z. Qed.

(** Replay after an append that may have torn. *)
Lemma replay_appended gob_decode rowType (frames : list (list walRow)) rows len : Forall frame_ok (frames ++ [rows]) -> (0 <= len)%Z ->
  replayWAL gob_decode rowType (ReadUpTo (log_bytes frames ++ ztake len (frame_bytes rows))) =
  fold_outcome (recoverRow gob_decode rowType) [] (concat frames ++ if (zlen (frame_bytes rows) <=? len)%Z then rows else []).
Proof.
  intros Hoks Hlen.
  assert (log_bytes frames ++ ztake len (frame_bytes rows) =
          ztake (zlen (log_bytes frames) + len) (log_bytes (frames ++ [rows]))) as ->.
  { rewrite log_bytes_snoc, ztake_app_ge by lia. f_equal. f_equal. lia. }
  pose proof (zlen_nonneg (log_bytes frames)).
  assert (0 <= zlen (log_bytes frames) + len)%Z as Hcut by lia.
  etransitivity; [exact (replay_loop_crash (recoverRow gob_decode rowType) _ _ _ [] Hoks Hcut
    (Nat.lt_succ_diag_r _))|].
  rewrite complete_frames_app, concat_app by done. cbn [complete_frames]. destruct (_ <=? _)%Z; cbn; by rewrite ?app_nil_r.
Qed.

(** A run of acknowledged appends leaves exactly their frames in the file. *)
Lemma acknowledged_log w files recs w' files' :
  Forall (fun p => (zlen (frame_body (Rows p.1)) < 2 ^ 64)%Z /\ (0 <= written p.2)%Z) recs ->
  acknowledged w files recs = Some (w', files') ->
  wal_path w' = wal_path w /\
  default [] (files' !! wal_path w) =
    default [] (files !! wal_path w) ++ log_bytes (Rows <$> recs.*1) /\
  Forall (fun p => (zlen (frame_body (Rows p.1)) <= maxUint32)%Z) recs.
Proof.
  intros Hall. revert w files. induction Hall as [|[rec env] recs [Hsz Hwr] Hall IH]; intros w files E.
  - injection E as <- <-. by rewrite app_nil_r.
  - cbn [acknowledged] in E. pose proof (appendFrame_file w env files rec Hsz Hwr) as Hf.
    destruct (appendFrame w env files rec) as [[w1 files1] r]. destruct Hf as (Hp & _ & len & Hlen & Hfile & Hfull & Hr).
    destruct r as [[]| |]; [|discriminate E..]. cbn [is_ok] in E.
    destruct (Hr eq_refl) as (Hw & Henc & _). apply IH in E as (Hp' & Hfile' & Hle).
    rewrite Hw in Hfull. symmetry in Hfull. apply Z.leb_le in Hfull.
    rewrite Hp in Hp', Hfile'. split_and!; [done| |].
    + rewrite Hfile', Hfile. unfold log_bytes. cbn. rewrite <- app_assoc. do 2 f_equal.
      rewrite <- (app_nil_r (frame_bytes (Rows rec))) at 1. rewrite ztake_app_ge by done.
      unfold ztake. by rewrite take_nil, app_nil_r.
    + constructor; [|done]. rewrite encodeWALFrame_ok in Henc by done. cbn in Hsz |- *.
      by destruct (Z.leb_spec (zlen (frame_body (Rows rec))) maxUint32).
Qed.

Lemma fold_skip {A B} (f : B -> A -> outcome B) (keep : A -> bool) l acc :
  (forall acc a, keep a = false -> f acc a = Ok acc) ->
  fold_outcome f acc l = fold_outcome f acc (List.filter keep l).
Proof.
  intros Hf. revert acc. induction l as [|a l IH]; intros acc; [done|]. cbn.
  destruct (keep a) eqn:E; cbn; [|rewrite Hf by done; apply IH].
  destruct (f acc a); cbn; auto.
Qed.

(** * Properties *)

(** C13: crash atomicity of the per-type log. Cut a log anywhere, inside a
    header or a body: replay returns the rows of the frames that are wholly in
    the file, in order, and nothing of the frame the cut tore. *)
Theorem replayWAL_crash_atomic gob_decode rowType (frames : list (list walRow)) len :
  Forall frame_ok frames -> (0 <= len)%Z ->
  replayWAL gob_decode rowType (ReadUpTo (ztake len (log_bytes frames))) =
  fold_outcome (recoverRow gob_decode rowType) [] (concat (complete_frames frames len)).
Proof.
  intros Hok Hlen. exact (replay_loop_crash (recoverRow gob_decode rowType) frames len
    (S (length (ztake len (log_bytes frames)))) [] Hok Hlen ltac:(lia)).
Qed.

Lemma replayWAL_crash_atomic_witness :
  replayWAL (fun _ _ => Panic) (TStruct "User" [])
    (ReadUpTo (ztake 38 (log_bytes [Rows (tombstone 3); Rows (tombstone 4)]))) =
  Ok [{| rec_id := 3; rec_row := None; deleted := true |}].
Proof.
  assert (Forall frame_ok [Rows (tombstone 3); Rows (tombstone 4)]) as Hok
    by (repeat constructor; vm_compute; congruence).
  rewrite (replayWAL_crash_atomic _ _ _ 38 Hok) by lia. vm_compute. reflexivity.
Defined.

(** C34: the transaction log has the same crash atomicity for every type at
    once: of the transactions wholly in the file each type recovers exactly
    its own rows, in commit order, and of a torn transaction no type recovers
    anything. *)
Theorem replayTransactionWAL_crash_atomic gob_decode typeName rowType
    (frames : list (list transactionWALRow)) len :
  Forall frame_ok frames -> (0 <= len)%Z ->
  replayTransactionWAL gob_decode typeName rowType (ReadUpTo (ztake len (log_bytes frames))) =
  fold_outcome (recoverTransactionRow gob_decode typeName rowType) []
    (List.filter (fun row => bool_decide (Type_ row = typeName)) (concat (complete_frames frames len))).
Proof.
  intros Hok Hlen. rewrite <- fold_skip.
  - exact (replay_loop_crash (recoverTransactionRow gob_decode typeName rowType) frames len
      (S (length (ztake len (log_bytes frames)))) [] Hok Hlen ltac:(lia)).
  - intros out row E. unfold recoverTransactionRow. by rewrite E.
Qed.

Definition sample_transaction : list transactionWALRow :=
  [{| Type_ := "User"; row_ := {| Id := -3; Row := [] |} |};
   {| Type_ := "Profile"; row_ := {| Id := -9; Row := [] |} |}].

Lemma replayTransactionWAL_crash_atomic_witness :
  replayTransactionWAL (fun _ _ => Panic) "Profile" (TStruct "Profile" [])
    (ReadUpTo (ztake 60 (log_bytes [sample_transaction; sample_transaction]))) =
  Ok [{| rec_id := 9; rec_row := None; deleted := true |}].
Proof.
  assert (Forall frame_ok [sample_transaction; sample_transaction]) as Hok
    by (repeat constructor; vm_compute; congruence).
  rewrite (replayTransactionWAL_crash_atomic _ _ _ _ 60 Hok) by lia. vm_compute. reflexivity.
Defined.

(** C6: durability of acknowledged appends. Start from an empty log, let any
    number of appends report success, then let one more append meet any
    failure of the operating system, at any byte of its frame. Replay then
    returns the rows of every acknowledged append, in order, followed by the
    rows of the last one exactly when its whole frame reached the file (as it
    has whenever that append reported success). *)
Theorem acknowledged_appends_survive gob_decode rowType w files recs w1 files1 rec env :
  Forall (fun p => frame_ok (Rows p.1) /\ (0 <= written p.2)%Z) recs ->
  frame_ok (Rows rec) -> (0 <= written env)%Z ->
  files !! wal_path w = None ->
  acknowledged w files recs = Some (w1, files1) ->
  let '(w2, files2, r) := appendFrame w1 env files1 rec in
  replayWAL gob_decode rowType (ReadUpTo (default [] (files2 !! wal_path w))) =
    fold_outcome (recoverRow gob_decode rowType) []
      (concat (Rows <$> recs.*1) ++ if fully_written w1 env rec then Rows rec else []) /\
  (r = Ok tt -> fully_written w1 env rec = true).
Proof.
  intros Hall Hok Hwr Hnone Hack.
  assert (forall rows : list walRow, frame_ok rows -> (zlen (frame_body rows) < 2 ^ 64)%Z) as Hsmall.
  { intros rows [_ Hle]. unfold maxUint32 in Hle. lia. }
  apply acknowledged_log in Hack as (Hp & Hfile & _); [|eapply Forall_impl; [exact Hall|]; naive_solver].
  rewrite Hnone in Hfile. cbn [default app] in Hfile.
  pose proof (appendFrame_file w1 env files1 rec (Hsmall _ Hok) Hwr) as Hf.
  destruct (appendFrame w1 env files1 rec) as [[w2 files2] r].
  destruct Hf as (_ & _ & len & Hlen & Hfile2 & Hfull & Hr). rewrite Hp, Hfile in Hfile2.
  split; [|by intros ->; destruct Hr].
  rewrite Hfile2. set (frames := Rows <$> recs.*1).
  assert (Forall frame_ok (frames ++ [Rows rec])) as Hoks.
  { apply Forall_app. split; [|by constructor]. unfold frames. rewrite <- list_fmap_compose.
    apply Forall_fmap. eapply Forall_impl; [exact Hall|]. naive_solver. }
  rewrite Hfull. by apply replay_appended.
Qed.

Definition acknowledged_sample : wal * disk :=
  ({| wal_path := "User.wal"; opened := true |},
   {[ "User.wal"%string := log_bytes [Rows (tombstone 3); Rows (tombstone 4)] ]}).

Lemma acknowledged_appends_survive_witness :
  acknowledged (openWAL "User.wal") ∅ [(tombstone 3, env_ok); (tombstone 4, env_ok)] = Some acknowledged_sample /\
  let '(w2, files2, r) := appendFrame acknowledged_sample.1 env_torn acknowledged_sample.2 (tombstone 5) in
  replayWAL (fun _ _ => Panic) (TStruct "User" []) (ReadUpTo (default [] (files2 !! "User.wal"%string))) =
    fold_outcome (recoverRow (fun _ _ => Panic) (TStruct "User" [])) []
      (concat [Rows (tombstone 3); Rows (tombstone 4)] ++
       if fully_written acknowledged_sample.1 env_torn (tombstone 5) then Rows (tombstone 5) else []) /\
  (r = Ok tt -> fully_written acknowledged_sample.1 env_torn (tombstone 5) = true).
Proof.
  assert (forall id, (-1 < id < 9)%Z -> frame_ok (Rows (tombstone id))) as Hok.
  { intros id Hid. split; [|vm_compute; congruence].
    constructor; [|constructor]. split; [unfold sint_range; cbn [Id]; lia|done]. }
  assert (Forall (fun p => frame_ok (Rows p.1) /\ (0 <= written p.2)%Z)
            [(tombstone 3, env_ok); (tombstone 4, env_ok)]) as Hall
    by (constructor; [split; [apply Hok; lia|done]|];
        constructor; [split; [apply Hok; lia|done]|constructor]).
  assert (acknowledged (openWAL "User.wal") ∅ [(tombstone 3, env_ok); (tombstone 4, env_ok)] =
          Some acknowledged_sample) as Hack by (vm_compute; reflexivity).
  split; [exact Hack|].
  exact (acknowledged_appends_survive (fun _ _ => Panic) (TStruct "User" []) (openWAL "User.wal") ∅ _
    acknowledged_sample.1 acknowledged_sample.2 (tombstone 5) env_torn Hall
    (Hok 5%Z ltac:(lia)) ltac:(done) eq_refl Hack).
Defined.

(** C37: replay is total for row types the decoder can set: every struct in
    the row type has exported fields only, every slice of bytes is a slice of
    [byte] itself, and gob does not panic. Then on arbitrary file contents the
    loop ends within its fuel (out of fuel the model panics, and more fuel
    changes nothing) and returns rows or an error; every row it returns that is
    not a tombstone has a positive id and a decoded value. *)
Theorem replayWAL_total gob_decode rowType contents fuel :
  (forall data, gob_decode rowType data <> Panic) -> settable rowType = true ->
  length contents < fuel ->
  replay_loop decodeWALFrame (recoverRow gob_decode rowType) fuel [] contents =
    replayWAL gob_decode rowType (ReadUpTo contents) /\
  match replayWAL gob_decode rowType (ReadUpTo contents) with
  | Ok rows => Forall (fun r => deleted r = false -> (0 < rec_id r)%Z /\ rec_row r <> None) rows
  | Fail _ => True
  | Panic => False
  end.
Proof.
  intros Hgob Hexp Hfuel. split; [apply (replay_loop_fuel (R := walRow)); lia|].
  unfold replayWAL, replay_file. change decodeWALFrame with (decode_shape (R := walRow)).
  apply (replay_loop_total (R := walRow)
    (fun r => deleted r = false -> (0 < rec_id r)%Z /\ rec_row r <> None)
    (recoverRow gob_decode rowType) (S (length contents)) [] contents); [|by constructor|lia].
  intros out r Hout. unfold recoverRow.
  destruct (_ && _); [apply Forall_app; split; [done|]; by constructor|].
  destruct (Z.leb_spec (Id r) 0); [done|].
  pose proof (decodeRow_total gob_decode (Row r) rowType Hgob Hexp) as Hd.
  destruct (decodeRow gob_decode (Row r) rowType); cbn; [|done|done].
  apply Forall_app; split; [done|]. by repeat constructor.
Qed.

Lemma replayWAL_total_witness :
  match replayWAL (fun _ _ => Fail (ErrText "gob")) sample_type (ReadUpTo (replicate 100 Byte.x01)) with
  | Ok rows => Forall (fun r => deleted r = false -> (0 < rec_id r)%Z /\ rec_row r <> None) rows
  | Fail _ => True | Panic => False end.
Proof.
  apply (replayWAL_total (fun _ _ => Fail (ErrText "gob")) sample_type (replicate 100 Byte.x01) 101);
    [done|reflexivity|cbn; lia].
Defined.

(** C33 (a defect of the log): a failed [Write] leaves its torn frame in the
    middle of the file, the log stays open, and an append that is then
    acknowledged is lost by the next replay. *)
Theorem torn_append_loses_acknowledged_frame :
  let '(w1, files1, r1) := appendFrame (openWAL "User.wal") env_torn ∅ (tombstone 3) in
  let '(w2, files2, r2) := appendFrame w1 env_ok files1 (tombstone 4) in
  r1 = Fail (ErrText "no space left on device") /\ r2 = Ok tt /\
  replayWAL (fun _ _ => Panic) (TStruct "User" []) (ReadUpTo (default [] (files2 !! "User.wal"%string))) = Ok [].
Proof. vm_compute. auto. Qed.
