(* ===== verification/ChunkStore.v ===== *)
(** * The chunk store (src/chunkstore.go)

    Entities live in cells of the heap that slots of fixed-capacity blocks
    point to; a delete is a tombstone. The store is generic in the entity
    type [T], as in the code. A slot is addressed by its block and offset,
    which is what a Go pointer [&last.data[i]] to it denotes. *)
From S2P Require Import Prelude GoReflect.

Definition chunkLimit : nat := 512.

(** ** Data *)

Record resourceSlot := { item : loc; version : Z; chunk : Z }.

(** [chunkBlock]: the first [n] elements of its array; [Len()] is the length. *)
Notation chunkBlock A := (list A) (only parsing).

Record chunkStore := {
  chunks : list (chunkBlock resourceSlot);
  tomb : list (chunkBlock bool);
  n_slots : Z;
  dead : Z;
  dirty : list bool;
}.

Definition slotRef : Type := nat * nat.

Definition newChunkStore : chunkStore := {| chunks := []; tomb := []; n_slots := 0; dead := 0; dirty := [] |}.

(** [Push], which reports whether the block had room. *)
Definition Push {A} (arr : chunkBlock A) (v : A) : chunkBlock A * bool :=
  if (chunkLimit <=? length arr)%nat then (arr, false) else (arr ++ [v], true).

(** ** Dirty marks *)

Definition set_dirty (d : list bool) (ci : Z) (v : bool) : list bool :=
  if (0 <=? ci)%Z && (ci <? zlen d)%Z then <[Z.to_nat ci := v]> d else d.

Definition with_dirty (s : chunkStore) (d : list bool) : chunkStore :=
  {| chunks := chunks s; tomb := tomb s; n_slots := n_slots s; dead := dead s; dirty := d |}.

Definition markDirty (s : chunkStore) (ci : Z) : chunkStore := with_dirty s (set_dirty (dirty s) ci true).
Definition markAllDirty (s : chunkStore) : chunkStore := with_dirty s (replicate (length (dirty s)) true).
Definition dirtyIndices (s : chunkStore) : list Z :=
  omap (fun p => if p.2 : bool then Some (Z.of_nat p.1) else None) (zip (seq 0 (length (dirty s))) (dirty s)).
Definition clearDirty (s : chunkStore) (idxs : list Z) : chunkStore :=
  with_dirty s (foldl (fun d i => set_dirty d i false) (dirty s) idxs).

(** ** Reading *)

Definition live_slots (slots : list resourceSlot) (tombs : list bool) : list resourceSlot :=
  omap (fun p => if p.2 : bool then None else Some p.1) (zip slots tombs).

(** [chunkLive ci fn]: the items [fn] is called with, in order. *)
Definition chunkLive (s : chunkStore) (ci : Z) : outcome (list loc) :=
  ch ← at_index (chunks s) ci;
  tb ← at_index (tomb s) ci;
  Ok (item <$> live_slots ch tb).

Definition chunkSlots (s : chunkStore) (ci : Z) : outcome Z :=
  ch ← at_index (chunks s) ci; Ok (zlen ch).

Definition Len (s : chunkStore) : Z := n_slots s - dead s.
Definition Empty (s : chunkStore) : bool := (length (chunks s) =? 0)%nat.

(** [Range fn] and [rangeResources fn]: what [fn] is called with. *)
Definition Range (s : chunkStore) : list loc :=
  item <$> concat (zip_with live_slots (chunks s) (tomb s)).

Definition block_refs (c : nat) (tombs : list bool) : list slotRef :=
  omap (fun p => if p.2 : bool then None else Some (c, p.1)) (zip (seq 0 (length tombs)) tombs).
Definition rangeResources (s : chunkStore) : list slotRef :=
  concat (zip_with block_refs (seq 0 (length (tomb s))) (tomb s)).

Definition StorePointers (s : chunkStore) : list loc := Range s.

(** The slot at an address. *)
Definition slot_at (s : chunkStore) (r : slotRef) : option resourceSlot :=
  block ← chunks s !! r.1; block !! r.2.

(** ** Writing *)

Section entities.
Context {T : Type}.
Implicit Type heap : gmap loc T.

(** [&v]: a fresh cell. *)
Definition new_cell heap (v : T) : gmap loc T * loc :=
  let l := fresh (dom heap) in (<[l := v]> heap, l).

(** [loadChunk]: indexing the fixed array past its end panics. *)
Fixpoint loadSlots heap (ci : Z) (vals : list T) : gmap loc T * list resourceSlot :=
  match vals with
  | [] => (heap, [])
  | v :: rest =>
      let '(heap, l) := new_cell heap v in
      let '(heap, slots) := loadSlots heap ci rest in
      (heap, {| item := l; version := 0; chunk := ci |} :: slots)
  end.

Definition loadChunk heap (s : chunkStore) (vals : list T) : outcome (gmap loc T * chunkStore) :=
  when (chunkLimit <? length vals)%nat => Panic ;;
  let '(heap, ch) := loadSlots heap (zlen (chunks s)) vals in
  Ok (heap, {| chunks := chunks s ++ [ch]; tomb := tomb s ++ [replicate (length vals) false];
               n_slots := n_slots s + zlen vals; dead := dead s; dirty := dirty s ++ [false] |}).

(** The block [Append] fills: the last one, or a new empty one. *)
Definition open_block (s : chunkStore) : chunkStore :=
  match last (chunks s) with
  | Some ch => if (length ch =? chunkLimit)%nat then
                 {| chunks := chunks s ++ [[]]; tomb := tomb s ++ [[]]; n_slots := n_slots s; dead := dead s;
                    dirty := dirty s ++ [false] |}
               else s
  | None => {| chunks := chunks s ++ [[]]; tomb := tomb s ++ [[]]; n_slots := n_slots s; dead := dead s;
               dirty := dirty s ++ [false] |}
  end.

Definition push_at {A} (ci : nat) (blocks : list (chunkBlock A)) (x : A) : list (chunkBlock A) :=
  alter (fun b => (Push b x).1) ci blocks.

Definition Append heap (s : chunkStore) (v : T) : gmap loc T * chunkStore * slotRef :=
  let s := open_block s in
  let '(heap, l) := new_cell heap v in
  let ci := (length (chunks s) - 1)%nat in
  let chunks' := push_at ci (chunks s) {| item := l; version := 0; chunk := Z.of_nat ci |} in
  let s := {| chunks := chunks'; tomb := push_at ci (tomb s) false;
              n_slots := n_slots s + 1; dead := dead s; dirty := dirty s |} in
  (heap, markDirty s (Z.of_nat ci), (ci, (length (default [] (chunks' !! ci)) - 1)%nat)).

(** The inner loop of [DeleteFunc] over one block: new tombstones and the
    items removed. *)
Fixpoint deleteBlock heap (pred : T -> bool) (slots : list resourceSlot) (tombs : list bool) :
    list bool * list loc :=
  match slots, tombs with
  | slot :: slots, t :: tombs =>
      let '(tombs, removed) := deleteBlock heap pred slots tombs in
      if t || negb (default false (pred <$> heap !! item slot)) then (t :: tombs, removed)
      else (true :: tombs, item slot :: removed)
  | _, _ => (tombs, [])
  end.

Fixpoint deleteBlocks heap (pred : T -> bool) (ci : Z) (cs : list (list resourceSlot)) (tbs : list (list bool))
    (s : chunkStore) : chunkStore * list loc :=
  match cs, tbs with
  | ch :: cs, tb :: tbs =>
      let '(tb', removed) := deleteBlock heap pred ch tb in
      let s := {| chunks := chunks s; tomb := <[Z.to_nat ci := tb']> (tomb s); n_slots := n_slots s;
                  dead := dead s + zlen removed;
                  dirty := if (zlen removed =? 0)%Z then dirty s else set_dirty (dirty s) ci true |} in
      let '(s, rest) := deleteBlocks heap pred (ci + 1) cs tbs s in
      (s, removed ++ rest)
  | _, _ => (s, [])
  end.

Definition DeleteFunc heap (s : chunkStore) (pred : T -> bool) : chunkStore * list loc :=
  deleteBlocks heap pred 0 (chunks s) (tomb s) s.

(** [db.applyWrite]'s effect on the store (src/db.go): write through the stable
    pointer, bump the version, mark the block dirty. *)
Definition write_slot heap (s : chunkStore) (r : slotRef) (v : T) : gmap loc T * chunkStore :=
  match slot_at s r with
  | None => (heap, s)
  | Some slot =>
      let slot' := {| item := item slot; version := version slot + 1; chunk := chunk slot |} in
      (<[item slot := v]> heap,
       markDirty {| chunks := alter (alter (fun _ => slot') r.2) r.1 (chunks s); tomb := tomb s;
                    n_slots := n_slots s; dead := dead s; dirty := dirty s |} (chunk slot))
  end.

(** ** Specification *)

(** The invariant of a store over a heap. *)
Record store_wf heap (s : chunkStore) : Prop := {
  wf_shape : Forall2 (fun ch tb => length ch = length tb) (chunks s) (tomb s);
  wf_dirty : length (dirty s) = length (chunks s);
  wf_cap : Forall (fun ch => length ch <= chunkLimit) (chunks s);
  wf_n : n_slots s = zlen (concat (chunks s));
  wf_dead : dead s = zlen (List.filter id (concat (tomb s)));
  wf_chunk : forall r slot, slot_at s r = Some slot -> chunk slot = Z.of_nat r.1;
  wf_alloc : Forall (fun slot => is_Some (heap !! item slot)) (concat (chunks s));
  wf_nodup : NoDup (item <$> concat (chunks s));
}.

(** What the store holds, as a plain list: the live cells and their values. *)
Definition contents heap (s : chunkStore) : list (loc * T) :=
  omap (fun l => pair l <$> heap !! l) (Range s).

(** The values of one block, which is what its file holds after a save. *)
Definition chunk_values heap (s : chunkStore) (ci : nat) : list T :=
  omap (fun slot => heap !! item slot)
    (live_slots (default [] (chunks s !! ci)) (default [] (tomb s !! ci))).

(** A run of operations. *)
Inductive store_op :=
  | OpAppend (v : T)
  | OpLoad (vals : list T)
  | OpDelete (pred : T -> bool)
  | OpWrite (r : slotRef) (v : T)
  | OpMarkDirty (ci : Z)
  | OpMarkAll
  | OpClear (idxs : list Z).

Definition store_step (st : gmap loc T * chunkStore) (op : store_op) : outcome (gmap loc T * chunkStore) :=
  let '(heap, s) := st in
  match op with
  | OpAppend v => let '(heap, s, _) := Append heap s v in Ok (heap, s)
  | OpLoad vals => loadChunk heap s vals
  | OpDelete pred => Ok (heap, (DeleteFunc heap s pred).1)
  | OpWrite r v => Ok (write_slot heap s r v)
  | OpMarkDirty ci => Ok (heap, markDirty s ci)
  | OpMarkAll => Ok (heap, markAllDirty s)
  | OpClear idxs => Ok (heap, clearDirty s idxs)
  end.

(** The contract: the store is a list of cells. An append or a load adds fresh
    cells at the end, a delete filters, a write updates the cell behind the
    slot, and the bookkeeping of dirty blocks is invisible. *)
Definition spec_step heap (s : chunkStore) (op : store_op) (before after : list (loc * T)) : Prop :=
  match op with
  | OpAppend v => exists l, heap !! l = None /\ after = before ++ [(l, v)]
  | OpLoad vals =>
      exists ls, Forall (fun l => heap !! l = None) ls /\ length ls = length vals /\
        after = before ++ zip ls vals
  | OpDelete pred => after = List.filter (fun p => negb (pred p.2)) before
  | OpWrite r v =>
      match slot_at s r with
      | Some slot => after = (fun p => if decide (p.1 = item slot) then (p.1, v) else p) <$> before
      | None => after = before
      end
  | OpMarkDirty _ | OpMarkAll | OpClear _ => after = before
  end.

(** The values a run writes through one slot, in order. *)
Definition writes_to (r : slotRef) (ops : list store_op) : list T :=
  omap (fun op => match op with OpWrite r' v => if decide (r' = r) then Some v else None | _ => None end) ops.

Definition clears (op : store_op) : bool := match op with OpClear _ => true | _ => false end.
End entities.
Arguments store_op : clear implicits.

(** A run for the examples: entities are numbers. *)
Definition sample_ops : list (store_op Z) :=
  [OpLoad [10; 11]; OpAppend 12; OpWrite (0, 1)%nat 21; OpDelete (fun v => Z.eqb v 10); OpWrite (0, 1)%nat 31]%Z.
Definition run_store {T} (ops : list (store_op T)) : outcome (gmap loc T * chunkStore) :=
  fold_outcome store_step (∅, newChunkStore) ops.

(** * Lemmas *)

Arguments live_slots : simpl never.
Arguments new_cell : simpl never.

Lemma live_slots_app ch1 tb1 ch2 tb2 :
  length ch1 = length tb1 -> live_slots (ch1 ++ ch2) (tb1 ++ tb2) = live_slots ch1 tb1 ++ live_slots ch2 tb2.
Proof. intros E. unfold live_slots. by rewrite zip_with_app, omap_app. Qed.

(** The live slots of all blocks, block by block or as one sequence. *)
Lemma live_slots_concat (cs : list (list resourceSlot)) (tbs : list (list bool)) :
  Forall2 (fun ch tb => length ch = length tb) cs tbs ->
  concat (zip_with live_slots cs tbs) = live_slots (concat cs) (concat tbs).
Proof.
  induction 1 as [|ch tb cs tbs E _ IH]; [done|]. cbn. by rewrite live_slots_app, IH.
Qed.

Lemma shape_concat (cs : list (list resourceSlot)) (tbs : list (list bool)) :
  Forall2 (fun ch tb => length ch = length tb) cs tbs -> length (concat cs) = length (concat tbs).
Proof. induction 1; cbn; [done|]. rewrite !length_app. lia. Qed.

Lemma live_slots_all (slots : list resourceSlot) : live_slots slots (replicate (length slots) false) = slots.
Proof. unfold live_slots. induction slots as [|x l IH]; cbn; [done|]. by rewrite IH. Qed.

Lemma live_slots_elem slots tombs slot : slot ∈ live_slots slots tombs -> slot ∈ slots.
Proof.
  unfold live_slots. rewrite list_elem_of_omap. intros ([x []] & Hin & E); [done|].
  injection E as ->. by apply elem_of_zip_l in Hin.
Qed.

Lemma live_slots_length slots tombs :
  length slots = length tombs ->
  zlen (live_slots slots tombs) = (zlen slots - zlen (List.filter id tombs))%Z.
Proof.
  revert tombs. induction slots as [|x l IH]; intros [|[] tombs] E; try done; cbn in E |- *;
    injection E as E; unfold live_slots in *; cbn; rewrite ?zlen_cons; rewrite IH by done; lia.
Qed.

Lemma slot_at_concat s r slot : slot_at s r = Some slot -> slot ∈ concat (chunks s).
Proof.
  unfold slot_at. intros H. destruct (chunks s !! r.1) as [b|] eqn:E; [|done]. cbn in H.
  apply list_elem_of_In, in_concat. exists b.
  split; apply list_elem_of_In; by eapply list_elem_of_lookup_2.
Qed.

Section lemmas.
Context {T : Type}.
Implicit Types (heap : gmap loc T) (v : T).

Lemma new_cell_spec heap v heap' l :
  new_cell heap v = (heap', l) ->
  heap !! l = None /\ heap' = <[l := v]> heap.
Proof.
  intros [= <- <-]. split; [|done]. apply not_elem_of_dom, is_fresh.
Qed.

Lemma loadSlots_spec heap ci vals heap' slots :
  loadSlots heap ci vals = (heap', slots) ->
  heap ⊆ heap' /\ length slots = length vals /\
  Forall (fun slot => heap !! item slot = None /\ chunk slot = ci) slots /\
  NoDup (item <$> slots) /\
  (fun slot => heap' !! item slot) <$> slots = Some <$> vals.
Proof.
  revert heap heap' slots. induction vals as [|v vals IH]; intros heap heap' slots E; cbn in E.
  - injection E as <- <-. split_and!; [done|done|constructor|constructor|done].
  - destruct (new_cell heap v) as [heap1 l] eqn:Ec. apply new_cell_spec in Ec as [Hl ->].
    destruct (loadSlots _ ci vals) as [heap2 slots'] eqn:El. injection E as <- <-.
    apply IH in El as (Hsub & Hlen & Hfr & Hnd & Hval).
    assert (heap ⊆ <[l:=v]> heap) by by apply insert_subseteq.
    assert (heap2 !! l = Some v) as Hl2 by (apply (lookup_weaken (<[l:=v]> heap)); [apply lookup_insert_eq|done]).
    split_and!.
    + by transitivity (<[l:=v]> heap).
    + cbn. by rewrite Hlen.
    + constructor; [done|]. eapply Forall_impl; [exact Hfr|]. intros slot [Hs ?]. split; [|done].
      by apply lookup_insert_None in Hs as [? _].
    + cbn. constructor; [|done]. intros Hin. apply list_elem_of_fmap in Hin as (slot & -> & Hin).
      rewrite Forall_forall in Hfr. destruct (Hfr _ Hin) as [Hs _].
      by rewrite lookup_insert_eq in Hs.
    + cbn. by rewrite Hl2, Hval.
Qed.

(** What [pred] says of the entity a slot holds. *)
Definition selects heap (pred : T -> bool) (slot : resourceSlot) : bool :=
  default false (pred <$> heap !! item slot).

Lemma deleteBlock_spec heap pred slots tombs tombs' removed :
  length slots = length tombs -> deleteBlock heap pred slots tombs = (tombs', removed) ->
  length slots = length tombs' /\
  live_slots slots tombs' = List.filter (negb ∘ selects heap pred) (live_slots slots tombs) /\
  removed = item <$> List.filter (selects heap pred) (live_slots slots tombs) /\
  zlen (List.filter id tombs') = (zlen (List.filter id tombs) + zlen removed)%Z /\
  (removed = [] -> tombs' = tombs).
Proof.
  revert tombs tombs' removed. induction slots as [|slot slots IH]; intros [|t tombs] tombs' removed E D;
    try done; cbn in E, D.
  { by injection D as <- <-. }
  injection E as E. destruct (deleteBlock heap pred slots tombs) as [tb rm] eqn:Eq.
  destruct (IH _ _ _ E Eq) as (H1 & H2 & H3 & H4 & H5).
  fold (selects heap pred slot) in D. unfold live_slots in *.
  destruct t; cbn [orb] in D.
  - injection D as <- <-. cbn. rewrite !zlen_cons. split_and!; [lia|done|done|lia|].
    intros Hr. f_equal. auto.
  - destruct (selects heap pred slot) eqn:Hs; cbn [negb] in D; injection D as <- <-; cbn; rewrite Hs; cbn.
    + rewrite !zlen_cons. split_and!; [lia|done|by rewrite H3|lia|done].
    + split_and!; [lia|by rewrite H2|done|lia|]. intros Hr. f_equal. auto.
Qed.

Lemma set_dirty_middle pre d post (b : bool) :
  set_dirty (pre ++ d :: post) (zlen pre) b = pre ++ b :: post.
Proof.
  unfold set_dirty. rewrite zlen_app, zlen_cons. pose proof (zlen_nonneg pre). pose proof (zlen_nonneg post).
  destruct (_ && _) eqn:E; [|lia]. rewrite to_nat_zlen. by rewrite insert_app_r_alt, Nat.sub_diag by lia.
Qed.

Lemma deleteBlocks_spec heap pred cs tbs :
  Forall2 (fun ch tb => length ch = length tb) cs tbs ->
  forall s pre dpre ds s' removed,
  tomb s = pre ++ tbs -> dirty s = dpre ++ ds -> length dpre = length pre -> length ds = length tbs ->
  deleteBlocks heap pred (zlen pre) cs tbs s = (s', removed) ->
  chunks s' = chunks s /\ n_slots s' = n_slots s /\ dead s' = (dead s + zlen removed)%Z /\
  exists tbs' ds', tomb s' = pre ++ tbs' /\ dirty s' = dpre ++ ds' /\ length ds' = length ds /\
    Forall2 (fun ch tb => length ch = length tb) cs tbs' /\
    live_slots (concat cs) (concat tbs') =
      List.filter (negb ∘ selects heap pred) (live_slots (concat cs) (concat tbs)) /\
    removed = item <$> List.filter (selects heap pred) (live_slots (concat cs) (concat tbs)) /\
    zlen (List.filter id (concat tbs')) = (zlen (List.filter id (concat tbs)) + zlen removed)%Z /\
    (forall i, ds' !! i = Some false -> ds !! i = Some false /\ tbs' !! i = tbs !! i).
Proof.
  induction 1 as [|ch tb cs tbs Hlen Hsh IH]; intros s pre dpre ds s' removed Ht Hd Hl Hds D; cbn in D.
  - injection D as <- <-. split_and!; [done|done|rewrite zlen_nil; lia|].
    exists [], ds. rewrite app_nil_r in *. split_and!; auto.
  - destruct (deleteBlock heap pred ch tb) as [tb' rm] eqn:E1.
    destruct (deleteBlock_spec _ _ _ _ _ _ Hlen E1) as (B1 & B2 & B3 & B4 & B5).
    destruct ds as [|d ds]; [done|]. set (s1 := Build_chunkStore _ _ _ _ _) in D.
    destruct (deleteBlocks heap pred (zlen pre + 1) cs tbs s1) as [s2 rest] eqn:E2.
    injection D as <- <-. set (d' := if (zlen rm =? 0)%Z then d else true).
    destruct (IH s1 (pre ++ [tb']) (dpre ++ [d']) ds s2 rest) as (I1 & I2 & I3 & tbs' & ds' & I4 & I5 & I6 & I7 & I8 & I9 & I10 & I11).
    + subst s1. cbn. rewrite Ht, to_nat_zlen. rewrite insert_app_r_alt, Nat.sub_diag by lia.
      cbn. by rewrite <- app_assoc.
    + subst s1 d'. cbn. rewrite Hd. replace (zlen pre) with (zlen dpre) by (unfold zlen; lia).
      rewrite set_dirty_middle. rewrite <- app_assoc. cbn. by destruct (zlen rm =? 0)%Z.
    + rewrite !length_app, Hl. done.
    + cbn in Hds. lia.
    + rewrite zlen_app. exact E2.
    + split_and!; [done|done|rewrite I3; subst s1; cbn; rewrite zlen_app; lia|].
      exists (tb' :: tbs'), (d' :: ds'). rewrite <- app_assoc in I4, I5. cbn in I4, I5 |- *.
      pose proof (shape_concat cs tbs Hsh). pose proof (shape_concat cs tbs' I7).
      rewrite !live_slots_app by (done || lia). rewrite B2, I8, !List.filter_app, B3, I9.
      split_and!; [done|done|lia|by constructor|done|by rewrite fmap_app| |].
      * rewrite !zlen_app, I10, B4, B3, I9. lia.
      * intros [|i] Hi; cbn in Hi |- *; [|by apply I11]. injection Hi as Hi. subst d'.
        destruct (Z.eqb_spec (zlen rm) 0) as [Hz|]; [|done]. apply zlen_0_inv in Hz.
        by rewrite Hi, B5.
Qed.

Lemma DeleteFunc_spec heap s pred s' removed :
  store_wf heap s -> DeleteFunc heap s pred = (s', removed) ->
  chunks s' = chunks s /\ n_slots s' = n_slots s /\ dead s' = (dead s + zlen removed)%Z /\
  length (dirty s') = length (dirty s) /\
  Forall2 (fun ch tb => length ch = length tb) (chunks s) (tomb s') /\
  Range s' = item <$> List.filter (negb ∘ selects heap pred)
    (live_slots (concat (chunks s)) (concat (tomb s))) /\
  removed = item <$> List.filter (selects heap pred) (live_slots (concat (chunks s)) (concat (tomb s))) /\
  zlen (List.filter id (concat (tomb s'))) = (zlen (List.filter id (concat (tomb s))) + zlen removed)%Z /\
  (forall i, dirty s' !! i = Some false -> dirty s !! i = Some false /\ tomb s' !! i = tomb s !! i).
Proof.
  intros [] D. unfold DeleteFunc in D. pose proof (Forall2_length _ _ _ wf_shape0).
  destruct (deleteBlocks_spec heap pred (chunks s) (tomb s) wf_shape0 s [] [] (dirty s) s' removed)
    as (H1 & H2 & H3 & tbs' & ds' & H4 & H5 & H6 & H7 & H8 & H9 & H10 & H11); [done..|lia|exact D|].
  cbn in H4, H5. subst tbs' ds'. split_and!; auto.
  unfold Range. rewrite H1, live_slots_concat by done. by rewrite H8.
Qed.

Lemma Range_live heap s :
  store_wf heap s -> Range s = item <$> live_slots (concat (chunks s)) (concat (tomb s)).
Proof. intros []. unfold Range. by rewrite live_slots_concat. Qed.

Lemma set_dirty_length d ci b : length (set_dirty d ci b) = length d.
Proof. unfold set_dirty. destruct (_ && _); [apply length_insert|done]. Qed.

Lemma markDirty_wf heap s ci : store_wf heap s -> store_wf heap (markDirty s ci).
Proof. intros []. constructor; try done. cbn. by rewrite set_dirty_length. Qed.

Lemma set_dirty_clean d ci i :
  set_dirty d ci true !! i = Some false -> d !! i = Some false /\ Z.of_nat i <> ci.
Proof.
  unfold set_dirty. destruct (_ && _) eqn:E.
  - intros H. destruct (decide (Z.to_nat ci = i)) as [<-|Hne].
    + rewrite list_lookup_insert_eq in H by (unfold zlen in E; lia). done.
    + rewrite list_lookup_insert_ne in H by done. split; [done|lia].
  - intros H. split; [done|]. intros <-. apply lookup_lt_Some in H. unfold zlen in E. lia.
Qed.

(** The store with one more empty block. *)
Definition add_block (s : chunkStore) : chunkStore :=
  {| chunks := chunks s ++ [[]]; tomb := tomb s ++ [[]]; n_slots := n_slots s; dead := dead s;
     dirty := dirty s ++ [false] |}.

Lemma slot_at_app s cs r slot :
  slot_at s r = Some slot -> (block ← (chunks s ++ cs) !! r.1; block !! r.2) = Some slot.
Proof.
  unfold slot_at. destruct (chunks s !! r.1) eqn:E; [|done]. intros H. cbn in H.
  by rewrite (lookup_app_l_Some _ _ _ _ E).
Qed.

Lemma add_block_wf heap s : store_wf heap s -> store_wf heap (add_block s).
Proof.
  intros []. constructor; cbn; rewrite ?concat_app; cbn; rewrite ?app_nil_r; try done.
  - apply Forall2_app; [done|]. by constructor.
  - rewrite !length_app. cbn. lia.
  - apply Forall_app. split; [done|]. constructor; [cbn; unfold chunkLimit; lia|done].
  - intros r slot H. unfold slot_at in H. cbn in H.
    destruct ((chunks s ++ [[]]) !! r.1) as [b|] eqn:E; [|done]. cbn in H.
    apply lookup_app_Some in E as [E|[_ E]].
    + apply (wf_chunk0 r slot). unfold slot_at. by rewrite E.
    + apply list_lookup_singleton_Some in E as [_ <-]. done.
Qed.

Lemma open_block_spec heap s :
  store_wf heap s ->
  exists cs blk tbs tb, let s1 := open_block s in
    chunks s1 = cs ++ [blk] /\ tomb s1 = tbs ++ [tb] /\ length blk = length tb /\ length cs = length tbs /\
    length blk < chunkLimit /\ store_wf heap s1 /\ (s1 = s \/ s1 = add_block s).
Proof.
  intros Hwf. unfold open_block. fold (add_block s).
  assert (exists cs blk tbs tb, chunks (add_block s) = cs ++ [blk] /\ tomb (add_block s) = tbs ++ [tb] /\
    length blk = length tb /\ length cs = length tbs /\
    length blk < chunkLimit /\ store_wf heap (add_block s) /\ (add_block s = s \/ add_block s = add_block s)) as Hadd.
  { exists (chunks s), [], (tomb s), []. split_and!; try done; [|unfold chunkLimit; cbn; lia|by apply add_block_wf|by right].
    apply (Forall2_length _ _ _ (wf_shape _ _ Hwf)). }
  destruct (last (chunks s)) as [ch|] eqn:El; [|exact Hadd].
  destruct (Nat.eqb_spec (length ch) chunkLimit) as [|Hne]; [exact Hadd|].
  apply last_Some in El as (cs & Ec). pose proof (wf_shape _ _ Hwf) as Hsh. rewrite Ec in Hsh.
  apply Forall2_app_inv_l in Hsh as (tbs & tbl & H1 & H2 & Ht).
  apply Forall2_cons_inv_l in H2 as (tb & rest & Hlen & Hnil & ->). apply Forall2_nil_inv_l in Hnil as ->.
  exists cs, ch, tbs, tb. split_and!; try done; [by apply Forall2_length in H1| |by left].
  pose proof (wf_cap _ _ Hwf) as Hcap. rewrite Ec in Hcap. apply Forall_app in Hcap as [_ Hcap].
  apply Forall_cons in Hcap as [Hcap _]. lia.
Qed.

Lemma push_at_last {A} (bs : list (list A)) (b : list A) x :
  length b < chunkLimit -> push_at (length bs) (bs ++ [b]) x = bs ++ [b ++ [x]].
Proof.
  intros Hlt. unfold push_at. rewrite alter_app_r_alt, Nat.sub_diag by lia. cbn. unfold Push.
  by destruct (Nat.leb_spec chunkLimit (length b)); [lia|].
Qed.

(** The store after a push into its last block. *)
Definition pushed (s : chunkStore) cs blk tbs tb (slot : resourceSlot) : chunkStore :=
  markDirty {| chunks := cs ++ [blk ++ [slot]]; tomb := tbs ++ [tb ++ [false]];
               n_slots := n_slots s + 1; dead := dead s; dirty := dirty s |} (Z.of_nat (length cs)).

Lemma pushed_slots {cs blk : list _} slot r0 (s0 : resourceSlot) :
  (block ← (cs ++ [blk]) !! r0.1; block !! r0.2) = Some s0 ->
  (block ← (cs ++ [blk ++ [slot]]) !! r0.1; block !! r0.2) = Some s0.
Proof.
  intros H0. destruct ((cs ++ [blk]) !! r0.1) eqn:E; [|done]. cbn in H0.
  apply lookup_app_Some in E as [E|[Hge E]].
  - by rewrite (lookup_app_l_Some _ _ _ _ E).
  - apply list_lookup_singleton_Some in E as [E <-]. rewrite lookup_app_r by done. rewrite E. cbn.
    by apply lookup_app_l_Some.
Qed.

Lemma pushed_slots_inv {cs blk : list _} slot r0 (s0 : resourceSlot) :
  (block ← (cs ++ [blk ++ [slot]]) !! r0.1; block !! r0.2) = Some s0 ->
  (block ← (cs ++ [blk]) !! r0.1; block !! r0.2) = Some s0 \/ s0 = slot /\ r0.1 = length cs.
Proof.
  intros H0. destruct ((cs ++ [blk ++ [slot]]) !! r0.1) eqn:E; [|done]. cbn in H0.
  apply lookup_app_Some in E as [E|[Hge E]].
  - left. by rewrite (lookup_app_l_Some _ _ _ _ E).
  - apply list_lookup_singleton_Some in E as [E <-].
    apply lookup_app_Some in H0 as [H0|[_ H0]].
    + left. rewrite lookup_app_r by done. by rewrite E.
    + apply list_lookup_singleton_Some in H0 as [_ <-]. right. split; [done|lia].
Qed.

Lemma pushed_wf heap s cs blk tbs tb v l :
  store_wf heap s -> chunks s = cs ++ [blk] -> tomb s = tbs ++ [tb] ->
  length blk = length tb -> length cs = length tbs -> length blk < chunkLimit -> heap !! l = None ->
  store_wf (<[l := v]> heap)
    (pushed s cs blk tbs tb {| item := l; version := 0; chunk := Z.of_nat (length cs) |}).
Proof.
  intros [W1 W2 W3 W4 W5 W6 W7 W8] Hc Ht Hbt Hct Hlt Hl. unfold slot_at in W6. rewrite Hc, ?Ht in *.
  rewrite !concat_app in W4, W5, W7, W8. cbn [concat] in W4, W5, W7, W8. rewrite !app_nil_r in W4, W5, W7, W8.
  constructor; cbn [pushed markDirty with_dirty chunks tomb n_slots dead dirty];
    rewrite ?concat_app; cbn [concat]; rewrite ?app_nil_r.
  - apply Forall2_app_inv in W1 as [W1 _]; [|done]. apply Forall2_app; [done|].
    constructor; [rewrite !length_app; cbn; lia|constructor].
  - rewrite set_dirty_length, W2, !length_app. done.
  - apply Forall_app in W3 as [W3 _]. apply Forall_app. split; [done|].
    constructor; [rewrite length_app; cbn; lia|constructor].
  - rewrite !zlen_app in *. rewrite zlen_cons, zlen_nil. lia.
  - rewrite W5, !List.filter_app. cbn. by rewrite app_nil_r.
  - intros r slot H. apply pushed_slots_inv in H as [H|[-> ->]]; [by apply W6|done].
  - apply Forall_app in W7 as [W7a W7b]. repeat (apply Forall_app; split); try (by repeat constructor).
    + eapply Forall_impl; [exact W7a|]. intros x Hx. by apply lookup_insert_is_Some'; right.
    + eapply Forall_impl; [exact W7b|]. intros x Hx. by apply lookup_insert_is_Some'; right.
    + constructor; [|constructor]. cbn. rewrite lookup_insert_eq. eauto.
  - rewrite app_assoc, fmap_app. apply NoDup_app. split_and!; [done| |cbn; repeat constructor; set_solver].
    intros x Hx Hx'. cbn in Hx'. apply list_elem_of_singleton in Hx' as ->.
    apply list_elem_of_fmap in Hx as (slot & -> & Hs). rewrite Forall_forall in W7.
    destruct (W7 _ Hs) as [? Hsome]. congruence.
Qed.

Lemma Append_spec heap s v heap' s' r :
  store_wf heap s -> Append heap s v = (heap', s', r) ->
  exists l, heap !! l = None /\ heap' = <[l := v]> heap /\ store_wf heap' s' /\
    Range s' = Range s ++ [l] /\ n_slots s' = (n_slots s + 1)%Z /\ dead s' = dead s /\
    slot_at s' r = Some {| item := l; version := 0; chunk := Z.of_nat r.1 |} /\
    (forall r0 slot, slot_at s r0 = Some slot -> slot_at s' r0 = Some slot) /\
    (forall i, dirty s' !! i = Some false ->
       dirty s !! i = Some false /\ chunks s' !! i = chunks s !! i /\ tomb s' !! i = tomb s !! i) /\
    item <$> concat (chunks s') = (item <$> concat (chunks s)) ++ [l].
Proof.
  intros Hwf A. unfold Append in A.
  destruct (open_block_spec heap s Hwf) as (cs & blk & tbs & tb & Hc & Ht & Hbt & Hct & Hlt & Hwf1 & Hor).
  set (s1 := open_block s) in *. destruct (new_cell heap v) as [heap1 l] eqn:Ec.
  apply new_cell_spec in Ec as [Hl ->].
  rewrite Hc, Ht, length_app, Nat.add_sub in A. cbn [length] in A.
  rewrite push_at_last in A by done. rewrite Hct, push_at_last, <- Hct in A by lia.
  set (slot := {| item := l; version := 0; chunk := Z.of_nat (length cs) |}) in A.
  rewrite lookup_app_r, Nat.sub_diag in A by lia. cbn [default lookup list_lookup] in A.
  unfold id in A. rewrite (length_app blk), Nat.add_sub in A. injection A as <- <- <-. cbn [fst snd].
  fold (pushed s1 cs blk tbs tb slot).
  pose proof (pushed_wf heap s1 cs blk tbs tb v l Hwf1 Hc Ht Hbt Hct Hlt Hl) as Hwf'. fold slot in Hwf'.
  assert (Hcat : concat (chunks s) = concat cs ++ blk /\ concat (tomb s) = concat tbs ++ tb /\
                 n_slots s1 = n_slots s /\ dead s1 = dead s).
  { destruct Hor as [E|E]; rewrite E in Hc, Ht |- *; cbn in Hc, Ht |- *.
    - rewrite Hc, Ht, !concat_app. cbn. by rewrite !app_nil_r.
    - apply app_inj_tail in Hc as [-> <-], Ht as [-> <-]. by rewrite !app_nil_r. }
  destruct Hcat as (Hcat1 & Hcat2 & Hn & Hd).
  exists l. split_and!; [done|done|done| | | | | | |].
  - pose proof (shape_concat _ _ (wf_shape _ _ Hwf)) as Hsc.
    rewrite !(Range_live _ _ Hwf'), (Range_live _ _ Hwf). cbn. rewrite !concat_app. cbn. rewrite !app_nil_r.
    rewrite Hcat1, Hcat2 in *. rewrite !app_assoc, live_slots_app by done. by rewrite fmap_app.
  - cbn. by rewrite Hn.
  - done.
  - unfold slot_at. cbn. rewrite lookup_app_r, Nat.sub_diag by lia. cbn.
    by rewrite lookup_app_r, Nat.sub_diag by lia.
  - intros r0 s0 H0. apply pushed_slots. rewrite <- Hc. destruct Hor as [->| ->]; [exact H0|]. by apply slot_at_app.
  - intros i Hi. apply set_dirty_clean in Hi as [Hi Hne].
    cbn [chunks tomb dirty pushed markDirty with_dirty].
    assert (i < length cs) as Hlti.
    { apply lookup_lt_Some in Hi. cbn [dirty] in Hi. rewrite (wf_dirty _ _ Hwf1), Hc, length_app in Hi. cbn in Hi. lia. }
    rewrite !lookup_app_l by lia. destruct Hor as [E|E]; rewrite E in Hi, Hc, Ht; cbn in Hi, Hc, Ht.
    + rewrite Hc, Ht, !lookup_app_l by lia. done.
    + apply app_inj_tail in Hc as [Hc _], Ht as [Ht _].
      rewrite lookup_app_l in Hi by (rewrite (wf_dirty _ _ Hwf), Hc; lia). by rewrite Hc, Ht.
  - rewrite Hcat1. cbn. rewrite !concat_app. cbn. by rewrite app_nil_r, !fmap_app, app_assoc.
Qed.

Lemma loadChunk_spec heap s vals heap' s' :
  store_wf heap s -> loadChunk heap s vals = Ok (heap', s') ->
  exists slots, store_wf heap' s' /\ heap ⊆ heap' /\ length slots = length vals /\
    Forall (fun slot => heap !! item slot = None) slots /\
    (fun slot => heap' !! item slot) <$> slots = Some <$> vals /\
    chunks s' = chunks s ++ [slots] /\ tomb s' = tomb s ++ [replicate (length vals) false] /\
    dirty s' = dirty s ++ [false] /\ n_slots s' = (n_slots s + zlen vals)%Z /\ dead s' = dead s /\
    Range s' = Range s ++ (item <$> slots).
Proof.
  intros Hwf L. unfold loadChunk in L. destruct (Nat.ltb_spec chunkLimit (length vals)); [done|].
  destruct (loadSlots heap (zlen (chunks s)) vals) as [heap1 slots] eqn:E. injection L as <- <-.
  apply loadSlots_spec in E as (Hsub & Hlen & Hfr & Hnd & Hval).
  assert (Hwf' : store_wf heap1 {| chunks := chunks s ++ [slots];
     tomb := tomb s ++ [replicate (length vals) false]; n_slots := n_slots s + zlen vals;
     dead := dead s; dirty := dirty s ++ [false] |}).
  { destruct Hwf as [W1 W2 W3 W4 W5 W6 W7 W8].
    constructor; cbn; rewrite ?concat_app; cbn [concat]; rewrite ?app_nil_r.
    - apply Forall2_app; [done|]. constructor; [by rewrite length_replicate|constructor].
    - rewrite !length_app. cbn. lia.
    - apply Forall_app. split; [done|]. constructor; [lia|constructor].
    - rewrite zlen_app. unfold zlen in *. lia.
    - rewrite List.filter_app, zlen_app, W5.
      assert (List.filter id (replicate (length vals) false) = []) as -> by (clear; by induction (length vals)).
      rewrite zlen_nil. lia.
    - intros r slot H0. unfold slot_at in H0. cbn in H0.
      destruct ((chunks s ++ [slots]) !! r.1) as [b|] eqn:E; [|done]. cbn in H0.
      apply lookup_app_Some in E as [E|[Hge E]].
      + apply W6. unfold slot_at. by rewrite E.
      + apply list_lookup_singleton_Some in E as [E <-]. rewrite Forall_forall in Hfr.
        destruct (Hfr slot) as [_ ->]; [by eapply list_elem_of_lookup_2|]. unfold zlen. lia.
    - apply Forall_app. split.
      + eapply Forall_impl; [exact W7|]. intros x [v Hv]. exists v. by eapply lookup_weaken.
      + apply Forall_forall. intros slot Hin. apply list_elem_of_lookup in Hin as [i Hi].
        assert ((Some <$> vals) !! i = Some (heap1 !! item slot)) as Hv.
        { rewrite <- Hval, list_lookup_fmap, Hi. done. }
        rewrite list_lookup_fmap in Hv. destruct (vals !! i); [|done]. cbn in Hv. injection Hv as <-. eauto.
    - rewrite fmap_app. apply NoDup_app. split_and!; [done| |done].
      intros x Hx Hx'. apply list_elem_of_fmap in Hx as (a & -> & Ha), Hx' as (b & Eb & Hb).
      rewrite Forall_forall in Hfr, W7. destruct (W7 _ Ha) as [? ?], (Hfr _ Hb) as [Hb' _]. congruence. }
  exists slots. split_and!; try done.
  - eapply Forall_impl; [exact Hfr|]. by intros slot [? _].
  - pose proof (shape_concat _ _ (wf_shape _ _ Hwf)) as Hsc.
    rewrite (Range_live _ _ Hwf'), (Range_live _ _ Hwf). cbn. rewrite !concat_app. cbn. rewrite !app_nil_r.
    rewrite live_slots_app, fmap_app by done. by rewrite <- Hlen, live_slots_all.
Qed.

Lemma DeleteFunc_wf heap s pred :
  store_wf heap s -> store_wf heap (DeleteFunc heap s pred).1.
Proof.
  intros Hwf. destruct (DeleteFunc heap s pred) as [s' removed] eqn:D.
  destruct (DeleteFunc_spec _ _ _ _ _ Hwf D) as (H1 & H2 & H3 & H4 & H5 & _ & _ & H6 & _).
  destruct Hwf as [W1 W2 W3 W4 W5 W6 W7 W8]. cbn [fst].
  constructor; unfold slot_at; rewrite ?H1; try done; try lia.
Qed.

Lemma concat_alter (cs : list (list resourceSlot)) i j slot slot' :
  (block ← cs !! i; block !! j) = Some slot ->
  exists a b, concat cs = a ++ slot :: b /\
    concat (alter (alter (fun _ => slot') j) i cs) = a ++ slot' :: b.
Proof.
  intros H. destruct (cs !! i) as [blk|] eqn:E; [|done]. cbn in H.
  apply list_elem_of_split_length in E as (c1 & c2 & -> & ->).
  apply list_elem_of_split_length in H as (b1 & b2 & -> & ->).
  exists (concat c1 ++ b1), (b2 ++ concat c2).
  rewrite alter_app_r_alt, Nat.sub_diag by lia. cbn. rewrite alter_app_r_alt, Nat.sub_diag by lia. cbn.
  rewrite !concat_app. cbn. by rewrite <- !app_assoc.
Qed.

Lemma shape_alter (cs : list (list resourceSlot)) (tbs : list (list bool)) f i j :
  Forall2 (fun ch tb => length ch = length tb) cs tbs ->
  Forall2 (fun ch tb => length ch = length tb) (alter (alter f j) i cs) tbs.
Proof.
  intros H. revert i. induction H as [|ch tb cs tbs E H IH]; intros [|i]; cbn; constructor; auto.
  by rewrite length_alter.
Qed.

Lemma live_slots_fmap (f : resourceSlot -> resourceSlot) slots tombs :
  live_slots (f <$> slots) tombs = f <$> live_slots slots tombs.
Proof.
  unfold live_slots. revert tombs. induction slots as [|x l IH]; intros [|[] tbs]; cbn; try done.
  by rewrite IH.
Qed.

Lemma live_items slots slots' tombs :
  item <$> slots = item <$> slots' -> item <$> live_slots slots tombs = item <$> live_slots slots' tombs.
Proof.
  unfold live_slots. revert slots' tombs. induction slots as [|x l IH]; intros [|y l'] tbs E; try done.
  cbn in E. injection E as E1 E2. destruct tbs as [|[] tbs]; cbn; [done|by apply IH|]. by rewrite E1, (IH l').
Qed.

Lemma write_slot_spec heap s r v slot :
  store_wf heap s -> slot_at s r = Some slot ->
  let heap' := (write_slot heap s r v).1 in let s' := (write_slot heap s r v).2 in
  store_wf heap' s' /\ heap' = <[item slot := v]> heap /\ Range s' = Range s /\
  slot_at s' r = Some {| item := item slot; version := version slot + 1; chunk := chunk slot |} /\
  (forall r0, r0 <> r -> slot_at s' r0 = slot_at s r0) /\
  n_slots s' = n_slots s /\ dead s' = dead s /\ tomb s' = tomb s /\ length (chunks s') = length (chunks s) /\
  (forall i, dirty s' !! i = Some false -> dirty s !! i = Some false /\ chunks s' !! i = chunks s !! i /\ i <> r.1).
Proof.
  intros Hwf Hs. unfold write_slot. rewrite Hs. cbn [fst snd].
  set (slot' := {| item := item slot; version := version slot + 1; chunk := chunk slot |}).
  pose proof Hwf as [W1 W2 W3 W4 W5 W6 W7 W8]. pose proof (W6 _ _ Hs) as Hch.
  destruct (concat_alter (chunks s) r.1 r.2 slot slot' Hs) as (a & b & Ha & Hb).
  assert (Hitems : item <$> concat (alter (alter (fun _ => slot') r.2) r.1 (chunks s)) =
                   item <$> concat (chunks s)).
  { rewrite Ha, Hb, !fmap_app. done. }
  assert (Hother : forall r0, r0 <> r ->
    (block ← alter (alter (fun _ => slot') r.2) r.1 (chunks s) !! r0.1; block !! r0.2) = slot_at s r0).
  { intros r0 Hne. unfold slot_at. destruct (decide (r.1 = r0.1)) as [E1|E1].
    - rewrite <- E1, list_lookup_alter_eq. destruct (chunks s !! r.1); [|done]. cbn.
      rewrite list_lookup_alter_ne; [done|]. intros E2. destruct r, r0. cbn in *. congruence.
    - by rewrite list_lookup_alter_ne. }
  assert (Hself : (block ← alter (alter (fun _ => slot') r.2) r.1 (chunks s) !! r.1; block !! r.2) = Some slot').
  { unfold slot_at in Hs. rewrite list_lookup_alter_eq. destruct (chunks s !! r.1); [|done]. cbn in Hs |- *.
    by rewrite list_lookup_alter_eq, Hs. }
  assert (Hwf' : store_wf (<[item slot := v]> heap)
    (markDirty {| chunks := alter (alter (fun _ => slot') r.2) r.1 (chunks s); tomb := tomb s;
                  n_slots := n_slots s; dead := dead s; dirty := dirty s |} (chunk slot))).
  { apply markDirty_wf. constructor; cbn.
    - by apply shape_alter.
    - by rewrite length_alter.
    - apply Forall_lookup. intros i x Hx. rewrite Forall_lookup in W3.
      destruct (decide (r.1 = i)) as [<-|Hne].
      + rewrite list_lookup_alter_eq in Hx. destruct (chunks s !! r.1) eqn:E; [|done]. injection Hx as <-.
        rewrite length_alter. by eapply W3.
      + rewrite list_lookup_alter_ne in Hx by done. by eapply W3.
    - rewrite Hb, W4, Ha, !zlen_app, !zlen_cons. done.
    - done.
    - intros r0 s0 H0. unfold slot_at in H0. cbn in H0. destruct (decide (r0 = r)) as [->|Hne].
      + rewrite Hself in H0. injection H0 as <-. done.
      + rewrite Hother in H0 by done. by apply W6.
    - rewrite Hb. rewrite Ha in W7. apply Forall_app in W7 as [W7a W7b].
      apply Forall_cons in W7b as [W7b W7c]. apply Forall_app. split; [|constructor].
      + eapply Forall_impl; [exact W7a|]. intros x Hx. by apply lookup_insert_is_Some'; right.
      + cbn. rewrite lookup_insert_eq. eauto.
      + eapply Forall_impl; [exact W7c|]. intros x Hx. by apply lookup_insert_is_Some'; right.
    - by rewrite Hitems. }
  split_and!; try done.
  - rewrite (Range_live _ _ Hwf'), (Range_live _ _ Hwf). cbn. by apply live_items.
  - cbn. by rewrite length_alter.
  - intros i Hi. apply set_dirty_clean in Hi as [Hi Hne]. cbn in Hi |- *.
    rewrite Hch in Hne. rewrite list_lookup_alter_ne by lia. split_and!; [done|done|lia].
Qed.

Lemma store_step_wf heap s op heap' s' :
  store_wf heap s -> store_step (heap, s) op = Ok (heap', s') -> store_wf heap' s'.
Proof.
  intros Hwf E. destruct op as [v|vals|pred|r v|ci| |idxs]; cbn in E.
  - destruct (Append heap s v) as [[h1 s1] r] eqn:A. injection E as <- <-.
    destruct (Append_spec _ _ _ _ _ _ Hwf A) as (l & _ & _ & H & _). done.
  - destruct (loadChunk_spec _ _ _ _ _ Hwf E) as (? & ? & _). done.
  - injection E as <- <-. by apply DeleteFunc_wf.
  - injection E as E. destruct (slot_at s r) as [slot|] eqn:Hs.
    + destruct (write_slot_spec heap s r v slot Hwf Hs) as (H & _). by rewrite E in H.
    + unfold write_slot in E. rewrite Hs in E. by injection E as <- <-.
  - injection E as <- <-. by apply markDirty_wf.
  - injection E as <- <-. destruct Hwf. constructor; try done. cbn. by rewrite length_replicate.
  - injection E as <- <-. destruct Hwf. constructor; try done. cbn.
    revert wf_dirty0. generalize (dirty s). induction idxs as [|i idxs IH]; intros d Hd; cbn; [done|].
    apply IH. by rewrite set_dirty_length.
Qed.

Lemma store_run_wf ops heap s heap' s' :
  store_wf heap s -> fold_outcome store_step (heap, s) ops = Ok (heap', s') -> store_wf heap' s'.
Proof.
  intros Hwf E.
  refine (fold_outcome_inv (fun st => store_wf st.1 st.2) store_step ops _ (heap, s) (heap', s') Hwf E).
  intros [h1 s1] op [h2 s2] _ H1 H2. by eapply store_step_wf.
Qed.

Lemma newChunkStore_wf heap : store_wf heap newChunkStore.
Proof. constructor; try done; constructor. Qed.

Lemma contents_length heap s : store_wf heap s -> zlen (contents heap s) = Len s.
Proof.
  intros Hwf. pose proof (Range_live _ _ Hwf) as HR. pose proof (shape_concat _ _ (wf_shape _ _ Hwf)) as Hsc.
  unfold Len. rewrite (wf_n _ _ Hwf), (wf_dead _ _ Hwf), <- live_slots_length by done.
  unfold contents. rewrite HR.
  assert (Forall (fun slot => is_Some (heap !! item slot)) (live_slots (concat (chunks s)) (concat (tomb s)))) as HF.
  { apply Forall_forall. intros slot Hin. apply live_slots_elem in Hin.
    pose proof (wf_alloc _ _ Hwf) as Ha. rewrite Forall_forall in Ha. by apply Ha. }
  clear -HF. induction HF as [|slot l [v Hv] HF IH]; [done|]. cbn. rewrite Hv. cbn. by rewrite !zlen_cons, IH.
Qed.

Lemma contents_ext heap heap' (ls : list loc) :
  (forall l, l ∈ ls -> heap' !! l = heap !! l) ->
  omap (fun l => pair l <$> heap' !! l) ls = omap (fun l => pair l <$> heap !! l) ls.
Proof.
  induction ls as [|l ls IH]; intros H; cbn; [done|].
  rewrite H by set_solver. rewrite IH; [done|]. intros l' Hl'. apply H. set_solver.
Qed.

Lemma Range_alloc heap s l : store_wf heap s -> l ∈ Range s -> is_Some (heap !! l).
Proof.
  intros Hwf. rewrite (Range_live _ _ Hwf). intros Hin.
  apply list_elem_of_fmap in Hin as (slot & -> & Hin). apply live_slots_elem in Hin.
  pose proof (wf_alloc _ _ Hwf) as Ha. rewrite Forall_forall in Ha. by apply Ha.
Qed.

(** Two slots of the store never share a cell. *)
Lemma slot_at_inj heap s r1 r2 a b :
  store_wf heap s -> slot_at s r1 = Some a -> slot_at s r2 = Some b -> item a = item b -> r1 = r2.
Proof.
  intros Hwf Ha Hb E. pose proof (wf_nodup _ _ Hwf) as Hnd. unfold slot_at in *.
  destruct (chunks s !! r1.1) as [b1|] eqn:E1; [|done]. destruct (chunks s !! r2.1) as [b2|] eqn:E2; [|done].
  cbn in Ha, Hb. destruct r1 as [c1 o1], r2 as [c2 o2]. cbn in *.
  apply list_elem_of_split_length in E1 as (x & y & Es & ->). rewrite Es in E2, Hnd.
  rewrite concat_app, fmap_app in Hnd. cbn in Hnd. rewrite fmap_app in Hnd.
  apply NoDup_app in Hnd as (_ & Hd1 & Hnd). apply NoDup_app in Hnd as (Hb1 & Hd2 & _).
  assert (Hina : item a ∈ item <$> b1) by (apply list_elem_of_fmap_2; by eapply list_elem_of_lookup_2).
  assert (Hinb : item b ∈ item <$> b2) by (apply list_elem_of_fmap_2; by eapply list_elem_of_lookup_2).
  apply lookup_app_Some in E2 as [E2|[Hge E2]].
  - exfalso. apply (Hd1 (item b)); [|rewrite <- E; set_solver].
    apply list_elem_of_fmap in Hinb as (b' & -> & Hb'). apply list_elem_of_fmap_2.
    apply list_elem_of_In, in_concat. exists b2.
    split; apply list_elem_of_In; [by eapply list_elem_of_lookup_2|done].
  - destruct (c2 - length x) as [|k] eqn:Ek; cbn in E2.
    + injection E2 as <-. f_equal; [lia|]. eapply NoDup_lookup; [exact Hb1| |].
      * rewrite list_lookup_fmap, Ha. done.
      * rewrite list_lookup_fmap, Hb. cbn. by rewrite E.
    + exfalso. apply (Hd2 (item a)); [done|]. rewrite E.
      apply list_elem_of_fmap in Hinb as (b' & -> & Hb'). apply list_elem_of_fmap_2.
      apply list_elem_of_In, in_concat. exists b2.
      split; apply list_elem_of_In; [by eapply list_elem_of_lookup_2|done].
Qed.

Lemma contents_split heap ls1 ls2 :
  omap (fun l => pair l <$> heap !! l) (ls1 ++ ls2) =
  omap (fun l => pair l <$> heap !! l) ls1 ++ omap (fun l => pair l <$> heap !! l) ls2.
Proof. apply omap_app. Qed.

Lemma contents_zip heap (slots : list resourceSlot) (vals : list T) :
  (fun slot => heap !! item slot) <$> slots = Some <$> vals ->
  omap (fun l => pair l <$> heap !! l) (item <$> slots) = zip (item <$> slots) vals.
Proof.
  revert vals. induction slots as [|slot slots IH]; intros [|v vals] E; try done.
  cbn in E. injection E as E1 E2. cbn. rewrite E1. cbn. f_equal. by apply IH.
Qed.

Lemma contents_filter heap pred (slots : list resourceSlot) :
  omap (fun l => pair l <$> heap !! l) (item <$> List.filter (negb ∘ selects heap pred) slots) =
  List.filter (fun p => negb (pred p.2)) (omap (fun l => pair l <$> heap !! l) (item <$> slots)) \/
  exists slot, slot ∈ slots /\ heap !! item slot = None.
Proof.
  induction slots as [|slot slots IH]; [by left|]. destruct (heap !! item slot) as [v|] eqn:E.
  - destruct IH as [IH|(s0 & ? & ?)]; [left|right; exists s0; split; [set_solver|done]].
    cbn. rewrite E. cbn. unfold selects at 1. rewrite E. cbn.
    destruct (pred v); cbn; [done|]. rewrite E. cbn. by rewrite IH.
  - right. exists slot. split; [set_solver|done].
Qed.

Lemma contents_write heap x v (ls : list loc) :
  is_Some (heap !! x) ->
  omap (fun l => pair l <$> <[x := v]> heap !! l) ls =
  (fun p => if decide (p.1 = x) then (p.1, v) else p) <$> omap (fun l => pair l <$> heap !! l) ls.
Proof.
  intros [w Hw]. induction ls as [|l ls IH]; [done|]. cbn. destruct (decide (l = x)) as [->|Hne].
  - rewrite lookup_insert_eq, Hw. cbn. rewrite decide_True by done. by rewrite IH.
  - rewrite lookup_insert_ne by done. destruct (heap !! l); cbn; [|done].
    rewrite decide_False by done. by rewrite IH.
Qed.

(** One step refines the contract. *)
Lemma store_step_spec heap s op heap' s' :
  store_wf heap s -> store_step (heap, s) op = Ok (heap', s') ->
  spec_step heap s op (contents heap s) (contents heap' s').
Proof.
  intros Hwf E. destruct op as [v|vals|pred|r v|ci| |idxs]; cbn in E |- *.
  - destruct (Append heap s v) as [[h1 s1] r] eqn:A. injection E as <- <-.
    destruct (Append_spec _ _ _ _ _ _ Hwf A) as (l & Hl & -> & _ & HR & _).
    exists l. split; [done|]. unfold contents. rewrite HR, contents_split. f_equal.
    + apply contents_ext. intros l' Hl'. destruct (Range_alloc _ _ _ Hwf Hl') as [w Hw].
      rewrite lookup_insert_ne; [done|]. congruence.
    + cbn. by rewrite lookup_insert_eq.
  - destruct (loadChunk_spec _ _ _ _ _ Hwf E) as (slots & _ & Hsub & Hlen & Hfr & Hval & _ & _ & _ & _ & _ & HR).
    exists (item <$> slots). split_and!; [by apply Forall_fmap|by rewrite length_fmap|].
    unfold contents. rewrite HR, contents_split, (contents_zip _ _ vals) by done. f_equal.
    apply contents_ext. intros l' Hl'. destruct (Range_alloc _ _ _ Hwf Hl') as [w Hw].
    rewrite Hw. by eapply lookup_weaken.
  - destruct (DeleteFunc heap s pred) as [s1 removed] eqn:D. injection E as <- <-.
    destruct (DeleteFunc_spec _ _ _ _ _ Hwf D) as (_ & _ & _ & _ & _ & HR & _).
    unfold contents. rewrite HR, (Range_live _ _ Hwf).
    destruct (contents_filter heap pred (live_slots (concat (chunks s)) (concat (tomb s))))
      as [->|(slot & Hin & Hn)]; [done|].
    apply live_slots_elem in Hin. pose proof (wf_alloc _ _ Hwf) as Ha. rewrite Forall_forall in Ha.
    destruct (Ha _ Hin). congruence.
  - injection E as E. destruct (slot_at s r) as [slot|] eqn:Hs.
    + pose proof (write_slot_spec heap s r v slot Hwf Hs) as Hw. rewrite E in Hw. cbn in Hw.
      destruct Hw as (_ & -> & HR & _). unfold contents. rewrite HR. apply contents_write.
      pose proof (wf_alloc _ _ Hwf) as Ha. rewrite Forall_forall in Ha. by eapply Ha, slot_at_concat.
    + unfold write_slot in E. rewrite Hs in E. by injection E as <- <-.
  - by injection E as <- <-.
  - by injection E as <- <-.
  - by injection E as <- <-.
Qed.

(** One step keeps every slot where it is. *)
Lemma store_step_stable heap s op heap' s' r slot :
  store_wf heap s -> store_step (heap, s) op = Ok (heap', s') -> slot_at s r = Some slot ->
  exists slot', slot_at s' r = Some slot' /\ item slot' = item slot /\ chunk slot' = chunk slot /\
    version slot' = (version slot + zlen (writes_to r [op]))%Z /\
    heap' !! item slot = match last (writes_to r [op]) with Some v => Some v | None => heap !! item slot end.
Proof.
  intros Hwf E Hs.
  assert (is_Some (heap !! item slot)) as [w Hw].
  { pose proof (wf_alloc _ _ Hwf) as Ha. rewrite Forall_forall in Ha. by eapply Ha, slot_at_concat. }
  assert (forall s1, chunks s1 = chunks s -> exists slot', slot_at s1 r = Some slot' /\
    item slot' = item slot /\ chunk slot' = chunk slot /\ version slot' = (version slot + 0)%Z /\
    heap !! item slot = heap !! item slot) as Hsame.
  { intros s1 Hc. exists slot. unfold slot_at. rewrite Hc. split_and!; try done. lia. }
  destruct op as [v|vals|pred|r' v|ci| |idxs]; cbn in E |- *.
  - destruct (Append heap s v) as [[h1 s1] r'] eqn:A. injection E as <- <-.
    destruct (Append_spec _ _ _ _ _ _ Hwf A) as (l & Hl & -> & _ & _ & _ & _ & _ & Hk & _).
    exists slot. rewrite lookup_insert_ne by congruence. split_and!; [by apply Hk|done|done|rewrite zlen_nil; lia|done].
  - destruct (loadChunk_spec _ _ _ _ _ Hwf E) as (slots & _ & Hsub & _ & _ & _ & Hc & _).
    exists slot. split_and!; try done.
    + unfold slot_at. rewrite Hc. by apply slot_at_app.
    + rewrite ?zlen_nil; lia.
    + rewrite Hw. by eapply lookup_weaken.
  - destruct (DeleteFunc heap s pred) as [s1 removed] eqn:D. injection E as <- <-.
    destruct (DeleteFunc_spec _ _ _ _ _ Hwf D) as (Hc & _). by apply Hsame.
  - injection E as E. destruct (slot_at s r') as [slot2|] eqn:Hs2.
    + pose proof (write_slot_spec heap s r' v slot2 Hwf Hs2) as Hws. rewrite E in Hws. cbn in Hws.
      destruct Hws as (_ & -> & _ & Hself & Hother & _). destruct (decide (r' = r)) as [->|Hne].
      * rewrite Hs in Hs2. injection Hs2 as <-. eexists. split; [exact Hself|]. cbn.
        rewrite lookup_insert_eq. split_and!; done.
      * exists slot. rewrite Hother by congruence. cbn. split_and!; try done; [rewrite ?zlen_nil; lia|].
        rewrite lookup_insert_ne; [done|]. intros Ei. apply Hne. by eapply slot_at_inj.
    + unfold write_slot in E. rewrite Hs2 in E. injection E as <- <-.
      destruct (decide (r' = r)) as [->|Hne]; [congruence|]. by apply Hsame.
  - injection E as <- <-. by apply Hsame.
  - injection E as <- <-. by apply Hsame.
  - injection E as <- <-. by apply Hsame.
Qed.

Lemma writes_to_cons r (op : store_op T) ops : writes_to r (op :: ops) = writes_to r [op] ++ writes_to r ops.
Proof. unfold writes_to. rewrite <- omap_app. done. Qed.

Lemma store_step_grows heap s op heap' s' :
  store_wf heap s -> store_step (heap, s) op = Ok (heap', s') -> length (chunks s) <= length (chunks s').
Proof.
  intros Hwf E. destruct op as [v|vals|pred|r v|ci| |idxs]; cbn in E; try (by injection E as <- <-).
  - destruct (Append heap s v) as [[h1 s1] r'] eqn:A. injection E as <- <-. unfold Append in A.
    destruct (open_block_spec heap s Hwf) as (cs & blk & tbs & tb & Hc1 & _ & _ & _ & _ & _ & Hor).
    destruct (new_cell heap v). injection A as _ <- _. cbn. unfold push_at. rewrite length_alter.
    destruct Hor as [->| ->]; [done|]. cbn. rewrite length_app. lia.
  - destruct (loadChunk_spec _ _ _ _ _ Hwf E) as (slots & _ & _ & _ & _ & _ & Hc & _). rewrite Hc, length_app. lia.
  - destruct (DeleteFunc heap s pred) as [s1 removed] eqn:D. injection E as <- <-.
    destruct (DeleteFunc_spec _ _ _ _ _ Hwf D) as (Hc & _). by rewrite Hc.
  - injection E as E. unfold write_slot in E. destruct (slot_at s r); injection E as <- <-; [|done].
    cbn. by rewrite length_alter.
Qed.

(** A block a step leaves clean was clean and is unchanged. *)
Lemma store_step_clean heap s op heap' s' i :
  store_wf heap s -> store_step (heap, s) op = Ok (heap', s') -> clears op = false ->
  i < length (chunks s) -> dirty s' !! i = Some false ->
  dirty s !! i = Some false /\ chunk_values heap' s' i = chunk_values heap s i.
Proof.
  intros Hwf E Hcl Hi Hd.
  assert (forall h1 s1, chunks s1 !! i = chunks s !! i -> tomb s1 !! i = tomb s !! i ->
    (forall slot o, slot_at s (i, o) = Some slot -> h1 !! item slot = heap !! item slot) ->
    chunk_values h1 s1 i = chunk_values heap s i) as Hcv.
  { intros h1 s1 Ec Et Hh. unfold chunk_values. rewrite Ec, Et.
    assert (forall slot, slot ∈ live_slots (default [] (chunks s !! i)) (default [] (tomb s !! i)) ->
      h1 !! item slot = heap !! item slot) as Hin.
    { intros slot Hin. apply live_slots_elem in Hin. destruct (chunks s !! i) eqn:Eb; [|by apply elem_of_nil in Hin].
      cbn in Hin. apply list_elem_of_lookup in Hin as [o Ho]. apply (Hh slot o). unfold slot_at. cbn. by rewrite Eb. }
    revert Hin. generalize (live_slots (default [] (chunks s !! i)) (default [] (tomb s !! i))).
    induction l as [|a l IH]; intros Hin; cbn; [done|]. rewrite Hin by set_solver. rewrite IH; [done|].
    intros; apply Hin; set_solver. }
  assert (Hal : forall slot o, slot_at s (i, o) = Some slot -> is_Some (heap !! item slot)).
  { intros slot o Hs. pose proof (wf_alloc _ _ Hwf) as Ha. rewrite Forall_forall in Ha. by eapply Ha, slot_at_concat. }
  destruct op as [v|vals|pred|r v|ci| |idxs]; cbn in E |- *.
  - destruct (Append heap s v) as [[h1 s1] r'] eqn:A. injection E as <- <-.
    destruct (Append_spec _ _ _ _ _ _ Hwf A) as (l & Hl & -> & Hwf' & _ & _ & _ & _ & Hk & Hcl' & _).
    destruct (Hcl' i Hd) as (? & Hc & Ht). split; [done|].
    apply Hcv; [done|done|]. intros slot o Hs. destruct (Hal _ _ Hs). rewrite lookup_insert_ne; [done|congruence].
  - destruct (loadChunk_spec _ _ _ _ _ Hwf E) as (slots & _ & Hsub & _ & _ & _ & Hc & Ht & Hdd & _).
    rewrite Hdd in Hd. rewrite lookup_app_l in Hd by (rewrite (wf_dirty _ _ Hwf); lia).
    pose proof (Forall2_length _ _ _ (wf_shape _ _ Hwf)). split; [done|].
    apply Hcv; [rewrite Hc, lookup_app_l by lia; done|rewrite Ht, lookup_app_l by lia; done|].
    intros slot o Hs. destruct (Hal _ _ Hs) as [w Hw]. rewrite Hw. by eapply lookup_weaken.
  - destruct (DeleteFunc heap s pred) as [s1 removed] eqn:D. injection E as <- <-.
    destruct (DeleteFunc_spec _ _ _ _ _ Hwf D) as (Hc & _ & _ & _ & _ & _ & _ & _ & Hcl').
    destruct (Hcl' i Hd) as (? & Ht). split; [done|apply Hcv; [by rewrite Hc|done|done]].
  - injection E as E. destruct (slot_at s r) as [slot2|] eqn:Hs2.
    + pose proof (write_slot_spec heap s r v slot2 Hwf Hs2) as Hws. rewrite E in Hws. cbn in Hws.
      destruct Hws as (_ & -> & _ & _ & _ & _ & _ & Ht & _ & Hcl').
      destruct (Hcl' i Hd) as (? & Hc & Hne). split; [done|].
      apply Hcv; [done|by rewrite Ht|]. intros slot o Hs. rewrite lookup_insert_ne; [done|].
      intros Ei. pose proof (slot_at_inj heap s r (i, o) slot2 slot Hwf Hs2 Hs Ei) as ->. done.
    + unfold write_slot in E. rewrite Hs2 in E. injection E as <- <-. done.
  - injection E as <- <-. apply set_dirty_clean in Hd as [? _]. done.
  - injection E as <- <-. cbn in Hd. by apply lookup_replicate in Hd as [? _].
  - done.
Qed.
End lemmas.

(** * Properties *)

(** Every run of store operations from the empty store keeps the store
    well formed: blocks and tombstones have the same shape, no block exceeds
    its 512 slots, the counters [n] and [dead] are the number of slots and of
    tombstones, each slot names its own block and owns its own cell; hence
    [Len()] is the number of live entities. *)
Theorem store_run_invariant {T} (ops : list (store_op T)) heap s :
  run_store ops = Ok (heap, s) -> store_wf heap s /\ Len s = zlen (contents heap s).
Proof.
  intros E. assert (store_wf heap s) as Hwf by (eapply store_run_wf; [apply newChunkStore_wf|exact E]).
  split; [done|]. by rewrite contents_length.
Qed.

Lemma store_run_invariant_witness :
  match run_store sample_ops with
  | Ok (heap, s) => (store_wf heap s /\ Len s = zlen (contents heap s)) /\ Len s = 2%Z
  | _ => False
  end.
Proof.
  destruct (run_store sample_ops) as [[heap s]| |] eqn:E; [|vm_compute in E; discriminate E|vm_compute in E; discriminate E].
  split; [exact (store_run_invariant sample_ops heap s E)|].
  vm_compute in E. injection E as <- <-. reflexivity.
Defined.

(** C24: the store refines a plain list of cells. Whatever blocks, tombstones
    and dirty marks do, an operation changes what the store holds exactly as
    the list specification says, in order. *)
Theorem store_refines_list {T} (heap : gmap loc T) s op heap' s' :
  store_wf heap s -> store_step (heap, s) op = Ok (heap', s') ->
  spec_step heap s op (contents heap s) (contents heap' s').
Proof. apply store_step_spec. Qed.

Lemma store_refines_list_witness :
  match run_store [OpLoad [10; 11]]%Z with
  | Ok (heap, s) =>
      match store_step (heap, s) (OpDelete (Z.eqb 10)) with
      | Ok (heap', s') => contents heap' s' = List.filter (fun p => negb (Z.eqb 10 p.2)) (contents heap s)
      | _ => False
      end
  | _ => False
  end.
Proof.
  destruct (run_store _) as [[heap s]| |] eqn:E; [|vm_compute in E; discriminate E..].
  destruct (store_step (heap, s) _) as [[heap' s']| |] eqn:E2; [|discriminate E2..].
  refine (store_refines_list heap s (OpDelete (Z.eqb 10)) heap' s' _ E2).
  eapply store_run_wf; [apply newChunkStore_wf|exact E].
Defined.

(** C7: pointers are stable. Over any run of operations (appends that open
    new blocks, loads, deletes, writes through other slots) a slot obtained
    earlier stays at its address, keeps its cell and its block, counts in its
    version exactly the writes made through it, and its cell holds the last
    value written through it, or the value it held before. *)
Theorem slots_are_stable {T} (ops : list (store_op T)) heap s heap' s' r slot :
  store_wf heap s -> fold_outcome store_step (heap, s) ops = Ok (heap', s') -> slot_at s r = Some slot ->
  exists slot', slot_at s' r = Some slot' /\ item slot' = item slot /\ chunk slot' = chunk slot /\
    version slot' = (version slot + zlen (writes_to r ops))%Z /\
    heap' !! item slot = match last (writes_to r ops) with Some v => Some v | None => heap !! item slot end.
Proof.
  revert heap s slot. induction ops as [|op ops IH]; intros heap s slot Hwf E Hs.
  { injection E as <- <-. exists slot. split_and!; try done. cbn. rewrite zlen_nil. lia. }
  cbn [fold_outcome] in E. destruct (store_step (heap, s) op) as [[h1 s1]| |] eqn:E1; [|discriminate E..]. cbn [mbind outcome_bind] in E.
  destruct (store_step_stable _ _ _ _ _ _ _ Hwf E1 Hs) as (slot1 & Hs1 & Hi1 & Hc1 & Hv1 & Hh1).
  destruct (IH h1 s1 slot1 (store_step_wf _ _ _ _ _ Hwf E1) E Hs1) as (slot2 & Hs2 & Hi2 & Hc2 & Hv2 & Hh2).
  exists slot2. rewrite writes_to_cons, zlen_app, last_app. split_and!; try done; [congruence|congruence|lia|].
  rewrite Hi1, Hh1 in Hh2. by destruct (last (writes_to r ops)).
Qed.

Lemma slots_are_stable_witness :
  slot_at newChunkStore (0, 0) = None /\
  match run_store (take 2 sample_ops) with
  | Ok (heap, s) =>
      match slot_at s (0, 1), fold_outcome store_step (heap, s) (drop 2 sample_ops) with
      | Some slot, Ok (heap', s') =>
          exists slot', slot_at s' (0, 1) = Some slot' /\ item slot' = item slot /\ chunk slot' = chunk slot /\
            version slot' = (version slot + zlen (writes_to (0, 1)%nat (drop 2 sample_ops)))%Z /\
            heap' !! item slot = match last (writes_to (0, 1)%nat (drop 2 sample_ops)) with
                                 | Some v => Some v | None => heap !! item slot end
      | _, _ => False
      end
  | _ => False
  end.
Proof.
  split; [reflexivity|].
  destruct (run_store (take 2 sample_ops)) as [[heap s]| |] eqn:E; [|vm_compute in E; discriminate E..].
  destruct (slot_at s (0, 1)) as [slot|] eqn:Es; [|vm_compute in E; injection E as <- <-; vm_compute in Es; discriminate Es].
  destruct (fold_outcome store_step (heap, s) (drop 2 sample_ops)) as [[heap' s']| |] eqn:E2;
    [|vm_compute in E; injection E as <- <-; vm_compute in E2; discriminate E2..].
  refine (slots_are_stable (drop 2 sample_ops) heap s heap' s' (0, 1) slot _ E2 Es).
  eapply store_run_wf; [apply newChunkStore_wf|exact E].
Defined.

(** C38: dirty tracking is complete. A block that is clean after a run without
    a [clearDirty] was clean before it and holds the same values, so skipping
    clean blocks in a save loses nothing. *)
Theorem clean_blocks_unchanged {T} (ops : list (store_op T)) heap s heap' s' i :
  store_wf heap s -> fold_outcome store_step (heap, s) ops = Ok (heap', s') ->
  forallb (negb ∘ clears) ops = true -> i < length (chunks s) -> dirty s' !! i = Some false ->
  dirty s !! i = Some false /\ chunk_values heap' s' i = chunk_values heap s i.
Proof.
  revert heap s. induction ops as [|op ops IH]; intros heap s Hwf E Hcl Hi Hd.
  { by injection E as <- <-. }
  cbn [fold_outcome] in E. cbn in Hcl. apply andb_true_iff in Hcl as [Hop Hcl]. apply negb_true_iff in Hop.
  destruct (store_step (heap, s) op) as [[h1 s1]| |] eqn:E1; [|discriminate E..]. cbn [mbind outcome_bind] in E.
  pose proof (store_step_wf _ _ _ _ _ Hwf E1) as Hwf1.
  assert (length (chunks s) <= length (chunks s1)) as Hge.
  { eapply store_step_grows; [exact Hwf|exact E1]. }
  destruct (IH h1 s1 Hwf1 E Hcl ltac:(lia) Hd) as [Hd1 ->].
  destruct (store_step_clean _ _ _ _ _ i Hwf E1 Hop Hi Hd1) as (? & ?). done.
Qed.

Lemma clean_blocks_unchanged_witness :
  match run_store [OpLoad [1; 2]; OpLoad [3]]%Z with
  | Ok (heap, s) =>
      match fold_outcome store_step (heap, s) [OpWrite (1, 0)%nat 4%Z; OpAppend 5%Z] with
      | Ok (heap', s') => dirty s !! 0 = Some false /\ chunk_values heap' s' 0 = chunk_values heap s 0
      | _ => False
      end
  | _ => False
  end.
Proof.
  destruct (run_store _) as [[heap s]| |] eqn:E; [|vm_compute in E; discriminate E..].
  destruct (fold_outcome store_step (heap, s) _) as [[heap' s']| |] eqn:E2;
    [|vm_compute in E; injection E as <- <-; vm_compute in E2; discriminate E2..].
  refine (clean_blocks_unchanged _ heap s heap' s' 0 _ E2 eq_refl _ _).
  - eapply store_run_wf; [apply newChunkStore_wf|exact E].
  - vm_compute in E. injection E as <- <-. cbn. lia.
  - vm_compute in E. injection E as <- <-. vm_compute in E2. by injection E2 as <- <-.
Defined.
