(* ===== verification/RelationSchema.v ===== *)
(** * The relation schema (src/relations.go, lines 11-360, and
      [isScalarKey] of src/schema.go)

    The grammar of [rel:"role,field"] tags, the checks on one field, and the
    walk over the type graph that a [Register] makes: every reachable type is
    parsed and validated, and mandatory ownership edges must be acyclic. A
    struct type is named; [types] maps the names to their declarations. *)
From Stdlib Require Import Ascii.
From S2P Require Import Prelude GoReflect.

(** ** Data *)

Inductive relationKind := ownRelation | ownedByRelation | borrowRelation | optionRelation | inverseRelation.
#[export] Instance relationKind_eq_dec : EqDecision relationKind.
Proof. solve_decision. Defined.

Record relationSpec := {
  owner : string;
  fieldIndex : nat;
  fieldName : string;
  target : string;
  kind : relationKind;
  matchField : string;
  many : bool;
}.
#[export] Instance relationSpec_eq_dec : EqDecision relationSpec.
Proof. solve_decision. Defined.

(** [To] is the target type, whose root is in the builder's [roots]. *)
Record relationPoint := {
  FieldName : string;
  FieldType : string;
  Field : string;
  Many : bool;
  RelationType : relationKind;
  To : string;
}.
Record relationRoot := { Type_ : string; Children : list relationPoint }.

(** ** Strings *)

(** [strings.Split(s, ",")]. *)
Fixpoint split_comma (s : string) : list string :=
  match s with
  | EmptyString => [EmptyString]
  | String c rest =>
      if decide (c = ","%char) then EmptyString :: split_comma rest
      else match split_comma rest with
           | [] => [String c EmptyString]
           | part :: parts => String c part :: parts
           end
  end.

(** [strings.TrimSpace] on ASCII text. *)
Definition is_space (c : ascii) : bool :=
  bool_decide (c ∈ [" "; "009"; "010"; "011"; "012"; "013"]%char).
Fixpoint trim_left (s : string) : string :=
  match s with
  | String c rest => if is_space c then trim_left rest else s
  | EmptyString => EmptyString
  end.
Fixpoint trim_right (s : string) : string :=
  match s with
  | EmptyString => EmptyString
  | String c rest =>
      match trim_right rest with
      | EmptyString => if is_space c then EmptyString else String c EmptyString
      | rest' => String c rest'
      end
  end.
Definition TrimSpace (s : string) : string := trim_right (trim_left s).

(** ** One field *)

Definition isScalarKey (t : gotype) : bool :=
  match t with
  | TBasic _ (KString | KInt | KInt8 | KInt16 | KInt32 | KInt64
             | KUint | KUint8 | KUint16 | KUint32 | KUint64) => true
  | _ => false
  end.

Definition is_pointer (t : gotype) : bool := match t with TPointer _ => true | _ => false end.

Section schema.
Context (types : typeEnv).

(** [(target, many, ok)]; the target is meaningful only when [ok] holds. *)
Definition relationTarget (t : gotype) : string * bool * bool :=
  let isStruct name := match types !! name with Some _ => true | None => false end in
  match t with
  | TPointer name => (name, false, isStruct name)
  | TSlice (TPointer name) => (name, true, isStruct name)
  | _ => (EmptyString, false, false)
  end.

Definition isEntityType (name : string) : bool :=
  match types !! name with Some d => is_entity d | None => false end.

Definition parse_kind (s : string) : option relationKind :=
  if decide (s = "own")%string then Some ownRelation
  else if decide (s = "ownedby")%string then Some ownedByRelation
  else if decide (s = "borrow")%string then Some borrowRelation
  else if decide (s = "option")%string then Some optionRelation
  else if decide (s = "inverse")%string then Some inverseRelation
  else None.

(** [None] is [(relationSpec{}, false, nil)]: not a relation field. *)
Definition parseRelationField (own : string) (index : nat) (f : structField) : outcome (option relationSpec) :=
  let '(tgt, many, relationShape) := relationTarget (ftype f) in
  match tag_lookup "rel" (tag f) with
  | None => if relationShape && isEntityType tgt then Fail ErrRelationSchema else Ok None
  | Some raw =>
      when negb relationShape => Fail ErrRelationSchema ;;
      when negb (isEntityType tgt) => Fail ErrRelationSchema ;;
      match split_comma raw with
      | [p0; p1] =>
          when bool_decide (TrimSpace p0 = EmptyString) || bool_decide (TrimSpace p1 = EmptyString) =>
            Fail ErrRelationSchema ;;
          match parse_kind (TrimSpace p0) with
          | None => Fail ErrRelationSchema
          | Some kind =>
              when bool_decide (kind = ownedByRelation) && many => Fail ErrRelationSchema ;;
              when bool_decide (kind = inverseRelation) && negb many => Fail ErrRelationSchema ;;
              Ok (Some {| owner := own; fieldIndex := index; fieldName := fname f; target := tgt;
                          kind := kind; matchField := TrimSpace p1; many := many |})
          end
      | _ => Fail ErrRelationSchema
      end
  end.

(** The loop over the fields of a struct. *)
Fixpoint parseFields (own : string) (index : nat) (fs : list structField) : outcome (list relationSpec) :=
  match fs with
  | [] => Ok []
  | f :: rest =>
      r ← parseRelationField own index f;
      out ← parseFields own (S index) rest;
      Ok (match r with Some spec => spec :: out | None => out end)
  end.

Definition relationSpecs (t : string) : outcome (list relationSpec) :=
  match types !! t with
  | None => Fail ErrRelationSchema
  | Some d => parseFields t 0 (fields d)
  end.

(** [relationSpecsCache]: the sync.Map in front of [relationSpecs]. *)
Definition relationSpecs_cached (cache : gmap string (outcome (list relationSpec))) (t : string) :
    gmap string (outcome (list relationSpec)) * outcome (list relationSpec) :=
  match cache !! t with
  | Some result => (cache, result)
  | None => (<[t := relationSpecs t]> cache, relationSpecs t)
  end.

Definition validateScalarMatchField (field : structField) : outcome unit :=
  when negb (isScalarKey (ftype field)) => Fail ErrRelationSchema ;; Ok tt.

Definition validateOwnBackField (r : relationSpec) (index : nat) (back : structField) : outcome unit :=
  if negb (is_pointer (ftype back)) then
    when isScalarKey (ftype back) => Ok tt ;; Fail ErrRelationSchema
  else
    complement ← parseRelationField (target r) index back;
    match complement with
    | Some c => when bool_decide (kind c = ownedByRelation) && bool_decide (target c = owner r) => Ok tt ;;
                Fail ErrRelationSchema
    | None => Fail ErrRelationSchema
    end.

Definition validateInverseBackField (r : relationSpec) (index : nat) (back : structField) : outcome unit :=
  complement ← parseRelationField (target r) index back;
  match complement with
  | Some c =>
      let validKind := bool_decide (kind c = borrowRelation) || bool_decide (kind c = optionRelation) in
      when validKind && bool_decide (target c = owner r) => Ok tt ;; Fail ErrRelationSchema
  | None => Fail ErrRelationSchema
  end.

Definition validateRelationSpec (r : relationSpec) : outcome unit :=
  match types !! target r ≫= fun d => FieldByName d (matchField r) with
  | None => Fail ErrRelationSchema
  | Some (index, back) =>
      if negb (many r) ||
         (negb (bool_decide (kind r = ownRelation)) && negb (bool_decide (kind r = inverseRelation)))
      then validateScalarMatchField back
      else if bool_decide (kind r = ownRelation) then validateOwnBackField r index back
      else validateInverseBackField r index back
  end.

Definition countRelationKind (specs : list relationSpec) (k : relationKind) : nat :=
  length (List.filter (fun spec => bool_decide (kind spec = k)) specs).

(** ** The walk over the type graph *)

Record relationSchemaBuilder := {
  roots : gmap string relationRoot;
  specsByType : gmap string (list relationSpec);
}.
Definition newRelationSchemaBuilder : relationSchemaBuilder := {| roots := ∅; specsByType := ∅ |}.

Definition add_child (b : relationSchemaBuilder) (t : string) (p : relationPoint) : relationSchemaBuilder :=
  {| roots := alter (fun r => {| Type_ := Type_ r; Children := Children r ++ [p] |}) t (roots b);
     specsByType := specsByType b |}.

(** [buildPoint], with the recursive call to [visit] as an argument. *)
Definition buildPoint (visit : relationSchemaBuilder -> string -> outcome relationSchemaBuilder)
    (b : relationSchemaBuilder) (spec : relationSpec) : outcome (relationSchemaBuilder * relationPoint) :=
  _ ← validateRelationSpec spec;
  b ← visit b (target spec);
  Ok (b, {| FieldName := fieldName spec; FieldType := target spec; Field := matchField spec;
            Many := many spec; RelationType := kind spec; To := target spec |}).

(** [fuel] bounds the depth of the recursion, which only enters types without
    a root: the number of declared types is enough. *)
Fixpoint visit (fuel : nat) (b : relationSchemaBuilder) (t : string) : outcome relationSchemaBuilder :=
  match roots b !! t with
  | Some _ => Ok b
  | None =>
      match fuel with
      | O => Panic
      | S fuel =>
          let b := {| roots := <[t := {| Type_ := t; Children := [] |}]> (roots b);
                      specsByType := specsByType b |} in
          specs ← relationSpecs t;
          let b := {| roots := roots b; specsByType := <[t := specs]> (specsByType b) |} in
          when (1 <? countRelationKind specs ownedByRelation)%nat => Fail ErrRelationSchema ;;
          fold_outcome (fun b spec =>
            r ← buildPoint (visit fuel) b spec; Ok (add_child r.1 t r.2)) b specs
      end
  end.

Definition isRequiredTypeEdge (spec : relationSpec) (k : relationKind) : bool :=
  when negb (bool_decide (kind spec = k)) => false ;;
  negb (bool_decide (k = ownRelation)) || negb (many spec).

(** The colours of the depth-first search: [1] on the stack, [2] done. *)
Fixpoint visitRequiredType (specsOf : gmap string (list relationSpec)) (k : relationKind) (fuel : nat)
    (state : gmap string nat) (t : string) : outcome (gmap string nat) :=
  match state !! t with
  | Some 1 => Fail ErrRelationSchema
  | Some 2 => Ok state
  | _ =>
      match fuel with
      | O => Panic
      | S fuel =>
          state ← fold_outcome (fun state spec =>
              when negb (isRequiredTypeEdge spec k) => Ok state ;;
              visitRequiredType specsOf k fuel state (target spec))
            (<[t := 1]> state) (default [] (specsOf !! t));
          Ok (<[t := 2]> state)
      end
  end.

Definition validateRequiredCycles `{!MapOrder string} (b : relationSchemaBuilder) (k : relationKind) :
    outcome (gmap string nat) :=
  fold_outcome (fun state p => visitRequiredType (specsByType b) k (S (size types)) state p.1)
    ∅ (map_range (specsByType b)).

Definition buildRelationSchema `{!MapOrder string} (root : string) : outcome (relationSchemaBuilder) :=
  b ← visit (S (size types)) newRelationSchemaBuilder root;
  _ ← validateRequiredCycles b ownedByRelation;
  _ ← validateRequiredCycles b ownRelation;
  Ok b.

End schema.

(** ** Specification *)

Definition role_name (k : relationKind) : string :=
  match k with
  | ownRelation => "own" | ownedByRelation => "ownedby" | borrowRelation => "borrow"
  | optionRelation => "option" | inverseRelation => "inverse"
  end.

Fixpoint has_comma (s : string) : bool :=
  match s with EmptyString => false | String c rest => bool_decide (c = ","%char) || has_comma rest end.

(** The combinations of role and cardinality the grammar allows. *)
Definition shape_allowed (k : relationKind) (m : bool) : bool :=
  match k with ownedByRelation => negb m | inverseRelation => m | _ => true end.

(** A cache that only holds what [relationSpecs] computes. *)
Definition cache_coherent (types : typeEnv) (cache : gmap string (outcome (list relationSpec))) : Prop :=
  forall t result, cache !! t = Some result -> result = relationSpecs types t.

(** Types of the examples: users own profiles and posts, posts borrow tags. *)
Definition id_field : structField :=
  {| fname := "Id"; ftype := TBasic "int" KInt; exported := true; tag := [] |}.
Definition rel_field (name : string) (t : gotype) (r : string) : structField :=
  {| fname := name; ftype := t; exported := true; tag := [("rel", r)]%string |}.
Definition entity (fs : list structField) : structDef := {| fields := id_field :: fs; is_entity := true |}.
Definition sample_types : typeEnv :=
  list_to_map [("User", entity [rel_field "Profile" (TPointer "Profile") "own,Id";
                                rel_field "Posts" (TSlice (TPointer "Post")) "own,User"]);
               ("Profile", entity [rel_field "User" (TPointer "User") "ownedby,Id"]);
               ("Post", entity [rel_field "User" (TPointer "User") "ownedby,Id";
                                rel_field "Tag" (TPointer "Tag") " borrow , Id "]);
               ("Tag", entity [rel_field "Posts" (TSlice (TPointer "Post")) "inverse,Tag"]);
               ("Node", entity [rel_field "Next" (TPointer "Node") "own,Id"]);
               ("Tree", entity [rel_field "Kids" (TSlice (TPointer "Tree")) "own,Parent";
                                {| fname := "Parent"; ftype := TBasic "int" KInt; exported := true; tag := [] |}])]%string.

Section specification.
Context (types : typeEnv).

(** The declared relation edges of the type graph. *)
Definition type_edge (t u : string) : Prop :=
  exists specs spec, relationSpecs types t = Ok specs /\ spec ∈ specs /\ target spec = u.

(** Edges that demand an instance of the target for every instance of [t]. *)
Definition required_edge (k : relationKind) (t u : string) : Prop :=
  exists specs spec, relationSpecs types t = Ok specs /\ spec ∈ specs /\ target spec = u /\
    isRequiredTypeEdge spec k = true.

(** The rules a single type obeys (I1, I2 and the one-owner half of I3). *)
Definition type_valid (t : string) : Prop :=
  exists specs, relationSpecs types t = Ok specs /\ countRelationKind specs ownedByRelation <= 1 /\
    Forall (fun spec => validateRelationSpec types spec = Ok tt) specs.

Record schema_ok (root : string) : Prop := {
  schema_types : forall t, rtc type_edge root t -> type_valid t;
  schema_acyclic : forall t k, rtc type_edge root t -> k = ownedByRelation \/ k = ownRelation ->
    ~ tc (required_edge k) t t;
}.
End specification.

(** ** The rules, read off the declarations *)

Section rules.
Context (types : typeEnv).

(** [raw] is [role,field], with spaces allowed around either. *)
Definition tag_says (raw : string) (k : relationKind) (field : string) : Prop :=
  exists raw_role raw_field, raw = raw_role +:+ "," +:+ raw_field /\
    has_comma raw_role = false /\ has_comma raw_field = false /\
    TrimSpace raw_role = role_name k /\ TrimSpace raw_field = field /\ field <> EmptyString.

Definition points_to (t : gotype) (m : bool) (tgt : string) : Prop :=
  t = if m then TSlice (TPointer tgt) else TPointer tgt.
Definition entity_type (t : string) : Prop := exists d, types !! t = Some d /\ is_entity d = true.
Definition scalar_key (t : gotype) : Prop :=
  exists name k, t = TBasic name k /\
    k ∈ [KString; KInt; KInt8; KInt16; KInt32; KInt64; KUint; KUint8; KUint16; KUint32; KUint64].

(** Field [i] of type [t] declares the relation [p]. *)
Definition declares (t : string) (i : nat) (p : relationPoint) : Prop :=
  exists d f raw, types !! t = Some d /\ fields d !! i = Some f /\ tag_lookup "rel" (tag f) = Some raw /\
    tag_says raw (RelationType p) (Field p) /\
    points_to (ftype f) (Many p) (To p) /\ entity_type (To p) /\
    (RelationType p = ownedByRelation -> Many p = false) /\
    (RelationType p = inverseRelation -> Many p = true) /\
    FieldName p = fname f /\ FieldType p = To p.

(** Every tagged field declares a relation, no untagged one is a pointer or
    pointer slice to an entity. *)
Definition fields_rule (t : string) : Prop :=
  exists d, types !! t = Some d /\ forall i f, fields d !! i = Some f ->
    match tag_lookup "rel" (tag f) with
    | Some _ => exists p, declares t i p
    | None => forall m tgt, points_to (ftype f) m tgt -> ~ entity_type tgt
    end.

(** The target has the field the relation names: a scalar key, except that an
    own slice may name the [ownedby] pointer back to [t] and an inverse names
    a [borrow] or [option] relation to [t]. *)
Definition match_rule (t : string) (p : relationPoint) : Prop :=
  exists d j back, types !! To p = Some d /\ FieldByName d (Field p) = Some (j, back) /\
    match RelationType p, Many p with
    | ownRelation, true =>
        scalar_key (ftype back) \/ exists q, declares (To p) j q /\ RelationType q = ownedByRelation /\ To q = t
    | inverseRelation, true =>
        exists q, declares (To p) j q /\ (RelationType q = borrowRelation \/ RelationType q = optionRelation) /\ To q = t
    | _, _ => scalar_key (ftype back)
    end.

Definition one_owner_rule (t : string) : Prop :=
  forall i j p q, declares t i p -> declares t j q ->
    RelationType p = ownedByRelation -> RelationType q = ownedByRelation -> i = j.

Definition refers_to (t u : string) : Prop := exists i p, declares t i p /\ To p = u.
(** An instance of [t] demands an owner, or a child, of type [u]. *)
Definition needs_owner (t u : string) : Prop :=
  exists i p, declares t i p /\ RelationType p = ownedByRelation /\ To p = u.
Definition needs_child (t u : string) : Prop :=
  exists i p, declares t i p /\ RelationType p = ownRelation /\ Many p = false /\ To p = u.

Definition schema_rules (root : string) : Prop :=
  forall t, rtc refers_to root t ->
    fields_rule t /\ (forall i p, declares t i p -> match_rule t p) /\ one_owner_rule t /\
    ~ tc needs_owner t t /\ ~ tc needs_child t t.
End rules.

(** * Lemmas *)

(** ** Acyclicity and accessibility *)

Lemma acc_no_cycle {A} (E : A -> A -> Prop) x : Acc (fun y x => E x y) x -> ~ tc E x x.
Proof.
  induction 1 as [x _ IH]. intros Hc. inversion Hc as [? y Hxy|? y z Hxy Hyx]; subst.
  - exact (IH x Hxy Hc).
  - apply (IH y Hxy). eapply tc_r; eauto.
Qed.

Section schema_lemmas.
Context (types : typeEnv).

Lemma parseRelationField_cases own index f :
  (exists r, parseRelationField types own index f = Ok r) \/
  parseRelationField types own index f = Fail ErrRelationSchema.
Proof.
  unfold parseRelationField. destruct (relationTarget types (ftype f)) as [[tgt m] shape].
  repeat case_match; eauto.
Qed.

Lemma relationSpecs_cases t :
  (exists specs, relationSpecs types t = Ok specs) \/ relationSpecs types t = Fail ErrRelationSchema.
Proof.
  unfold relationSpecs. destruct (types !! t) as [d|]; [|by right].
  generalize 0. induction (fields d) as [|f fs IH]; intros i; cbn; [by left; eexists|].
  destruct (parseRelationField_cases t i f) as [[r ->]|E]; [|right; by rewrite E].
  cbn. destruct (IH (S i)) as [[out E]|E]; rewrite E; cbn; eauto.
Qed.

Lemma validateRelationSpec_cases r :
  validateRelationSpec types r = Ok tt \/ validateRelationSpec types r = Fail ErrRelationSchema.
Proof.
  unfold validateRelationSpec, validateScalarMatchField, validateOwnBackField, validateInverseBackField.
  destruct (types !! target r ≫= _) as [[i back]|]; [|by right].
  destruct (parseRelationField_cases (target r) i back) as [[c ->]|E]; [|rewrite E];
    cbn; repeat case_match; auto.
Qed.

(** What a successful parse says of the field. *)
Lemma parseRelationField_sound own i f r :
  parseRelationField types own i f = Ok (Some r) ->
  owner r = own /\ fieldIndex r = i /\ fieldName r = fname f /\
  relationTarget types (ftype f) = (target r, many r, true) /\ isEntityType types (target r) = true /\
  shape_allowed (kind r) (many r) = true.
Proof.
  unfold parseRelationField. destruct (relationTarget types (ftype f)) as [[tgt m] shape].
  destruct (tag_lookup "rel" (tag f)); [|by destruct (_ && _)].
  destruct shape; [|done]. destruct (isEntityType types tgt) eqn:He; [|done]. cbn [negb].
  destruct (split_comma s) as [|p0 [|p1 [|? ?]]]; try done.
  destruct (_ || _); [done|]. destruct (parse_kind (TrimSpace p0)) as [k|]; [|done].
  destruct k, m; cbn; try done; intros [= <-]; done.
Qed.

Lemma parseFields_sound own i fs specs r :
  parseFields types own i fs = Ok specs -> r ∈ specs ->
  exists j f, fs !! j = Some f /\ parseRelationField types own (i + j) f = Ok (Some r).
Proof.
  revert i specs. induction fs as [|f fs IH]; intros i specs E Hr; cbn in E.
  { injection E as <-. by apply not_elem_of_nil in Hr. }
  destruct (parseRelationField types own i f) as [o| |] eqn:Ep; cbn in E; [|done|done].
  destruct (parseFields types own (S i) fs) as [out| |] eqn:Eo; cbn in E; [|done|done].
  assert (Hrest : r ∈ out -> exists j g, (f :: fs) !! j = Some g /\ parseRelationField types own (i + j) g = Ok (Some r)).
  { intros Ho. destruct (IH _ _ Eo Ho) as (j & g & Hg & Hp). exists (S j), g. split; [done|].
    by rewrite Nat.add_succ_r. }
  destruct o as [spec|]; injection E as <-; [|by apply Hrest].
  apply elem_of_cons in Hr as [->|Hr]; [|by apply Hrest].
  exists 0, f. by rewrite Nat.add_0_r.
Qed.

Lemma relationSpecs_declared t specs : relationSpecs types t = Ok specs -> t ∈ dom types.
Proof. unfold relationSpecs. destruct (types !! t) eqn:E; [|done]. intros _. by apply elem_of_dom. Qed.

(** ** The walk *)

(** The point [buildPoint] makes of a spec. *)
Definition point_of (spec : relationSpec) : relationPoint :=
  {| FieldName := fieldName spec; FieldType := target spec; Field := matchField spec;
     Many := many spec; RelationType := kind spec; To := target spec |}.

(** A type the walk has finished with: its specs are valid and recorded, its
    root lists a point per spec, and the targets have roots. *)
Record type_done (b : relationSchemaBuilder) (u : string) (specs : list relationSpec) : Prop := {
  done_specs : relationSpecs types u = Ok specs;
  done_count : countRelationKind specs ownedByRelation <= 1;
  done_valid : Forall (fun spec => validateRelationSpec types spec = Ok tt) specs;
  done_recorded : specsByType b !! u = Some specs;
  done_root : roots b !! u = Some {| Type_ := u; Children := point_of <$> specs |};
  done_targets : Forall (fun spec => is_Some (roots b !! target spec)) specs;
}.

(** What one call of [visit] does to the builder. *)
Record visited (b b' : relationSchemaBuilder) (from : string -> Prop) : Prop := {
  visited_roots : forall u, is_Some (roots b !! u) -> roots b' !! u = roots b !! u /\
                                                 specsByType b' !! u = specsByType b !! u;
  visited_new : forall u, roots b !! u = None -> is_Some (roots b' !! u) ->
    exists specs, type_done b' u specs /\ from u;
  visited_specs : forall u, is_Some (specsByType b' !! u) ->
    is_Some (specsByType b !! u) \/ is_Some (roots b' !! u);
}.

Lemma visited_refl b from : visited b b from.
Proof. constructor; [done| |by left]. intros u E [? ?]. congruence. Qed.

Lemma type_done_mono b b' from u specs :
  visited b b' from -> type_done b u specs -> type_done b' u specs.
Proof.
  intros V [H1 H2 H3 H4 H5 H6]. destruct (visited_roots _ _ _ V u) as [E1 E2]; [eauto|].
  constructor; [done|done|done|congruence|congruence|].
  eapply Forall_impl; [exact H6|]. intros spec Hs.
  destruct (visited_roots _ _ _ V (target spec) Hs) as [-> _]. done.
Qed.

Lemma visited_trans b1 b2 b3 from1 from2 (from : string -> Prop) :
  visited b1 b2 from1 -> visited b2 b3 from2 ->
  (forall u, from1 u -> from u) -> (forall u, from2 u -> from u) -> visited b1 b3 from.
Proof.
  intros V12 V23 F1 F2. constructor.
  - intros u Hu. destruct (visited_roots _ _ _ V12 u Hu) as [E1 E2].
    destruct (visited_roots _ _ _ V23 u) as [E3 E4]; [by rewrite E1|]. split; congruence.
  - intros u Hn Hs. destruct (roots b2 !! u) as [r|] eqn:E.
    + destruct (visited_new _ _ _ V12 u Hn) as (specs & Hd & Hf); [eauto|].
      exists specs. split; [|auto]. by eapply type_done_mono.
    + destruct (visited_new _ _ _ V23 u E Hs) as (specs & Hd & Hf). eauto.
  - intros u Hs. destruct (visited_specs _ _ _ V23 u Hs) as [H|H]; [|by right].
    destruct (visited_specs _ _ _ V12 u H) as [?|[r Hr]]; [by left|right].
    destruct (visited_roots _ _ _ V23 u) as [-> _]; eauto.
Qed.

(** The undeclared work left: declared types without a root. *)
Definition unvisited (b : relationSchemaBuilder) : nat := size (dom types ∖ dom (roots b)).

Lemma unvisited_mono b b' from : visited b b' from -> unvisited b' <= unvisited b.
Proof.
  intros V. unfold unvisited. apply subseteq_size. intros u. rewrite !elem_of_difference, !elem_of_dom.
  intros [Ht Hn]. split; [done|]. intros Hb. apply Hn.
  destruct (visited_roots _ _ _ V u Hb) as [-> _]. done.
Qed.

(** The verdict of a walk from [from]: it never runs out of fuel, an error
    names an invalid type it reached. *)
Definition walk_result (b : relationSchemaBuilder) (ts : list string) (from : string -> Prop)
    (r : outcome relationSchemaBuilder) : Prop :=
  match r with
  | Ok b' => visited b b' from /\ Forall (fun t => is_Some (roots b' !! t)) ts
  | Fail e => e = ErrRelationSchema /\ exists u, from u /\ ~ type_valid types u
  | Panic => False
  end.

(** The loop over the specs of [t]: [pre] is done, the root of [t] lists it. *)
Record loop_inv (b : relationSchemaBuilder) (t : string) (specs pre : list relationSpec)
    (b2 : relationSchemaBuilder) : Prop := {
  loop_root : roots b2 !! t = Some {| Type_ := t; Children := point_of <$> pre |};
  loop_recorded : specsByType b2 !! t = Some specs;
  loop_old : forall u, is_Some (roots b !! u) -> roots b2 !! u = roots b !! u /\
                                            specsByType b2 !! u = specsByType b !! u;
  loop_new : forall u, u <> t -> roots b !! u = None -> is_Some (roots b2 !! u) ->
    exists specs', type_done b2 u specs' /\ rtc (type_edge types) t u;
  loop_specs : forall u, is_Some (specsByType b2 !! u) ->
    is_Some (specsByType b !! u) \/ is_Some (roots b2 !! u);
  loop_valid : Forall (fun spec => validateRelationSpec types spec = Ok tt) pre;
  loop_targets : Forall (fun spec => is_Some (roots b2 !! target spec)) pre;
}.

Lemma add_child_roots b t p u : is_Some (roots (add_child b t p) !! u) <-> is_Some (roots b !! u).
Proof.
  cbn. destruct (decide (t = u)) as [->|]; [|by rewrite lookup_alter_ne].
  rewrite lookup_alter_eq, fmap_is_Some. done.
Qed.

Lemma loop_step b t specs pre spec b2 b3 :
  relationSpecs types t = Ok specs -> spec ∈ specs -> roots b !! t = None ->
  loop_inv b t specs pre b2 -> validateRelationSpec types spec = Ok tt ->
  visited b2 b3 (rtc (type_edge types) (target spec)) -> is_Some (roots b3 !! target spec) ->
  loop_inv b t specs (pre ++ [spec]) (add_child b3 t (point_of spec)).
Proof.
  intros Hs Hin Hnone L Hval V Htgt.
  assert (Hedge : rtc (type_edge types) t (target spec)) by (apply rtc_once; exists specs, spec; done).
  destruct (visited_roots _ _ _ V t) as [Er Es]; [rewrite (loop_root _ _ _ _ _ L); eauto|].
  assert (Hdone : forall u specs', u <> t -> type_done b3 u specs' ->
    type_done (add_child b3 t (point_of spec)) u specs').
  { intros u specs' Hne [H1 H2 H3 H4 H5 H6]. constructor; try done.
    - cbn. by rewrite lookup_alter_ne.
    - eapply Forall_impl; [exact H6|]. intros sp. by rewrite add_child_roots. }
  constructor.
  - cbn. rewrite lookup_alter_eq, Er, (loop_root _ _ _ _ _ L). cbn. by rewrite fmap_app.
  - cbn. rewrite Es. apply (loop_recorded _ _ _ _ _ L).
  - intros u Hu. cbn. assert (u <> t) by (intros ->; destruct Hu; congruence).
    rewrite lookup_alter_ne by done. destruct (loop_old _ _ _ _ _ L u Hu) as [E1 E2].
    destruct (visited_roots _ _ _ V u) as [E3 E4]; [by rewrite E1|]. split; congruence.
  - intros u Hne Hn Hu. apply add_child_roots in Hu. destruct (roots b2 !! u) as [r|] eqn:E2.
    + destruct (loop_new _ _ _ _ _ L u Hne Hn) as (specs' & Hd & Hf); [eauto|].
      exists specs'. split; [|done]. apply Hdone; [done|]. by eapply type_done_mono.
    + destruct (visited_new _ _ _ V u E2 Hu) as (specs' & Hd & Hf).
      exists specs'. split; [by apply Hdone|]. by etransitivity.
  - intros u Hu. rewrite add_child_roots. cbn in Hu.
    destruct (visited_specs _ _ _ V u Hu) as [H|H]; [|by right].
    destruct (loop_specs _ _ _ _ _ L u H) as [?|[r Hr]]; [by left|right].
    destruct (visited_roots _ _ _ V u) as [-> _]; eauto.
  - apply Forall_app. split; [apply (loop_valid _ _ _ _ _ L)|]. by constructor.
  - apply Forall_app. split; [|constructor; [by apply add_child_roots|constructor]].
    eapply Forall_impl; [apply (loop_targets _ _ _ _ _ L)|]. intros sp Hsp.
    apply add_child_roots. destruct (visited_roots _ _ _ V _ Hsp) as [-> _]. done.
Qed.

Lemma visit_spec fuel b t :
  unvisited b < fuel -> walk_result b [t] (rtc (type_edge types) t) (visit types fuel b t).
Proof.
  revert b t. induction fuel as [|fuel IH]; intros b t Hfuel; [lia|]. cbn [visit].
  destruct (roots b !! t) as [r|] eqn:Er.
  { split; [apply visited_refl|]. constructor; [eauto|constructor]. }
  destruct (relationSpecs_cases t) as [[specs Hs]|Hs]; rewrite Hs; cbn [mbind outcome_bind roots specsByType].
  2:{ split; [done|]. exists t. split; [done|]. intros (specs & E & _). congruence. }
  destruct (Nat.ltb_spec 1 (countRelationKind specs ownedByRelation)) as [Hc|Hc].
  { split; [done|]. exists t. split; [done|]. intros (specs' & E & Hc' & _).
    assert (specs' = specs) as -> by congruence. lia. }
  set (b1 := {| roots := <[t := {| Type_ := t; Children := [] |}]> (roots b);
                specsByType := <[t := specs]> (specsByType b) |}).
  assert (Hun : unvisited b1 < fuel).
  { assert (unvisited b1 < unvisited b); [|lia]. unfold unvisited. apply subset_size. subst b1. cbn.
    pose proof (relationSpecs_declared _ _ Hs). rewrite dom_insert_L.
    assert (t ∉ dom (roots b)) by by apply not_elem_of_dom. set_solver. }
  assert (L1 : loop_inv b t specs [] b1).
  { constructor; subst b1; cbn; [by rewrite lookup_insert_eq|by rewrite lookup_insert_eq| | | |constructor|constructor].
    - intros u Hu. rewrite !lookup_insert_ne; [done|intros ->; destruct Hu; congruence..].
    - intros u Hne Hn [r Hr]. rewrite lookup_insert_ne in Hr by done. congruence.
    - intros u. rewrite !lookup_insert_is_Some'. naive_solver. }
  assert (Hloop : forall suf pre b2, specs = pre ++ suf -> loop_inv b t specs pre b2 -> unvisited b2 < fuel ->
    match fold_outcome (fun b spec => r ← buildPoint types (visit types fuel) b spec;
                                      Ok (add_child r.1 t r.2)) b2 suf with
    | Ok b' => loop_inv b t specs specs b'
    | Fail e => e = ErrRelationSchema /\ exists u, rtc (type_edge types) t u /\ ~ type_valid types u
    | Panic => False
    end).
  { induction suf as [|spec suf IHs]; intros pre b2 E L Hu; cbn [fold_outcome].
    { rewrite app_nil_r in E. by subst pre. }
    assert (Hin : spec ∈ specs) by (rewrite E; set_solver).
    assert (buildPoint types (visit types fuel) b2 spec =
            (_ ← validateRelationSpec types spec; b ← visit types fuel b2 (target spec); Ok (b, point_of spec)))
      as -> by done.
    destruct (validateRelationSpec_cases spec) as [Hv|Hv]; rewrite Hv; cbn [mbind outcome_bind].
    2:{ split; [done|]. exists t. split; [done|]. intros (specs' & E' & _ & Hall).
        assert (specs' = specs) as -> by congruence. rewrite Forall_forall in Hall.
        specialize (Hall _ Hin). congruence. }
    specialize (IH b2 (target spec) Hu). unfold walk_result in IH.
    destruct (visit types fuel b2 (target spec)) as [b3|e|]; cbn [mbind outcome_bind fst snd]; [| |done].
    - destruct IH as [V Ht]. apply Forall_cons in Ht as [Ht _].
      apply (IHs (pre ++ [spec])).
      + by rewrite <- app_assoc.
      + by eapply loop_step.
      + eapply Nat.le_lt_trans; [|exact Hu]. etransitivity; [|by eapply unvisited_mono].
        unfold unvisited. apply subseteq_size. intros u. rewrite !elem_of_difference, !elem_of_dom.
        by rewrite add_child_roots.
    - destruct IH as [-> (u & Hr & Hnv)]. split; [done|]. exists u. split; [|done].
      eapply rtc_l; [|exact Hr]. exists specs, spec. done. }
  specialize (Hloop specs [] b1 eq_refl L1 Hun).
  destruct (fold_outcome _ b1 specs) as [b'|e|]; [|done|done]. cbn.
  assert (Hdone : type_done b' t specs).
  { destruct Hloop. constructor; try done. }
  split; [|constructor; [rewrite (loop_root _ _ _ _ _ Hloop); eauto|constructor]].
  constructor.
  - apply (loop_old _ _ _ _ _ Hloop).
  - intros u Hn Hu. destruct (decide (u = t)) as [->|Hne]; [by exists specs|].
    by apply (loop_new _ _ _ _ _ Hloop).
  - apply (loop_specs _ _ _ _ _ Hloop).
Qed.
End schema_lemmas.

(** ** The search for mandatory cycles *)

Section cycles.
Context (specsOf : gmap string (list relationSpec)) (k : relationKind).

Definition spec_edge (t u : string) : Prop :=
  exists spec, spec ∈ default [] (specsOf !! t) /\ target spec = u /\ isRequiredTypeEdge spec k = true.

Context (closed : forall t u, is_Some (specsOf !! t) -> spec_edge t u -> is_Some (specsOf !! u)).

(** Finished types have no infinite descent. *)
Record colours_ok (state : gmap string nat) : Prop := {
  colours_values : forall u c, state !! u = Some c -> c = 1 \/ c = 2;
  colours_dom : forall u, is_Some (state !! u) -> is_Some (specsOf !! u);
  colours_done : forall u, state !! u = Some 2 -> Acc (fun y x => spec_edge x y) u;
}.

(** A search extends the colouring and leaves the stack as it was. *)
Record coloured (state state' : gmap string nat) : Prop := {
  coloured_ok : colours_ok state';
  coloured_keep : forall u, state !! u = Some 2 -> state' !! u = Some 2;
  coloured_grey : forall u, state' !! u = Some 1 <-> state !! u = Some 1;
}.

Definition uncoloured (state : gmap string nat) : nat := size (dom specsOf ∖ dom state).

Definition search_result (state : gmap string nat) (ts : list string) (from : string -> Prop)
    (r : outcome (gmap string nat)) : Prop :=
  match r with
  | Ok state' => coloured state state' /\ Forall (fun t => state' !! t = Some 2) ts
  | Fail e => e = ErrRelationSchema /\
      exists u, from u /\ (tc spec_edge u u \/ state !! u = Some 1)
  | Panic => False
  end.

Lemma coloured_trans s1 s2 s3 : coloured s1 s2 -> coloured s2 s3 -> coloured s1 s3.
Proof.
  intros [O1 K1 G1] [O2 K2 G2]. constructor; [done|auto|]. intros u. by rewrite G2, G1.
Qed.

Lemma uncoloured_mono s1 s2 : coloured s1 s2 -> colours_ok s1 -> uncoloured s2 <= uncoloured s1.
Proof.
  intros [O K G] O1. unfold uncoloured. apply subseteq_size. intros u.
  rewrite !elem_of_difference, !elem_of_dom. intros [Hu Hn]. split; [done|]. intros [c Hc]. apply Hn.
  destruct (colours_values _ O1 u c Hc) as [->| ->]; [|rewrite K by done; eauto].
  apply G in Hc. eauto.
Qed.

Lemma search_spec fuel state t :
  colours_ok state -> is_Some (specsOf !! t) -> uncoloured state < fuel ->
  search_result state [t] (rtc spec_edge t) (visitRequiredType specsOf k fuel state t).
Proof.
  revert state t. induction fuel as [|fuel IH]; intros state t Hok Ht Hfuel; [lia|]. cbn [visitRequiredType].
  destruct (state !! t) as [c|] eqn:Ec.
  { destruct (colours_values _ Hok t c Ec) as [->| ->].
    - split; [done|]. exists t. split; [done|by right].
    - split; [by constructor|]. by constructor. }
  set (s1 := <[t := 1]> state).
  assert (Hok1 : colours_ok s1).
  { constructor; subst s1.
    - intros u c Hc. apply lookup_insert_Some in Hc as [[_ <-]|[_ Hc]]; [by left|]. by eapply colours_values.
    - intros u [c Hc]. apply lookup_insert_Some in Hc as [[<- _]|[_ Hc]]; [done|]. eapply colours_dom; eauto.
    - intros u Hc. apply lookup_insert_Some in Hc as [[_ ?]|[_ Hc]]; [done|]. by eapply colours_done. }
  assert (Hun : uncoloured s1 < fuel).
  { assert (uncoloured s1 < uncoloured state); [|lia]. unfold uncoloured. apply subset_size. subst s1.
    rewrite dom_insert_L. assert (t ∉ dom state) by by apply not_elem_of_dom.
    assert (t ∈ dom specsOf) by by apply elem_of_dom. set_solver. }
  assert (Hloop : forall specs s2, (forall spec, spec ∈ specs -> spec ∈ default [] (specsOf !! t)) ->
    colours_ok s2 -> uncoloured s2 < fuel ->
    search_result s2 (target <$> List.filter (fun spec => isRequiredTypeEdge spec k) specs) (tc spec_edge t)
      (fold_outcome (fun state spec => when negb (isRequiredTypeEdge spec k) => Ok state ;;
         visitRequiredType specsOf k fuel state (target spec)) s2 specs)).
  { induction specs as [|spec specs IHs]; intros s2 Hin Hok2 Hu; cbn.
    { split; [by constructor|constructor]. }
    destruct (isRequiredTypeEdge spec k) eqn:He; cbn [negb mbind outcome_bind].
    2:{ apply IHs; [set_solver|done|done]. }
    assert (Hedge : spec_edge t (target spec)) by (exists spec; split; [set_solver|done]).
    specialize (IH s2 (target spec) Hok2 (closed _ _ Ht Hedge) Hu). unfold search_result in IH.
    destruct (visitRequiredType specsOf k fuel s2 (target spec)) as [s3|e|]; cbn [mbind outcome_bind]; [| |done].
    - destruct IH as [C3 H3]. apply Forall_cons in H3 as [H3 _].
      specialize (IHs s3 ltac:(set_solver) (coloured_ok _ _ C3)).
      specialize (IHs ltac:(pose proof (uncoloured_mono _ _ C3 Hok2); lia)). unfold search_result in IHs |- *.
      destruct (fold_outcome _ s3 specs) as [s4|e|]; [| |done].
      + destruct IHs as [C4 H4]. split; [by eapply coloured_trans|]. constructor; [|done].
        by apply (coloured_keep _ _ C4).
      + destruct IHs as [-> (u & Hr & Hc)]. split; [done|]. exists u. split; [done|].
        destruct Hc as [Hc|Hc]; [by left|right]. by apply (coloured_grey _ _ C3).
    - destruct IH as [-> (u & Hr & Hc)]. split; [done|]. exists u. split; [|done]. by eapply tc_rtc_r; [constructor|]. }
  specialize (Hloop (default [] (specsOf !! t)) s1 ltac:(done) Hok1 Hun). unfold search_result in Hloop.
  destruct (fold_outcome _ s1 _) as [s2|e|]; cbn [mbind outcome_bind]; [| |done].
  - destruct Hloop as [C2 H2]. pose proof (coloured_ok _ _ C2) as Hok2.
    assert (Hacc : Acc (fun y x => spec_edge x y) t).
    { constructor. intros u (spec & Hin & Htgt & Hreq). apply (colours_done _ Hok2).
      rewrite Forall_forall in H2. apply H2. rewrite <- Htgt. apply list_elem_of_fmap_2.
      apply list_elem_of_In, filter_In. split; [by apply list_elem_of_In|done]. }
    split; [|constructor; [by rewrite lookup_insert_eq|constructor]]. constructor.
    + constructor.
      * intros u c Hc. apply lookup_insert_Some in Hc as [[_ <-]|[_ Hc]]; [by right|]. by eapply colours_values.
      * intros u [c Hc]. apply lookup_insert_Some in Hc as [[<- _]|[_ Hc]]; [done|]. eapply colours_dom; eauto.
      * intros u Hc. apply lookup_insert_Some in Hc as [[<- _]|[_ Hc]]; [done|]. by eapply colours_done.
    + intros u Hu. destruct (decide (t = u)) as [->|Hne]; [congruence|].
      rewrite lookup_insert_ne by done. apply (coloured_keep _ _ C2). subst s1. by rewrite lookup_insert_ne.
    + intros u. destruct (decide (t = u)) as [->|Hne].
      * rewrite lookup_insert_eq, Ec. done.
      * rewrite lookup_insert_ne by done. rewrite (coloured_grey _ _ C2). subst s1. by rewrite lookup_insert_ne.
  - destruct Hloop as [-> (u & Hr & Hc)]. split; [done|].
    destruct Hc as [Hc|Hc].
    + exists u. split; [by apply tc_rtc|by left].
    + subst s1. apply lookup_insert_Some in Hc as [[<- _]|[_ Hc]].
      * exists t. split; [done|by left].
      * exists u. split; [by apply tc_rtc|by right].
Qed.

Lemma colours_empty : colours_ok ∅.
Proof.
  constructor; intros u; rewrite lookup_empty; [by intros c|by intros []|done].
Qed.

(** The search from every type finds a mandatory cycle exactly when there is one. *)
Lemma search_all ts fuel state :
  (forall t, t ∈ ts -> is_Some (specsOf !! t)) -> size specsOf < fuel ->
  colours_ok state -> (forall u, state !! u <> Some 1) ->
  match fold_outcome (visitRequiredType specsOf k fuel) state ts with
  | Ok state' => colours_ok state' /\ (forall u, state' !! u <> Some 1) /\
      (forall u, state !! u = Some 2 -> state' !! u = Some 2) /\ Forall (fun t => state' !! t = Some 2) ts
  | Fail e => e = ErrRelationSchema /\ exists t u, t ∈ ts /\ rtc spec_edge t u /\ tc spec_edge u u
  | Panic => False
  end.
Proof.
  intros Hin Hfuel. revert state. induction ts as [|t ts IH]; intros state Hok Hng; cbn.
  { auto. }
  assert (uncoloured state < fuel) as Hu.
  { eapply Nat.le_lt_trans; [|exact Hfuel]. unfold uncoloured. rewrite <- (size_dom specsOf). apply subseteq_size. set_solver. }
  pose proof (search_spec fuel state t Hok (Hin t ltac:(set_solver)) Hu) as H. unfold search_result in H.
  destruct (visitRequiredType specsOf k fuel state t) as [s2|e|]; cbn [mbind outcome_bind]; [| |done].
  - destruct H as [C H]. apply Forall_cons in H as [H _].
    specialize (IH ltac:(set_solver) s2 (coloured_ok _ _ C)).
    assert (forall u, s2 !! u <> Some 1) as Hng2 by (intros u E; apply (coloured_grey _ _ C) in E; by eapply Hng).
    specialize (IH Hng2). destruct (fold_outcome _ s2 ts) as [s3|e|]; [| |done].
    + destruct IH as (O3 & N3 & K3 & F3). split_and!; [done|done| |by constructor; auto].
      intros u E. by apply K3, (coloured_keep _ _ C).
    + destruct IH as [-> (t' & u & ? & ? & ?)]. split; [done|]. exists t', u. split; [set_solver|done].
  - destruct H as [-> (u & Hr & Hc)]. split; [done|]. exists t, u. split; [set_solver|]. split; [done|].
    destruct Hc as [?|E]; [done|]. by destruct (Hng u).
Qed.
End cycles.

Lemma tc_restrict {A} (P : A -> Prop) (R1 R2 : A -> A -> Prop) x y :
  (forall a b, P a -> R1 a b -> R2 a b /\ P b) -> P x -> tc R1 x y -> tc R2 x y.
Proof.
  intros H HP Hc. induction Hc as [a b Hab|a b c Hab _ IH].
  - constructor. by apply H.
  - destruct (H a b HP Hab). eapply tc_l; [done|]. auto.
Qed.

Section build.
Context (types : typeEnv).

Lemma required_type_edge k t u : required_edge types k t u -> type_edge types t u.
Proof. intros (specs & spec & ? & ? & ? & _). by exists specs, spec. Qed.

(** What a completed walk from [root] has recorded. *)
Record walk_complete (root : string) (b : relationSchemaBuilder) : Prop := {
  walk_roots : forall t, is_Some (roots b !! t) <-> rtc (type_edge types) root t;
  walk_done : forall t, rtc (type_edge types) root t -> exists specs, type_done types b t specs;
  walk_specs : forall t, is_Some (specsByType b !! t) <-> rtc (type_edge types) root t;
}.

Lemma visit_complete root b :
  visited types newRelationSchemaBuilder b (rtc (type_edge types) root) -> is_Some (roots b !! root) ->
  walk_complete root b.
Proof.
  intros V Hroot.
  assert (Hnew : forall u, is_Some (roots b !! u) ->
    exists specs, type_done types b u specs /\ rtc (type_edge types) root u).
  { intros u Hu. by apply (visited_new _ _ _ _ V). }
  assert (Hr : forall t, is_Some (roots b !! t) <-> rtc (type_edge types) root t).
  { intros t. split; [intros Ht; destruct (Hnew t Ht) as (? & _ & ?); done|].
    revert t.
    refine (rtc_ind_r (fun t => is_Some (roots b !! t)) root Hroot _).
    intros t u _ (specs & spec & Hs & Hin & <-) Ht.
    destruct (Hnew t Ht) as (specs' & [D1 _ _ _ _ D6] & _).
    assert (specs' = specs) as -> by congruence. rewrite Forall_forall in D6. by apply D6. }
  constructor; [done| |].
  - intros t Ht. apply Hr in Ht. destruct (Hnew t Ht) as (specs & ? & _). eauto.
  - intros t. rewrite <- Hr. split.
    + intros Hs. destruct (visited_specs _ _ _ _ V t Hs) as [[? E]|?]; [|done]. cbn in E. by rewrite lookup_empty in E.
    + intros Ht. destruct (Hnew t Ht) as (specs & [_ _ _ D4 _ _] & _). eauto.
Qed.

Lemma spec_edge_required root b k t u :
  walk_complete root b -> rtc (type_edge types) root t ->
  spec_edge (specsByType b) k t u <-> required_edge types k t u.
Proof.
  intros W Ht. destruct (walk_done _ _ W t Ht) as (specs & [D1 _ _ D4 _ _]).
  unfold spec_edge. rewrite D4. cbn. split.
  - intros (spec & ? & ? & ?). by exists specs, spec.
  - intros (specs' & spec & E & ? & ? & ?). assert (specs' = specs) as -> by congruence. by exists spec.
Qed.

Lemma cycles_spec `{!MapOrder string} root b k :
  walk_complete root b ->
  match validateRequiredCycles types b k with
  | Ok _ => forall t, rtc (type_edge types) root t -> ~ tc (required_edge types k) t t
  | Fail e => e = ErrRelationSchema /\ exists t, rtc (type_edge types) root t /\ tc (required_edge types k) t t
  | Panic => False
  end.
Proof.
  intros W.
  assert (Hstep : forall t u, rtc (type_edge types) root t -> spec_edge (specsByType b) k t u ->
    required_edge types k t u /\ rtc (type_edge types) root u).
  { intros t u Ht He. apply (spec_edge_required root b k t u W Ht) in He. split; [done|].
    eapply rtc_r; [exact Ht|by eapply required_type_edge]. }
  assert (Hclosed : forall t u, is_Some (specsByType b !! t) -> spec_edge (specsByType b) k t u ->
    is_Some (specsByType b !! u)).
  { intros t u Ht He. apply (walk_specs _ _ W) in Ht. apply (walk_specs _ _ W). by eapply Hstep. }
  assert (Hsize : size (specsByType b) < S (size types)).
  { assert (size (specsByType b) <= size types); [|lia]. rewrite <- (size_dom types), <- (size_dom (specsByType b)).
    apply subseteq_size. intros t Ht. apply elem_of_dom, (walk_specs _ _ W) in Ht.
    destruct (walk_done _ _ W t Ht) as (specs & [D1 _ _ _ _ _]). by eapply relationSpecs_declared. }
  pose proof (search_all (specsByType b) k Hclosed (map_range (specsByType b)).*1 (S (size types)) ∅) as H.
  unfold validateRequiredCycles.
  rewrite (fold_outcome_fmap fst (visitRequiredType (specsByType b) k (S (size types)))).
  assert (Hdom : forall t, t ∈ (map_range (specsByType b)).*1 <-> is_Some (specsByType b !! t)).
  { intros t. rewrite list_elem_of_fmap. split.
    - intros ([t' specs] & -> & Hin). apply map_range_elem in Hin. eauto.
    - intros [specs Hs]. exists (t, specs). split; [done|]. by apply map_range_elem. }
  specialize (H ltac:(intros t; apply Hdom) Hsize (colours_empty _ _)).
  specialize (H ltac:(intros u; by rewrite lookup_empty)).
  destruct (fold_outcome _ ∅ _) as [state|e|]; [| |done].
  - destruct H as (Hok & _ & _ & Hall). intros t Ht Hc. rewrite Forall_forall in Hall.
    assert (Acc (fun y x => spec_edge (specsByType b) k x y) t) as Hacc.
    { apply (colours_done _ _ _ Hok), Hall, Hdom. by apply (walk_specs _ _ W). }
    apply (acc_no_cycle (spec_edge (specsByType b) k) t Hacc).
    eapply (tc_restrict (rtc (type_edge types) root)); [|exact Ht|exact Hc].
    intros x y Hx He. split; [by apply (spec_edge_required root b k x y W Hx)|].
    eapply rtc_r; [exact Hx|by eapply required_type_edge].
  - destruct H as [-> (t & u & Ht & Hr & Hc)]. split; [done|]. exists u.
    apply Hdom, (walk_specs _ _ W) in Ht.
    assert (rtc (type_edge types) root u) as Hu.
    { clear Hc. induction Hr as [|x y z Hxy _ IH]; [done|]. apply IH. by eapply Hstep. }
    split; [done|]. eapply (tc_restrict (rtc (type_edge types) root)); [exact Hstep|exact Hu|exact Hc].
Qed.

Lemma done_type_valid b t specs : type_done types b t specs -> type_valid types t.
Proof. intros []. by exists specs. Qed.
End build.

Lemma split_comma_string c s :
  split_comma (String c s) =
  if decide (c = ","%char) then EmptyString :: split_comma s
  else match split_comma s with
       | [] => [String c EmptyString]
       | part :: parts => String c part :: parts
       end.
Proof. done. Qed.

Lemma split_comma_tag r m :
  has_comma r = false -> has_comma m = false -> split_comma (r +:+ "," +:+ m) = [r; m].
Proof.
  intros Hr Hm. induction r as [|c r IH].
  - change ("" +:+ "," +:+ m) with (String "," m). rewrite split_comma_string, decide_True by done.
    f_equal. clear Hr. induction m as [|c m IH]; [done|]. cbn in Hm.
    apply orb_false_iff in Hm as [Hc Hm]. apply bool_decide_eq_false in Hc.
    rewrite split_comma_string, decide_False by done. by rewrite IH.
  - cbn in Hr. apply orb_false_iff in Hr as [Hc Hr]. apply bool_decide_eq_false in Hc.
    change (String c r +:+ "," +:+ m) with (String c (r +:+ "," +:+ m)).
    rewrite split_comma_string, decide_False by done. by rewrite IH.
Qed.

Lemma cache_transparent types cache t :
  cache_coherent types cache ->
  (relationSpecs_cached types cache t).2 = relationSpecs types t /\
  cache_coherent types (relationSpecs_cached types cache t).1.
Proof.
  intros Hc. unfold relationSpecs_cached. destruct (cache !! t) as [r|] eqn:E; cbn.
  - split; [by apply Hc|done].
  - split; [done|]. intros t' r. rewrite lookup_insert_Some. intros [[-> <-]|[_ H]]; [done|by apply Hc].
Qed.

Lemma build_decides `{!MapOrder string} (types : typeEnv) (root : string) :
  match buildRelationSchema types root with
  | Ok b =>
      schema_ok types root /\
      (forall t, is_Some (roots b !! t) <-> rtc (type_edge types) root t) /\
      (forall t specs, rtc (type_edge types) root t -> relationSpecs types t = Ok specs ->
         roots b !! t = Some {| Type_ := t; Children := point_of <$> specs |})
  | Fail e => e = ErrRelationSchema /\ ~ schema_ok types root
  | Panic => False
  end.
Proof.
  unfold buildRelationSchema.
  assert (unvisited types newRelationSchemaBuilder < S (size types)) as Hu.
  { assert (unvisited types newRelationSchemaBuilder <= size types); [|lia].
    unfold unvisited. rewrite <- (size_dom types). apply subseteq_size. set_solver. }
  pose proof (visit_spec types _ _ root Hu) as H. unfold walk_result in H.
  destruct (visit types _ newRelationSchemaBuilder root) as [b|e|]; cbn [mbind outcome_bind]; [| |done].
  2:{ destruct H as [-> (u & Hr & Hnv)]. split; [done|]. intros [Hv _]. by apply Hnv, Hv. }
  destruct H as [V Ht]. apply Forall_cons in Ht as [Ht _].
  pose proof (visit_complete types root b V Ht) as W.
  assert (Hvalid : forall t, rtc (type_edge types) root t -> type_valid types t).
  { intros t Hrt. destruct (walk_done _ _ _ W t Hrt) as (specs & D). by eapply done_type_valid. }
  pose proof (cycles_spec types root b ownedByRelation W) as C1.
  pose proof (cycles_spec types root b ownRelation W) as C2.
  destruct (validateRequiredCycles types b ownedByRelation) as [s1|e|]; cbn [mbind outcome_bind]; [| |done].
  2:{ destruct C1 as [-> (t & Hr & Hc)]. split; [done|]. intros [_ Ha]. by apply (Ha t ownedByRelation); auto. }
  destruct (validateRequiredCycles types b ownRelation) as [s2|e|]; cbn [mbind outcome_bind]; [| |done].
  2:{ destruct C2 as [-> (t & Hr & Hc)]. split; [done|]. intros [_ Ha]. by apply (Ha t ownRelation); auto. }
  split_and!.
  - constructor; [done|]. intros t k Hr [->| ->]; auto.
  - apply (walk_roots _ _ _ W).
  - intros t specs Hr Hs. destruct (walk_done _ _ _ W t Hr) as (specs' & [D1 _ _ _ D5 _]).
    assert (specs' = specs) as -> by congruence. done.
Qed.

(** The tag grammar. On a field whose type is a pointer or pointer slice
    to an entity, a tag [role,field] (with any role, any field name, and with
    spaces around either) parses to exactly that role and field, unless the
    role does not allow the cardinality, which is [ErrRelationSchema]. *)
Theorem parse_tag_roundtrip (types : typeEnv) own index f tgt m k raw_role raw_field field :
  relationTarget types (ftype f) = (tgt, m, true) -> isEntityType types tgt = true ->
  tag_lookup "rel" (tag f) = Some (raw_role +:+ "," +:+ raw_field) ->
  has_comma raw_role = false -> has_comma raw_field = false ->
  TrimSpace raw_role = role_name k -> TrimSpace raw_field = field -> field <> EmptyString ->
  parseRelationField types own index f =
  if shape_allowed k m
  then Ok (Some {| owner := own; fieldIndex := index; fieldName := fname f; target := tgt;
                   kind := k; matchField := field; many := m |})
  else Fail ErrRelationSchema.
Proof.
  intros Ht He Hl Hc1 Hc2 Hr Hf Hne. unfold parseRelationField.
  rewrite Ht, Hl, He. cbn [negb]. rewrite split_comma_tag by done. rewrite Hr, Hf.
  rewrite (bool_decide_false (field = EmptyString)) by done.
  destruct k, m; reflexivity.
Qed.

(** ** The rules and the checks of the code *)

Lemma split_comma_parts s :
  Forall (fun part => has_comma part = false) (split_comma s) /\ String.concat "," (split_comma s) = s.
Proof.
  induction s as [|c s [IH1 IH2]]; [by repeat constructor|]. rewrite split_comma_string.
  destruct (decide (c = ","%char)) as [->|Hc].
  - split; [by constructor|]. destruct (split_comma s) eqn:E; [by destruct s|].
    cbn [String.concat] in *. by rewrite IH2.
  - destruct (split_comma s) as [|part parts]; [by cbn in IH2; subst s; repeat constructor; cbn; rewrite bool_decide_false|].
    apply Forall_cons in IH1 as [H1 H2]. split; [constructor; [cbn; by rewrite bool_decide_false|done]|].
    destruct parts; cbn [String.concat] in *; by rewrite <- IH2.
Qed.

Lemma split_comma_two raw p0 p1 :
  split_comma raw = [p0; p1] <-> raw = p0 +:+ "," +:+ p1 /\ has_comma p0 = false /\ has_comma p1 = false.
Proof.
  split; [|by intros (-> & ? & ?); apply split_comma_tag]. intros E.
  destruct (split_comma_parts raw) as [H Hj]. rewrite E in H, Hj.
  apply Forall_cons in H as [? H]. apply Forall_cons in H as [? _]. by rewrite <- Hj.
Qed.

Lemma parse_kind_iff s k : parse_kind s = Some k <-> s = role_name k.
Proof.
  unfold parse_kind. split; [repeat case_decide; intros [= <-]; done|]. intros ->. by destruct k.
Qed.

Lemma StronglySorted_NoDup_lt (l : list nat) : StronglySorted lt l -> NoDup l.
Proof.
  induction 1 as [|x l _ IH Hx]; constructor; [|done]. rewrite Forall_forall in Hx. intros Hin. specialize (Hx x Hin). lia.
Qed.

Section rules_lemmas.
Context (types : typeEnv).

Lemma isEntityType_iff t : isEntityType types t = true <-> entity_type types t.
Proof. unfold isEntityType, entity_type. destruct (types !! t); naive_solver. Qed.

Lemma isScalarKey_iff t : isScalarKey t = true <-> scalar_key t.
Proof.
  split.
  - destruct t as [name k| | | | |]; try done. intros H. exists name, k. split; [done|]. destruct k; done || set_solver.
  - intros (name & k & -> & Hk). repeat (apply elem_of_cons in Hk as [->|Hk]; [done|]). by apply not_elem_of_nil in Hk.
Qed.

Lemma relationTarget_iff t m tgt : entity_type types tgt ->
  relationTarget types t = (tgt, m, true) <-> points_to t m tgt.
Proof.
  intros (d & Hd & _). unfold points_to. split.
  - destruct t as [| [] | | | |]; cbn; try done; case_match; intros [= <- <-]; done.
  - intros ->. destruct m; cbn; by rewrite Hd.
Qed.

(** A field declares exactly the relation its tag parses to. *)
Lemma declares_parse t d i f p : types !! t = Some d -> fields d !! i = Some f ->
  declares types t i p <-> exists r, parseRelationField types t i f = Ok (Some r) /\ p = point_of r.
Proof.
  intros Hd Hf. split.
  - intros (d' & f' & raw & Hd' & Hf' & Hraw & (r0 & r1 & -> & C0 & C1 & T0 & T1 & Hne) & Hpt & He & Ho & Hi & Hn & Ht).
    assert (d' = d) as -> by congruence. assert (f' = f) as -> by congruence.
    rewrite (parse_tag_roundtrip types t i f (To p) (Many p) (RelationType p) r0 r1 (Field p));
      [|by apply relationTarget_iff|by apply isEntityType_iff|done..].
    assert (shape_allowed (RelationType p) (Many p) = true) as ->.
    { destruct (RelationType p), (Many p); cbn; try done; naive_solver. }
    eexists. split; [done|]. destruct p; cbn in *. by subst.
  - intros (r & Hp & ->). unfold parseRelationField in Hp.
    destruct (relationTarget types (ftype f)) as [[tgt m] shape] eqn:Et.
    destruct (tag_lookup "rel" (tag f)) as [raw|] eqn:Eraw; [|by destruct (_ && _)].
    destruct shape; [|done]. destruct (isEntityType types tgt) eqn:He; [|done]. cbn [negb] in Hp.
    destruct (split_comma raw) as [|p0 [|p1 [|? ?]]] eqn:Es; try done.
    apply split_comma_two in Es as (-> & C0 & C1).
    destruct (bool_decide_reflect (TrimSpace p0 = EmptyString)), (bool_decide_reflect (TrimSpace p1 = EmptyString)); try done.
    destruct (parse_kind (TrimSpace p0)) as [k|] eqn:Ek; [|done]. apply parse_kind_iff in Ek.
    apply isEntityType_iff in He. apply relationTarget_iff in Et; [|done].
    destruct (bool_decide (k = ownedByRelation) && m) eqn:B1; [done|].
    destruct (bool_decide (k = inverseRelation) && negb m) eqn:B2; [done|]. injection Hp as <-.
    exists d, f, (p0 +:+ "," +:+ p1). cbn. split_and!; try done.
    + exists p0, p1. done.
    + intros ->. by destruct m.
    + intros ->. by destruct m.
Qed.

Lemma parseFields_complete own i fs specs j f r :
  parseFields types own i fs = Ok specs -> fs !! j = Some f ->
  parseRelationField types own (i + j) f = Ok (Some r) -> r ∈ specs.
Proof.
  revert i j specs. induction fs as [|g fs IH]; intros i j specs E Hj Hp; [done|]. cbn in E.
  destruct (parseRelationField types own i g) as [o| |] eqn:Ep; cbn in E; [|done|done].
  destruct (parseFields types own (S i) fs) as [out| |] eqn:Eo; cbn in E; [|done|done]. injection E as <-.
  destruct j as [|j]; cbn in Hj.
  - injection Hj as ->. rewrite Nat.add_0_r, Ep in Hp. injection Hp as ->. set_solver.
  - rewrite Nat.add_succ_r in Hp. assert (r ∈ out) by exact (IH (S i) j out Eo Hj Hp). destruct o; set_solver.
Qed.

(** The specs of a type are what its fields declare. *)
Lemma declares_spec t specs i p : relationSpecs types t = Ok specs ->
  declares types t i p <-> exists r, r ∈ specs /\ fieldIndex r = i /\ p = point_of r.
Proof.
  intros Hs. pose proof Hs as E. unfold relationSpecs in E. destruct (types !! t) as [d|] eqn:Hd; [|done]. split.
  - intros Hp. pose proof Hp as (d' & f & raw & Hd' & Hf & _). assert (d' = d) as -> by congruence.
    destruct (proj1 (declares_parse t d i f p Hd Hf) Hp) as (r & Hr & ->). exists r. split_and!; [|by apply parseRelationField_sound in Hr as (_ & ? & _)|done].
    exact (parseFields_complete t 0 _ _ i f r E Hf Hr).
  - intros (r & Hr & <- & ->). destruct (parseFields_sound types t 0 _ _ _ E Hr) as (j & f & Hf & Hp). cbn in Hp.
    pose proof Hp as (_ & -> & _)%parseRelationField_sound. apply (declares_parse t d j f _ Hd Hf). eauto.
Qed.

Lemma spec_owner t specs r : relationSpecs types t = Ok specs -> r ∈ specs -> owner r = t.
Proof.
  unfold relationSpecs. destruct (types !! t) as [d|]; [|done]. intros E Hr.
  destruct (parseFields_sound types t 0 _ _ _ E Hr) as (j & f & _ & Hp). by apply parseRelationField_sound in Hp as [? _].
Qed.

Lemma fields_rule_parse t : fields_rule types t <-> exists specs, relationSpecs types t = Ok specs.
Proof.
  unfold relationSpecs. split.
  - intros (d & Hd & Hall). rewrite Hd.
    assert (forall fs i, (forall j f, fs !! j = Some f -> exists o, parseRelationField types t (i + j) f = Ok o) ->
      exists specs, parseFields types t i fs = Ok specs) as H.
    { induction fs as [|f fs IH]; intros i Hf; cbn; [eauto|].
      destruct (Hf 0 f eq_refl) as [o Ho]. rewrite Nat.add_0_r in Ho. rewrite Ho. cbn.
      destruct (IH (S i)) as [out ->]; [|cbn; eauto]. intros j g Hg. destruct (Hf (S j) g Hg) as [o' Ho'].
      rewrite Nat.add_succ_r in Ho'. eauto. }
    apply H. intros i f Hf. cbn. specialize (Hall i f Hf).
    destruct (tag_lookup "rel" (tag f)) as [raw|] eqn:Eraw.
    + destruct Hall as (p & Hp). apply (declares_parse t d i f p Hd Hf) in Hp as (r & Hr & _). eauto.
    + unfold parseRelationField. destruct (relationTarget types (ftype f)) as [[tgt m] shape] eqn:Et. rewrite Eraw.
      destruct (shape && isEntityType types tgt) eqn:B; [|eauto]. apply andb_true_iff in B as [-> B].
      apply isEntityType_iff in B. apply relationTarget_iff in Et; [|done]. by destruct (Hall m tgt).
  - intros [specs Hs]. destruct (types !! t) as [d|] eqn:Hd; [|done]. exists d. split; [done|]. intros i f Hf.
    assert (exists o, parseRelationField types t i f = Ok o) as [o Ho].
    { clear Hd. change i with (0 + i). revert Hs Hf. generalize 0, (fields d), specs.
      intros n fs. revert n i. induction fs as [|g fs IH]; intros n i sp Hs Hf; [done|]. cbn in Hs.
      destruct (parseRelationField types t n g) as [o| |] eqn:Ep; cbn in Hs; [|done|done].
      destruct (parseFields types t (S n) fs) as [out| |] eqn:Eo; cbn in Hs; [|done|done].
      destruct i as [|i]; cbn in Hf; [injection Hf as ->; rewrite Nat.add_0_r; eauto|].
      rewrite Nat.add_succ_r. exact (IH (S n) i out Eo Hf). }
    pose proof Ho as Hp. unfold parseRelationField in Hp.
    destruct (relationTarget types (ftype f)) as [[tgt m] shape] eqn:Et.
    destruct (tag_lookup "rel" (tag f)) as [raw|] eqn:Eraw.
    + destruct o as [r|]; [exists (point_of r); apply (declares_parse t d i f _ Hd Hf); eauto|].
      exfalso. revert Hp. repeat case_match; done.
    + intros m' tgt' Hpt He. apply relationTarget_iff in Hpt; [|done]. apply isEntityType_iff in He.
      rewrite Et in Hpt. injection Hpt as -> -> ->. by rewrite He in Hp.
Qed.

(** The check on the field a relation names is the rule. *)
Lemma complement_found tgt j back (P : relationSpec -> bool) (Q : relationPoint -> Prop) d :
  types !! tgt = Some d -> fields d !! j = Some back ->
  (forall c, P c = true <-> Q (point_of c)) ->
  (exists c, parseRelationField types tgt j back = Ok (Some c) /\ P c = true) <->
  exists q, declares types tgt j q /\ Q q.
Proof.
  intros Hd Hj HP. split.
  - intros (c & Hc & Hp). exists (point_of c). split; [|by apply HP]. apply (declares_parse tgt d j back _ Hd Hj). eauto.
  - intros (q & Hq & H). apply (declares_parse tgt d j back _ Hd Hj) in Hq as (c & Hc & ->). exists c. by rewrite HP.
Qed.

Lemma complement_check (parsed : outcome (option relationSpec)) (P : relationSpec -> bool) :
  (c ← parsed; match c with Some c => when P c => Ok tt ;; Fail ErrRelationSchema | None => Fail ErrRelationSchema end) = Ok tt <->
  exists c, parsed = Ok (Some c) /\ P c = true.
Proof.
  destruct parsed as [[c|]| |]; cbn; [|naive_solver..]. destruct (P c) eqn:E; split; try done; [eauto|].
  intros (c' & [= <-] & E'). congruence.
Qed.

Lemma validate_rule t r : owner r = t -> validateRelationSpec types r = Ok tt <-> match_rule types t (point_of r).
Proof.
  intros Ho. unfold validateRelationSpec, match_rule. cbn [To Field RelationType Many point_of].
  destruct (types !! target r) as [d|] eqn:Hd; cbn [mbind option_bind]; [|naive_solver].
  destruct (FieldByName d (matchField r)) as [[j back]|] eqn:Hb; [|naive_solver].
  assert (Hj : fields d !! j = Some back) by by apply field_index_Some in Hb as [? _].
  assert (Hex : forall B : nat -> structField -> Prop, (exists d0 j0 back0, Some d = Some d0 /\
      FieldByName d0 (matchField r) = Some (j0, back0) /\ B j0 back0) <-> B j back).
  { intros B. split; [intros (? & ? & ? & [= <-] & E & H)|intros H; eauto 10]. rewrite Hb in E. by injection E as <- <-. }
  rewrite (Hex (fun j back => match kind r, many r with
    | ownRelation, true => scalar_key (ftype back) \/
        exists q, declares types (target r) j q /\ RelationType q = ownedByRelation /\ To q = t
    | inverseRelation, true => exists q, declares types (target r) j q /\
        (RelationType q = borrowRelation \/ RelationType q = optionRelation) /\ To q = t
    | _, _ => scalar_key (ftype back) end)). clear Hex.
  assert (Hscalar : validateScalarMatchField back = Ok tt <-> scalar_key (ftype back)).
  { unfold validateScalarMatchField. rewrite <- isScalarKey_iff. by destruct (isScalarKey (ftype back)). }
  pose proof (fun P Q => complement_found (target r) j back P Q d Hd Hj) as Hcomp.
  destruct (many r) eqn:Em, (kind r) eqn:Ek; cbn [negb orb andb]; rewrite ?bool_decide_true, ?bool_decide_false by done;
    cbn [negb orb andb]; try exact Hscalar.
  - unfold validateOwnBackField. rewrite <- isScalarKey_iff.
    rewrite <- (Hcomp (fun c => bool_decide (kind c = ownedByRelation) && bool_decide (target c = owner r)))
      by (intros c; rewrite andb_true_iff, !bool_decide_eq_true; cbn; by rewrite Ho).
    destruct (ftype back) as [name k|e|m e|name fs|tgt|name] eqn:Ef; cbn [is_pointer negb isScalarKey].
    5:{ rewrite complement_check. split; [by right|by intros [?|?]]. }
    all: assert (forall c, parseRelationField types (target r) j back = Ok (Some c) -> bool_decide (kind c = ownedByRelation) = false)
      as Hno by (intros c (_ & _ & _ & Ht & _ & Hs)%parseRelationField_sound; rewrite Ef in Ht;
        apply bool_decide_eq_false; intros Hk; rewrite Hk in Hs; cbn in Ht;
        repeat case_match; try discriminate Ht; injection Ht as _ Hm; rewrite <- Hm in Hs; done).
    all: split; [intros H; left; by repeat case_match|].
    all: intros [H|(c & Hc & Hp)]; [by rewrite ?H|rewrite (Hno c Hc) in Hp; done].
  - unfold validateInverseBackField.
    rewrite <- (Hcomp (fun c => (bool_decide (kind c = borrowRelation) || bool_decide (kind c = optionRelation)) &&
                                bool_decide (target c = owner r)))
      by (intros c; rewrite andb_true_iff, orb_true_iff, !bool_decide_eq_true; cbn; by rewrite Ho).
    apply complement_check.
Qed.

Lemma specs_nodup t specs : relationSpecs types t = Ok specs -> StronglySorted lt (fieldIndex <$> specs).
Proof.
  unfold relationSpecs. destruct (types !! t) as [d|]; [|done]. generalize 0. revert specs.
  induction (fields d) as [|f fs IH]; intros specs i E; cbn in E; [injection E as <-; constructor|].
  destruct (parseRelationField types t i f) as [o| |] eqn:Ep; cbn in E; [|done|done].
  destruct (parseFields types t (S i) fs) as [out| |] eqn:Eo; cbn in E; [|done|done]. injection E as <-.
  specialize (IH out (S i) Eo). destruct o as [r|]; [|done]. cbn. constructor; [done|].
  apply Forall_fmap, Forall_forall. intros r' Hr'. destruct (parseFields_sound types t (S i) fs out r' Eo Hr') as (j & g & _ & Hg).
  apply parseRelationField_sound in Hg as (_ & Hg & _). apply parseRelationField_sound in Ep as (_ & Ep & _). cbn. lia.
Qed.

Lemma count_one (specs : list relationSpec) : NoDup (fieldIndex <$> specs) ->
  countRelationKind specs ownedByRelation <= 1 <->
  forall r s, r ∈ specs -> s ∈ specs -> kind r = ownedByRelation -> kind s = ownedByRelation -> fieldIndex r = fieldIndex s.
Proof.
  unfold countRelationKind. induction specs as [|r specs IH]; intros Hnd; [cbn; split; [set_solver|lia]|].
  apply NoDup_cons in Hnd as [Hn Hnd]. specialize (IH Hnd). cbn.
  assert (Hz : forall k, length (List.filter (fun spec => bool_decide (kind spec = k)) specs) = 0 <->
    forall s, s ∈ specs -> kind s <> k).
  { intros k. clear. revert k. induction specs as [|s specs IH]; intros k; cbn; [split; [set_solver|done]|].
    case_bool_decide; cbn; [split; [done|intros H'; exfalso; by apply (H' s); [set_solver|]]|]. rewrite IH.
    split; [intros H' x [->|Hx]%elem_of_cons; auto|set_solver]. }
  destruct (bool_decide_reflect (kind r = ownedByRelation)) as [Hk|Hk]; cbn.
  - specialize (Hz ownedByRelation). split.
    + intros Hc x y Hx Hy Kx Ky. assert (forall s, s ∈ specs -> kind s <> ownedByRelation) as Hall by (apply Hz; lia).
      apply elem_of_cons in Hx as [->|Hx]; [|by destruct (Hall x)].
      apply elem_of_cons in Hy as [->|Hy]; [done|by destruct (Hall y)].
    + intros H. assert (length (List.filter (fun spec => bool_decide (kind spec = ownedByRelation)) specs) = 0); [|lia].
      apply Hz. intros s Hs Ks. apply Hn. rewrite (H r s) by set_solver. by apply list_elem_of_fmap_2.
  - rewrite IH. split; [intros H x y [->|Hx]%elem_of_cons [->|Hy]%elem_of_cons; naive_solver|set_solver].
Qed.

Lemma one_owner_count t specs : relationSpecs types t = Ok specs ->
  countRelationKind specs ownedByRelation <= 1 <-> one_owner_rule types t.
Proof.
  intros Hs. rewrite count_one by (eapply StronglySorted_NoDup_lt, specs_nodup, Hs). unfold one_owner_rule. split.
  - intros H i j p q Hp Hq Kp Kq. apply (declares_spec t specs _ _ Hs) in Hp as (r & Hr & <- & ->), Hq as (s & Hs' & <- & ->).
    by apply H.
  - intros H r s Hr Hs' Kr Ks. apply (H _ _ (point_of r) (point_of s)); try done; apply (declares_spec t specs _ _ Hs); eauto.
Qed.

Lemma type_rules_valid t :
  type_valid types t <-> fields_rule types t /\ (forall i p, declares types t i p -> match_rule types t p) /\ one_owner_rule types t.
Proof.
  rewrite fields_rule_parse. split.
  - intros (specs & Hs & Hc & Hv). split_and!; [eauto| |by eapply one_owner_count].
    intros i p (r & Hr & <- & ->)%(declares_spec t specs _ _ Hs). rewrite Forall_forall in Hv. apply validate_rule; [|by apply Hv].
    by apply (spec_owner t specs).
  - intros ((specs & Hs) & Hm & Ho). exists specs. split_and!; [done|by eapply one_owner_count|].
    apply Forall_forall. intros r Hr. apply (validate_rule t); [by apply (spec_owner t specs)|].
    apply (Hm (fieldIndex r)), (declares_spec t specs _ _ Hs). eauto.
Qed.

Lemma type_edge_refers t u : type_edge types t u -> refers_to types t u.
Proof. intros (specs & r & Hs & Hr & <-). exists (fieldIndex r), (point_of r). split; [|done]. apply (declares_spec t specs _ _ Hs). eauto. Qed.

Lemma refers_type_edge t u : (exists specs, relationSpecs types t = Ok specs) -> refers_to types t u -> type_edge types t u.
Proof. intros [specs Hs] (i & p & (r & Hr & _ & ->)%(declares_spec t specs _ _ Hs) & <-). by exists specs, r. Qed.

Lemma required_owner t u : (exists specs, relationSpecs types t = Ok specs) -> required_edge types ownedByRelation t u <-> needs_owner types t u.
Proof.
  intros [specs Hs]. unfold required_edge, needs_owner. split.
  - intros (specs' & r & Hs' & Hr & <- & Hk). exists (fieldIndex r), (point_of r). split; [apply (declares_spec t specs' _ _ Hs'); eauto|].
    unfold isRequiredTypeEdge in Hk. destruct (bool_decide_reflect (kind r = ownedByRelation)); done.
  - intros (i & p & (r & Hr & _ & ->)%(declares_spec t specs _ _ Hs) & Hk & <-). exists specs, r. cbn in Hk.
    unfold isRequiredTypeEdge. by rewrite bool_decide_true.
Qed.

Lemma required_child t u : (exists specs, relationSpecs types t = Ok specs) -> required_edge types ownRelation t u <-> needs_child types t u.
Proof.
  intros [specs Hs]. unfold required_edge, needs_child. split.
  - intros (specs' & r & Hs' & Hr & <- & Hk). exists (fieldIndex r), (point_of r). split; [apply (declares_spec t specs' _ _ Hs'); eauto|].
    unfold isRequiredTypeEdge in Hk. destruct (bool_decide_reflect (kind r = ownRelation)); [|done]. rewrite bool_decide_true in Hk by done.
    cbn. by destruct (many r).
  - intros (i & p & (r & Hr & _ & ->)%(declares_spec t specs _ _ Hs) & Hk & Hm & <-). exists specs, r. cbn in Hk, Hm.
    unfold isRequiredTypeEdge. rewrite bool_decide_true by done. by rewrite Hm.
Qed.

Lemma reaches_iff root : schema_ok types root -> forall t, rtc (refers_to types) root t <-> rtc (type_edge types) root t.
Proof.
  intros [Hv _] t. split; [|apply rtc_subrel; intros ? ?; apply type_edge_refers]. revert t.
  refine (rtc_ind_r (fun t => rtc (type_edge types) root t) root _ _); [done|]. intros t u _ He Ht.
  eapply rtc_r; [exact Ht|]. apply refers_type_edge; [|done]. destruct (Hv t Ht) as (specs & ? & _). eauto.
Qed.

Lemma schema_rules_ok root : schema_rules types root <-> schema_ok types root.
Proof.
  split.
  - intros H. assert (Hr : forall t, rtc (type_edge types) root t -> rtc (refers_to types) root t)
      by (intros t; apply rtc_subrel; intros ? ?; apply type_edge_refers).
    assert (Hp : forall t, rtc (type_edge types) root t -> exists specs, relationSpecs types t = Ok specs).
    { intros t Ht. apply fields_rule_parse. by destruct (H t (Hr t Ht)). }
    constructor; [intros t Ht; apply type_rules_valid; destruct (H t (Hr t Ht)) as (? & ? & ? & _); done|].
    intros t k Ht Hk Hc. destruct (H t (Hr t Ht)) as (_ & _ & _ & Ho & Hch).
    destruct Hk as [->| ->]; [apply Ho|apply Hch]; (eapply (tc_restrict (rtc (type_edge types) root)); [|exact Ht|exact Hc]);
      intros a b Ha Hab; (split; [|eapply rtc_r; [exact Ha|by eapply required_type_edge]]);
      [by apply required_owner; [apply Hp|]|by apply required_child; [apply Hp|]].
  - intros Hok t Ht. pose proof (reaches_iff root Hok) as Hr. destruct Hok as [Hv Ha]. apply Hr in Ht.
    destruct (proj1 (type_rules_valid t) (Hv t Ht)) as (F & M & O). split_and!; [done..| |];
      [intros Hc; apply (Ha t ownedByRelation Ht); [by left|]|intros Hc; apply (Ha t ownRelation Ht); [by right|]];
      (eapply (tc_restrict (rtc (type_edge types) root)); [|exact Ht|exact Hc]); intros a b Hra Hab;
      (assert (Hp : exists specs, relationSpecs types a = Ok specs) by (destruct (Hv a Hra) as (specs & ? & _); eauto));
      [apply required_owner in Hab|apply required_child in Hab]; try done;
      (split; [done|eapply rtc_r; [exact Hra|by eapply required_type_edge]]).
Qed.

(** The specs of a type list what it declares, in order. *)
Lemma specs_in_order t specs : relationSpecs types t = Ok specs ->
  exists ixs, StronglySorted lt ixs /\ Forall2 (declares types t) ixs (point_of <$> specs) /\
    forall i p, declares types t i p -> i ∈ ixs.
Proof.
  intros Hs. exists (fieldIndex <$> specs). split_and!; [by eapply specs_nodup| |].
  - apply Forall2_fmap, Forall_Forall2_diag, Forall_forall. intros r Hr. apply (declares_spec t specs _ _ Hs). eauto.
  - intros i p (r & Hr & <- & _)%(declares_spec t specs _ _ Hs). by apply list_elem_of_fmap_2.
Qed.
End rules_lemmas.

(** The satisfiability table of src/docs/relations.md. *)
Example schema_accepts_users : is_ok (buildRelationSchema sample_types "User") = true.
Proof. vm_compute. reflexivity. Qed.
Example schema_accepts_trees : is_ok (buildRelationSchema sample_types "Tree") = true.
Proof. vm_compute. reflexivity. Qed.
Example schema_rejects_self_own : buildRelationSchema sample_types "Node" = Fail ErrRelationSchema.
Proof. vm_compute. reflexivity. Qed.

(** * Properties *)

Lemma parse_tag_roundtrip_witness :
  parseRelationField sample_types "Post" 2 (rel_field "Tag" (TPointer "Tag") " borrow , Id ") =
  Ok (Some {| owner := "Post"; fieldIndex := 2; fieldName := "Tag"; target := "Tag";
              kind := borrowRelation; matchField := "Id"; many := false |}).
Proof.
  refine (parse_tag_roundtrip sample_types "Post" 2 (rel_field "Tag" (TPointer "Tag") " borrow , Id ") "Tag"
    false borrowRelation " borrow " " Id " "Id" _ _ _ _ _ _ _ _); [reflexivity..|done].
Defined.

(** C17: registration decides the schema contract. [buildRelationSchema]
    terminates on every type environment, cyclic ones included, and it succeeds
    exactly when the declarations reachable from the root obey the rules, read
    off the fields and their tags: every tag has the form [role,field] on a
    pointer or pointer slice to an entity, with a cardinality its role allows,
    and every such pointer has a tag (I1); every relation names a field of its
    target that is a scalar key, or the complementary relation where the role
    asks for one (I2); no type has two [ownedby] fields, and no chain of
    [ownedby] or of to-one [own] relations returns to its start (I3). It then
    returns one root per reachable type, listing that type's relations in
    declaration order; and every failure is [ErrRelationSchema]. The order in
    which Go ranges over the builder's map is irrelevant. *)
Theorem buildRelationSchema_decides `{!MapOrder string} (types : typeEnv) (root : string) :
  match buildRelationSchema types root with
  | Ok b =>
      schema_rules types root /\
      (forall t, is_Some (roots b !! t) <-> rtc (refers_to types) root t) /\
      (forall t r, roots b !! t = Some r -> Type_ r = t /\
         exists ixs, StronglySorted lt ixs /\ Forall2 (declares types t) ixs (Children r) /\
           forall i p, declares types t i p -> i ∈ ixs)
  | Fail e => e = ErrRelationSchema /\ ~ schema_rules types root
  | Panic => False
  end.
Proof.
  pose proof (build_decides types root) as H.
  destruct (buildRelationSchema types root) as [b|e|]; [|by rewrite schema_rules_ok|done].
  destruct H as (Hok & Hr & Hc).
  assert (Hreach : forall t, rtc (refers_to types) root t <-> rtc (type_edge types) root t)
    by (intros t; by apply reaches_iff).
  split_and!; [by apply schema_rules_ok|intros t; by rewrite Hr, Hreach|].
  intros t r Ht. destruct (schema_types _ _ Hok t) as (specs & Hs & _); [by apply Hr; eauto|].
  rewrite (Hc t specs) in Ht by (try done; by apply Hr; eauto). injection Ht as <-. split; [done|].
  by apply specs_in_order.
Qed.
