(* ===== verification/SchemaRows.v ===== *)
(** * Entities and rows (src/schema.go, and [relationKey] of src/relations.go)

    A row is the flat, persisted form of an entity: scalar fields as they
    are, a relation as the key(s) of its target(s). [schemaFor] derives the
    row type, [normalizeToSchema] flattens an entity, [inflateSlice] rebuilds
    entities whose relations are hollow pointers that carry only their key.
    An entity is a struct value; pointers are locations of a heap. *)
From S2P Require Import Prelude GoReflect RelationSchema.

Notation val_heap := (gmap loc goval) (only parsing).

(** ** Struct values by field name *)

Definition struct_fields (v : goval) : list goval := match v with VStruct l => l | _ => [] end.

Definition get_field (d : structDef) (v : goval) (name : string) : option goval :=
  p ← FieldByName d name; struct_fields v !! p.1.
Definition set_field (d : structDef) (v : goval) (name : string) (x : goval) : goval :=
  match FieldByName d name with
  | Some (i, _) => VStruct (<[i := x]> (struct_fields v))
  | None => v
  end.

(** [reflect.New(t).Elem()] for a declared struct. *)
Definition zero_struct (d : structDef) : goval := VStruct (zero_value ∘ ftype <$> fields d).

(** Slices of keys: a slice of uint8 keys is a byte slice. *)
Definition byte_of (v : goval) : byte :=
  match v with VUint z => default Byte.x00 (Byte.of_N (Z.to_N z)) | _ => Byte.x00 end.
Definition make_slice (e : gotype) (l : list goval) : goval :=
  if is_uint8 e then VBytes (Some (byte_of <$> l)) else VSlice (Some l).
Definition slice_elems (v : goval) : list goval :=
  match v with
  | VSlice o => default [] o
  | VBytes o => (fun b => VUint (Z.of_N (Byte.to_N b))) <$> default [] o
  | _ => []
  end.

Section rows.
Context (types : typeEnv).

(** A field of a struct type, by name. *)
Definition named_field (t name : string) : option (nat * structField) := d ← types !! t; FieldByName d name.
Definition field_exported (t name : string) : bool :=
  match named_field t name with Some p => exported p.2 | None => false end.

(** The field of a relation is exported: its pointers can be read as values
    and it can be set. [Register] also accepts relations in unexported fields. *)
Definition spec_exported (r : relationSpec) : bool := field_exported (owner r) (fieldName r).

(** ** Row types *)

Definition persistedRelation (r : relationSpec) : bool :=
  negb (many r) || bool_decide (kind r = borrowRelation) || bool_decide (kind r = optionRelation).

Definition relationColumnName (r : relationSpec) : string := fieldName r +:+ matchField r.

Definition relationColumnType (r : relationSpec) : outcome gotype :=
  match types !! target r ≫= fun d => FieldByName d (matchField r) with
  | None => Panic
  | Some (_, f) => Ok (if many r then TSlice (ftype f) else ftype f)
  end.

(** [specsByField]: the specs of a type by field name. The sync.Map in front
    of it is transparent as [relationSpecs_cached] is. *)
Definition specsByField (t : string) : outcome (gmap string relationSpec) :=
  specs ← relationSpecs types t;
  Ok (foldl (fun out r => <[fieldName r := r]> out) ∅ specs).

Record cachedSchema := {
  schema_fields : list (string * string); (* field name, column name *)
  rowType : structDef;
}.

Definition column (name : string) (exp : bool) (t : gotype) : structField :=
  {| fname := name; ftype := t; exported := exp; tag := [] |}.

(** The loop over the fields of the entity type. *)
Fixpoint schemaColumns (specs : gmap string relationSpec) (fs : list structField) :
    outcome (list (string * string) * list structField) :=
  match fs with
  | [] => Ok ([], [])
  | f :: rest =>
      match specs !! fname f with
      | Some r =>
          if negb (persistedRelation r) then schemaColumns specs rest else
          t ← relationColumnType r;
          out ← schemaColumns specs rest;
          Ok ((fname f, relationColumnName r) :: out.1, column (relationColumnName r) (exported f) t :: out.2)
      | None =>
          out ← schemaColumns specs rest;
          Ok ((fname f, fname f) :: out.1, column (fname f) (exported f) (ftype f) :: out.2)
      end
  end.

(** [reflect.StructOf] panics on a repeated field name and on an unexported
    field given without a package path. *)
Definition StructOf (columns : list structField) : outcome structDef :=
  if bool_decide (NoDup (fname <$> columns)) && forallb exported columns
  then Ok {| fields := columns; is_entity := false |} else Panic.

Definition schemaFor (t : string) : outcome cachedSchema :=
  match specsByField t, types !! t with
  | Ok specs, Some d =>
      cols ← schemaColumns specs (fields d);
      row ← StructOf cols.2;
      Ok {| schema_fields := cols.1; rowType := row |}
  | _, _ => Panic
  end.

(** ** Flattening *)

(** [relationKey] on a pointer to a struct of type [target]; [None] is
    [(_, false)]. *)
Definition relationKey (heap : val_heap) (tgt : string) (v : goval) (field : string) : option goval :=
  match v with
  | VPointer (Some l) =>
      s ← heap !! l; p ← named_field tgt field; f ← struct_fields s !! p.1;
      if is_zero (ftype p.2) f then None else Some f
  | _ => None
  end.

(** The body of the loop of [normalizeToSchema]. Setting a column to the value
    of an unexported field panics. *)
Definition normalizeField (heap : val_heap) (d : structDef) (specs : gmap string relationSpec)
    (sch : cachedSchema) (instance : goval) (row : goval) (pair : string * string) : outcome goval :=
  let '(fieldName, columnName) := pair in
  match get_field d instance fieldName, FieldByName (rowType sch) columnName with
  | Some field, Some (_, col) =>
      match specs !! fieldName with
      | None => Ok (set_field (rowType sch) row columnName field)
      | Some r =>
          if negb (many r) then
            match relationKey heap (target r) field (matchField r) with
            | Some key =>
                when negb (field_exported (target r) (matchField r)) => Panic ;;
                Ok (set_field (rowType sch) row columnName key)
            | None => Ok row
            end
          else
            let keys := omap (fun e => relationKey heap (target r) e (matchField r)) (slice_elems field) in
            when negb (bool_decide (keys = [])) && negb (field_exported (target r) (matchField r)) => Panic ;;
            match ftype col with
            | TSlice e => Ok (set_field (rowType sch) row columnName (make_slice e keys))
            | _ => Panic
            end
      end
  | _, _ => Panic
  end.

Definition normalizeToSchema (heap : val_heap) (t : string) (instance : goval) : outcome goval :=
  match specsByField t, types !! t with
  | Ok specs, Some d =>
      sch ← schemaFor t;
      fold_outcome (normalizeField heap d specs sch instance) (zero_struct (rowType sch)) (schema_fields sch)
  | _, _ => Panic
  end.

(** ** Inflating *)

(** [reflect.New(target)] with its match field set: a hollow pointer. An
    unexported or missing match field panics. *)
Definition new_hollow (heap : val_heap) (r : relationSpec) (key : goval) : outcome (val_heap * goval) :=
  match types !! target r with
  | Some d =>
      when negb (field_exported (target r) (matchField r)) => Panic ;;
      let l := fresh (dom heap) in
      Ok (<[l := set_field d (zero_struct d) (matchField r) key]> heap, VPointer (Some l))
  | None => Panic
  end.

Fixpoint new_hollows (heap : val_heap) (r : relationSpec) (keys : list goval) : outcome (val_heap * list goval) :=
  match keys with
  | [] => Ok (heap, [])
  | key :: rest =>
      p ← new_hollow heap r key;
      q ← new_hollows p.1 r rest;
      Ok (q.1, p.2 :: q.2)
  end.

(** The body of the inner loop of [inflateSlice]: one field of the entity. *)
Definition inflateField (d : structDef) (specs : gmap string relationSpec) (rowDef : structDef) (row : goval)
    (st : val_heap * goval) (pair : string * string) : outcome (val_heap * goval) :=
  let '(heap, dst) := st in
  let '(fieldName, columnName) := pair in
  match FieldByName rowDef columnName, get_field rowDef row columnName with
  | None, _ | _, None => Fail (ErrText "nestory: persisted column is missing")
  | Some (_, col), Some column =>
      match FieldByName d fieldName with
      | None => Fail (ErrText "nestory: entity field is missing or unsettable")
      | Some (_, f) =>
          when negb (exported f) => Fail (ErrText "nestory: entity field is missing or unsettable") ;;
          match specs !! fieldName with
          | None => Ok (heap, set_field d dst fieldName column)
          | Some r =>
              when negb (persistedRelation r) => Ok (heap, dst) ;;
              if negb (many r) then
                when is_zero (ftype col) column => Ok (heap, dst) ;;
                p ← new_hollow heap r column;
                Ok (p.1, set_field d dst fieldName p.2)
              else
                p ← new_hollows heap r (slice_elems column);
                Ok (p.1, set_field d dst fieldName (VSlice (Some p.2)))
          end
      end
  end.

(** The body of the outer loop, and the loop. *)
Definition inflateRow (d : structDef) (specs : gmap string relationSpec) (sch : cachedSchema)
    (heap : val_heap) (row : goval) : outcome (val_heap * goval) :=
  fold_outcome (inflateField d specs (rowType sch) row) (heap, zero_struct d) (schema_fields sch).

Fixpoint inflateRows (d : structDef) (specs : gmap string relationSpec) (sch : cachedSchema)
    (heap : val_heap) (rows : list goval) : outcome (val_heap * list goval) :=
  match rows with
  | [] => Ok (heap, [])
  | row :: rest =>
      p ← inflateRow d specs sch heap row;
      q ← inflateRows d specs sch p.1 rest;
      Ok (q.1, p.2 :: q.2)
  end.

Definition inflateSlice (heap : val_heap) (t : string) (rows : list goval) : outcome (val_heap * list goval) :=
  specs ← specsByField t;
  match types !! t with
  | Some d => sch ← schemaFor t; inflateRows d specs sch heap rows
  | None => Panic
  end.

(** ** Specification *)

(** A declared struct as Go admits it, and values of it. *)
Definition def_ok (d : structDef) : Prop := NoDup (fname <$> fields d).
Definition struct_ok (d : structDef) (v : goval) : Prop :=
  exists l, v = VStruct l /\ Forall2 (fun f x => value_ok (ftype f) x = true) (fields d) l.

(** The hollow target of a key. *)
Definition hollow (d : structDef) (r : relationSpec) (key : goval) : goval :=
  set_field d (zero_struct d) (matchField r) key.

(** The keys behind the pointers of a relation field. *)
Definition relation_keys (heap : val_heap) (r : relationSpec) (field : goval) : list goval :=
  omap (fun x => relationKey heap (target r) x (matchField r)) (if many r then slice_elems field else [field]).

(** A field that leads to the hollow targets of [keys]: each has its match
    field set to the key and every other field zero. *)
Definition leads_to_hollows (heap : val_heap) (r : relationSpec) (keys : list goval) (field : goval) : Prop :=
  exists td, types !! target r = Some td /\
    if many r
    then exists ls, field = VSlice (Some (VPointer ∘ Some <$> ls)) /\
           Forall2 (fun l key => heap !! l = Some (hollow td r key)) ls keys
    else match keys with
         | [] => field = VPointer None
         | key :: _ => exists l, field = VPointer (Some l) /\ heap !! l = Some (hollow td r key)
         end.

(** The slices the database computes from the other side. *)
Definition computed_slice (r : relationSpec) : bool :=
  many r && bool_decide (kind r = ownRelation \/ kind r = inverseRelation).

(** [e'] in [heap'] is what persistence keeps of [e] in [heap]: a field that is
    no relation is the same, a relation leads to hollow targets with the same
    keys, in order, and a computed slice is nil. *)
Definition restored (heap : val_heap) (t : string) (e : goval) (heap' : val_heap) (e' : goval) : Prop :=
  forall d specs f, types !! t = Some d -> relationSpecs types t = Ok specs -> f ∈ fields d ->
    (fname f ∉ fieldName <$> specs -> get_field d e' (fname f) = get_field d e (fname f)) /\
    forall r field, r ∈ specs -> fieldName r = fname f -> get_field d e (fname f) = Some field ->
      if computed_slice r then get_field d e' (fname f) = Some (VSlice None)
      else exists field', get_field d e' (fname f) = Some field' /\
             leads_to_hollows heap' r (relation_keys heap r field) field' /\
             relation_keys heap' r field' = relation_keys heap r field.

(** A typed entity: its fields have their types and its relation pointers lead
    to typed targets. *)
Definition entity_ok (heap : val_heap) (t : string) (e : goval) : Prop :=
  exists d, types !! t = Some d /\ def_ok d /\ struct_ok d e /\
    forall r specs field l, relationSpecs types t = Ok specs -> r ∈ specs ->
      get_field d e (fieldName r) = Some field ->
      VPointer (Some l) ∈ (if many r then slice_elems field else [field]) ->
      exists s td, heap !! l = Some s /\ types !! target r = Some td /\ def_ok td /\ struct_ok td s.
End rows.

(** * Lemmas *)

Lemma heap_difference_mono (m1 m2 m1' m2' : val_heap) : m1 ⊆ m1' -> m2' ⊆ m2 -> m1 ∖ m2 ⊆ m1' ∖ m2'.
Proof.
  intros H1 H2. apply map_subseteq_spec. intros l v [A B]%lookup_difference_Some. apply lookup_difference_Some.
  split; [by eapply lookup_weaken|by eapply lookup_weaken_None].
Qed.
Lemma heap_difference_sub (m1 m2 : val_heap) : m1 ∖ m2 ⊆ m1.
Proof. apply map_subseteq_spec. by intros l v [A B]%lookup_difference_Some. Qed.

Lemma get_set_same d v name x i f :
  FieldByName d name = Some (i, f) -> i < length (struct_fields v) ->
  get_field d (set_field d v name x) name = Some x.
Proof.
  intros E Hi. unfold get_field, set_field. rewrite E. cbn. by apply list_lookup_insert_eq.
Qed.

Lemma get_set_other d v name name' x :
  name <> name' -> get_field d (set_field d v name x) name' = get_field d v name'.
Proof.
  intros Hne. unfold get_field, set_field. destruct (FieldByName d name) as [[i f]|] eqn:E; [|done].
  destruct (FieldByName d name') as [[j g]|] eqn:E'; [|done]. cbn.
  apply list_lookup_insert_ne. intros ->. apply field_index_Some in E as [E1 <-], E' as [E2 <-]. congruence.
Qed.

Lemma length_set_field d v name x :
  length (struct_fields (set_field d v name x)) = length (struct_fields v).
Proof. unfold set_field. destruct (FieldByName d name) as [[i f]|]; [cbn; apply length_insert|done]. Qed.

Lemma length_zero_struct d : length (struct_fields (zero_struct d)) = length (fields d).
Proof. cbn. apply length_fmap. Qed.

Lemma struct_ok_get d v name i f :
  struct_ok d v -> FieldByName d name = Some (i, f) ->
  exists x, get_field d v name = Some x /\ value_ok (ftype f) x = true.
Proof.
  intros (l & -> & Hl) E. unfold get_field. rewrite E. cbn. apply field_index_Some in E as [E _].
  destruct (Forall2_lookup_l _ _ _ _ _ Hl E) as (x & Hx & Hok). eauto.
Qed.

Lemma byte_of_elems (bs : list byte) :
  byte_of <$> ((fun b => VUint (Z.of_N (Byte.to_N b))) <$> bs) = bs.
Proof.
  induction bs as [|b bs IH]; cbn; [done|]. rewrite N2Z.id, Byte.of_to_N, IH. done.
Qed.

(** A slice made of typed keys holds those keys. *)
Lemma slice_elems_make e l :
  Forall (fun x => value_ok e x = true) l -> slice_elems (make_slice e l) = l.
Proof.
  intros H. unfold make_slice. destruct (is_uint8 e) eqn:E; [|done].
  cbn. destruct e as [name k| | | | |]; try done. destruct k; try done.
  induction H as [|x l Hx _ IH]; cbn; [done|]. rewrite IH. f_equal.
  destruct x; try done. cbn in Hx |- *. apply andb_true_iff in Hx as [H1 H2].
  destruct (Byte.of_N (Z.to_N z)) as [b|] eqn:Eb.
  - cbn. apply Byte.to_of_N in Eb. rewrite Eb. f_equal. lia.
  - exfalso. assert (Byte.of_N (Z.to_N z) <> None) as Hn; [|done].
    clear Eb. rewrite Byte.of_N_None_iff. lia.
Qed.

(** Every spec of a type comes from the field it names. *)
Lemma specs_sound types t d specs r :
  types !! t = Some d -> def_ok d -> relationSpecs types t = Ok specs -> r ∈ specs ->
  exists f, FieldByName d (fieldName r) = Some (fieldIndex r, f) /\
    relationTarget types (ftype f) = (target r, many r, true) /\ owner r = t.
Proof.
  intros Hd Hok Hs Hr. unfold relationSpecs in Hs. rewrite Hd in Hs.
  destruct (parseFields_sound types t 0 _ _ _ Hs Hr) as (j & f & Hf & Hp).
  apply parseRelationField_sound in Hp as (Ho & Hi & Hn & Ht & _). cbn in Hi.
  exists f. unfold FieldByName. rewrite Hn, Hi. split; [by apply field_index_lookup|done].
Qed.

Lemma specsByField_Some types t sp :
  specsByField types t = Ok sp ->
  exists specs, relationSpecs types t = Ok specs /\
    forall name r, sp !! name = Some r -> r ∈ specs /\ fieldName r = name.
Proof.
  unfold specsByField. intros E. destruct (relationSpecs types t) as [specs| |]; [|done|done].
  injection E as <-. exists specs. split; [done|].
  assert (forall out : gmap string relationSpec, (forall name r, out !! name = Some r -> r ∈ specs /\ fieldName r = name) ->
    forall l, (forall r, r ∈ l -> r ∈ specs) ->
    forall name r, foldl (fun out r => <[fieldName r := r]> out) out l !! name = Some r ->
      r ∈ specs /\ fieldName r = name) as H.
  { intros out Hout l. revert out Hout. induction l as [|x l IH]; intros out Hout Hl name r; cbn; [apply Hout|].
    apply IH; [|set_solver]. intros name' r'. rewrite lookup_insert_Some.
    intros [[<- <-]|[_ ?]]; [split; [apply Hl; set_solver|done]|by apply Hout]. }
  apply H; [|done]. intros ? ?. by rewrite lookup_empty.
Qed.

Section roundtrip.
Context (types : typeEnv) (t : string) (d : structDef) (sp : gmap string relationSpec).
Context (Hd : types !! t = Some d) (Hok : def_ok d) (Hsp : specsByField types t = Ok sp).

(** What a schema pair and its column say of the entity field they persist. *)
Definition column_of (p : string * string) (c : structField) : Prop :=
  exists i f, FieldByName d p.1 = Some (i, f) /\ p.2 = fname c /\ exported c = exported f /\
    match sp !! p.1 with
    | None => ftype c = ftype f
    | Some r => persistedRelation r = true /\
        relationTarget types (ftype f) = (target r, many r, true) /\
        exists td j mf, types !! target r = Some td /\ FieldByName td (matchField r) = Some (j, mf) /\
          ftype c = if many r then TSlice (ftype mf) else ftype mf
    end.

Lemma schemaColumns_spec fs ps cols :
  (forall f, f ∈ fs -> f ∈ fields d) -> schemaColumns types sp fs = Ok (ps, cols) ->
  Forall2 column_of ps cols /\ ps.*1 `sublist_of` (fname <$> fs) /\
  (forall f, f ∈ fs -> (forall r, sp !! fname f = Some r -> persistedRelation r = true) -> fname f ∈ ps.*1).
Proof.
  revert ps cols. induction fs as [|f fs IH]; intros ps cols Hin E; cbn in E.
  { injection E as <- <-. split_and!; [constructor|done|by intros f ?%not_elem_of_nil]. }
  assert (Hf : exists i, FieldByName d (fname f) = Some (i, f)).
  { destruct (list_elem_of_lookup_1 (fields d) f) as [i Hi]; [apply Hin; set_solver|].
    exists i. by apply field_index_lookup. }
  destruct Hf as [i Hf]. specialize (fun a b => IH a b ltac:(set_solver)).
  destruct (sp !! fname f) as [r|] eqn:Er.
  - destruct (persistedRelation r) eqn:Ep; cbn [negb] in E.
    2:{ destruct (IH _ _ E) as (H1 & H2 & H3). split_and!; [done|by constructor|].
        intros g [->|Hg]%elem_of_cons Hp; [rewrite (Hp r Er) in Ep; done|by apply H3]. }
    destruct (relationColumnType types r) as [ct| |] eqn:Ec; cbn in E; [|done|done].
    destruct (schemaColumns types sp fs) as [[ps' cols']| |]; cbn in E; [|done|done].
    injection E as <- <-. destruct (IH _ _ eq_refl) as (H1 & H2 & H3).
    split_and!; [|by constructor|intros g [->|Hg]%elem_of_cons Hp; [by left|right; by apply H3]]. constructor; [|done].
    exists i, f. cbn. rewrite Er. split_and!; try done.
    + destruct (specsByField_Some types t sp Hsp) as (specs & Hs & Hall).
      destruct (Hall _ _ Er) as [Hr Hn]. destruct (specs_sound types t d specs r Hd Hok Hs Hr) as (f' & Hf' & Ht & _).
      rewrite Hn, Hf in Hf'. by injection Hf' as _ <-.
    + unfold relationColumnType in Ec. destruct (types !! target r) as [td|] eqn:Etd; [|done]. cbn in Ec.
      destruct (FieldByName td (matchField r)) as [[j mf]|] eqn:Emf; [|done]. injection Ec as <-.
      exists td, j, mf. done.
  - destruct (schemaColumns types sp fs) as [[ps' cols']| |]; cbn in E; [|done|done].
    injection E as <- <-. destruct (IH _ _ eq_refl) as (H1 & H2 & H3).
    split_and!; [|by constructor|intros g [->|Hg]%elem_of_cons Hp; [by left|right; by apply H3]].
    constructor; [|done]. exists i, f. cbn. by rewrite Er.
Qed.

(** The facts about the schema of [t] the two loops use. *)
Lemma schemaFor_spec sch :
  schemaFor types t = Ok sch ->
  Forall2 column_of (schema_fields sch) (fields (rowType sch)) /\ NoDup (schema_fields sch).*1 /\
  NoDup (fname <$> fields (rowType sch)) /\ forallb exported (fields (rowType sch)) = true /\
  (forall f, f ∈ fields d -> (forall r, sp !! fname f = Some r -> persistedRelation r = true) ->
     fname f ∈ (schema_fields sch).*1).
Proof.
  unfold schemaFor. rewrite Hsp, Hd. intros E.
  destruct (schemaColumns types sp (fields d)) as [[ps cols]| |] eqn:Es; cbn in E; [|done|done].
  unfold StructOf in E. destruct (bool_decide_reflect (NoDup (fname <$> cols))) as [Hnd|]; [|done].
  destruct (forallb exported cols) eqn:Hx; [|done]. cbn in E. injection E as <-. cbn.
  destruct (schemaColumns_spec _ _ _ (fun f H => H) Es) as (H1 & H2 & H3).
  split_and!; [done| |done|done|done]. eapply sublist_NoDup; [exact Hok|exact H2].
Qed.

(** The keys of a relation can be stored: there are none, or the match field
    they come from is exported. *)
Definition keys_settable (heap : val_heap) (e : goval) (p : string * string) : bool :=
  match sp !! p.1, get_field d e p.1 with
  | Some r, Some field =>
      bool_decide (relation_keys types heap r field = []) || field_exported types (target r) (matchField r)
  | _, _ => true
  end.

(** The value [normalizeToSchema] gives a column. *)
Definition normal_value (heap : val_heap) (e : goval) (p : string * string) (c : structField) : goval :=
  match get_field d e p.1 with
  | None => zero_value (ftype c)
  | Some field =>
      match sp !! p.1 with
      | None => field
      | Some r =>
          if negb (many r) then default (zero_value (ftype c)) (relationKey types heap (target r) field (matchField r))
          else match ftype c with
               | TSlice el => make_slice el
                   (omap (fun x => relationKey types heap (target r) x (matchField r)) (slice_elems field))
               | _ => zero_value (ftype c)
               end
      end
  end.

Lemma normalize_loop heap e sch ps cols pre vals :
  length (struct_fields e) = length (fields d) ->
  fields (rowType sch) = pre ++ cols -> NoDup (fname <$> fields (rowType sch)) ->
  Forall2 column_of ps cols -> length vals = length pre ->
  fold_outcome (normalizeField types heap d sp sch e) (VStruct (vals ++ (zero_value ∘ ftype <$> cols))) ps =
  if forallb (keys_settable heap e) ps then Ok (VStruct (vals ++ zip_with (normal_value heap e) ps cols)) else Panic.
Proof.
  intros Hlen Hf Hnd Hall. revert pre vals Hf. induction Hall as [|p c ps cols Hc Hall IH]; intros pre vals Hf Hv.
  { done. }
  cbn [fold_outcome]. destruct Hc as (i & f & HF & Hp2 & Hx & Hm).
  assert (Hcol : FieldByName (rowType sch) p.2 = Some (length pre, c)).
  { rewrite Hp2. apply field_index_lookup; [done|]. rewrite Hf. by rewrite lookup_app_r, Nat.sub_diag. }
  assert (Hg : exists field, get_field d e p.1 = Some field).
  { unfold get_field. rewrite HF. cbn. apply lookup_lt_is_Some. rewrite Hlen.
    apply field_index_Some in HF as [HF _]. by apply lookup_lt_Some in HF. }
  destruct Hg as [field Hg].
  assert (Hset : forall x, set_field (rowType sch) (VStruct (vals ++ (zero_value ∘ ftype <$> c :: cols))) p.2 x =
    VStruct ((vals ++ [x]) ++ (zero_value ∘ ftype <$> cols))).
  { intros x. unfold set_field. rewrite Hcol. cbn. rewrite insert_app_r_alt, Hv, Nat.sub_diag by lia.
    cbn. by rewrite <- app_assoc. }
  assert (Hstep : normalizeField types heap d sp sch e (VStruct (vals ++ (zero_value ∘ ftype <$> c :: cols))) p =
    if keys_settable heap e p then Ok (VStruct ((vals ++ [normal_value heap e p c]) ++ (zero_value ∘ ftype <$> cols))) else Panic).
  { unfold normalizeField, normal_value, keys_settable, relation_keys. destruct p as [p1 p2]. cbn [fst snd] in *. rewrite Hg, Hcol.
    destruct (sp !! p1) as [r|]; [|by rewrite Hset]. destruct Hm as (_ & _ & td & j & mf & _ & _ & Ht).
    destruct (many r) eqn:Em; cbn [negb].
    - rewrite Ht, Hset. by destruct (bool_decide _), (field_exported _ _ _).
    - cbn [omap list_omap]. destruct (relationKey _ _ _ _ _) as [key|]; cbn; [rewrite Hset; by destruct (field_exported _ _ _)|].
      by rewrite <- app_assoc. }
  rewrite Hstep. cbn [forallb]. destruct (keys_settable heap e p); [|done]. cbn [mbind outcome_bind andb].
  rewrite (IH (pre ++ [c])); [|by rewrite <- app_assoc|rewrite !length_app, Hv; done].
  rewrite <- app_assoc. done.
Qed.

Lemma normalizeToSchema_value heap e sch :
  length (struct_fields e) = length (fields d) -> schemaFor types t = Ok sch ->
  normalizeToSchema types heap t e =
  if forallb (keys_settable heap e) (schema_fields sch)
  then Ok (VStruct (zip_with (normal_value heap e) (schema_fields sch) (fields (rowType sch)))) else Panic.
Proof.
  intros Hlen Hs. destruct (schemaFor_spec sch Hs) as (H1 & H2 & H3 & H4 & _).
  unfold normalizeToSchema. rewrite Hsp, Hd, Hs. cbn [mbind outcome_bind].
  exact (normalize_loop heap e sch _ _ [] [] Hlen eq_refl H3 H1 eq_refl).
Qed.

(** What [inflateSlice] makes of a column value. *)
Definition inflated (heap : val_heap) (dst : goval) (p : string * string) (v : goval) : Prop :=
  match sp !! p.1 with
  | None => get_field d dst p.1 = Some v
  | Some r =>
      exists td j mf, types !! target r = Some td /\ FieldByName td (matchField r) = Some (j, mf) /\
      if negb (many r) then
        if is_zero (ftype mf) v then get_field d dst p.1 = Some (VPointer None)
        else exists l, get_field d dst p.1 = Some (VPointer (Some l)) /\ heap !! l = Some (hollow td r v)
      else exists ls, get_field d dst p.1 = Some (VSlice (Some (VPointer ∘ Some <$> ls))) /\
             Forall2 (fun l key => heap !! l = Some (hollow td r key)) ls (slice_elems v)
  end.

(** Inflation can set the keys of a column value. *)
Definition storable_keys (p : string * string) (v : goval) : Prop :=
  forall r td j mf, sp !! p.1 = Some r -> types !! target r = Some td -> FieldByName td (matchField r) = Some (j, mf) ->
    (if many r then slice_elems v = [] else is_zero (ftype mf) v = true) \/
    field_exported types (target r) (matchField r) = true.

Lemma inflated_mono heap heap' dst dst' p v :
  heap ⊆ heap' -> get_field d dst' p.1 = get_field d dst p.1 ->
  inflated heap dst p v -> inflated heap' dst' p v.
Proof.
  intros Hsub Hg. unfold inflated. destruct (sp !! p.1) as [r|]; [|by rewrite Hg].
  intros (td & j & mf & Ht & Hmf & H). exists td, j, mf. split; [done|]. split; [done|]. rewrite Hg.
  destruct (negb (many r)).
  - destruct (is_zero (ftype mf) v); [done|]. destruct H as (l & ? & ?). exists l. split; [done|by eapply lookup_weaken].
  - destruct H as (ls & ? & H). exists ls. split; [done|].
    eapply Forall2_impl; [exact H|]. intros l key. cbn. intros. by eapply lookup_weaken.
Qed.

Lemma new_hollows_spec r td heap keys :
  types !! target r = Some td -> keys = [] \/ field_exported types (target r) (matchField r) = true ->
  exists heap' ls, new_hollows types heap r keys = Ok (heap', VPointer ∘ Some <$> ls) /\ heap ⊆ heap' /\
    Forall2 (fun l key => (heap' ∖ heap) !! l = Some (hollow td r key)) ls keys.
Proof.
  intros Ht Hx. revert heap. induction keys as [|key keys IH]; intros heap; cbn.
  { exists heap, []. split_and!; [done|done|constructor]. }
  destruct Hx as [?|Hx]; [done|]. specialize (IH (or_intror Hx)).
  unfold new_hollow. rewrite Ht, Hx. cbn. set (l := fresh (dom heap)).
  assert (heap !! l = None) as Hl by apply not_elem_of_dom, is_fresh.
  fold (hollow td r key). destruct (IH (<[l := hollow td r key]> heap)) as (heap' & ls & E & Hsub & Hall).
  rewrite E. cbn. exists heap', (l :: ls). split_and!; [done| |].
  - transitivity (<[l := hollow td r key]> heap); [by apply insert_subseteq|done].
  - constructor.
    + apply lookup_difference_Some. split; [|done]. eapply lookup_weaken; [|exact Hsub]. by rewrite lookup_insert_eq.
    + eapply Forall2_impl; [exact Hall|]. intros l' key' [H1 H2]%lookup_difference_Some.
      apply lookup_difference_Some. split; [done|]. by apply lookup_insert_None in H2 as [? _].
Qed.

Lemma inflate_step rowDef row heap dst p c v :
  column_of p c -> exported c = true -> get_field rowDef row p.2 = Some v ->
  length (struct_fields dst) = length (fields d) ->
  (forall r, sp !! p.1 = Some r -> many r = false -> get_field d dst p.1 = Some (VPointer None)) ->
  storable_keys p v -> (exists k, FieldByName rowDef p.2 = Some (k, c)) ->
  exists heap' dst', inflateField types d sp rowDef row (heap, dst) p = Ok (heap', dst') /\
    heap ⊆ heap' /\ length (struct_fields dst') = length (fields d) /\
    (forall name, name <> p.1 -> get_field d dst' name = get_field d dst name) /\
    inflated (heap' ∖ heap) dst' p v.
Proof.
  intros (i & f & HF & Hp2 & Hx & Hm) Hc Hv Hlen Hzero Hkx [k Hcol]. destruct p as [p1 p2]. cbn [fst snd] in *.
  assert (Hi : i < length (struct_fields dst)).
  { rewrite Hlen. apply field_index_Some in HF as [HF _]. by apply lookup_lt_Some in HF. }
  assert (Hset : forall x, length (struct_fields (set_field d dst p1 x)) = length (fields d) /\
    (forall name, name <> p1 -> get_field d (set_field d dst p1 x) name = get_field d dst name) /\
    get_field d (set_field d dst p1 x) p1 = Some x).
  { intros x. split_and!; [by rewrite length_set_field|intros; by apply get_set_other|by eapply get_set_same]. }
  unfold inflateField, inflated. cbn [fst snd]. rewrite Hv, Hcol, HF, <- Hx, Hc. cbn [negb].
  destruct (sp !! p1) as [r|] eqn:Er.
  - destruct Hm as (Hp & _ & td & j & mf & Ht & Hmf & Hct). rewrite Hp. cbn [negb]. specialize (Hkx r td j mf Er Ht Hmf).
    destruct (many r) eqn:Em; cbn [negb].
    + destruct (new_hollows_spec r td heap (slice_elems v) Ht Hkx) as (heap' & ls & -> & Hsub & Hall).
      cbn [mbind outcome_bind fst snd]. destruct (Hset (VSlice (Some (VPointer ∘ Some <$> ls)))) as (A & B & C).
      eexists _, _. split_and!; try done. exists td, j, mf. split_and!; [done..|]. by exists ls.
    + rewrite Hct. destruct (is_zero (ftype mf) v) eqn:Ez.
      * exists heap, dst. split_and!; try done. exists td, j, mf. rewrite Ez. split_and!; [done..|]. by apply (Hzero r).
      * destruct Hkx as [?|Hkx]; [done|]. unfold new_hollow. rewrite Ht, Hkx. cbn [negb mbind outcome_bind fst snd]. set (l := fresh (dom heap)).
        assert (heap !! l = None) as Hl by apply not_elem_of_dom, is_fresh.
        destruct (Hset (VPointer (Some l))) as (A & B & C).
        eexists _, _. split_and!; try done; [by apply insert_subseteq|].
        exists td, j, mf. rewrite Ez. split_and!; [done..|]. exists l. split; [done|]. apply lookup_difference_Some. by rewrite lookup_insert_eq.
  - destruct (Hset v) as (A & B & C). eexists _, _. split_and!; done.
Qed.

Lemma inflate_loop rowDef ps cols pre done_ vs heap dst :
  fields rowDef = pre ++ cols -> NoDup (fname <$> fields rowDef) -> forallb exported cols = true ->
  Forall2 column_of ps cols -> length done_ = length pre -> length vs = length cols ->
  NoDup ps.*1 -> length (struct_fields dst) = length (fields d) -> Forall2 storable_keys ps vs ->
  (forall p r, p ∈ ps -> sp !! p.1 = Some r -> many r = false -> get_field d dst p.1 = Some (VPointer None)) ->
  exists heap' dst',
    fold_outcome (inflateField types d sp rowDef (VStruct (done_ ++ vs))) (heap, dst) ps = Ok (heap', dst') /\
    heap ⊆ heap' /\ length (struct_fields dst') = length (fields d) /\
    (forall name, name ∉ ps.*1 -> get_field d dst' name = get_field d dst name) /\
    Forall2 (inflated (heap' ∖ heap) dst') ps vs.
Proof.
  intros Hf Hnd Hx Hall. revert pre done_ vs heap dst Hf Hx.
  induction Hall as [|p c ps cols Hc Hall IH]; intros pre done_ vs heap dst Hf Hx Hl Hvs Hps Hlen Hst Hz.
  { destruct vs; [|done]. exists heap, dst. split_and!; try done. }
  destruct vs as [|v vs]; [done|]. cbn in Hx. apply andb_true_iff in Hx as [Hxc Hx].
  cbn in Hps. apply NoDup_cons in Hps as [Hnp Hps]. cbn in Hvs. apply Forall2_cons in Hst as [Hst0 Hst].
  assert (Hcol : exists k, FieldByName rowDef p.2 = Some (k, c)).
  { pose proof Hc as (? & ? & _ & -> & _). exists (length pre). apply field_index_lookup; [done|]. rewrite Hf.
    by rewrite lookup_app_r, Nat.sub_diag. }
  assert (Hg : get_field rowDef (VStruct (done_ ++ v :: vs)) p.2 = Some v).
  { unfold get_field. pose proof Hc as (? & ? & _ & -> & _).
    assert (FieldByName rowDef (fname c) = Some (length pre, c)) as ->.
    { apply field_index_lookup; [done|]. rewrite Hf. by rewrite lookup_app_r, Nat.sub_diag. }
    cbn. by rewrite lookup_app_r, Hl, Nat.sub_diag by lia. }
  destruct (inflate_step rowDef (VStruct (done_ ++ v :: vs)) heap dst p c v Hc Hxc Hg Hlen)
    as (heap1 & dst1 & E1 & Hsub1 & Hlen1 & Hoth1 & Hinf1).
  { intros r Hr Hm. apply (Hz p r); [set_solver|done|done]. }
  { done. }
  { done. }
  cbn [fold_outcome]. rewrite E1. cbn [mbind outcome_bind].
  destruct (IH (pre ++ [c]) (done_ ++ [v]) vs heap1 dst1) as (heap2 & dst2 & E2 & Hsub2 & Hlen2 & Hoth2 & Hinf2).
  - by rewrite <- app_assoc.
  - done.
  - rewrite !length_app. cbn. lia.
  - lia.
  - done.
  - done.
  - done.
  - intros q r Hq Hr Hm. rewrite Hoth1; [apply (Hz q r); [set_solver|done|done]|].
    intros E. apply Hnp. rewrite <- E. by apply list_elem_of_fmap_2.
  - rewrite <- app_assoc in E2. cbn [app] in E2. exists heap2, dst2. split_and!; [done|by transitivity heap1|done| |].
    + intros name Hn. cbn in Hn. rewrite Hoth2, Hoth1 by set_solver. done.
    + constructor.
      * eapply inflated_mono; [|by apply Hoth2|exact Hinf1]. by apply heap_difference_mono.
      * eapply Forall2_impl; [exact Hinf2|]. intros q v' Hq. eapply inflated_mono; [|done|exact Hq].
        by apply heap_difference_mono.
Qed.

(** A column value is made of the keys of its field. *)
Lemma normal_value_keys heap e (p : string * string) c r field :
  sp !! p.1 = Some r -> get_field d e p.1 = Some field ->
  normal_value heap e p c =
  if many r then match ftype c with
                 | TSlice el => make_slice el (relation_keys types heap r field)
                 | _ => zero_value (ftype c) end
  else default (zero_value (ftype c)) (head (relation_keys types heap r field)).
Proof.
  intros Hr Hg. unfold normal_value, relation_keys. rewrite Hg, Hr. destruct (many r); [done|]. cbn.
  by destruct (relationKey _ _ _ _ _).
Qed.

(** The keys of a typed entity are typed and not zero. *)
Lemma relation_keys_ok heap e (p : string * string) r field td j mf :
  entity_ok types heap t e -> sp !! p.1 = Some r -> get_field d e p.1 = Some field ->
  types !! target r = Some td -> FieldByName td (matchField r) = Some (j, mf) ->
  Forall (fun key => is_zero (ftype mf) key = false /\ value_ok (ftype mf) key = true) (relation_keys types heap r field).
Proof.
  intros (d' & Hd' & _ & He & Hptr) Er Hg Ht HFm. rewrite Hd in Hd'. injection Hd' as <-.
  destruct (specsByField_Some types t sp Hsp) as (specs & Hs & Hall). destruct (Hall _ _ Er) as [Hr Hn].
  apply Forall_forall. intros key Hk. unfold relation_keys in Hk. apply list_elem_of_omap in Hk as (x & Hin & Hk).
  unfold relationKey in Hk. destruct x as [| | | | | | | | |[l|]|]; try done.
  destruct (Hptr r specs field l Hs Hr) as (s & td' & Hls & Ht' & _ & Hsok); [by rewrite Hn|done|].
  rewrite Ht in Ht'. injection Ht' as <-.
  destruct (struct_ok_get td s _ _ _ Hsok HFm) as (x & Hgx & Hxok). unfold get_field in Hgx. rewrite HFm in Hgx. cbn in Hgx.
  rewrite Hls in Hk. unfold named_field in Hk. rewrite Ht in Hk. cbn in Hk. rewrite HFm in Hk. cbn in Hk. rewrite Hgx in Hk. cbn in Hk.
  destruct (is_zero (ftype mf) x) eqn:Ez; [done|]. by injection Hk as <-.
Qed.

Lemma hollow_key heap r td j mf l key :
  types !! target r = Some td -> FieldByName td (matchField r) = Some (j, mf) ->
  heap !! l = Some (hollow td r key) -> is_zero (ftype mf) key = false ->
  relationKey types heap (target r) (VPointer (Some l)) (matchField r) = Some key.
Proof.
  intros Ht HFm Hl Hk. unfold relationKey, named_field. rewrite Hl, Ht. cbn. rewrite HFm. cbn.
  assert (get_field td (hollow td r key) (matchField r) = Some key) as Hg.
  { unfold hollow. apply (get_set_same td _ _ key j mf HFm). rewrite length_zero_struct.
    apply field_index_Some in HFm as [HFm _]. by apply lookup_lt_Some in HFm. }
  unfold get_field in Hg. rewrite HFm in Hg. cbn in Hg. rewrite Hg. cbn. by rewrite Hk.
Qed.

Lemma hollow_keys heap r td j mf ls keys :
  types !! target r = Some td -> FieldByName td (matchField r) = Some (j, mf) ->
  Forall2 (fun l key => heap !! l = Some (hollow td r key)) ls keys ->
  Forall (fun key => is_zero (ftype mf) key = false /\ value_ok (ftype mf) key = true) keys ->
  omap (fun x => relationKey types heap (target r) x (matchField r)) (VPointer ∘ Some <$> ls) = keys.
Proof.
  intros Ht HFm Hall Hk. induction Hall as [|l key ls keys Hl Hls IH]; [done|].
  apply Forall_cons in Hk as [[Hz _] Hk]. rewrite fmap_cons. cbn [omap list_omap].
  change ((VPointer ∘ Some) l) with (VPointer (Some l)). rewrite (hollow_key heap r td j mf l key Ht HFm Hl Hz).
  f_equal. by apply IH.
Qed.

(** An inflated field leads to the hollow targets of the keys it came from. *)
Lemma inflated_hollows heap e heap' dst p c r field :
  column_of p c -> entity_ok types heap t e -> inflated heap' dst p (normal_value heap e p c) ->
  sp !! p.1 = Some r -> get_field d e p.1 = Some field ->
  exists field', get_field d dst p.1 = Some field' /\
    leads_to_hollows types heap' r (relation_keys types heap r field) field' /\
    relation_keys types heap' r field' = relation_keys types heap r field.
Proof.
  intros (i & f & HF & Hp2 & Hx & Hm) He Hinf Er Hg. unfold inflated in Hinf. rewrite Er in Hm, Hinf.
  destruct Hm as (Hp & Hshape & td & j & mf & Ht & HFm & Hct).
  destruct Hinf as (td' & j' & mf' & Ht' & HFm' & Hinf). rewrite Ht in Ht'. injection Ht' as <-.
  rewrite HFm in HFm'. injection HFm' as <- <-.
  pose proof (relation_keys_ok heap e p r field td j mf He Er Hg Ht HFm) as Hkok.
  rewrite (normal_value_keys heap e p c r field Er Hg), Hct in Hinf. unfold leads_to_hollows.
  destruct (many r) eqn:Em; cbn [negb] in Hinf.
  - rewrite slice_elems_make in Hinf by (eapply Forall_impl; [exact Hkok|]; naive_solver).
    destruct Hinf as (ls & Hgl & Hls). eexists. split_and!; [done|by exists td; split; [done|]; exists ls|].
    unfold relation_keys at 1. rewrite Em. cbn [slice_elems default]. by eapply hollow_keys.
  - assert (Hlen : length (relation_keys types heap r field) <= 1).
    { unfold relation_keys. rewrite Em. cbn. destruct (relationKey _ _ _ _ _); cbn; lia. }
    destruct (relation_keys types heap r field) as [|key [|]] eqn:Ek; cbn in Hlen; [| |lia]; cbn [head default] in Hinf.
    + unfold id in Hinf. cbn in Hinf. rewrite is_zero_zero in Hinf. eexists. split_and!; [done|by exists td|].
      unfold relation_keys. by rewrite Em.
    + apply Forall_cons in Hkok as [[Hz _] _]. cbn in Hinf. unfold id in Hinf. rewrite Hz in Hinf.
      destruct Hinf as (l & Hgl & Hl). eexists. split_and!; [done|exists td; split; [done|]; by exists l|].
      unfold relation_keys. rewrite Em. cbn [omap list_omap]. by rewrite (hollow_key heap' r td j mf l key Ht HFm Hl Hz).
Qed.

(** The row of an inflated entity is the row it was inflated from. *)
Lemma normal_value_inflated heap e heap' dst p c :
  column_of p c -> entity_ok types heap t e -> inflated heap' dst p (normal_value heap e p c) ->
  normal_value heap' dst p c = normal_value heap e p c /\ keys_settable heap' dst p = keys_settable heap e p.
Proof.
  intros Hc He Hinf. pose proof Hc as (i & f & HF & _). pose proof He as (d' & Hd' & _ & Hs & _).
  rewrite Hd in Hd'. injection Hd' as <-. destruct (struct_ok_get d e p.1 i f Hs HF) as (field & Hg & _).
  unfold keys_settable. rewrite Hg. destruct (sp !! p.1) as [r|] eqn:Er.
  - destruct (inflated_hollows heap e heap' dst p c r field Hc He Hinf Er Hg) as (field' & Hg' & _ & Hk).
    by rewrite (normal_value_keys heap' dst p c r field' Er Hg'), (normal_value_keys heap e p c r field Er Hg), Hg', Hk.
  - unfold inflated in Hinf. rewrite Er in Hinf. split; [|by destruct (get_field _ _ _)]. unfold normal_value at 1. by rewrite Hinf, Er.
Qed.

Lemma normal_value_storable heap e p c :
  column_of p c -> entity_ok types heap t e -> keys_settable heap e p = true -> storable_keys p (normal_value heap e p c).
Proof.
  intros Hc He Hk r td j mf Er Ht HFm. pose proof Hc as (i & f & HF & _ & _ & Hm). pose proof He as (d' & Hd' & _ & Hs & _).
  rewrite Hd in Hd'. injection Hd' as <-. destruct (struct_ok_get d e p.1 i f Hs HF) as (field & Hg & _).
  rewrite Er in Hm. destruct Hm as (_ & _ & td' & j' & mf' & Ht' & HFm' & Hct). rewrite Ht in Ht'. injection Ht' as <-.
  rewrite HFm in HFm'. injection HFm' as <- <-. unfold keys_settable in Hk. rewrite Er, Hg in Hk.
  apply orb_true_iff in Hk as [Hk|]; [left|by right]. apply bool_decide_eq_true in Hk.
  rewrite (normal_value_keys heap e p c r field Er Hg), Hk, Hct. destruct (many r).
  - unfold make_slice. by destruct (is_uint8 _).
  - cbn. apply is_zero_zero.
Qed.

(** Every field the schema leaves out is a computed slice. *)
Lemma persisted_iff r specs : relationSpecs types t = Ok specs -> r ∈ specs -> persistedRelation r = negb (computed_slice r).
Proof.
  intros Hs Hr. unfold relationSpecs in Hs. rewrite Hd in Hs.
  destruct (parseFields_sound types t 0 _ _ _ Hs Hr) as (j & f & _ & Hp).
  apply parseRelationField_sound in Hp as (_ & _ & _ & _ & _ & Hsh). unfold persistedRelation, computed_slice.
  by destruct (many r), (kind r).
Qed.

Lemma specsByField_complete specs r : relationSpecs types t = Ok specs -> r ∈ specs -> sp !! fieldName r = Some r.
Proof.
  intros Hs Hr. unfold specsByField in Hsp. rewrite Hs in Hsp. injection Hsp as <-.
  assert (Huniq : forall s, s ∈ specs -> fieldName s = fieldName r -> s = r).
  { intros s Hs' Hn. destruct (specs_sound types t d specs r Hd Hok Hs Hr) as (f & Hf & _).
    destruct (specs_sound types t d specs s Hd Hok Hs Hs') as (g & Hg & _). rewrite Hn, Hf in Hg. injection Hg as Hi _.
    pose proof (StronglySorted_NoDup_lt _ (specs_nodup types t specs Hs)) as Hnd.
    apply list_elem_of_lookup in Hr as [x Hx], Hs' as [y Hy].
    assert (x = y) as ->; [|congruence]. apply (NoDup_lookup _ x y (fieldIndex r) Hnd); rewrite list_lookup_fmap, ?Hx, ?Hy; cbn; congruence. }
  revert Huniq Hr. clear. generalize (∅ : gmap string relationSpec).
  induction specs as [|s specs IH] using rev_ind; intros m Hu Hr; [by apply not_elem_of_nil in Hr|].
  rewrite foldl_app. cbn. destruct (decide (fieldName s = fieldName r)) as [E|E].
  - rewrite E, lookup_insert_eq. f_equal. apply Hu; [set_solver|done].
  - rewrite lookup_insert_ne by done. apply IH; [intros; apply Hu; set_solver|]. apply elem_of_app in Hr as [?|Hr]; [done|].
    apply list_elem_of_singleton in Hr as ->. done.
Qed.

(** Inflating the columns of an entity restores its fields. *)
Lemma inflated_restores heap e heap' dst (ps : list (string * string)) (cols : list structField) :
  entity_ok types heap t e -> Forall2 column_of ps cols ->
  Forall2 (inflated heap' dst) ps (zip_with (normal_value heap e) ps cols) ->
  (forall f, f ∈ fields d -> (forall r, sp !! fname f = Some r -> persistedRelation r = true) -> fname f ∈ ps.*1) ->
  (forall name, name ∉ ps.*1 -> get_field d dst name = get_field d (zero_struct d) name) ->
  restored types heap t e heap' dst.
Proof.
  intros He Hcols Hinf Hin Hout d' specs f Hd' Hs Hf. rewrite Hd in Hd'. injection Hd' as <-.
  pose proof He as (d' & Hd' & _ & Hst & _). rewrite Hd in Hd'. injection Hd' as <-.
  apply list_elem_of_lookup in Hf as [i Hi]. assert (HF : FieldByName d (fname f) = Some (i, f)) by exact (field_index_lookup _ _ _ Hok Hi).
  destruct (struct_ok_get d e (fname f) i f Hst HF) as (field & Hg & _).
  assert (Hat : (forall r, sp !! fname f = Some r -> persistedRelation r = true) ->
    exists p c, p.1 = fname f /\ column_of p c /\ inflated heap' dst p (normal_value heap e p c)).
  { intros Hp. assert (fname f ∈ ps.*1) as Hfp by (apply Hin; [by eapply list_elem_of_lookup_2|done]).
    apply list_elem_of_fmap in Hfp as (p & Hpf & Hpin).
    apply list_elem_of_lookup in Hpin as [k Hk]. destruct (Forall2_lookup_l _ _ _ _ _ Hcols Hk) as (c & Hc & Hcol).
    exists p, c. split_and!; [done|done|]. eapply (Forall2_lookup_lr _ _ _ _ _ _ Hinf Hk). rewrite lookup_zip_with, Hk, Hc. done. }
  split.
  - intros Hno. destruct Hat as (p & c & Hp1 & Hc & Hv).
    { intros r Er. destruct (specsByField_Some types t sp Hsp) as (specs' & Hs' & Hall). rewrite Hs in Hs'. injection Hs' as <-.
      destruct (Hall _ _ Er) as [Hr Hn]. exfalso. apply Hno. rewrite <- Hn. by apply list_elem_of_fmap_2. }
    assert (sp !! fname f = None) as En.
    { destruct (sp !! fname f) as [r|] eqn:Er; [|done]. destruct (specsByField_Some types t sp Hsp) as (specs' & Hs' & Hall).
      rewrite Hs in Hs'. injection Hs' as <-. destruct (Hall _ _ Er) as [Hr Hn]. exfalso. apply Hno. rewrite <- Hn. by apply list_elem_of_fmap_2. }
    unfold inflated, normal_value in Hv. rewrite Hp1, En, Hg in Hv. by rewrite Hv.
  - intros r field0 Hr Hn Hg0. rewrite Hg in Hg0. injection Hg0 as <-.
    pose proof (specsByField_complete specs r Hs Hr) as Er. rewrite Hn in Er.
    pose proof (persisted_iff r specs Hs Hr) as Hpers. destruct (computed_slice r) eqn:Ec; cbn in Hpers.
    + rewrite Hout; [|intros Hfp; apply list_elem_of_fmap in Hfp as (p & Hp1 & Hpin)].
      * destruct (specs_sound types t d specs r Hd Hok Hs Hr) as (f' & Hf' & Hsh & _). rewrite Hn, HF in Hf'. injection Hf' as _ <-.
        unfold computed_slice in Ec. destruct (many r) eqn:Em; [|done]. unfold get_field. rewrite HF. cbn.
        rewrite list_lookup_fmap, Hi. cbn. unfold relationTarget in Hsh. by destruct (ftype f) as [| [] | | | |].
      * apply list_elem_of_lookup in Hpin as [k Hk]. destruct (Forall2_lookup_l _ _ _ _ _ Hcols Hk) as (c & _ & ? & ? & _ & _ & _ & Hm).
        rewrite <- Hp1, Er in Hm. destruct Hm as [Hm _]. congruence.
    + destruct Hat as (p & c & Hp1 & Hc & Hv); [intros r' Er'; rewrite Er in Er'; by injection Er' as <-|].
      rewrite <- Hp1 in Er, Hg |- *. by eapply inflated_hollows.
Qed.
End roundtrip.

(** A row that persists an entity inflates in any heap, the cells inflation
    allocates are all it takes to get the row back, and the fields are restored. *)
Lemma row_restored types t heap e row heap0 :
  entity_ok types heap t e -> normalizeToSchema types heap t e = Ok row ->
  exists heap' e', inflateSlice types heap0 t [row] = Ok (heap', [e']) /\ heap0 ⊆ heap' /\
    (forall heap'', heap' ∖ heap0 ⊆ heap'' -> normalizeToSchema types heap'' t e' = Ok row /\ restored types heap t e heap'' e') /\
    (forall d, types !! t = Some d -> length (struct_fields e') = length (fields d)).
Proof.
  intros He Hn. pose proof He as (d & Hd & Hok & Hs & _).
  destruct (specsByField types t) as [sp| |] eqn:Hsp;
    [|unfold normalizeToSchema in Hn; by rewrite Hsp in Hn..].
  destruct (schemaFor types t) as [sch| |] eqn:Hsch;
    [|unfold normalizeToSchema in Hn; by rewrite Hsp, Hd, Hsch in Hn..].
  assert (Hlen : length (struct_fields e) = length (fields d)).
  { destruct Hs as (l & -> & Hl). symmetry. by eapply Forall2_length. }
  rewrite (normalizeToSchema_value types t d sp Hd Hok Hsp heap e sch Hlen Hsch) in Hn.
  destruct (forallb (keys_settable types d sp heap e) (schema_fields sch)) eqn:Hset; [|done]. injection Hn as <-.
  destruct (schemaFor_spec types t d sp Hd Hok Hsp sch Hsch) as (H1 & H2 & H3 & H4 & H5).
  set (vals := zip_with _ _ _).
  assert (Hvals : length vals = length (fields (rowType sch))).
  { subst vals. rewrite length_zip_with. apply Forall2_length in H1. lia. }
  destruct (inflate_loop types t d sp Hd Hok Hsp (rowType sch) (schema_fields sch) (fields (rowType sch)) [] [] vals heap0
    (zero_struct d)) as (heap' & e' & E & Hsub & Hlen' & Hout & Hinf); try done.
  { apply length_zero_struct. }
  { subst vals. apply Forall2_same_length_lookup_2; [rewrite length_zip_with; apply Forall2_length in H1; lia|].
    intros k p v Hp Hv. rewrite lookup_zip_with, Hp in Hv. cbn in Hv. destruct (fields (rowType sch) !! k) as [c|] eqn:Hc; [|done].
    injection Hv as <-. eapply normal_value_storable; [exact Hd|exact (Forall2_lookup_lr _ _ _ _ _ _ H1 Hp Hc)|exact He|].
    rewrite forallb_forall in Hset. apply Hset, list_elem_of_In. by eapply list_elem_of_lookup_2. }
  { intros p r Hp Hr Hm. apply list_elem_of_lookup in Hp as [k Hp].
    destruct (Forall2_lookup_l _ _ _ _ _ H1 Hp) as (c & Hc & i & f & HF & _ & _ & Hcol).
    rewrite Hr in Hcol. destruct Hcol as (_ & Hshape & _). rewrite Hm in Hshape.
    unfold get_field. rewrite HF. cbn. apply field_index_Some in HF as [HF _].
    rewrite list_lookup_fmap, HF. cbn. unfold relationTarget in Hshape.
    destruct (ftype f) as [| [] | | | |]; try done. }
  exists heap', e'. split_and!; [|done| |intros d0 Hd0; rewrite Hd in Hd0; by injection Hd0 as <-].
  - unfold inflateSlice. rewrite Hsp, Hd, Hsch. cbn [mbind outcome_bind inflateRows].
    unfold inflateRow. cbn [app] in E. by rewrite E.
  - intros heap'' Hsub'.
    assert (Forall2 (inflated types d sp heap'' e') (schema_fields sch) vals) as Hinf'.
    { eapply Forall2_impl; [exact Hinf|]. intros p v Hp. by eapply inflated_mono. }
    split; [|by eapply inflated_restores].
    rewrite (normalizeToSchema_value types t d sp Hd Hok Hsp heap'' e' sch Hlen' Hsch).
    enough (forallb (keys_settable types d sp heap'' e') (schema_fields sch) = true /\ zip_with (normal_value types d sp heap'' e') (schema_fields sch) (fields (rowType sch)) = vals) as [-> ->] by done.
    rewrite <- Hset.
    clear Hinf H5 Hout E Hset Hvals H2 H3 H4. subst vals. revert Hinf'.
    enough (forall ps cols, Forall2 (column_of types d sp) ps cols ->
      Forall2 (inflated types d sp heap'' e') ps (zip_with (normal_value types d sp heap e) ps cols) ->
      zip_with (normal_value types d sp heap'' e') ps cols = zip_with (normal_value types d sp heap e) ps cols /\
      forallb (keys_settable types d sp heap'' e') ps = forallb (keys_settable types d sp heap e) ps) as Hgen.
    { intros Hinf'. by destruct (Hgen _ _ H1 Hinf') as [-> ->]. }
    intros ps cols Hall. induction Hall as [|p c ps cols Hc Hall IH]; intros Hinf; [done|].
    cbn in Hinf |- *. apply Forall2_cons in Hinf as [Hp Hinf]. destruct (IH Hinf) as [-> ->].
    destruct (normal_value_inflated types t d sp Hd Hsp heap e heap'' e' p c Hc He Hp) as [-> ->]. done.
Qed.

Lemma row_inflates types t heap e row heap0 :
  entity_ok types heap t e -> normalizeToSchema types heap t e = Ok row ->
  exists heap' e', inflateSlice types heap0 t [row] = Ok (heap', [e']) /\ heap0 ⊆ heap' /\
    (forall heap'', heap' ∖ heap0 ⊆ heap'' -> normalizeToSchema types heap'' t e' = Ok row) /\
    (forall d, types !! t = Some d -> length (struct_fields e') = length (fields d)).
Proof.
  intros He Hn. destruct (row_restored types t heap e row heap0 He Hn) as (heap' & e' & E & Hsub & H & Hl).
  exists heap', e'. split_and!; [done|done|by intros; apply H|done].
Qed.

(** A type without relations: its entities are their own rows. *)
Lemma direct_row types t d sch heap e :
  types !! t = Some d -> def_ok d -> relationSpecs types t = Ok [] -> schemaFor types t = Ok sch ->
  length (struct_fields e) = length (fields d) ->
  normalizeToSchema types heap t e = Ok (VStruct (struct_fields e)).
Proof.
  intros Hd Hok Hs Hsch Hlen. assert (specsByField types t = Ok ∅) as Hsp by (unfold specsByField; by rewrite Hs).
  rewrite (normalizeToSchema_value types t d ∅ Hd Hok Hsp heap e sch Hlen Hsch).
  assert (forallb (keys_settable types d ∅ heap e) (schema_fields sch) = true) as ->.
  { apply forallb_forall. intros p _. unfold keys_settable. by rewrite lookup_empty. }
  do 2 f_equal.
  unfold schemaFor in Hsch. rewrite Hsp, Hd in Hsch.
  assert (forall fs, schemaColumns types ∅ fs =
    Ok ((fun f => (fname f, fname f)) <$> fs, (fun f => column (fname f) (exported f) (ftype f)) <$> fs)) as Hcols.
  { induction fs as [|f fs IH]; [done|]. cbn. rewrite lookup_empty, IH. done. }
  rewrite Hcols in Hsch. cbn in Hsch. unfold StructOf in Hsch. destruct (_ && _) in Hsch; [|done].
  cbn in Hsch. injection Hsch as <-. cbn.
  apply list_eq. intros i. rewrite lookup_zip_with, !list_lookup_fmap. cbn.
  destruct (fields d !! i) as [f|] eqn:Hf; cbn.
  - unfold normal_value, get_field, FieldByName. cbn. rewrite (field_index_lookup _ _ _ Hok Hf). cbn.
    destruct (struct_fields e !! i) as [x|] eqn:Ex; cbn; [by rewrite lookup_empty|].
    apply lookup_ge_None in Ex. apply lookup_lt_Some in Hf. lia.
  - symmetry. apply lookup_ge_None. apply lookup_ge_None in Hf. lia.
Qed.

(** * Properties *)

(** C23: persistence loses nothing of a row but the computed slices. Flattening
    an entity to its row and inflating the row gives an entity with the same
    value in every field that is no relation; every to-one relation and every
    [borrow] and [option] slice leads to hollow targets that carry the keys of
    the targets of the original, in order (none for a nil pointer or a target
    whose key is zero); [own] and [inverse] slices, which the database
    recomputes, are nil. Flattened again the entity gives the same row. *)
Theorem row_survives_hydration types t heap e row :
  entity_ok types heap t e -> normalizeToSchema types heap t e = Ok row ->
  exists heap' e', inflateSlice types heap t [row] = Ok (heap', [e']) /\ heap ⊆ heap' /\
    restored types heap t e heap' e' /\ normalizeToSchema types heap' t e' = Ok row.
Proof.
  intros He Hn. destruct (row_restored types t heap e row heap He Hn) as (heap' & e' & E & Hsub & H & _).
  destruct (H heap' (heap_difference_sub heap' heap)) as [H1 H2]. exists heap', e'. done.
Qed.

(** A post with a tag, in a heap where the tag lives. *)
Definition sample_heap : val_heap := {[ 1%positive := VStruct [VInt 4; VSlice None];
                                        2%positive := VStruct [VInt 9; VPointer None; VSlice None] ]}.
Definition sample_post : goval := VStruct [VInt 7; VPointer (Some 2%positive); VPointer (Some 1%positive)].

Lemma row_survives_hydration_witness :
  normalizeToSchema sample_types sample_heap "Post" sample_post = Ok (VStruct [VInt 7; VInt 9; VInt 4]) /\
  exists heap' e', inflateSlice sample_types sample_heap "Post" [VStruct [VInt 7; VInt 9; VInt 4]] = Ok (heap', [e']) /\
    sample_heap ⊆ heap' /\ restored sample_types sample_heap "Post" sample_post heap' e' /\
    normalizeToSchema sample_types heap' "Post" e' = Ok (VStruct [VInt 7; VInt 9; VInt 4]).
Proof.
  assert (normalizeToSchema sample_types sample_heap "Post" sample_post = Ok (VStruct [VInt 7; VInt 9; VInt 4])) as E
    by (vm_compute; reflexivity).
  split; [exact E|]. refine (row_survives_hydration sample_types "Post" sample_heap sample_post _ _ E).
  eexists. split; [vm_compute; reflexivity|]. split_and!.
  - unfold def_ok. cbn. repeat constructor; set_solver.
  - eexists. split; [reflexivity|]. repeat constructor.
  - intros r specs field l Hs Hr Hg Hin. vm_compute in Hs. injection Hs as <-.
    repeat (apply elem_of_cons in Hr as [->|Hr]); [| |by apply not_elem_of_nil in Hr];
      vm_compute in Hg; injection Hg as <-; cbn in Hin; apply list_elem_of_singleton in Hin; injection Hin as ->;
      eexists _, _; (split; [vm_compute; reflexivity|]); (split; [vm_compute; reflexivity|]); split;
      [unfold def_ok; cbn; repeat constructor; set_solver|eexists; split; [reflexivity|]; repeat constructor
      |unfold def_ok; cbn; repeat constructor; set_solver|eexists; split; [reflexivity|]; repeat constructor].
Defined.

(** A type with a raw key next to the relation it belongs to. *)
Definition colliding_types : typeEnv :=
  list_to_map [("User", entity []);
               ("Post", entity [{| fname := "UserId"; ftype := TBasic "int" KInt; exported := true; tag := [] |};
                                rel_field "User" (TPointer "User") "ownedby,Id"])]%string.

(** C39 (a defect of registration): the column of a relation field is named by
    joining two field names, so a schema the relation rules accept can ask for
    the same column twice; building its row type panics instead of reporting
    an error. *)
Theorem colliding_columns_panic :
  is_ok (buildRelationSchema colliding_types "Post") = true /\ schemaFor colliding_types "Post" = Panic.
Proof. vm_compute. auto. Qed.
