(* ===== verification/RelationModel.v ===== *)
(** * The relation graph (src/relation_runtime.go)

    Entities are nodes, their relation fields are edges. [buildRelationModel]
    resolves every relation field of every live node to the node it names,
    derives who owns whom and rejects graphs that break the ownership rules;
    [deletionClosure] decides what a delete takes with it and what forbids it;
    [reconcileRelations] brings the pointers of the survivors in line. A node
    is a heap cell; an entity type is the name of a struct. *)
From S2P Require Import Prelude GoReflect RelationSchema SchemaRows.

Notation val_heap := (gmap loc goval) (only parsing).

(** ** Data *)

Record nodeKey := { key_typ : string; key_id : Z }.
#[export] Instance nodeKey_eq_dec : EqDecision nodeKey.
Proof. solve_decision. Defined.
#[export] Instance nodeKey_countable : Countable nodeKey.
Proof.
  refine (inj_countable' (fun k => (key_typ k, key_id k)) (fun p => {| key_typ := p.1; key_id := p.2 |}) _). by intros [].
Defined.

(** A [relationGraphNode] of the maps is the pointer it holds: its key is the
    key it is stored under. *)
Record relationTargetKey := { tk_typ : string; tk_field : string; tk_value : goval }.
#[export] Instance relationTargetKey_eq_dec : EqDecision relationTargetKey.
Proof. solve_decision. Defined.
#[export] Instance relationTargetKey_countable : Countable relationTargetKey.
Proof.
  refine (inj_countable' (fun k => (tk_typ k, tk_field k, tk_value k))
    (fun p => {| tk_typ := p.1.1; tk_field := p.1.2; tk_value := p.2 |}) _). by intros [].
Defined.

Record indexedRelationTarget := { it_key : nodeKey; it_duplicate : bool }.
Record resolvedRelation := { r_holder : nodeKey; r_target : nodeKey; r_spec : relationSpec }.
#[export] Instance resolvedRelation_eq_dec : EqDecision resolvedRelation.
Proof. solve_decision. Defined.
Record missingRelation := { m_holder : nodeKey; m_spec : relationSpec }.
Record unresolvedRelation := { u_holder : nodeKey; u_spec : relationSpec; u_lookup : relationTargetKey }.

Record relationModel := {
  nodes : gmap nodeKey loc;
  targets : gmap relationTargetKey indexedRelationTarget;
  targetFields : gmap string (gset string);
  refs : list resolvedRelation;
  unresolved : list unresolvedRelation;
  missing : list missingRelation;
  owners : gmap nodeKey nodeKey;
  outgoing : gmap nodeKey (list nodeKey);
}.

Record incomingOwn := { ow_owner : nodeKey; ow_spec : option relationSpec }.
Record incomingOwns := { first : incomingOwn; count : nat }.

(** The zero value a missing map entry reads as. *)
Definition no_owns : incomingOwns :=
  {| first := {| ow_owner := {| key_typ := ""; key_id := 0 |}; ow_spec := None |}; count := 0 |}.
Definition add_own (owns : incomingOwns) (edge : incomingOwn) : incomingOwns :=
  {| first := if (count owns =? 0)%nat then edge else first owns; count := S (count owns) |}.

(** What a scan accumulates. *)
Record scan := {
  s_refs : list resolvedRelation;
  s_unresolved : list unresolvedRelation;
  s_missing : list missingRelation;
  incoming : gmap nodeKey incomingOwns;
  ownedBy : gmap nodeKey incomingOwn;
}.
Definition empty_scan : scan :=
  {| s_refs := []; s_unresolved := []; s_missing := []; incoming := ∅; ownedBy := ∅ |}.

Section model.
Context (types : typeEnv) (GetId : goval -> Z).
Context `{!MapOrder nodeKey} `{!MapOrder string}.
Implicit Types (heap : val_heap) (key : nodeKey) (m : relationModel).

(** ** Nodes *)

(** [valueID] of a pointer to an entity. *)
Definition valueID heap (v : goval) : option Z :=
  match v with VPointer (Some l) => GetId <$> heap !! l | _ => None end.

(** [CanInterface]: what is read through an unexported field does not give its
    entity, so [valueID] finds no id in it. *)
Definition readable (r : relationSpec) (v : goval) : goval :=
  if spec_exported types r then v else
  match v with VSlice o => VSlice ((fun l => replicate (length l) (VPointer None)) <$> o) | _ => VPointer None end.

Definition addGraphNode heap (ns : gmap nodeKey loc) (l : loc) (t : string) (replace : bool) :
    outcome (gmap nodeKey loc) :=
  match valueID heap (VPointer (Some l)) with
  | None => Fail ErrRelationInvariant
  | Some i =>
      when (i <=? 0)%Z => Fail ErrRelationInvariant ;;
      let key := {| key_typ := t; key_id := i |} in
      when bool_decide (is_Some (ns !! key)) && negb replace => Fail ErrRelationInvariant ;;
      Ok (<[key := l]> ns)
  end.

Definition collectStoreNodes heap (ns : gmap nodeKey loc) (t : string) (live : list loc) : outcome (gmap nodeKey loc) :=
  fold_outcome (fun ns l => addGraphNode heap ns l t false) ns live.

(** The registered stores, by the pointers they hold, and the open types, by
    what their runtime offers to the graph. *)
Record runtime := { relationLive : list loc; relationPending : list loc; relationDeleteIDs : list Z }.
Record registries := { storeRegistry : gmap string (list loc); baseRegistry : gmap string runtime }.
Definition relationRuntimes (reg : registries) : list (string * runtime) :=
  let names := SortFunc string_compare ((map_range (baseRegistry reg)).*1) in
  omap (fun name => pair name <$> baseRegistry reg !! name) names.

Definition collectPendingNodes heap (reg : registries) (ns : gmap nodeKey loc) : outcome (gmap nodeKey loc) :=
  fold_outcome (fun ns p => fold_outcome (fun ns l => addGraphNode heap ns l p.1 true) ns (relationPending p.2))
    ns (relationRuntimes reg).

Definition collectRelationNodesWithOverrides heap (reg : registries) (includePending : bool)
    (overrides : gmap nodeKey loc) : outcome (gmap nodeKey loc) :=
  ns ← fold_outcome (fun ns p => collectStoreNodes heap ns p.1 p.2) ∅ (map_range (storeRegistry reg));
  ns ← (if includePending then collectPendingNodes heap reg ns else Ok ns);
  Ok (overrides ∪ ns).

Definition collectRelationNodes heap (reg : registries) (includePending : bool)
    (override : option (nodeKey * loc)) : outcome (gmap nodeKey loc) :=
  collectRelationNodesWithOverrides heap reg includePending
    (match override with Some (key, l) => {[key := l]} | None => ∅ end).

(** ** Lookup keys *)

Definition entityIDField : string := "Id".

Definition graphMatchField (r : relationSpec) : string :=
  if bool_decide (kind r = ownRelation) && many r then entityIDField else matchField r.

Definition graphRelationTargetKey heap (r : relationSpec) (pointer : goval) : option relationTargetKey :=
  key ← relationKey types heap (target r) pointer (graphMatchField r);
  Some {| tk_typ := target r; tk_field := graphMatchField r; tk_value := key |}.

Definition resolveGraphTarget heap (ts : gmap relationTargetKey indexedRelationTarget) (r : relationSpec)
    (pointer : goval) : outcome (option nodeKey) :=
  match graphRelationTargetKey heap r pointer with
  | None => Ok None
  | Some key =>
      match ts !! key with
      | None => Ok None
      | Some t => if it_duplicate t then Fail ErrRelationInvariant else Ok (Some (it_key t))
      end
  end.

(** The loop over the specs of a node type. *)
Definition add_target_field (fields : gmap string (gset string)) (r : relationSpec) : gmap string (gset string) :=
  if bool_decide (kind r = inverseRelation) then fields
  else <[target r := {[graphMatchField r]} ∪ default ∅ (fields !! target r)]> fields.

Definition relationTargetFields (ns : gmap nodeKey loc) : outcome (gmap string (gset string)) :=
  r ← fold_outcome (fun (st : gmap string (gset string) * gset string) p =>
      let t := key_typ p.1 in
      when bool_decide (t ∈ st.2) => Ok st ;;
      specs ← relationSpecs types t;
      Ok (foldl add_target_field st.1 specs, {[t]} ∪ st.2)) (∅, ∅) (map_range ns);
  Ok r.1.

Definition indexRelationNodeTarget heap (key : nodeKey) (l : loc)
    (ts : gmap relationTargetKey indexedRelationTarget) (field : string) :=
  match relationKey types heap (key_typ key) (VPointer (Some l)) field with
  | None => ts
  | Some value =>
      let k := {| tk_typ := key_typ key; tk_field := field; tk_value := value |} in
      match ts !! k with
      | Some t => <[k := {| it_key := it_key t; it_duplicate := true |}]> ts
      | None => <[k := {| it_key := key; it_duplicate := false |}]> ts
      end
  end.
Definition indexRelationNodeTargets heap (ts : gmap relationTargetKey indexedRelationTarget)
    (key : nodeKey) (l : loc) (fields : gset string) : gmap relationTargetKey indexedRelationTarget :=
  foldl (indexRelationNodeTarget heap key l) ts (set_range fields).

Definition buildRelationTargetIndexFromFields heap (ns : gmap nodeKey loc) (fieldsByType : gmap string (gset string)) :
    gmap relationTargetKey indexedRelationTarget :=
  foldl (fun ts p => indexRelationNodeTargets heap ts p.1 p.2 (default ∅ (fieldsByType !! key_typ p.1))) ∅ (map_range ns).

(** ** Scanning *)

Definition relationMayBeMissing (r : relationSpec) : bool :=
  when bool_decide (kind r = optionRelation) => true ;;
  many r && (bool_decide (kind r = borrowRelation) || bool_decide (kind r = ownRelation)).

Definition recordResolvedRelation (s : scan) (holder tgt : nodeKey) (r : relationSpec) : scan :=
  let edge := {| ow_owner := holder; ow_spec := Some r |} in
  {| s_refs := s_refs s ++ [{| r_holder := holder; r_target := tgt; r_spec := r |}];
     s_unresolved := s_unresolved s; s_missing := s_missing s;
     incoming := if bool_decide (kind r = ownRelation)
                 then <[tgt := add_own (default no_owns (incoming s !! tgt)) edge]> (incoming s) else incoming s;
     ownedBy := if bool_decide (kind r = ownedByRelation)
                then <[holder := {| ow_owner := tgt; ow_spec := Some r |}]> (ownedBy s) else ownedBy s |}.

(** A pointer that names no live node. *)
Definition record_absent heap (s : scan) (holder : nodeKey) (r : relationSpec) (pointer : goval) : scan :=
  {| s_refs := s_refs s;
     s_unresolved := match graphRelationTargetKey heap r pointer with
       | Some lookup => s_unresolved s ++ [{| u_holder := holder; u_spec := r; u_lookup := lookup |}]
       | None => s_unresolved s end;
     s_missing := if relationMayBeMissing r then s_missing s else s_missing s ++ [{| m_holder := holder; m_spec := r |}];
     incoming := incoming s; ownedBy := ownedBy s |}.

(** [seen] is [None] for the nil map of a field that is not an owned slice. *)
Definition scanRelationPointer heap ts (holder : nodeKey) (r : relationSpec)
    (st : scan * option (gset nodeKey)) (pointer : goval) : outcome (scan * option (gset nodeKey)) :=
  found ← resolveGraphTarget heap ts r pointer;
  match found with
  | None => Ok (record_absent heap st.1 holder r pointer, st.2)
  | Some tgt =>
      when bool_decide (tgt ∈ default ∅ st.2) && bool_decide (kind r = ownRelation) => Fail ErrRelationInvariant ;;
      Ok (recordResolvedRelation st.1 holder tgt r, (fun seen => {[tgt]} ∪ seen) <$> st.2)
  end.

(** [node.value.Elem().Field(i)]. *)
Definition node_field heap (l : loc) (i : nat) : option goval := s ← heap !! l; struct_fields s !! i.

Definition scanRelationField heap ts (holder : nodeKey) (l : loc) (s : scan) (r : relationSpec) : outcome scan :=
  match node_field heap l (fieldIndex r) with
  | None => Panic
  | Some field =>
      if negb (many r) then st ← scanRelationPointer heap ts holder r (s, None) field; Ok st.1
      else
        let seen := if bool_decide (kind r = ownRelation) then Some ∅ else None in
        st ← fold_outcome (scanRelationPointer heap ts holder r) (s, seen) (slice_elems field);
        Ok st.1
  end.

Definition scanNodeRelations heap ts (s : scan) (node : nodeKey * loc) : outcome scan :=
  specs ← relationSpecs types (key_typ node.1);
  fold_outcome (fun s r =>
    when bool_decide (kind r = inverseRelation) => Ok s ;;
    scanRelationField heap ts node.1 node.2 s r) s specs.

(** ** Owners *)

Definition resolvedOwner (raw : incomingOwns) (back : option incomingOwn) : option nodeKey :=
  if (count raw =? 1)%nat then Some (ow_owner (first raw)) else ow_owner <$> back.

Notation forest := (gmap nodeKey nodeKey * gmap nodeKey (list nodeKey))%type.

Definition attachNodeOwner (f : forest) (child : nodeKey) (raw : incomingOwns) (backs : gmap nodeKey incomingOwn) :
    outcome forest :=
  let back := backs !! child in
  when (1 <? count raw)%nat => Fail ErrRelationInvariant ;;
  when (count raw =? 1)%nat && (match back with Some b => negb (bool_decide (ow_owner (first raw) = ow_owner b)) | None => false end)
    => Fail ErrRelationInvariant ;;
  match resolvedOwner raw back with
  | None => Ok f
  | Some owner => Ok (<[child := owner]> f.1, <[owner := default [] (f.2 !! owner) ++ [child]]> f.2)
  end.

(** The inner loop: [inr] is the path of a walk that ended. Each step marks a
    node that has an owner, or ends, so one more than the owners is enough. *)
Definition walk_owner (own : gmap nodeKey nodeKey) (st : gmap nodeKey nat * list nodeKey * nodeKey) :
    outcome (gmap nodeKey nat * list nodeKey * nodeKey + gmap nodeKey nat * list nodeKey) :=
  let '(state, path, at_) := st in
  match state !! at_ with
  | Some 1 => Fail ErrRelationInvariant
  | Some 2 => Ok (inr (state, path))
  | _ =>
      let state := <[at_ := 1]> state in
      let path := path ++ [at_] in
      match own !! at_ with
      | Some owner => Ok (inl (state, path, owner))
      | None => Ok (inr (state, path))
      end
  end.

Definition walk_from (own : gmap nodeKey nodeKey) (state : gmap nodeKey nat) (start : nodeKey) : outcome (gmap nodeKey nat) :=
  when negb (default 0 (state !! start) =? 0)%nat => Ok state ;;
  r ← for_range (S (S (size own))) (walk_owner own) (state, [], start);
  match r with
  | inl _ => Panic
  | inr (state, path) => Ok (foldl (fun state key => <[key := 2]> state) state path)
  end.

Definition validateOwnershipCycles m : outcome unit :=
  _ ← fold_outcome (fun state p => walk_from (owners m) state p.1) ∅ (map_range (nodes m)); Ok tt.

(** ** The model *)

Definition buildRelationModelFromTargets heap (ns : gmap nodeKey loc)
    (ts : gmap relationTargetKey indexedRelationTarget) (fields : gmap string (gset string)) : outcome relationModel :=
  s ← fold_outcome (scanNodeRelations heap ts) empty_scan (map_range ns);
  f ← fold_outcome (fun f p => attachNodeOwner f p.1 (default no_owns (incoming s !! p.1)) (ownedBy s)) (∅, ∅) (map_range ns);
  let model := {| nodes := ns; targets := ts; targetFields := fields; refs := s_refs s; unresolved := s_unresolved s;
                  missing := s_missing s; owners := f.1; outgoing := f.2 |} in
  _ ← validateOwnershipCycles model;
  Ok model.

Definition buildRelationModel heap (ns : gmap nodeKey loc) : outcome relationModel :=
  fields ← relationTargetFields ns;
  buildRelationModelFromTargets heap ns (buildRelationTargetIndexFromFields heap ns fields) fields.

Definition validateRequiredRelations m (deleted : gset nodeKey) : outcome unit :=
  if forallb (fun x => bool_decide (m_holder x ∈ deleted)) (missing m) then Ok tt else Fail ErrRelationInvariant.

(** ** Rebuilding only what changed *)

Definition markOwnershipTarget (affected : gset nodeKey) (ref : resolvedRelation) : gset nodeKey :=
  match kind (r_spec ref) with
  | ownRelation => {[r_target ref]} ∪ affected
  | ownedByRelation => {[r_holder ref]} ∪ affected
  | _ => affected
  end.

(** The inner loop: [inr] ends the walk. *)
Definition walk_changed (own : gmap nodeKey nodeKey) (st : gset nodeKey * nodeKey) : outcome (gset nodeKey * nodeKey + unit) :=
  let '(seen, at_) := st in
  when bool_decide (at_ ∈ seen) => Fail ErrRelationInvariant ;;
  match own !! at_ with
  | Some owner => Ok (inl ({[at_]} ∪ seen, owner))
  | None => Ok (inr tt)
  end.

Definition validateChangedOwnershipCycles m (changed : gset nodeKey) : outcome unit :=
  fold_outcome (fun _ start =>
    r ← for_range (S (S (size (owners m)))) (walk_changed (owners m)) (∅, start);
    match r with inl _ => Panic | inr _ => Ok tt end) tt (set_range changed).

(** The loop over the references kept: who owns the affected nodes. *)
Definition affected_edges (affected : gset nodeKey) (st : gmap nodeKey incomingOwns * gmap nodeKey incomingOwn)
    (ref : resolvedRelation) : gmap nodeKey incomingOwns * gmap nodeKey incomingOwn :=
  (if bool_decide (kind (r_spec ref) = ownRelation) && bool_decide (r_target ref ∈ affected)
   then <[r_target ref := add_own (default no_owns (st.1 !! r_target ref))
           {| ow_owner := r_holder ref; ow_spec := Some (r_spec ref) |}]> st.1 else st.1,
   if bool_decide (kind (r_spec ref) = ownedByRelation) && bool_decide (r_holder ref ∈ affected)
   then <[r_holder ref := {| ow_owner := r_target ref; ow_spec := Some (r_spec ref) |}]> st.2 else st.2).

Definition buildRelationModelDelta heap (committed : relationModel) (ns : gmap nodeKey loc)
    (ts : gmap relationTargetKey indexedRelationTarget) (rescan : gmap nodeKey loc) : outcome relationModel :=
  let rescan := foldl (fun (rescan : gmap nodeKey (option loc)) u =>
      if bool_decide (is_Some (ts !! u_lookup u)) then <[u_holder u := ns !! u_holder u]> rescan else rescan)
    (Some <$> rescan) (unresolved committed) in
  let changed key := bool_decide (is_Some (rescan !! key)) in
  let kept_unresolved := List.filter (fun u => negb (changed (u_holder u))) (unresolved committed) in
  let affected := foldl (fun a ref => if changed (r_holder ref) then markOwnershipTarget a ref else a) ∅ (refs committed) in
  let kept_refs := List.filter (fun ref => negb (changed (r_holder ref))) (refs committed) in
  s ← fold_outcome (fun s p =>
        match ns !! p.1, p.2 with
        | None, _ => Ok s
        | Some _, Some l => scanNodeRelations heap ts s (p.1, l)
        | Some _, None => Panic
        end)
        {| s_refs := kept_refs; s_unresolved := kept_unresolved; s_missing := []; incoming := ∅; ownedBy := ∅ |}
        (map_range rescan);
  let affected := affected ∪ dom (incoming s) ∪ dom (ownedBy s) in
  let edges := foldl (affected_edges affected) (∅, ∅) (s_refs s) in
  f ← fold_outcome (fun f child =>
        attachNodeOwner (delete child f.1, f.2) child (default no_owns (edges.1 !! child)) edges.2)
      (owners committed, ∅) (set_range affected);
  let outgoing := foldl (fun (out : gmap nodeKey (list nodeKey)) p =>
      <[p.2 := default [] (out !! p.2) ++ [p.1]]> out) ∅ (map_range f.1) in
  let model := {| nodes := ns; targets := ts; targetFields := targetFields committed; refs := s_refs s;
                  unresolved := s_unresolved s; missing := s_missing s; owners := f.1; outgoing := outgoing |} in
  _ ← validateChangedOwnershipCycles model affected;
  Ok model.

(** ** Deletion *)

(** [committed] is the published [outgoing] map [committedChildren] reads. *)
Definition deletionChildren m (committed : gmap nodeKey (list nodeKey)) (owner : nodeKey) : list nodeKey :=
  let children := default [] (outgoing m !! owner) in
  (foldl (fun (st : list nodeKey * gset nodeKey) child =>
     if negb (bool_decide (is_Some (nodes m !! child))) then st else
     if match owners m !! child with Some proposedOwner => negb (bool_decide (proposedOwner = owner)) | None => false end then st else
     if bool_decide (child ∈ st.2) then st else
     (st.1 ++ [child], {[child]} ∪ st.2))
   (children, list_to_set children) (default [] (committed !! owner))).1.

(** The worklist loop; [fuel] counts the nodes it may still enqueue. *)
Fixpoint closure_loop (children : nodeKey -> list nodeKey) (fuel : nat) (deleted : gset nodeKey) (queue : list nodeKey) :
    outcome (gset nodeKey) :=
  match queue with
  | [] => Ok deleted
  | owner :: queue =>
      match fuel with
      | O => Panic
      | S fuel =>
          let st := foldl (fun (st : gset nodeKey * list nodeKey) child =>
              if bool_decide (child ∈ st.1) then st else ({[child]} ∪ st.1, st.2 ++ [child]))
            (deleted, queue) (children owner) in
          closure_loop children fuel st.1 st.2
      end
  end.

(** What a surviving reference to a deleted node does to the delete. *)
Definition vetoes (deleted : gset nodeKey) (ref : resolvedRelation) : bool :=
  when bool_decide (r_holder ref ∈ deleted) || negb (bool_decide (r_target ref ∈ deleted)) => false ;;
  match kind (r_spec ref) with
  | borrowRelation => true
  | ownRelation => negb (many (r_spec ref))
  | _ => false
  end.

Definition deletionClosure m (committed : gmap nodeKey (list nodeKey)) (explicit : gset nodeKey) : outcome (gset nodeKey) :=
  st ← fold_outcome (fun (st : gset nodeKey * list nodeKey) key =>
      when negb (bool_decide (is_Some (nodes m !! key))) => Fail ErrRelationInvariant ;;
      Ok ({[key]} ∪ st.1, st.2 ++ [key])) (∅, []) (set_range explicit);
  deleted ← closure_loop (deletionChildren m committed) (size (nodes m)) st.1 st.2;
  when existsb (vetoes deleted) (refs m) => Fail ErrDeleteRestricted ;;
  Ok deleted.

(** ** Bringing the pointers of the survivors in line *)

Definition set_node_field heap (l : loc) (i : nat) (v : goval) : val_heap :=
  match heap !! l with
  | Some s => <[l := VStruct (<[i := v]> (struct_fields s))]> heap
  | None => heap
  end.

Definition clearPointer heap (l : loc) (i : nat) : val_heap * bool :=
  match node_field heap l i with
  | Some (VPointer (Some _)) => (set_node_field heap l i (VPointer None), true)
  | _ => (heap, false)
  end.

(** [tgt] is [None] for the invalid [reflect.Value]. *)
Definition setRelationField heap (holder : loc) (r : relationSpec) (tgt : option loc) : val_heap * bool :=
  when negb (spec_exported types r) || many r => (heap, false) ;;
  match tgt with
  | None => clearPointer heap holder (fieldIndex r)
  | Some l =>
      if bool_decide (node_field heap holder (fieldIndex r) = Some (VPointer (Some l))) then (heap, false)
      else (set_node_field heap holder (fieldIndex r) (VPointer (Some l)), true)
  end.

Definition canonicalizeRelationPointer m (deleted : gset nodeKey) (st : val_heap * gset nodeKey) (ref : resolvedRelation) :
    outcome (val_heap * gset nodeKey) :=
  when bool_decide (r_holder ref ∈ deleted) => Ok st ;;
  let r := r_spec ref in
  let set_to tgt :=
    match nodes m !! r_holder ref with
    | None => Panic
    | Some holder =>
        let res := setRelationField st.1 holder r tgt in
        Ok (res.1, if res.2 then {[r_holder ref]} ∪ st.2 else st.2)
    end in
  if bool_decide (r_target ref ∈ deleted) then
    if bool_decide (kind r = optionRelation) && negb (many r) then set_to None else Ok st
  else if many r then Ok st
  else match nodes m !! r_target ref with None => Panic | Some tgt => set_to (Some tgt) end.

Definition canonicalizeRelationPointers m (deleted : gset nodeKey) (st : val_heap * gset nodeKey) :
    outcome (val_heap * gset nodeKey) :=
  fold_outcome (canonicalizeRelationPointer m deleted) st (refs m).

(** The back field of an own slice: its position, its type, and whether it is
    a pointer to the owner or the owner's id; and the id field of an owner. *)
Definition back_field (r : relationSpec) : option (nat * gotype) :=
  d ← types !! target r; p ← FieldByName d (matchField r); Some (p.1, ftype p.2).
Definition id_field_of heap (t : string) (l : loc) : option (gotype * goval) :=
  s ← heap !! l; d ← types !! t; p ← FieldByName d entityIDField; v ← struct_fields s !! p.1; Some (ftype p.2, v).

Definition back_exported (r : relationSpec) : bool := field_exported types (target r) (matchField r).

(** [scalarEqual] of readable values: equal types and equal values. *)
Definition scalarEqual (a b : gotype * goval) : bool := gotype_eqb a.1 b.1 && bool_decide (a.2 = b.2).

Definition ownSliceBackReferenceMatches heap (holderType : string) (holder child : loc) (r : relationSpec) : outcome bool :=
  match back_field r with
  | None => Panic
  | Some (i, t) =>
      if is_pointer t then Ok (bool_decide (node_field heap child i = Some (VPointer (Some holder)))) else
      match id_field_of heap holderType holder, node_field heap child i with
      | Some own, Some back => Ok (back_exported r && scalarEqual (t, back) own)
      | _, _ => Panic
      end
  end.

(** [Set] panics when the types differ and on an unexported field. *)
Definition syncOwnSliceBackReference m heap (ref : resolvedRelation) : outcome (val_heap * bool) :=
  match nodes m !! r_holder ref, nodes m !! r_target ref with
  | Some holder, Some child =>
      same ← ownSliceBackReferenceMatches heap (key_typ (r_holder ref)) holder child (r_spec ref);
      if (same : bool) then Ok (heap, false) else
      when negb (back_exported (r_spec ref)) => Panic ;;
      match back_field (r_spec ref) with
      | None => Panic
      | Some (i, t) =>
          if is_pointer t then Ok (set_node_field heap child i (VPointer (Some holder)), true) else
          match id_field_of heap (key_typ (r_holder ref)) holder with
          | Some own => if gotype_eqb t own.1 then Ok (set_node_field heap child i own.2, true) else Panic
          | None => Panic
          end
      end
  | _, _ => Panic
  end.

Definition syncOwnSliceBackReferences m (deleted : gset nodeKey) (st : val_heap * gset nodeKey) :
    outcome (val_heap * gset nodeKey) :=
  fold_outcome (fun (st : val_heap * gset nodeKey) ref =>
    when negb (bool_decide (kind (r_spec ref) = ownRelation)) || negb (many (r_spec ref)) => Ok st ;;
    when bool_decide (r_target ref ∈ deleted) => Ok st ;;
    p ← syncOwnSliceBackReference m st.1 ref;
    let p : val_heap * bool := p in
    Ok (p.1, if p.2 then {[r_target ref]} ∪ st.2 else st.2)) st (refs m).

(** The second component is the set [markChangedRelations] marks dirty. *)
Definition reconcileRelations m heap (deleted : gset nodeKey) : outcome (val_heap * gset nodeKey) :=
  st ← canonicalizeRelationPointers m deleted (heap, ∅);
  syncOwnSliceBackReferences m deleted st.
End model.

(** ** Specification *)

Section specification.
Context (types : typeEnv) (GetId : goval -> Z).
Implicit Types (heap : val_heap) (ns : gmap nodeKey loc) (m : relationModel).

(** The pointers a relation field of a node holds. *)
Definition pointers_of heap (l : loc) (r : relationSpec) : list goval :=
  match node_field heap l (fieldIndex r) with
  | Some f => if many r then slice_elems f else [f]
  | None => []
  end.

(** [v] names the node [tgt]: the one node of the target type whose match
    field holds the key [v] carries. *)
Definition has_key heap ns (r : relationSpec) (key : goval) (tgt : nodeKey) : Prop :=
  key_typ tgt = target r /\ exists l, ns !! tgt = Some l /\
    relationKey types heap (target r) (VPointer (Some l)) (graphMatchField r) = Some key.
Definition names heap ns (r : relationSpec) (v : goval) (tgt : nodeKey) : Prop :=
  exists key, relationKey types heap (target r) v (graphMatchField r) = Some key /\
    has_key heap ns r key tgt /\ forall tgt', has_key heap ns r key tgt' -> tgt' = tgt.

(** The edges of the graph the heap holds. *)
Definition relation_edge heap ns (ref : resolvedRelation) : Prop :=
  exists l specs v, ns !! r_holder ref = Some l /\ relationSpecs types (key_typ (r_holder ref)) = Ok specs /\
    r_spec ref ∈ specs /\ kind (r_spec ref) <> inverseRelation /\
    v ∈ pointers_of heap l (r_spec ref) /\ names heap ns (r_spec ref) v (r_target ref).

(** The pointers that must name a live node. *)
Definition required_pointer heap ns (holder : nodeKey) (r : relationSpec) (v : goval) : Prop :=
  exists l specs, ns !! holder = Some l /\ relationSpecs types (key_typ holder) = Ok specs /\ r ∈ specs /\
    kind r <> inverseRelation /\ relationMayBeMissing r = false /\ v ∈ pointers_of heap l r.

Definition owner_edge (own : gmap nodeKey nodeKey) (child owner : nodeKey) : Prop := own !! child = Some owner.

(** A model that describes the graph in the heap and obeys the ownership rules. *)
Record model_ok heap ns m : Prop := {
  model_nodes : nodes m = ns;
  model_refs : forall ref, ref ∈ refs m <-> relation_edge heap ns ref;
  own_owners : forall ref, ref ∈ refs m -> kind (r_spec ref) = ownRelation -> owners m !! r_target ref = Some (r_holder ref);
  one_own : forall ref ref', ref ∈ refs m -> ref' ∈ refs m -> kind (r_spec ref) = ownRelation ->
    kind (r_spec ref') = ownRelation -> r_target ref = r_target ref' -> ref = ref';
  ownedBy_owners : forall ref, ref ∈ refs m -> kind (r_spec ref) = ownedByRelation ->
    exists ref', ref' ∈ refs m /\ kind (r_spec ref') = ownedByRelation /\ r_holder ref' = r_holder ref /\
      owners m !! r_holder ref = Some (r_target ref');
  owners_edges : forall child owner, owners m !! child = Some owner -> exists ref, ref ∈ refs m /\
    (kind (r_spec ref) = ownRelation /\ r_holder ref = owner /\ r_target ref = child \/
     kind (r_spec ref) = ownedByRelation /\ r_holder ref = child /\ r_target ref = owner);
  outgoing_owners : forall child owner, child ∈ default [] (outgoing m !! owner) <-> owners m !! child = Some owner;
  outgoing_nodup : forall owner, NoDup (default [] (outgoing m !! owner));
  owners_acyclic : forall x, ~ tc (owner_edge (owners m)) x x;
}.

(** What a delete takes along: what the deleted node owns in the graph about to
    be published, and what it owned before that nobody else owns now. *)
Definition cascades m (committed : gmap nodeKey (list nodeKey)) (owner child : nodeKey) : Prop :=
  owners m !! child = Some owner \/
  child ∈ default [] (committed !! owner) /\ is_Some (nodes m !! child) /\ owners m !! child = None.
Definition doomed m committed (explicit : gset nodeKey) (x : nodeKey) : Prop :=
  exists e, e ∈ explicit /\ rtc (cascades m committed) e x.
(** A reference that forbids the delete: a borrow or a required to-one own. *)
Definition restricts (gone : nodeKey -> Prop) (ref : resolvedRelation) : Prop :=
  ~ gone (r_holder ref) /\ gone (r_target ref) /\
  (kind (r_spec ref) = borrowRelation \/ kind (r_spec ref) = ownRelation /\ many (r_spec ref) = false).
End specification.

(** * Lemmas *)

#[local] Arguments relationKey : simpl never.

(** ** The worklist *)

Section worklist.
Context (children : nodeKey -> list nodeKey) (all : gset nodeKey).
Context (closed : forall x y, y ∈ children x -> y ∈ all).

Notation edge := (fun x y => y ∈ children x).

(** Enqueueing the children of one node. *)
Lemma enqueue_spec l deleted queue :
  let st := foldl (fun (st : gset nodeKey * list nodeKey) child =>
    if bool_decide (child ∈ st.1) then st else ({[child]} ∪ st.1, st.2 ++ [child])) (deleted, queue) l in
  exists new, st = (deleted ∪ list_to_set new, queue ++ new) /\ NoDup new /\
    (forall x, x ∈ new -> x ∈ l /\ x ∉ deleted) /\ (forall x, x ∈ l -> x ∈ deleted \/ x ∈ new).
Proof.
  revert deleted queue. induction l as [|c l IH]; intros deleted queue.
  - exists []. cbn. rewrite app_nil_r, union_empty_r_L. split_and!; [done|constructor|set_solver..].
  - cbn -[union]. case_bool_decide as Hc.
    + destruct (IH deleted queue) as (new & -> & Hn & H1 & H2). exists new. split_and!; [done..|set_solver|].
      intros x [->|Hx]%elem_of_cons; [by left|by apply H2].
    + destruct (IH ({[c]} ∪ deleted) (queue ++ [c])) as (new & -> & Hn & H1 & H2). exists (c :: new). split_and!.
      * f_equal; [set_solver|by rewrite <- app_assoc].
      * constructor; [|done]. intros Hx. destruct (H1 _ Hx). set_solver.
      * intros x [->|Hx]%elem_of_cons; [set_solver|]. destruct (H1 _ Hx). set_solver.
      * intros x [->|Hx]%elem_of_cons; [set_solver|]. destruct (H2 _ Hx); set_solver.
Qed.

Lemma closure_loop_spec fuel deleted queue :
  deleted ⊆ all -> list_to_set queue ⊆ deleted ->
  (forall x, x ∈ deleted -> x ∈ queue \/ forall y, y ∈ children x -> y ∈ deleted) ->
  length queue + size (all ∖ deleted) <= fuel ->
  exists d, closure_loop children fuel deleted queue = Ok d /\
    forall x, x ∈ d <-> exists e, e ∈ deleted /\ rtc edge e x.
Proof.
  revert deleted queue. induction fuel as [|fuel IH]; intros deleted queue Hall Hq Hdone Hfuel.
  all: destruct queue as [|owner queue]; cbn [closure_loop].
  1,3: exists deleted; split; [done|]; intros x; split; [exists x; split; [done|apply rtc_refl]|];
    intros (e & He & Hr); induction Hr as [|e y z Hey Hyz IHr]; [done|]; apply IHr;
    destruct (Hdone e He) as [Hn|Hn]; [by apply elem_of_nil in Hn|by apply Hn].
  { cbn in Hfuel. lia. }
  destruct (enqueue_spec (children owner) deleted queue) as (new & E & Hnd & H1 & H2).
  cbn zeta in E. rewrite E. cbn [fst snd].
  assert (owner ∈ deleted) as Howner by set_solver.
  destruct (IH (deleted ∪ list_to_set new) (queue ++ new)) as (d & -> & Hd).
  - intros x [Hx|Hx]%elem_of_union; [by apply Hall|]. apply elem_of_list_to_set in Hx. eapply closed, H1, Hx.
  - set_solver.
  - intros x [Hx|Hx]%elem_of_union; [|set_solver].
    destruct (Hdone x Hx) as [[->|Hx']%elem_of_cons|Hx'].
    + right. intros y Hy. destruct (H2 y Hy); set_solver.
    + left. set_solver.
    + right. intros y Hy. specialize (Hx' y Hy). set_solver.
  - cbn in Hfuel. rewrite length_app.
    assert (size (all ∖ deleted) = size (all ∖ (deleted ∪ list_to_set new)) + length new) as Es; [|lia].
    rewrite <- (size_list_to_set (C := gset nodeKey) new) by done.
    rewrite <- size_union by set_solver. f_equal. apply set_eq. intros x.
    destruct (decide (x ∈ new)) as [Hx|Hx].
    + destruct (H1 x Hx) as [Hx1 Hx2]. pose proof (closed _ _ Hx1). set_solver.
    + set_solver.
  - exists d. split; [done|]. intros x. rewrite Hd. split.
    + intros (e & [He|He]%elem_of_union & Hr); [by exists e|]. exists owner. split; [done|].
      eapply rtc_l; [|exact Hr]. apply elem_of_list_to_set in He. apply (H1 e He).
    + intros (e & He & Hr). exists e. split; [set_solver|done].
Qed.
End worklist.

(** ** Deletion *)

Lemma deletionChildren_elem m committed owner child :
  child ∈ deletionChildren m committed owner <->
  child ∈ default [] (outgoing m !! owner) \/
  child ∈ default [] (committed !! owner) /\ is_Some (nodes m !! child) /\
    (owners m !! child = None \/ owners m !! child = Some owner).
Proof.
  unfold deletionChildren. set (base := default [] (outgoing m !! owner)).
  assert (forall l (st : list nodeKey * gset nodeKey), (forall x, x ∈ st.2 <-> x ∈ st.1) ->
    child ∈ (foldl (fun (st : list nodeKey * gset nodeKey) child =>
       if negb (bool_decide (is_Some (nodes m !! child))) then st else
       if match owners m !! child with Some proposedOwner => negb (bool_decide (proposedOwner = owner)) | None => false end then st else
       if bool_decide (child ∈ st.2) then st else
       (st.1 ++ [child], {[child]} ∪ st.2)) st l).1 <->
    child ∈ st.1 \/ child ∈ l /\ is_Some (nodes m !! child) /\
      (owners m !! child = None \/ owners m !! child = Some owner)) as H.
  { induction l as [|c l IH]; intros st Hst; cbn; [set_solver|].
    assert (match owners m !! c with Some p => negb (bool_decide (p = owner)) | None => false end = false <->
      owners m !! c = None \/ owners m !! c = Some owner) as Ho.
    { destruct (owners m !! c) as [p|]; [|naive_solver].
      rewrite negb_false_iff, bool_decide_eq_true. naive_solver. }
    case_bool_decide as Hn; cbn.
    - destruct (match owners m !! c with Some _ => _ | None => _ end) eqn:Eo.
      + rewrite IH by done. split; [set_solver|]. intros [?|([->|?]%elem_of_cons & ? & H')]; [by left| |by auto].
        apply Ho in H'. done.
      + pose proof (proj1 Ho eq_refl) as Ho'. case_bool_decide as Hc.
        * rewrite IH by done. apply Hst in Hc. set_solver.
        * rewrite IH by (intros x; cbn; set_solver). cbn. set_solver.
    - rewrite IH by done. split; [set_solver|].
      intros [?|([->|?]%elem_of_cons & ? & ?)]; [by left|done|auto]. }
  rewrite H; [done|]. intros x. cbn. by rewrite elem_of_list_to_set.
Qed.

Lemma deletionChildren_cascades types heap ns m committed owner child :
  model_ok types heap ns m -> child ∈ deletionChildren m committed owner <-> cascades m committed owner child.
Proof.
  intros Hm. rewrite deletionChildren_elem, (outgoing_owners _ _ _ _ Hm). unfold cascades. naive_solver.
Qed.

Lemma explicit_loop_spec `{!MapOrder nodeKey} m (explicit : gset nodeKey) :
  (explicit ⊆ dom (nodes m) /\
   fold_outcome (fun (st : gset nodeKey * list nodeKey) key =>
     when negb (bool_decide (is_Some (nodes m !! key))) => Fail ErrRelationInvariant ;;
     Ok ({[key]} ∪ st.1, st.2 ++ [key])) (∅, []) (set_range explicit) = Ok (explicit, set_range explicit)) \/
  (~ explicit ⊆ dom (nodes m) /\
   fold_outcome (fun (st : gset nodeKey * list nodeKey) key =>
     when negb (bool_decide (is_Some (nodes m !! key))) => Fail ErrRelationInvariant ;;
     Ok ({[key]} ∪ st.1, st.2 ++ [key])) (∅, []) (set_range explicit) = Fail ErrRelationInvariant).
Proof.
  set (f := fun (st : gset nodeKey * list nodeKey) key => _).
  assert (forall l d q,
    ((forall x, x ∈ l -> x ∈ dom (nodes m)) /\ fold_outcome f (d, q) l = Ok (d ∪ list_to_set l, q ++ l)) \/
    (~ (forall x, x ∈ l -> x ∈ dom (nodes m)) /\ fold_outcome f (d, q) l = Fail ErrRelationInvariant)) as H.
  { induction l as [|k l IH]; intros d q; cbn -[union].
    - left. split; [set_solver|]. by rewrite union_empty_r_L, app_nil_r.
    - cbn [fold_outcome]. destruct (decide (is_Some (nodes m !! k))) as [Hk|Hk].
      + assert (f (d, q) k = Ok ({[k]} ∪ d, q ++ [k])) as -> by (unfold f; by rewrite bool_decide_true).
        cbn [mbind outcome_bind]. destruct (IH ({[k]} ∪ d) (q ++ [k])) as [[H1 ->]|[H1 ->]].
        * left. split; [intros x [->|Hx]%elem_of_cons; [by apply elem_of_dom|by apply H1]|].
          rewrite <- app_assoc. do 2 f_equal. set_solver.
        * right. split; [|done]. intros Hall. apply H1. set_solver.
      + assert (f (d, q) k = Fail ErrRelationInvariant) as -> by (unfold f; by rewrite bool_decide_false).
        right. split; [|done]. intros Hall. apply Hk, elem_of_dom, Hall. set_solver. }
  destruct (H (set_range explicit) ∅ []) as [[H1 H2]|[H1 H2]]; [left|right].
  - split; [intros x Hx; by apply H1, set_range_elem|]. rewrite H2. cbn. do 2 f_equal.
    rewrite union_empty_l_L. apply set_eq. intros x. by rewrite elem_of_list_to_set, set_range_elem.
  - split; [|done]. intros Hsub. apply H1. intros x Hx. by apply Hsub, set_range_elem.
Qed.

Lemma vetoes_restricts (deleted : gset nodeKey) ref :
  vetoes deleted ref = true <-> restricts (.∈ deleted) ref.
Proof.
  unfold vetoes, restricts. do 2 case_bool_decide; cbn; destruct (kind (r_spec ref)), (many (r_spec ref)); naive_solver.
Qed.

(** The closure loop finds what is doomed. *)
Lemma closure_doomed `{!MapOrder nodeKey} types heap ns m committed explicit :
  model_ok types heap ns m -> explicit ⊆ dom (nodes m) ->
  exists d, closure_loop (deletionChildren m committed) (size (nodes m)) explicit (set_range explicit) = Ok d /\
    forall x, x ∈ d <-> doomed m committed explicit x.
Proof.
  intros Hm Hsub.
  destruct (closure_loop_spec (deletionChildren m committed) (dom (nodes m))) with (fuel := size (nodes m))
    (deleted := explicit) (queue := set_range explicit) as (d & E & Hd).
  - intros x y Hy. apply (deletionChildren_cascades _ _ _ _ _ _ _ Hm) in Hy as [Hy|(_ & Hy & _)]; [|by apply elem_of_dom].
    destruct (owners_edges _ _ _ _ Hm _ _ Hy) as (ref & Hr & Hk). rewrite (model_nodes _ _ _ _ Hm).
    apply (model_refs _ _ _ _ Hm) in Hr as (l & specs & v & Hl & _ & _ & _ & _ & key & _ & (_ & l' & Hl' & _) & _).
    apply elem_of_dom. destruct Hk as [(_ & _ & <-)|(_ & <- & _)]; eauto.
  - done.
  - intros x Hx. apply elem_of_list_to_set in Hx. by apply set_range_elem in Hx.
  - intros x Hx. left. by apply set_range_elem.
  - rewrite set_range_length, <- size_dom. apply Nat.eq_le_incl.
    rewrite size_difference by done. pose proof (subseteq_size _ _ Hsub). lia.
  - exists d. split; [done|]. intros x. rewrite Hd. unfold doomed.
    split; intros (e & He & Hr); exists e; (split; [done|]); clear -Hr Hm;
      (induction Hr as [|a b c Hab _ IH]; [apply rtc_refl|]; eapply rtc_l; [|exact IH];
       by apply (deletionChildren_cascades _ _ _ _ _ _ _ Hm)).
Qed.

(** What [deletionClosure] decides. *)
Lemma deletionClosure_spec `{!MapOrder nodeKey} types heap ns m committed explicit :
  model_ok types heap ns m ->
  let gone := doomed m committed explicit in
  (~ explicit ⊆ dom ns /\ deletionClosure m committed explicit = Fail ErrRelationInvariant) \/
  (explicit ⊆ dom ns /\ (exists ref, ref ∈ refs m /\ restricts gone ref) /\
   deletionClosure m committed explicit = Fail ErrDeleteRestricted) \/
  (explicit ⊆ dom ns /\ (forall ref, ref ∈ refs m -> ~ restricts gone ref) /\
   exists d, deletionClosure m committed explicit = Ok d /\ forall x, x ∈ d <-> gone x).
Proof.
  intros Hm gone. unfold deletionClosure. rewrite <- (model_nodes _ _ _ _ Hm).
  destruct (explicit_loop_spec m explicit) as [[Hsub E]|[Hsub E]]; rewrite E; cbn [mbind outcome_bind fst snd]; [|by left].
  right. destruct (closure_doomed types heap ns m committed explicit Hm Hsub) as (d & -> & Hd). cbn [mbind outcome_bind].
  assert (forall ref, restricts (.∈ d) ref <-> restricts gone ref) as Hr.
  { intros ref. unfold restricts. by rewrite !Hd. }
  destruct (existsb (vetoes d) (refs m)) eqn:Ev.
  - left. split_and!; [done| |done]. apply existsb_exists in Ev as (ref & Hin & Hv).
    exists ref. split; [by apply list_elem_of_In|]. by apply Hr, vetoes_restricts.
  - right. split_and!; [done| |by exists d]. intros ref Hin Hv. apply Hr, vetoes_restricts in Hv.
    assert (existsb (vetoes d) (refs m) = true); [|congruence].
    apply existsb_exists. exists ref. split; [by apply list_elem_of_In|done].
Qed.

(** ** The target index *)

Section targets.
Context (types : typeEnv) `{!MapOrder nodeKey} `{!MapOrder string}.
Context (heap : val_heap) (ns : gmap nodeKey loc) (fields : gmap string (gset string)).

Definition add_target (ts : gmap relationTargetKey indexedRelationTarget) (e : relationTargetKey * nodeKey) :=
  match ts !! e.1 with
  | Some t => <[e.1 := {| it_key := it_key t; it_duplicate := true |}]> ts
  | None => <[e.1 := {| it_key := e.2; it_duplicate := false |}]> ts
  end.

Definition target_entry (p : nodeKey * loc) (field : string) : option (relationTargetKey * nodeKey) :=
  v ← relationKey types heap (key_typ p.1) (VPointer (Some p.2)) field;
  Some ({| tk_typ := key_typ p.1; tk_field := field; tk_value := v |}, p.1).
Definition target_entries : list (relationTargetKey * nodeKey) :=
  map_range ns ≫= fun p => omap (target_entry p) (set_range (default ∅ (fields !! key_typ p.1))).

Lemma index_as_loop : buildRelationTargetIndexFromFields types heap ns fields = foldl add_target ∅ target_entries.
Proof.
  unfold target_entries. rewrite <- foldl_bind. unfold buildRelationTargetIndexFromFields.
  generalize (∅ : gmap relationTargetKey indexedRelationTarget).
  induction (map_range ns) as [|[key l] ps IH]; intros ts; [done|]. cbn. rewrite IH. f_equal.
  rewrite <- foldl_omap. unfold indexRelationNodeTargets. cbn. generalize (set_range (default ∅ (fields !! key_typ key))).
  intros fs. revert ts. induction fs as [|f fs IHf]; intros ts; [done|]. cbn [foldl]. rewrite IHf. f_equal.
  unfold indexRelationNodeTarget, target_entry. cbn.
  by destruct (relationKey types heap (key_typ key) (VPointer (Some l)) f).
Qed.

Lemma add_targets_lookup es k :
  foldl add_target ∅ es !! k =
  match filter (fun e => e.1 = k) es with
  | [] => None
  | e :: rest => Some {| it_key := e.2; it_duplicate := match rest with [] => false | _ => true end |}
  end.
Proof.
  induction es as [|e es IH] using rev_ind; [done|]. rewrite foldl_snoc, filter_app, filter_cons, filter_nil.
  unfold add_target at 1. destruct (decide (e.1 = k)) as [Ek|Ek].
  - destruct (decide (e.1 = k)) as [_|]; [|done]. rewrite Ek, IH.
    destruct (filter (fun e0 => e0.1 = k) es) as [|x [|y ys]]; by rewrite lookup_insert_eq.
  - destruct (decide (e.1 = k)) as [|_]; [done|]. rewrite app_nil_r, <- IH.
    by destruct (foldl add_target ∅ es !! e.1); rewrite lookup_insert_ne.
Qed.

Lemma target_entry_Some p field e :
  target_entry p field = Some e <->
  e = ({| tk_typ := key_typ p.1; tk_field := field; tk_value := tk_value e.1 |}, p.1) /\
  relationKey types heap (key_typ p.1) (VPointer (Some p.2)) field = Some (tk_value e.1).
Proof.
  unfold target_entry. destruct (relationKey _ _ _ _ _) as [v|]; cbn; [|naive_solver].
  split; [by intros [= <-]|]. intros [-> [= <-]]. done.
Qed.

Lemma target_entries_nodup : NoDup target_entries.
Proof.
  apply NoDup_bind.
  - intros p1 p2 e H1 H2. rewrite !list_elem_of_omap. intros (f1 & _ & E1) (f2 & _ & E2).
    apply target_entry_Some in E1 as [E1 _], E2 as [E2 _]. destruct p1 as [k1 l1], p2 as [k2 l2]. cbn in *.
    assert (k1 = k2) as <- by congruence. apply map_range_elem in H1, H2. congruence.
  - intros p _. apply NoDup_omap_inj; [|apply set_range_nodup]. intros x y z Hx Hy.
    apply target_entry_Some in Hx as [Hx _], Hy as [Hy _]. congruence.
  - eapply NoDup_fmap_1, map_range_nodup.
Qed.

Lemma target_entries_elem r key tgt :
  graphMatchField r ∈ default ∅ (fields !! target r) ->
  ({| tk_typ := target r; tk_field := graphMatchField r; tk_value := key |}, tgt) ∈ target_entries <->
  has_key types heap ns r key tgt.
Proof.
  intros Hf. unfold target_entries, has_key. rewrite list_elem_of_bind. split.
  - intros ([k l] & He & Hk). apply list_elem_of_omap in He as (f & _ & He).
    apply target_entry_Some in He as [[= E1 E2 ->] Hv]. cbn in *. subst f. rewrite <- E1 in Hv |- *.
    split; [done|]. exists l. split; [by apply map_range_elem|done].
  - intros (Et & l & Hl & Hv). exists (tgt, l). split; [|by apply map_range_elem].
    apply list_elem_of_omap. exists (graphMatchField r). cbn. rewrite Et. split; [by apply set_range_elem|].
    apply target_entry_Some. cbn. by rewrite Et.
Qed.

(** Resolution finds the node a pointer names. *)
Lemma resolve_names r v tgt :
  graphMatchField r ∈ default ∅ (fields !! target r) ->
  resolveGraphTarget types heap (buildRelationTargetIndexFromFields types heap ns fields) r v = Ok (Some tgt) <->
  names types heap ns r v tgt.
Proof.
  intros Hf. unfold resolveGraphTarget, graphRelationTargetKey, names.
  destruct (relationKey types heap (target r) v (graphMatchField r)) as [key|]; cbn; [|naive_solver].
  set (k := {| tk_typ := target r; tk_field := graphMatchField r; tk_value := key |}).
  assert (forall tgt', (k, tgt') ∈ filter (fun e => e.1 = k) target_entries <-> has_key types heap ns r key tgt') as Hin.
  { intros tgt'. rewrite list_elem_of_filter, <- target_entries_elem by done. naive_solver. }
  pose proof (NoDup_filter (fun e => e.1 = k) _ target_entries_nodup) as Hnd.
  assert (forall e, e ∈ filter (fun e => e.1 = k) target_entries -> e.1 = k) as Hk by (intros e; rewrite list_elem_of_filter; naive_solver).
  rewrite index_as_loop, add_targets_lookup.
  destruct (filter (fun e => e.1 = k) target_entries) as [|[k1 t1] rest].
  - split; [done|]. intros (? & [= <-] & H & _). apply Hin in H. by apply elem_of_nil in H.
  - assert (k1 = k) as -> by (apply (Hk (k1, t1)); left). cbn. destruct rest as [|[k2 t2] rest].
    + assert (forall t', has_key types heap ns r key t' -> t' = t1) as Hu.
      { intros t' H%Hin. apply list_elem_of_singleton in H. congruence. }
      split; [|naive_solver]. intros [= ->]. exists key. split_and!; [done| |done]. apply Hin. left.
    + split; [done|]. intros (? & [= <-] & H & Hu). exfalso.
      assert (k2 = k) as -> by (apply (Hk (k2, t2)); right; left).
      apply NoDup_cons in Hnd as [Hn _]. apply Hn.
      rewrite (Hu t1), <- (Hu t2); [left|apply Hin; right; left|apply Hin; left].
Qed.
End targets.

Lemma add_target_field_lookup fields r t f :
  f ∈ default ∅ (add_target_field fields r !! t) <->
  f ∈ default ∅ (fields !! t) \/ kind r <> inverseRelation /\ target r = t /\ graphMatchField r = f.
Proof.
  unfold add_target_field. case_bool_decide as Hk; [naive_solver|].
  destruct (decide (target r = t)) as [->|Ht].
  - rewrite lookup_insert_eq. cbn. set_solver.
  - rewrite lookup_insert_ne by done. naive_solver.
Qed.

Lemma add_target_fields_lookup specs fields t f :
  f ∈ default ∅ (foldl add_target_field fields specs !! t) <->
  f ∈ default ∅ (fields !! t) \/ exists r, r ∈ specs /\ kind r <> inverseRelation /\ target r = t /\ graphMatchField r = f.
Proof.
  revert fields. induction specs as [|r specs IH]; intros fields; cbn; [set_solver|].
  rewrite IH, add_target_field_lookup. set_solver.
Qed.

(** Every field a relation of a node looks up is indexed. *)
Lemma relationTargetFields_spec types `{!MapOrder nodeKey} (ns : gmap nodeKey loc) fields key specs r :
  relationTargetFields types ns = Ok fields -> is_Some (ns !! key) -> relationSpecs types (key_typ key) = Ok specs ->
  r ∈ specs -> kind r <> inverseRelation -> graphMatchField r ∈ default ∅ (fields !! target r).
Proof.
  unfold relationTargetFields. intros E [l Hl] Hs Hr Hk. bind_ok E. inv_ok. destruct v as [fields seen]. cbn.
  set (covered := fun (st : gmap string (gset string) * gset string) t =>
    t ∈ st.2 -> forall specs r, relationSpecs types t = Ok specs -> r ∈ specs -> kind r <> inverseRelation ->
      graphMatchField r ∈ default ∅ (st.1 !! target r)).
  assert (forall ps st st', fold_outcome (fun (st : gmap string (gset string) * gset string) p =>
      let t := key_typ p.1 in
      when bool_decide (t ∈ st.2) => Ok st ;;
      specs ← relationSpecs types t;
      Ok (foldl add_target_field st.1 specs, {[t]} ∪ st.2)) st ps = Ok st' ->
    (forall t, covered st t) -> (forall t, covered st' t) /\ st.2 ⊆ st'.2 /\ forall p : nodeKey * loc, p ∈ ps -> key_typ p.1 ∈ st'.2) as H.
  { clear. induction ps as [|p ps IH]; intros st st' E Hst; cbn -[union] in E; [inv_ok; set_solver|].
    case_bool_decide as Hin; cbn -[union] in E.
    - destruct (IH _ _ E Hst) as (H1 & H2 & H3). set_solver.
    - destruct (relationSpecs types (key_typ p.1)) as [specs| |] eqn:Es; [|done|done]. cbn -[union] in E.
      destruct (IH _ _ E) as (H1 & H2 & H3); [|set_solver].
      intros t Ht specs' r Hs Hr Hk. cbn in *. apply add_target_fields_lookup.
      apply elem_of_union in Ht as [->%elem_of_singleton|Ht]; [right|left; by eapply Hst].
      exists r. rewrite Es in Hs. inv_ok. done. }
  destruct (H _ _ _ E0) as (H1 & _ & H3); [intros t Ht; set_solver|].
  apply (H1 (key_typ key)) with specs; [|done..]. apply (H3 (key, l)), map_range_elem, Hl.
Qed.

(** ** The scan *)

Section scanning.
Context (types : typeEnv) (heap : val_heap) (ts : gmap relationTargetKey indexedRelationTarget).

(** Who owns whom, as a function of the references in scan order. *)
Definition record_edge (st : gmap nodeKey incomingOwns * gmap nodeKey incomingOwn) (ref : resolvedRelation) :=
  (if bool_decide (kind (r_spec ref) = ownRelation)
   then <[r_target ref := add_own (default no_owns (st.1 !! r_target ref))
           {| ow_owner := r_holder ref; ow_spec := Some (r_spec ref) |}]> st.1 else st.1,
   if bool_decide (kind (r_spec ref) = ownedByRelation)
   then <[r_holder ref := {| ow_owner := r_target ref; ow_spec := Some (r_spec ref) |}]> st.2 else st.2).
Definition edges_wf (s : scan) : Prop := (incoming s, ownedBy s) = foldl record_edge (∅, ∅) (s_refs s).

(** A scan step appends the references that satisfy [P] and the missing
    relations that satisfy [Q], and only passes when [C] holds. *)
Record grows (P : resolvedRelation -> Prop) (Q : missingRelation -> Prop) (C : Prop) (s s' : scan) : Prop := {
  grows_refs : exists l, s_refs s' = s_refs s ++ l /\ forall ref, ref ∈ l <-> P ref;
  grows_missing : exists l, s_missing s' = s_missing s ++ l /\ forall x, x ∈ l <-> Q x;
  grows_wf : edges_wf s -> edges_wf s';
  grows_checked : C;
}.

Lemma grows_iff P Q C P' Q' (C' : Prop) s s' :
  (forall ref, P ref <-> P' ref) -> (forall x, Q x <-> Q' x) -> (C -> C') -> grows P Q C s s' -> grows P' Q' C' s s'.
Proof.
  intros HP HQ HC [(l & E & H) (lm & Em & Hm) Hwf HC0]. split; [|  |done|auto].
  - exists l. split; [done|]. intros ref. by rewrite H.
  - exists lm. split; [done|]. intros x. by rewrite Hm.
Qed.

Lemma grows_same s : grows (fun _ => False) (fun _ => False) True s s.
Proof. split; [exists []|exists []|done|done]; rewrite app_nil_r; (split; [done|set_solver]). Qed.

Lemma grows_fold {A B} (f : B -> A -> outcome B) (pr : B -> scan) P Q (C : A -> Prop) l b b' :
  (forall b x b', x ∈ l -> f b x = Ok b' -> grows (P x) (Q x) (C x) (pr b) (pr b')) ->
  fold_outcome f b l = Ok b' ->
  grows (fun ref => exists x, x ∈ l /\ P x ref) (fun z => exists x, x ∈ l /\ Q x z) (forall x, x ∈ l -> C x) (pr b) (pr b').
Proof.
  revert b. induction l as [|x l IH]; intros b Hf E; cbn in E.
  - inv_ok. eapply grows_iff; [| | |apply grows_same]; set_solver.
  - destruct (f b x) as [b1| |] eqn:E1; [|done|done]. cbn in E.
    destruct (Hf b x b1 ltac:(left) E1) as [(l1 & H1 & H2) (m1 & M1 & M2) W1 C1].
    destruct (IH b1) as [(l2 & H3 & H4) (m2 & M3 & M4) W2 C2]; [intros; eapply Hf; [by right|done]|done|]. split.
    + exists (l1 ++ l2). split; [by rewrite H3, H1, app_assoc|]. intros ref. rewrite elem_of_app, H2, H4. set_solver.
    + exists (m1 ++ m2). split; [by rewrite M3, M1, app_assoc|]. intros z. rewrite elem_of_app, M2, M4. set_solver.
    + auto.
    + intros y [->|Hy]%elem_of_cons; auto.
Qed.

Notation resolves r v o := (resolveGraphTarget types heap ts r v = Ok o).

(** What the scan of one pointer, field or node adds and requires. *)
Definition pointer_ref holder r v (ref : resolvedRelation) : Prop :=
  r_holder ref = holder /\ r_spec ref = r /\ resolves r v (Some (r_target ref)).
Definition pointer_missing holder r v (x : missingRelation) : Prop :=
  m_holder x = holder /\ m_spec x = r /\ relationMayBeMissing r = false /\ resolves r v None.
Definition field_ref (holder : nodeKey) (l : loc) (r : relationSpec) (ref : resolvedRelation) : Prop :=
  exists v, v ∈ pointers_of heap l r /\ pointer_ref holder r v ref.
Definition field_missing (holder : nodeKey) (l : loc) (r : relationSpec) (x : missingRelation) : Prop :=
  exists v, v ∈ pointers_of heap l r /\ pointer_missing holder r v x.
Definition field_checked (l : loc) (r : relationSpec) : Prop :=
  forall v, v ∈ pointers_of heap l r -> exists o, resolves r v o.
Definition scanned (p : nodeKey * loc) (r : relationSpec) : Prop :=
  exists specs, relationSpecs types (key_typ p.1) = Ok specs /\ r ∈ specs /\ kind r <> inverseRelation.
Definition node_ref (p : nodeKey * loc) (ref : resolvedRelation) : Prop :=
  exists r, scanned p r /\ field_ref p.1 p.2 r ref.
Definition node_missing (p : nodeKey * loc) (x : missingRelation) : Prop :=
  exists r, scanned p r /\ field_missing p.1 p.2 r x.
Definition node_checked (p : nodeKey * loc) : Prop :=
  is_ok (relationSpecs types (key_typ p.1)) = true /\ forall r, scanned p r -> field_checked p.2 r.

Lemma scanRelationPointer_grows holder r st v st' :
  scanRelationPointer types heap ts holder r st v = Ok st' ->
  grows (pointer_ref holder r v) (pointer_missing holder r v) (exists o, resolves r v o) st.1 st'.1.
Proof.
  unfold scanRelationPointer, pointer_ref, pointer_missing. intros E.
  destruct (resolveGraphTarget types heap ts r v) as [[tgt|]| |] eqn:Er; [| |done|done]; cbn in E.
  - destruct (bool_decide (tgt ∈ default ∅ st.2) && bool_decide (kind r = ownRelation)); [done|]. inv_ok. cbn. split; [| | |eauto].
    + exists [{| r_holder := holder; r_target := tgt; r_spec := r |}]. split; [done|].
      intros ref. rewrite list_elem_of_singleton. destruct ref; cbn. naive_solver.
    + exists []. rewrite app_nil_r. split; [done|]. split; [set_solver|naive_solver].
    + unfold edges_wf. cbn. rewrite foldl_snoc. intros <-. unfold record_edge. cbn. done.
  - inv_ok. unfold record_absent. cbn. split; cbn; [| |done|eauto].
    + exists []. rewrite app_nil_r. split; [done|]. split; [set_solver|naive_solver].
    + destruct (relationMayBeMissing r).
      * exists []. rewrite app_nil_r. split; [done|]. split; [set_solver|naive_solver].
      * exists [{| m_holder := holder; m_spec := r |}]. split; [done|]. intros x. rewrite list_elem_of_singleton. destruct x; cbn. naive_solver.
Qed.

Lemma scanRelationField_grows holder l s r s' :
  scanRelationField types heap ts holder l s r = Ok s' ->
  grows (field_ref holder l r) (field_missing holder l r) (field_checked l r) s s'.
Proof.
  unfold scanRelationField, field_ref, field_missing, field_checked, pointers_of. intros E.
  destruct (node_field heap l (fieldIndex r)) as [field|]; [|done]. destruct (many r) eqn:Hm; cbn [negb] in E; bind_ok E; inv_ok.
  - by apply (grows_fold _ fst (pointer_ref holder r) (pointer_missing holder r) (fun v => exists o, resolves r v o)) in E0;
      [|intros; by apply scanRelationPointer_grows].
  - apply scanRelationPointer_grows in E0. cbn in E0. eapply grows_iff; [| | |exact E0].
    + intros ref. setoid_rewrite list_elem_of_singleton. naive_solver.
    + intros x. setoid_rewrite list_elem_of_singleton. naive_solver.
    + intros Ho v0 ->%list_elem_of_singleton. done.
Qed.

Lemma scanNodeRelations_grows s p s' :
  scanNodeRelations types heap ts s p = Ok s' -> grows (node_ref p) (node_missing p) (node_checked p) s s'.
Proof.
  unfold scanNodeRelations, node_ref, node_missing, node_checked, scanned. intros E.
  destruct (relationSpecs types (key_typ p.1)) as [specs| |]; cbn [mbind outcome_bind] in E; [|done|done].
  apply (grows_fold _ (fun s => s) (fun r ref => kind r <> inverseRelation /\ field_ref p.1 p.2 r ref)
    (fun r x => kind r <> inverseRelation /\ field_missing p.1 p.2 r x)
    (fun r => kind r <> inverseRelation -> field_checked p.2 r)) in E.
  - eapply grows_iff; [| | |exact E]; [naive_solver..|]. intros H. split; [done|]. naive_solver.
  - intros s0 r s1 _ E1. cbn in *. case_bool_decide as Hk.
    + inv_ok. eapply grows_iff; [| | |apply grows_same]; naive_solver.
    + apply scanRelationField_grows in E1. eapply grows_iff; [| | |exact E1]; naive_solver.
Qed.
End scanning.

(** ** Owners from edges *)

Notation own_refs c l := (filter (fun ref => kind (r_spec ref) = ownRelation /\ r_target ref = c) l).

Lemma record_edges_incoming l c :
  let raw := default no_owns ((foldl record_edge (∅, ∅) l).1 !! c) in
  count raw = length (own_refs c l) /\
  forall ref rest, own_refs c l = ref :: rest -> ow_owner (first raw) = r_holder ref.
Proof.
  induction l as [|x l IH] using rev_ind; [done|]. rewrite foldl_snoc, filter_app, filter_cons, filter_nil. cbn in IH |- *.
  destruct IH as [IH1 IH2].
  case_bool_decide as Hk; [destruct (decide (r_target x = c)) as [Hc|Hc]|].
  - rewrite Hc, lookup_insert_eq. destruct (decide _) as [_|Hn]; [|by destruct Hn]. cbn. rewrite length_app, IH1. cbn. split; [lia|].
    intros ref rest E. destruct (own_refs c l) as [|y ys]; cbn in *; [by injection E as <- <-|].
    injection E as <- <-. by eapply IH2.
  - rewrite lookup_insert_ne by done. destruct (decide _) as [[_ ?]|_]; [done|]. by rewrite app_nil_r.
  - destruct (decide _) as [[? _]|_]; [done|]. by rewrite app_nil_r.
Qed.

Lemma record_edges_ownedBy l c :
  match (foldl record_edge (∅, ∅) l).2 !! c with
  | Some back => exists ref, ref ∈ l /\ kind (r_spec ref) = ownedByRelation /\ r_holder ref = c /\ r_target ref = ow_owner back
  | None => forall ref, ref ∈ l -> kind (r_spec ref) = ownedByRelation -> r_holder ref <> c
  end.
Proof.
  induction l as [|x l IH] using rev_ind; [cbn; rewrite lookup_empty; intros ref Hr; by apply elem_of_nil in Hr|].
  rewrite foldl_snoc. cbn.
  case_bool_decide as Hk; [destruct (decide (r_holder x = c)) as [Hc|Hc]|].
  - rewrite Hc, lookup_insert_eq. exists x. cbn. split_and!; [|done..]. apply elem_of_app; right; left.
  - rewrite lookup_insert_ne by done. destruct ((foldl record_edge (∅, ∅) l).2 !! c).
    + destruct IH as (ref & Hr & IH). exists ref. split; [|done]. apply elem_of_app; by left.
    + intros ref [Hr| ->%list_elem_of_singleton]%elem_of_app; [by apply IH|done].
  - destruct ((foldl record_edge (∅, ∅) l).2 !! c).
    + destruct IH as (ref & Hr & IH). exists ref. split; [|done]. apply elem_of_app; by left.
    + intros ref [Hr| ->%list_elem_of_singleton]%elem_of_app; [by apply IH|done].
Qed.

Lemma attach_fold_spec (inc : gmap nodeKey incomingOwns) (backs : gmap nodeKey incomingOwn) (ps : list (nodeKey * loc)) f :
  NoDup ps.*1 ->
  fold_outcome (fun f p => attachNodeOwner f p.1 (default no_owns (inc !! p.1)) backs) (∅, ∅) ps = Ok f ->
  (forall c o, f.1 !! c = Some o <-> c ∈ ps.*1 /\ resolvedOwner (default no_owns (inc !! c)) (backs !! c) = Some o) /\
  (forall c, c ∈ ps.*1 -> count (default no_owns (inc !! c)) <= 1 /\
    forall b, count (default no_owns (inc !! c)) = 1 -> backs !! c = Some b -> ow_owner (first (default no_owns (inc !! c))) = ow_owner b) /\
  (forall c o, c ∈ default [] (f.2 !! o) <-> f.1 !! c = Some o) /\ (forall o, NoDup (default [] (f.2 !! o))).
Proof.
  revert f. induction ps as [|p ps IH] using rev_ind; intros f Hnd E.
  { cbn in E. inv_ok. cbn. split_and!; [|set_solver| |intros o; rewrite lookup_empty; constructor].
    - intros c o. rewrite lookup_empty. set_solver.
    - intros c o. rewrite !lookup_empty. set_solver. }
  rewrite fold_outcome_app in E. bind_ok E. rewrite fmap_app in Hnd |- *. change ([p].*1) with [p.1] in *.
  apply NoDup_app in Hnd as (Hnd & Hdis & _).
  destruct (IH _ Hnd eq_refl) as (H1 & H2 & H3 & H4). clear IH.
  set (raw := default no_owns (inc !! p.1)) in *.
  destruct (attachNodeOwner v p.1 raw backs) as [f'| |] eqn:Ea; [|done|done]. cbn in E. inv_ok.
  unfold attachNodeOwner in Ea.
  destruct (1 <? count raw)%nat eqn:Ec; [done|]. apply Nat.ltb_ge in Ec.
  destruct ((count raw =? 1)%nat && _) eqn:Ed; [done|].
  assert (forall b, count raw = 1 -> backs !! p.1 = Some b -> ow_owner (first raw) = ow_owner b) as Hagree.
  { intros b Hc Hb. rewrite Hb, Hc in Ed. cbn in Ed. by apply negb_false_iff, bool_decide_eq_true in Ed. }
  assert (v.1 !! p.1 = None) as Hfresh.
  { destruct (v.1 !! p.1) as [o|] eqn:Eo; [|done]. apply H1 in Eo as [Eo _]. exfalso. eapply Hdis; [exact Eo|left]. }
  assert (forall c, c ∈ ps.*1 ++ [p.1] -> count (default no_owns (inc !! c)) <= 1 /\
    forall b, count (default no_owns (inc !! c)) = 1 -> backs !! c = Some b ->
      ow_owner (first (default no_owns (inc !! c))) = ow_owner b) as Hall.
  { intros c [Hc| ->%list_elem_of_singleton]%elem_of_app; [by apply H2|done]. }
  destruct (resolvedOwner raw (backs !! p.1)) as [own|] eqn:Er; inv_ok; cbn [fst snd].
  - split_and!; [|exact Hall| |].
    + intros c o. rewrite elem_of_app, list_elem_of_singleton, lookup_insert_Some, H1. cbn.
      split; [intros [[<- <-]|[Hne [Hc Ho]]]; auto|]. intros [[Hc| ->] Ho].
      * right. split; [|done]. intros <-. by eapply Hdis; [exact Hc|left].
      * left. split; [done|]. subst raw. congruence.
    + intros c o. destruct (decide (own = o)) as [<-|Hne].
      * rewrite lookup_insert_eq. cbn. rewrite elem_of_app, list_elem_of_singleton, H3, lookup_insert_Some.
        destruct (decide (p.1 = c)) as [<-|]; [rewrite Hfresh|]; naive_solver.
      * rewrite lookup_insert_ne by done. rewrite H3, lookup_insert_Some.
        destruct (decide (p.1 = c)) as [<-|]; [rewrite Hfresh|]; naive_solver.
    + intros o. destruct (decide (own = o)) as [<-|Hne]; [|by rewrite lookup_insert_ne].
      rewrite lookup_insert_eq. cbn. apply NoDup_app. split_and!; [apply H4| |apply NoDup_singleton].
      intros c Hc ->%list_elem_of_singleton. apply H3 in Hc. congruence.
  - split_and!; [|exact Hall|done..]. intros c o. rewrite elem_of_app, list_elem_of_singleton, H1. cbn.
    split; [naive_solver|]. intros [[Hc| ->] Ho]; [done|]. subst raw. congruence.
Qed.

(** ** Ownership cycles *)

Section cycles.
Context (own : gmap nodeKey nodeKey).
Notation up := (owner_edge own).

(** The chain of owners of [x] ends. *)
Definition rooted (x : nodeKey) : Prop := exists y, rtc up x y /\ own !! y = None.

Lemma up_first x y z : tc up x y -> up x z -> rtc up z y.
Proof.
  intros Hc Hz. destruct Hc as [x y Hxy|x w y Hxw Hc]; unfold owner_edge in *.
  - assert (y = z) as -> by congruence. apply rtc_refl.
  - assert (w = z) as -> by congruence. by apply tc_rtc.
Qed.

Lemma rooted_acyclic x : rooted x -> ~ tc up x x.
Proof.
  intros (y & Hr & Hy). induction Hr as [x|x z y Hxz _ IH]; intros Hc.
  - inversion Hc; subst; unfold owner_edge in *; congruence.
  - apply (IH Hy). eapply tc_rtc_l; [by eapply up_first|by apply tc_once].
Qed.

Lemma rooted_up x y : up x y -> rooted y -> rooted x.
Proof. intros Hxy (z & Hz & Hn). exists z. split; [by eapply rtc_l|done]. Qed.

(** Between two walks every colour is final. *)
Definition settled (state : gmap nodeKey nat) : Prop := forall x n, state !! x = Some n -> n = 2 /\ rooted x.

(** During a walk: the nodes of the path, and only they, have colour one, and
    each of them leads to the current node. *)
Record walking (state : gmap nodeKey nat) (path : list nodeKey) (at_ : nodeKey) : Prop := {
  colours : forall x n, state !! x = Some n -> n = 1 /\ x ∈ path \/ n = 2 /\ rooted x;
  on_path : forall x, x ∈ path -> state !! x = Some 1 /\ tc up x at_ /\ x ∈ dom own;
  path_nodup : NoDup path;
}.

Lemma walking_length state path at_ : walking state path at_ -> length path <= size own.
Proof.
  intros H. rewrite <- size_dom, <- (size_list_to_set (C := gset nodeKey)) by apply H.
  apply subseteq_size. intros x Hx. apply elem_of_list_to_set in Hx. by apply (on_path _ _ _ H).
Qed.

Lemma walk_loop fuel state path at_ :
  walking state path at_ -> size own < length path + fuel ->
  (for_range fuel (walk_owner own) (state, path, at_) = Fail ErrRelationInvariant /\ exists x, tc up x x) \/
  (exists state' path', for_range fuel (walk_owner own) (state, path, at_) = Ok (inr (state', path')) /\
    (forall x n, state' !! x = Some n -> n = 1 /\ x ∈ path' \/ n = 2 /\ rooted x) /\
    (forall x, x ∈ path' -> rooted x) /\ rooted at_ /\ (forall x, x ∈ path -> x ∈ path') /\
    (at_ ∈ path' \/ state' !! at_ = Some 2) /\ forall x n, state !! x = Some n -> state' !! x = Some n).
Proof.
  revert state path at_. induction fuel as [|fuel IH]; intros state path at_ Hw Hfuel.
  { pose proof (walking_length _ _ _ Hw). lia. }
  cbn [for_range]. set (w := walk_owner own (state, path, at_)).
  assert (state !! at_ = None \/ (state !! at_ = Some 1 /\ at_ ∈ path) \/ (state !! at_ = Some 2 /\ rooted at_)) as [Ha|[[Ha Hp]|[Ha Hr]]].
  { destruct (state !! at_) as [n|] eqn:Ea; [|by left]. right. destruct (colours _ _ _ Hw _ _ Ea) as [[-> ?]|[-> ?]]; eauto. }
  - assert (at_ ∉ path) as Hnew by (intros Hin; apply (on_path _ _ _ Hw) in Hin as [? _]; congruence).
    assert (w = match own !! at_ with
      | Some owner => Ok (inl (<[at_ := 1]> state, path ++ [at_], owner))
      | None => Ok (inr (<[at_ := 1]> state, path ++ [at_])) end) as -> by (subst w; unfold walk_owner; by rewrite Ha).
    destruct (own !! at_) as [owner|] eqn:Eo; cbn [mbind outcome_bind].
    + destruct (IH (<[at_ := 1]> state) (path ++ [at_]) owner) as [IHf|(s' & p' & E & H1 & H2 & H3 & H4 & H5 & H6)].
      * split.
        -- intros x n. rewrite lookup_insert_Some. intros [[<- <-]|[Hne Hx]]; [left; split; [done|set_solver]|].
           destruct (colours _ _ _ Hw _ _ Hx) as [[-> ?]|?]; [left; set_solver|by right].
        -- intros x [Hx| ->%list_elem_of_singleton]%elem_of_app.
           ++ destruct (on_path _ _ _ Hw _ Hx) as (Hc & Ht & Hd). rewrite lookup_insert_ne by (intros ->; done).
              split_and!; [done| |done]. eapply tc_r; [exact Ht|exact Eo].
           ++ rewrite lookup_insert_eq. split_and!; [done|by apply tc_once|by apply elem_of_dom].
        -- apply NoDup_app. split_and!; [apply Hw|set_solver|apply NoDup_singleton].
      * rewrite length_app. cbn. lia.
      * by left.
      * right. exists s', p'. split_and!; [done..|by eapply rooted_up|set_solver|left; set_solver|].
        intros x n Hx. apply H6. rewrite lookup_insert_ne; [done|]. intros ->. congruence.
    + right. exists (<[at_ := 1]> state), (path ++ [at_]).
      assert (rooted at_) as Hroot by (exists at_; split; [apply rtc_refl|done]).
      assert (forall x, x ∈ path -> rooted x) as Hpath.
      { intros x Hx. exists at_. split; [|done]. apply tc_rtc, (on_path _ _ _ Hw _ Hx). }
      split_and!; [done| | |done|set_solver|left; set_solver|].
      * intros x n. rewrite lookup_insert_Some. intros [[<- <-]|[Hne Hx]]; [left; split; [done|set_solver]|].
        destruct (colours _ _ _ Hw _ _ Hx) as [[-> ?]|?]; [left; set_solver|by right].
      * intros x [Hx| ->%list_elem_of_singleton]%elem_of_app; [by apply Hpath|done].
      * intros x n Hx. rewrite lookup_insert_ne; [done|]. intros ->. congruence.
  - assert (w = Fail ErrRelationInvariant) as -> by (subst w; unfold walk_owner; by rewrite Ha).
    left. split; [done|]. exists at_. by apply (on_path _ _ _ Hw).
  - assert (w = Ok (inr (state, path))) as -> by (subst w; unfold walk_owner; by rewrite Ha).
    right. exists state, path. cbn. split_and!; [done|apply Hw| |done|done|by right|done].
    intros x Hx. destruct Hr as (y & Hy & Hn). exists y. split; [|done].
    etrans; [|exact Hy]. apply tc_rtc, (on_path _ _ _ Hw _ Hx).
Qed.

Lemma colour_path path (state : gmap nodeKey nat) x :
  foldl (fun state key => <[key := 2]> state) state path !! x =
  if bool_decide (x ∈ path) then Some 2 else state !! x.
Proof.
  induction path as [|k path IH] using rev_ind; [done|]. rewrite foldl_snoc.
  destruct (decide (k = x)) as [->|Hne].
  - rewrite lookup_insert_eq, bool_decide_true; [done|set_solver].
  - rewrite lookup_insert_ne, IH by done. do 2 case_bool_decide; set_solver.
Qed.

Lemma walk_from_spec state start : settled state ->
  (walk_from own state start = Fail ErrRelationInvariant /\ exists x, tc up x x) \/
  (exists state', walk_from own state start = Ok state' /\ settled state' /\ rooted start).
Proof.
  intros Hs. unfold walk_from.
  destruct (state !! start) as [n|] eqn:E; cbn [default negb Nat.eqb from_option].
  { destruct (Hs _ _ E) as [-> Hr]. right. by exists state. }
  destruct (walk_loop (S (S (size own))) state [] start) as [[-> Hc]|(s' & p' & E' & H1 & H2 & H3 & _ & H5 & _)].
  - split; [|intros x Hx; by apply elem_of_nil in Hx|constructor]. intros x n Hx. right. by apply Hs.
  - cbn. lia.
  - by left.
  - right. rewrite E'. cbn [mbind outcome_bind]. eexists. split_and!; [done| |done].
    intros x n. rewrite colour_path. case_bool_decide as Hx; [intros [= <-]; auto|].
    intros Hn. destruct (H1 _ _ Hn) as [[_ ?]|?]; [done|done].
Qed.

Lemma walk_all {A} (starts : list (nodeKey * A)) state : settled state ->
  (fold_outcome (fun state p => walk_from own state p.1) state starts = Fail ErrRelationInvariant /\ exists x, tc up x x) \/
  (exists state', fold_outcome (fun state p => walk_from own state p.1) state starts = Ok state' /\ forall x, x ∈ starts.*1 -> rooted x).
Proof.
  revert state. induction starts as [|p starts IH]; intros state Hs; cbn [fold_outcome].
  - right. exists state. split; [done|]. intros x Hx. by apply elem_of_nil in Hx.
  - destruct (walk_from_spec state p.1 Hs) as [[-> Hc]|(s1 & -> & Hs1 & Hr)]; [by left|]. cbn [mbind outcome_bind].
    destruct (IH s1 Hs1) as [?|(s2 & E & H)]; [by left|]. right. exists s2. split; [done|].
    intros x [->|Hx]%elem_of_cons; [done|by apply H].
Qed.
End cycles.

(** The check accepts exactly the acyclic owner maps. *)
Lemma validateOwnershipCycles_spec `{!MapOrder nodeKey} m :
  dom (owners m) ⊆ dom (nodes m) ->
  (validateOwnershipCycles m = Ok tt /\ forall x, ~ tc (owner_edge (owners m)) x x) \/
  (validateOwnershipCycles m = Fail ErrRelationInvariant /\ exists x, tc (owner_edge (owners m)) x x).
Proof.
  intros Hsub. unfold validateOwnershipCycles.
  destruct (walk_all (owners m) (map_range (nodes m)) ∅) as [[-> Hc]|(s & -> & H)]; [intros ? ?; by rewrite lookup_empty|by right|].
  left. split; [done|]. intros x Hc. refine (rooted_acyclic _ x (H x _) Hc).
  assert (x ∈ dom (owners m)) as Hx.
  { apply elem_of_dom. inversion Hc; subst; eexists; eassumption. }
  apply Hsub, elem_of_dom in Hx as [l Hl]. apply list_elem_of_fmap. exists (x, l). split; [done|]. by apply map_range_elem.
Qed.

(** ** The model describes the graph *)

Lemma own_refs_elem c (l : list resolvedRelation) ref : ref ∈ own_refs c l <-> ref ∈ l /\ kind (r_spec ref) = ownRelation /\ r_target ref = c.
Proof. rewrite list_elem_of_filter. naive_solver. Qed.

Lemma own_refs_cases c (l : list resolvedRelation) : length (own_refs c l) <= 1 -> own_refs c l = [] \/ exists ref, own_refs c l = [ref].
Proof. destruct (own_refs c l) as [|x [|y ys]]; cbn; [by left|by right; exists x|lia]. Qed.

Section build.
Context (types : typeEnv) `{!MapOrder nodeKey} `{!MapOrder string}.
Context (heap : val_heap) (ns : gmap nodeKey loc) (m : relationModel).
Context (built : buildRelationModel types heap ns = Ok m).

Lemma build_scan :
  (forall ref, ref ∈ refs m <-> relation_edge types heap ns ref) /\
  (forall x, x ∈ missing m <-> exists v, required_pointer types heap ns (m_holder x) (m_spec x) v /\
     forall tgt, ~ names types heap ns (m_spec x) v tgt) /\
  (forall holder r v, required_pointer types heap ns holder r v ->
     (exists tgt, names types heap ns r v tgt) \/ forall tgt, ~ names types heap ns r v tgt).
Proof.
  unfold buildRelationModel in built. bind_ok built. rename v into fields. unfold buildRelationModelFromTargets in built.
  bind_ok built. bind_ok built. bind_ok built.
  apply (grows_fold _ (fun s => s) (node_ref types heap (buildRelationTargetIndexFromFields types heap ns fields)) (node_missing types heap (buildRelationTargetIndexFromFields types heap ns fields)) (node_checked types heap (buildRelationTargetIndexFromFields types heap ns fields))) in E0
    as [(l & El & Hl) (lm & Em & Hlm) _ Hc]; [|intros; by apply scanNodeRelations_grows].
  injection built as Emod.
  assert (refs m = l /\ missing m = lm) as [-> ->] by (by rewrite <- Emod).
  assert (forall holder r, (exists lc, ns !! holder = Some lc) -> scanned types (holder, default 1%positive (ns !! holder)) r ->
    graphMatchField r ∈ default ∅ (fields !! target r)) as Hf.
  { intros holder r [lc Hlc] (specs & Hs & Hr & Hk). eapply relationTargetFields_spec; eauto. }
  assert (forall p, p ∈ map_range ns <-> ns !! p.1 = Some p.2) as Hp by (intros []; by rewrite map_range_elem).
  split_and!.
  - intros ref. rewrite Hl. unfold node_ref, field_ref, pointer_ref, relation_edge. split.
    + intros ([key lc] & Hin%Hp & r & (specs & Hs & Hr & Hk) & w & Hv & Eh & Es & Hres). cbn in *. subst key r.
      exists lc, specs, w. split_and!; [done..|]. apply (resolve_names types heap ns fields); [|done].
      apply (Hf (r_holder ref)); [eauto|by exists specs].
    + intros (lc & specs & w & Hin & Hs & Hr & Hk & Hv & Hn). exists (r_holder ref, lc). split; [by apply Hp|].
      exists (r_spec ref). split; [by exists specs|]. exists w. split_and!; [done..|].
      apply (resolve_names types heap ns fields); [|done]. apply (Hf (r_holder ref)); [eauto|by exists specs].
  - intros x. rewrite Hlm. unfold node_missing, field_missing, pointer_missing, required_pointer. split.
    + intros ([key lc] & Hin%Hp & r & (specs & Hs & Hr & Hk) & w & Hv & Eh & Es & Hmay & Hres). cbn in *. subst key r.
      exists w. split; [exists lc, specs; split_and!; done|]. intros tgt Hn.
      apply (resolve_names types heap ns fields) in Hn; [congruence|]. apply (Hf (m_holder x)); [eauto|by exists specs].
    + intros (w & (lc & specs & Hin & Hs & Hr & Hk & Hmay & Hv) & Hn). exists (m_holder x, lc). split; [by apply Hp|].
      exists (m_spec x). split; [by exists specs|]. exists w. split_and!; [done..|].
      destruct (Hc (m_holder x, lc)) as [_ Hck]; [by apply Hp|].
      destruct (Hck (m_spec x) ltac:(by exists specs) w Hv) as [[tgt|] Ho]; [|done].
      exfalso. apply (Hn tgt). apply (resolve_names types heap ns fields); [|done].
      apply (Hf (m_holder x)); [eauto|by exists specs].
  - intros holder r w (lc & specs & Hin & Hs & Hr & Hk & Hmay & Hv).
    destruct (Hc (holder, lc)) as [_ Hck]; [by apply Hp|].
    assert (graphMatchField r ∈ default ∅ (fields !! target r)) as Hfr by (apply (Hf holder); [eauto|by exists specs]).
    destruct (Hck r ltac:(by exists specs) w Hv) as [[tgt|] Ho]; [left; exists tgt|right; intros tgt Hn];
      [|apply (resolve_names types heap ns fields) in Hn; [congruence|done]].
    by apply (resolve_names types heap ns fields).
Qed.

(** What the owner loop computed from the references. *)
Record owners_from (l : list resolvedRelation) : Prop := {
  of_owners : forall c o, owners m !! c = Some o <-> c ∈ dom ns /\
    resolvedOwner (default no_owns ((foldl record_edge (∅, ∅) l).1 !! c)) ((foldl record_edge (∅, ∅) l).2 !! c) = Some o;
  of_single : forall c, c ∈ dom ns -> length (own_refs c l) <= 1;
  of_agree : forall c ref b, c ∈ dom ns -> own_refs c l = [ref] -> (foldl record_edge (∅, ∅) l).2 !! c = Some b ->
    r_holder ref = ow_owner b;
  of_outgoing : forall c o, c ∈ default [] (outgoing m !! o) <-> owners m !! c = Some o;
  of_nodup : forall o, NoDup (default [] (outgoing m !! o));
}.

Lemma build_owners : nodes m = ns /\ owners_from (refs m) /\ forall x, ~ tc (owner_edge (owners m)) x x.
Proof.
  unfold buildRelationModel in built. bind_ok built. rename v into fields. unfold buildRelationModelFromTargets in built.
  bind_ok built. rename v into s. bind_ok built. rename v into f. bind_ok built. injection built as Em.
  assert (nodes m = ns /\ refs m = s_refs s /\ owners m = f.1 /\ outgoing m = f.2) as (Mn & Mr & Mo & Mg) by (by rewrite <- Em).
  apply (grows_fold _ (fun s => s) (node_ref types heap (buildRelationTargetIndexFromFields types heap ns fields)) (node_missing types heap (buildRelationTargetIndexFromFields types heap ns fields)) (node_checked types heap (buildRelationTargetIndexFromFields types heap ns fields))) in E0
    as [(l & El & _) _ Hwf _]; [|intros; by apply scanNodeRelations_grows].
  specialize (Hwf eq_refl). unfold edges_wf in Hwf. cbn in El. rewrite Mr, El. rewrite El in E2, Hwf.
  set (edges := foldl record_edge (∅, ∅) l) in *.
  assert (incoming s = edges.1 /\ ownedBy s = edges.2) as [Hi Ho] by (by rewrite <- Hwf).
  rewrite Hi, Ho in E1. apply attach_fold_spec in E1 as (H1 & H2 & H3 & H4); [|apply map_range_nodup].
  assert (forall c, c ∈ (map_range ns).*1 <-> c ∈ dom ns) as Hdom.
  { intros c. rewrite list_elem_of_fmap, elem_of_dom. split.
    - intros ([k v'] & -> & Hp%map_range_elem). by exists v'.
    - intros [v' Hv]. exists (c, v'). split; [done|]. by apply map_range_elem. }
  split; [done|]. split.
  - split; rewrite ?Mo, ?Mg; [intros c o; by rewrite H1, Hdom| | |done..].
    + intros c Hc%Hdom. rewrite <- (proj1 (record_edges_incoming l c)). by apply H2.
    + intros c ref b Hc%Hdom Er Hb. destruct (record_edges_incoming l c) as [Hcount Hfirst]. rewrite Er in Hcount.
      rewrite <- (Hfirst ref [] Er). by apply (H2 c Hc).
  - rewrite Mo. match type of E2 with validateOwnershipCycles ?x = _ => pose proof (validateOwnershipCycles_spec x) as Hv end.
    destruct Hv as [[_ Hc]|[Ec _]]; [|exact Hc|rewrite Ec in E2; discriminate E2].
    cbn. intros c [o Hc]%elem_of_dom. apply Hdom. by apply H1 in Hc as [Hc _].
Qed.

Lemma edge_nodes ref : ref ∈ refs m -> r_holder ref ∈ dom ns /\ r_target ref ∈ dom ns.
Proof.
  rewrite (proj1 build_scan). intros (l & specs & v & Hl & _ & _ & _ & _ & key & _ & (_ & l' & Hl' & _) & _).
  rewrite !elem_of_dom. eauto.
Qed.

Lemma buildRelationModel_model_ok : model_ok types heap ns m.
Proof.
  destruct build_owners as (Hn & Hof & Hac).
  assert (forall ref, ref ∈ refs m -> kind (r_spec ref) = ownRelation -> own_refs (r_target ref) (refs m) = [ref]) as Hone.
  { intros ref Hr Hk. destruct (own_refs_cases (r_target ref) (refs m)) as [E|[ref' E]].
    - by apply (of_single _ Hof), (edge_nodes ref).
    - assert (ref ∈ own_refs (r_target ref) (refs m)) as H by (by apply own_refs_elem). rewrite E in H. by apply elem_of_nil in H.
    - assert (ref ∈ own_refs (r_target ref) (refs m)) as H by (by apply own_refs_elem).
      rewrite E in H |- *. apply list_elem_of_singleton in H. by subst. }
  split; [done|apply build_scan| | | | |apply Hof|apply Hof|done].
  - intros ref Hr Hk. apply (of_owners _ Hof). split; [by apply edge_nodes|].
    destruct (record_edges_incoming (refs m) (r_target ref)) as [Hc Hf]. rewrite (Hone _ Hr Hk) in Hc, Hf.
    unfold resolvedOwner. rewrite Hc. cbn. f_equal. by eapply Hf.
  - intros ref ref' Hr Hr' Hk Hk' Et. pose proof (Hone _ Hr Hk) as E. pose proof (Hone _ Hr' Hk') as E'. rewrite Et, E' in E. congruence.
  - intros ref Hr Hk. pose proof (record_edges_ownedBy (refs m) (r_holder ref)) as Hb.
    destruct ((foldl record_edge (∅, ∅) (refs m)).2 !! r_holder ref) as [b|] eqn:Eb; [|by destruct (Hb ref Hr Hk)].
    destruct Hb as (ref' & Hr' & Hk' & Hh & Ht). exists ref'. split_and!; [done..|].
    apply (of_owners _ Hof). destruct (edge_nodes ref Hr) as [Hd _]. split; [done|].
    unfold resolvedOwner. rewrite Eb. destruct (record_edges_incoming (refs m) (r_holder ref)) as [Hc Hf].
    destruct (own_refs_cases (r_holder ref) (refs m)) as [E|[own E]]; [by apply (of_single _ Hof)| |]; rewrite E in Hc, Hf; rewrite Hc; cbn.
    + by rewrite Ht.
    + rewrite (Hf own [] eq_refl), Ht. f_equal. by eapply (of_agree _ Hof).
  - intros child owner Ho. apply (of_owners _ Hof) in Ho as [Hd Ho]. unfold resolvedOwner in Ho.
    destruct (record_edges_incoming (refs m) child) as [Hc Hf]. rewrite Hc in Ho.
    destruct (own_refs_cases child (refs m)) as [E|[own E]]; [by apply (of_single _ Hof)| |]; rewrite E in Ho, Hf; cbn in Ho.
    + pose proof (record_edges_ownedBy (refs m) child) as Hb.
      destruct ((foldl record_edge (∅, ∅) (refs m)).2 !! child) as [b|]; [|done]. injection Ho as <-.
      destruct Hb as (ref & Hr & Hk & Hh & Ht). exists ref. split; [done|]. by right.
    + rewrite (Hf own [] eq_refl) in Ho. injection Ho as <-. exists own.
      assert (own ∈ own_refs child (refs m)) as H by (rewrite E; left). apply own_refs_elem in H as (? & ? & ?). split; [done|]. by left.
Qed.
End build.
