(* ===== verification/RelationGraph.v ===== *)
(** * What the relation graph guarantees

    A graph that [buildRelationModel] accepts obeys the ownership rules, and
    [deletionClosure] takes along exactly what the deleted nodes own and
    refuses exactly the deletes a survivor's reference forbids. *)
From S2P Require Import Prelude GoReflect RelationSchema SchemaRows RelationModel.

(** ** A sample graph: a user who owns two posts, one of which a like borrows *)

Definition graph_types : typeEnv := {[
  "User" := entity [rel_field "Posts" (TSlice (TPointer "Post")) "own,Author"]%string;
  "Post" := entity [rel_field "Author" (TPointer "User") "ownedby,Id"]%string;
  "Like" := entity [rel_field "Post" (TPointer "Post") "borrow,Id"; rel_field "By" (TPointer "User") "option,Id"]%string ]}.
Definition graph_id (v : goval) : Z := match struct_fields v with VInt z :: _ => z | _ => 0 end.

Definition user_at (l : loc) := VPointer (Some l).
Definition graph_heap : gmap loc goval := {[
  1%positive := VStruct [VInt 1; VSlice (Some [VPointer (Some 2%positive); VPointer (Some 3%positive)])];
  2%positive := VStruct [VInt 1; VPointer (Some 1%positive)];
  3%positive := VStruct [VInt 2; VPointer (Some 1%positive)];
  4%positive := VStruct [VInt 1; VPointer (Some 3%positive); VPointer None] ]}.
Definition node (t : string) (i : Z) : nodeKey := {| key_typ := t; key_id := i |}.
Definition graph_nodes : gmap nodeKey loc := {[
  node "User" 1 := 1%positive; node "Post" 1 := 2%positive; node "Post" 2 := 3%positive; node "Like" 1 := 4%positive ]}.

Definition graph_model : relationModel :=
  match buildRelationModel graph_types graph_heap graph_nodes with
  | Ok m => m
  | _ => {| nodes := ∅; targets := ∅; targetFields := ∅; refs := []; unresolved := []; missing := []; owners := ∅; outgoing := ∅ |}
  end.
Lemma graph_builds : buildRelationModel graph_types graph_heap graph_nodes = Ok graph_model.
Proof.
  assert (is_ok (buildRelationModel graph_types graph_heap graph_nodes) = true) as H by (vm_compute; reflexivity).
  unfold graph_model. by destruct (buildRelationModel graph_types graph_heap graph_nodes).
Qed.

Example graph_one_back : forallb (fun p => match relationSpecs graph_types p.1 with
  | Ok specs => (countRelationKind specs ownedByRelation <=? 1)%nat | _ => true end) (map_to_list graph_types) = true.
Proof. vm_compute. reflexivity. Qed.

(** * Lemmas *)

Lemma countRelationKind_unique specs k r r' :
  countRelationKind specs k <= 1 -> r ∈ specs -> r' ∈ specs -> kind r = k -> kind r' = k -> r = r'.
Proof.
  unfold countRelationKind. intros Hc Hr Hr' Hk Hk'.
  assert (forall r, r ∈ specs -> kind r = k -> r ∈ List.filter (fun spec => bool_decide (kind spec = k)) specs) as H.
  { intros x Hx Ex. apply list_elem_of_In, filter_In. rewrite bool_decide_eq_true. split; [by apply list_elem_of_In|done]. }
  pose proof (H r Hr Hk) as H1. pose proof (H r' Hr' Hk') as H2.
  destruct (List.filter _ specs) as [|x [|y l]]; [by apply elem_of_nil in H1| |cbn in Hc; lia].
  apply list_elem_of_singleton in H1, H2. congruence.
Qed.

Lemma names_unique types heap ns r v tgt tgt' :
  names types heap ns r v tgt -> names types heap ns r v tgt' -> tgt = tgt'.
Proof. intros (key & E & H & _) (key' & E' & _ & H'). apply H'. congruence. Qed.

(** With one ownedby field per type, as registration checks, the owner an
    ownedby reference names is the owner. *)
Lemma ownedBy_owner types heap ns m ref :
  (forall t specs, relationSpecs types t = Ok specs -> countRelationKind specs ownedByRelation <= 1) ->
  (forall t specs r, relationSpecs types t = Ok specs -> r ∈ specs -> kind r = ownedByRelation -> many r = false) ->
  model_ok types heap ns m -> ref ∈ refs m -> kind (r_spec ref) = ownedByRelation ->
  owners m !! r_holder ref = Some (r_target ref).
Proof.
  intros Hone Hmany Hm Hr Hk. destruct (ownedBy_owners _ _ _ _ Hm ref Hr Hk) as (ref' & Hr' & Hk' & Hh & Ho).
  rewrite Ho. f_equal. apply (model_refs _ _ _ _ Hm) in Hr as (l & specs & v & Hl & Hs & Hin & _ & Hv & Hn).
  apply (model_refs _ _ _ _ Hm) in Hr' as (l' & specs' & v' & Hl' & Hs' & Hin' & _ & Hv' & Hn').
  rewrite Hh in Hl', Hs'. rewrite Hl in Hl'. rewrite Hs in Hs'. injection Hl' as <-. injection Hs' as <-.
  assert (r_spec ref' = r_spec ref) as Es by (eapply countRelationKind_unique; [by eapply Hone|done..]).
  rewrite Es in Hv', Hn'. unfold pointers_of in Hv, Hv'. rewrite (Hmany _ _ _ Hs Hin Hk) in Hv, Hv'.
  destruct (node_field heap l (fieldIndex (r_spec ref))); [|by apply elem_of_nil in Hv].
  apply list_elem_of_singleton in Hv, Hv'. subst. by eapply names_unique.
Qed.

(** An ownedby tag on a slice is rejected. *)
Lemma ownedBy_to_one types t specs r :
  relationSpecs types t = Ok specs -> r ∈ specs -> kind r = ownedByRelation -> many r = false.
Proof.
  intros Hs Hr Hk. unfold relationSpecs in Hs. destruct (types !! t) as [d|]; [|done].
  destruct (parseFields_sound types t 0 _ _ _ Hs Hr) as (j & f & _ & Hp).
  unfold parseRelationField in Hp. destruct (relationTarget types (ftype f)) as [[tgt mny] shape].
  destruct (tag_lookup "rel" (tag f)); [|by destruct (shape && _)].
  destruct shape; [|done]. destruct (isEntityType types tgt); [|done]. cbn in Hp.
  destruct (split_comma s) as [|p0 [|p1 [|]]]; try done.
  destruct (bool_decide _ || bool_decide _); [done|]. destruct (parse_kind (TrimSpace p0)) as [k|]; [|done].
  destruct (bool_decide (k = ownedByRelation) && mny) eqn:E; [done|].
  destruct (bool_decide (k = inverseRelation) && negb mny); [done|]. injection Hp as <-. cbn in *. subst k.
  rewrite bool_decide_true in E by done. done.
Qed.

(** The sample types declare at most one ownedby field each. *)
Lemma graph_registered t specs : relationSpecs graph_types t = Ok specs -> countRelationKind specs ownedByRelation <= 1.
Proof.
  intros Hs. pose proof graph_one_back as H. rewrite forallb_forall in H.
  destruct (graph_types !! t) as [d|] eqn:Ht; [|unfold relationSpecs in Hs; rewrite Ht in Hs; discriminate].
  apply elem_of_map_to_list, list_elem_of_In, H in Ht. cbn [fst] in Ht. rewrite Hs in Ht. by apply Nat.leb_le.
Qed.

(** * Properties *)

(** C9: a graph that [buildRelationModel] accepts obeys the ownership rules:
    the references of the model are exactly the pointers of live entities that
    name a live entity (the one entity of the target type with that key), every
    own and ownedby reference agrees with the owner map, no entity is owned
    through two fields, children lists mirror the owner map, and ownership is
    acyclic. [validateRequiredRelations] then accepts exactly when every
    required pointer of a surviving entity names a live entity. *)
Theorem accepted_graph_is_sound `{!MapOrder nodeKey, !MapOrder string} (types : typeEnv) heap ns m :
  buildRelationModel types heap ns = Ok m ->
  model_ok types heap ns m /\
  forall deleted, validateRequiredRelations m deleted = Ok tt <->
    forall holder r v, holder ∉ deleted -> required_pointer types heap ns holder r v -> exists tgt, names types heap ns r v tgt.
Proof.
  intros E. split; [by eapply buildRelationModel_model_ok|]. intros deleted.
  destruct (build_scan _ _ _ _ E) as (_ & Hmiss & Hdec). unfold validateRequiredRelations.
  assert (forallb (fun x => bool_decide (m_holder x ∈ deleted)) (missing m) = true <->
    forall x, x ∈ missing m -> m_holder x ∈ deleted) as Hall.
  { rewrite forallb_forall. setoid_rewrite bool_decide_eq_true. setoid_rewrite <- list_elem_of_In. done. }
  destruct (forallb _ (missing m)); (split; [|]).
  - intros _ holder r v Hh Hreq. destruct (Hdec _ _ _ Hreq) as [?|Hno]; [done|]. destruct Hh.
    apply (proj1 Hall eq_refl {| m_holder := holder; m_spec := r |}). apply Hmiss. by exists v.
  - done.
  - done.
  - intros H. assert (false = true) as Hf; [|done]. apply Hall. intros x Hx.
    destruct (decide (m_holder x ∈ deleted)); [done|]. apply Hmiss in Hx as (v & Hreq & Hno).
    destruct (H _ _ _ n Hreq) as [tgt Hn]. by destruct (Hno tgt).
Qed.

Lemma accepted_graph_is_sound_witness :
  buildRelationModel graph_types graph_heap graph_nodes = Ok graph_model /\ length (refs graph_model) = 5 /\
  (model_ok graph_types graph_heap graph_nodes graph_model /\
  forall deleted, validateRequiredRelations graph_model deleted = Ok tt <->
    forall holder r v, holder ∉ deleted -> required_pointer graph_types graph_heap graph_nodes holder r v ->
      exists tgt, names graph_types graph_heap graph_nodes r v tgt).
Proof.
  split; [exact graph_builds|]. split; [vm_compute; reflexivity|].
  exact (accepted_graph_is_sound graph_types graph_heap graph_nodes graph_model graph_builds).
Defined.

(** C10: [deletionClosure] on an accepted graph terminates, refuses a delete of
    an entity that is not live, refuses a delete that would leave a survivor
    borrowing, or owning through a required field, something that dies, and
    otherwise deletes exactly the named entities and what they own, directly or
    not. After it, every reference of a survivor to a deleted entity is an
    option relation or an element of an owned slice. *)
Theorem deletionClosure_decides `{!MapOrder nodeKey, !MapOrder string} (types : typeEnv) heap ns m committed explicit
    (accepted : buildRelationModel types heap ns = Ok m)
    (registered : forall t specs, relationSpecs types t = Ok specs -> countRelationKind specs ownedByRelation <= 1) :
  let gone := doomed m committed explicit in
  (~ explicit ⊆ dom ns /\ deletionClosure m committed explicit = Fail ErrRelationInvariant) \/
  (explicit ⊆ dom ns /\ (exists ref, ref ∈ refs m /\ restricts gone ref) /\
   deletionClosure m committed explicit = Fail ErrDeleteRestricted) \/
  (explicit ⊆ dom ns /\ (forall ref, ref ∈ refs m -> ~ restricts gone ref) /\
   exists d, deletionClosure m committed explicit = Ok d /\ (forall x, x ∈ d <-> gone x) /\
     forall ref, ref ∈ refs m -> r_holder ref ∉ d -> r_target ref ∈ d ->
       kind (r_spec ref) = optionRelation \/ kind (r_spec ref) = ownRelation /\ many (r_spec ref) = true).
Proof.
  intros gone. pose proof (buildRelationModel_model_ok _ _ _ _ accepted) as Hm.
  destruct (deletionClosure_spec types heap ns m committed explicit Hm) as [?|[?|(H1 & H2 & d & E & Hd)]]; [by left|by right; left|].
  right; right. split_and!; [done..|]. exists d. split_and!; [done..|]. intros ref Hr Hh Ht.
  assert (~ gone (r_holder ref) /\ gone (r_target ref)) as [Hh' Ht'] by (unfold gone; by rewrite <- !Hd).
  pose proof (H2 _ Hr) as Hv. unfold restricts in Hv.
  destruct (kind (r_spec ref)) eqn:Hk; [| |naive_solver|by left|].
  - right. split; [done|]. destruct (many (r_spec ref)); [done|naive_solver].
  - exfalso. apply Hh'. destruct Ht' as (e & He & Hc). exists e. split; [done|]. eapply rtc_r; [exact Hc|]. left.
    eapply ownedBy_owner; eauto using ownedBy_to_one.
  - apply (model_refs _ _ _ _ Hm) in Hr as (? & ? & ? & _ & _ & _ & Hi & _). done.
Qed.

Lemma deletionClosure_decides_witness :
  let m := graph_model in
  deletionClosure m ∅ {[node "Post" 1]} = Ok {[node "Post" 1]} /\
  deletionClosure m ∅ {[node "User" 1]} = Fail ErrDeleteRestricted /\
  let gone := doomed m ∅ {[node "Post" 1]} in
  (~ {[node "Post" 1]} ⊆ dom graph_nodes /\ deletionClosure m ∅ {[node "Post" 1]} = Fail ErrRelationInvariant) \/
  ({[node "Post" 1]} ⊆ dom graph_nodes /\ (exists ref, ref ∈ refs m /\ restricts gone ref) /\
   deletionClosure m ∅ {[node "Post" 1]} = Fail ErrDeleteRestricted) \/
  ({[node "Post" 1]} ⊆ dom graph_nodes /\ (forall ref, ref ∈ refs m -> ~ restricts gone ref) /\
   exists d, deletionClosure m ∅ {[node "Post" 1]} = Ok d /\ (forall x, x ∈ d <-> gone x) /\
     forall ref, ref ∈ refs m -> r_holder ref ∉ d -> r_target ref ∈ d ->
       kind (r_spec ref) = optionRelation \/ kind (r_spec ref) = ownRelation /\ many (r_spec ref) = true).
Proof.
  split; [vm_compute; reflexivity|]. split; [vm_compute; reflexivity|].
  apply (deletionClosure_decides graph_types graph_heap graph_nodes graph_model ∅ {[node "Post" 1]} graph_builds).
  exact graph_registered.
Defined.
