(* ===== verification/CommittedGraph.v ===== *)
(** * The published relation graph (src/relation_index.go and
      src/relation_runtime.go)

    What a commit or a flush publishes for the next transactions: who owns
    whom, and an index of the relation fields with the counts of references
    into each node. The index is maintained in place, so its small containers
    ([incomingCounts], [nodeKeySet], [relationFieldDeltas]) switch from a scan
    to a map when they grow. *)
From S2P Require Import Prelude GoReflect RelationSchema SchemaRows RelationModel RelationGraph.

(** ** Small containers *)

Record relationHolderField := { hf_holder : nodeKey; hf_field : nat }.
#[export] Instance relationHolderField_eq_dec : EqDecision relationHolderField.
Proof. solve_decision. Defined.
#[export] Instance relationHolderField_countable : Countable relationHolderField.
Proof.
  refine (inj_countable' (fun k => (hf_holder k, hf_field k)) (fun p => {| hf_holder := p.1; hf_field := p.2 |}) _). by intros [].
Defined.

Record incomingCount := { ic_field : relationHolderField; ic_count : Z }.
Record incomingCounts := { entries : list incomingCount; lookup_ : option (gmap relationHolderField nat) }.
Definition incomingLookupThreshold : nat := 8.

(** [-1] is [None]. *)
Definition position (c : incomingCounts) (f : relationHolderField) : option nat :=
  match lookup_ c with
  | Some m => m !! f
  | None => fst <$> list_find (fun e => ic_field e = f) (entries c)
  end.

Definition bump (d : Z) (e : incomingCount) : incomingCount := {| ic_field := ic_field e; ic_count := ic_count e + d |}.

Definition index_entries (es : list incomingCount) : gmap relationHolderField nat :=
  foldl (fun m p => <[ic_field p.2 := p.1]> m) ∅ (zip (seq 0 (length es)) es).

Definition increment (c : incomingCounts) (f : relationHolderField) : incomingCounts :=
  match position c f with
  | Some p => {| entries := alter (bump 1) p (entries c); lookup_ := lookup_ c |}
  | None =>
      let es := entries c ++ [{| ic_field := f; ic_count := 1 |}] in
      match lookup_ c with
      | Some m => {| entries := es; lookup_ := Some (<[f := length es - 1]> m) |}
      | None => {| entries := es; lookup_ := if (incomingLookupThreshold <? length es)%nat then Some (index_entries es) else None |}
      end
  end.

(** An exhausted entry is overwritten by the last one, which is dropped. *)
Definition decrement (c : incomingCounts) (f : relationHolderField) : outcome incomingCounts :=
  match position c f with
  | None => Ok c
  | Some p =>
      let es := alter (bump (-1)) p (entries c) in
      match es !! p with
      | None => Panic
      | Some e =>
          if (0 <? ic_count e)%Z then Ok {| entries := es; lookup_ := lookup_ c |} else
          let last_ := length es - 1 in
          match es !! last_ with
          | None => Panic
          | Some moved =>
              Ok {| entries := take last_ (<[p := moved]> es);
                    lookup_ := (fun m => let m := delete f m in
                      if (p =? last_)%nat then m else <[ic_field moved := p]> m) <$> lookup_ c |}
          end
      end
  end.

Record nodeKeySet := { inline : list nodeKey; overflow : list nodeKey; index_ : option (gset nodeKey) }.
Definition inline_cap : nat := 8.
Definition ks_add (ks : nodeKeySet) (key : nodeKey) : nodeKeySet * bool :=
  match index_ ks with
  | Some ix =>
      if bool_decide (key ∈ ix) then (ks, false)
      else ({| inline := inline ks; overflow := overflow ks ++ [key]; index_ := Some ({[key]} ∪ ix) |}, true)
  | None =>
      if bool_decide (key ∈ inline ks) then (ks, false)
      else if (length (inline ks) <? inline_cap)%nat
      then ({| inline := inline ks ++ [key]; overflow := overflow ks; index_ := None |}, true)
      else ({| inline := inline ks; overflow := overflow ks ++ [key];
               index_ := Some ({[key]} ∪ list_to_set (inline ks)) |}, true)
  end.
Definition ks_at (ks : nodeKeySet) (i : nat) : option nodeKey :=
  if (i <? inline_cap)%nat then inline ks !! i else overflow ks !! (i - inline_cap).

Record indexedRelationField := { if_spec : option relationSpec; if_targets : list nodeKey }.
Record relationFieldDelta := { fd_key : relationHolderField; fd_field : indexedRelationField }.
Record relationFieldDeltas := { values : list relationFieldDelta; fd_positions : option (gmap relationHolderField nat) }.
Definition fd_add (fs : relationFieldDeltas) (key : relationHolderField) (field : indexedRelationField) : relationFieldDeltas :=
  let vs := values fs ++ [{| fd_key := key; fd_field := field |}] in
  if (length vs =? 9)%nat
  then {| values := vs; fd_positions := Some (foldl (fun m p => <[fd_key p.2 := p.1]> m) ∅ (zip (seq 0 (length vs)) vs)) |}
  else {| values := vs; fd_positions := (fun m => <[key := length vs - 1]> m) <$> fd_positions fs |}.
Definition fd_find (fs : relationFieldDeltas) (key : relationHolderField) : outcome (option indexedRelationField) :=
  match fd_positions fs with
  | Some m =>
      match m !! key with
      | None => Ok None
      | Some i => match values fs !! i with Some e => Ok (Some (fd_field e)) | None => Panic end
      end
  | None => Ok ((fun p => fd_field p.2) <$> list_find (fun e => fd_key e = key) (values fs))
  end.

(** ** The index *)

Record committedRelationIndex := {
  x_nodes : gmap nodeKey loc;
  x_targets : gmap relationTargetKey indexedRelationTarget;
  x_targetFields : gmap string (gset string);
  backFields : gmap string (gset nat);
  x_fields : gmap relationHolderField indexedRelationField;
  x_incoming : gmap nodeKey incomingCounts;
  x_owners : gmap nodeKey nodeKey;
}.

Definition with_fields (x : committedRelationIndex) (fs : gmap relationHolderField indexedRelationField) :=
  {| x_nodes := x_nodes x; x_targets := x_targets x; x_targetFields := x_targetFields x; backFields := backFields x;
     x_fields := fs; x_incoming := x_incoming x; x_owners := x_owners x |}.
Definition with_incoming (x : committedRelationIndex) (i : gmap nodeKey incomingCounts) :=
  {| x_nodes := x_nodes x; x_targets := x_targets x; x_targetFields := x_targetFields x; backFields := backFields x;
     x_fields := x_fields x; x_incoming := i; x_owners := x_owners x |}.

Definition no_counts : incomingCounts := {| entries := []; lookup_ := None |}.
Definition incrementIncoming (x : committedRelationIndex) (tgt : nodeKey) (f : relationHolderField) : committedRelationIndex :=
  with_incoming x (<[tgt := increment (default no_counts (x_incoming x !! tgt)) f]> (x_incoming x)).
Definition decrementIncoming (x : committedRelationIndex) (tgt : nodeKey) (f : relationHolderField) : outcome committedRelationIndex :=
  match x_incoming x !! tgt with
  | None => Ok x
  | Some c => c ← decrement c f; Ok (with_incoming x (<[tgt := c]> (x_incoming x)))
  end.

Section graph.
Context (types : typeEnv) (GetId : goval -> Z) `{!MapOrder nodeKey} `{!MapOrder string}.
Implicit Types (heap : gmap loc goval) (key : nodeKey).

(** One node of [indexRelationFields]; a type whose specs do not parse is
    skipped. *)
Definition index_node_fields (st : committedRelationIndex * gset string) (p : nodeKey * loc) :
    committedRelationIndex * gset string :=
  let '(x, visited) := st in
  let t := key_typ p.1 in
  match relationSpecs types t with
  | Ok specs =>
      let x := with_fields x (foldl (fun fs r =>
          if bool_decide (kind r = inverseRelation) then fs
          else <[{| hf_holder := p.1; hf_field := fieldIndex r |} := {| if_spec := Some r; if_targets := [] |}]> fs)
        (x_fields x) specs) in
      if bool_decide (t ∈ visited) then (x, visited) else
      let back := foldl (fun (back : gmap string (gset nat)) r =>
          if negb (bool_decide (kind r = ownRelation)) || negb (many r) then back else
          match types !! target r ≫= fun d => FieldByName d (matchField r) with
          | None => back
          | Some (i, _) => <[target r := {[i]} ∪ default ∅ (back !! target r)]> back
          end) (backFields x) specs in
      ({| x_nodes := x_nodes x; x_targets := x_targets x; x_targetFields := x_targetFields x; backFields := back;
          x_fields := x_fields x; x_incoming := x_incoming x; x_owners := x_owners x |}, {[t]} ∪ visited)
  | _ => (x, visited)
  end.
Definition indexRelationFields (x : committedRelationIndex) (ns : gmap nodeKey loc) : committedRelationIndex :=
  (foldl index_node_fields (x, ∅) (map_range ns)).1.

(** The loop over the references. *)
Definition index_ref (deleted : gset nodeKey) (x : committedRelationIndex) (ref : resolvedRelation) : committedRelationIndex :=
  if bool_decide (r_holder ref ∈ deleted) || bool_decide (r_target ref ∈ deleted) then x else
  let f := {| hf_holder := r_holder ref; hf_field := fieldIndex (r_spec ref) |} in
  let field := default {| if_spec := None; if_targets := [] |} (x_fields x !! f) in
  incrementIncoming (with_fields x (<[f := {| if_spec := if_spec field; if_targets := if_targets field ++ [r_target ref] |}]> (x_fields x)))
    (r_target ref) f.

Definition buildCommittedRelationIndex heap (m : relationModel) (deleted : gset nodeKey) : committedRelationIndex :=
  let '(ns, ts) :=
    if bool_decide (deleted = ∅) then (nodes m, targets m)
    else let ns := filter (fun p => p.1 ∉ deleted) (nodes m) in
         (ns, buildRelationTargetIndexFromFields types heap ns (targetFields m)) in
  let x := {| x_nodes := ns; x_targets := ts; x_targetFields := targetFields m; backFields := ∅; x_fields := ∅;
              x_incoming := ∅; x_owners := ∅ |} in
  let x := foldl (index_ref deleted) (indexRelationFields x ns) (refs m) in
  {| x_nodes := x_nodes x; x_targets := x_targets x; x_targetFields := x_targetFields x; backFields := backFields x;
     x_fields := x_fields x; x_incoming := x_incoming x;
     x_owners := filter (fun p => p.1 ∉ deleted /\ p.2 ∉ deleted) (owners m) |}.

Definition key_compare : nodeKey -> nodeKey -> Z :=
  lex_cmp (fun a b => string_compare (key_typ a) (key_typ b)) (fun a b => cmp_compare (key_id a) (key_id b)).

(** One entry of the count: a count whose field is not indexed panics. *)
Definition inverse_holder (x : committedRelationIndex) (inverse : relationSpec) (seen : gset nodeKey) (e : incomingCount) :
    outcome (gset nodeKey) :=
  when (ic_count e <=? 0)%Z => Ok seen ;;
  match (f ← x_fields x !! ic_field e; if_spec f) with
  | None => Panic
  | Some r =>
      when negb (bool_decide (owner r = target inverse)) || negb (bool_decide (fieldName r = matchField inverse)) => Ok seen ;;
      when negb (bool_decide (kind r = borrowRelation)) && negb (bool_decide (kind r = optionRelation)) => Ok seen ;;
      Ok ({[hf_holder (ic_field e)]} ∪ seen)
  end.

(** The holders an inverse field shows. *)
Definition inverseHolders (x : committedRelationIndex) (tgt : nodeKey) (inverse : relationSpec) : outcome (list nodeKey) :=
  seen ← fold_outcome (inverse_holder x inverse) ∅ (entries (default no_counts (x_incoming x !! tgt)));
  Ok (SortFunc key_compare (set_range seen)).

(** The relation field at [i] of the entity at [l]. Setting an unexported
    field and setting the zero [reflect.Value] of a key without a node panic. *)
Definition setIndexedRelationField heap (l : loc) (i : nat) (canSet isSlice : bool) (ts : list nodeKey) (ns : gmap nodeKey loc) :
    outcome (gmap loc goval) :=
  let pointer key : option goval := (fun l => VPointer (Some l)) <$> ns !! key in
  when negb canSet => Panic ;;
  if negb isSlice then
    match ts with
    | [] => Ok (set_node_field heap l i (VPointer None))
    | t :: _ => match pointer t with Some v => Ok (set_node_field heap l i v) | None => Panic end
    end
  else match mapM pointer ts with Some wired => Ok (set_node_field heap l i (VSlice (Some wired))) | None => Panic end.

(** ** What is published *)

Record committedOwnership := {
  ready : bool;
  c_outgoing : gmap nodeKey (list nodeKey);
  branches : gmap nodeKey (list nodeKey);
  graph : option relationModel;
  c_index : option committedRelationIndex;
}.

Definition resetCommittedOwnership : committedOwnership :=
  {| ready := false; c_outgoing := ∅; branches := ∅; graph := None; c_index := None |}.

Definition storeCommittedOwnership heap (m : relationModel) (deleted : gset nodeKey) : committedOwnership :=
  let outgoing := foldl (fun (out : gmap nodeKey (list nodeKey)) p =>
      if bool_decide (p.1 ∈ deleted) then out
      else foldl (fun (out : gmap nodeKey (list nodeKey)) child =>
             if bool_decide (child ∈ deleted) then out else <[p.1 := default [] (out !! p.1) ++ [child]]> out) out p.2)
    ∅ (map_range (outgoing m)) in
  {| ready := true; c_outgoing := outgoing; branches := ∅;
     graph := if bool_decide (deleted = ∅) then Some m else None;
     c_index := Some (buildCommittedRelationIndex heap m deleted) |}.

Definition refreshCommittedOwnership heap (reg : registries) : outcome committedOwnership :=
  ns ← collectRelationNodes GetId heap reg false None;
  m ← buildRelationModel types heap ns;
  _ ← validateRequiredRelations m ∅;
  Ok (storeCommittedOwnership heap m ∅).

(** [registered]: some open type takes part in a relation. *)
Definition ensureCommittedOwnership heap (reg : registries) (registered : bool) (c : committedOwnership) : outcome committedOwnership :=
  when ready c => Ok c ;;
  when negb registered => Ok c ;;
  refreshCommittedOwnership heap reg.

Definition committedChildren (c : committedOwnership) (owner : nodeKey) : list nodeKey := default [] (c_outgoing c !! owner).
Definition committedOwnerHasChildren (c : committedOwnership) (owner : nodeKey) : bool :=
  (0 <? length (committedChildren c owner))%nat.

(** The loop is bounded by the number of owners, so that a broken index cannot
    hold the lock for ever. *)
Fixpoint climb (own : gmap nodeKey nodeKey) (n : nat) (node : nodeKey) : nodeKey :=
  match n with
  | O => node
  | S n => match own !! node with None => node | Some owner => climb own n owner end
  end.
Definition committedOwnershipRoot (c : committedOwnership) (node : nodeKey) : nodeKey :=
  match c_index c with
  | None => node
  | Some x => climb (x_owners x) (S (size (x_owners x))) node
  end.

(** The worklist of [committedOwnershipKeys] grows while it is walked. [fuel]
    bounds its length: in an ownership forest every node is listed once. *)
Fixpoint branch_loop (out : gmap nodeKey (list nodeKey)) (fuel : nat) (done todo : list nodeKey) : outcome (list nodeKey) :=
  match todo with
  | [] => Ok done
  | owner :: todo =>
      match fuel with
      | O => Panic
      | S fuel => branch_loop out fuel (done ++ [owner]) (todo ++ default [] (out !! owner))
      end
  end.
Definition branch_fuel (c : committedOwnership) : nat := S (length (concat (map_to_list (c_outgoing c)).*2)).

Definition committedOwnershipKeys (c : committedOwnership) (root : nodeKey) : outcome (committedOwnership * list nodeKey) :=
  match branches c !! root with
  | Some keys => Ok (c, keys)
  | None =>
      out ← branch_loop (c_outgoing c) (branch_fuel c) [] [root];
      let out := if (1 <? length out)%nat then SortFunc key_compare out else out in
      Ok ({| ready := ready c; c_outgoing := c_outgoing c; branches := <[root := out]> (branches c);
             graph := graph c; c_index := c_index c |}, out)
  end.

Definition removeCommittedChild (out : gmap nodeKey (list nodeKey)) (owner child : nodeKey) : gmap nodeKey (list nodeKey) :=
  let children := default [] (out !! owner) in
  match list_find (fun candidate => candidate = child) children with
  | None => out
  | Some (i, _) => <[owner := slices_delete children i]> out
  end.
Definition addCommittedChild (out : gmap nodeKey (list nodeKey)) (owner child : nodeKey) : gmap nodeKey (list nodeKey) :=
  let children := default [] (out !! owner) in
  if bool_decide (child ∈ children) then out else <[owner := children ++ [child]]> out.

(** [dropDoomedPointers]: the elements that stay. *)
Definition dropDoomedPointers heap (r : relationSpec) (field : list goval) (closure : gset nodeKey) : list goval :=
  List.filter (fun element =>
    match valueID GetId heap (readable types r element) with
    | Some i => negb (bool_decide ({| key_typ := target r; key_id := i |} ∈ closure))
    | None => true
    end) field.
End graph.

(** ** Specification *)

(** The ownership edges that are published. *)
Definition owns (m : relationModel) (deleted : gset nodeKey) (owner child : nodeKey) : Prop :=
  owners m !! child = Some owner /\ owner ∉ deleted /\ child ∉ deleted.

(** * Lemmas *)

#[export] Instance key_compare_order : GoOrder key_compare.
Proof. apply lex_cmp_order; apply on_order, _. Qed.

Lemma key_compare_eq a b : key_compare a b = 0%Z -> a = b.
Proof.
  unfold key_compare, lex_cmp. destruct (Z.eqb_spec (string_compare (key_typ a) (key_typ b)) 0) as [E|E]; [|done].
  apply string_compare_spec in E. intros E'. destruct a as [ta ia], b as [tb ib]. cbn in *. subst tb. f_equal.
  pose proof (cmp_compare_spec ia ib). lia.
Qed.

(** ** The worklist of a branch *)

Lemma length_concat_perm {A} (l1 l2 : list (list A)) : l1 ≡ₚ l2 -> length (concat l1) = length (concat l2).
Proof. induction 1; cbn; rewrite ?length_app; lia. Qed.

Lemma length_concat_submseteq {A} (l1 l2 : list (list A)) : l1 ⊆+ l2 -> length (concat l1) <= length (concat l2).
Proof.
  intros [k Hk]%submseteq_Permutation. rewrite (length_concat_perm _ _ Hk), concat_app, length_app. lia.
Qed.

Lemma closed_rtc {A} (R : relation A) (P : A -> Prop) x y :
  (forall a b, P a -> R a b -> P b) -> P x -> rtc R x y -> P y.
Proof. intros Hstep Hx. induction 1; eauto. Qed.

Section branch.
Context (out : gmap nodeKey (list nodeKey)) (root : nodeKey).
Notation children o := (default [] (out !! o)).
Notation edge := (fun o c => c ∈ children o).

Lemma children_length (done : list nodeKey) : NoDup done ->
  length (concat ((fun o => children o) <$> done)) <= length (concat (map_to_list out).*2).
Proof.
  intros Hd. set (ps := omap (fun o => pair o <$> out !! o) done).
  assert (forall p, p ∈ ps <-> p.1 ∈ done /\ out !! p.1 = Some p.2) as Hps.
  { intros [o cs]. unfold ps. rewrite list_elem_of_omap. setoid_rewrite fmap_Some. split.
    - intros (o' & Ho & cs' & E & [= -> ->]). done.
    - intros [Ho E]. exists o. split; [done|]. by exists cs. }
  trans (length (concat ps.*2)).
  - unfold ps. clear -Hd. induction done as [|o done IH]; [done|]. apply NoDup_cons in Hd as [_ Hd]. specialize (IH Hd).
    cbn. destruct (out !! o) as [cs|]; cbn; rewrite ?length_app; lia.
  - apply length_concat_submseteq, fmap_submseteq, NoDup_submseteq.
    + unfold ps. apply NoDup_omap_inj; [|done]. intros x y z Hx Hy. rewrite fmap_Some in Hx, Hy.
      destruct Hx as (? & _ & ->), Hy as (? & _ & [= ? ?]). done.
    + intros [o cs] [_ E]%Hps. by apply elem_of_map_to_list.
Qed.

Context (one_parent : forall a b c, c ∈ children a -> c ∈ children b -> a = b).
Context (nodup : forall o, NoDup (children o)).
Context (acyclic : forall x, ~ tc edge x x).

(** What is listed is the root and the children of what is done. *)
Record listing (done todo : list nodeKey) : Prop := {
  listed : done ++ todo = root :: concat ((fun o => children o) <$> done);
  listed_once : NoDup (done ++ todo);
  listed_below : forall x, x ∈ done ++ todo -> rtc edge root x;
}.

Lemma listing_step done owner todo : listing done (owner :: todo) -> listing (done ++ [owner]) (todo ++ children owner).
Proof.
  intros [H1 H2 H3].
  assert (rtc edge root owner) as Ho by (apply H3; set_solver).
  assert (owner ∉ done) as Hnew.
  { intros Hin. apply NoDup_app in H2 as (_ & H2 & _). apply (H2 _ Hin). left. }
  assert ((done ++ [owner]) ++ todo ++ children owner = root :: concat ((fun o => children o) <$> done ++ [owner])) as E.
  { rewrite fmap_app, concat_app. cbn [fmap list_fmap concat]. rewrite app_nil_r, app_comm_cons, <- H1, <- !app_assoc. done. }
  split; [done| |].
  - rewrite <- app_assoc. cbn. change (owner :: todo ++ children owner) with ((owner :: todo) ++ children owner).
    rewrite app_assoc. apply NoDup_app. split_and!; [done| |done].
    intros c Hc Hch. rewrite H1 in Hc. apply elem_of_cons in Hc as [->|Hc].
    + apply (acyclic root). eapply tc_rtc_l; [exact Ho|]. by apply tc_once.
    + apply list_elem_of_In, in_concat in Hc as (l & Hl & Hc). apply list_elem_of_In in Hl, Hc.
      apply list_elem_of_fmap in Hl as (d & -> & Hd). apply Hnew. by rewrite <- (one_parent _ _ _ Hc Hch).
  - intros x. rewrite <- app_assoc. cbn. change (owner :: todo ++ children owner) with ((owner :: todo) ++ children owner).
    rewrite app_assoc, elem_of_app. intros [Hx|Hx]; [by apply H3|]. eapply rtc_r; [exact Ho|exact Hx].
Qed.

Lemma branch_loop_spec fuel done todo :
  listing done todo -> S (length (concat (map_to_list out).*2)) <= fuel + length done ->
  exists keys, branch_loop out fuel done todo = Ok keys /\ NoDup keys /\ forall x, x ∈ keys <-> rtc edge root x.
Proof.
  revert done todo. induction fuel as [|fuel IH]; intros done todo Hl Hfuel; destruct todo as [|owner todo]; cbn [branch_loop].
  2: { exfalso. assert (NoDup done) as Hd by (pose proof (listed_once _ _ Hl) as H; by apply NoDup_app in H as (? & _)).
       pose proof (children_length done Hd). pose proof (f_equal length (listed _ _ Hl)) as E. cbn in E.
       rewrite length_app in E. cbn in E. lia. }
  1,2: exists done; destruct Hl as [H1 H2 H3]; rewrite app_nil_r in *; split_and!; [done..|]; intros x; split; [apply H3|];
    apply (closed_rtc _ (.∈ done)); [|rewrite H1; left];
    intros y z Hy Hyz; rewrite H1; right; apply list_elem_of_In, in_concat; exists (children y);
    (split; [apply list_elem_of_In, list_elem_of_fmap; by exists y|by apply list_elem_of_In]).
  apply IH; [by apply listing_step|]. rewrite length_app. cbn. lia.
Qed.
End branch.

(** ** What is published of an accepted graph *)

Lemma publish_children (d : gset nodeKey) (o o' : nodeKey) (cs : list nodeKey) (acc : gmap nodeKey (list nodeKey)) :
  default [] (foldl (fun (out : gmap nodeKey (list nodeKey)) child =>
      if bool_decide (child ∈ d) then out else <[o := default [] (out !! o) ++ [child]]> out) acc cs !! o') =
  default [] (acc !! o') ++ (if decide (o = o') then filter (.∉ d) cs else []).
Proof.
  revert acc. induction cs as [|c cs IH]; intros acc; cbn [foldl].
  - destruct (decide _); by rewrite app_nil_r.
  - rewrite IH, filter_cons. case_bool_decide as Hc.
    + destruct (decide (o = o')); [|done]. rewrite decide_False; [done|]. intros Hn. by apply Hn.
    + destruct (decide (o = o')) as [->|Hne].
      * rewrite lookup_insert_eq, decide_True by done. cbn. by rewrite <- app_assoc.
      * by rewrite lookup_insert_ne.
Qed.

Lemma publish_outgoing (d : gset nodeKey) o (ps : list (nodeKey * list nodeKey)) (acc : gmap nodeKey (list nodeKey)) :
  default [] (foldl (fun (out : gmap nodeKey (list nodeKey)) p =>
      if bool_decide (p.1 ∈ d) then out
      else foldl (fun (out : gmap nodeKey (list nodeKey)) child =>
             if bool_decide (child ∈ d) then out else <[p.1 := default [] (out !! p.1) ++ [child]]> out) out p.2) acc ps !! o) =
  default [] (acc !! o) ++ concat ((fun p => if decide (p.1 = o /\ o ∉ d) then filter (.∉ d) p.2 else []) <$> ps).
Proof.
  revert acc. induction ps as [|p ps IH]; intros acc; [by rewrite app_nil_r|]. cbn [foldl fmap list_fmap concat]. rewrite IH.
  case_bool_decide as Hp.
  - rewrite decide_False by naive_solver. done.
  - rewrite publish_children, <- app_assoc. f_equal. f_equal.
    destruct (decide (p.1 = o)) as [<-|Hne]; [by rewrite decide_True|rewrite decide_False; naive_solver].
Qed.

Lemma concat_assoc {B} (ps : list (nodeKey * B)) (g : B -> list nodeKey) o (Q : Prop) `{!Decision Q} :
  NoDup ps.*1 ->
  (o ∉ ps.*1 -> concat ((fun p => if decide (p.1 = o /\ Q) then g p.2 else []) <$> ps) = []) /\
  (forall b, (o, b) ∈ ps -> concat ((fun p => if decide (p.1 = o /\ Q) then g p.2 else []) <$> ps) = if decide Q then g b else []).
Proof.
  induction ps as [|[k x] ps IH]; intros Hnd; [split; [done|intros b Hb; by apply elem_of_nil in Hb]|].
  cbn in Hnd. apply NoDup_cons in Hnd as [Hk Hnd]. destruct (IH Hnd) as [IH1 IH2]. cbn [fmap list_fmap concat fst snd]. split.
  - intros Ho. rewrite decide_False by (intros [-> _]; apply Ho; left). apply IH1. intros Hin. apply Ho. by right.
  - intros b [[= -> ->]|Hb]%elem_of_cons.
    + rewrite IH1, app_nil_r by done. destruct (decide Q); [by rewrite decide_True|rewrite decide_False; naive_solver].
    + rewrite decide_False; [by apply IH2|]. intros [-> _]. apply Hk. by apply (list_elem_of_fmap_2 fst) in Hb.
Qed.

Section published.
Context (types : typeEnv) `{!MapOrder nodeKey} `{!MapOrder string}.
Context (heap : gmap loc goval) (ns : gmap nodeKey loc) (m : relationModel) (d : gset nodeKey).
Context (accepted : model_ok types heap ns m).
Notation c := (storeCommittedOwnership types heap m d).

Lemma published_children o : committedChildren c o =
  if decide (o ∉ d) then filter (.∉ d) (default [] (outgoing m !! o)) else [].
Proof.
  unfold committedChildren, storeCommittedOwnership. cbn. rewrite publish_outgoing, lookup_empty. cbn.
  destruct (concat_assoc (map_range (outgoing m)) (filter (.∉ d)) o (o ∉ d) (map_range_nodup _)) as [H1 H2].
  destruct (outgoing m !! o) as [cs|] eqn:E.
  - apply H2. by apply map_range_elem.
  - rewrite H1; [by destruct (decide (o ∉ d))|]. intros ([k cs] & -> & Hin)%list_elem_of_fmap.
    apply map_range_elem in Hin. cbn in E. congruence.
Qed.

Lemma published_owns o x : x ∈ committedChildren c o <-> owns m d o x.
Proof.
  rewrite published_children. unfold owns. destruct (decide (o ∉ d)) as [Ho|Ho].
  - rewrite list_elem_of_filter, (outgoing_owners _ _ _ _ accepted). naive_solver.
  - split; [intros H; by apply elem_of_nil in H|naive_solver].
Qed.

Lemma published_nodup o : NoDup (committedChildren c o).
Proof.
  rewrite published_children. destruct (decide _); [|constructor]. apply NoDup_filter, (outgoing_nodup _ _ _ _ accepted).
Qed.

Lemma owns_tc x y : tc (owns m d) x y -> tc (owner_edge (owners m)) y x.
Proof. induction 1 as [x y [H _]|x y z [H _] _ IH]; [by apply tc_once|by eapply tc_r]. Qed.

(** The branch of a node: the worklist terminates within its bound. *)
Lemma published_branch root : exists keys,
  branch_loop (c_outgoing c) (branch_fuel c) [] [root] = Ok keys /\ NoDup keys /\
  forall x, x ∈ keys <-> rtc (owns m d) root x.
Proof.
  destruct (branch_loop_spec (c_outgoing c) root) with (fuel := branch_fuel c) (done := @nil nodeKey) (todo := [root])
    as (keys & E & Hnd & H).
  - intros a b x Ha Hb. apply published_owns in Ha as [Ha _], Hb as [Hb _]. congruence.
  - intros o. apply published_nodup.
  - assert (forall a b, tc (fun o x => x ∈ committedChildren c o) a b -> tc (owns m d) a b) as Htc.
    { induction 1 as [a b Hab|a b e Hab _ IH]; [apply tc_once|eapply tc_l; [|exact IH]]; by apply published_owns. }
    intros x Hx. apply (owners_acyclic _ _ _ _ accepted x), owns_tc, Htc, Hx.
  - split; [done|apply NoDup_singleton|]. intros x ->%list_elem_of_singleton. apply rtc_refl.
  - unfold branch_fuel. cbn. lia.
  - exists keys. split_and!; [done..|]. intros x. rewrite H. clear H E Hnd.
    split; (induction 1 as [|a b e Hab _ IH]; [apply rtc_refl|eapply rtc_l; [|exact IH]]; apply published_owns; exact Hab).
Qed.

End published.

(** The root of a node: the climb ends at a node nothing owns. *)
Lemma climb_spec (own : gmap nodeKey nodeKey) x :
  (forall y, ~ tc (owner_edge own) y y) ->
  rtc (owner_edge own) x (climb own (S (size own)) x) /\ own !! climb own (S (size own)) x = None.
Proof.
  intros Hac.
  assert (forall n x (seen : gset nodeKey), seen ⊆ dom own -> x ∉ seen ->
    (forall y, y ∈ seen -> tc (owner_edge own) y x) -> size own < n + size seen ->
    rtc (owner_edge own) x (climb own n x) /\ own !! climb own n x = None) as H.
  { clear x. induction n as [|n IH]; intros x seen Hsub Hx Hseen Hn.
    - pose proof (subseteq_size _ _ Hsub) as Hs. rewrite size_dom in Hs. lia.
    - cbn. destruct (own !! x) as [o|] eqn:E; [|split; [apply rtc_refl|done]].
      destruct (IH o ({[x]} ∪ seen)) as [H1 H2].
      + intros y [->%elem_of_singleton|Hy]%elem_of_union; [by apply elem_of_dom|by apply Hsub].
      + intros [->%elem_of_singleton|Hy]%elem_of_union.
        * apply (Hac x). by apply tc_once.
        * apply (Hac o). eapply tc_r; [by apply Hseen|done].
      + intros y [->%elem_of_singleton|Hy]%elem_of_union; [by apply tc_once|]. eapply tc_r; [by apply Hseen|done].
      + rewrite size_union, size_singleton by set_solver. lia.
      + split; [|done]. eapply rtc_l; [exact E|done]. }
  apply (H _ _ ∅); [set_solver..|]. rewrite size_empty. lia.
Qed.

Lemma index_owners `{!MapOrder nodeKey, !MapOrder string} types heap m d :
  x_owners (buildCommittedRelationIndex types heap m d) = filter (fun p => p.1 ∉ d /\ p.2 ∉ d) (owners m).
Proof. unfold buildCommittedRelationIndex. by destruct (if bool_decide (d = ∅) then _ else _). Qed.

(** A chain of owners has one end. *)
Lemma top_unique (own : gmap nodeKey nodeKey) x y z :
  rtc (owner_edge own) x y -> own !! y = None -> rtc (owner_edge own) x z -> own !! z = None -> y = z.
Proof.
  intros Hy Hyn Hz Hzn. induction Hy as [x|x w y Hw _ IH].
  - destruct Hz as [|x w z Hw _]; [done|]. unfold owner_edge in Hw. congruence.
  - apply IH; [done|]. destruct Hz as [|x w' z Hw' Hz]; unfold owner_edge in *; [congruence|]. by simplify_eq.
Qed.

(** * Properties *)

(** C18: over a published graph, the branch of an entity is the entity and all
    it owns directly or not, each once, in the global lock order; computing it
    terminates and computing it again gives the cached list; and every entity
    of the branch has the same top-level owner as its root, which is what one
    branch lock protects. *)
Theorem branch_is_ownership_tree `{!MapOrder nodeKey, !MapOrder string} (types : typeEnv) heap ns m deleted root
    (accepted : buildRelationModel types heap ns = Ok m) :
  let c := storeCommittedOwnership types heap m deleted in
  exists c' keys, committedOwnershipKeys c root = Ok (c', keys) /\
    StronglySorted (fun a b => (key_compare a b < 0)%Z) keys /\
    (forall x, x ∈ keys <-> rtc (owns m deleted) root x) /\
    committedOwnershipKeys c' root = Ok (c', keys) /\
    forall x, x ∈ keys -> committedOwnershipRoot c x = committedOwnershipRoot c root.
Proof.
  intros c. pose proof (buildRelationModel_model_ok _ _ _ _ accepted) as Hm.
  destruct (published_branch types heap ns m deleted Hm root) as (keys & E & Hnd & Hkeys).
  change (storeCommittedOwnership types heap m deleted) with c in E.
  assert (branches c !! root = None) as Hb by apply lookup_empty.
  unfold committedOwnershipKeys at 1. rewrite Hb, E. cbn [mbind outcome_bind].
  set (out := if (1 <? length keys)%nat then SortFunc key_compare keys else keys).
  assert (out ≡ₚ keys /\ StronglySorted (fun a b => (key_compare a b < 0)%Z) out) as [Hp Hs].
  { unfold out. destruct (Nat.ltb_spec 1 (length keys)).
    - split; [apply SortFunc_perm|]. apply SortFunc_strict; [apply _| |done]. intros a b _ _. apply key_compare_eq.
    - split; [done|]. destruct keys as [|k [|]]; [constructor|repeat constructor|cbn in *; lia]. }
  eexists _, out. split; [reflexivity|]. split; [done|]. split; [intros x; by rewrite Hp|]. split.
  { unfold committedOwnershipKeys. cbn [branches]. by rewrite lookup_insert_eq. }
  intros x Hx. rewrite Hp, Hkeys in Hx. unfold committedOwnershipRoot. cbn [c_index c storeCommittedOwnership]. rewrite index_owners.
  set (own := filter (fun p => p.1 ∉ deleted /\ p.2 ∉ deleted) (owners m)).
  assert (forall a b, owner_edge own b a <-> owns m deleted a b) as Hown.
  { intros a b. unfold owner_edge, owns, own. rewrite map_lookup_filter_Some. naive_solver. }
  assert (forall y, ~ tc (owner_edge own) y y) as Hac.
  { intros y Hy. apply (owners_acyclic _ _ _ _ Hm y).
    assert (forall a b, tc (owner_edge own) a b -> tc (owner_edge (owners m)) a b) as Htc; [|by apply Htc].
    induction 1 as [a b Hab|a b e Hab _ IH]; [apply tc_once|eapply tc_l; [|exact IH]]; by apply Hown in Hab as [? _]. }
  destruct (climb_spec own x Hac) as [Hx1 Hx2], (climb_spec own root Hac) as [Hr1 Hr2].
  eapply top_unique; [exact Hx1|done| |done]. etrans; [|exact Hr1].
  clear -Hx Hown. induction Hx as [|a b e Hab _ IH]; [apply rtc_refl|]. eapply rtc_r; [exact IH|]. by apply Hown.
Qed.

Lemma branch_is_ownership_tree_witness :
  buildRelationModel graph_types graph_heap graph_nodes = Ok graph_model /\
  snd <$> committedOwnershipKeys (storeCommittedOwnership graph_types graph_heap graph_model ∅) (node "User" 1) =
    Ok [node "Post" 1; node "Post" 2; node "User" 1] /\
  let c := storeCommittedOwnership graph_types graph_heap graph_model ∅ in
  exists c' keys, committedOwnershipKeys c (node "User" 1) = Ok (c', keys) /\
    StronglySorted (fun a b => (key_compare a b < 0)%Z) keys /\
    (forall x, x ∈ keys <-> rtc (owns graph_model ∅) (node "User" 1) x) /\
    committedOwnershipKeys c' (node "User" 1) = Ok (c', keys) /\
    forall x, x ∈ keys -> committedOwnershipRoot c x = committedOwnershipRoot c (node "User" 1).
Proof.
  split; [exact graph_builds|]. split; [vm_compute; reflexivity|].
  exact (branch_is_ownership_tree graph_types graph_heap graph_nodes graph_model ∅ (node "User" 1) graph_builds).
Defined.
