(* ===== verification/Transaction.v ===== *)
(** * Transactions before they commit (src/engine.go)

    What a transaction collects: the resources it took copies of, the entities
    it creates and the rows it deletes; the engine's table from a copy to its
    transaction; and the lists a commit derives from them, of tables to lock, of
    rows to lock and of writes to log. *)
From S2P Require Import Prelude GoReflect RelationSchema SchemaRows RelationModel.

(** ** Data *)

(** [work] and [original] are pointers to detached copies. *)
Record touchedResource := { dbName : string; t_id : Z; ver : Z; t_work : loc; original : loc }.
#[export] Instance touchedResource_eq_dec : EqDecision touchedResource.
Proof. solve_decision. Defined.
Record stagedDelete := { sd_key : nodeKey; sd_ver : Z }.

(** A [transactionResourceKey], and a [transactionResourceLock]. *)
Notation resourceKey := (string * Z)%type (only parsing).
Definition resource_key (r : touchedResource) : resourceKey := (dbName r, t_id r).

(** [resource] is meaningful when [hasResource] is set; the nil
    [resourcePos] is [None]; nil [creates] and [deletes] are empty. *)
Record transactionState := {
  active : bool;
  resource : option touchedResource;
  resources : list touchedResource;
  resourcePos : option (gmap (string * Z) nat);
  bindings : list loc;
  creates : gmap nodeKey loc;
  deletes : gmap nodeKey stagedDelete;
}.

(** The engine, with the heap of [transactionState] objects it points into. *)
Record transactionEngine := { bind : gmap loc positive; states : gmap positive transactionState }.

Definition hasResource (tx : transactionState) : bool := match resource tx with Some _ => true | None => false end.
Definition resourceThreshold : nat := 8.

Definition with_creates (tx : transactionState) (c : gmap nodeKey loc) : transactionState :=
  {| active := active tx; resource := resource tx; resources := resources tx; resourcePos := resourcePos tx;
     bindings := bindings tx; creates := c; deletes := deletes tx |}.
Definition with_deletes (tx : transactionState) (d : gmap nodeKey stagedDelete) : transactionState :=
  {| active := active tx; resource := resource tx; resources := resources tx; resourcePos := resourcePos tx;
     bindings := bindings tx; creates := creates tx; deletes := d |}.

(** ** Collecting *)

Definition begun : transactionState :=
  {| active := true; resource := None; resources := []; resourcePos := None; bindings := []; creates := ∅; deletes := ∅ |}.
Definition begin (en : transactionEngine) : transactionEngine * positive :=
  let h := fresh (dom (states en)) in ({| bind := bind en; states := <[h := begun]> (states en) |}, h).

Definition copyResources (tx : transactionState) : list touchedResource :=
  match resource tx with None => [] | Some r => r :: resources tx end.

Definition created (tx : transactionState) (key : nodeKey) : option loc := creates tx !! key.

Definition stageCreate (tx : transactionState) (key : nodeKey) (work : loc) : outcome transactionState :=
  when negb (active tx) => Fail ErrExpiredSnapshot ;;
  when bool_decide (is_Some (creates tx !! key)) => Fail ErrAlreadyExists ;;
  Ok (with_creates tx (<[key := work]> (creates tx))).

Definition stageDelete (tx : transactionState) (deleted : stagedDelete) : outcome transactionState :=
  when negb (active tx) => Fail ErrExpiredSnapshot ;;
  Ok (with_deletes tx (<[sd_key deleted := deleted]> (deletes tx))).

(** The position index, built once the transaction holds enough resources. *)
Definition position_index (tx : transactionState) : gmap (string * Z) nat :=
  let pos := match resource tx with Some r => {[resource_key r := 0]} | None => ∅ end in
  foldl (fun pos p => <[resource_key p.2 := S p.1]> pos) pos (zip (seq 0 (length (resources tx))) (resources tx)).

Definition known (tx : transactionState) (key : resourceKey) : bool :=
  match resourcePos tx with
  | Some pos => bool_decide (is_Some (pos !! key))
  | None =>
      (match resource tx with Some r => bool_decide (resource_key r = key) | None => false end) ||
      existsb (fun existing => bool_decide (resource_key existing = key)) (resources tx)
  end.

Definition with_resources (tx : transactionState) (r : option touchedResource) (rs : list touchedResource)
    (pos : option (gmap (string * Z) nat)) : transactionState :=
  {| active := active tx; resource := r; resources := rs; resourcePos := pos;
     bindings := bindings tx; creates := creates tx; deletes := deletes tx |}.

(** The loop body of [recordBatch]. *)
Definition recordOne (tx : transactionState) (r : touchedResource) : transactionState :=
  let key := resource_key r in
  when known tx key => tx ;;
  match resource tx with
  | None => with_resources tx (Some r) (resources tx) ((fun pos => <[key := 0]> pos) <$> resourcePos tx)
  | Some first =>
      let rs := resources tx ++ [r] in
      with_resources tx (Some first) rs ((fun pos => <[key := length rs]> pos) <$> resourcePos tx)
  end.

Definition recordResources (tx : transactionState) (batch : list touchedResource) : transactionState :=
  let build := negb (length batch =? 0)%nat && (match resourcePos tx with None => true | Some _ => false end) &&
    (resourceThreshold <=? 1 + length (resources tx) + length batch)%nat in
  let tx := if build then with_resources tx (resource tx) (resources tx) (Some (position_index tx)) else tx in
  foldl recordOne tx batch.

(** [bindWork] is [None] for nil. *)
Definition recordBatch (en : transactionEngine) (h : positive) (batch : list touchedResource) (bindWork : option loc) :
    outcome transactionEngine :=
  match states en !! h with
  | None => Panic
  | Some tx =>
      let tx := recordResources tx batch in
      Ok match bindWork with
         | None => {| bind := bind en; states := <[h := tx]> (states en) |}
         | Some w =>
             {| bind := <[w := h]> (bind en);
                states := <[h := {| active := active tx; resource := resource tx; resources := resources tx;
                  resourcePos := resourcePos tx; bindings := bindings tx ++ [w]; creates := creates tx;
                  deletes := deletes tx |}]> (states en) |}
         end
  end.
Definition record (en : transactionEngine) (h : positive) (e : touchedResource) : outcome transactionEngine :=
  recordBatch en h [e] (Some (t_work e)).

(** [work]: the copy the transaction holds of a row. *)
Definition find_resource (l : list touchedResource) (key : resourceKey) : option touchedResource :=
  snd <$> list_find (fun existing => resource_key existing = key) l.
Definition work (tx : transactionState) (db : string) (id : Z) : outcome (option loc) :=
  let key := (db, id) in
  match resourcePos tx with
  | Some pos =>
      match pos !! key with
      | None => Ok None
      | Some 0 => Ok (t_work <$> resource tx)
      | Some (S position) =>
          match resources tx !! position with Some r => Ok (Some (t_work r)) | None => Panic end
      end
  | None =>
      match resource tx with
      | Some r => if bool_decide (resource_key r = key) then Ok (Some (t_work r))
                  else Ok (t_work <$> find_resource (resources tx) key)
      | None => Ok (t_work <$> find_resource (resources tx) key)
      end
  end.

Definition evict (en : transactionEngine) (h : positive) : transactionEngine :=
  match states en !! h with
  | None => en
  | Some tx =>
      {| bind := foldl (fun b w => delete w b) (bind en) (bindings tx);
         states := <[h := {| active := false; resource := None; resources := []; resourcePos := None; bindings := [];
                             creates := ∅; deletes := ∅ |}]> (states en) |}
  end.

Definition commitByPtr {A} (commit : positive -> outcome A) (en : transactionEngine) (w : loc) : outcome A :=
  match bind en !! w with None => Fail ErrExpiredSnapshot | Some h => commit h end.

(** ** What changed *)

(** [==] on float values of a kind: NaN differs from itself, zeros are equal. *)
Definition float_equal (k : basic) (a b : Z) : bool :=
  let a := float_bits k a in let b := float_bits k b in
  let nan x := ((fl_exp 52 11 x =? 2047) && negb (fl_mant 52 x =? 0))%Z in
  let zero x := (x mod 2 ^ 63 =? 0)%Z in
  negb (nan a) && negb (nan b) && ((a =? b)%Z || zero a && zero b).

Section entities.
Context (types : typeEnv) (GetId : goval -> Z) `{!MapOrder nodeKey} `{!MapOrder string}.
Implicit Types (heap : gmap loc goval).

(** [reflect.DeepEqual] on two values of one type. It follows pointers, and
    takes a pair of pointers it is already comparing for equal: [fuel] bounds
    the pairs, of which there are at most the square of the cells. Maps,
    channels and functions are compared as the opaque values they are here. *)
Fixpoint deep_equal (fuel : nat) heap (seen : gset (loc * loc)) : gotype -> goval -> goval -> bool :=
  fix go (t : gotype) (v w : goval) {struct t} : bool :=
    match t, v, w with
    | TBasic _ k, VFloat a, VFloat b => float_equal k a b
    | TSlice e, VSlice (Some l), VSlice (Some l') | TArray _ e, VArray l, VArray l' =>
        (length l =? length l')%nat && forallb (fun p => go e p.1 p.2) (zip l l')
    | TStruct _ fs, VStruct l, VStruct l' =>
        (fix fields fs l l' := match fs, l, l' with
           | (_, _, ft) :: fs, x :: l, y :: l' => go ft x y && fields fs l l'
           | [], [], [] => true
           | _, _, _ => false end) fs l l'
    | TPointer name, VPointer (Some a), VPointer (Some b) =>
        if bool_decide (a = b) || bool_decide ((a, b) ∈ seen) then true else
        match fuel, types !! name, heap !! a, heap !! b with
        | S fuel, Some d, Some x, Some y =>
            forallb (fun p => deep_equal fuel heap ({[(a, b)]} ∪ seen) p.1 p.2.1 p.2.2)
              (zip (ftype <$> fields d) (zip (struct_fields x) (struct_fields y)))
        | _, _, _, _ => false
        end
    | _, _, _ => bool_decide (v = w)
    end.
Definition DeepEqual heap : gotype -> goval -> goval -> bool := deep_equal (S (size heap * size heap)) heap ∅.

(** [relationFieldEqual]: [==] on scalars and pointers, else [DeepEqual]. *)
Definition relationFieldEqual heap (t : gotype) (left right : goval) : bool :=
  match t with
  | TBasic _ _ => DeepEqual heap t left right
  | TPointer _ => bool_decide (left = right)
  | _ => DeepEqual heap t left right
  end.

Definition relationValueEqual heap (left right : goval) (many : bool) : bool :=
  if negb many then bool_decide (valueID GetId heap left = valueID GetId heap right)
  else (length (slice_elems left) =? length (slice_elems right))%nat &&
    forallb (fun p => bool_decide (valueID GetId heap p.1 = valueID GetId heap p.2))
      (zip (slice_elems left) (slice_elems right)).

(** The field loop of [entityStateEqual]. *)
Fixpoint fields_equal heap (specs : gmap string relationSpec) (fs : list structField) (a b : list goval) : bool :=
  match fs, a, b with
  | [], _, _ => true
  | f :: fs, x :: a, y :: b =>
      (match specs !! fname f with
       | Some r => relationValueEqual heap (readable types r x) (readable types r y) (many r)
       | None => relationFieldEqual heap (ftype f) x y
       end) && fields_equal heap specs fs a b
  | _, _, _ => false
  end.

Definition entityStateEqual heap (t : string) (before after : loc) : bool :=
  match specsByField types t, types !! t, heap !! before, heap !! after with
  | Ok specs, Some d, Some a, Some b =>
      if bool_decide (specs = ∅) then
        forallb (fun p => DeepEqual heap p.1 p.2.1 p.2.2) (zip (ftype <$> fields d) (zip (struct_fields a) (struct_fields b)))
      else fields_equal heap specs (fields d) (struct_fields a) (struct_fields b)
  | _, _, _, _ => false
  end.

(** The outer loop finds the first unchanged resource; the inner one copies
    the changed ones behind it. *)
Fixpoint changed_from heap (before : list touchedResource) (rest : list touchedResource) : option (list touchedResource) :=
  match rest with
  | [] => None
  | r :: rest =>
      if negb (entityStateEqual heap (dbName r) (original r) (t_work r)) then changed_from heap (before ++ [r]) rest
      else Some (foldl (fun changed remaining =>
             if negb (entityStateEqual heap (dbName remaining) (original remaining) (t_work remaining))
             then changed ++ [remaining] else changed) before rest)
  end.
Definition changedResources heap (rs : list touchedResource) : list touchedResource :=
  default rs (changed_from heap [] rs).

(** ** Does a change touch the relation graph? *)

(** [opened] is what [baseRegistry] holds: the open types, by name. *)
Fixpoint any_relations (ts : list string) : outcome bool :=
  match ts with
  | [] => Ok false
  | t :: ts => specs ← relationSpecs types t; if (0 <? length specs)%nat then Ok true else any_relations ts
  end.
Definition registryHasRelations (opened : gset string) : outcome bool := any_relations (set_range opened).

(** The positions of the fields some relation looks a type up by. *)
Definition match_field (fields : gmap string (gset nat)) (t name : string) : outcome (gmap string (gset nat)) :=
  match types !! t ≫= fun d => FieldByName d name with
  | None => Fail ErrRelationSchema
  | Some (i, _) => Ok (<[t := {[i]} ∪ default ∅ (fields !! t)]> fields)
  end.
Definition registeredRelationMatchFields (opened : gset string) : outcome (gmap string (gset nat)) :=
  fold_outcome (fun fields t =>
      fields ← match_field fields t entityIDField;
      specs ← relationSpecs types t;
      fold_outcome (fun fields r => match_field fields (target r) (matchField r)) fields specs)
    ∅ (SortFunc string_compare (set_range opened)).

(** [None] continues with the next resource. *)
Definition resource_changes_graph heap (opened : gset string) (hasRelations : bool) (r : touchedResource) : outcome bool :=
  match heap !! original r, heap !! t_work r with
  | Some before, Some after =>
      when negb (GetId before =? GetId after)%Z => Fail ErrRelationInvariant ;;
      when negb hasRelations => Ok false ;;
      specs ← relationSpecs types (dbName r);
      let same i (eq : goval -> goval -> bool) :=
        match struct_fields before !! i, struct_fields after !! i with Some a, Some b => eq a b | _, _ => false end in
      when existsb (fun spec => negb (same (fieldIndex spec) (fun a b => relationValueEqual heap (readable types spec a) (readable types spec b) (many spec)))) specs => Ok true ;;
      matchFields ← registeredRelationMatchFields opened;
      Ok (existsb (fun i => negb (same i (fun a b =>
            match types !! dbName r ≫= fun d => fields d !! i with Some f => relationFieldEqual heap (ftype f) a b | None => false end)))
          (elements (default ∅ (matchFields !! dbName r))))
  | _, _ => Panic
  end.

Fixpoint resources_change_graph heap (opened : gset string) (hasRelations : bool) (rs : list touchedResource) : outcome bool :=
  match rs with
  | [] => Ok false
  | r :: rs =>
      changed ← resource_changes_graph heap opened hasRelations r;
      if (changed : bool) then Ok true else resources_change_graph heap opened hasRelations rs
  end.
Definition resourcesChangeRelationGraph heap (opened : gset string) (rs : list touchedResource) : outcome bool :=
  hasRelations ← registryHasRelations opened;
  resources_change_graph heap opened hasRelations rs.

(** [relationParticipants]: the types that declare a relation or are the
    target of one. *)
Definition registerRelationParticipants (participants : gset string) (holder : string) (specs : list relationSpec) : gset string :=
  if (length specs =? 0)%nat then participants
  else foldl (fun ps spec => {[target spec]} ∪ ps) ({[holder]} ∪ participants) specs.
Definition relationGraphParticipant (participants : gset string) (t : string) : bool := bool_decide (t ∈ participants).

Inductive graphAccess := graphAccessNone | graphAccessRead | graphAccessWrite.

Definition transactionGraphAccess (participants : gset string) (rs : list touchedResource)
    (cs : gmap nodeKey loc) (ds : gmap nodeKey stagedDelete) (relationChanged : bool) : graphAccess :=
  when relationChanged => graphAccessWrite ;;
  when existsb (fun p => relationGraphParticipant participants (key_typ p.1)) (map_range cs) => graphAccessWrite ;;
  when existsb (fun p => relationGraphParticipant participants (key_typ p.1)) (map_range ds) => graphAccessWrite ;;
  when existsb (fun r => relationGraphParticipant participants (dbName r)) rs => graphAccessRead ;;
  graphAccessNone.

(** ** What a commit locks *)

Definition lock_compare : string * Z -> string * Z -> Z :=
  lex_cmp (fun a b => string_compare a.1 b.1) (fun a b => cmp_compare a.2 b.2).

Definition transactionStructuralDBNames (hasSecondaryIndexes : string -> bool) (rs : list touchedResource)
    (cs : gmap nodeKey loc) (ds : gmap nodeKey stagedDelete) : list string :=
  let names : gset string := foldl (fun names r => if hasSecondaryIndexes (dbName r) then {[dbName r]} ∪ names else names) ∅ rs in
  let names := foldl (fun (names : gset string) p => {[key_typ p.1]} ∪ names) names (map_range cs) in
  let names := foldl (fun (names : gset string) p => {[key_typ p.1]} ∪ names) names (map_range ds) in
  SortFunc string_compare (set_range names).

Definition transactionResourceLocks (rs : list touchedResource) (cs : gmap nodeKey loc) (ds : gmap nodeKey stagedDelete) :
    list (string * Z) :=
  let st := foldl (fun (st : list (string * Z) * gset (string * Z)) r =>
      (st.1 ++ [resource_key r], {[resource_key r]} ∪ st.2)) ([], ∅) rs in
  let st := foldl (fun (st : list (string * Z) * gset (string * Z)) p =>
      if bool_decide (is_Some (cs !! p.1)) then st else
      let key := (key_typ p.1, key_id p.1) in
      if bool_decide (key ∈ st.2) then st else (st.1 ++ [key], {[key]} ∪ st.2)) st (map_range ds) in
  SortFunc lock_compare st.1.

(** ** What a commit writes *)

(** A write carries the pointer to the copy; [None] marks a delete. *)
Definition add_change (byDBName : gmap string (list (Z * option loc))) (db : string) (w : Z * option loc) :=
  <[db := default [] (byDBName !! db) ++ [w]]> byDBName.

Definition transactionChanges (rs : list touchedResource) (cs : gmap nodeKey loc) (ds : gset nodeKey) :
    gmap string (list (Z * option loc)) :=
  let out := foldl (fun out r =>
      if bool_decide ({| key_typ := dbName r; key_id := t_id r |} ∈ ds) then out
      else add_change out (dbName r) (t_id r, Some (t_work r))) ∅ rs in
  let out := foldl (fun out p =>
      if bool_decide (p.1 ∈ ds) then out else add_change out (key_typ p.1) (key_id p.1, Some p.2)) out (map_range cs) in
  foldl (fun out key =>
      if bool_decide (is_Some (cs !! key)) then out else add_change out (key_typ key) (key_id key, None)) out (set_range ds).
End entities.

(** ** Specification *)

(** The first copy recorded of each row, in order. *)
Definition first_copies (l batch : list touchedResource) : list touchedResource :=
  foldl (fun l r => if bool_decide (resource_key r ∈ resource_key <$> l) then l else l ++ [r]) l batch.

(** The position index, when there is one, is the inverse of the list. *)
Record collected (tx : transactionState) : Prop := {
  distinct : NoDup (resource_key <$> copyResources tx);
  none_empty : resource tx = None -> resources tx = [];
  positions : forall pos, resourcePos tx = Some pos ->
    forall key n, pos !! key = Some n <-> (resource_key <$> copyResources tx) !! n = Some key;
}.

(** * Lemmas *)

Lemma copyResources_lookup tx n key : (resource_key <$> copyResources tx) !! n = Some key <->
  exists r, copyResources tx !! n = Some r /\ resource_key r = key.
Proof. rewrite list_lookup_fmap, fmap_Some. naive_solver. Qed.

Lemma known_spec tx key : collected tx -> known tx key = bool_decide (key ∈ resource_key <$> copyResources tx).
Proof.
  intros [Hd Hn Hp]. unfold known. destruct (resourcePos tx) as [pos|].
  - apply bool_decide_ext. rewrite list_elem_of_lookup. split.
    + intros [n Hk]. exists n. by apply (Hp pos).
    + intros [n Hk]. exists n. by apply (Hp pos).
  - unfold copyResources. destruct (resource tx) as [r|]; [|by rewrite Hn].
    cbn. symmetry. destruct (decide (resource_key r = key)) as [->|Hne].
    + rewrite !bool_decide_true by (done || left). done.
    + rewrite (bool_decide_false (resource_key r = key)) by done. cbn.
      destruct (existsb _ _) eqn:E.
      * apply bool_decide_eq_true. right. apply existsb_exists in E as (x & Hx & Hk%bool_decide_eq_true).
        rewrite <- Hk. by apply list_elem_of_fmap_2, list_elem_of_In.
      * apply bool_decide_eq_false. intros [?|Hin]%elem_of_cons; [done|].
        apply list_elem_of_fmap in Hin as (x & -> & Hx). assert (existsb (fun e => bool_decide (resource_key e = resource_key x)) (resources tx) = true); [|congruence].
        apply existsb_exists. exists x. split; [by apply list_elem_of_In|by apply bool_decide_eq_true].
Qed.

Lemma recordOne_spec tx r : collected tx ->
  collected (recordOne tx r) /\ copyResources (recordOne tx r) = first_copies (copyResources tx) [r].
Proof.
  intros Hc. unfold recordOne, first_copies. cbn [foldl]. rewrite known_spec by done.
  case_bool_decide as Hin; [done|]. destruct Hc as [Hd Hn Hp].
  assert (NoDup (resource_key <$> (copyResources tx ++ [r]))) as Hd'.
  { rewrite fmap_app. apply NoDup_app. split_and!; [done| |apply NoDup_singleton].
    intros k Hk ->%list_elem_of_singleton. done. }
  assert (forall n key (pos : gmap (string * Z) nat), (forall key n, pos !! key = Some n <-> (resource_key <$> copyResources tx) !! n = Some key) ->
    <[resource_key r := length (copyResources tx)]> pos !! key = Some n <->
    (resource_key <$> (copyResources tx ++ [r])) !! n = Some key) as Hpos.
  { intros n key pos H. rewrite lookup_insert_Some, H, fmap_app, lookup_app_Some, length_fmap.
    change (resource_key <$> [r]) with [resource_key r]. rewrite list_lookup_singleton_Some.
    split.
    - intros [[<- <-]|[Hne Hk]]; [right; split; [done|]; split; [lia|done]|by left].
    - intros [Hk|(Hl & Hz & <-)]; [right|left; split; [done|lia]]. split; [|done].
      intros <-. apply Hin. by apply list_elem_of_lookup_2 in Hk. }
  unfold copyResources in *. destruct (resource tx) as [first|] eqn:E; cbn in *.
  - split; [|done]. split; cbn; [done|done|]. intros pos. rewrite fmap_Some. intros (p & Ep & ->) key n.
    rewrite length_app, Nat.add_1_r. apply Hpos. by apply Hp.
  - rewrite (Hn eq_refl) in *. split; [|done]. split; cbn; [done|done|].
    intros pos. rewrite fmap_Some. intros (p & Ep & ->) key n. apply Hpos. by apply Hp.
Qed.

Lemma position_index_spec tx : collected tx -> forall key n,
  position_index tx !! key = Some n <-> (resource_key <$> copyResources tx) !! n = Some key.
Proof.
  intros [Hd Hn _] key n. unfold position_index, copyResources in *. destruct (resource tx) as [r|]; [|by rewrite Hn].
  cbn in Hd. apply NoDup_cons in Hd as [Hr Hd]. clear Hn. revert n.
  assert (forall l, NoDup (resource_key <$> l) -> resource_key r ∉ resource_key <$> l -> forall n,
    foldl (fun (pos : gmap (string * Z) nat) p => <[resource_key p.2 := S p.1]> pos) {[resource_key r := 0]}
      (zip (seq 0 (length l)) l) !! key = Some n <-> (resource_key r :: (resource_key <$> l)) !! n = Some key) as H.
  { clear. induction l as [|x l IH] using rev_ind; intros Hd Hr n.
    - change (({[resource_key r := 0]} : gmap (string * Z) nat) !! key = Some n <-> [resource_key r] !! n = Some key).
      rewrite lookup_singleton_Some, list_lookup_singleton_Some. naive_solver.
    - rewrite fmap_app in Hd, Hr. apply NoDup_app in Hd as (Hd & Hx & _). rewrite elem_of_app in Hr.
      rewrite length_app. cbn [length]. rewrite seq_app, zip_with_app by (by rewrite length_seq). cbn.
      rewrite foldl_snoc. cbn. rewrite lookup_insert_Some, IH by tauto.
      change (resource_key r :: (resource_key <$> l ++ [x])) with ((resource_key <$> (r :: l ++ [x]))).
      change (resource_key r :: (resource_key <$> l)) with (resource_key <$> (r :: l)).
      change (r :: l ++ [x]) with ((r :: l) ++ [x]). rewrite (fmap_app _ (r :: l)), lookup_app_Some, length_fmap.
      change (resource_key <$> [x]) with [resource_key x] in *. cbn [length]. rewrite list_lookup_singleton_Some. split.
      + intros [[<- <-]|[_ Hk]]; [right; split; [lia|]; split; [lia|done]|by left].
      + intros [Hk|(Hl & Hz & <-)]; [right|left; split; [done|lia]]. split; [|done].
        intros <-. apply list_elem_of_lookup_2, elem_of_cons in Hk as [Hk|Hk]; [apply Hr; right; apply list_elem_of_singleton; done|].
        by apply (Hx _ Hk), list_elem_of_singleton. }
  by apply H.
Qed.

Lemma recordResources_spec tx batch : collected tx ->
  collected (recordResources tx batch) /\ copyResources (recordResources tx batch) = first_copies (copyResources tx) batch.
Proof.
  intros Hc. unfold recordResources.
  match goal with |- context [foldl recordOne ?x batch] => set (tx' := x) end.
  assert (collected tx' /\ copyResources tx' = copyResources tx) as [Hc' <-].
  { unfold tx'. destruct (_ && _); [|done]. split; [|done]. pose proof (position_index_spec tx Hc) as Hp.
    destruct Hc as [Hd Hn _]. split; [done|done|]. cbn. intros pos [= <-]. exact Hp. }
  clearbody tx'. revert tx' Hc'. induction batch as [|r batch IH]; intros tx' Hc'; [done|].
  destruct (recordOne_spec tx' r Hc') as [H1 H2]. cbn [foldl]. destruct (IH _ H1) as [H3 ->]. split; [done|].
  rewrite H2. done.
Qed.

Lemma begun_collected : collected begun.
Proof. split; cbn; [constructor|done|done]. Qed.

Lemma find_resource_Some l key r : find_resource l key = Some r <->
  exists n, l !! n = Some r /\ resource_key r = key /\ forall j y, l !! j = Some y -> j < n -> resource_key y <> key.
Proof.
  unfold find_resource. rewrite fmap_Some. split.
  - intros ([n r'] & H & ->). apply list_find_Some in H. cbn. naive_solver.
  - intros (n & H1 & H2 & H3). exists (n, r). split; [|done]. apply list_find_Some. naive_solver.
Qed.

Lemma find_resource_cons x l key :
  find_resource (x :: l) key = if decide (resource_key x = key) then Some x else find_resource l key.
Proof.
  unfold find_resource. cbn. destruct (decide (resource_key x = key)); [done|].
  by destruct (list_find _ l) as [[? ?]|].
Qed.

Lemma find_resource_app l1 l2 key : find_resource (l1 ++ l2) key =
  match find_resource l1 key with Some r => Some r | None => find_resource l2 key end.
Proof.
  induction l1 as [|x l1 IH]; [done|]. cbn [app]. rewrite !find_resource_cons, IH. by destruct (decide _).
Qed.

Lemma find_resource_None l key : find_resource l key = None <-> key ∉ resource_key <$> l.
Proof.
  unfold find_resource. rewrite fmap_None, list_find_None, Forall_forall, list_elem_of_fmap. naive_solver.
Qed.

(** Dropping later copies does not change which copy comes first. *)
Lemma find_first_copies l batch key : find_resource (first_copies l batch) key = find_resource (l ++ batch) key.
Proof.
  revert l. induction batch as [|r batch IH]; intros l; [by rewrite app_nil_r|].
  change (first_copies l (r :: batch)) with (first_copies (first_copies l [r]) batch). rewrite IH.
  unfold first_copies. cbn [foldl]. case_bool_decide as Hin; [|by rewrite <- app_assoc].
  rewrite !find_resource_app. destruct (find_resource l key) as [x|] eqn:E; [done|].
  change (r :: batch) with ([r] ++ batch). rewrite find_resource_app.
  assert (find_resource [r] key = None) as ->; [|done]. apply find_resource_None. apply find_resource_None in E.
  cbn. rewrite list_elem_of_singleton. intros ->. done.
Qed.

Lemma work_spec tx db id : collected tx -> work tx db id = Ok (t_work <$> find_resource (copyResources tx) (db, id)).
Proof.
  intros [Hd Hn Hp]. unfold work. destruct (resourcePos tx) as [pos|].
  - specialize (Hp pos eq_refl). destruct (pos !! (db, id)) as [n|] eqn:E.
    + apply Hp, copyResources_lookup in E as (r & Hr & Hk).
      assert (find_resource (copyResources tx) (db, id) = Some r) as ->.
      { apply find_resource_Some. exists n. split_and!; [done..|]. intros j y Hy Hj Hk'.
        assert (j = n); [|lia]. eapply NoDup_lookup; [exact Hd| |]; apply copyResources_lookup; eauto. }
      unfold copyResources in Hr. destruct (resource tx) as [r0|]; [|by rewrite lookup_nil in Hr].
      destruct n as [|n]; [by injection Hr as ->|]. change (resources tx !! n = Some r) in Hr. by rewrite Hr.
    + assert (find_resource (copyResources tx) (db, id) = None) as ->; [|done].
      apply find_resource_None. intros [n Hk]%list_elem_of_lookup. apply Hp in Hk. congruence.
  - unfold copyResources. destruct (resource tx) as [r|]; [|by rewrite Hn].
    rewrite find_resource_cons. destruct (decide (resource_key r = (db, id))) as [Hk|Hk].
    + by rewrite bool_decide_true.
    + by rewrite bool_decide_false.
Qed.

Lemma collected_all batches tx : collected tx ->
  collected (foldl recordResources tx batches) /\
  copyResources (foldl recordResources tx batches) = first_copies (copyResources tx) (concat batches).
Proof.
  revert tx. induction batches as [|b batches IH]; intros tx Hc; [done|]. cbn [foldl concat].
  destruct (recordResources_spec tx b Hc) as [H1 H2]. destruct (IH _ H1) as [H3 ->]. split; [done|].
  rewrite H2. unfold first_copies. by rewrite foldl_app.
Qed.

(** * Properties *)

(** C20: whatever batches a transaction records, and whether or not it built
    the position index on the way, a lookup returns the first copy recorded of
    the row, the copies to commit are one per row in the order they were first
    recorded, and no lookup runs past the list. *)
Theorem repeated_reads_return_first_copy (batches : list (list touchedResource)) db id :
  let tx := foldl recordResources begun batches in
  work tx db id = Ok (t_work <$> find_resource (concat batches) (db, id)) /\
  copyResources tx = first_copies [] (concat batches) /\
  NoDup (resource_key <$> copyResources tx).
Proof.
  intros tx. destruct (collected_all batches begun begun_collected) as [Hc He]. fold tx in Hc, He.
  cbn in He. split_and!; [|done|apply Hc]. rewrite work_spec, He, find_first_copies by done. done.
Qed.
