(* ===== verification/Locks.v ===== *)
(** * Locking (src/branchlock.go, src/engine.go, src/relation_runtime.go,
      src/view.go, src/snapshot.go, src/tower.go, src/query.go, src/tracked.go)

    The locks an operation takes, as a program of lock steps, and the steps a
    set of goroutines running such programs can make. Every operation takes its
    locks in one global order (the graph lock, the structure locks of tables by
    name, the branch locks by owner, the row locks by table and id; before all of
    them an update takes the mutex of its row, the Tower the mutex of a tree and
    the one of the rebuild), so any set of operations runs to completion as long
    as none deletes a row and none locks a row that another one creates. Both
    conditions are needed: [unlockResource] looks the row up again, so a commit
    that deletes a row it holds locked never unlocks it, and an operation that
    asked for a row before it was there gives back a lock it never took, which
    ends the process. *)
From S2P Require Import Prelude GoReflect RelationSchema SchemaRows RelationModel CommittedGraph Transaction.

(** ** Locks and their order *)

Inductive mode := Read | Write.
Inductive lockName :=
  | UpdateLock (db : string) (id : Z) (* resourceSlot.updateMu, a mutex: only written *)
  | TowerLock (owner : nodeKey)       (* towerWriteLocks, mutexes *)
  | RebuildLock                       (* Tower.rebuildMu, a mutex *)
  | GraphLock                     (* graphMu *)
  | StructureLock (db : string)   (* DB.structureMu *)
  | BranchLock (root : nodeKey)   (* branchLocks *)
  | RowLock (db : string) (id : Z). (* resourceSlot.mu *)
#[export] Instance mode_eq_dec : EqDecision mode.
Proof. solve_decision. Defined.
#[export] Instance lockName_eq_dec : EqDecision lockName.
Proof. solve_decision. Defined.

Definition lock_class (l : lockName) : Z :=
  match l with
  | UpdateLock _ _ => -3 | TowerLock _ => -2 | RebuildLock => -1
  | GraphLock => 0 | StructureLock _ => 1 | BranchLock _ => 2 | RowLock _ _ => 3
  end.
Definition lock_name (l : lockName) : string :=
  match l with
  | RebuildLock | GraphLock => ""
  | TowerLock root | BranchLock root => key_typ root
  | StructureLock db | UpdateLock db _ | RowLock db _ => db
  end.
Definition lock_id (l : lockName) : Z :=
  match l with
  | RebuildLock | GraphLock | StructureLock _ => 0
  | TowerLock root | BranchLock root => key_id root
  | UpdateLock _ id | RowLock _ id => id
  end.
Definition lock_order : lockName -> lockName -> Z :=
  lex_cmp (fun a b => cmp_compare (lock_class a) (lock_class b))
    (lex_cmp (fun a b => string_compare (lock_name a) (lock_name b)) (fun a b => cmp_compare (lock_id a) (lock_id b))).

(** ** Programs *)

(** [Unlock true] finds the row by its id again, as [unlockResource] does;
    [Unlock false] unlocks the slot the operation kept. *)
Inductive action :=
  | Lock (m : mode) (l : lockName)
  | Unlock (by_id : bool) (l : lockName)
  | CreateRow (db : string) (id : Z)
  | DeleteRow (db : string) (id : Z).

(** Locks in order, the body, and the deferred unlocks in reverse. *)
Definition bracket (by_id : bool) (locks : list (mode * lockName)) (body : list action) : list action :=
  ((fun p => Lock p.1 p.2) <$> locks) ++ body ++ ((fun p => Unlock by_id p.2) <$> reverse locks).

Definition row_lock (p : string * Z) : lockName := RowLock p.1 p.2.

(** [lockTouchedBranches]: the distinct roots in order. [branchRoot] is
    [committedBranchRoot]; a table that is not open has none. *)
Definition touched_roots (branchRoot : string -> Z -> option nodeKey) (locks : list (string * Z)) : list nodeKey :=
  SortFunc key_compare (foldl (fun roots p =>
    match branchRoot p.1 p.2 with
    | None => roots
    | Some root => if bool_decide (root ∈ roots) then roots else roots ++ [root]
    end) [] locks).

Definition graph_locks (access : graphAccess) : list (mode * lockName) :=
  match access with
  | graphAccessNone => []
  | graphAccessRead => [(Read, GraphLock)]
  | graphAccessWrite => [(Write, GraphLock)]
  end.

Section programs.
Context `{!MapOrder nodeKey} `{!MapOrder string}.
Context (branchRoot : string -> Z -> option nodeKey) (hasSecondaryIndexes : string -> bool).

(** [committedBranchRoot]. *)
Definition committedBranchRoot (c : committedOwnership) (opened : gset string) (db : string) (id : Z) : option nodeKey :=
  if bool_decide (db ∈ opened) then Some (committedOwnershipRoot c {| key_typ := db; key_id := id |}) else None.

(** [snapshotTouchedResource], for the back references a commit has to write. *)
Definition snapshot_program (key : nodeKey) : list action := bracket true [(Write, RowLock (key_typ key) (key_id key))] [].

(** [commit]: under the graph lock it copies the [snapshots], then takes the
    structure, branch and row locks; rows are created and deleted while all of
    them are held. *)
Definition commit_locks (rs : list touchedResource) (cs : gmap nodeKey loc)
    (ds : gmap nodeKey stagedDelete) : list (mode * lockName) :=
  let rows := transactionResourceLocks rs cs ds in
  ((fun db => (Write, StructureLock db)) <$> transactionStructuralDBNames hasSecondaryIndexes rs cs ds) ++
  ((fun root => (Write, BranchLock root)) <$> touched_roots branchRoot rows) ++ ((fun p => (Write, row_lock p)) <$> rows).
Definition commit_program (access : graphAccess) (snapshots : list nodeKey) (rs : list touchedResource) (cs : gmap nodeKey loc)
    (ds : gmap nodeKey stagedDelete) (deleted : list nodeKey) : list action :=
  bracket true (graph_locks access) (mjoin (snapshot_program <$> snapshots) ++
    bracket true (commit_locks rs cs ds)
      (((fun p => CreateRow (key_typ p.1) (key_id p.1)) <$> map_range cs) ++ ((fun k => DeleteRow (key_typ k) (key_id k)) <$> deleted))).

(** [commitSingleWrite], under the graph lock [commit] took. *)
Definition commitSingleWrite_program (access : graphAccess) (r : touchedResource) : list action :=
  bracket true (graph_locks access ++
    ((fun root => (Write, BranchLock root)) <$> touched_roots branchRoot [resource_key r]) ++ [(Write, row_lock (resource_key r))]) [].

(** [cloneOwnershipAggregate] and [cloneSingleOwnershipResource]: [keys] is
    the branch in [committedOwnershipKeys] order. *)
Definition clone_program (keys : list nodeKey) : list action :=
  bracket true ((Read, GraphLock) :: ((fun k => (Write, RowLock (key_typ k) (key_id k))) <$> keys)) [].

(** [View] of a type outside the relation graph, [getDetachedRoot] without it
    and [Tx.Delete]; and the same under the graph lock. *)
Definition row_read_program (participant : bool) (db : string) (id : Z) : list action :=
  bracket false ((if participant then [(Read, GraphLock)] else []) ++ [(Read, RowLock db id)]) [].
(** [View] of a graph participant. *)
Definition branch_read_program (root : nodeKey) : list action :=
  bracket false [(Read, GraphLock); (Read, BranchLock root)] [].
(** [ViewMany] and [viewRange]: the ids sorted and compacted. *)
Definition viewMany_program (participant : bool) (db : string) (ids : list Z) : list action :=
  let ordered := SortFunc cmp_compare (remove_dups ids) in
  bracket false ((if participant then [(Read, GraphLock)] else []) ++ (Read, StructureLock db) ::
    ((fun id => (Read, RowLock db id)) <$> ordered)) [].
(** [flushRelations] holds the graph lock alone. *)
Definition flush_program : list action := bracket false [(Write, GraphLock)] [].

(** [towerAttempt] with [commitTowerScalarChanges]: the graph lock shared, then
    the locks of the rows. *)
Definition towerAttempt_program (rs : list touchedResource) : list action :=
  bracket true [(Read, GraphLock)] (bracket true (commit_locks rs ∅ ∅) []).
(** [rebuild]: a writer that waited may find the work done. *)
Definition rebuild_program (build : bool) : list action :=
  bracket false [(Write, RebuildLock)] (if build then bracket false [(Write, GraphLock)] [] else []).

(** What [towerRun] does while it holds the mutex of a tree. *)
Inductive towerStep :=
  | TowerRebuild (build : bool)
  | TowerAttempt (rs : list touchedResource)
  | TowerCommit (access : graphAccess) (snapshots : list nodeKey) (rs : list touchedResource)
  | TowerSingleWrite (access : graphAccess) (r : touchedResource).
Definition towerStep_program (s : towerStep) : list action :=
  match s with
  | TowerRebuild build => rebuild_program build
  | TowerAttempt rs => towerAttempt_program rs
  | TowerCommit access snapshots rs => commit_program access snapshots rs ∅ ∅ []
  | TowerSingleWrite access r => commitSingleWrite_program access r
  end.
(** The loop of [towerRun]: the owners it found, each with the steps it took
    before the owner changed; the old mutex is given back before the next is
    taken. *)
Definition towerRun_program (visits : list (nodeKey * list towerStep)) : list action :=
  mjoin ((fun v => bracket false [(Write, TowerLock v.1)] (mjoin (towerStep_program <$> v.2))) <$> visits).

(** What an update does under the mutex of its row: an attempt through the
    Tower, or a transaction, which clones the branch and commits. *)
Inductive updateStep :=
  | UpdateTower (visits : list (nodeKey * list towerStep))
  | UpdateClone (keys : list nodeKey)
  | UpdateCommit (s : towerStep).
Definition updateStep_program (s : updateStep) : list action :=
  match s with
  | UpdateTower visits => towerRun_program visits
  | UpdateClone keys => clone_program keys
  | UpdateCommit s => towerStep_program s
  end.
(** [DB.UpdateWithin] and [TrackedDB.UpdateWithin] keep the slot they found. *)
Definition updateWithin_program (db : string) (id : Z) (steps : list updateStep) : list action :=
  bracket false [(Write, UpdateLock db id)] (mjoin (updateStep_program <$> steps)).

(** What a goroutine may run. A commit here deletes nothing. *)
Inductive operation :=
  | Commit (access : graphAccess) (snapshots : list nodeKey) (rs : list touchedResource) (cs : gmap nodeKey loc)
  | SingleWrite (access : graphAccess) (r : touchedResource)
  | Clone (keys : list nodeKey)
  | RowRead (participant : bool) (db : string) (id : Z)
  | BranchRead (root : nodeKey)
  | ViewMany (participant : bool) (db : string) (ids : list Z)
  | Flush
  | UpdateWithin (db : string) (id : Z) (steps : list updateStep).
Definition op_program (o : operation) : list action :=
  match o with
  | Commit access snapshots rs cs => commit_program access snapshots rs cs ∅ []
  | SingleWrite access r => commitSingleWrite_program access r
  | Clone keys => clone_program keys
  | RowRead participant db id => row_read_program participant db id
  | BranchRead root => branch_read_program root
  | ViewMany participant db ids => viewMany_program participant db ids
  | Flush => flush_program
  | UpdateWithin db id steps => updateWithin_program db id steps
  end.
End programs.

(** ** Goroutines *)

Record thread := { todo : list action; held : list (lockName * mode); waiting : bool }.
(** [crashed]: the runtime has ended the process. *)
Record system := { live : gset (string * Z); threads : list thread; crashed : bool }.

Definition found (rows : gset (string * Z)) (l : lockName) : bool :=
  match l with RowLock db id => bool_decide ((db, id) ∈ rows) | _ => true end.
Definition release (l : lockName) (h : list (lockName * mode)) : list (lockName * mode) := filter (fun p => p.1 <> l) h.

(** Whether another goroutine keeps [Lock m l] waiting: a writer waits for
    every holder, a reader for a writer that holds the lock or waits for it. *)
Definition blocks (m : mode) (l : lockName) (other : thread) : bool :=
  match m with
  | Write => bool_decide (l ∈ (held other).*1)
  | Read => bool_decide ((l, Write) ∈ held other) ||
      match todo other with Lock Write l' :: _ => waiting other && bool_decide (l' = l) | _ => false end
  end.
Definition compatible (ts : list thread) (i : nat) (m : mode) (l : lockName) : bool :=
  forallb (fun p => (p.1 =? i)%nat || negb (blocks m l p.2)) (zip (seq 0 (length ts)) ts).

Definition set_thread (s : system) (i : nat) (t : thread) : system := {| live := live s; threads := <[i := t]> (threads s); crashed := crashed s |}.
Definition set_live (s : system) (rows : gset (string * Z)) (i : nat) (t : thread) : system :=
  {| live := rows; threads := <[i := t]> (threads s); crashed := crashed s |}.
Definition crash (s : system) : system := {| live := live s; threads := []; crashed := true |}.
(** A mutex has no owner: [Unlock] gives back what any goroutine holds. *)
Definition writer (s : system) (l : lockName) : option (nat * thread) := list_find (fun t => (l, Write) ∈ held t) (threads s).
Definition released (l : lockName) (t : thread) : thread := {| todo := todo t; held := release l (held t); waiting := waiting t |}.

Inductive step (s : system) : system -> Prop :=
  | step_missing_row i m l p h : (* the row is not there: no lock is taken *)
      threads s !! i = Some {| todo := Lock m l :: p; held := h; waiting := false |} -> found (live s) l = false ->
      step s (set_thread s i {| todo := p; held := h; waiting := false |})
  | step_request i m l p h : (* the lock is looked up and asked for *)
      threads s !! i = Some {| todo := Lock m l :: p; held := h; waiting := false |} -> found (live s) l = true ->
      step s (set_thread s i {| todo := Lock m l :: p; held := h; waiting := true |})
  | step_acquire i m l p h :
      threads s !! i = Some {| todo := Lock m l :: p; held := h; waiting := true |} -> compatible (threads s) i m l = true ->
      step s (set_thread s i {| todo := p; held := (l, m) :: h; waiting := false |})
  | step_unlock i by_id l p h :
      threads s !! i = Some {| todo := Unlock by_id l :: p; held := h; waiting := false |} ->
      by_id = false \/ found (live s) l = true -> l ∈ h.*1 ->
      step s (set_thread s i {| todo := p; held := release l h; waiting := false |})
  | step_unlock_none i l p h : (* an operation that found no slot returned before *)
      threads s !! i = Some {| todo := Unlock false l :: p; held := h; waiting := false |} -> l ∉ h.*1 ->
      step s (set_thread s i {| todo := p; held := h; waiting := false |})
  | step_unlock_other i j t l p h : (* [unlockResource] of a row locked by another goroutine since *)
      threads s !! i = Some {| todo := Unlock true l :: p; held := h; waiting := false |} -> found (live s) l = true -> l ∉ h.*1 ->
      writer s l = Some (j, t) ->
      step s (set_thread (set_thread s j (released l t)) i {| todo := p; held := h; waiting := false |})
  | step_unlock_fatal i l p h : (* of a row that nobody has locked *)
      threads s !! i = Some {| todo := Unlock true l :: p; held := h; waiting := false |} -> found (live s) l = true -> l ∉ h.*1 ->
      writer s l = None -> step s (crash s)
  | step_unlock_lost i l p h : (* [unlockResource] of a row that is gone *)
      threads s !! i = Some {| todo := Unlock true l :: p; held := h; waiting := false |} -> found (live s) l = false ->
      step s (set_thread s i {| todo := p; held := h; waiting := false |})
  | step_create i db id p h :
      threads s !! i = Some {| todo := CreateRow db id :: p; held := h; waiting := false |} ->
      step s (set_live s ({[(db, id)]} ∪ live s) i {| todo := p; held := h; waiting := false |})
  | step_delete i db id p h :
      threads s !! i = Some {| todo := DeleteRow db id :: p; held := h; waiting := false |} ->
      step s (set_live s (live s ∖ {[(db, id)]}) i {| todo := p; held := h; waiting := false |}).

(** The step of one goroutine, and a schedule. *)
Definition thread_step (s : system) (i : nat) : option system :=
  t ← threads s !! i;
  match todo t with
  | [] => None
  | Lock m l :: p =>
      if waiting t then if compatible (threads s) i m l then Some (set_thread s i {| todo := p; held := (l, m) :: held t; waiting := false |}) else None
      else if found (live s) l then Some (set_thread s i {| todo := todo t; held := held t; waiting := true |})
      else Some (set_thread s i {| todo := p; held := held t; waiting := false |})
  | Unlock by_id l :: p =>
      if waiting t then None
      else if by_id && negb (found (live s) l) then Some (set_thread s i {| todo := p; held := held t; waiting := false |})
      else if bool_decide (l ∈ (held t).*1) then Some (set_thread s i {| todo := p; held := release l (held t); waiting := false |})
      else if negb by_id then Some (set_thread s i {| todo := p; held := held t; waiting := false |})
      else match writer s l with
           | Some (j, u) => Some (set_thread (set_thread s j (released l u)) i {| todo := p; held := held t; waiting := false |})
           | None => Some (crash s)
           end
  | CreateRow db id :: p =>
      if waiting t then None else Some (set_live s ({[(db, id)]} ∪ live s) i {| todo := p; held := held t; waiting := false |})
  | DeleteRow db id :: p =>
      if waiting t then None else Some (set_live s (live s ∖ {[(db, id)]}) i {| todo := p; held := held t; waiting := false |})
  end.
Fixpoint run_schedule (s : system) (schedule : list nat) : option system :=
  match schedule with [] => Some s | i :: rest => s' ← thread_step s i; run_schedule s' rest end.

Definition start (program : list action) : thread := {| todo := program; held := []; waiting := false |}.
Definition finished (t : thread) : Prop := todo t = [].

Definition running (lives : gset (string * Z)) (programs : list (list action)) : system := {| live := lives; threads := start <$> programs; crashed := false |}.

(** ** Specification *)

(** A program that takes every lock above the locks it holds, gives all of them
    and no others back, deletes nothing, and creates only rows outside [rows], the rows that
    programs lock. *)
Fixpoint disciplined (rows lives : gset (string * Z)) (h : list (lockName * mode)) (p : list action) : Prop :=
  match p with
  | [] => h = []
  | Lock m l :: p =>
      (forall db id, l = RowLock db id -> (db, id) ∈ rows) /\
      if found lives l then (forall x, x ∈ h -> (lock_order x.1 l < 0)%Z) /\ disciplined rows lives ((l, m) :: h) p
      else disciplined rows lives h p
  | Unlock _ l :: p =>
      (forall db id, l = RowLock db id -> (db, id) ∈ rows) /\
      disciplined rows lives (release l h) p /\ (if found lives l then l ∈ h.*1 else release l h = h)
  | CreateRow db id :: p => (db, id) ∉ rows /\ disciplined rows lives h p
  | DeleteRow _ _ :: _ => False
  end.

Record system_ok (rows lives : gset (string * Z)) (s : system) : Prop := {
  alive : crashed s = false;
  rows_same : forall r, r ∈ rows -> r ∈ live s <-> r ∈ lives;
  all_disciplined : Forall (fun t => disciplined rows lives (held t) (todo t)) (threads s);
  waiting_lock : Forall (fun t => waiting t = true -> exists m l p, todo t = Lock m l :: p /\ found lives l = true) (threads s);
  exclusive : forall i j ti tj l m, threads s !! i = Some ti -> threads s !! j = Some tj -> i <> j ->
    (l, Write) ∈ held ti -> (l, m) ∉ held tj;
}.

(** An operation that locks rows of [rows] only and creates none of them; a
    transaction lists a resource once, and a branch is listed in key order. *)
Definition resources_ok (rows : gset (string * Z)) (rs : list touchedResource) : Prop :=
  NoDup (resource_key <$> rs) /\ forall r, r ∈ rs -> resource_key r ∈ rows.
Definition keys_ok (rows : gset (string * Z)) (keys : list nodeKey) : Prop := forall k, k ∈ keys -> (key_typ k, key_id k) ∈ rows.
Definition branch_ok (rows : gset (string * Z)) (keys : list nodeKey) : Prop :=
  StronglySorted (fun a b => (key_compare a b < 0)%Z) keys /\ keys_ok rows keys.
Definition towerStep_ok (rows : gset (string * Z)) (s : towerStep) : Prop :=
  match s with
  | TowerRebuild _ => True
  | TowerAttempt rs => resources_ok rows rs
  | TowerCommit _ snapshots rs => resources_ok rows rs /\ keys_ok rows snapshots
  | TowerSingleWrite _ r => resource_key r ∈ rows
  end.
Definition updateStep_ok (rows : gset (string * Z)) (s : updateStep) : Prop :=
  match s with
  | UpdateTower visits => forall v s, v ∈ visits -> s ∈ v.2 -> towerStep_ok rows s
  | UpdateClone keys => branch_ok rows keys
  | UpdateCommit s => towerStep_ok rows s
  end.
Definition op_ok (rows : gset (string * Z)) (o : operation) : Prop :=
  match o with
  | Commit _ snapshots rs cs =>
      resources_ok rows rs /\ keys_ok rows snapshots /\ (forall k, is_Some (cs !! k) -> (key_typ k, key_id k) ∉ rows)
  | SingleWrite _ r => resource_key r ∈ rows
  | Clone keys => branch_ok rows keys
  | RowRead _ db id => (db, id) ∈ rows
  | ViewMany _ db ids => forall id, id ∈ ids -> (db, id) ∈ rows
  | BranchRead _ | Flush => True
  | UpdateWithin _ _ steps => forall s, s ∈ steps -> updateStep_ok rows s
  end.

(** Steps a system has left. *)
Definition thread_left (t : thread) : nat := 2 * length (todo t) - (if waiting t then 1 else 0).
Definition steps_left (s : system) : nat := sum_list (thread_left <$> threads s).

(** * Lemmas *)

#[export] Instance lock_order_order : GoOrder lock_order.
Proof. apply lex_cmp_order; [apply on_order, _|]. apply lex_cmp_order; apply on_order, _. Qed.

Lemma lock_order_irrefl l : lock_order l l = 0%Z.
Proof. pose proof (order_flip (cmp := lock_order) l l). lia. Qed.

(** ** One step *)

Lemma compatible_spec ts i m l : compatible ts i m l = true <->
  forall j t, ts !! j = Some t -> j <> i -> blocks m l t = false.
Proof.
  unfold compatible. rewrite forallb_forall. split.
  - intros H j t Ht Hne. specialize (H (j, t)). cbn in H.
    assert (((j =? i) || negb (blocks m l t))%bool = true) as Hb.
    { apply H, list_elem_of_In, list_elem_of_lookup. exists j. rewrite lookup_zip_with, Ht, lookup_seq_lt by (by eapply lookup_lt_Some). done. }
    rewrite (proj2 (Nat.eqb_neq j i) Hne) in Hb. by apply negb_true_iff.
  - intros H [j t] Hin. apply list_elem_of_In, list_elem_of_lookup in Hin as [k Hk].
    rewrite lookup_zip_with in Hk. destruct (seq 0 (length ts) !! k) as [k'|] eqn:Es; [|done].
    destruct (ts !! k) as [t'|] eqn:Et; [|done]. cbn in Hk. injection Hk as -> ->. apply lookup_seq in Es as [-> _]. cbn.
    destruct (Nat.eqb_spec k i) as [|Hne]; [done|]. by rewrite (H k t Et Hne).
Qed.

Lemma compatible_false ts i m l : compatible ts i m l = false ->
  exists j t, ts !! j = Some t /\ j <> i /\ blocks m l t = true.
Proof.
  intros H. unfold compatible in H. apply not_true_iff_false in H.
  destruct (existsb (fun p => negb (p.1 =? i)%nat && blocks m l p.2) (zip (seq 0 (length ts)) ts)) eqn:E.
  - apply existsb_exists in E as ([j t] & Hin & Hb). apply list_elem_of_In, list_elem_of_lookup in Hin as [k Hk].
    rewrite lookup_zip_with in Hk. destruct (seq 0 (length ts) !! k) as [k'|] eqn:Es; [|done].
    destruct (ts !! k) as [t'|] eqn:Et; [|done]. cbn in Hk. injection Hk as -> ->. apply lookup_seq in Es as [-> _].
    cbn in Hb. apply andb_true_iff in Hb as [Hne Hb]. exists k, t. split_and!; [done| |done].
    by apply negb_true_iff, Nat.eqb_neq in Hne.
  - exfalso. apply H, forallb_forall. intros p Hp. apply not_true_iff_false in E.
    destruct ((p.1 =? i)%nat) eqn:En; [done|]. destruct (blocks m l p.2) eqn:Eb; [|done].
    exfalso. apply E, existsb_exists. exists p. by rewrite En, Eb.
Qed.

Lemma release_subset l h x : x ∈ release l h -> x ∈ h.
Proof. unfold release. rewrite list_elem_of_filter. naive_solver. Qed.

Lemma step_iff s s' : step s s' <-> exists i, thread_step s i = Some s'.
Proof.
  split.
  - intros [i m l p h E Hf|i m l p h E Hf|i m l p h E Hc|i by_id l p h E Hf Hh|i l p h E Hh|i j t l p h E Hf Hh Hw|i l p h E Hf Hh Hw|i l p h E Hf|i db id p h E|i db id p h E];
      exists i; unfold thread_step; rewrite E; cbn; rewrite ?Hf, ?Hc; try reflexivity.
    + rewrite (bool_decide_true (l ∈ h.*1)) by done. destruct Hf as [->|Hf]; [reflexivity|]. rewrite Hf. by destruct by_id.
    + by rewrite (bool_decide_false (l ∈ h.*1)) by done.
    + by rewrite (bool_decide_false (l ∈ h.*1)), Hw by done.
    + by rewrite (bool_decide_false (l ∈ h.*1)), Hw by done.
  - intros [i E]. unfold thread_step in E. destruct (threads s !! i) as [[td h w]|] eqn:Ei; [|done]. cbn in E.
    destruct td as [|[m l|by_id l|db id|db id] p]; [done|destruct w..]; try done; [destruct (compatible _ _ _ _) eqn:Hc|destruct (found _ l) eqn:Hf| | |].
    + injection E as <-. by eapply step_acquire.
    + done.
    + injection E as <-. by eapply step_request.
    + injection E as <-. by eapply step_missing_row.
    + destruct (by_id && negb (found (live s) l)) eqn:Hl; [|case_bool_decide as Hh; [|destruct by_id; [destruct (writer s l) as [[j u]|] eqn:Hw|]]]; cbn in E; injection E as <-.
      * apply andb_true_iff in Hl as [-> Hf%negb_true_iff]. by eapply step_unlock_lost.
      * eapply step_unlock; [exact Ei| |done]. destruct by_id; [right|by left]. by destruct (found _ l).
      * eapply step_unlock_other; [exact Ei| |done|done]. by destruct (found _ l).
      * eapply step_unlock_fatal; [exact Ei| |done|done]. by destruct (found _ l).
      * by eapply step_unlock_none.
    + injection E as <-. by eapply step_create.
    + injection E as <-. by eapply step_delete.
Qed.

Lemma run_schedule_steps s schedule s' : run_schedule s schedule = Some s' -> rtc step s s'.
Proof.
  revert s. induction schedule as [|i schedule IH]; intros s E; cbn in E; [injection E as ->; apply rtc_refl|].
  destruct (thread_step s i) as [s1|] eqn:E1; [|done]. eapply rtc_l; [|by apply IH]. apply step_iff. by exists i.
Qed.

Section steps.
Context (rows lives : gset (string * Z)).

Lemma found_same s l : system_ok rows lives s -> (forall db id, l = RowLock db id -> (db, id) ∈ rows) -> found (live s) l = found lives l.
Proof.
  intros Hs Hl. destruct l as [| | | | | |db id]; cbn; [done..|]. apply bool_decide_ext. by apply (rows_same _ _ _ Hs), Hl.
Qed.

(** Replacing one goroutine by one that holds no more. *)
Lemma set_thread_ok s i t t' :
  system_ok rows lives s -> threads s !! i = Some t -> (forall x, x ∈ held t' -> x ∈ held t) ->
  disciplined rows lives (held t') (todo t') ->
  (waiting t' = true -> exists m l p, todo t' = Lock m l :: p /\ found lives l = true) ->
  system_ok rows lives (set_thread s i t').
Proof.
  intros [H0 H1 H2 H3 H4] Hi Hsub Hd Hw. split; cbn; [done|done|by apply Forall_insert|by apply Forall_insert|].
  intros a b ta tb l m Ha Hb Hne Hla Hlb. rewrite list_lookup_insert_Some in Ha, Hb.
  destruct Ha as [(<- & <- & _)|[Hia Ha]], Hb as [(<- & <- & _)|[Hib Hb]]; [done|..].
  - eapply (H4 i b t tb); eauto.
  - eapply (H4 a i ta t); eauto.
  - by eapply (H4 a b ta tb).
Qed.

Lemma step_ok s s' : system_ok rows lives s -> step s s' -> system_ok rows lives s'.
Proof.
  intros Hs Hstep.
  assert (forall i t, threads s !! i = Some t -> disciplined rows lives (held t) (todo t)) as Hdisc.
  { intros i t Hi. exact (Forall_lookup_1 _ _ _ _ (all_disciplined _ _ _ Hs) Hi). }
  assert (forall i t, threads s !! i = Some t -> waiting t = true -> exists m l p, todo t = Lock m l :: p /\ found lives l = true) as Hwait.
  { intros i t Hi. exact (Forall_lookup_1 _ _ _ _ (waiting_lock _ _ _ Hs) Hi). }
  destruct Hstep as [i m l p h Hi Hf|i m l p h Hi Hf|i m l p h Hi Hc|i by_id l p h Hi Hf Hh|i l p h Hi Hh|i j t l p h Hi Hf Hh Hw|i l p h Hi Hf Hh Hw|i l p h Hi Hf|i db id p h Hi|i db id p h Hi];
    pose proof (Hdisc _ _ Hi) as Hd; cbn in Hd.
  - destruct Hd as [Hl Hd]. rewrite <- (found_same s l Hs Hl), Hf in Hd. by eapply set_thread_ok.
  - destruct Hd as [Hl Hd]. eapply set_thread_ok; [done|exact Hi|done|done|]. intros _. exists m, l, p. split; [done|].
    by rewrite <- (found_same s l Hs Hl).
  - destruct Hd as [Hl Hd]. destruct (Hwait _ _ Hi eq_refl) as (m' & l' & p' & [= <- <- <-] & Hf). rewrite Hf in Hd.
    destruct Hd as [_ Hd]. destruct Hs as [H0 H1 H2 H3 H4]. split; cbn; [done|done|by apply Forall_insert|by apply Forall_insert|].
    rewrite compatible_spec in Hc.
    assert (forall j t m', threads s !! j = Some t -> j <> i -> (m = Write \/ m' = Write) -> (l, m') ∉ held t) as Hno.
    { intros j t m' Hj Hne Hm Hin. specialize (Hc j t Hj Hne). unfold blocks in Hc. destruct m.
      - destruct Hm as [?| ->]; [done|]. apply orb_false_iff in Hc as [Hc _]. by apply bool_decide_eq_false in Hc.
      - apply bool_decide_eq_false in Hc. apply Hc. by apply (list_elem_of_fmap_2 fst) in Hin. }
    intros a b ta tb l0 m0 Ha Hb Hne Hla Hlb. rewrite list_lookup_insert_Some in Ha, Hb.
    destruct Ha as [(<- & <- & _)|[Hia Ha]], Hb as [(<- & <- & _)|[Hib Hb]]; [done|..].
    + cbn in Hla. apply elem_of_cons in Hla as [[= -> <-]|Hla]; [by eapply (Hno b tb m0 Hb); [congruence|left| ]|by eapply (H4 i b)].
    + cbn in Hlb. apply elem_of_cons in Hlb as [[= -> ->]|Hlb]; [by eapply (Hno a ta Write Ha); [congruence|right| ]|by eapply (H4 a i)].
    + by eapply (H4 a b).
  - destruct Hd as (Hl & Hd & Hr). eapply set_thread_ok; [done|exact Hi|apply release_subset|done|done].
  - destruct Hd as (Hl & Hd & Hr). destruct (found lives l); [done|]. rewrite Hr in Hd. by eapply set_thread_ok.
  - destruct Hd as (Hl & Hd & Hr). by rewrite <- (found_same s l Hs Hl), Hf in Hr.
  - destruct Hd as (Hl & Hd & Hr). by rewrite <- (found_same s l Hs Hl), Hf in Hr.
  - destruct Hd as (Hl & Hd & Hr). rewrite <- (found_same s l Hs Hl), Hf in Hr. rewrite Hr in Hd. by eapply set_thread_ok.
  - destruct Hd as (Hn & Hd). destruct (set_thread_ok s i _ {| todo := p; held := h; waiting := false |} Hs Hi) as [H0 H1 H2 H3 H4]; [done..|].
    split; [done| |done..]. intros r Hr. cbn. rewrite <- (H1 r Hr). cbn. set_solver.
  - done.
Qed.

Lemma left_insert (ts : list thread) i t t' : ts !! i = Some t -> thread_left t' < thread_left t ->
  sum_list (thread_left <$> <[i := t']> ts) < sum_list (thread_left <$> ts).
Proof.
  revert i. induction ts as [|x ts IH]; intros [|i] Hi Hlt; [done|done|..].
  - injection Hi as ->. change (thread_left t' + sum_list (thread_left <$> ts) < thread_left t + sum_list (thread_left <$> ts)). lia.
  - specialize (IH i Hi Hlt).
    change (thread_left x + sum_list (thread_left <$> <[i := t']> ts) < thread_left x + sum_list (thread_left <$> ts)). lia.
Qed.

Lemma left_same (ts : list thread) i t t' : ts !! i = Some t -> thread_left t' = thread_left t ->
  sum_list (thread_left <$> <[i := t']> ts) = sum_list (thread_left <$> ts).
Proof.
  intros Hi E. f_equal. rewrite list_fmap_insert, E. apply list_insert_id. by rewrite list_lookup_fmap, Hi.
Qed.
Lemma left_pos (ts : list thread) i t : ts !! i = Some t -> thread_left t <= sum_list (thread_left <$> ts).
Proof.
  revert i. induction ts as [|x ts IH]; intros [|i] Hi; [done|done|..]; change (thread_left t <= thread_left x + sum_list (thread_left <$> ts)).
  - injection Hi as ->. lia.
  - specialize (IH i Hi). lia.
Qed.
Lemma step_left s s' : step s s' -> steps_left s' < steps_left s.
Proof.
  intros H. unfold steps_left. destruct H as [| | | | |i j t l p h Hi Hf Hh Hw|i l p h Hi Hf Hh Hw| | |]; cbn;
    try (eapply left_insert; [eassumption|]; unfold thread_left; cbn; lia).
  - apply list_find_Some in Hw as (Hj & Ht & _). assert (j <> i) as Hne.
    { intros ->. rewrite Hi in Hj. injection Hj as <-. apply Hh. by apply (list_elem_of_fmap_2 fst) in Ht. }
    rewrite <- (left_same (threads s) j t (released l t)) by done.
    eapply left_insert; [rewrite list_lookup_insert_ne by done; exact Hi|]. unfold thread_left. cbn. lia.
  - pose proof (left_pos _ _ _ Hi) as Hp. unfold thread_left in Hp at 1. cbn in Hp |- *. lia.
Qed.

(** ** Progress *)

Lemma max_elem {A} (f : A -> lockName) (l : list A) : l <> [] -> exists x, x ∈ l /\ forall y, y ∈ l -> (lock_order (f y) (f x) <= 0)%Z.
Proof.
  induction l as [|a l IH]; [done|]. intros _. destruct l as [|b l].
  - exists a. split; [left|]. intros y ->%list_elem_of_singleton. rewrite lock_order_irrefl. lia.
  - destruct IH as (x & Hx & Hm); [done|].
    destruct (decide (lock_order (f a) (f x) <= 0)%Z) as [Ha|Ha].
    + exists x. split; [by right|]. intros y [->|Hy]%elem_of_cons; [done|by apply Hm].
    + exists a. split; [left|]. intros y [->|Hy]%elem_of_cons; [rewrite lock_order_irrefl; lia|].
      specialize (Hm y Hy). pose proof (order_flip (cmp := lock_order) (f a) (f x)).
      apply (order_trans (cmp := lock_order) _ (f x)); lia.
Qed.

Lemma running_steps s i t : system_ok rows lives s -> threads s !! i = Some t -> waiting t = false -> todo t <> [] -> exists s', step s s'.
Proof.
  intros Hs Hi Hw Ht. pose proof (Forall_lookup_1 _ _ _ _ (all_disciplined _ _ _ Hs) Hi) as Hd.
  destruct t as [[|[m l|by_id l|db id|db id] p] h w]; cbn in *; [done|subst w..].
  - destruct (found (live s) l) eqn:Hf; eexists; [by eapply step_request|by eapply step_missing_row].
  - destruct Hd as (Hl & _ & Hr). rewrite <- (found_same s l Hs Hl) in Hr.
    destruct (found (live s) l) eqn:Hf; [eexists; eapply step_unlock; [exact Hi|by right|exact Hr]|].
    destruct by_id; [eexists; by eapply step_unlock_lost|]. destruct (decide (l ∈ h.*1)) as [Hh|Hh]; eexists; [|by eapply step_unlock_none].
    eapply step_unlock; [exact Hi|by left|exact Hh].
  - eexists. by eapply step_create.
  - done.
Qed.

(** The lock a waiting goroutine asks for. *)
Definition wanted (t : thread) : lockName := match todo t with Lock _ l :: _ => l | _ => GraphLock end.

Lemma progress s : system_ok rows lives s -> ~ Forall finished (threads s) -> exists s', step s s'.
Proof.
  intros Hs Hnf.
  destruct (decide (Forall (fun t => todo t = [] \/ waiting t = true) (threads s))) as [Hall|Hex].
  2: { apply not_Forall_Exists, Exists_exists in Hex as (t & Hin & Ht); [|apply _].
       apply list_elem_of_lookup in Hin as [i Hi]. apply Decidable.not_or in Ht as [H1 H2].
       eapply running_steps; [done|exact Hi|by destruct (waiting t)|done]. }
  assert (forall i t, threads s !! i = Some t -> disciplined rows lives (held t) (todo t)) as Hdisc.
  { intros i t Hi. exact (Forall_lookup_1 _ _ _ _ (all_disciplined _ _ _ Hs) Hi). }
  assert (forall i t, threads s !! i = Some t -> waiting t = true ->
    exists m p, t = {| todo := Lock m (wanted t) :: p; held := held t; waiting := true |} /\
      forall x, x ∈ held t -> (lock_order x.1 (wanted t) < 0)%Z) as Hwait.
  { intros i t Hi Hw. destruct (Forall_lookup_1 _ _ _ _ (waiting_lock _ _ _ Hs) Hi Hw) as (m & l & p & E & Hf).
    pose proof (Hdisc _ _ Hi) as Hd. destruct t as [td h w]. cbn in *. subst. cbn in *. rewrite Hf in Hd.
    exists m, p. split; [done|]. apply Hd. }
  set (ws := filter (fun p => waiting p.2 = true) (zip (seq 0 (length (threads s))) (threads s))).
  assert (forall i t, (i, t) ∈ ws <-> threads s !! i = Some t /\ waiting t = true) as Hws.
  { intros i t. unfold ws. rewrite list_elem_of_filter, list_elem_of_lookup. setoid_rewrite lookup_zip_with. cbn. split.
    - intros [Hw [k Hk]]. split; [|done]. destruct (seq 0 (length (threads s)) !! k) as [k'|] eqn:Es; [|done].
      destruct (threads s !! k) as [t'|] eqn:Et; [|done]. apply lookup_seq in Es as [-> _]. cbn in Hk. by injection Hk as -> ->.
    - intros [Hi Hw]. split; [done|]. exists i. rewrite Hi, lookup_seq_lt by (by eapply lookup_lt_Some). done. }
  destruct (max_elem (fun p => wanted p.2) ws) as ([i t] & Hit & Hmax).
  { intros E. apply Hnf, Forall_forall. intros t Ht. unfold finished. rewrite Forall_forall in Hall.
    destruct (Hall t Ht) as [|Hw]; [done|]. exfalso. apply list_elem_of_lookup in Ht as [i Hi].
    assert ((i, t) ∈ ws) as H by by apply Hws. rewrite E in H. by apply elem_of_nil in H. }
  cbn in Hmax.
  (* whoever holds the greatest lock asked for would ask for a greater one *)
  assert (forall j u m, threads s !! j = Some u -> (wanted t, m) ∉ held u) as Hfree.
  { intros j u m Hj Hin. rewrite Forall_forall in Hall. destruct (Hall u ltac:(by eapply list_elem_of_lookup_2)) as [Hf|Hw].
    - pose proof (Hdisc _ _ Hj) as Hd. rewrite Hf in Hd. cbn in Hd. rewrite Hd in Hin. by apply elem_of_nil in Hin.
    - destruct (Hwait _ _ Hj Hw) as (m' & p' & _ & Hlt). specialize (Hlt _ Hin). cbn in Hlt.
      pose proof (Hmax (j, u) ltac:(by apply Hws)) as Hle. cbn in Hle. pose proof (order_flip (cmp := lock_order) (wanted u) (wanted t)). lia. }
  apply Hws in Hit as [Hi Hw]. destruct (Hwait _ _ Hi Hw) as (m & p & Et & _). rewrite Et in Hi.
  destruct (compatible (threads s) i m (wanted t)) eqn:Hc; [eexists; by eapply step_acquire|].
  apply compatible_false in Hc as (j & u & Hj & Hne & Hb). unfold blocks in Hb. destruct m.
  - apply orb_true_iff in Hb as [Hb|Hb]; [by apply bool_decide_eq_true, (Hfree _ _ _ Hj) in Hb|].
    destruct u as [[|[[|] l'|by_id l'|db id|db id] p'] h' w']; cbn in Hb; try done.
    apply andb_true_iff in Hb as [-> ->%bool_decide_eq_true].
    destruct (compatible (threads s) j Write (wanted t)) eqn:Hc; [eexists; by eapply step_acquire|].
    apply compatible_false in Hc as (k & v & Hk & _ & Hb). cbn in Hb. apply bool_decide_eq_true in Hb.
    apply list_elem_of_fmap in Hb as ([l'' m''] & E & Hin). cbn in E. subst l''. by apply (Hfree _ _ _ Hk) in Hin.
  - apply bool_decide_eq_true, list_elem_of_fmap in Hb as ([l'' m''] & E & Hin). cbn in E. subst l''. by apply (Hfree _ _ _ Hj) in Hin.
Qed.

Lemma reachable_ok s s' : system_ok rows lives s -> rtc step s s' -> system_ok rows lives s'.
Proof. intros H Hr. induction Hr; eauto using step_ok. Qed.

Lemma run_length n s s' : nsteps step n s s' -> n + steps_left s' <= steps_left s.
Proof. induction 1 as [|n a b c Hab _ IH]; [lia|]. pose proof (step_left _ _ Hab). lia. Qed.

Lemma run_completes s : system_ok rows lives s -> exists s', rtc step s s' /\ Forall finished (threads s').
Proof.
  remember (steps_left s) as n eqn:E. revert s E. induction n as [n IH] using lt_wf_ind. intros s -> Hs.
  destruct (decide (Forall finished (threads s))) as [Hf|Hf]; [exists s; split; [apply rtc_refl|done]|].
  destruct (progress s Hs Hf) as [s1 H1].
  destruct (IH (steps_left s1) (step_left _ _ H1) s1 eq_refl (step_ok _ _ Hs H1)) as (s' & Hr & H).
  exists s'. split; [by eapply rtc_l|done].
Qed.
End steps.


(** ** The programs are disciplined *)

Section discipline.
Context (rows lives : gset (string * Z)).

(** The locks a bracket holds inside: a row that is not there is skipped. *)
Definition taken (locks : list (mode * lockName)) (h : list (lockName * mode)) : list (lockName * mode) :=
  foldl (fun h p => if found lives p.2 then (p.2, p.1) :: h else h) h locks.
Definition lock_lt (a b : mode * lockName) : Prop := (lock_order a.2 b.2 < 0)%Z.
Definition rows_in (locks : list (mode * lockName)) : Prop := forall m db id, (m, RowLock db id) ∈ locks -> (db, id) ∈ rows.
Definition below (h : list (lockName * mode)) (locks : list (mode * lockName)) : Prop :=
  forall x p, x ∈ h -> p ∈ locks -> (lock_order x.1 p.2 < 0)%Z.
Definition neutral (h : list (lockName * mode)) (p : list action) : Prop :=
  forall k, disciplined rows lives h k -> disciplined rows lives h (p ++ k).

Lemma taken_elem locks h x : x ∈ taken locks h -> x ∈ h \/ (x.2, x.1) ∈ locks.
Proof.
  revert h. induction locks as [|p locks IH]; intros h Hx; [by left|]. cbn in Hx. apply IH in Hx as [Hx|Hx]; [|right; by right].
  destruct (found lives p.2); [|by left]. apply elem_of_cons in Hx as [->|Hx]; [right; destruct p; left|by left].
Qed.

Lemma release_new l m h : (forall x, x ∈ h -> (lock_order x.1 l < 0)%Z) -> release l ((l, m) :: h) = h /\ release l h = h.
Proof.
  intros Hlt. assert (release l h = h) as E.
  { unfold release. clear m. induction h as [|x h IH]; [done|]. rewrite filter_cons_True, IH; [done| |].
    - intros y Hy. apply Hlt. by right.
    - intros E. specialize (Hlt x ltac:(left)). rewrite E, lock_order_irrefl in Hlt. lia. }
  split; [|done]. unfold release in *. rewrite filter_cons_False; [done|]. cbn. naive_solver.
Qed.

Lemma neutral_nil h : neutral h [].
Proof. by intros k. Qed.
Lemma neutral_app h p q : neutral h p -> neutral h q -> neutral h (p ++ q).
Proof. intros Hp Hq k Hk. rewrite <- app_assoc. by apply Hp, Hq. Qed.
Lemma neutral_join h ps : (forall p, p ∈ ps -> neutral h p) -> neutral h (mjoin ps).
Proof.
  induction ps as [|p ps IH]; intros H; [apply neutral_nil|]. cbn. apply neutral_app; [apply H; left|apply IH; intros q Hq; apply H; by right].
Qed.
Lemma neutral_creates h (cs : list nodeKey) : (forall k, k ∈ cs -> (key_typ k, key_id k) ∉ rows) ->
  neutral h ((fun k => CreateRow (key_typ k) (key_id k)) <$> cs).
Proof.
  induction cs as [|c cs IH]; intros H k Hk; [done|]. cbn. split; [apply H; left|]. apply IH; [|done]. intros d Hd. apply H. by right.
Qed.

Lemma bracket_cons by_id m l locks body k :
  bracket by_id ((m, l) :: locks) body ++ k = Lock m l :: bracket by_id locks body ++ Unlock by_id l :: k.
Proof. unfold bracket. rewrite reverse_cons, fmap_app, !fmap_cons, <- !app_assoc. reflexivity. Qed.

Lemma neutral_bracket by_id locks body h :
  rows_in locks -> StronglySorted lock_lt locks -> below h locks -> neutral (taken locks h) body -> neutral h (bracket by_id locks body).
Proof.
  revert h. induction locks as [|[m l] locks IH]; intros h Hrows Hs Hb Hbody k Hk.
  - unfold bracket. cbn. rewrite app_nil_r. by apply Hbody.
  - rewrite bracket_cons. apply StronglySorted_inv in Hs as [Hs Hall]. rewrite Forall_forall in Hall.
    assert (forall db id, l = RowLock db id -> (db, id) ∈ rows) as Hl by (intros db id ->; eapply Hrows; left).
    assert (forall x, x ∈ h -> (lock_order x.1 l < 0)%Z) as Hlt by (intros x Hx; exact (Hb x (m, l) Hx ltac:(left))).
    destruct (release_new l m h Hlt) as [R1 R2].
    assert (forall h', h' = (l, m) :: h \/ h' = h -> below h' locks) as Hb'.
    { intros h' Hh' x p Hx Hp. destruct (decide (x = (l, m))) as [->|Hne]; [exact (Hall p Hp)|].
      apply Hb; [|by right]. destruct Hh' as [->| ->]; [|done]. by apply elem_of_cons in Hx as [|]. }
    specialize (IH (if found lives l then (l, m) :: h else h)).
    assert (forall h', disciplined rows lives (if found lives l then (l, m) :: h else h) h' ->
      disciplined rows lives h (Lock m l :: h')) as Hcons.
    { intros h' H. cbn. split; [done|]. by destruct (found lives l). }
    apply Hcons, IH; [|done|apply Hb'; destruct (found lives l); tauto|exact Hbody|].
    + intros m' db id Hin. eapply Hrows. by right.
    + cbn. split; [done|]. destruct (found lives l); rewrite ?R1, ?R2; [|done]. split; [done|]. cbn. left.
Qed.
End discipline.

(** ** The order of the lists *)

Lemma cmp_compare_eq a b : cmp_compare a b = 0%Z -> a = b.
Proof. intros H. pose proof (cmp_compare_spec a b). lia. Qed.
Lemma lock_compare_eq a b : lock_compare a b = 0%Z -> a = b.
Proof.
  unfold lock_compare, lex_cmp. destruct a as [a i], b as [b j]. cbn. destruct (Z.eqb_spec (string_compare a b) 0) as [E|E]; [|done].
  apply string_compare_spec in E as ->. by intros ->%cmp_compare_eq.
Qed.
#[export] Instance lock_compare_order : GoOrder lock_compare.
Proof. apply lex_cmp_order; apply on_order, _. Qed.

Section orders.
Context `{!MapOrder nodeKey} `{!MapOrder string}.
Implicit Types (branchRoot : string -> Z -> option nodeKey) (hasSecondaryIndexes : string -> bool).

Lemma structural_sorted hasSecondaryIndexes rs cs ds :
  StronglySorted (fun a b => (string_compare a b < 0)%Z) (transactionStructuralDBNames hasSecondaryIndexes rs cs ds).
Proof. apply SortFunc_strict; [apply _|intros ? ? _ _; apply string_compare_spec|apply set_range_nodup]. Qed.

Lemma touched_roots_sorted branchRoot ls : StronglySorted (fun a b => (key_compare a b < 0)%Z) (touched_roots branchRoot ls).
Proof.
  apply SortFunc_strict; [apply _|intros ? ? _ _; apply key_compare_eq|].
  cut (forall roots, NoDup roots -> NoDup (foldl (fun roots p =>
    match branchRoot p.1 p.2 with
    | None => roots
    | Some root => if bool_decide (root ∈ roots) then roots else roots ++ [root]
    end) roots ls)); [intros H; apply H, NoDup_nil_2|].
  induction ls as [|p ls IH]; intros roots Hnd; [done|].
  cbn. apply IH. destruct (branchRoot p.1 p.2) as [root|]; [|done]. case_bool_decide as Hr; [done|].
  apply NoDup_app. split_and!; [done| |apply NoDup_singleton]. intros x Hx ->%list_elem_of_singleton. done.
Qed.

Lemma resource_locks_no_deletes rs cs : transactionResourceLocks rs cs ∅ = SortFunc lock_compare (resource_key <$> rs).
Proof.
  unfold transactionResourceLocks. rewrite map_range_empty. cbn [foldl]. f_equal.
  cut (forall l s, (foldl (fun (st : list (string * Z) * gset (string * Z)) r =>
    (st.1 ++ [resource_key r], {[resource_key r]} ∪ st.2)) (l, s) rs).1 = l ++ (resource_key <$> rs)); [intros H; apply H|].
  induction rs as [|r rs IH]; intros l s; cbn; [by rewrite app_nil_r|]. rewrite IH. by rewrite <- app_assoc.
Qed.

Lemma compacted_sorted (ids : list Z) : StronglySorted (fun a b => (cmp_compare a b < 0)%Z) (SortFunc cmp_compare (remove_dups ids)).
Proof. apply SortFunc_strict; [apply _|intros ? ? _ _; apply cmp_compare_eq|apply NoDup_remove_dups]. Qed.
End orders.

Lemma sorted_locks {A} (R : A -> A -> Prop) (m : mode) (f : A -> lockName) l :
  (forall a b, R a b -> (lock_order (f a) (f b) < 0)%Z) -> StronglySorted R l -> StronglySorted lock_lt ((fun a => (m, f a)) <$> l).
Proof. intros Hf Hs. eapply StronglySorted_fmap; [|exact Hs]. intros a b Hab. by apply Hf. Qed.

(** Locks of a lower class come first. *)
Lemma class_lt a b : (lock_class a < lock_class b)%Z -> (lock_order a b < 0)%Z.
Proof. intros H. pose proof (cmp_compare_spec (lock_class a) (lock_class b)). unfold lock_order, lex_cmp. case_match; lia. Qed.

Definition classed (lo hi : Z) (locks : list (mode * lockName)) : Prop := forall p, p ∈ locks -> (lo <= lock_class p.2 <= hi)%Z.

Lemma sorted_app lo mid mid' hi l1 l2 : classed lo mid l1 -> classed mid' hi l2 -> (mid < mid')%Z ->
  StronglySorted lock_lt l1 -> StronglySorted lock_lt l2 -> StronglySorted lock_lt (l1 ++ l2) /\ classed (Z.min lo mid') (Z.max mid hi) (l1 ++ l2).
Proof.
  intros C1 C2 Hm S1 S2. split.
  - apply StronglySorted_app_2; [|done..]. intros a b Ha Hb. apply class_lt. specialize (C1 a Ha). specialize (C2 b Hb). lia.
  - intros p [Hp|Hp]%elem_of_app; [specialize (C1 p Hp)|specialize (C2 p Hp)]; lia.
Qed.

Lemma classed_one {A} m (f : A -> lockName) c l : (forall a, lock_class (f a) = c) -> classed c c ((fun a => (m, f a)) <$> l).
Proof. intros Hf p (a & -> & _)%list_elem_of_fmap. cbn. rewrite Hf. lia. Qed.

(** ** Every operation is disciplined *)

Section operations.
Context `{!MapOrder nodeKey} `{!MapOrder string}.
Context (branchRoot : string -> Z -> option nodeKey) (hasSecondaryIndexes : string -> bool) (rows lives : gset (string * Z)).
Notation touched := (touched_roots branchRoot).

Lemma roots_sorted m ls : StronglySorted lock_lt ((fun root => (m, BranchLock root)) <$> touched ls).
Proof. apply (sorted_locks _ m BranchLock _ (fun a b H => H)), touched_roots_sorted. Qed.

Lemma rows_sorted m ls : StronglySorted (fun a b => (lock_compare a b < 0)%Z) ls -> StronglySorted lock_lt ((fun p => (m, row_lock p)) <$> ls).
Proof. apply (sorted_locks _ m row_lock _ (fun a b H => H)). Qed.

(** Branches, then rows. *)
Lemma branches_rows_sorted m rls rs : StronglySorted (fun a b => (lock_compare a b < 0)%Z) rs ->
  StronglySorted lock_lt (((fun root => (m, BranchLock root)) <$> touched rls) ++ ((fun p => (m, row_lock p)) <$> rs)) /\
  classed 2 3 (((fun root => (m, BranchLock root)) <$> touched rls) ++ ((fun p => (m, row_lock p)) <$> rs)).
Proof.
  intros Hs. apply (sorted_app 2 2 3 3); [by apply classed_one|by apply classed_one|lia|apply roots_sorted|by apply rows_sorted].
Qed.

Lemma graph_classed access : classed 0 0 (graph_locks access).
Proof. destruct access; cbn; intros p Hp; [by apply elem_of_nil in Hp|apply list_elem_of_singleton in Hp as ->; cbn; lia..]. Qed.
Lemma graph_first access locks lo hi : classed lo hi locks -> (0 < lo)%Z -> (0 <= hi)%Z -> StronglySorted lock_lt locks ->
  StronglySorted lock_lt (graph_locks access ++ locks) /\ classed 0 hi (graph_locks access ++ locks).
Proof.
  intros Hc Hlo Hhi Hs. destruct (sorted_app 0 0 lo hi (graph_locks access) locks) as [H1 H2]; [apply graph_classed|done|lia| |done|].
  - destruct access; repeat constructor.
  - split; [done|]. intros p Hp. specialize (H2 p Hp). lia.
Qed.

Lemma rows_in_app l1 l2 : rows_in rows l1 -> rows_in rows l2 -> rows_in rows (l1 ++ l2).
Proof. intros H1 H2 m db id [H|H]%elem_of_app; eauto. Qed.
Lemma rows_in_other {A} m (f : A -> lockName) l : (forall a, lock_class (f a) <> 3%Z) -> rows_in rows ((fun a => (m, f a)) <$> l).
Proof. intros Hf m' db id (a & [= _ E] & _)%list_elem_of_fmap. specialize (Hf a). by rewrite <- E in Hf. Qed.
Lemma rows_in_rows m ls : (forall p, p ∈ ls -> p ∈ rows) -> rows_in rows ((fun p => (m, row_lock p)) <$> ls).
Proof. intros Hl m' db id ([a b] & [= _ -> ->] & Hin)%list_elem_of_fmap. by apply Hl. Qed.
Lemma rows_in_graph access : rows_in rows (graph_locks access).
Proof. destruct access; intros m db id H; cbn in H; [by apply elem_of_nil in H|apply list_elem_of_singleton in H; done..]. Qed.

(** All locks held are of a class below [c]. *)
Definition before (c : Z) (h : list (lockName * mode)) : Prop := forall x, x ∈ h -> (lock_class x.1 < c)%Z.
Lemma before_nil c : before c [].
Proof. intros x Hx. by apply elem_of_nil in Hx. Qed.
Lemma before_below c lo hi h locks : before c h -> classed lo hi locks -> (c <= lo)%Z -> below h locks.
Proof. intros Hb Hc Hle x p Hx Hp. apply class_lt. specialize (Hb x Hx). specialize (Hc p Hp). lia. Qed.
Lemma before_taken c c' lo hi h locks : before c h -> classed lo hi locks -> (c <= c')%Z -> (hi < c')%Z -> before c' (taken lives locks h).
Proof.
  intros Hb Hc Hle Hlt x [Hx|Hx]%taken_elem; [specialize (Hb x Hx); lia|]. specialize (Hc _ Hx). cbn in Hc. lia.
Qed.

Lemma neutral_disciplined p : neutral rows lives [] p -> disciplined rows lives [] p.
Proof. intros H. rewrite <- (app_nil_r p). by apply H. Qed.

(** One bracket over an inner program, and one on its own. *)
Lemma bracket_around by_id c lo hi h locks body : before c h -> classed lo hi locks -> (c <= lo)%Z -> rows_in rows locks -> StronglySorted lock_lt locks ->
  (forall h', before (hi + 1) h' -> neutral rows lives h' body) -> (c <= hi + 1)%Z -> neutral rows lives h (bracket by_id locks body).
Proof.
  intros Hb Hc Hle Hr Hs Hbody Hhi. apply neutral_bracket; [done|done|by eapply before_below|]. apply Hbody. eapply before_taken; [done|done|lia|lia].
Qed.
Lemma bracket_ok by_id lo hi h locks : before lo h -> classed lo hi locks -> rows_in rows locks -> StronglySorted lock_lt locks ->
  neutral rows lives h (bracket by_id locks []).
Proof. intros. apply neutral_bracket; [done|done|by eapply before_below|apply neutral_nil]. Qed.
Lemma mutex_ok by_id l h body : (lock_class l < 0)%Z -> before (lock_class l) h -> (forall h', before (lock_class l + 1) h' -> neutral rows lives h' body) ->
  neutral rows lives h (bracket by_id [(Write, l)] body).
Proof.
  intros Hl Hb Hbody. eapply (bracket_around _ _ (lock_class l) (lock_class l)); [done| |lia| |repeat constructor|done|lia].
  - intros p ->%list_elem_of_singleton. cbn. lia.
  - intros m db id [= _ E]%list_elem_of_singleton. by rewrite <- E in Hl.
Qed.

Lemma commit_locks_ok rs cs : resources_ok rows rs ->
  let locks := commit_locks branchRoot hasSecondaryIndexes rs cs ∅ in
  StronglySorted lock_lt locks /\ classed 1 3 locks /\ rows_in rows locks.
Proof.
  intros [Hnd Hrows]. unfold commit_locks. rewrite resource_locks_no_deletes.
  destruct (branches_rows_sorted Write (SortFunc lock_compare (resource_key <$> rs)) (SortFunc lock_compare (resource_key <$> rs))) as [S2 C2].
  { apply SortFunc_strict; [apply _|intros ? ? _ _; apply lock_compare_eq|done]. }
  cbn zeta. match goal with |- ?a /\ ?b /\ ?c => cut ((a /\ b) /\ c); [tauto|] end. split.
  - apply (sorted_app 1 1 2 3); [by apply classed_one|done|lia| |done].
    eapply sorted_locks; [|apply structural_sorted]. intros a b H. change ((if string_compare a b =? 0 then 0 else string_compare a b) < 0)%Z. cbv beta in H. case_match; lia.
  - apply rows_in_app; [by apply rows_in_other|]. apply rows_in_app; [by apply rows_in_other|]. apply rows_in_rows.
    intros p. rewrite SortFunc_perm. intros (r & -> & Hr)%list_elem_of_fmap. by apply Hrows.
Qed.

Lemma commit_neutral access snapshots rs cs h : before 0 h -> resources_ok rows rs -> keys_ok rows snapshots ->
  (forall k, is_Some (cs !! k) -> (key_typ k, key_id k) ∉ rows) ->
  neutral rows lives h (commit_program branchRoot hasSecondaryIndexes access snapshots rs cs ∅ []).
Proof.
  intros Hh Hrs Hsnap Hcs. destruct (commit_locks_ok rs cs Hrs) as (Hs & Hc & Hin).
  eapply (bracket_around _ 0 0 0); [done|apply graph_classed|lia|apply rows_in_graph|destruct access; repeat constructor| |lia].
  intros h' Hh'. apply neutral_app.
  - apply neutral_join. intros p (k & -> & Hk)%list_elem_of_fmap. eapply (bracket_ok _ 3 3); [| | |repeat constructor].
    + intros x Hx. specialize (Hh' x Hx). lia.
    + by intros q ->%list_elem_of_singleton.
    + intros m db id [= _ -> ->]%list_elem_of_singleton. by apply Hsnap.
  - eapply (bracket_around _ 1 1 3); [exact Hh'|done|lia|done|done| |lia]. intros h2 _. apply neutral_app; [|apply neutral_nil].
    change (fun p : nodeKey * loc => _) with ((fun k => CreateRow (key_typ k) (key_id k)) ∘ (fst : nodeKey * loc -> nodeKey)).
    rewrite list_fmap_compose. apply neutral_creates.
    intros k ([k' v] & -> & Hk)%list_elem_of_fmap. apply Hcs. rewrite map_range_perm in Hk. apply elem_of_map_to_list in Hk. by exists v.
Qed.

Lemma single_neutral access r h : before 0 h -> resource_key r ∈ rows -> neutral rows lives h (commitSingleWrite_program branchRoot access r).
Proof.
  intros Hh Hr. destruct (branches_rows_sorted Write [resource_key r] [resource_key r]) as [S2 C2]; [repeat constructor|].
  destruct (graph_first access _ 2 3 C2) as [S C]; [lia|lia|done|]. eapply bracket_ok; [done|exact C| |exact S].
  apply rows_in_app; [apply rows_in_graph|]. apply rows_in_app; [by apply rows_in_other|]. apply (rows_in_rows Write [_]). by intros p ->%list_elem_of_singleton.
Qed.

Lemma clone_neutral keys h : before 0 h -> branch_ok rows keys -> neutral rows lives h (clone_program keys).
Proof.
  intros Hh [Hs Hin]. destruct (graph_first graphAccessRead ((fun k => (Write, RowLock (key_typ k) (key_id k))) <$> keys) 3 3) as [S C]; [by apply classed_one|lia|lia| |].
  { by apply (sorted_locks _ Write (fun k => RowLock (key_typ k) (key_id k)) _ (fun a b H => H)). }
  eapply bracket_ok; [done|exact C| |exact S].
  apply (rows_in_app [_]); [apply (rows_in_graph graphAccessRead)|]. intros m db id (k & [= _ -> ->] & Hk)%list_elem_of_fmap. by apply Hin.
Qed.

(** ** The Tower and the updates *)

Lemma towerStep_neutral s h : before (-1) h -> towerStep_ok rows s -> neutral rows lives h (towerStep_program branchRoot hasSecondaryIndexes s).
Proof.
  intros Hh Hok. assert (before 0 h) as Hh0 by (intros x Hx; specialize (Hh x Hx); lia).
  destruct s as [build|rs|access snapshots rs|access r]; cbn [towerStep_program].
  - apply mutex_ok; [done|done|]. intros h' Hh'. destruct build; [|apply neutral_nil].
    eapply (bracket_ok _ 0 0); [done|apply (graph_classed graphAccessWrite)|apply (rows_in_graph graphAccessWrite)|repeat constructor].
  - destruct (commit_locks_ok rs ∅ Hok) as (Hs & Hc & Hin).
    eapply (bracket_around _ 0 0 0); [done|apply (graph_classed graphAccessRead)|lia|apply (rows_in_graph graphAccessRead)|repeat constructor| |lia].
    intros h' Hh'. by apply (bracket_ok _ 1 3).
  - destruct Hok as [Hrs Hsnap]. apply commit_neutral; [done..|]. intros k [l E]. by rewrite lookup_empty in E.
  - by apply single_neutral.
Qed.

Lemma towerRun_neutral visits h : before (-2) h -> (forall v s, v ∈ visits -> s ∈ v.2 -> towerStep_ok rows s) ->
  neutral rows lives h (towerRun_program branchRoot hasSecondaryIndexes visits).
Proof.
  intros Hh Hok. apply neutral_join. intros p (v & -> & Hv)%list_elem_of_fmap. apply mutex_ok; [done|done|].
  intros h' Hh'. apply neutral_join. intros q (s & -> & Hs)%list_elem_of_fmap. by apply towerStep_neutral; [|eapply Hok].
Qed.

Lemma updateWithin_neutral db id steps h : before (-3) h -> (forall s, s ∈ steps -> updateStep_ok rows s) ->
  neutral rows lives h (updateWithin_program branchRoot hasSecondaryIndexes db id steps).
Proof.
  intros Hh Hok. apply mutex_ok; [done|done|]. intros h' Hh'. apply neutral_join. intros p (s & -> & Hs)%list_elem_of_fmap. specialize (Hok s Hs).
  assert (forall c, (-2 <= c)%Z -> before c h') as Hc by (intros c Hle x Hx; specialize (Hh' x Hx); cbn in Hh'; lia).
  destruct s as [visits|keys|s]; cbn [updateStep_program].
  - apply towerRun_neutral; [by apply Hc|done].
  - apply clone_neutral; [by apply Hc|done].
  - apply towerStep_neutral; [by apply Hc|done].
Qed.

Lemma op_disciplined o : op_ok rows o -> disciplined rows lives [] (op_program branchRoot hasSecondaryIndexes o).
Proof.
  intros Hok. apply neutral_disciplined.
  destruct o as [access snapshots rs cs|access r|keys|participant db id|root|participant db ids| |db id steps]; cbn [op_program].
  - destruct Hok as (Hrs & Hsnap & Hcs). apply commit_neutral; [apply before_nil|done..].
  - apply single_neutral; [apply before_nil|done].
  - apply clone_neutral; [apply before_nil|done].
  - set (access := if participant then graphAccessRead else graphAccessNone).
    destruct (graph_first access [(Read, RowLock db id)] 3 3) as [S C]; [by intros p ->%list_elem_of_singleton|lia|lia|repeat constructor|].
    replace (row_read_program participant db id) with (bracket false (graph_locks access ++ [(Read, RowLock db id)]) []) by (by destruct participant).
    eapply bracket_ok; [apply before_nil|exact C| |exact S]. apply rows_in_app; [apply rows_in_graph|]. by intros m db' id' [= _ -> ->]%list_elem_of_singleton.
  - destruct (graph_first graphAccessRead [(Read, BranchLock root)] 2 2) as [S C]; [by intros p ->%list_elem_of_singleton|lia|lia|repeat constructor|].
    eapply bracket_ok; [apply before_nil|exact C| |exact S]. intros m db id Hin. set_solver.
  - set (sorted := SortFunc cmp_compare (remove_dups ids)). set (access := if participant then graphAccessRead else graphAccessNone).
    destruct (sorted_app 1 1 3 3 [(Read, StructureLock db)] ((fun id => (Read, RowLock db id)) <$> sorted)) as [S1 C1];
      [by intros p ->%list_elem_of_singleton|by apply classed_one|lia|repeat constructor| |].
    { apply (sorted_locks (fun a b => (cmp_compare a b < 0)%Z)); [|apply compacted_sorted].
      intros a b H. unfold lock_order, lex_cmp. cbn. by rewrite (proj2 (string_compare_spec db db) eq_refl). }
    destruct (graph_first access _ 1 3 C1) as [S C]; [lia|lia|done|].
    replace (viewMany_program participant db ids) with (bracket false (graph_locks access ++ [(Read, StructureLock db)] ++ ((fun id => (Read, RowLock db id)) <$> sorted)) [])
      by (by destruct participant).
    eapply bracket_ok; [apply before_nil|exact C| |exact S]. apply rows_in_app; [apply rows_in_graph|].
    intros m db' id' [[=]|(x & [= _ -> ->] & Hx)%list_elem_of_fmap]%elem_of_cons. apply Hok.
    unfold sorted in Hx. rewrite SortFunc_perm, elem_of_remove_dups in Hx. done.
  - eapply (bracket_ok _ 0 0); [apply before_nil|apply (graph_classed graphAccessWrite)|apply (rows_in_graph graphAccessWrite)|repeat constructor].
  - apply updateWithin_neutral; [apply before_nil|done].
Qed.
End operations.


(** * Theorems *)

(** C12: goroutines running commits without deletes, single writes, branch
    clones, reads, flushes and updates through the Tower or in transactions, none
    of which locks a row that another one of them creates, never deadlock. Every
    schedule makes a bounded number of steps, it can only stop when every
    goroutine is done, some schedule gets there, and on the way a lock that is
    held for writing is held by nobody else and no unlock of a lock that is not
    held ends the process. Without the conditions the process may hang
    ([deleted_row_stays_locked]) or end ([create_races_with_missing_read]). *)
Theorem operations_complete `{!MapOrder nodeKey, !MapOrder string} branchRoot hasSecondaryIndexes rows lives ops
    (ok : Forall (op_ok rows) ops) :
  let s := running lives (op_program branchRoot hasSecondaryIndexes <$> ops) in
  (forall n s', nsteps step n s s' -> n <= steps_left s) /\
  (forall s', rtc step s s' -> (forall s'', ~ step s' s'') -> Forall finished (threads s')) /\
  (exists s', rtc step s s' /\ Forall finished (threads s')) /\
  (forall s', rtc step s s' -> crashed s' = false /\ forall i j ti tj l m, threads s' !! i = Some ti -> threads s' !! j = Some tj -> i <> j ->
    (l, Write) ∈ held ti -> (l, m) ∉ held tj).
Proof.
  intros s. assert (system_ok rows lives s) as Hs.
  { split; [done|done|..].
    - apply Forall_fmap, Forall_fmap. eapply Forall_impl; [exact ok|]. intros o Ho. by apply op_disciplined.
    - apply Forall_fmap, Forall_true. done.
    - intros i j ti tj l m Hi _ _ Hl. cbn in Hi. rewrite list_lookup_fmap in Hi. destruct (_ !! i); [|done]. injection Hi as <-.
      by apply elem_of_nil in Hl. }
  split; [|split; [|split]].
  - intros n s' Hn. pose proof (run_length _ _ _ Hn). lia.
  - intros s' Hr Hstuck. destruct (decide (Forall finished (threads s'))) as [|Hnf]; [done|].
    destruct (progress rows lives s' (reachable_ok _ _ _ _ Hs Hr) Hnf) as [s'' H]. by apply Hstuck in H.
  - by apply (run_completes rows lives).
  - intros s' Hr. pose proof (reachable_ok _ _ _ _ Hs Hr) as Ho. split; [by eapply alive|by eapply exclusive].
Qed.

(** Two users, a commit that rewrites one and creates a third row, two clones
    of overlapping branches, a read of a missing row, a flush, and an update
    that moves to another tree, rebuilds the replica and ends in a transaction. *)
Definition sample_rows : gset (string * Z) := {[("User", 1%Z); ("User", 2%Z); ("Post", 4%Z)]}.
Definition sample_write : touchedResource := {| dbName := "User"; t_id := 1; ver := 0; t_work := 6%positive; original := 7%positive |}.
Definition sample_ops : list operation :=
  [Commit graphAccessWrite [{| key_typ := "Post"; key_id := 4 |}]
     [{| dbName := "User"; t_id := 2; ver := 0; t_work := 1%positive; original := 2%positive |};
      {| dbName := "User"; t_id := 1; ver := 0; t_work := 3%positive; original := 4%positive |}]
     {[ {| key_typ := "Post"; key_id := 9 |} := 5%positive ]};
   Clone [{| key_typ := "Post"; key_id := 4 |}; {| key_typ := "User"; key_id := 1 |}];
   Clone [{| key_typ := "User"; key_id := 1 |}; {| key_typ := "User"; key_id := 2 |}];
   ViewMany true "User" [2%Z; 1%Z; 2%Z]; RowRead false "Post" 4; BranchRead {| key_typ := "User"; key_id := 1 |};
   SingleWrite graphAccessRead sample_write; Flush;
   UpdateWithin "User" 1
     [UpdateTower [({| key_typ := "User"; key_id := 1 |}, [TowerRebuild true; TowerAttempt [sample_write]]);
                   ({| key_typ := "Post"; key_id := 4 |}, [TowerRebuild false; TowerCommit graphAccessWrite [{| key_typ := "User"; key_id := 2 |}] [sample_write]])];
      UpdateClone [{| key_typ := "User"; key_id := 1 |}]; UpdateCommit (TowerSingleWrite graphAccessRead sample_write)]].

Lemma operations_complete_witness :
  Forall (op_ok sample_rows) sample_ops /\
  let s := running {[("User", 1%Z); ("User", 2%Z)]} (op_program (fun _ _ => None) (fun _ => true) <$> sample_ops) in
  (forall n s', nsteps step n s s' -> n <= steps_left s) /\
  (forall s', rtc step s s' -> (forall s'', ~ step s' s'') -> Forall finished (threads s')) /\
  (exists s', rtc step s s' /\ Forall finished (threads s')) /\
  (forall s', rtc step s s' -> crashed s' = false /\ forall i j ti tj l m, threads s' !! i = Some ti -> threads s' !! j = Some tj -> i <> j ->
    (l, Write) ∈ held ti -> (l, m) ∉ held tj).
Proof.
  assert (Forall (op_ok sample_rows) sample_ops) as Hok.
  { assert (forall rs, bool_decide (NoDup (resource_key <$> rs)) && forallb (fun r => bool_decide (resource_key r ∈ sample_rows)) rs = true -> resources_ok sample_rows rs) as Hrs.
    { intros rs [H1%bool_decide_eq_true H2]%andb_true_iff. split; [done|]. intros r Hr%list_elem_of_In. rewrite forallb_forall in H2. by apply H2, bool_decide_eq_true in Hr. }
    assert (forall keys, forallb (fun k => bool_decide ((key_typ k, key_id k) ∈ sample_rows)) keys = true -> keys_ok sample_rows keys) as Hkeys.
    { intros keys H k Hk%list_elem_of_In. rewrite forallb_forall in H. by apply H, bool_decide_eq_true in Hk. }
    assert (resource_key sample_write ∈ sample_rows) as Hw by (apply (bool_decide_eq_true_1 _); vm_compute; reflexivity).
    unfold sample_ops. repeat apply Forall_cons_2; [..|apply Forall_nil_2]; cbn [op_ok].
    - split; [|split]; [apply Hrs; vm_compute; reflexivity|apply Hkeys; vm_compute; reflexivity|].
      intros k [v [<- _]%lookup_singleton_Some]. apply (bool_decide_eq_true_1 _). vm_compute. reflexivity.
    - split; [repeat constructor|]. apply Hkeys. vm_compute. reflexivity.
    - split; [repeat constructor|]. apply Hkeys. vm_compute. reflexivity.
    - apply (Forall_forall (fun id => ("User", id) ∈ sample_rows)), (bool_decide_eq_true_1 _). vm_compute. reflexivity.
    - apply (bool_decide_eq_true_1 _). vm_compute. reflexivity.
    - done.
    - exact Hw.
    - done.
    - intros u [->|[->|[->|Hu%elem_of_nil]%elem_of_cons]%elem_of_cons]%elem_of_cons; [..|done]; cbn [updateStep_ok].
      + intros v x Hv Hx. apply elem_of_cons in Hv as [->|[->|Hv%elem_of_nil]%elem_of_cons]; [..|done]; cbn [snd] in Hx;
          apply elem_of_cons in Hx as [->|[->|Hx%elem_of_nil]%elem_of_cons]; try done; cbn [towerStep_ok].
        * apply Hrs. vm_compute. reflexivity.
        * split; [apply Hrs|apply Hkeys]; vm_compute; reflexivity.
      + split; [repeat constructor|]. apply Hkeys. vm_compute. reflexivity.
      + exact Hw. }
  split; [exact Hok|]. exact (operations_complete _ _ _ _ _ Hok).
Defined.

(** A commit that deletes a row of a table without relations, a transaction
    loading the row, and a flush. *)
Definition deleting_ops : list (list action) :=
  [commit_program (fun db id => Some {| key_typ := db; key_id := id |}) (fun _ => false) graphAccessNone [] [] ∅
     {[ {| key_typ := "Note"; key_id := 1 |} := {| sd_key := {| key_typ := "Note"; key_id := 1 |}; sd_ver := 0 |} ]}
     [{| key_typ := "Note"; key_id := 1 |}];
   clone_program [{| key_typ := "Note"; key_id := 1 |}]; flush_program].

(** C28: a commit that deletes a row looks the row up again to unlock it, does
    not find it and leaves it locked. A transaction that was waiting for the
    row then waits forever, holding the graph lock for reading, so a flush (and
    every later writer of the graph) waits forever too: a reachable state where
    the commit is done, the two others are not, and nothing can move. *)
Theorem deleted_row_stays_locked :
  exists s, rtc step (running {[("Note", 1%Z)]} deleting_ops) s /\ (forall s', ~ step s s') /\
    (exists t, threads s !! 0 = Some t /\ finished t /\ (RowLock "Note" 1, Write) ∈ held t) /\
    (exists t, threads s !! 1 = Some t /\ ~ finished t /\ (GraphLock, Read) ∈ held t) /\
    (exists t, threads s !! 2 = Some t /\ ~ finished t) /\ live s = ∅.
Proof.
  destruct (run_schedule (running {[("Note", 1%Z)]} deleting_ops) [1; 1; 0; 0; 0; 0; 0; 0; 1; 0; 0; 0; 0; 2]) as [s|] eqn:E; [|by vm_compute in E].
  exists s. split; [by eapply run_schedule_steps|]. vm_compute in E. injection E as <-. split.
  - intros s' [[|[|[|i]]] H]%step_iff; vm_compute in H; done.
  - repeat split; eexists; (repeat split); [by left|done|by left|done].
Qed.

(** A transaction loads a row that is not there yet, of a table without
    relations, while another one creates it. The load takes no lock; once the
    row is there, its deferred [unlockResource] finds it and unlocks a mutex that
    is not locked, which is fatal. *)
Definition racing_ops : list (list action) :=
  [clone_program [{| key_typ := "Note"; key_id := 1 |}];
   commit_program (fun db id => Some {| key_typ := db; key_id := id |}) (fun _ => false) graphAccessNone [] []
     {[ {| key_typ := "Note"; key_id := 1 |} := 1%positive ]} ∅ []].
Lemma create_races_with_missing_read : exists s, rtc step (running ∅ racing_ops) s /\ crashed s = true.
Proof.
  destruct (run_schedule (running ∅ racing_ops) [0; 0; 0; 1; 1; 1; 0]) as [s|] eqn:E; [|by vm_compute in E].
  exists s. split; [by eapply run_schedule_steps|]. vm_compute in E. by injection E as <-.
Qed.
