(* ===== verification/PublishedIndex.v ===== *)
(** * What the published index holds (src/relation_index.go)

    The counters of the index against the field targets they count, and the
    graph the index describes: who owns whom according to the fields. *)
From S2P Require Import Prelude GoReflect RelationSchema SchemaRows RelationModel RelationGraph CommittedGraph.

(** ** Specification *)

(** The count of a field, 0 when it is not listed. *)
Definition counts_of (c : incomingCounts) : gmap relationHolderField Z :=
  list_to_map ((fun e => (ic_field e, ic_count e)) <$> entries c).
Definition count_at (c : incomingCounts) (f : relationHolderField) : Z := default 0%Z (counts_of c !! f).

(** Entries have distinct fields and positive counts, and the lookup map, when
    there is one, gives their positions. *)
Record counts_wf (c : incomingCounts) : Prop := {
  wf_fields : NoDup (ic_field <$> entries c);
  wf_positive : Forall (fun e => (0 < ic_count e)%Z) (entries c);
  wf_lookup : forall m, lookup_ c = Some m -> forall f p, m !! f = Some p <-> ic_field <$> entries c !! p = Some f;
}.

Definition refs_to (tgt : nodeKey) (ts : list nodeKey) : nat := length (filter (.= tgt) ts).

(** The counters count the references of [ft]. *)
Definition counts_match (inc : gmap nodeKey incomingCounts) (ft : relationHolderField -> list nodeKey) : Prop :=
  forall tgt, counts_wf (default no_counts (inc !! tgt)) /\
    forall f, count_at (default no_counts (inc !! tgt)) f = Z.of_nat (refs_to tgt (ft f)).

Definition targets_of (x : committedRelationIndex) (f : relationHolderField) : list nodeKey :=
  match x_fields x !! f with Some fl => if_targets fl | None => [] end.

Section graph.
Context (types : typeEnv).

(** The relation a field position of a holder stands for. *)
Definition spec_at (f : relationHolderField) : option relationSpec :=
  match relationSpecs types (key_typ (hf_holder f)) with
  | Ok specs => snd <$> list_find (fun r => fieldIndex r = hf_field f) specs
  | _ => None
  end.

Implicit Types (ft : relationHolderField -> list nodeKey).

(** The own references to an entity, the owner its own ownedby field names,
    and the owner the two give it. *)
Definition own_edge ft (f : relationHolderField) (c : nodeKey) : Prop := kind <$> spec_at f = Some ownRelation /\ c ∈ ft f.
Definition back_target ft (c : nodeKey) (r : relationSpec) : option nodeKey :=
  if bool_decide (kind r = ownedByRelation)
  then match ft {| hf_holder := c; hf_field := fieldIndex r |} with [o] => Some o | _ => None end else None.
Definition back_of ft (c : nodeKey) : option nodeKey :=
  match relationSpecs types (key_typ c) with Ok specs => head (omap (back_target ft c) specs) | _ => None end.
Definition field_owner ft (c o : nodeKey) : Prop :=
  (exists f, own_edge ft f c /\ hf_holder f = o) \/ (forall f, ~ own_edge ft f c) /\ back_of ft c = Some o.

(** What a published index, with the children lists [out] beside it,
    describes: counters that count the fields, ownership that is what the
    fields say and obeys the rules, and children lists that invert it. *)
Record graph_ok (x : committedRelationIndex) (out : gmap nodeKey (list nodeKey)) : Prop := {
  gk_counts : counts_match (x_incoming x) (targets_of x);
  gk_specs : forall f fl, x_fields x !! f = Some fl ->
    (forall r, if_spec fl = Some r -> spec_at f = Some r) /\ (if_targets fl <> [] -> is_Some (if_spec fl));
  gk_nodes : forall f fl, x_fields x !! f = Some fl -> hf_holder f ∈ dom (x_nodes x) /\ forall c, c ∈ if_targets fl -> c ∈ dom (x_nodes x);
  gk_targets : forall k t, x_targets x !! k = Some t -> it_key t ∈ dom (x_nodes x);
  gk_sole : forall c f f', own_edge (targets_of x) f c -> own_edge (targets_of x) f' c -> f = f' /\ refs_to c (targets_of x f) = 1;
  gk_agree : forall c f o, own_edge (targets_of x) f c -> back_of (targets_of x) c = Some o -> hf_holder f = o;
  gk_owners : forall c o, x_owners x !! c = Some o <-> field_owner (targets_of x) c o;
  gk_acyclic : forall c, ~ tc (owner_edge (x_owners x)) c c;
  gk_children : forall c o, c ∈ default [] (out !! o) <-> x_owners x !! c = Some o;
  gk_nodup : forall o, NoDup (default [] (out !! o));
  gk_known : forall k, k ∈ dom (x_nodes x) -> exists specs, relationSpecs types (key_typ k) = Ok specs;
}.
End graph.

(** * Lemmas *)

(** ** Maps from a key to its position in a list *)

Section positions.
Context {A K} `{Countable K} (key : A -> K).

Lemma snoc_positions (vs : list A) (v : A) (m : gmap K nat) :
  NoDup (key <$> vs ++ [v]) -> (forall k p, m !! k = Some p <-> key <$> vs !! p = Some k) ->
  forall k p, <[key v := length (vs ++ [v]) - 1]> m !! k = Some p <-> key <$> (vs ++ [v]) !! p = Some k.
Proof.
  intros Hnd Hm k p. rewrite fmap_app in Hnd. apply NoDup_app in Hnd as (_ & Hd & _). rewrite length_app. cbn.
  replace (length vs + 1 - 1) with (length vs) by lia. destruct (decide (k = key v)) as [->|Hne].
  - rewrite lookup_insert_eq. split; [intros [= <-]; by rewrite list_lookup_middle|].
    intros Hp. destruct (decide (p = length vs)) as [->|Hne]; [done|]. exfalso.
    assert (p < length (vs ++ [v])) as Hlt by (apply lookup_lt_is_Some; by destruct ((vs ++ [v]) !! p)). rewrite length_app in Hlt. cbn in Hlt.
    rewrite lookup_app_l in Hp by lia. apply fmap_Some in Hp as (w & Hw & Ek). apply (Hd (key v)); [|left].
    rewrite Ek. eapply list_elem_of_fmap_2, list_elem_of_lookup_2, Hw.
  - rewrite lookup_insert_ne, Hm by done. split; intros Hp.
    + apply fmap_Some in Hp as (w & Hw & ->). by rewrite (lookup_app_l_Some _ _ _ _ Hw).
    + apply fmap_Some in Hp as (w & Hw & ->). apply lookup_app_Some in Hw as [Hw|[_ Hw]]; [by rewrite Hw|].
      destruct (p - length vs) as [|j]; [by injection Hw as <-|by destruct j].
Qed.

Lemma all_positions (vs : list A) k p : NoDup (key <$> vs) ->
  foldl (fun (m : gmap K nat) q => <[key q.2 := q.1]> m) ∅ (zip (seq 0 (length vs)) vs) !! k = Some p <-> key <$> vs !! p = Some k.
Proof.
  revert k p. induction vs as [|v vs IH] using rev_ind; intros k p Hnd.
  - cbn. rewrite lookup_empty, lookup_nil. done.
  - rewrite length_app, seq_app, zip_with_app by (by rewrite length_seq). rewrite foldl_app. cbn [foldl length seq zip zip_with fst snd Nat.add].
    pose proof (snoc_positions vs v _ Hnd (fun k p => IH k p ltac:(rewrite fmap_app in Hnd; by apply NoDup_app in Hnd as (? & _ & _))) k p) as Hs.
    rewrite length_app in Hs. cbn in Hs. replace (length vs + 1 - 1) with (length vs) in Hs by lia. exact Hs.
Qed.
End positions.

(** ** The counters *)

Lemma counts_of_Some c f n : counts_wf c -> counts_of c !! f = Some n <-> {| ic_field := f; ic_count := n |} ∈ entries c.
Proof.
  intros Hc. unfold counts_of. rewrite <- elem_of_list_to_map.
  - rewrite list_elem_of_fmap. split; [intros ([g k] & [= -> ->] & H); done|intros H; by exists {| ic_field := f; ic_count := n |}].
  - rewrite <- list_fmap_compose. exact (wf_fields _ Hc).
Qed.

Lemma counts_of_positive c f n : counts_wf c -> counts_of c !! f = Some n -> (0 < n)%Z.
Proof. intros Hc H%counts_of_Some; [|done]. pose proof (wf_positive _ Hc) as Hp. rewrite Forall_forall in Hp. exact (Hp _ H). Qed.

Lemma position_None c f : counts_wf c -> position c f = None <-> f ∉ ic_field <$> entries c.
Proof.
  intros Hc. unfold position. destruct (lookup_ c) as [m|] eqn:Em.
  - split.
    + intros Hn [p Hp]%list_elem_of_lookup. rewrite list_lookup_fmap in Hp. apply (wf_lookup _ Hc m Em) in Hp. congruence.
    + intros Hn. destruct (m !! f) as [p|] eqn:E; [|done]. apply (wf_lookup _ Hc m Em) in E. exfalso. apply Hn.
      apply list_elem_of_lookup. exists p. by rewrite list_lookup_fmap.
  - rewrite fmap_None, list_find_None, Forall_forall, list_elem_of_fmap. naive_solver.
Qed.

Lemma position_Some c f p : counts_wf c -> position c f = Some p -> ic_field <$> entries c !! p = Some f.
Proof.
  intros Hc. unfold position. destruct (lookup_ c) as [m|] eqn:Em.
  - by apply (wf_lookup _ Hc m Em).
  - rewrite fmap_Some. intros ([i e] & Hf & ->). apply list_find_Some in Hf as (H1 & H2 & _). cbn. by rewrite H1, <- H2.
Qed.

Lemma index_entries_lookup es f p : NoDup (ic_field <$> es) -> index_entries es !! f = Some p <-> ic_field <$> es !! p = Some f.
Proof. apply all_positions. Qed.

(** A position splits the entries. *)
Lemma position_split c f p : counts_wf c -> position c f = Some p ->
  exists l1 n l2, entries c = l1 ++ {| ic_field := f; ic_count := n |} :: l2 /\ p = length l1 /\ (0 < n)%Z.
Proof.
  intros Hc Hp. apply (position_Some _ _ _ Hc) in Hp as Hf. apply fmap_Some in Hf as ([g n] & He & Hg). cbn in Hg. subst g.
  exists (take p (entries c)), n, (drop (S p) (entries c)). split_and!.
  - symmetry. by apply take_drop_middle.
  - rewrite length_take. apply lookup_lt_Some in He. lia.
  - pose proof (wf_positive _ Hc) as Hpos. exact (Forall_lookup_1 _ _ _ _ Hpos He).
Qed.

Lemma alter_middle {A} (g : A -> A) l1 (e : A) l2 : alter g (length l1) (l1 ++ e :: l2) = l1 ++ g e :: l2.
Proof. induction l1 as [|a l1 IH]; [done|]. cbn. f_equal. exact IH. Qed.

(** Counters with the same entries up to order. *)
Lemma counts_of_perm c c' : counts_wf c -> counts_wf c' -> entries c ≡ₚ entries c' -> counts_of c = counts_of c'.
Proof. intros Hc Hc' Hp. apply map_eq. intros f. apply option_eq. intros n. rewrite !counts_of_Some by done. by rewrite Hp. Qed.

Lemma increment_spec c f : counts_wf c ->
  counts_wf (increment c f) /\ counts_of (increment c f) = <[f := (count_at c f + 1)%Z]> (counts_of c).
Proof.
  intros Hc. unfold increment. destruct (position c f) as [p|] eqn:Ep.
  - destruct (position_split _ _ _ Hc Ep) as (l1 & n & l2 & E & -> & Hn).
    assert (counts_of c !! f = Some n) as Hcf.
    { apply counts_of_Some; [done|]. rewrite E. apply elem_of_app. right. left. }
    assert (counts_wf {| entries := alter (bump 1) (length l1) (entries c); lookup_ := lookup_ c |}) as Hwf.
    { destruct Hc as [H1 H2 H3]. rewrite E in *. rewrite alter_middle. split; cbn [entries lookup_].
      - rewrite fmap_app, fmap_cons in *. done.
      - rewrite Forall_app, Forall_cons in *. cbn. destruct H2 as (? & ? & ?). split_and!; [done|lia|done].
      - intros m Hm g q. rewrite (H3 m Hm). rewrite <- !list_lookup_fmap, !fmap_app, !fmap_cons. done. }
    split; [done|]. apply map_eq. intros g. apply option_eq. intros k. rewrite counts_of_Some by done. cbn [entries].
    rewrite E, alter_middle. unfold count_at. rewrite Hcf. cbn.
    pose proof (wf_fields _ Hc) as Hnd. rewrite E, fmap_app, fmap_cons in Hnd. cbn in Hnd. apply NoDup_app in Hnd as (_ & Hd & Hnd).
    apply NoDup_cons in Hnd as [Hl2 _].
    destruct (decide (g = f)) as [->|Hne].
    + rewrite lookup_insert_eq, elem_of_app, elem_of_cons. split; [|intros [= <-]; by right; left].
      intros [H|[[= ->]|H]]; [|done|].
      * apply (list_elem_of_fmap_2 ic_field) in H. cbn in H. exfalso. apply (Hd _ H). left.
      * by apply (list_elem_of_fmap_2 ic_field) in H.
    + rewrite lookup_insert_ne by done. rewrite counts_of_Some by done. rewrite E, !elem_of_app, !elem_of_cons.
      split; (intros [?|[Heq|?]]; [by left|unfold bump in Heq; cbn in Heq; congruence|by right; right]).
  - apply (position_None _ _ Hc) in Ep.
    set (es := entries c ++ [{| ic_field := f; ic_count := 1 |}]).
    assert (NoDup (ic_field <$> es)) as Hnd.
    { unfold es. rewrite fmap_app. apply NoDup_app. split_and!; [apply Hc| |apply NoDup_singleton]. intros g Hg ->%list_elem_of_singleton. done. }
    set (c' := match lookup_ c with Some m => _ | None => _ end).
    assert (entries c' = es) as Ees by (unfold c'; by destruct (lookup_ c)).
    assert (counts_wf c') as Hwf.
    { split; rewrite Ees; [done| |].
      - apply Forall_app. split; [apply Hc|]. by repeat constructor.
      - intros m Hm g q. unfold c' in Hm. destruct (lookup_ c) as [m0|] eqn:Em; cbn in Hm.
        + injection Hm as <-. unfold es. rewrite length_app. cbn. replace (length (entries c) + 1 - 1) with (length (entries c)) by lia.
          destruct (decide (g = f)) as [->|Hne].
          * rewrite lookup_insert_eq. split; [intros [= <-]; by rewrite lookup_app_r, Nat.sub_diag by lia|].
            intros Hq. rewrite <- list_lookup_fmap, fmap_app in Hq. cbn in Hq.
            apply lookup_app_Some in Hq as [Hq|[Hle Hq]].
            -- exfalso. apply Ep. eapply list_elem_of_lookup_2. exact Hq.
            -- rewrite length_fmap in Hle, Hq. destruct (q - length (entries c)) as [|k] eqn:Ek; [f_equal; lia|by destruct k].
          * rewrite lookup_insert_ne by done. rewrite (wf_lookup _ Hc m0 Em).
            rewrite <- !list_lookup_fmap, fmap_app. cbn. rewrite lookup_app_Some, length_fmap. split; [by left|].
            intros [?|[Hle Hq]]; [done|]. destruct (q - length (entries c)) as [|k]; [cbn in Hq; congruence|by destruct k].
        + revert Hm. case_match; [|done]. intros [= <-]. by apply index_entries_lookup. }
    split; [done|]. apply map_eq. intros g. apply option_eq. intros k. rewrite counts_of_Some, Ees by done. unfold es.
    assert (counts_of c !! f = None) as Hn.
    { destruct (counts_of c !! f) as [n|] eqn:En; [|done]. apply counts_of_Some in En; [|done]. exfalso. apply Ep.
      by apply (list_elem_of_fmap_2 ic_field) in En. }
    unfold count_at. rewrite Hn. cbn. rewrite elem_of_app, list_elem_of_singleton. destruct (decide (g = f)) as [->|Hne].
    + rewrite lookup_insert_eq. split; [|intros [= <-]; by right].
      intros [H|[= ->]]; [|done]. apply (list_elem_of_fmap_2 ic_field) in H. done.
    + rewrite lookup_insert_ne, counts_of_Some by done. naive_solver.
Qed.

Lemma increment_count c f g : counts_wf c -> count_at (increment c f) g = if decide (g = f) then (count_at c f + 1)%Z else count_at c g.
Proof.
  intros Hc. unfold count_at at 1. rewrite (proj2 (increment_spec c f Hc)).
  destruct (decide (g = f)) as [->|Hne]; [by rewrite lookup_insert_eq|by rewrite lookup_insert_ne].
Qed.

Lemma count_at_elem c e : counts_wf c -> e ∈ entries c -> count_at c (ic_field e) = ic_count e.
Proof.
  intros Hc He. unfold count_at. rewrite (proj2 (counts_of_Some c (ic_field e) (ic_count e) Hc)); [done|]. by destruct e.
Qed.
Lemma count_at_absent c f : counts_wf c -> f ∉ ic_field <$> entries c -> count_at c f = 0%Z.
Proof.
  intros Hc Hf. unfold count_at. destruct (counts_of c !! f) as [n|] eqn:E; [|done]. apply counts_of_Some in E; [|done].
  exfalso. apply Hf. by apply (list_elem_of_fmap_2 ic_field) in E.
Qed.
Lemma count_at_positive c f : counts_wf c -> (0 < count_at c f)%Z <-> exists e, e ∈ entries c /\ ic_field e = f.
Proof.
  intros Hc. split.
  - intros H. destruct (decide (f ∈ ic_field <$> entries c)) as [Hin|Hn].
    + apply list_elem_of_fmap in Hin as (e & -> & He). by exists e.
    + rewrite count_at_absent in H by done. lia.
  - intros (e & He & <-). rewrite count_at_elem by done. pose proof (wf_positive _ Hc) as Hp. rewrite Forall_forall in Hp. by apply Hp.
Qed.

(** The same entries but one, whose count may differ. *)
Lemma count_at_replace c c' f n g : counts_wf c -> counts_wf c' ->
  (forall e, ic_field e <> f -> e ∈ entries c' <-> e ∈ entries c) -> count_at c' f = n ->
  count_at c' g = if decide (g = f) then n else count_at c g.
Proof.
  intros Hc Hc' He Hn. destruct (decide (g = f)) as [->|Hne]; [done|]. unfold count_at. f_equal. apply option_eq. intros k.
  rewrite !counts_of_Some by done. by apply He.
Qed.

Lemma decrement_last l1 f n (c : incomingCounts) : counts_wf c -> entries c = l1 ++ [{| ic_field := f; ic_count := n |}] ->
  counts_wf {| entries := l1; lookup_ := delete f <$> lookup_ c |}.
Proof.
  intros [H1 H2 H3] E. rewrite E in *. rewrite fmap_app in H1. apply NoDup_app in H1 as (Hnd & Hd & _).
  apply Forall_app in H2 as [H2 _]. split; [done|done|]. cbn [lookup_ entries]. intros m Hm g q.
  destruct (lookup_ c) as [m0|]; [|done]. injection Hm as <-. rewrite lookup_delete_Some, (H3 m0 eq_refl), <- !list_lookup_fmap, fmap_app.
  rewrite lookup_app_Some. cbn. split.
  - intros [Hne [?|[Hle Hq]]]; [done|]. rewrite length_fmap in *. destruct (q - length l1) as [|k]; [cbn in Hq; congruence|by destruct k].
  - intros Hq. split; [|by left]. intros ->. apply (Hd g); [by eapply list_elem_of_lookup_2|left].
Qed.

Lemma decrement_moved l1 f n l3 moved (c : incomingCounts) : counts_wf c ->
  entries c = l1 ++ {| ic_field := f; ic_count := n |} :: l3 ++ [moved] ->
  counts_wf {| entries := l1 ++ moved :: l3; lookup_ := (fun m => <[ic_field moved := length l1]> (delete f m)) <$> lookup_ c |}.
Proof.
  intros [H1 H2 H3] E. rewrite E in *.
  assert (l1 ++ {| ic_field := f; ic_count := n |} :: l3 ++ [moved] ≡ₚ {| ic_field := f; ic_count := n |} :: l1 ++ moved :: l3) as Hp.
  { rewrite <- (Permutation_middle l1 (l3 ++ [moved])). f_equiv. f_equiv. symmetry. apply Permutation_cons_append. }
  rewrite Hp in H2. rewrite Hp in H1 at 1. cbn in H1. apply NoDup_cons in H1 as [Hf H1]. apply Forall_cons in H2 as [_ H2].
  split; [done|done|]. cbn [lookup_ entries]. intros m Hm g q. destruct (lookup_ c) as [m0|]; [|done]. injection Hm as <-.
  rewrite fmap_app, fmap_cons in H1. cbn in H1. apply NoDup_app in H1 as (Hnd & Hd & Hnd3). apply NoDup_cons in Hnd3 as [Hm3 _].
  rewrite <- list_lookup_fmap, fmap_app, fmap_cons.
  destruct (decide (g = ic_field moved)) as [->|Hne].
  - rewrite lookup_insert_eq. split.
    + intros [= <-]. rewrite lookup_app_r; rewrite length_fmap; [by rewrite Nat.sub_diag|done].
    + intros [Hq|[Hle Hq]]%lookup_app_Some.
      * exfalso. apply (Hd (ic_field moved)); [by eapply list_elem_of_lookup_2|left].
      * rewrite length_fmap in *. destruct (q - length l1) as [|k] eqn:Ek; [f_equal; lia|]. cbn in Hq. exfalso. apply Hm3.
        by eapply list_elem_of_lookup_2.
  - rewrite lookup_insert_ne by done. rewrite lookup_delete_Some, (H3 m0 eq_refl), <- list_lookup_fmap, fmap_app, fmap_cons, fmap_app.
    cbn [ic_field]. rewrite !lookup_app_Some, length_fmap. split.
    + intros [Hfg [Hq|[Hle Hq]]]; [by left|]. right. split; [done|]. destruct (q - length l1) as [|k]; [cbn in Hq; congruence|].
      cbn in Hq |- *. apply lookup_app_Some in Hq as [Hq|[Hl Hq]]; [done|].
      destruct (k - length (ic_field <$> l3)) as [|k']; [cbn in Hq; congruence|by destruct k'].
    + intros Hq. assert (g <> f) as Hgf.
      { intros ->. apply Hf. rewrite fmap_app, fmap_cons, elem_of_app, elem_of_cons. destruct Hq as [Hq|[_ Hq]]; [left; by eapply list_elem_of_lookup_2|].
        right. destruct (q - length l1) as [|k]; [cbn in Hq; congruence|]. right. by eapply list_elem_of_lookup_2. }
      split; [done|]. destruct Hq as [Hq|[Hle Hq]]; [by left|right]. split; [done|].
      destruct (q - length l1) as [|k]; [cbn in Hq; congruence|]. cbn in Hq |- *. by apply lookup_app_l_Some.
Qed.

Lemma decrement_spec c f : counts_wf c -> exists c', decrement c f = Ok c' /\ counts_wf c' /\
  forall g, count_at c' g = if decide (g = f) then Z.max 0 (count_at c f - 1) else count_at c g.
Proof.
  intros Hc. unfold decrement. destruct (position c f) as [p|] eqn:Ep.
  2: { exists c. split_and!; [done..|]. intros g. destruct (decide (g = f)) as [->|]; [|done].
       rewrite (count_at_absent c f) by (done || by apply position_None). done. }
  destruct (position_split _ _ _ Hc Ep) as (l1 & n & l2 & E & -> & Hn).
  set (e := {| ic_field := f; ic_count := n |}) in *.
  assert (count_at c f = n) as Hcf by (apply (count_at_elem c e Hc); rewrite E; apply elem_of_app; right; left).
  rewrite E, alter_middle, list_lookup_middle by done. cbn [ic_count bump e].
  assert (f ∉ ic_field <$> l1 /\ f ∉ ic_field <$> l2) as [Hf1 Hf2].
  { pose proof (wf_fields _ Hc) as Hnd. rewrite E, fmap_app, fmap_cons in Hnd. apply NoDup_app in Hnd as (_ & Hd & Hnd).
    apply NoDup_cons in Hnd as [H2 _]. split; [|exact H2]. intros H. apply (Hd _ H). left. }
  assert (forall c', counts_wf c' -> entries c' ≡ₚ l1 ++ l2 -> forall g, count_at c' g = if decide (g = f) then 0%Z else count_at c g) as Hgone.
  { intros c' Hc' Hp g. apply count_at_replace; [done|done| |].
    - intros e' He'. rewrite Hp, E, !elem_of_app, elem_of_cons. split; [naive_solver|]. intros [?|[->|?]]; [by left|by destruct He'|by right].
    - apply count_at_absent; [done|]. rewrite Hp, fmap_app, elem_of_app. tauto. }
  destruct (Z.ltb_spec 0 (n + -1)) as [Hlt|Hge].
  - eexists. split; [reflexivity|].
    assert (counts_wf {| entries := l1 ++ bump (-1) e :: l2; lookup_ := lookup_ c |}) as Hwf.
    { destruct Hc as [H1 H2 H3]. rewrite E in *. split; cbn [entries lookup_].
      - rewrite fmap_app, fmap_cons in *. done.
      - rewrite Forall_app, Forall_cons in *. cbn. destruct H2 as (? & ? & ?). split_and!; [done|lia|done].
      - intros m Hm g q. rewrite (H3 m Hm). rewrite <- !list_lookup_fmap, !fmap_app, !fmap_cons. done. }
    split; [done|]. intros g. apply count_at_replace; [done|done| |].
    + intros e' He'. rewrite E. cbn [entries]. rewrite !elem_of_app, !elem_of_cons. split; (intros [?|[->|?]]; [by left|cbn in He'; congruence|by right; right]).
    + rewrite Hcf, Z.max_r by lia. change f with (ic_field (bump (-1) e)) at 1. rewrite count_at_elem; [cbn; lia|done|].
      apply elem_of_app. right. left.
  - assert (n = 1%Z) as -> by lia. rewrite length_app. cbn [length].
    rewrite Z.max_l by lia. destruct l2 as [|x l2 _] using rev_ind.
    + replace (length l1 + S (length (@nil incomingCount)) - 1) with (length l1) by (cbn; lia). rewrite list_lookup_middle by done.
      eexists. split; [reflexivity|]. rewrite Nat.eqb_refl.
      assert (take (length l1) (<[length l1 := bump (-1) e]> (l1 ++ [bump (-1) e])) = l1) as Et.
      { rewrite take_insert, take_app_length, decide_False by lia. done. }
      rewrite Et. split; [by eapply decrement_last|]. apply Hgone; [by eapply decrement_last|by rewrite app_nil_r].
    + rewrite length_app. cbn [length]. replace (length l1 + S (length l2 + 1) - 1) with (length l1 + S (length l2)) by lia.
      rewrite lookup_app_r by lia. replace (length l1 + S (length l2) - length l1) with (S (length l2)) by lia.
      cbn [lookup list_lookup]. rewrite (list_lookup_middle l2 [] x) by done.
      eexists. split; [reflexivity|].
      assert (take (length l1 + S (length l2)) (<[length l1 := x]> (l1 ++ bump (-1) e :: l2 ++ [x])) = l1 ++ x :: l2) as Et.
      { rewrite insert_app_r_alt, Nat.sub_diag by done. cbn [insert list_insert]. rewrite take_app.
        rewrite take_ge by lia. replace (length l1 + S (length l2) - length l1) with (S (length l2)) by lia. cbn. by rewrite take_app_length. }
      rewrite Et. rewrite (proj2 (Nat.eqb_neq (length l1) (length l1 + S (length l2)))) by lia.
      split; [by eapply decrement_moved|]. apply Hgone; [by eapply decrement_moved|]. cbn [entries]. apply Permutation_app_head, Permutation_cons_append.
Qed.

(** ** The counters of the index *)

(** One field with other targets. *)
Definition upd (ft : relationHolderField -> list nodeKey) (f : relationHolderField) (ts : list nodeKey) : relationHolderField -> list nodeKey :=
  fun g => if decide (g = f) then ts else ft g.

Lemma no_counts_wf : counts_wf no_counts.
Proof. split; [constructor|constructor|done]. Qed.

Lemma counts_match_ext inc ft ft' : (forall f, ft f = ft' f) -> counts_match inc ft -> counts_match inc ft'.
Proof. intros Hf H tgt. destruct (H tgt) as [H1 H2]. split; [done|]. intros f. by rewrite <- Hf. Qed.

Lemma counts_match_empty ft : (forall f, ft f = []) -> counts_match ∅ ft.
Proof. intros Hf tgt. rewrite lookup_empty. split; [apply no_counts_wf|]. intros f. by rewrite Hf. Qed.

Lemma refs_to_app tgt l1 l2 : refs_to tgt (l1 ++ l2) = refs_to tgt l1 + refs_to tgt l2.
Proof. unfold refs_to. by rewrite filter_app, length_app. Qed.
Lemma refs_to_cons tgt t l : refs_to tgt (t :: l) = (if decide (t = tgt) then 1 else 0) + refs_to tgt l.
Proof. unfold refs_to. rewrite filter_cons. by destruct (decide (t = tgt)). Qed.
Lemma refs_to_elem tgt l : tgt ∈ l <-> 0 < refs_to tgt l.
Proof.
  induction l as [|t l IH]; [split; [intros H; by apply elem_of_nil in H|cbn; lia]|].
  rewrite refs_to_cons, elem_of_cons. destruct (decide (t = tgt)) as [->|Hne]; [split; [lia|by left]|]. rewrite IH. split; [intros [?|?]; [congruence|lia]|intros; right; lia].
Qed.

Lemma counts_increment inc ft tgt f : counts_match inc ft ->
  counts_match (<[tgt := increment (default no_counts (inc !! tgt)) f]> inc) (upd ft f (ft f ++ [tgt])).
Proof.
  intros H t. destruct (H tgt) as [Hc Hn]. destruct (decide (t = tgt)) as [->|Hne].
  - rewrite lookup_insert_eq. cbn [default from_option id]. split; [by apply increment_spec|]. intros g. rewrite increment_count by done. unfold upd.
    destruct (decide (g = f)) as [->|]; [|apply Hn]. rewrite Hn, refs_to_app, refs_to_cons, decide_True by done. cbn. lia.
  - rewrite lookup_insert_ne by done. destruct (H t) as [Hc' Hn']. split; [done|]. intros g. rewrite Hn'. unfold upd.
    destruct (decide (g = f)) as [->|]; [|done]. rewrite refs_to_app, refs_to_cons, decide_False by done. cbn. lia.
Qed.

Lemma counts_decrement x ft tgt f rest : counts_match (x_incoming x) ft -> ft f = tgt :: rest ->
  exists inc, decrementIncoming x tgt f = Ok (with_incoming x inc) /\ counts_match inc (upd ft f rest).
Proof.
  intros H Hf. destruct (H tgt) as [Hc Hn]. unfold decrementIncoming. destruct (x_incoming x !! tgt) as [c|] eqn:Ec.
  2: { specialize (Hn f). rewrite Hf, refs_to_cons, decide_True in Hn by done. change (count_at no_counts f = Z.of_nat (1 + refs_to tgt rest)) in Hn.
       rewrite count_at_absent in Hn; [lia|apply no_counts_wf|apply not_elem_of_nil]. }
  cbn [default from_option id] in *. destruct (decrement_spec c f Hc) as (c' & -> & Hc' & Hn'). cbn. eexists. split; [reflexivity|].
  intros t. destruct (decide (t = tgt)) as [->|Hne].
  - rewrite lookup_insert_eq. split; [done|]. intros g. cbn [default from_option id]. rewrite Hn'. unfold upd.
    destruct (decide (g = f)) as [->|]; [|apply Hn]. rewrite Hn, Hf, refs_to_cons, decide_True by done. lia.
  - rewrite lookup_insert_ne by done. destruct (H t) as [Hct Hnt]. split; [done|]. intros g. rewrite Hnt. unfold upd.
    destruct (decide (g = f)) as [->|]; [|done]. by rewrite Hf, refs_to_cons, decide_False by done.
Qed.

Lemma with_incoming_twice x inc inc' : with_incoming (with_incoming x inc) inc' = with_incoming x inc'.
Proof. done. Qed.

(** Taking all the references of a field off the counters. *)
Lemma decrement_all x ft f ts rest : counts_match (x_incoming x) ft -> ft f = ts ++ rest ->
  exists inc, fold_outcome (fun x tgt => decrementIncoming x tgt f) x ts = Ok (with_incoming x inc) /\ counts_match inc (upd ft f rest).
Proof.
  revert x ft. induction ts as [|t ts IH]; intros x ft H Hf; cbn.
  - exists (x_incoming x). split; [by destruct x|]. eapply counts_match_ext; [|exact H]. intros g. unfold upd. by destruct (decide (g = f)) as [->|].
  - destruct (counts_decrement x ft t f (ts ++ rest) H Hf) as (inc & E & Hinc). rewrite E. cbn.
    destruct (IH (with_incoming x inc) _ Hinc) as (inc' & E' & H'); [by unfold upd; rewrite decide_True|].
    exists inc'. split; [done|]. eapply counts_match_ext; [|exact H']. intros g. unfold upd. by destruct (decide (g = f)).
Qed.

(** Counting the references of a field. *)
Lemma increment_all x ft f ts : counts_match (x_incoming x) ft ->
  exists inc, foldl (fun x tgt => incrementIncoming x tgt f) x ts = with_incoming x inc /\ counts_match inc (upd ft f (ft f ++ ts)).
Proof.
  revert x ft. induction ts as [|t ts IH]; intros x ft H; cbn.
  - exists (x_incoming x). split; [by destruct x|]. eapply counts_match_ext; [|exact H]. intros g. unfold upd.
    destruct (decide (g = f)) as [->|]; [by rewrite app_nil_r|done].
  - pose proof (counts_increment _ _ t f H) as H1. unfold incrementIncoming at 1.
    destruct (IH (with_incoming x (<[t := increment (default no_counts (x_incoming x !! t)) f]> (x_incoming x))) _ H1) as (inc & E & H').
    exists inc. split; [done|]. eapply counts_match_ext; [|exact H']. intros g. unfold upd.
    destruct (decide (g = f)) as [->|]; [|done]. rewrite decide_True by done. by rewrite <- app_assoc.
Qed.


(** ** The index of an accepted model *)

Section specs.
Context (types : typeEnv).

Lemma spec_unique t specs r r' : relationSpecs types t = Ok specs -> r ∈ specs -> r' ∈ specs -> fieldIndex r = fieldIndex r' -> r = r'.
Proof.
  unfold relationSpecs. destruct (types !! t) as [d|]; [|done]. intros E Hr Hr' Hi.
  destruct (parseFields_sound types t 0 _ _ _ E Hr) as (j & f & Hf & Hp), (parseFields_sound types t 0 _ _ _ E Hr') as (j' & f' & Hf' & Hp').
  pose proof (parseRelationField_sound _ _ _ _ _ Hp) as (_ & H1 & _).
  pose proof (parseRelationField_sound _ _ _ _ _ Hp') as (_ & H2 & _).
  assert (j = j') as <- by lia. congruence.
Qed.

Lemma spec_at_intro f specs r : relationSpecs types (key_typ (hf_holder f)) = Ok specs -> r ∈ specs -> fieldIndex r = hf_field f ->
  spec_at types f = Some r.
Proof.
  intros Hs Hr Hi. unfold spec_at. rewrite Hs. destruct (list_find_elem_of (fun r => fieldIndex r = hf_field f) specs r Hr Hi) as [[i r'] E].
  rewrite E. cbn. f_equal. apply list_find_Some in E as (E1 & E2 & _). eapply spec_unique; [exact Hs|by eapply list_elem_of_lookup_2|done|congruence].
Qed.

Lemma spec_at_elim f r : spec_at types f = Some r -> exists specs, relationSpecs types (key_typ (hf_holder f)) = Ok specs /\ r ∈ specs /\ fieldIndex r = hf_field f.
Proof.
  unfold spec_at. destruct (relationSpecs types (key_typ (hf_holder f))) as [specs| |]; [|done..].
  intros ([i r'] & E & ->)%fmap_Some. apply list_find_Some in E as (E1 & E2 & _). exists specs. split_and!; [done|by eapply list_elem_of_lookup_2|done].
Qed.
End specs.

(** A to-one field is scanned for at most one reference. *)

Definition ref_field (ref : resolvedRelation) : relationHolderField := {| hf_holder := r_holder ref; hf_field := fieldIndex (r_spec ref) |}.
Definition refs_of (f : relationHolderField) (l : list resolvedRelation) : list resolvedRelation := filter (fun ref => ref_field ref = f) l.

Section to_one.
Context (types : typeEnv) `{!MapOrder nodeKey} `{!MapOrder string} (heap : gmap loc goval) (ts : gmap relationTargetKey indexedRelationTarget).

Lemma parseFields_nodup own i fs specs : parseFields types own i fs = Ok specs ->
  NoDup (fieldIndex <$> specs) /\ forall r, r ∈ specs -> i <= fieldIndex r.
Proof.
  revert i specs. induction fs as [|f fs IH]; intros i specs E; cbn in E.
  { injection E as <-. split; [constructor|]. intros r Hr. by apply elem_of_nil in Hr. }
  bind_ok E. bind_ok E. destruct (IH _ _ E1) as [H1 H2].
  destruct v as [spec|]; injection E as <-; [|split; [done|]; intros r Hr; specialize (H2 r Hr); lia].
  pose proof (parseRelationField_sound _ _ _ _ _ E0) as (_ & Hi & _). split.
  - cbn. apply NoDup_cons. split; [|done]. intros (r & Er & Hr)%list_elem_of_fmap. specialize (H2 r Hr). lia.
  - intros r [->|Hr]%elem_of_cons; [lia|]. specialize (H2 r Hr). lia.
Qed.

Lemma relationSpecs_nodup t specs : relationSpecs types t = Ok specs -> NoDup (fieldIndex <$> specs).
Proof. unfold relationSpecs. destruct (types !! t); [|done]. intros E. by apply parseFields_nodup in E as [? _]. Qed.

(** What a scan appends. *)
Definition appends (s s' : scan) (l : list resolvedRelation) : Prop := s_refs s' = s_refs s ++ l.

Lemma scanRelationPointer_appends holder r st v st' : scanRelationPointer types heap ts holder r st v = Ok st' ->
  exists l, appends st.1 st'.1 l /\ length l <= 1 /\ forall ref, ref ∈ l -> r_holder ref = holder /\ r_spec ref = r.
Proof.
  unfold scanRelationPointer. intros E. bind_ok E. destruct v0 as [tgt|].
  - destruct (_ && _); [done|]. injection E as <-. exists [{| r_holder := holder; r_target := tgt; r_spec := r |}]. split_and!; [done..|].
    by intros ref ->%list_elem_of_singleton.
  - injection E as <-. exists []. split_and!; [by unfold appends; rewrite app_nil_r|cbn; lia|]. intros ref Hr. by apply elem_of_nil in Hr.
Qed.

Lemma scanRelationField_appends holder l0 s r s' : scanRelationField types heap ts holder l0 s r = Ok s' ->
  exists l, appends s s' l /\ (many r = false -> length l <= 1) /\ forall ref, ref ∈ l -> r_holder ref = holder /\ r_spec ref = r.
Proof.
  unfold scanRelationField. destruct (node_field heap l0 (fieldIndex r)) as [field|]; [|done].
  destruct (many r) eqn:Hm; cbn [negb].
  - intros E. bind_ok E. injection E as <-. revert E0.
    generalize (if bool_decide (kind r = ownRelation) then Some (∅ : gset nodeKey) else None). revert s v.
    induction (slice_elems field) as [|w ws IH]; intros s v seen E; cbn in E.
    + injection E as <-. exists []. split_and!; [by unfold appends; rewrite app_nil_r|done|]. intros ref Hr. by apply elem_of_nil in Hr.
    + bind_ok E. destruct (scanRelationPointer_appends _ _ _ _ _ E0) as (l1 & A1 & _ & R1). destruct v0 as [s1 seen1].
      destruct (IH _ _ _ E) as (l2 & A2 & _ & R2). exists (l1 ++ l2). split_and!; [|done|].
      * unfold appends in *. cbn in A1. by rewrite A2, A1, app_assoc.
      * intros ref [Hr|Hr]%elem_of_app; auto.
  - intros E. bind_ok E. injection E as <-. destruct (scanRelationPointer_appends _ _ _ _ _ E0) as (l1 & A1 & L1 & R1). by exists l1.
Qed.

Lemma refs_of_app f l1 l2 : refs_of f (l1 ++ l2) = refs_of f l1 ++ refs_of f l2.
Proof. apply filter_app. Qed.
Lemma refs_of_none f l : (forall ref, ref ∈ l -> ref_field ref <> f) -> refs_of f l = [].
Proof.
  intros H. unfold refs_of. induction l as [|a l IH]; [done|]. rewrite filter_cons_False by (apply H; left). apply IH. intros r Hr. apply H. by right.
Qed.
Lemma refs_of_length f l : length (refs_of f l) <= length l.
Proof. apply length_filter. Qed.

Lemma scan_specs_appends holder l0 (sp : list relationSpec) s s' : NoDup (fieldIndex <$> sp) ->
  fold_outcome (fun s r => when bool_decide (kind r = inverseRelation) => Ok s ;; scanRelationField types heap ts holder l0 s r) s sp = Ok s' ->
  exists l, appends s s' l /\ (forall ref, ref ∈ l -> r_holder ref = holder /\ r_spec ref ∈ sp) /\
    forall f, (forall r, r ∈ sp -> fieldIndex r = hf_field f -> many r = false) -> length (refs_of f l) <= 1.
Proof.
  revert s. induction sp as [|r sp IH]; intros s Hnd E; cbn in E.
  - injection E as <-. exists []. split_and!; [by unfold appends; rewrite app_nil_r| |cbn; lia]. intros ref Hr. by apply elem_of_nil in Hr.
  - cbn in Hnd. apply NoDup_cons in Hnd as [Hr Hnd]. bind_ok E. destruct (IH _ Hnd E) as (l2 & A2 & R2 & L2).
    assert (exists l1, appends s v l1 /\ (many r = false -> length l1 <= 1) /\ forall ref, ref ∈ l1 -> r_holder ref = holder /\ r_spec ref = r) as (l1 & A1 & L1 & R1).
    { case_bool_decide; [|by eapply scanRelationField_appends]. injection E0 as <-. exists [].
      split_and!; [by unfold appends; rewrite app_nil_r|cbn; lia|]. intros ref Hin. by apply elem_of_nil in Hin. }
    exists (l1 ++ l2). split_and!.
    + unfold appends in *. by rewrite A2, A1, app_assoc.
    + intros ref [Hin|Hin]%elem_of_app; [apply R1 in Hin as [? ->]; split; [done|left]|apply R2 in Hin as [? ?]; split; [done|by right]].
    + intros f Hf. rewrite refs_of_app, length_app. destruct (decide (fieldIndex r = hf_field f)) as [Ei|Ei].
      * rewrite (refs_of_none f l2); [cbn; pose proof (refs_of_length f l1); specialize (L1 (Hf r ltac:(left) Ei)); lia|].
        intros ref [_ Hin]%R2 Ef. apply Hr. rewrite Ei, <- Ef. exact (list_elem_of_fmap_2 fieldIndex _ _ Hin).
      * rewrite (refs_of_none f l1); [cbn; apply L2; intros r' Hr'; apply Hf; by right|].
        intros ref [_ <-]%R1 Ef. apply Ei. by rewrite <- Ef.
Qed.

Lemma scan_nodes_appends (ps : list (nodeKey * loc)) s s' : NoDup ps.*1 -> fold_outcome (scanNodeRelations types heap ts) s ps = Ok s' ->
  exists l, appends s s' l /\ (forall ref, ref ∈ l -> r_holder ref ∈ ps.*1) /\
    forall f r, spec_at types f = Some r -> many r = false -> length (refs_of f l) <= 1.
Proof.
  revert s. induction ps as [|p ps IH]; intros s Hnd E; cbn in E.
  - injection E as <-. exists []. split_and!; [by unfold appends; rewrite app_nil_r| |cbn; lia]. intros ref Hr. by apply elem_of_nil in Hr.
  - cbn in Hnd. apply NoDup_cons in Hnd as [Hp Hnd]. bind_ok E. destruct (IH _ Hnd E) as (l2 & A2 & R2 & L2).
    unfold scanNodeRelations in E0. bind_ok E0. rename v0 into specs.
    destruct (scan_specs_appends p.1 p.2 specs s v (relationSpecs_nodup _ _ E1) E0) as (l1 & A1 & R1 & L1).
    exists (l1 ++ l2). split_and!.
    + unfold appends in *. by rewrite A2, A1, app_assoc.
    + intros ref [[-> _]%R1|Hin%R2]%elem_of_app; [left|by right].
    + intros f r Hs Hm. rewrite refs_of_app, length_app. destruct (decide (hf_holder f = p.1)) as [Eh|Eh].
      * rewrite (refs_of_none f l2); [cbn; rewrite Nat.add_0_r; apply L1|].
        -- intros r' Hr' Hi. rewrite (spec_at_intro types f specs r') in Hs; [by injection Hs as ->|by rewrite Eh|done..].
        -- intros ref Hin%R2 Ef. apply Hp. rewrite <- Eh, <- Ef. exact Hin.
      * rewrite (refs_of_none f l1); [cbn; by eapply L2|]. intros ref [Hh _]%R1 Ef. apply Eh. by rewrite <- Ef.
Qed.
End to_one.

Section index.
Context (types : typeEnv) `{!MapOrder nodeKey} `{!MapOrder string}.
Context (heap : gmap loc goval) (ns : gmap nodeKey loc) (m : relationModel).
Context (built : buildRelationModel types heap ns = Ok m).
Notation x := (buildCommittedRelationIndex types heap m ∅).

(** After the loop over the nodes: an empty field for every relation that is
    not the inverse side, and no counts. *)
Record fresh_fields (x : committedRelationIndex) (seen : list nodeKey) : Prop := {
  ff_fields : forall f fl, x_fields x !! f = Some fl -> hf_holder f ∈ seen /\ if_targets fl = [] /\ exists r, if_spec fl = Some r /\ spec_at types f = Some r;
  ff_all : forall k specs r, k ∈ seen -> relationSpecs types (key_typ k) = Ok specs -> r ∈ specs -> kind r <> inverseRelation ->
    is_Some (x_fields x !! {| hf_holder := k; hf_field := fieldIndex r |});
}.

Lemma add_fields_spec (k : nodeKey) (sp specs : list relationSpec) (fs : gmap relationHolderField indexedRelationField) :
  relationSpecs types (key_typ k) = Ok specs -> sp ⊆ specs ->
  let fs' := foldl (fun fs r => if bool_decide (kind r = inverseRelation) then fs
    else <[{| hf_holder := k; hf_field := fieldIndex r |} := {| if_spec := Some r; if_targets := [] |}]> fs) fs sp in
  (forall f fl, fs' !! f = Some fl -> fs !! f = Some fl \/
    hf_holder f = k /\ if_targets fl = [] /\ exists r, if_spec fl = Some r /\ spec_at types f = Some r) /\
  (forall f, is_Some (fs !! f) -> is_Some (fs' !! f)) /\
  (forall r, r ∈ sp -> kind r <> inverseRelation -> is_Some (fs' !! {| hf_holder := k; hf_field := fieldIndex r |})).
Proof.
  intros Hs. revert fs. induction sp as [|r sp IH]; intros fs Hsub; cbn.
  - split_and!; [by left|done|]. intros r Hr. by apply elem_of_nil in Hr.
  - case_bool_decide as Hk.
    + destruct (IH fs) as (H1 & H2 & H3); [set_solver|]. split_and!; [done..|]. intros r' [->|Hr]%elem_of_cons Hr'; [done|by apply H3].
    + destruct (IH (<[{| hf_holder := k; hf_field := fieldIndex r |} := {| if_spec := Some r; if_targets := [] |}]> fs)) as (H1 & H2 & H3); [set_solver|].
      split_and!.
      * intros f fl Hf. apply H1 in Hf as [Hf|Hf]; [|by right]. apply lookup_insert_Some in Hf as [[<- <-]|[_ Hf]]; [right|by left].
        split_and!; [done..|]. exists r. split; [done|]. eapply spec_at_intro; [exact Hs|set_solver|done].
      * intros f Hf. apply H2, lookup_insert_is_Some'. by right.
      * intros r' [->|Hr]%elem_of_cons Hr'; [|by apply H3]. apply H2. rewrite lookup_insert_eq. by eexists.
Qed.

(** What the node loop leaves alone. *)
Definition same_nodes (x x' : committedRelationIndex) : Prop :=
  x_nodes x' = x_nodes x /\ x_targets x' = x_targets x /\ x_incoming x' = x_incoming x /\ x_owners x' = x_owners x.

Lemma index_node_fresh st p seen : fresh_fields st.1 seen -> 
  (exists specs, relationSpecs types (key_typ p.1) = Ok specs) ->
  fresh_fields (index_node_fields types st p).1 (seen ++ [p.1]) /\ same_nodes st.1 (index_node_fields types st p).1.
Proof.
  intros [H1 H2] [specs Hs]. unfold index_node_fields. destruct st as [y visited]. cbn [fst] in *. rewrite Hs.
  destruct (add_fields_spec p.1 specs specs (x_fields y) Hs) as (A1 & A2 & A3); [done|].
  set (fs := foldl _ (x_fields y) specs) in *.
  assert (forall z, x_fields z = fs -> fresh_fields z (seen ++ [p.1])) as Hz.
  { intros z Ez. split; rewrite Ez.
    - intros f fl Hf. apply A1 in Hf as [Hf|(Hh & Ht & Hr)].
      + destruct (H1 f fl Hf) as (Hin & Ht & Hr). split_and!; [set_solver|done..].
      + split_and!; [set_solver|done..].
    - intros k sp r [Hk| ->%list_elem_of_singleton]%elem_of_app Hsp Hr Hne; [by eapply A2, H2|].
      rewrite Hs in Hsp. injection Hsp as <-. by apply A3. }
  destruct (bool_decide (key_typ p.1 ∈ visited)); cbn [fst]; (split; [by apply Hz|done]).
Qed.

Lemma index_nodes_fresh (ps : list (nodeKey * loc)) st seen : fresh_fields st.1 seen ->
  (forall p, p ∈ ps -> exists specs, relationSpecs types (key_typ p.1) = Ok specs) ->
  fresh_fields (foldl (index_node_fields types) st ps).1 (seen ++ ps.*1) /\ same_nodes st.1 (foldl (index_node_fields types) st ps).1.
Proof.
  revert st seen. induction ps as [|p ps IH]; intros st seen Hf Hp; cbn; [by rewrite app_nil_r|].
  destruct (index_node_fresh st p seen Hf (Hp p ltac:(left))) as [H1 H2].
  destruct (IH _ _ H1) as [H3 H4]; [intros q Hq; apply Hp; by right|]. rewrite <- app_assoc in H3. split; [done|].
  destruct H2 as (? & ? & ? & ?), H4 as (? & ? & ? & ?). repeat split; congruence.
Qed.

(** After the loop over the references [l]. *)
Record indexed (y : committedRelationIndex) (seen : list nodeKey) (l : list resolvedRelation) (x : committedRelationIndex) : Prop := {
  ix_counts : counts_match (x_incoming x) (targets_of x);
  ix_targets : forall f, targets_of x f = r_target <$> refs_of f l;
  ix_fields : forall f fl, x_fields x !! f = Some fl -> hf_holder f ∈ seen /\ exists r, if_spec fl = Some r /\ spec_at types f = Some r;
  ix_all : forall f, is_Some (x_fields y !! f) -> is_Some (x_fields x !! f);
  ix_same : x_nodes x = x_nodes y /\ x_targets x = x_targets y /\ x_owners x = x_owners y;
}.

Lemma index_ref_indexed y seen l x ref : indexed y seen l x -> is_Some (x_fields y !! ref_field ref) ->
  indexed y seen (l ++ [ref]) (index_ref ∅ x ref).
Proof.
  intros [H1 H2 H3 H4 H5] Hf. unfold index_ref. rewrite !bool_decide_false by set_solver. cbn [orb].
  change {| hf_holder := r_holder ref; hf_field := fieldIndex (r_spec ref) |} with (ref_field ref).
  destruct (H4 _ Hf) as [fl Efl]. rewrite Efl. cbn [default from_option id].
  assert (forall f, targets_of (incrementIncoming (with_fields x (<[ref_field ref := {| if_spec := if_spec fl; if_targets := if_targets fl ++ [r_target ref] |}]> (x_fields x))) (r_target ref) (ref_field ref)) f
    = upd (targets_of x) (ref_field ref) (targets_of x (ref_field ref) ++ [r_target ref]) f) as Et.
  { intros f. unfold targets_of, upd. cbn. rewrite Efl. destruct (decide (f = ref_field ref)) as [->|Hne]; [by rewrite lookup_insert_eq|by rewrite lookup_insert_ne]. }
  split.
  - eapply counts_match_ext; [intros f; symmetry; apply Et|]. by apply counts_increment.
  - intros f. rewrite Et. unfold upd, refs_of. rewrite filter_app, fmap_app, filter_cons, filter_nil.
    destruct (decide (f = ref_field ref)) as [->|Hne]; [by rewrite decide_True, H2|rewrite decide_False by done; cbn; by rewrite app_nil_r, H2].
  - intros f fl' Hl. cbn in Hl. apply lookup_insert_Some in Hl as [[<- <-]|[_ Hl]]; [|by apply H3]. cbn. exact (H3 _ _ Efl).
  - intros f Hy. cbn. rewrite lookup_insert_is_Some'. right. by apply H4.
  - done.
Qed.

Lemma index_refs_indexed y seen l x l' : indexed y seen l x -> (forall ref, ref ∈ l' -> is_Some (x_fields y !! ref_field ref)) ->
  indexed y seen (l ++ l') (foldl (index_ref ∅) x l').
Proof.
  revert l x. induction l' as [|ref l' IH]; intros l x Hx Hl; cbn; [by rewrite app_nil_r|].
  assert (l ++ ref :: l' = (l ++ [ref]) ++ l') as -> by (by rewrite <- app_assoc). apply IH; [|intros r Hr; apply Hl; by right].
  apply index_ref_indexed; [done|]. apply Hl. left.
Qed.

Lemma built_to_one f r : spec_at types f = Some r -> many r = false -> length (refs_of f (refs m)) <= 1.
Proof.
  intros Hs Hm. pose proof built as E. unfold buildRelationModel in E. bind_ok E. unfold buildRelationModelFromTargets in E.
  bind_ok E. bind_ok E. bind_ok E. injection E as Em.
  destruct (scan_nodes_appends types heap _ _ _ _ (map_range_nodup ns) E1) as (l & A & _ & L). unfold appends in A. cbn in A.
  assert (refs m = l) as -> by (rewrite <- Em; exact A). by eapply L.
Qed.

Lemma built_targets k t : targets m !! k = Some t -> it_key t ∈ dom ns.
Proof.
  intros Ht. pose proof built as E. unfold buildRelationModel in E. bind_ok E. rename v into fs. unfold buildRelationModelFromTargets in E.
  bind_ok E. bind_ok E. bind_ok E. injection E as Em.
  assert (targets m = buildRelationTargetIndexFromFields types heap ns fs) as Et by (by rewrite <- Em).
  rewrite Et, index_as_loop, add_targets_lookup in Ht.
  destruct (filter (fun e => e.1 = k) (target_entries types heap ns fs)) as [|e rest] eqn:Ef; [done|]. injection Ht as <-. cbn.
  assert (e ∈ target_entries types heap ns fs) as He.
  { assert (e ∈ filter (fun e => e.1 = k) (target_entries types heap ns fs)) as H by (rewrite Ef; left). by apply list_elem_of_filter in H as [_ ?]. }
  unfold target_entries in He. apply list_elem_of_bind in He as ([key l] & He & Hp). apply list_elem_of_omap in He as (f & _ & He).
  apply target_entry_Some in He as [-> _]. cbn. apply elem_of_dom. exists l. by apply map_range_elem.
Qed.

Lemma ref_spec_at ref : ref ∈ refs m -> ref_field ref = ref_field ref /\ spec_at types (ref_field ref) = Some (r_spec ref) /\
  is_Some (ns !! r_holder ref) /\ is_Some (ns !! r_target ref) /\ kind (r_spec ref) <> inverseRelation.
Proof.
  intros Hr. split; [done|]. destruct (edge_nodes types heap ns m built ref Hr) as [H1 H2]. rewrite elem_of_dom in H1, H2.
  apply (proj1 (build_scan types heap ns m built)) in Hr as (l & specs & v & Hl & Hs & Hin & Hk & _).
  split_and!; [|done..]. by eapply spec_at_intro.
Qed.

Lemma built_known p : p ∈ map_range ns -> exists specs, relationSpecs types (key_typ p.1) = Ok specs.
Proof.
  intros Hp. pose proof built as E. unfold buildRelationModel in E. bind_ok E. unfold buildRelationModelFromTargets in E. bind_ok E.
  clear -E1 Hp. revert E1. generalize empty_scan. induction (map_range ns) as [|q ps IH]; intros s0 E; [by apply elem_of_nil in Hp|].
  cbn in E. bind_ok E. apply elem_of_cons in Hp as [->|Hp]; [|by eapply IH]. unfold scanNodeRelations in E0. bind_ok E0. by eexists.
Qed.

Lemma published_indexed : indexed x (map_range ns).*1 (refs m) x /\ x_nodes x = ns /\ x_targets x = targets m /\ x_owners x = owners m.
Proof.
  destruct (build_owners types heap ns m built) as (Hn & _).
  set (y0 := {| x_nodes := ns; x_targets := targets m; x_targetFields := targetFields m; backFields := ∅; x_fields := ∅; x_incoming := ∅; x_owners := ∅ |}).
  destruct (index_nodes_fresh (map_range ns) (y0, ∅) []) as [Hf (S1 & S2 & S3 & S4)].
  { split; [intros f fl Hf; cbn in Hf; by rewrite lookup_empty in Hf|intros k ? ? Hk; by apply elem_of_nil in Hk]. }
  { apply built_known. }
  set (y := (foldl (index_node_fields types) (y0, ∅) (map_range ns)).1) in *. cbn in Hf.
  assert (indexed y (map_range ns).*1 [] y) as Hy.
  { split.
    - rewrite S3. apply counts_match_empty. intros f. unfold targets_of. destruct (x_fields y !! f) as [fl|] eqn:E; [|done].
      by destruct (ff_fields _ _ Hf f fl E) as (_ & -> & _).
    - intros f. unfold targets_of. destruct (x_fields y !! f) as [fl|] eqn:E; [|done]. by destruct (ff_fields _ _ Hf f fl E) as (_ & -> & _).
    - intros f fl E. destruct (ff_fields _ _ Hf f fl E) as (? & _ & r & ? & ?). split; [done|by exists r].
    - done.
    - done. }
  assert (forall ref, ref ∈ refs m -> is_Some (x_fields y !! ref_field ref)) as Hall.
  { intros ref Hr. destruct (edge_nodes types heap ns m built ref Hr) as [[l0 Hh]%elem_of_dom _].
    pose proof Hr as Hr'. apply (proj1 (build_scan types heap ns m built)) in Hr' as (l & specs & v & Hl & Hs & Hin & Hk & _).
    eapply (ff_all _ _ Hf); [|exact Hs|exact Hin|exact Hk]. apply (list_elem_of_fmap_2 fst (map_range ns) (r_holder ref, l)). by apply map_range_elem. }
  pose proof (index_refs_indexed _ _ _ _ _ Hy Hall) as Hx. cbn in Hx.
  assert (x = {| x_nodes := x_nodes (foldl (index_ref ∅) y (refs m)); x_targets := x_targets (foldl (index_ref ∅) y (refs m));
     x_targetFields := x_targetFields (foldl (index_ref ∅) y (refs m)); backFields := backFields (foldl (index_ref ∅) y (refs m));
     x_fields := x_fields (foldl (index_ref ∅) y (refs m)); x_incoming := x_incoming (foldl (index_ref ∅) y (refs m));
     x_owners := filter (fun p => p.1 ∉ (∅ : gset nodeKey) /\ p.2 ∉ (∅ : gset nodeKey)) (owners m) |}) as Ex.
  { unfold buildCommittedRelationIndex. rewrite bool_decide_true by done. unfold indexRelationFields. by rewrite Hn. }
  rewrite Ex. cbn. destruct Hx as [H1 H2 H3 H4 (H5 & H6 & H7)]. split_and!.
  - by split.
  - rewrite H5. exact S1.
  - rewrite H6. exact S2.
  - apply map_filter_id. intros k o _. cbn. set_solver.
Qed.

Lemma published_targets f c : c ∈ targets_of x f <-> exists ref, ref ∈ refs m /\ ref_field ref = f /\ r_target ref = c.
Proof.
  destruct published_indexed as [[_ Ht _ _ _] _]. rewrite Ht, list_elem_of_fmap. unfold refs_of. setoid_rewrite list_elem_of_filter. naive_solver.
Qed.

Lemma published_own f c : own_edge types (targets_of x) f c <->
  exists ref, ref ∈ refs m /\ ref_field ref = f /\ r_target ref = c /\ kind (r_spec ref) = ownRelation.
Proof.
  unfold own_edge. rewrite published_targets. split.
  - intros (Hk & ref & Hr & Hf & Hc). exists ref. split_and!; [done..|]. destruct (ref_spec_at ref Hr) as (_ & Hs & _).
    rewrite <- Hf, Hs in Hk. by injection Hk.
  - intros (ref & Hr & Hf & Hc & Hk). split; [|by exists ref]. destruct (ref_spec_at ref Hr) as (_ & Hs & _). rewrite <- Hf, Hs. cbn. by rewrite Hk.
Qed.

(** Registration allows one ownedby field per type. *)
Context (one_ownedBy : forall t specs, relationSpecs types t = Ok specs -> countRelationKind specs ownedByRelation <= 1).

Lemma published_back c o : back_of types (targets_of x) c = Some o <->
  exists ref, ref ∈ refs m /\ kind (r_spec ref) = ownedByRelation /\ r_holder ref = c /\ r_target ref = o.
Proof.
  destruct published_indexed as [[_ Ht _ _ _] _]. unfold back_of. split.
  - destruct (relationSpecs types (key_typ c)) as [specs| |] eqn:Es; [|done..]. intros Hh.
    apply head_Some_elem_of in Hh. apply list_elem_of_omap in Hh as (r & Hr & Hb).
    unfold back_target in Hb. destruct (bool_decide_reflect (kind r = ownedByRelation)) as [Hk|]; [|done].
    destruct (targets_of x {| hf_holder := c; hf_field := fieldIndex r |}) as [|o' [|]] eqn:Eo; try done. injection Hb as ->.
    assert (o ∈ targets_of x {| hf_holder := c; hf_field := fieldIndex r |}) as Ho by (rewrite Eo; left).
    apply published_targets in Ho as (ref & Hin & Hf & Hto). exists ref. destruct (ref_spec_at ref Hin) as (_ & Hs & _).
    rewrite Hf in Hs. rewrite (spec_at_intro types {| hf_holder := c; hf_field := fieldIndex r |} specs r Es Hr eq_refl) in Hs. injection Hs as Hs. injection Hf as Hh _. by rewrite <- Hs.
  - intros (ref & Hr & Hk & Hh & Hto). pose proof Hr as Hr'.
    apply (proj1 (build_scan types heap ns m built)) in Hr' as (l & specs & v & Hl & Hs & Hin & _). rewrite <- Hh, Hs.
    destruct (head (omap (back_target (targets_of x) (r_holder ref)) specs)) as [o'|] eqn:Eh.
    + apply head_Some_elem_of in Eh. apply list_elem_of_omap in Eh as (r & Hr' & Hb).
      unfold back_target in Hb. destruct (bool_decide_reflect (kind r = ownedByRelation)) as [Hk'|]; [|done].
      assert (r = r_spec ref) as -> by (eapply countRelationKind_unique; [by eapply one_ownedBy|done..]).
      destruct (targets_of x {| hf_holder := r_holder ref; hf_field := fieldIndex (r_spec ref) |}) as [|o2 [|]] eqn:Eo; try done. injection Hb as ->.
      assert (r_target ref ∈ targets_of x (ref_field ref)) as Ho by (apply published_targets; by exists ref).
      unfold ref_field in Ho. rewrite Eo in Ho. apply list_elem_of_singleton in Ho. congruence.
    + exfalso. apply head_None in Eh. assert (o ∈ omap (back_target (targets_of x) (r_holder ref)) specs) as Hn; [|rewrite Eh in Hn; by apply elem_of_nil in Hn].
      apply list_elem_of_omap. exists (r_spec ref). split; [done|]. unfold back_target. rewrite bool_decide_true by done.
      change {| hf_holder := r_holder ref; hf_field := fieldIndex (r_spec ref) |} with (ref_field ref).
      destruct (ref_spec_at ref Hr) as (_ & Hsp & _).
      pose proof (built_to_one _ _ Hsp (ownedBy_to_one _ _ _ _ Hs Hin Hk)) as Hlen. rewrite Ht.
      assert (ref ∈ refs_of (ref_field ref) (refs m)) as Hmem by (by apply list_elem_of_filter).
      destruct (refs_of (ref_field ref) (refs m)) as [|a [|b l']]; [by apply elem_of_nil in Hmem| |cbn in Hlen; lia].
      apply list_elem_of_singleton in Hmem as <-. cbn. by rewrite Hto.
Qed.

Lemma published_sole c f f' : own_edge types (targets_of x) f c -> own_edge types (targets_of x) f' c -> f = f' /\ refs_to c (targets_of x f) = 1.
Proof.
  intros Hf Hf'. pose proof (buildRelationModel_model_ok types heap ns m built) as Hm. pose proof Hf as Hf0.
  apply published_own in Hf as (ref & Hr & <- & Hc & Hk), Hf' as (ref' & Hr' & <- & Hc' & Hk').
  assert (ref = ref') as <- by (eapply (one_own _ _ _ _ Hm); [done..|congruence]). split; [done|].
  destruct published_indexed as [[_ Ht _ _ _] _]. rewrite Ht.
  destruct (build_owners types heap ns m built) as (_ & Hof & _).
  pose proof (of_single _ _ _ Hof c) as Hone. rewrite <- Hc in Hone. specialize (Hone (proj2 (edge_nodes types heap ns m built ref Hr))).
  assert (0 < refs_to c (r_target <$> refs_of (ref_field ref) (refs m))) as Hpos.
  { apply refs_to_elem, list_elem_of_fmap. exists ref. split; [done|]. by apply list_elem_of_filter. }
  assert (refs_to c (r_target <$> refs_of (ref_field ref) (refs m)) <= length (filter (fun ref => kind (r_spec ref) = ownRelation /\ r_target ref = c) (refs m))) as Hle; [|rewrite Hc in Hone; lia].
  assert (forall ref', ref' ∈ refs m -> ref_field ref' = ref_field ref -> kind (r_spec ref') = ownRelation) as Hkind.
  { intros ref' H1 H2. destruct (ref_spec_at ref' H1) as (_ & Hs' & _), (ref_spec_at ref Hr) as (_ & Hs & _).
    rewrite H2, Hs in Hs'. injection Hs' as <-. done. }
  clear -Hkind. unfold refs_of. induction (refs m) as [|a l IH]; [done|]. specialize (IH ltac:(intros r Hr; apply Hkind; by right)).
  rewrite !filter_cons. destruct (decide (ref_field a = ref_field ref)) as [Ea|Ea].
  - cbn [fmap list_fmap]. rewrite refs_to_cons. specialize (Hkind a ltac:(left) Ea).
    destruct (decide (r_target a = c)); [rewrite decide_True by done; cbn; unfold fmap in *; lia|rewrite decide_False by naive_solver; cbn; unfold fmap in *; lia].
  - destruct (decide (kind (r_spec a) = ownRelation /\ r_target a = c)); cbn; unfold fmap in *; lia.
Qed.

(** What is published of an accepted graph, with nothing deleted. *)
Lemma published_graph_ok : graph_ok types x (c_outgoing (storeCommittedOwnership types heap m ∅)).
Proof.
  pose proof (buildRelationModel_model_ok types heap ns m built) as Hm.
  destruct published_indexed as [[H1 H2 H3 H4 H5] (En & Et & Eo)].
  assert (forall ref, ref ∈ refs m -> kind (r_spec ref) = ownedByRelation -> owners m !! r_holder ref = Some (r_target ref)) as Hback.
  { intros ref Hr Hk. eapply ownedBy_owner; [exact one_ownedBy|intros ? ? ? ? ? ?; by eapply ownedBy_to_one|exact Hm|done|done]. }
  split.
  - exact H1.
  - intros f fl Hf. destruct (H3 f fl Hf) as (_ & r & E & Hs). rewrite E. split; [intros r' [= <-]; done|done].
  - intros f fl Hf. destruct (H3 f fl Hf) as (Hh & _). rewrite En. split.
    + apply list_elem_of_fmap in Hh as ([k l] & -> & Hk%map_range_elem). apply elem_of_dom. by exists l.
    + intros c Hc. assert (c ∈ targets_of x f) as Hct by (unfold targets_of; by rewrite Hf).
      apply published_targets in Hct as (ref & Hr & _ & <-). by apply (edge_nodes types heap ns m built).
  - intros k t. rewrite Et, En. apply built_targets.
  - intros c f f'. apply published_sole.
  - intros c f o Hf Hb. apply published_own in Hf as (ref & Hr & <- & Hc & Hk). apply published_back in Hb as (ref' & Hr' & Hk' & Hh' & <-).
    pose proof (own_owners _ _ _ _ Hm ref Hr Hk) as Ho. pose proof (Hback ref' Hr' Hk') as Ho'. rewrite Hc in Ho. rewrite Hh' in Ho'. cbn. congruence.
  - intros c o. rewrite Eo. unfold field_owner. split.
    + intros Ho. destruct (owners_edges _ _ _ _ Hm c o Ho) as (ref & Hr & [(Hk & Hh & Hc)|(Hk & Hh & Hc)]).
      * left. exists (ref_field ref). split; [|done]. apply published_own. by exists ref.
      * destruct (decide (Exists (fun ref => kind (r_spec ref) = ownRelation /\ r_target ref = c) (refs m))) as [He|Hn].
        -- left. apply Exists_exists in He as (ref' & Hr' & Hk' & Hc'). exists (ref_field ref'). split; [apply published_own; by exists ref'|].
           pose proof (own_owners _ _ _ _ Hm ref' Hr' Hk') as Ho'. rewrite Hc' in Ho'. cbn. congruence.
        -- right. split; [|apply published_back; by exists ref]. intros f (ref' & Hr' & _ & Hc' & Hk')%published_own.
           apply Hn, Exists_exists. by exists ref'.
    + intros [(f & Hf & Hh)|[_ Hb]].
      * apply published_own in Hf as (ref & Hr & <- & <- & Hk). rewrite (own_owners _ _ _ _ Hm ref Hr Hk). f_equal. exact Hh.
      * apply published_back in Hb as (ref & Hr & Hk & <- & <-). by apply Hback.
  - rewrite Eo. apply (owners_acyclic _ _ _ _ Hm).
  - intros c o. rewrite Eo. pose proof (published_owns types heap ns m ∅ Hm o c) as Hp. unfold committedChildren, owns in Hp. rewrite Hp. set_solver.
  - apply (published_nodup types heap ns m ∅ Hm).
  - rewrite En. intros k [l Hk]%elem_of_dom. apply (built_known (k, l)). by apply map_range_elem.
Qed.
End index.
