(* ===== verification/RelationDelta.v ===== *)
(** * Incremental commits of the relation graph (src/relation_index.go)

    A commit that only rewrites or creates entities does not rebuild the graph.
    [buildRelationIndexDeltaWithCreates] scans the fields of the touched
    entities against the published index and validates the ownership changes;
    [publishAndRewire] replaces those fields, their counts and the owners in
    place, and writes the pointers. [Ok None] is Go's [nil, nil]: the commit
    falls back to the full model. *)
From S2P Require Import Prelude GoReflect RelationSchema SchemaRows RelationModel RelationGraph CommittedGraph PublishedIndex Transaction.

(** ** Data *)

(** [None] is an absent owner ([hadBefore], [hasAfter]). *)
Record relationOwnerChange := { before : option nodeKey; after : option nodeKey }.
Record relationOwnerDelta := { od_child : nodeKey; change : relationOwnerChange }.
Record relationIndexOverride := { o_key : nodeKey; o_value : loc; o_specs : list relationSpec }.
Record relationIndexDelta := {
  d_index : committedRelationIndex;
  d_created : gmap nodeKey loc;
  d_targets : gmap relationTargetKey indexedRelationTarget;
  overrides : list relationIndexOverride;
  d_fields : relationFieldDeltas;
  ownerChanges : list relationOwnerDelta;
  ownerPositions : option (gmap nodeKey nat);
  inverseTargets : gset nodeKey;
}.

(** The entries of a [nodeKeySet], by the positions the loops visit. *)
Definition ks_count (ks : nodeKeySet) : nat := length (inline ks) + length (overflow ks).
Definition ks_keys (ks : nodeKeySet) : list nodeKey := omap (ks_at ks) (seq 0 (ks_count ks)).
Definition no_keys : nodeKeySet := {| inline := []; overflow := []; index_ := None |}.

Definition no_fields : relationFieldDeltas := {| values := []; fd_positions := None |}.
(** Appending to the targets of the entry [find] returns. *)
Definition fd_extend (fs : relationFieldDeltas) (key : relationHolderField) (ts : list nodeKey) : relationFieldDeltas :=
  let at_ := match fd_positions fs with
    | Some m => m !! key
    | None => fst <$> list_find (fun e => fd_key e = key) (values fs)
    end in
  match at_ with
  | None => fs
  | Some i => {| values := alter (fun e => {| fd_key := fd_key e;
      fd_field := {| if_spec := if_spec (fd_field e); if_targets := if_targets (fd_field e) ++ ts |} |}) i (values fs);
      fd_positions := fd_positions fs |}
  end.

(** A loop that may leave the function with [nil, nil]. *)
Fixpoint fold_until {S A} (f : S -> A -> outcome (option S)) (s : S) (l : list A) : outcome (option S) :=
  match l with
  | [] => Ok (Some s)
  | a :: l => r ← f s a; match r with None => Ok None | Some s => fold_until f s l end
  end.

Section delta.
Context (types : typeEnv) (GetId : goval -> Z) `{!MapOrder nodeKey} `{!MapOrder string}.
Implicit Types (heap : gmap loc goval) (x : committedRelationIndex).

(** ** Scanning the touched entities *)

Definition field_type (t : string) (i : nat) : option gotype := d ← types !! t; ftype <$> fields d !! i.

(** [FieldByName] panics through [relationFieldEqual] on a field the type does
    not have. *)
Definition named_field_changed heap (t name : string) (l l' : loc) : outcome bool :=
  match types !! t ≫= fun d => FieldByName d name with
  | None => Panic
  | Some (i, f) =>
      match node_field heap l i, node_field heap l' i with
      | Some a, Some b => Ok (negb (relationFieldEqual types heap (ftype f) a b))
      | _, _ => Panic
      end
  end.
Definition numbered_field_changed heap (t : string) (l l' : loc) (i : nat) : outcome bool :=
  match field_type t i, node_field heap l i, node_field heap l' i with
  | Some ft, Some a, Some b => Ok (negb (relationFieldEqual types heap ft a b))
  | _, _, _ => Panic
  end.
Fixpoint any_changed {A} (f : A -> outcome bool) (l : list A) : outcome bool :=
  match l with
  | [] => Ok false
  | a :: l => r ← f a; if (r : bool) then Ok true else any_changed f l
  end.

Definition relationIndexKeyChanged heap x (key : nodeKey) (after_ : loc) : outcome bool :=
  match x_nodes x !! key with
  | None => Panic
  | Some before_ =>
      changed ← any_changed (fun name => named_field_changed heap (key_typ key) name before_ after_)
        (set_range (default ∅ (x_targetFields x !! key_typ key)));
      if (changed : bool) then Ok true else
      any_changed (numbered_field_changed heap (key_typ key) before_ after_) (elements (default ∅ (backFields x !! key_typ key)))
  end.

Definition resource_node (r : touchedResource) : nodeKey := {| key_typ := dbName r; key_id := t_id r |}.

(** The loop over the resources. *)
Definition override_resource heap (opened : gset string) x (os : list relationIndexOverride) (r : touchedResource) :
    outcome (option (list relationIndexOverride)) :=
  when negb (bool_decide (dbName r ∈ opened)) => Ok None ;;
  when negb (bool_decide (is_Some (x_nodes x !! resource_node r))) => Ok None ;;
  changed ← relationIndexKeyChanged heap x (resource_node r) (t_work r);
  if (changed : bool) then Ok None else
  specs ← relationSpecs types (dbName r);
  Ok (Some (os ++ [{| o_key := resource_node r; o_value := t_work r; o_specs := specs |}])).

Definition created_type_indexed x (key : nodeKey) : outcome bool :=
  specs ← relationSpecs types (key_typ key);
  Ok (forallb (fun r => bool_decide (kind r = inverseRelation) ||
    bool_decide (graphMatchField r ∈ default ∅ (x_targetFields x !! target r))) specs).

Definition index_created_target heap x (ts : gmap relationTargetKey indexedRelationTarget) (key : nodeKey) (l : loc) (field : string) :
    outcome (gmap relationTargetKey indexedRelationTarget) :=
  match relationKey types heap (key_typ key) (VPointer (Some l)) field with
  | None => Ok ts
  | Some value =>
      let lookup := {| tk_typ := key_typ key; tk_field := field; tk_value := value |} in
      when bool_decide (is_Some (x_targets x !! lookup)) => Fail ErrRelationInvariant ;;
      when bool_decide (is_Some (ts !! lookup)) => Fail ErrRelationInvariant ;;
      Ok (<[lookup := {| it_key := key; it_duplicate := false |}]> ts)
  end.

(** [None]: not supported. *)
Definition indexCreatedTargets heap x (creates_ : gmap nodeKey loc) : outcome (option (gmap relationTargetKey indexedRelationTarget)) :=
  supported ← fold_until (fun _ p => indexed ← created_type_indexed x p.1; Ok (if indexed : bool then Some tt else None)) tt (map_range creates_);
  match supported with
  | None => Ok None
  | Some _ =>
      ts ← fold_outcome (fun ts p =>
        fold_outcome (fun ts field => index_created_target heap x ts p.1 p.2 field) ts
          (set_range (default ∅ (x_targetFields x !! key_typ p.1)))) ∅ (map_range creates_);
      Ok (Some ts)
  end.

(** The loop over the creates. *)
Definition override_created x (os : list relationIndexOverride) (p : nodeKey * loc) : outcome (option (list relationIndexOverride)) :=
  when bool_decide (is_Some (x_nodes x !! p.1)) => Ok None ;;
  specs ← relationSpecs types (key_typ p.1);
  Ok (Some (os ++ [{| o_key := p.1; o_value := p.2; o_specs := specs |}])).

Definition resolveIndexedRelationTarget heap (d : relationIndexDelta) (r : relationSpec) (pointer : goval) : outcome (option nodeKey) :=
  let absent := if relationMayBeMissing r then Ok None else Fail ErrRelationInvariant in
  match graphRelationTargetKey types heap r pointer with
  | None => absent
  | Some lookup =>
      match (match d_targets d !! lookup with Some t => Some t | None => x_targets (d_index d) !! lookup end) with
      | None => absent
      | Some t => if it_duplicate t then Fail ErrRelationInvariant else Ok (Some (it_key t))
      end
  end.

(** One element of a relation slice; [seen] is [None] for the nil map. *)
Definition scan_element heap (d : relationIndexDelta) (r : relationSpec) (st : list nodeKey * option (gset nodeKey)) (pointer : goval) :
    outcome (list nodeKey * option (gset nodeKey)) :=
  tgt ← resolveIndexedRelationTarget heap d r pointer;
  match tgt with
  | None => Ok st
  | Some t =>
      when bool_decide (t ∈ default ∅ st.2) => Fail ErrRelationInvariant ;;
      Ok (st.1 ++ [t], (fun seen => {[t]} ∪ seen) <$> st.2)
  end.

(** The targets it appends. *)
Definition scanIndexedRelationField heap (d : relationIndexDelta) (l : loc) (r : relationSpec) : outcome (list nodeKey) :=
  match node_field heap l (fieldIndex r) with
  | None => Panic
  | Some v =>
      if negb (many r) then tgt ← resolveIndexedRelationTarget heap d r v; Ok (match tgt with Some t => [t] | None => [] end)
      else
        let seen := if bool_decide (kind r = ownRelation) && (1 <? length (slice_elems v))%nat then Some ∅ else None in
        st ← fold_outcome (scan_element heap d r) ([], seen) (slice_elems v); Ok st.1
  end.

Definition with_delta_fields (d : relationIndexDelta) (fs : relationFieldDeltas) (inv : gset nodeKey) : relationIndexDelta :=
  {| d_index := d_index d; d_created := d_created d; d_targets := d_targets d; overrides := overrides d; d_fields := fs;
     ownerChanges := ownerChanges d; ownerPositions := ownerPositions d; inverseTargets := inv |}.

(** The loop over the specs of an override. *)
Definition scan_override_field heap (o : relationIndexOverride) (d : relationIndexDelta) (r : relationSpec) : outcome (option relationIndexDelta) :=
  when bool_decide (kind r = inverseRelation) => Ok (Some (with_delta_fields d (d_fields d) ({[o_key o]} ∪ inverseTargets d))) ;;
  let key := {| hf_holder := o_key o; hf_field := fieldIndex r |} in
  let committed := match x_fields (d_index d) !! key with
    | Some f => Some f
    | None => if bool_decide (is_Some (d_created d !! o_key o)) then Some {| if_spec := Some r; if_targets := [] |} else None
    end in
  match committed ≫= if_spec with
  | None => Ok None
  | Some _ =>
      let fs := fd_add (d_fields d) key {| if_spec := Some r; if_targets := [] |} in
      ts ← scanIndexedRelationField heap d (o_value o) r;
      Ok (Some (with_delta_fields d (fd_extend fs key ts) (inverseTargets d)))
  end.

(** ** Ownership *)

Definition setOwnerChange (d : relationIndexDelta) (child : nodeKey) (c : relationOwnerChange) : relationIndexDelta :=
  let with_changes cs ps :=
    {| d_index := d_index d; d_created := d_created d; d_targets := d_targets d; overrides := overrides d; d_fields := d_fields d;
       ownerChanges := cs; ownerPositions := ps; inverseTargets := inverseTargets d |} in
  match ownerPositions d ≫= (.!! child) with
  | Some i => with_changes (alter (fun e => {| od_child := od_child e; change := c |}) i (ownerChanges d)) (ownerPositions d)
  | None =>
      let cs := ownerChanges d ++ [{| od_child := child; change := c |}] in
      if (length cs =? 9)%nat
      then with_changes cs (Some (foldl (fun m p => <[od_child p.2 := p.1]> m) ∅ (zip (seq 0 (length cs)) cs)))
      else with_changes cs ((fun m => <[child := length cs - 1]> m) <$> ownerPositions d)
  end.

Definition ownerChange (d : relationIndexDelta) (child : nodeKey) : outcome (option relationOwnerChange) :=
  match ownerPositions d with
  | Some m =>
      match m !! child with
      | None => Ok None
      | Some i => match ownerChanges d !! i with Some e => Ok (Some (change e)) | None => Panic end
      end
  | None => Ok ((fun p => change p.2) <$> list_find (fun e => od_child e = child) (ownerChanges d))
  end.

(** One counted reference; a counted field without a spec panics. *)
Definition count_incoming (d : relationIndexDelta) (st : option incomingOwn * Z) (e : incomingCount) : outcome (option incomingOwn * Z) :=
  replaced ← fd_find (d_fields d) (ic_field e);
  match replaced with
  | Some _ => Ok st
  | None =>
      match x_fields (d_index d) !! ic_field e ≫= if_spec with
      | None => Panic
      | Some r =>
          if bool_decide (kind r = ownRelation) && (0 <? ic_count e)%Z
          then Ok (if (st.2 =? 0)%Z then Some {| ow_owner := hf_holder (ic_field e); ow_spec := Some r |} else st.1, (st.2 + ic_count e)%Z)
          else Ok st
      end
  end.
Definition count_replacement (child : nodeKey) (st : option incomingOwn * Z) (e : relationFieldDelta) : outcome (option incomingOwn * Z) :=
  match if_spec (fd_field e) with
  | None => Panic
  | Some r =>
      when negb (bool_decide (kind r = ownRelation)) => Ok st ;;
      Ok (foldl (fun (st : option incomingOwn * Z) tgt =>
        if bool_decide (tgt = child)
        then (if (st.2 =? 0)%Z then Some {| ow_owner := hf_holder (fd_key e); ow_spec := Some r |} else st.1, (st.2 + 1)%Z)
        else st) st (if_targets (fd_field e)))
  end.
(** The first owner, [None] while the count is zero. *)
Definition effectiveIncomingOwn (d : relationIndexDelta) (child : nodeKey) : outcome (option incomingOwn * Z) :=
  st ← fold_outcome (count_incoming d) (None, 0%Z) (entries (default no_counts (x_incoming (d_index d) !! child)));
  fold_outcome (count_replacement child) st (values (d_fields d)).

Fixpoint first_owned_by (d : relationIndexDelta) (child : nodeKey) (specs : list relationSpec) : outcome (option incomingOwn) :=
  match specs with
  | [] => Ok None
  | r :: specs =>
      if negb (bool_decide (kind r = ownedByRelation)) then first_owned_by d child specs else
      let key := {| hf_holder := child; hf_field := fieldIndex r |} in
      replaced ← fd_find (d_fields d) key;
      let ts := match replaced with
        | Some f => if_targets f
        | None => match x_fields (d_index d) !! key with Some f => if_targets f | None => [] end
        end in
      match ts with
      | [o] => Ok (Some {| ow_owner := o; ow_spec := Some r |})
      | _ => first_owned_by d child specs
      end
  end.
Definition effectiveOwnedBy (d : relationIndexDelta) (child : nodeKey) : outcome (option incomingOwn) :=
  match relationSpecs types (key_typ child) with
  | Ok specs => first_owned_by d child specs
  | Fail _ => Ok None
  | Panic => Panic
  end.

Definition effectiveOwner (d : relationIndexDelta) (child : nodeKey) : outcome (option nodeKey) :=
  changed ← ownerChange d child;
  Ok (match changed with Some c => after c | None => x_owners (d_index d) !! child end).

(** A slow and a fast walk up the owners. Each round moves the slow walk to an
    entity that has an owner, so as many rounds as there are owners, old and
    new, are enough. *)
Definition chain_round (eo : nodeKey -> outcome (option nodeKey)) (st : nodeKey * nodeKey) : outcome (nodeKey * nodeKey + unit) :=
  slow ← eo st.1;
  match slow with
  | None => Ok (inr tt)
  | Some slow =>
      fast ← eo st.2;
      match fast with
      | None => Ok (inr tt)
      | Some fast =>
          fast ← eo fast;
          match fast with
          | None => Ok (inr tt)
          | Some fast => if bool_decide (slow = fast) then Fail ErrRelationInvariant else Ok (inl (slow, fast))
          end
      end
  end.
Definition validateOwnerChain (d : relationIndexDelta) (start : nodeKey) : outcome unit :=
  r ← for_range (S (size (x_owners (d_index d)) + length (ownerChanges d))) (chain_round (effectiveOwner d)) (start, start);
  match r with inl _ => Panic | inr _ => Ok tt end.

(** The children whose owner may differ. *)
Definition affected_field (d : relationIndexDelta) (ks : nodeKeySet) (e : relationFieldDelta) : outcome nodeKeySet :=
  match if_spec (fd_field e) with
  | None => Panic
  | Some r =>
      let old := match x_fields (d_index d) !! fd_key e with Some f => if_targets f | None => [] end in
      let add ks t := fst (ks_add ks t) in
      let ks := if bool_decide (kind r = ownRelation) then foldl add (foldl add ks old) (if_targets (fd_field e)) else ks in
      Ok (if bool_decide (kind r = ownedByRelation) then add ks (hf_holder (fd_key e)) else ks)
  end.

(** The owner an affected child has from now on. *)
Definition validate_child (d : relationIndexDelta) (child : nodeKey) : outcome relationIndexDelta :=
  raw ← effectiveIncomingOwn d child;
  back ← effectiveOwnedBy d child;
  let raw : option incomingOwn * Z := raw in
  let back : option incomingOwn := back in
  when (1 <? raw.2)%Z => Fail ErrRelationInvariant ;;
  let after_ := if (raw.2 =? 1)%Z then ow_owner <$> raw.1 else None in
  when match after_, back with Some a, Some b => negb (bool_decide (a = ow_owner b)) | _, _ => false end => Fail ErrRelationInvariant ;;
  let after_ := match after_ with Some a => Some a | None => ow_owner <$> back end in
  let before_ := x_owners (d_index d) !! child in
  if bool_decide (before_ = after_) then Ok d else Ok (setOwnerChange d child {| before := before_; after := after_ |}).

Definition validateOwnership (d : relationIndexDelta) : outcome relationIndexDelta :=
  affected ← fold_outcome (affected_field d) no_keys (values (d_fields d));
  d ← fold_outcome validate_child d (ks_keys affected);
  _ ← fold_outcome (fun _ child => validateOwnerChain d child) tt (ks_keys affected);
  Ok d.

Definition supportsOwnershipChanges (d : relationIndexDelta) : bool :=
  forallb (fun e => match before (change e), after (change e) with Some _, None => false | _, _ => true end) (ownerChanges d).

Definition collectInverseTargets (d : relationIndexDelta) : relationIndexDelta :=
  with_delta_fields d (d_fields d) (foldl (fun inv e =>
    match if_spec (fd_field e) with
    | Some r =>
        if bool_decide (kind r = borrowRelation) || bool_decide (kind r = optionRelation)
        then inv ∪ list_to_set (match x_fields (d_index d) !! fd_key e with Some f => if_targets f | None => [] end)
                 ∪ list_to_set (if_targets (fd_field e))
        else inv
    | None => inv
    end) (inverseTargets d) (values (d_fields d))).

Definition buildRelationIndexDeltaWithCreates heap (opened : gset string) (published : option committedRelationIndex)
    (rs : list touchedResource) (cs : gmap nodeKey loc) : outcome (option relationIndexDelta) :=
  match published with
  | None => Ok None
  | Some x =>
      os ← fold_until (override_resource heap opened x) [] rs;
      match os with
      | None => Ok None
      | Some os =>
          ts ← indexCreatedTargets heap x cs;
          match ts with
          | None => Ok None
          | Some ts =>
              os ← fold_until (override_created x) os (map_range cs);
              match os with
              | None => Ok None
              | Some os =>
                  let d := {| d_index := x; d_created := cs; d_targets := ts; overrides := os; d_fields := no_fields;
                              ownerChanges := []; ownerPositions := None; inverseTargets := ∅ |} in
                  d ← fold_until (fun d o => fold_until (scan_override_field heap o) d (o_specs o)) d os;
                  match d with
                  | None => Ok None
                  | Some d =>
                      d ← validateOwnership d;
                      if supportsOwnershipChanges d then Ok (Some (collectInverseTargets d)) else Ok None
                  end
              end
          end
      end
  end.
Definition buildRelationIndexDelta heap opened published rs := buildRelationIndexDeltaWithCreates heap opened published rs ∅.
Definition buildRelationCreateIndexDelta heap opened published rs cs := buildRelationIndexDeltaWithCreates heap opened published rs cs.

(** [bindCreatedNode]: the create is now the live entity. *)
Definition bindCreatedNode (d : relationIndexDelta) (key : nodeKey) (live : loc) : relationIndexDelta :=
  {| d_index := d_index d; d_created := <[key := live]> (d_created d); d_targets := d_targets d; overrides := overrides d;
     d_fields := d_fields d; ownerChanges := ownerChanges d; ownerPositions := ownerPositions d; inverseTargets := inverseTargets d |}.
End delta.

(** ** Publishing *)

#[export] Instance indexedRelationTarget_eq_dec : EqDecision indexedRelationTarget.
Proof. solve_decision. Defined.
#[export] Instance indexedRelationField_eq_dec : EqDecision indexedRelationField.
Proof. solve_decision. Defined.
#[export] Instance incomingCount_eq_dec : EqDecision incomingCount.
Proof. solve_decision. Defined.
#[export] Instance incomingCounts_eq_dec : EqDecision incomingCounts.
Proof. solve_decision. Defined.
#[export] Instance committedRelationIndex_eq_dec : EqDecision committedRelationIndex.
Proof. solve_decision. Defined.

Section publish.
Context (types : typeEnv) (GetId : goval -> Z) `{!MapOrder nodeKey} `{!MapOrder string}.
Implicit Types (heap : gmap loc goval) (x : committedRelationIndex) (d : relationIndexDelta).

(** The created nodes and what they can be looked up by. *)
Definition add_created x d : committedRelationIndex :=
  {| x_nodes := d_created d ∪ x_nodes x; x_targets := d_targets d ∪ x_targets x; x_targetFields := x_targetFields x;
     backFields := backFields x; x_fields := x_fields x; x_incoming := x_incoming x; x_owners := x_owners x |}.

(** One replaced field. *)
Definition publish_field x (e : relationFieldDelta) : outcome committedRelationIndex :=
  let old := match x_fields x !! fd_key e with Some f => if_targets f | None => [] end in
  x ← fold_outcome (fun x tgt => decrementIncoming x tgt (fd_key e)) x old;
  Ok (foldl (fun x tgt => incrementIncoming x tgt (fd_key e)) (with_fields x (<[fd_key e := fd_field e]> (x_fields x)))
        (if_targets (fd_field e))).

(** One changed owner, with the children lists beside the index. *)
Definition publish_owner (st : gmap nodeKey nodeKey * gmap nodeKey (list nodeKey)) (e : relationOwnerDelta) :
    gmap nodeKey nodeKey * gmap nodeKey (list nodeKey) :=
  let st := match before (change e) with
    | Some o => (delete (od_child e) st.1, removeCommittedChild st.2 o (od_child e))
    | None => st
    end in
  match after (change e) with
  | Some o => (<[od_child e := o]> st.1, addCommittedChild st.2 o (od_child e))
  | None => st
  end.

Definition publish c d : outcome (committedOwnership * committedRelationIndex) :=
  when negb (bool_decide (c_index c = Some (d_index d))) => Panic ;;
  x ← fold_outcome publish_field (add_created (d_index d) d) (values (d_fields d));
  let st := foldl publish_owner (x_owners x, c_outgoing c) (ownerChanges d) in
  let x := {| x_nodes := x_nodes x; x_targets := x_targets x; x_targetFields := x_targetFields x; backFields := backFields x;
              x_fields := x_fields x; x_incoming := x_incoming x; x_owners := st.1 |} in
  Ok ({| ready := ready c; c_outgoing := st.2; branches := ∅; graph := None; c_index := Some x |}, x).

(** [rewire]: the pointers of the replaced fields, then the inverse fields. *)
Definition rewire_field x heap (e : relationFieldDelta) : outcome (gmap loc goval) :=
  match if_spec (fd_field e), x_nodes x !! hf_holder (fd_key e) with
  | Some r, Some l => setIndexedRelationField heap l (fieldIndex r) (spec_exported types r) (many r) (if_targets (fd_field e)) (x_nodes x)
  | _, _ => Panic
  end.
Definition rewire_inverse x heap (tgt : nodeKey) : outcome (gmap loc goval) :=
  match x_nodes x !! tgt with
  | None => Ok heap
  | Some l =>
      match relationSpecs types (key_typ tgt) with
      | Fail _ => Ok heap
      | Panic => Panic
      | Ok specs =>
          fold_outcome (fun heap r =>
            when negb (bool_decide (kind r = inverseRelation)) => Ok heap ;;
            holders ← inverseHolders x tgt r;
            setIndexedRelationField heap l (fieldIndex r) (spec_exported types r) (many r) holders (x_nodes x)) heap specs
      end
  end.
Definition rewire x heap d : outcome (gmap loc goval) :=
  heap ← fold_outcome (rewire_field x) heap (values (d_fields d));
  fold_outcome (rewire_inverse x) heap (set_range (inverseTargets d)).

Definition publishAndRewire c heap d : outcome (committedOwnership * gmap loc goval) :=
  p ← publish c d;
  heap ← rewire p.2 heap d;
  Ok (p.1, heap).

(** ** Back references of owned slices *)

(** The rows of the tables: where the entity is, and its version. *)
Notation rows := (gmap nodeKey (loc * Z)).

(** [cloneEntityPointer] on values: how the slices of the copy get arrays of
    their own is in [SliceCells]. *)
Definition cloneEntityPointer heap (l : loc) : outcome (gmap loc goval * loc) :=
  match heap !! l with
  | None => Panic
  | Some v => let l' := fresh (dom heap) in Ok (<[l' := v]> heap, l')
  end.
Definition snapshotTouchedResource heap (tables : rows) (key : nodeKey) : outcome (gmap loc goval * touchedResource) :=
  match tables !! key with
  | None => Fail ErrNotFound
  | Some (l, v) =>
      w ← cloneEntityPointer heap l;
      o ← cloneEntityPointer w.1 l;
      Ok (o.1, {| dbName := key_typ key; t_id := key_id key; ver := v; t_work := w.2; original := o.2 |})
  end.

Definition overrideValue d (key : nodeKey) : option loc :=
  match list_find (fun o => o_key o = key) (overrides d) with
  | Some (_, o) => Some (o_value o)
  | None => x_nodes (d_index d) !! key
  end.
Definition indexedTouchedResource (rs : list touchedResource) (key : nodeKey) : option touchedResource :=
  snd <$> list_find (fun r => dbName r = key_typ key /\ t_id r = key_id key) rs.
Definition indexedOwnBackReferenceMatches heap (owner_ child : loc) (r : relationSpec) : outcome bool :=
  ownSliceBackReferenceMatches types heap (owner r) owner_ child r.
Definition setIndexedOwnBackReference heap (owner_ child : loc) (r : relationSpec) : outcome (gmap loc goval) :=
  when negb (back_exported types r) => Panic ;;
  match back_field types r with
  | None => Panic
  | Some (i, t) =>
      if is_pointer t then Ok (set_node_field heap child i (VPointer (Some owner_))) else
      match id_field_of types heap (owner r) owner_ with
      | Some own => if gotype_eqb t own.1 then Ok (set_node_field heap child i own.2) else Panic
      | None => Panic
      end
  end.

(** The resource to write, [None] when the live child already matches, and
    whether it is among the changed ones. *)
Definition ownershipTargetResource heap (tables : rows) d (tgt : nodeKey) (owner_ : loc) (r : relationSpec)
    (transactionResources changed : list touchedResource) : outcome (gmap loc goval * option touchedResource * bool) :=
  match indexedTouchedResource changed tgt with
  | Some res => Ok (heap, Some res, true)
  | None =>
      match indexedTouchedResource transactionResources tgt with
      | Some res => Ok (heap, Some res, false)
      | None =>
          match x_nodes (d_index d) !! tgt with
          | None => Panic
          | Some live =>
              same ← indexedOwnBackReferenceMatches heap owner_ live r;
              if (same : bool) then Ok (heap, None, false) else
              p ← snapshotTouchedResource heap tables tgt;
              Ok (p.1, Some p.2, false)
          end
      end
  end.

Definition materialize_target (tables : rows) d (owner_ : loc) (r : relationSpec) (transactionResources : list touchedResource)
    (cs : gmap nodeKey loc) (st : gmap loc goval * list touchedResource) (tgt : nodeKey) :
    outcome (gmap loc goval * list touchedResource) :=
  let '(heap, changed) := st in
  match cs !! tgt with
  | Some child =>
      same ← indexedOwnBackReferenceMatches heap owner_ child r;
      if (same : bool) then Ok st else
      heap ← setIndexedOwnBackReference heap owner_ child r; Ok (heap, changed)
  | None =>
      p ← ownershipTargetResource heap tables d tgt owner_ r transactionResources changed;
      let '(heap, res, alreadyChanged) := p in
      match res with
      | None => Ok (heap, changed)
      | Some res =>
          same ← indexedOwnBackReferenceMatches heap owner_ (t_work res) r;
          if (same : bool) then Ok (heap, changed) else
          heap ← setIndexedOwnBackReference heap owner_ (t_work res) r;
          Ok (heap, if alreadyChanged : bool then changed else changed ++ [res])
      end
  end.

Definition materializeOwnBackReferences heap (tables : rows) d (transactionResources changed : list touchedResource)
    (cs : gmap nodeKey loc) : outcome (gmap loc goval * list touchedResource) :=
  fold_outcome (fun st e =>
    match if_spec (fd_field e) with
    | None => Panic
    | Some r =>
        when negb (bool_decide (kind r = ownRelation)) || negb (many r) => Ok st ;;
        match overrideValue d (hf_holder (fd_key e)) with
        | None => Panic
        | Some owner_ => fold_outcome (materialize_target tables d owner_ r transactionResources cs) st (if_targets (fd_field e))
        end
    end) (heap, changed) (values (d_fields d)).
End publish.

(** * Lemmas *)

(** ** The replaced fields *)

Record fields_wf (fs : relationFieldDeltas) : Prop := {
  fw_keys : NoDup (fd_key <$> values fs);
  fw_positions : forall m, fd_positions fs = Some m -> forall k p, m !! k = Some p <-> fd_key <$> values fs !! p = Some k;
}.
Definition fd_lookup (fs : relationFieldDeltas) : gmap relationHolderField indexedRelationField :=
  list_to_map ((fun e => (fd_key e, fd_field e)) <$> values fs).

Lemma fd_lookup_Some fs k fl : fields_wf fs -> fd_lookup fs !! k = Some fl <-> {| fd_key := k; fd_field := fl |} ∈ values fs.
Proof.
  intros Hw. unfold fd_lookup. rewrite <- elem_of_list_to_map.
  - rewrite list_elem_of_fmap. split; [intros ([k' fl'] & [= -> ->] & H); done|intros H; by exists {| fd_key := k; fd_field := fl |}].
  - rewrite <- list_fmap_compose. exact (fw_keys _ Hw).
Qed.

Lemma fd_find_spec fs k : fields_wf fs -> fd_find fs k = Ok (fd_lookup fs !! k).
Proof.
  intros Hw. unfold fd_find. destruct (fd_positions fs) as [m|] eqn:Em.
  - destruct (m !! k) as [i|] eqn:Ei.
    + apply (fw_positions _ Hw m Em) in Ei. apply fmap_Some in Ei as (e & Ee & ->). rewrite Ee. f_equal. symmetry.
      apply fd_lookup_Some; [done|]. destruct e. by eapply list_elem_of_lookup_2.
    + f_equal. symmetry. destruct (fd_lookup fs !! k) as [fl|] eqn:E; [|done]. apply fd_lookup_Some in E; [|done].
      apply list_elem_of_lookup in E as [i Hi]. assert (m !! k = Some i) by (apply (fw_positions _ Hw m Em); by rewrite Hi). congruence.
  - f_equal. destruct (list_find _ _) as [[i e]|] eqn:E; cbn.
    + apply list_find_Some in E as (H1 & H2 & _). symmetry. apply fd_lookup_Some; [done|]. rewrite <- H2. destruct e. by eapply list_elem_of_lookup_2.
    + symmetry. destruct (fd_lookup fs !! k) as [fl|] eqn:El; [|done]. apply fd_lookup_Some in El; [|done].
      apply list_find_None in E. rewrite Forall_forall in E. by destruct (E _ El).
Qed.

Lemma no_fields_wf : fields_wf no_fields.
Proof. split; [constructor|done]. Qed.

Lemma fd_add_wf fs key fl : fields_wf fs -> key ∉ fd_key <$> values fs -> fields_wf (fd_add fs key fl) /\ values (fd_add fs key fl) = values fs ++ [{| fd_key := key; fd_field := fl |}].
Proof.
  intros Hw Hk. set (e := {| fd_key := key; fd_field := fl |}).
  assert (NoDup (fd_key <$> values fs ++ [e])) as Hnd.
  { rewrite fmap_app. apply NoDup_app. split_and!; [apply Hw| |apply NoDup_singleton]. intros k H ->%list_elem_of_singleton. done. }
  assert (values (fd_add fs key fl) = values fs ++ [e]) as Ev by (unfold fd_add; by case_match). split; [|done].
  split; [by rewrite Ev|]. rewrite Ev. intros m Hm k p. unfold fd_add in Hm. fold e in Hm.
  destruct (length (values fs ++ [e]) =? 9)%nat; cbn in Hm.
  - injection Hm as <-. by apply all_positions.
  - destruct (fd_positions fs) as [m0|] eqn:Em; [|done]. injection Hm as <-. apply (snoc_positions fd_key (values fs) e m0); [done|]. by apply Hw.
Qed.

(** Scanning a field that was not scanned before appends one entry. *)
Lemma fd_scanned fs key r ts : fields_wf fs -> key ∉ fd_key <$> values fs ->
  let fs' := fd_extend (fd_add fs key {| if_spec := Some r; if_targets := [] |}) key ts in
  fields_wf fs' /\ values fs' = values fs ++ [{| fd_key := key; fd_field := {| if_spec := Some r; if_targets := ts |} |}].
Proof.
  intros Hw Hk. cbn zeta. destruct (fd_add_wf fs key {| if_spec := Some r; if_targets := [] |} Hw Hk) as [Hw' Ev].
  set (fs1 := fd_add fs key _) in *. unfold fd_extend.
  assert (match fd_positions fs1 with Some m => m !! key | None => fst <$> list_find (fun e => fd_key e = key) (values fs1) end = Some (length (values fs))) as ->.
  { destruct (fd_positions fs1) as [m|] eqn:Em.
    - apply (fw_positions _ Hw' m Em). rewrite Ev. by rewrite list_lookup_middle.
    - rewrite Ev, list_find_app_r; [cbn; rewrite decide_True by done; cbn; f_equal; lia|].
      apply list_find_None, Forall_forall. intros e He <-. apply Hk. by apply list_elem_of_fmap_2. }
  rewrite Ev, alter_middle. cbn. split; [|done]. destruct Hw' as [H1 H2]. rewrite Ev in *. split; cbn [values fd_positions].
  - rewrite fmap_app in *. done.
  - intros m Hm k p. rewrite (H2 m Hm), <- !list_lookup_fmap, !fmap_app. done.
Qed.

(** ** The slow and the fast walk *)

Lemma not_NoDup {A} `{EqDecision A} (l : list A) : ~ NoDup l -> exists i j x, i < j /\ l !! i = Some x /\ l !! j = Some x.
Proof.
  induction l as [|a l IH]; intros Hn; [by destruct Hn; constructor|]. destruct (decide (a ∈ l)) as [Ha|Ha].
  - apply list_elem_of_lookup in Ha as [j Hj]. exists 0, (S j), a. split; [lia|done].
  - destruct IH as (i & j & x & Hlt & Hi & Hj); [|exists (S i), (S j), x; split; [lia|done]].
    intros Hnd. apply Hn. by constructor.
Qed.

Section chain.
Context (eo : nodeKey -> option nodeKey) (eo' : nodeKey -> outcome (option nodeKey)) (eo_ok : forall c, eo' c = Ok (eo c)).
Context (all : gset nodeKey) (owned : forall c, is_Some (eo c) -> c ∈ all) (start : nodeKey).

(** The [n]th owner of [start]. *)
Definition nth_owner (n : nat) : option nodeKey := Nat.iter n (fun o => o ≫= eo) (Some start).

Lemma nth_owner_S n : nth_owner (S n) = nth_owner n ≫= eo.
Proof. done. Qed.
Lemma nth_owner_add a b : nth_owner (a + b) = Nat.iter b (fun o => o ≫= eo) (nth_owner a).
Proof. unfold nth_owner. rewrite Nat.add_comm. apply Nat.iter_add. Qed.
Lemma nth_owner_some a b : a <= b -> is_Some (nth_owner b) -> is_Some (nth_owner a).
Proof.
  intros Hle Hb. replace b with (a + (b - a)) in Hb by lia. rewrite nth_owner_add in Hb. destruct (nth_owner a); [by eexists|].
  assert (forall n, Nat.iter n (fun o : option nodeKey => o ≫= eo) None = None) as Hn by (induction n as [|n IH]; [done|]; by rewrite Nat.iter_succ, IH).
  by rewrite Hn in Hb.
Qed.

Lemma chain_round_ok slow fast : chain_round eo' (slow, fast) =
  match eo slow, eo fast, eo fast ≫= eo with
  | Some slow, Some _, Some fast => if bool_decide (slow = fast) then Fail ErrRelationInvariant else Ok (inl (slow, fast))
  | _, _, _ => Ok (inr tt)
  end.
Proof.
  unfold chain_round. cbn. rewrite (eo_ok slow), (eo_ok fast). cbn. destruct (eo slow); [|done]. cbn. destruct (eo fast) as [f|]; [|done].
  cbn. rewrite eo_ok. cbn. by destruct (eo f).
Qed.

Lemma chain_loop n k slow fast : nth_owner k = Some slow -> nth_owner (2 * k) = Some fast ->
  (forall j, 1 <= j <= k -> nth_owner j <> nth_owner (2 * j)) ->
  (for_range n (chain_round eo') (slow, fast) = Ok (inr tt) /\ exists j, nth_owner j = None) \/
  (for_range n (chain_round eo') (slow, fast) = Fail ErrRelationInvariant /\ exists j, 1 <= j /\ nth_owner j = nth_owner (2 * j) /\ is_Some (nth_owner j)) \/
  (is_Some (nth_owner (2 * (k + n))) /\ forall j, 1 <= j <= k + n -> nth_owner j <> nth_owner (2 * j)).
Proof.
  revert k slow fast. induction n as [|n IH]; intros k slow fast Hs Hf Hne.
  - right. right. rewrite Nat.add_0_r. split; [by rewrite Hf|done].
  - cbn [for_range]. rewrite chain_round_ok.
    pose proof (nth_owner_S k) as Es. rewrite Hs in Es. change (Some slow ≫= eo) with (eo slow) in Es. destruct (eo slow) as [slow'|]; [|left; split; [done|exists (S k); exact Es]].
    pose proof (nth_owner_S (2 * k)) as Ef. rewrite Hf in Ef. change (Some fast ≫= eo) with (eo fast) in Ef.
    destruct (eo fast) as [fast1|]; [|left; split; [done|by exists (S (2 * k))]]. change (Some fast1 ≫= eo) with (eo fast1).
    pose proof (nth_owner_S (S (2 * k))) as Ef'. rewrite Ef in Ef'. change (Some fast1 ≫= eo) with (eo fast1) in Ef'.
    destruct (eo fast1) as [fast'|]; [|left; split; [done|by exists (S (S (2 * k)))]].
    replace (S (S (2 * k))) with (2 * S k) in Ef' by lia.
    case_bool_decide as Heq.
    + right. left. split; [done|]. exists (S k). split; [lia|]. rewrite Es, Ef'. split; [by rewrite Heq|by eexists].
    + cbn [mbind outcome_bind]. replace (k + S n) with (S k + n) by lia. apply IH; [done|done|].
      intros j Hj. destruct (decide (j = S k)) as [->|]; [rewrite Es, Ef'; congruence|apply Hne; lia].
Qed.

(** Among more entities than there are owned ones, two are the same. *)
Lemma nth_owner_repeats n : size all < n -> is_Some (nth_owner n) -> exists i j, i < j <= size all /\ nth_owner i = nth_owner j.
Proof.
  intros Hn Hs. set (l := nth_owner <$> seq 0 (S (size all))).
  assert (~ NoDup l) as Hd.
  { intros Hnd. assert (NoDup (omap id l)) as Hnd'.
    { apply NoDup_omap_inj; [|done]. intros a b c Ha Hb. cbn in *. congruence. }
    assert (length (omap id l) = S (size all)) as Hl.
    { unfold l. assert (forall k m, k + m <= n -> length (omap id (nth_owner <$> seq k m)) = m) as H; [|apply H; lia].
      intros k m. revert k. induction m as [|m IH]; intros k Hk; [done|]. cbn.
      destruct (nth_owner_some k n ltac:(lia) Hs) as [c Hc]. rewrite Hc. cbn. f_equal. apply IH. lia. }
    assert (list_to_set (omap id l) ⊆ all) as Hsub.
    { intros c Hc. apply elem_of_list_to_set, list_elem_of_omap in Hc as (o & Ho & Hid). cbn in Hid. subst o.
      apply list_elem_of_fmap in Ho as (i & Hi & Hin). apply elem_of_seq in Hin. apply owned.
      destruct (nth_owner_some (S i) n ltac:(lia) Hs) as [c' Hc']. rewrite nth_owner_S, <- Hi in Hc'. cbn in Hc'. by eexists. }
    apply subseteq_size in Hsub. rewrite size_list_to_set in Hsub by done. lia. }
  destruct (not_NoDup l Hd) as (i & j & o & Hlt & Hi & Hj). exists i, j. unfold l in Hi, Hj.
  rewrite list_lookup_fmap in Hi, Hj. apply fmap_Some in Hi as (i' & Ei & Hi), Hj as (j' & Ej & Hj).
  apply lookup_seq in Ei as [-> ?], Ej as [-> ?]. rewrite Nat.add_0_l in Hi, Hj. split; [lia|congruence].
Qed.

Lemma nth_owner_period i p t : nth_owner i = nth_owner (i + p) -> nth_owner (i + t) = nth_owner (i + t + p).
Proof. intros H. rewrite nth_owner_add, H, <- nth_owner_add. f_equal. lia. Qed.
Lemma nth_owner_periods i p a m : nth_owner i = nth_owner (i + p) -> i <= a -> nth_owner a = nth_owner (a + m * p).
Proof.
  intros H Hle. induction m as [|m IH]; [by rewrite Nat.add_0_r|]. rewrite IH. replace (a + S m * p) with (a + m * p + p) by lia.
  replace (a + m * p) with (i + (a + m * p - i)) by lia. by apply nth_owner_period.
Qed.

(** The walk decides whether the owners of [start] come to an end. *)
Lemma chain_decides n : size all < n ->
  (for_range n (chain_round eo') (start, start) = Ok (inr tt) /\ exists j, nth_owner j = None) \/
  (for_range n (chain_round eo') (start, start) = Fail ErrRelationInvariant /\ forall j, is_Some (nth_owner j)).
Proof.
  intros Hn. destruct (chain_loop n 0 start start eq_refl eq_refl) as [H|[[H (k & Hk & Heq & Hsome)]|[Hs Hne]]]; [lia|by left| |].
  - right. split; [done|]. intros j. apply (nth_owner_some j (k + j * k)); [nia|].
    rewrite <- (nth_owner_periods k k k j); [done|by replace (k + k) with (2 * k) by lia|done].
  - exfalso. cbn [Nat.add] in Hs, Hne. destruct (nth_owner_repeats n Hn) as (i & j & Hij & E).
    { apply (nth_owner_some n (2 * n)); [lia|done]. }
    set (p := j - i). assert (nth_owner i = nth_owner (i + p)) as Ep by (unfold p; by replace (i + (j - i)) with j by lia).
    set (m := S (i / p)). assert (i < m * p <= j) as Hm.
    { unfold m. pose proof (Nat.div_mod_eq i p). pose proof (Nat.mod_upper_bound i p ltac:(unfold p; lia)). unfold p in *. nia. }
    apply (Hne (m * p)); [lia|]. rewrite (nth_owner_periods i p (m * p) m Ep) by lia. f_equal. lia.
Qed.

(** An entity on a cycle of owners has no last owner. *)
Lemma cycle_endless : tc (fun c o => eo c = Some o) start start -> forall j, is_Some (nth_owner j).
Proof.
  intros Hc j. cut (exists c, nth_owner j = Some c /\ tc (fun c o => eo c = Some o) c c); [intros (c & -> & _); by eexists|].
  induction j as [|j (c & Ej & Hcc)]; [by exists start|].
  assert (exists d, eo c = Some d /\ rtc (fun c o => eo c = Some o) d c) as (d & Ed & Hd).
  { inversion Hcc as [? ? E|? d ? E Hr]; subst; [by exists c; split; [|apply rtc_refl]|exists d; split; [done|by apply tc_rtc]]. }
  exists d. rewrite nth_owner_S, Ej. split; [exact Ed|]. by eapply tc_rtc_l; [exact Hd|apply tc_once].
Qed.
End chain.

(** ** The set of affected entities *)

Definition all_keys (ks : nodeKeySet) : list nodeKey := inline ks ++ overflow ks.
Definition keys_wf (ks : nodeKeySet) : Prop :=
  NoDup (all_keys ks) /\
  match index_ ks with
  | None => overflow ks = [] /\ length (inline ks) <= inline_cap
  | Some ix => length (inline ks) = inline_cap /\ forall k, k ∈ ix <-> k ∈ all_keys ks
  end.

Lemma omap_lookup_seq {A} (l : list A) : omap (fun i => l !! i) (seq 0 (length l)) = l.
Proof.
  induction l as [|a l IH] using rev_ind; [done|]. rewrite length_app, seq_app, omap_app. cbn [length seq omap list_omap Nat.add].
  rewrite list_lookup_middle by done. f_equal. etrans; [|exact IH]. apply list_omap_ext, Forall2_same_length_lookup_2; [done|].
  intros i x y Hx Hy. apply lookup_seq in Hx as [-> Hi], Hy as [-> _]. by rewrite lookup_app_l.
Qed.

Lemma ks_keys_all ks : keys_wf ks -> ks_keys ks = all_keys ks.
Proof.
  intros [_ Hw]. unfold ks_keys, ks_count. rewrite <- length_app. fold (all_keys ks). rewrite <- (omap_lookup_seq (all_keys ks)) at 2.
  apply list_omap_ext, Forall2_same_length_lookup_2; [done|]. intros i x y Hx Hy. apply lookup_seq in Hx as [-> Hi], Hy as [-> _]. cbn [Nat.add].
  unfold ks_at, all_keys. destruct (index_ ks).
  - destruct Hw as [Hl _]. rewrite <- Hl. destruct (Nat.ltb_spec i (length (inline ks))); [by rewrite lookup_app_l|by rewrite lookup_app_r].
  - destruct Hw as [Ho Hl]. rewrite Ho, app_nil_r. destruct (Nat.ltb_spec i inline_cap); [done|]. rewrite lookup_nil. symmetry. apply lookup_ge_None. lia.
Qed.

Lemma ks_add_spec ks k : keys_wf ks -> keys_wf (ks_add ks k).1 /\
  all_keys (ks_add ks k).1 = if decide (k ∈ all_keys ks) then all_keys ks else all_keys ks ++ [k].
Proof.
  intros [Hnd Hw]. unfold ks_add.
  assert (k ∉ all_keys ks -> NoDup (all_keys ks ++ [k])) as Hadd.
  { intros Hk. apply NoDup_app. split_and!; [done| |apply NoDup_singleton]. intros y Hy ->%list_elem_of_singleton. done. }
  destruct (index_ ks) as [ix|] eqn:Eix.
  - destruct Hw as [Hl Hix]. case_bool_decide as Hk.
    + cbn [fst]. split; [split; [done|by rewrite Eix]|]. rewrite decide_True by (by apply Hix). done.
    + rewrite Hix in Hk. rewrite decide_False by done. cbn [fst]. assert (all_keys {| inline := inline ks; overflow := overflow ks ++ [k]; index_ := Some ({[k]} ∪ ix) |} = all_keys ks ++ [k]) as E
        by (unfold all_keys; cbn; by rewrite app_assoc).
      split; [|done]. split; [rewrite E; by apply Hadd|]. cbn [index_ inline]. split; [done|]. rewrite E. intros y. rewrite elem_of_union, Hix, elem_of_app, elem_of_singleton, list_elem_of_singleton. tauto.
  - destruct Hw as [Ho Hl]. assert (all_keys ks = inline ks) as Ea by (unfold all_keys; by rewrite Ho, app_nil_r). rewrite Ea in *. case_bool_decide as Hk.
    + cbn [fst]. split; [split; [by rewrite Ea|by rewrite Eix]|]. by rewrite decide_True.
    + rewrite decide_False by done. destruct (Nat.ltb_spec (length (inline ks)) inline_cap) as [Hlt|Hge]; cbn [fst].
      * assert (all_keys {| inline := inline ks ++ [k]; overflow := overflow ks; index_ := None |} = inline ks ++ [k]) as E
          by (unfold all_keys; cbn; by rewrite Ho, app_nil_r).
        split; [|done]. split; [rewrite E; by apply Hadd|]. cbn. rewrite length_app. cbn. split; [done|lia].
      * assert (all_keys {| inline := inline ks; overflow := overflow ks ++ [k]; index_ := Some ({[k]} ∪ list_to_set (inline ks)) |} = inline ks ++ [k]) as E
          by (unfold all_keys; cbn; by rewrite Ho).
        split; [|done]. split; [rewrite E; by apply Hadd|]. cbn [index_ inline]. split; [lia|]. rewrite E. intros y. rewrite elem_of_union, elem_of_list_to_set, elem_of_app, elem_of_singleton, list_elem_of_singleton. tauto.
Qed.

Lemma ks_adds_spec ks l : keys_wf ks -> let ks' := foldl (fun ks t => (ks_add ks t).1) ks l in
  keys_wf ks' /\ forall k, k ∈ all_keys ks' <-> k ∈ all_keys ks \/ k ∈ l.
Proof.
  revert ks. induction l as [|t l IH]; intros ks Hw; cbn.
  - split; [done|]. intros k. split; [by left|]. intros [?|H]; [done|by apply elem_of_nil in H].
  - destruct (ks_add_spec ks t Hw) as [Hw' E]. destruct (IH _ Hw') as [H1 H2]. split; [done|]. intros k. rewrite H2, E, elem_of_cons.
    destruct (decide (t ∈ all_keys ks)); [|rewrite elem_of_app, list_elem_of_singleton; tauto]. split; [tauto|]. intros [?|[->|?]]; tauto.
Qed.

(** ** What a delta replaces *)

Lemma fold_until_inv {S A} (P : S -> Prop) (f : S -> A -> outcome (option S)) l :
  (forall s a s', a ∈ l -> P s -> f s a = Ok (Some s') -> P s') -> forall s s', P s -> fold_until f s l = Ok (Some s') -> P s'.
Proof.
  induction l as [|a l IH]; intros Hf s s' Hs E; cbn in E; [by injection E as <-|].
  bind_ok E. destruct v as [s1|]; [|done]. eapply (IH (fun s a s' Ha => Hf s a s' ltac:(by right))); [|exact E]. eapply Hf; [left|exact Hs|exact E0].
Qed.

Section built.
Context (types : typeEnv) `{!MapOrder nodeKey} `{!MapOrder string} (heap : gmap loc goval).
Notation known_nodes d := (dom (x_nodes (d_index d)) ∪ dom (d_created d)).

(** The overrides carry the specs of their types and lie in the graph. *)
Definition override_ok (x : committedRelationIndex) (cs : gmap nodeKey loc) (o : relationIndexOverride) : Prop :=
  relationSpecs types (key_typ (o_key o)) = Ok (o_specs o) /\ (o_key o ∈ dom (x_nodes x) \/ o_key o ∈ dom cs).

(** An entry of the delta is the scan of a field of an override. *)
Definition entry_ok (d : relationIndexDelta) (e : relationFieldDelta) : Prop :=
  exists o r, o ∈ overrides d /\ r ∈ o_specs o /\ kind r <> inverseRelation /\
    fd_key e = {| hf_holder := o_key o; hf_field := fieldIndex r |} /\ if_spec (fd_field e) = Some r /\
    scanIndexedRelationField types heap d (o_value o) r = Ok (if_targets (fd_field e)).

Definition keys_of (o : relationIndexOverride) (sp : list relationSpec) : list relationHolderField :=
  (fun r => {| hf_holder := o_key o; hf_field := fieldIndex r |}) <$> filter (fun r => kind r <> inverseRelation) sp.

(** What scanning leaves alone. *)
Definition same_base (d d' : relationIndexDelta) : Prop :=
  d_index d' = d_index d /\ d_created d' = d_created d /\ d_targets d' = d_targets d /\ overrides d' = overrides d /\
  ownerChanges d' = ownerChanges d /\ ownerPositions d' = ownerPositions d.

Lemma scan_same d d' l r : d_index d' = d_index d -> d_targets d' = d_targets d ->
  scanIndexedRelationField types heap d' l r = scanIndexedRelationField types heap d l r.
Proof.
  intros H1 H3. unfold scanIndexedRelationField.
  assert (forall v, resolveIndexedRelationTarget types heap d' r v = resolveIndexedRelationTarget types heap d r v) as Hres
    by (intros v; unfold resolveIndexedRelationTarget; by rewrite H1, H3).
  destruct (node_field heap l (fieldIndex r)) as [v|]; [|done]. destruct (negb (many r)); [by rewrite Hres|].
  assert (forall ws st, fold_outcome (scan_element types heap d' r) st ws = fold_outcome (scan_element types heap d r) st ws) as ->; [|done].
  induction ws as [|w ws IH]; intros st; [done|]. cbn.
  assert (scan_element types heap d' r st w = scan_element types heap d r st w) as -> by (unfold scan_element; by rewrite Hres).
  destruct (scan_element types heap d r st w); cbn; [by rewrite IH|done..].
Qed.
Lemma entry_ok_same d d' e : same_base d d' -> entry_ok d e -> entry_ok d' e.
Proof.
  intros (H1 & H2 & H3 & H4 & _) (o & r & Ho & Hr & Hk & Ek & Es & Escan). exists o, r. rewrite H4. split_and!; [done..|].
  rewrite <- Escan. by apply scan_same.
Qed.

Record scanned (d : relationIndexDelta) (keys : list relationHolderField) : Prop := {
  sc_wf : fields_wf (d_fields d);
  sc_keys : fd_key <$> values (d_fields d) = keys;
  sc_entries : Forall (entry_ok d) (values (d_fields d));
}.

Lemma scan_field_step o d r d' keys rest : o ∈ overrides d -> r ∈ o_specs o -> scanned d keys -> NoDup (keys ++ keys_of o (r :: rest)) ->
  scan_override_field types heap o d r = Ok (Some d') -> same_base d d' /\ scanned d' (keys ++ keys_of o [r]).
Proof.
  intros Ho Hr [Hw Hk He] Hnd E. unfold scan_override_field in E. unfold keys_of in Hnd |- *. rewrite filter_cons in Hnd |- *. rewrite filter_nil.
  destruct (bool_decide_reflect (kind r = inverseRelation)) as [Hinv|Hinv].
  - injection E as <-. split; [done|]. rewrite decide_False by naive_solver. cbn. rewrite app_nil_r. by split.
  - rewrite decide_True in Hnd |- * by done. cbn [fmap list_fmap] in Hnd |- *.
    set (key := {| hf_holder := o_key o; hf_field := fieldIndex r |}) in *.
    destruct (_ ≫= if_spec); [|done]. bind_ok E. injection E as <-. split; [done|].
    assert (key ∉ fd_key <$> values (d_fields d)) as Hnew.
    { rewrite Hk. apply NoDup_app in Hnd as (_ & Hd & _). intros Hin. apply (Hd _ Hin). left. }
    destruct (fd_scanned (d_fields d) key r v Hw Hnew) as [Hw' Ev]. split; cbn [d_fields with_delta_fields]; [exact Hw'| |].
    + by rewrite Ev, fmap_app, Hk.
    + rewrite Ev. apply Forall_app. split; [eapply Forall_impl; [exact He|]; intros e; by apply entry_ok_same|].
      repeat constructor. exists o, r. split_and!; [done..|]. exact E0.
Qed.

Lemma scan_fields_steps o d sp d' keys rest : o ∈ overrides d -> sp ⊆ o_specs o -> scanned d keys -> NoDup (keys ++ keys_of o sp ++ rest) ->
  fold_until (scan_override_field types heap o) d sp = Ok (Some d') -> same_base d d' /\ scanned d' (keys ++ keys_of o sp).
Proof.
  revert d keys. induction sp as [|r sp IH]; intros d keys Ho Hsub Hsc Hnd E; cbn in E.
  - injection E as <-. split; [done|]. unfold keys_of. rewrite filter_nil. cbn. by rewrite app_nil_r.
  - bind_ok E. destruct v as [d1|]; [|done].
    assert (keys_of o (r :: sp) = keys_of o [r] ++ keys_of o sp) as Ek by (unfold keys_of; by rewrite <- fmap_app, <- filter_app).
    destruct (scan_field_step o d r d1 keys sp Ho ltac:(set_solver) Hsc) as [Hb1 Hs1]; [by rewrite app_assoc in Hnd; apply NoDup_app in Hnd as (? & _ & _)|done|].
    destruct (IH d1 _ ltac:(by rewrite (proj1 (proj2 (proj2 (proj2 Hb1))))) ltac:(set_solver) Hs1) as [Hb2 Hs2]; [by rewrite Ek, <- !app_assoc in *|done|].
    rewrite Ek, app_assoc. split; [|done].
    destruct Hb1 as (? & ? & ? & ? & ? & ?), Hb2 as (? & ? & ? & ? & ? & ?). repeat split; congruence.
Qed.

Lemma scan_overrides_steps d os d' keys : os ⊆ overrides d -> scanned d keys -> NoDup (keys ++ (os ≫= fun o => keys_of o (o_specs o))) ->
  fold_until (fun d o => fold_until (scan_override_field types heap o) d (o_specs o)) d os = Ok (Some d') ->
  same_base d d' /\ scanned d' (keys ++ (os ≫= fun o => keys_of o (o_specs o))).
Proof.
  revert d keys. induction os as [|o os IH]; intros d keys Hsub Hsc Hnd E; cbn in E.
  - injection E as <-. cbn. rewrite app_nil_r. done.
  - bind_ok E. destruct v as [d1|]; [|done]. cbn in Hnd |- *.
    destruct (scan_fields_steps o d (o_specs o) d1 keys _ ltac:(set_solver) ltac:(done) Hsc Hnd E0) as [Hb1 Hs1].
    destruct (IH d1 _ ltac:(rewrite (proj1 (proj2 (proj2 (proj2 Hb1)))); set_solver) Hs1) as [Hb2 Hs2]; [by rewrite <- app_assoc|done|].
    rewrite app_assoc. split; [|done].
    destruct Hb1 as (? & ? & ? & ? & ? & ?), Hb2 as (? & ? & ? & ? & ? & ?). repeat split; congruence.
Qed.

(** ** The overrides *)

(** The entities of the overrides, and where they are. *)
Definition placed (os : list relationIndexOverride) : list (nodeKey * loc) := (fun o => (o_key o, o_value o)) <$> os.
Lemma placed_keys os : o_key <$> os = (placed os).*1.
Proof. unfold placed. by rewrite <- list_fmap_compose. Qed.

Lemma resource_overrides opened x os rs os' : fold_until (override_resource types heap opened x) os rs = Ok (Some os') ->
  exists new, os' = os ++ new /\ placed new = (fun r => (resource_node r, t_work r)) <$> rs /\
    forall o, o ∈ new -> relationSpecs types (key_typ (o_key o)) = Ok (o_specs o) /\ o_key o ∈ dom (x_nodes x).
Proof.
  revert os. induction rs as [|r rs IH]; intros os E; cbn in E.
  - injection E as <-. exists []. rewrite app_nil_r. split_and!; [done..|]. intros o Ho. by apply elem_of_nil in Ho.
  - bind_ok E. destruct v as [os1|]; [|done]. unfold override_resource in E0. destruct (negb _); [done|].
    destruct (bool_decide_reflect (is_Some (x_nodes x !! resource_node r))) as [Hn|]; [|done]. cbn [negb] in E0. bind_ok E0.
    destruct v; [done|]. bind_ok E0. injection E0 as <-. destruct (IH _ E) as (new & -> & Ek & Hnew).
    exists ({| o_key := resource_node r; o_value := t_work r; o_specs := v |} :: new). rewrite <- app_assoc. split_and!; [done|cbn; f_equal; exact Ek|].
    intros o [->|Ho]%elem_of_cons; [|by apply Hnew]. cbn. split; [done|by apply elem_of_dom].
Qed.

Lemma created_overrides x os (ps : list (nodeKey * loc)) os' : fold_until (override_created types x) os ps = Ok (Some os') ->
  exists new, os' = os ++ new /\ placed new = ps /\
    forall o, o ∈ new -> relationSpecs types (key_typ (o_key o)) = Ok (o_specs o) /\ o_key o ∉ dom (x_nodes x) /\ o_key o ∈ ps.*1.
Proof.
  revert os. induction ps as [|p ps IH]; intros os E; cbn in E.
  - injection E as <-. exists []. rewrite app_nil_r. split_and!; [done..|]. intros o Ho. by apply elem_of_nil in Ho.
  - bind_ok E. destruct v as [os1|]; [|done]. unfold override_created in E0.
    destruct (bool_decide_reflect (is_Some (x_nodes x !! p.1))) as [|Hn]; [done|]. bind_ok E0. injection E0 as <-.
    destruct (IH _ E) as (new & -> & Ek & Hnew).
    exists ({| o_key := p.1; o_value := p.2; o_specs := v |} :: new). rewrite <- app_assoc. split_and!; [done|destruct p; cbn; f_equal; exact Ek|].
    intros o [->|Ho]%elem_of_cons.
    + cbn. split_and!; [done|by rewrite elem_of_dom|left].
    + destruct (Hnew o Ho) as (? & ? & ?). split_and!; [done..|by right].
Qed.

Lemma created_targets x cs ts : indexCreatedTargets types heap x cs = Ok (Some ts) -> forall k t, ts !! k = Some t -> it_key t ∈ dom cs /\ x_targets x !! k = None.
Proof.
  unfold indexCreatedTargets. intros E. bind_ok E. destruct v; [|done]. bind_ok E. injection E as <-.
  set (P := fun ts : gmap relationTargetKey indexedRelationTarget => forall k t, ts !! k = Some t -> it_key t ∈ dom cs /\ x_targets x !! k = None).
  assert (forall p ts fields ts', p ∈ map_range cs -> P ts ->
    fold_outcome (fun ts field => index_created_target types heap x ts p.1 p.2 field) ts fields = Ok ts' -> P ts') as Hin.
  { intros p ts0 fields ts' Hp. revert ts0. induction fields as [|f fields IH]; intros ts0 HP Ef; cbn in Ef; [by injection Ef as <-|].
    bind_ok Ef. eapply IH; [|exact Ef]. unfold index_created_target in E. destruct (relationKey _ _ _ _ _); [|by injection E as <-].
    case_bool_decide as Hx; [done|]. case_bool_decide; [done|]. injection E as <-. intros k t [[<- <-]|[_ Ht]]%lookup_insert_Some; [|by apply HP].
    cbn. split; [destruct p as [pk pl]; apply elem_of_dom; exists pl; by apply map_range_elem|by apply eq_None_not_Some]. }
  intros k t Ht. assert (P v) as HP; [|by apply (HP k t Ht)]. clear Ht k t.
  assert (P ∅) as H0 by (intros k t Ht; by rewrite lookup_empty in Ht). revert E1 H0. generalize (∅ : gmap relationTargetKey indexedRelationTarget).
  assert (map_range cs ⊆ map_range cs) as Hsub by done. revert Hsub. generalize (map_range cs) at 1 3. intros ps.
  induction ps as [|p ps IH]; intros Hsub ts0 E H0; cbn in E; [by injection E as <-|]. bind_ok E.
  eapply IH; [set_solver|exact E|]. eapply Hin; [|exact H0|exact E1]. set_solver.
Qed.

(** Every target a scan finds is a node. *)
Lemma scanned_targets d l r ts : (forall k t, x_targets (d_index d) !! k = Some t -> it_key t ∈ dom (x_nodes (d_index d))) ->
  (forall k t, d_targets d !! k = Some t -> it_key t ∈ dom (d_created d)) ->
  scanIndexedRelationField types heap d l r = Ok ts -> forall c, c ∈ ts -> c ∈ known_nodes d.
Proof.
  intros Hx Hd. assert (forall v c, resolveIndexedRelationTarget types heap d r v = Ok (Some c) -> c ∈ known_nodes d) as Hres.
  { intros v c. unfold resolveIndexedRelationTarget. destruct (graphRelationTargetKey types heap r v) as [k|]; [|by destruct (relationMayBeMissing r)].
    destruct (d_targets d !! k) as [t|] eqn:Et.
    - destruct (it_duplicate t); [done|]. intros [= <-]. apply elem_of_union. right. by eapply Hd.
    - destruct (x_targets (d_index d) !! k) as [t|] eqn:Ex; [|by destruct (relationMayBeMissing r)].
      destruct (it_duplicate t); [done|]. intros [= <-]. apply elem_of_union. left. by eapply Hx. }
  unfold scanIndexedRelationField. destruct (node_field heap l (fieldIndex r)) as [v|]; [|done]. destruct (negb (many r)).
  - intros E c Hc. bind_ok E. injection E as <-. destruct v0 as [t|]; [|by apply elem_of_nil in Hc]. apply list_elem_of_singleton in Hc as ->. by eapply Hres.
  - intros E. bind_ok E. injection E as <-. revert E0. generalize (if bool_decide (kind r = ownRelation) && (1 <? length (slice_elems v))%nat then Some (∅ : gset nodeKey) else None).
    assert (forall c : nodeKey, c ∈ @nil nodeKey -> c ∈ known_nodes d) as H0 by (intros c Hc; by apply elem_of_nil in Hc). revert H0.
    generalize (@nil nodeKey). induction (slice_elems v) as [|w ws IH]; intros acc H0 seen E; cbn in E; [by injection E as <-|].
    bind_ok E. unfold scan_element in E0. bind_ok E0. destruct v2 as [t|].
    + case_bool_decide; [done|]. injection E0 as <-. eapply IH; [|exact E]. intros c [Hc| ->%list_elem_of_singleton]%elem_of_app; [by apply H0|by eapply Hres].
    + injection E0 as <-. by eapply IH.
Qed.

(** The delta before ownership is validated. *)
Record ready_delta (x : committedRelationIndex) (cs : gmap nodeKey loc) (d : relationIndexDelta) : Prop := {
  rd_index : d_index d = x;
  rd_created : d_created d = cs;
  rd_scanned : scanned d (overrides d ≫= fun o => keys_of o (o_specs o));
  rd_overrides : forall o, o ∈ overrides d -> override_ok x cs o;
  rd_new : forall k, k ∈ dom cs -> k ∉ dom (x_nodes x);
  rd_targets : forall k t, d_targets d !! k = Some t -> it_key t ∈ dom cs /\ x_targets x !! k = None;
  rd_changes : ownerChanges d = [] /\ ownerPositions d = None;
  rd_creates : forall k, k ∈ dom cs -> exists o, o ∈ overrides d /\ o_key o = k;
  rd_distinct : NoDup (o_key <$> overrides d);
}.

Lemma override_keys_nodup os : NoDup (o_key <$> os) -> (forall o, o ∈ os -> relationSpecs types (key_typ (o_key o)) = Ok (o_specs o)) ->
  NoDup (os ≫= fun o => keys_of o (o_specs o)).
Proof.
  intros Hnd Hs. induction os as [|o os IH]; [constructor|]. cbn in Hnd |- *. apply NoDup_cons in Hnd as [Ho Hnd].
  apply NoDup_app. split_and!.
  - pose proof (relationSpecs_nodup types _ _ (Hs o ltac:(left))) as Hsp. unfold keys_of.
    induction (o_specs o) as [|r sp IHsp]; [constructor|]. cbn in Hsp. apply NoDup_cons in Hsp as [Hr Hsp]. rewrite filter_cons.
    destruct (decide (kind r <> inverseRelation)); [|by apply IHsp]. cbn. apply NoDup_cons. split; [|by apply IHsp].
    intros (r' & [= Er] & Hin)%list_elem_of_fmap. apply list_elem_of_filter in Hin as [_ Hin]. apply Hr. rewrite Er. by apply list_elem_of_fmap_2.
  - intros k Hk (o' & Hk' & Ho')%list_elem_of_bind. unfold keys_of in Hk, Hk'.
    apply list_elem_of_fmap in Hk as (r & -> & _), Hk' as (r' & [= E _] & _). apply Ho. rewrite E. by apply list_elem_of_fmap_2.
  - apply IH; [done|]. intros o' Ho'. apply Hs. by right.
Qed.

Lemma build_ready opened x rs cs d : NoDup (resource_key <$> rs) ->
  buildRelationIndexDeltaWithCreates types heap opened (Some x) rs cs = Ok (Some d) ->
  exists d1 d2, ready_delta x cs d1 /\ validateOwnership types d1 = Ok d2 /\ supportsOwnershipChanges d2 = true /\ d = collectInverseTargets d2 /\
    placed (overrides d1) = ((fun r => (resource_node r, t_work r)) <$> rs) ++ map_range cs.
Proof.
  intros Hnd E. unfold buildRelationIndexDeltaWithCreates in E. bind_ok E. destruct v as [os|]; [|done].
  bind_ok E. destruct v as [ts|]; [|done]. bind_ok E. destruct v as [os2|]; [|done]. bind_ok E. destruct v as [d1|]; [|done].
  bind_ok E. destruct (supportsOwnershipChanges v) eqn:Esup; [|done]. injection E as <-.
  apply resource_overrides in E0 as (new1 & -> & P1 & N1). apply created_overrides in E2 as (new2 & -> & P2 & N2). rewrite app_nil_l in *.
  assert (o_key <$> new1 = resource_node <$> rs) as K1 by (by rewrite placed_keys, P1, <- list_fmap_compose).
  assert (o_key <$> new2 = (map_range cs).*1) as K2 by (by rewrite placed_keys, P2).
  assert (forall k, k ∈ (map_range cs).*1 <-> k ∈ dom cs) as Hdom.
  { intros k. rewrite list_elem_of_fmap, elem_of_dom. split; [intros ([k' l] & -> & Hk%map_range_elem); by exists l|].
    intros [l Hl]. exists (k, l). split; [done|]. by apply map_range_elem. }
  assert (forall o, o ∈ new1 ++ new2 -> override_ok x cs o) as Hos.
  { intros o [Ho|Ho]%elem_of_app; [destruct (N1 o Ho) as [? ?]; split; [done|by left]|].
    destruct (N2 o Ho) as (? & _ & Hk). split; [done|]. right. by apply Hdom. }
  assert (forall k, k ∈ dom cs -> k ∉ dom (x_nodes x)) as Hnew.
  { intros k Hk%Hdom. rewrite <- K2 in Hk. apply list_elem_of_fmap in Hk as (o & -> & Ho). by apply N2. }
  assert (NoDup (o_key <$> new1 ++ new2)) as Hkeys.
  { rewrite fmap_app, K1, K2. apply NoDup_app. split_and!; [| |apply map_range_nodup].
    - clear -Hnd. induction rs as [|r rs IH]; [constructor|]. cbn in *. apply NoDup_cons in Hnd as [Hr Hnd]. apply NoDup_cons. split; [|by apply IH].
      intros (r' & E & Hin)%list_elem_of_fmap. apply Hr. apply list_elem_of_fmap. exists r'. split; [|done]. unfold resource_node in E. unfold resource_key. congruence.
    - intros k Hk Hk2%Hdom. rewrite <- K1 in Hk. apply list_elem_of_fmap in Hk as (o & -> & Ho). by apply (Hnew (o_key o)), N1. }
  apply scan_overrides_steps with (keys := []) in E3 as [Hb Hsc]; [|done| |].
  2: { split; [apply no_fields_wf|done|by constructor]. }
  2: { rewrite app_nil_l. apply override_keys_nodup; [done|]. intros o Ho. by apply Hos. }
  destruct Hb as (B1 & B2 & B3 & B4 & B5 & B6). cbn in *.
  exists d1, v. split; [|split_and!; [done..|by rewrite B4; unfold placed in *; rewrite fmap_app, P1, P2]]. split; rewrite ?B1, ?B2, ?B3, ?B4; try done.
  - by eapply created_targets.
  - intros k Hk%Hdom. rewrite <- K2 in Hk. apply list_elem_of_fmap in Hk as (o & -> & Ho). exists o. split; [|done].
    apply elem_of_app. by right.
Qed.
End built.

(** ** The owners the new fields give *)

Section valid.
Context (types : typeEnv) `{!MapOrder nodeKey} `{!MapOrder string} (heap : gmap loc goval).
Context (x : committedRelationIndex) (out : gmap nodeKey (list nodeKey)) (cs : gmap nodeKey loc) (d : relationIndexDelta).
Context (graph : graph_ok types x out) (ready : ready_delta types heap x cs d).
Notation old := (targets_of x).

(** The targets of the fields once the delta is published. *)
Definition new_targets (f : relationHolderField) : list nodeKey :=
  match fd_lookup (d_fields d) !! f with Some fl => if_targets fl | None => old f end.

Lemma fields_ok : fields_wf (d_fields d).
Proof. apply (rd_scanned _ _ _ _ _ ready). Qed.

Lemma entry_spec e : e ∈ values (d_fields d) -> exists r, if_spec (fd_field e) = Some r /\ spec_at types (fd_key e) = Some r /\ fd_lookup (d_fields d) !! fd_key e = Some (fd_field e).
Proof.
  intros He. pose proof (sc_entries _ _ _ _ (rd_scanned _ _ _ _ _ ready)) as Hall. rewrite Forall_forall in Hall.
  destruct (Hall e He) as (o & r & Ho & Hr & _ & Ek & Es & _). exists r. split_and!; [done| |apply fd_lookup_Some; [apply fields_ok|by destruct e]].
  rewrite Ek. destruct (rd_overrides _ _ _ _ _ ready o Ho) as [Hs _]. by eapply spec_at_intro.
Qed.

Lemma lookup_entry f fl : fd_lookup (d_fields d) !! f = Some fl -> {| fd_key := f; fd_field := fl |} ∈ values (d_fields d).
Proof. intros H. apply fd_lookup_Some; [apply fields_ok|done]. Qed.

(** *** Incoming own references *)

Notation weighted := (relationHolderField * relationSpec * Z)%type.
Definition tally (st : option incomingOwn * Z) (p : weighted) : option incomingOwn * Z :=
  if (0 <? p.2)%Z then (if (st.2 =? 0)%Z then Some {| ow_owner := hf_holder p.1.1; ow_spec := Some p.1.2 |} else st.1, (st.2 + p.2)%Z) else st.

Lemma tally_spec (l : list weighted) : match filter (fun p => (0 < p.2)%Z) l with
  | [] => foldl tally (None, 0%Z) l = (None, 0%Z)
  | p :: rest => (foldl tally (None, 0%Z) l).1 = Some {| ow_owner := hf_holder p.1.1; ow_spec := Some p.1.2 |} /\
      (p.2 + Z.of_nat (length rest) <= (foldl tally (None, 0%Z) l).2)%Z /\ (rest = [] -> (foldl tally (None, 0%Z) l).2 = p.2)
  end.
Proof.
  induction l as [|q l IH] using rev_ind; [done|]. rewrite filter_app, filter_cons, filter_nil, foldl_snoc. unfold tally at 1 3 5 7.
  destruct (decide (0 < q.2)%Z) as [Hq|Hq].
  - rewrite (proj2 (Z.ltb_lt 0 q.2) Hq). destruct (filter _ l) as [|p rest] eqn:Ef; cbn.
    + rewrite IH. cbn. split_and!; [done|lia|done].
    + destruct IH as (H1 & H2 & H3). assert (0 < p.2)%Z as Hp.
      { assert (p ∈ filter (fun p => (0 < p.2)%Z) l) as Hin by (rewrite Ef; left). by apply list_elem_of_filter in Hin as [? _]. }
      rewrite (proj2 (Z.eqb_neq _ 0)) by lia. split_and!; [done|rewrite length_app; cbn; lia|intros Hr; by destruct rest].
  - rewrite (proj2 (Z.ltb_ge 0 q.2)) by lia. rewrite app_nil_r. destruct (filter _ l); exact IH.
Qed.

Definition kept_weight (e : incomingCount) : option weighted :=
  match fd_lookup (d_fields d) !! ic_field e with
  | Some _ => None
  | None => r ← spec_at types (ic_field e); if bool_decide (kind r = ownRelation) then Some (ic_field e, r, ic_count e) else None
  end.
Definition new_weight (c : nodeKey) (e : relationFieldDelta) : option weighted :=
  r ← if_spec (fd_field e);
  if bool_decide (kind r = ownRelation) then Some (fd_key e, r, Z.of_nat (refs_to c (if_targets (fd_field e)))) else None.
Definition weights (c : nodeKey) : list weighted :=
  omap kept_weight (entries (default no_counts (x_incoming x !! c))) ++ omap (new_weight c) (values (d_fields d)).

(** A counted reference is a reference of a field that is indexed. *)
Lemma counted_field c e : e ∈ entries (default no_counts (x_incoming x !! c)) ->
  ic_count e = Z.of_nat (refs_to c (old (ic_field e))) /\ (0 < ic_count e)%Z /\
  exists r, x_fields x !! ic_field e ≫= if_spec = Some r /\ spec_at types (ic_field e) = Some r.
Proof.
  intros He. destruct (gk_counts _ _ _ graph c) as [Hw Hn]. pose proof (count_at_elem _ e Hw He) as Hc. rewrite Hn in Hc.
  pose proof (wf_positive _ Hw) as Hp. rewrite Forall_forall in Hp. specialize (Hp e He). cbn in Hp. split_and!; [done|done|].
  assert (c ∈ old (ic_field e)) as Hin by (apply refs_to_elem; lia). unfold targets_of in Hin.
  destruct (x_fields x !! ic_field e) as [fl|] eqn:Ef; [|by apply elem_of_nil in Hin].
  destruct (gk_specs _ _ _ graph _ _ Ef) as [H1 H2]. destruct H2 as [r Hr]; [intros E; rewrite E in Hin; by apply elem_of_nil in Hin|].
  exists r. split; [exact Hr|]. by apply H1.
Qed.

Lemma tally_refs (c : nodeKey) (f : relationHolderField) (r : relationSpec) ts st : (0 <= st.2)%Z ->
  foldl (fun (st : option incomingOwn * Z) tgt =>
    if bool_decide (tgt = c) then (if (st.2 =? 0)%Z then Some {| ow_owner := hf_holder f; ow_spec := Some r |} else st.1, (st.2 + 1)%Z) else st) st ts
  = tally st (f, r, Z.of_nat (refs_to c ts)).
Proof.
  revert st. induction ts as [|t ts IH]; intros [o n] Hn; cbn in Hn; [done|]. cbn [foldl]. rewrite refs_to_cons. case_bool_decide as Ht.
  - rewrite IH by (cbn; lia). unfold tally. cbn [fst snd]. rewrite (decide_True (P := t = c)) by done.
    rewrite (proj2 (Z.ltb_lt 0 (Z.of_nat (1 + refs_to c ts)))) by lia. rewrite (proj2 (Z.eqb_neq (n + 1) 0)) by lia.
    destruct (Z.ltb_spec 0 (Z.of_nat (refs_to c ts))); [f_equal; lia|f_equal; lia].
  - rewrite IH by done. by rewrite (decide_False (P := t = c)).
Qed.

Lemma tally_nonneg st p : (0 <= st.2)%Z -> (0 <= (tally st p).2)%Z.
Proof. intros H. unfold tally. destruct (Z.ltb_spec 0 p.2); cbn; lia. Qed.
Lemma tallies_nonneg l st : (0 <= st.2)%Z -> (0 <= (foldl tally st l).2)%Z.
Proof. revert st. induction l as [|p l IH]; intros st H; [done|]. cbn. by apply IH, tally_nonneg. Qed.

Lemma effectiveIncomingOwn_weights d' c : d_index d' = x -> d_fields d' = d_fields d ->
  effectiveIncomingOwn d' c = Ok (foldl tally (None, 0%Z) (weights c)).
Proof.
  intros Hx Hf. unfold effectiveIncomingOwn, weights. rewrite Hx, Hf, foldl_app.
  assert (forall es st, es ⊆ entries (default no_counts (x_incoming x !! c)) -> (0 <= st.2)%Z ->
    fold_outcome (count_incoming d') st es = Ok (foldl tally st (omap kept_weight es))) as H1.
  { induction es as [|e es IH]; intros st Hsub Hst; [done|]. cbn [fold_outcome omap list_omap].
    destruct (counted_field c e ltac:(set_solver)) as (_ & Hp & r & Er & Es).
    assert (count_incoming d' st e = Ok match kept_weight e with Some p => tally st p | None => st end) as ->.
    { unfold count_incoming, kept_weight. rewrite Hf, fd_find_spec, Hx by apply fields_ok. cbn [mbind outcome_bind].
      destruct (fd_lookup (d_fields d) !! ic_field e); [done|]. rewrite Er, Es. cbn [mbind option_bind].
      destruct (bool_decide (kind r = ownRelation)); cbn [andb]; [|done]. unfold tally. cbn [fst snd].
      by rewrite (proj2 (Z.ltb_lt 0 (ic_count e)) Hp). }
    cbn [mbind outcome_bind]. destruct (kept_weight e); cbn [foldl]; apply IH; try set_solver; by apply tally_nonneg. }
  rewrite H1 by done. cbn [mbind outcome_bind].
  assert (forall es st, es ⊆ values (d_fields d) -> (0 <= st.2)%Z ->
    fold_outcome (count_replacement c) st es = Ok (foldl tally st (omap (new_weight c) es))) as H2.
  { induction es as [|e es IH]; intros st Hsub Hst; [done|]. cbn [fold_outcome omap list_omap].
    destruct (entry_spec e ltac:(set_solver)) as (r & Er & _).
    assert (count_replacement c st e = Ok match new_weight c e with Some p => tally st p | None => st end) as ->.
    { unfold count_replacement, new_weight. rewrite Er. cbn [mbind option_bind].
      destruct (bool_decide (kind r = ownRelation)); cbn [negb]; [|done]. by rewrite tally_refs. }
    cbn [mbind outcome_bind]. destruct (new_weight c e); cbn [foldl]; apply IH; try set_solver; by apply tally_nonneg. }
  apply H2; [done|]. by apply tallies_nonneg.
Qed.

(** The weights are the own references of the new fields. *)
Lemma weights_own c f : own_edge types new_targets f c <-> exists r n, (f, r, n) ∈ weights c /\ (0 < n)%Z.
Proof.
  unfold own_edge, weights. split.
  - intros [Hk Hc]. destruct (spec_at types f) as [r|] eqn:Es; [|done]. injection Hk as Hk. exists r, (Z.of_nat (refs_to c (new_targets f))).
    rewrite elem_of_app, !list_elem_of_omap. split; [|apply refs_to_elem in Hc; lia]. unfold new_targets in *.
    destruct (fd_lookup (d_fields d) !! f) as [fl|] eqn:Ef.
    + right. exists {| fd_key := f; fd_field := fl |}. pose proof (lookup_entry f fl Ef) as He. split; [done|].
      destruct (entry_spec _ He) as (r' & Er & Es' & _). cbn in Er, Es'. unfold new_weight. cbn. rewrite Er. cbn.
      assert (r' = r) as -> by congruence. by rewrite bool_decide_true.
    + left. destruct (gk_counts _ _ _ graph c) as [Hw Hn]. apply refs_to_elem in Hc.
      destruct (proj1 (count_at_positive _ f Hw)) as (e & He & <-); [rewrite Hn; lia|]. exists e. split; [done|].
      unfold kept_weight. rewrite Ef, Es. cbn. rewrite bool_decide_true by done. destruct (counted_field c e He) as (-> & _). done.
  - intros (r & n & Hin & Hn). apply elem_of_app in Hin as [Hin|Hin]; apply list_elem_of_omap in Hin as (e & He & Hw).
    + unfold kept_weight in Hw. destruct (fd_lookup (d_fields d) !! ic_field e) eqn:Ef; [done|].
      destruct (spec_at types (ic_field e)) as [r'|] eqn:Es; [|done]. cbn in Hw. case_bool_decide as Hk; [|done]. injection Hw as <- <- <-.
      rewrite Es. cbn. split; [by rewrite Hk|]. unfold new_targets. rewrite Ef. destruct (counted_field c e He) as (E & _). apply refs_to_elem. lia.
    + destruct (entry_spec e He) as (r' & Er & Es & El). unfold new_weight in Hw. rewrite Er in Hw. cbn in Hw. case_bool_decide as Hk; [|done].
      injection Hw as <- <- <-. rewrite Es. cbn. split; [by rewrite Hk|]. unfold new_targets. rewrite El. apply refs_to_elem. lia.
Qed.

Lemma weights_count c f r n : (f, r, n) ∈ weights c -> n = Z.of_nat (refs_to c (new_targets f)).
Proof.
  unfold weights. intros [Hin|Hin]%elem_of_app; apply list_elem_of_omap in Hin as (e & He & Hw).
  - unfold kept_weight in Hw. destruct (fd_lookup (d_fields d) !! ic_field e) eqn:Ef; [done|].
    destruct (spec_at types (ic_field e)) as [r'|] eqn:Es; [|done]. cbn in Hw. case_bool_decide as Hk; [|done]. injection Hw as <- <- <-.
    unfold new_targets. rewrite Ef. by destruct (counted_field c e He) as (E & _).
  - destruct (entry_spec e He) as (r' & Er & Es & El). unfold new_weight in Hw. rewrite Er in Hw. cbn in Hw. case_bool_decide as Hk; [|done].
    injection Hw as <- <- <-. unfold new_targets. by rewrite El.
Qed.

(** *** The owner of one child *)

Lemma first_owned_by_spec d' c specs b : d_index d' = x -> d_fields d' = d_fields d ->
  first_owned_by d' c specs = Ok b -> ow_owner <$> b = head (omap (back_target new_targets c) specs).
Proof.
  intros Hx Hf. induction specs as [|r specs IH]; cbn [first_owned_by omap list_omap]; [by intros [= <-]|].
  unfold back_target at 1. destruct (bool_decide (kind r = ownedByRelation)); cbn [negb]; [|exact IH].
  rewrite Hf, fd_find_spec, Hx by apply fields_ok. cbn [mbind outcome_bind].
  assert (match fd_lookup (d_fields d) !! {| hf_holder := c; hf_field := fieldIndex r |} with Some f => if_targets f
    | None => match x_fields x !! {| hf_holder := c; hf_field := fieldIndex r |} with Some f => if_targets f | None => [] end end
    = new_targets {| hf_holder := c; hf_field := fieldIndex r |}) as -> by done.
  destruct (new_targets _) as [|o [|]]; [exact IH| |exact IH]. by intros [= <-].
Qed.

Lemma effectiveOwnedBy_spec d' c b : d_index d' = x -> d_fields d' = d_fields d ->
  effectiveOwnedBy types d' c = Ok b -> ow_owner <$> b = back_of types new_targets c.
Proof.
  intros Hx Hf. unfold effectiveOwnedBy, back_of. destruct (relationSpecs types (key_typ c)) as [specs| |]; [|by intros [= <-]|done].
  by apply first_owned_by_spec.
Qed.

(** What the owner of a child must satisfy. *)
Record child_ok (c : nodeKey) (o : option nodeKey) : Prop := {
  ck_owner : forall a, o = Some a <-> field_owner types new_targets c a;
  ck_sole : forall f f', own_edge types new_targets f c -> own_edge types new_targets f' c -> f = f' /\ refs_to c (new_targets f) = 1;
  ck_agree : forall f a, own_edge types new_targets f c -> back_of types new_targets c = Some a -> hf_holder f = a;
}.

Lemma validate_child_spec d' c d'' : d_index d' = x -> d_fields d' = d_fields d -> validate_child types d' c = Ok d'' ->
  exists o, child_ok c o /\ d'' = if bool_decide (x_owners x !! c = o) then d' else setOwnerChange d' c {| before := x_owners x !! c; after := o |}.
Proof.
  intros Hx Hf E. unfold validate_child in E. rewrite effectiveIncomingOwn_weights in E by done. cbn [mbind outcome_bind] in E. bind_ok E.
  pose proof (effectiveOwnedBy_spec _ _ _ Hx Hf E0) as Hb. pose proof (tally_spec (weights c)) as Ht.
  set (raw := foldl tally (None, 0%Z) (weights c)) in *.
  assert (forall f, own_edge types new_targets f c <-> exists r n, (f, r, n) ∈ filter (fun p => (0 < p.2)%Z) (weights c)) as Hown.
  { intros f. rewrite weights_own. setoid_rewrite list_elem_of_filter. cbn. naive_solver. }
  destruct (Z.ltb_spec 1 raw.2) as [|Hle]; [done|]. rewrite Hx in E.
  destruct (filter (fun p => (0 < p.2)%Z) (weights c)) as [|p rest] eqn:Ef.
  - rewrite Ht in E. cbn in E. exists (back_of types new_targets c).
    assert (forall f, ~ own_edge types new_targets f c) as Hno by (intros f (r & n & Hin)%Hown; by apply elem_of_nil in Hin).
    split; [split; [|intros f ? Hof; by destruct (Hno f)..]|].
    + intros a. unfold field_owner. split; [intros H; right; done|]. by intros [(f & Hof & _)|[_ H]]; [destruct (Hno f)|].
    + rewrite <- Hb. case_bool_decide; [by injection E as <-|by injection E as <-].
  - destruct Ht as (H1 & H2 & H3). assert (0 < p.2)%Z as Hp.
    { assert (p ∈ filter (fun p => (0 < p.2)%Z) (weights c)) as Hin by (rewrite Ef; left). by apply list_elem_of_filter in Hin as [? _]. }
    destruct rest as [|q rest]; [|cbn in H2; lia]. specialize (H3 eq_refl). rewrite (proj2 (Z.eqb_eq raw.2 1)) in E by lia. rewrite H1 in E. cbn in E.
    destruct p as [[f r] n]. cbn in *.
    assert (own_edge types new_targets f c) as Hof by (apply Hown; exists r, n; left).
    assert (forall f', own_edge types new_targets f' c -> f' = f) as Huniq.
    { intros f' (r' & n' & Hin)%Hown. apply list_elem_of_singleton in Hin. congruence. }
    assert ((f, r, n) ∈ weights c) as Hin.
    { assert ((f, r, n) ∈ filter (fun p : weighted => (0 < p.2)%Z) (weights c)) as Hin by (rewrite Ef; left). by apply list_elem_of_filter in Hin as [_ ?]. }
    apply weights_count in Hin as Hn.
    assert (forall a, back_of types new_targets c = Some a -> hf_holder f = a) as Hag.
    { intros a Ha. rewrite Ha in Hb. destruct v as [b|]; [|done]. injection Hb as Hb. rewrite Hb in E. by case_bool_decide. }
    exists (Some (hf_holder f)). split; [split|].
    + intros a. unfold field_owner. split; [intros [= <-]; left; by exists f|]. intros [(f' & Hf' & <-)|[Hno _]]; [by rewrite (Huniq f' Hf')|by destruct (Hno f)].
    + intros f1 f2 ->%Huniq ->%Huniq. split; [done|]. lia.
    + intros f1 a ->%Huniq. apply Hag.
    + assert (match v with Some b => negb (bool_decide (hf_holder f = ow_owner b)) | None => false end = false) as Hc.
      { destruct v as [b|]; [|done]. cbn in Hb. rewrite bool_decide_true; [done|]. by apply Hag. }
      rewrite Hc in E. case_bool_decide; by injection E as <-.
Qed.

(** *** The affected children *)

Lemma affected_spec ks es ks' d' : d_index d' = x -> keys_wf ks -> es ⊆ values (d_fields d) ->
  fold_outcome (affected_field d') ks es = Ok ks' -> keys_wf ks' /\ all_keys ks ⊆ all_keys ks' /\
  forall e r, e ∈ es -> spec_at types (fd_key e) = Some r ->
    (kind r = ownRelation -> old (fd_key e) ⊆ all_keys ks' /\ if_targets (fd_field e) ⊆ all_keys ks') /\
    (kind r = ownedByRelation -> hf_holder (fd_key e) ∈ all_keys ks').
Proof.
  intros Hx. revert ks. induction es as [|e es IH]; intros ks Hw Hsub E; cbn in E.
  - injection E as <-. split_and!; [done..|]. intros e r He. by apply elem_of_nil in He.
  - bind_ok E. destruct (entry_spec e ltac:(set_solver)) as (r & Er & Es & _). unfold affected_field in E0. rewrite Er, Hx in E0.
    change (match x_fields x !! fd_key e with Some f => if_targets f | None => [] end) with (old (fd_key e)) in E0.
    assert (keys_wf v /\ all_keys ks ⊆ all_keys v /\ (kind r = ownRelation -> old (fd_key e) ⊆ all_keys v /\ if_targets (fd_field e) ⊆ all_keys v) /\
      (kind r = ownedByRelation -> hf_holder (fd_key e) ∈ all_keys v)) as (V1 & V2 & V3 & V4).
    { set (ks1 := if bool_decide (kind r = ownRelation) then _ else _) in E0.
      assert (keys_wf ks1 /\ all_keys ks ⊆ all_keys ks1 /\ (kind r = ownRelation -> old (fd_key e) ⊆ all_keys ks1 /\ if_targets (fd_field e) ⊆ all_keys ks1)) as (K1 & K2 & K3).
      { unfold ks1. clear E0. destruct (bool_decide_reflect (kind r = ownRelation)) as [Hk|Hk]; [|split; [exact Hw|split; [done|intros ?; done]]]. destruct (ks_adds_spec ks (old (fd_key e)) Hw) as [A1 A2].
        destruct (ks_adds_spec _ (if_targets (fd_field e)) A1) as [B1 B2]. split_and!; [done| |intros _; split]; intros k Hk'; apply B2; [left; apply A2; by left|left; apply A2; by right|by right]. }
      clearbody ks1. injection E0 as <-. destruct (bool_decide_reflect (kind r = ownedByRelation)) as [Hk|Hk].
      - destruct (ks_adds_spec ks1 [hf_holder (fd_key e)] K1) as [A1 A2]. cbn in A1, A2. split_and!; [done| | |].
        + intros k Hk'. apply A2. left. by apply K2.
        + intros Hk'. destruct (K3 Hk'). congruence.
        + intros _. apply A2. right. left.
      - split; [exact K1|]. split; [exact K2|]. split; [exact K3|done]. }
    destruct (IH v V1 ltac:(set_solver) E) as (H1 & H2 & H3). split_and!; [done|by etrans|].
    intros e' r' [->|He']%elem_of_cons Hs; [|by eapply H3]. assert (r' = r) as -> by congruence. split.
    + intros Hk. destruct (V3 Hk). split; by etrans.
    + intros Hk. by apply H2, V4.
Qed.

(** A child that is not affected keeps its owner. *)
Lemma unaffected ks c :
  (forall e r, e ∈ values (d_fields d) -> spec_at types (fd_key e) = Some r ->
    (kind r = ownRelation -> old (fd_key e) ⊆ ks /\ if_targets (fd_field e) ⊆ ks) /\
    (kind r = ownedByRelation -> hf_holder (fd_key e) ∈ ks)) -> c ∉ ks ->
  (forall f, own_edge types new_targets f c <-> own_edge types old f c) /\ back_of types new_targets c = back_of types old c /\
  (forall f, own_edge types old f c -> new_targets f = old f).
Proof.
  intros Hks Hc.
  assert (forall f fl, fd_lookup (d_fields d) !! f = Some fl -> kind <$> spec_at types f = Some ownRelation -> c ∉ if_targets fl /\ c ∉ old f) as Hnot.
  { intros f fl Hf Hk. apply lookup_entry in Hf as He. destruct (spec_at types f) as [r|] eqn:Es; [|done]. injection Hk as Hk.
    destruct (Hks _ r He Es) as [H _]. destruct (H Hk) as [H1 H2]. cbn in H1, H2. split; [intros Hin; apply Hc; by apply H2|intros Hin; apply Hc; by apply H1]. }
  split_and!.
  - intros f. unfold own_edge, new_targets. destruct (fd_lookup (d_fields d) !! f) as [fl|] eqn:Ef; [|done].
    split; intros [Hk Hin]; destruct (Hnot f fl Ef Hk); done.
  - unfold back_of. destruct (relationSpecs types (key_typ c)) as [specs| |] eqn:Es; [|done..]. f_equal.
    assert (forall l, l ⊆ specs -> omap (back_target new_targets c) l = omap (back_target old c) l) as H; [|by apply H].
    induction l as [|r l IH]; intros Hsub; [done|]. cbn [omap list_omap]. rewrite IH by set_solver.
    assert (back_target new_targets c r = back_target old c r) as ->; [|done].
    unfold back_target. case_bool_decide as Hk; [|done]. unfold new_targets.
    destruct (fd_lookup (d_fields d) !! {| hf_holder := c; hf_field := fieldIndex r |}) as [fl|] eqn:Ef; [|done].
    apply lookup_entry in Ef as He. exfalso. apply Hc. destruct (Hks _ r He) as [_ H]; [|by apply (H Hk)].
    cbn. eapply spec_at_intro; [exact Es|set_solver|done].
  - intros f [Hk Hin]. unfold new_targets. destruct (fd_lookup (d_fields d) !! f) as [fl|] eqn:Ef; [|done]. by destruct (Hnot f fl Ef Hk).
Qed.

(** *** The changes *)

Definition now_map (d' : relationIndexDelta) : gmap nodeKey (option nodeKey) :=
  list_to_map ((fun e => (od_child e, after (change e))) <$> ownerChanges d').
Definition now (d' : relationIndexDelta) (c : nodeKey) : option nodeKey := default (x_owners x !! c) (now_map d' !! c).

Record changes_ok (d' : relationIndexDelta) (done : list nodeKey) : Prop := {
  co_base : d_index d' = x /\ d_created d' = d_created d /\ d_targets d' = d_targets d /\ overrides d' = overrides d /\
    d_fields d' = d_fields d /\ inverseTargets d' = inverseTargets d;
  co_nodup : NoDup (od_child <$> ownerChanges d');
  co_positions : forall m, ownerPositions d' = Some m -> forall k p, m !! k = Some p <-> od_child <$> ownerChanges d' !! p = Some k;
  co_changes : forall e, e ∈ ownerChanges d' -> od_child e ∈ done /\ before (change e) = x_owners x !! od_child e;
  co_done : forall c, c ∈ done -> child_ok c (now d' c);
}.

Lemma now_changed d' e : NoDup (od_child <$> ownerChanges d') -> e ∈ ownerChanges d' -> now d' (od_child e) = after (change e).
Proof.
  intros Hnd He. unfold now. assert (now_map d' !! od_child e = Some (after (change e))) as ->; [|done]. unfold now_map.
  apply elem_of_list_to_map; [rewrite <- list_fmap_compose; exact Hnd|]. apply list_elem_of_fmap. by exists e.
Qed.
Lemma now_same d' c : c ∉ od_child <$> ownerChanges d' -> now d' c = x_owners x !! c.
Proof.
  intros Hc. unfold now, now_map. rewrite not_elem_of_list_to_map_1; [done|]. rewrite <- list_fmap_compose. exact Hc.
Qed.

Lemma ownerChange_spec d' c dn : changes_ok d' dn -> ownerChange d' c = Ok (list_find (fun e => od_child e = c) (ownerChanges d') ≫= fun p => Some (change p.2)).
Proof.
  intros Hc. unfold ownerChange. destruct (ownerPositions d') as [m|] eqn:Em.
  - destruct (m !! c) as [i|] eqn:Ei.
    + apply (co_positions _ _ Hc m Em) in Ei. apply fmap_Some in Ei as (e & Ee & ->). rewrite Ee.
      destruct (list_find (fun e0 => od_child e0 = od_child e) (ownerChanges d')) as [[j e']|] eqn:Ef.
      * apply list_find_Some in Ef as (E1 & E2 & _). cbn. f_equal. f_equal.
        assert (i = j) as <-; [|congruence]. apply (NoDup_lookup (od_child <$> ownerChanges d') i j (od_child e) (co_nodup _ _ Hc));
          rewrite list_lookup_fmap, ?Ee, ?E1; [done|cbn; by rewrite E2].
      * apply list_find_None in Ef. rewrite Forall_forall in Ef. destruct (Ef e); [by eapply list_elem_of_lookup_2|done].
    + destruct (list_find (fun e0 => od_child e0 = c) (ownerChanges d')) as [[j e']|] eqn:Ef; [|done].
      apply list_find_Some in Ef as (E1 & E2 & _). assert (m !! c = Some j) by (apply (co_positions _ _ Hc m Em); rewrite E1; cbn; by rewrite E2). congruence.
  - by destruct (list_find _ _).
Qed.

Lemma effectiveOwner_now d' c dn : changes_ok d' dn -> effectiveOwner d' c = Ok (now d' c).
Proof.
  intros Hc. unfold effectiveOwner. rewrite (ownerChange_spec d' c dn Hc). cbn [mbind outcome_bind]. rewrite (proj1 (co_base _ _ Hc)). f_equal.
  destruct (list_find (fun e => od_child e = c) (ownerChanges d')) as [[j e]|] eqn:Ef.
  - apply list_find_Some in Ef as (E1 & E2 & _). cbn. rewrite <- E2. symmetry. apply now_changed; [apply Hc|by eapply list_elem_of_lookup_2].
  - cbn. symmetry. apply now_same. intros (e & -> & He)%list_elem_of_fmap. apply list_find_None in Ef. rewrite Forall_forall in Ef. by apply (Ef e).
Qed.

Lemma validate_step d' dn c d'' : changes_ok d' dn -> c ∉ dn -> validate_child types d' c = Ok d'' -> changes_ok d'' (dn ++ [c]).
Proof.
  intros Hc Hnew E. destruct Hc as [H1 H2 H3 H4 H5]. destruct H1 as (B1 & B2 & B3 & B4 & B5 & B6).
  destruct (validate_child_spec d' c d'' B1 B5 E) as (o & Ho & ->).
  assert (c ∉ od_child <$> ownerChanges d') as Hcn.
  { intros (e & -> & He)%list_elem_of_fmap. apply Hnew. by apply (H4 e). }
  case_bool_decide as Heq.
  - split; [done..| |].
    + intros e He. destruct (H4 e He). split; [set_solver|done].
    + intros k [Hk| ->%list_elem_of_singleton]%elem_of_app; [by apply H5|]. rewrite now_same by done. by rewrite Heq.
  - set (e := {| od_child := c; change := {| before := x_owners x !! c; after := o |} |}).
    set (d2 := setOwnerChange d' c _).
    assert (NoDup (od_child <$> ownerChanges d' ++ [e])) as Hnd.
    { rewrite fmap_app. apply NoDup_app. split_and!; [done| |apply NoDup_singleton]. intros k Hk ->%list_elem_of_singleton. done. }
    assert (ownerPositions d' ≫= (.!! c) = None) as Hp.
    { destruct (ownerPositions d') as [m|] eqn:Em; [|done]. cbn. destruct (m !! c) as [i|] eqn:Ei; [|done]. exfalso. apply Hcn.
      apply (H3 m eq_refl) in Ei. apply fmap_Some in Ei as (e' & Ee & ->). eapply list_elem_of_fmap_2, list_elem_of_lookup_2, Ee. }
    assert (ownerChanges d2 = ownerChanges d' ++ [e]) as Ec by (unfold d2, setOwnerChange; rewrite Hp; by case_match).
    assert (d_index d2 = d_index d' /\ d_created d2 = d_created d' /\ d_targets d2 = d_targets d' /\ overrides d2 = overrides d' /\
      d_fields d2 = d_fields d' /\ inverseTargets d2 = inverseTargets d') as (C1 & C2 & C3 & C4 & C5 & C6) by (unfold d2, setOwnerChange; rewrite Hp; by case_match).
    split.
    + rewrite C1, C2, C3, C4, C5, C6. done.
    + by rewrite Ec.
    + rewrite Ec. intros m Hm k p. unfold d2, setOwnerChange in Hm. rewrite Hp in Hm. fold e in Hm.
      destruct (length (ownerChanges d' ++ [e]) =? 9)%nat; cbn in Hm.
      * injection Hm as <-. by apply all_positions.
      * destruct (ownerPositions d') as [m0|] eqn:Em; [|done]. injection Hm as <-. apply (snoc_positions od_child (ownerChanges d') e m0); [done|]. by apply H3.
    + intros e' He'. rewrite Ec in He'. apply elem_of_app in He' as [He'| ->%list_elem_of_singleton].
      * destruct (H4 e' He'). split; [set_solver|done].
      * split; [set_solver|done].
    + intros k [Hk| ->%list_elem_of_singleton]%elem_of_app.
      * assert (now d2 k = now d' k) as ->; [|by apply H5]. unfold now, now_map. rewrite Ec, fmap_app, list_to_map_app. cbn.
        rewrite lookup_union, lookup_insert_ne, lookup_empty by (intros ->; done). by rewrite right_id_L by apply _.
      * assert (now d2 c = o) as ->; [|done]. apply (now_changed d2 e); rewrite Ec; [done|]. apply elem_of_app. right. left.
Qed.

Lemma validate_steps d' dn l d'' : changes_ok d' dn -> NoDup (dn ++ l) -> fold_outcome (validate_child types) d' l = Ok d'' -> changes_ok d'' (dn ++ l).
Proof.
  revert d' dn. induction l as [|c l IH]; intros d' dn Hc Hnd E; cbn in E; [injection E as <-; by rewrite app_nil_r|].
  bind_ok E. assert (dn ++ c :: l = (dn ++ [c]) ++ l) as El by (by rewrite <- app_assoc). rewrite El in *. eapply IH; [|done|exact E].
  eapply validate_step; [done| |done]. rewrite <- app_assoc in Hnd. apply NoDup_app in Hnd as (_ & Hd & _). intros Hin. apply (Hd _ Hin). left.
Qed.

Lemma validateOwnership_spec d2 : validateOwnership types d = Ok d2 -> exists ks, changes_ok d2 ks /\
  (forall e r, e ∈ values (d_fields d) -> spec_at types (fd_key e) = Some r ->
    (kind r = ownRelation -> old (fd_key e) ⊆ ks /\ if_targets (fd_field e) ⊆ ks) /\
    (kind r = ownedByRelation -> hf_holder (fd_key e) ∈ ks)) /\
  forall c, c ∈ ks -> validateOwnerChain d2 c = Ok tt.
Proof.
  unfold validateOwnership. intros E. bind_ok E. rename v into affected. bind_ok E. bind_ok E. injection E as <-.
  assert (keys_wf no_keys) as Hw0 by (split; [constructor|cbn; split; [done|unfold inline_cap; lia]]).
  destruct (affected_spec no_keys _ _ d (rd_index _ _ _ _ _ ready) Hw0 ltac:(done) E0) as (Hw & _ & Haff).
  rewrite ks_keys_all in E1, E2 by done. exists (all_keys affected). destruct (rd_changes _ _ _ _ _ ready) as [Hc1 Hc2].
  split_and!; [| exact Haff|].
  - change (all_keys affected) with ([] ++ all_keys affected). eapply validate_steps; [| |exact E1]; [|by apply Hw].
    split; [split; [apply (rd_index _ _ _ _ _ ready)|done]|rewrite Hc1; constructor|by rewrite Hc2| |].
    + intros e He. rewrite Hc1 in He. by apply elem_of_nil in He.
    + intros c Hc. by apply elem_of_nil in Hc.
  - clear -E2. induction (all_keys affected) as [|k l IH]; intros c Hc; [by apply elem_of_nil in Hc|]. cbn [fold_outcome] in E2. bind_ok E2.
    match goal with H : validateOwnerChain _ _ = Ok ?u |- _ => destruct u; apply elem_of_cons in Hc as [->|Hc]; [exact H|by apply IH] end.
Qed.

Section validated.
Context (d2 : relationIndexDelta) (ks : list nodeKey) (changes : changes_ok d2 ks).
Context (affected : forall e r, e ∈ values (d_fields d) -> spec_at types (fd_key e) = Some r ->
    (kind r = ownRelation -> old (fd_key e) ⊆ ks /\ if_targets (fd_field e) ⊆ ks) /\
    (kind r = ownedByRelation -> hf_holder (fd_key e) ∈ ks)).

(** The rules hold of every child. *)
Lemma every_child_ok c : child_ok c (now d2 c).
Proof.
  destruct (decide (c ∈ ks)) as [Hc|Hc]; [by apply changes|].
  destruct (unaffected ks c affected Hc) as (U1 & U2 & U3).
  assert (now d2 c = x_owners x !! c) as ->.
  { apply now_same. intros (e & -> & He)%list_elem_of_fmap. apply Hc. by apply (co_changes _ _ changes). }
  split.
  - intros a. rewrite (gk_owners _ _ _ graph). unfold field_owner. rewrite U2. setoid_rewrite U1. done.
  - intros f f' Hf Hf'. rewrite U1 in Hf, Hf'. rewrite (U3 f Hf). by eapply (gk_sole _ _ _ graph).
  - intros f a Hf. rewrite U1 in Hf. rewrite U2. by eapply (gk_agree _ _ _ graph).
Qed.

(** Owner chains are walked to their end within the bound, and what is
    accepted has no cycle. *)
Definition owned_nodes : gset nodeKey := dom (x_owners x) ∪ list_to_set (od_child <$> ownerChanges d2).
Lemma now_owned c : is_Some (now d2 c) -> c ∈ owned_nodes.
Proof.
  intros Hs. unfold owned_nodes. apply elem_of_union. destruct (decide (c ∈ od_child <$> ownerChanges d2)) as [Hin|Hn].
  - right. by apply elem_of_list_to_set.
  - left. rewrite now_same in Hs by done. by apply elem_of_dom.
Qed.
Lemma owned_nodes_size : size owned_nodes <= size (x_owners x) + length (ownerChanges d2).
Proof.
  unfold owned_nodes. rewrite size_union_alt. rewrite size_dom.
  assert (size (list_to_set (od_child <$> ownerChanges d2) ∖ dom (x_owners x) : gset nodeKey) <= length (ownerChanges d2)); [|lia].
  etrans; [apply subseteq_size, subseteq_difference_l; reflexivity|].
  rewrite size_list_to_set by apply (co_nodup _ _ changes). by rewrite length_fmap.
Qed.

Lemma validateOwnerChain_spec c :
  validateOwnerChain d2 c = Ok tt /\ (exists j, nth_owner (now d2) c j = None) \/
  validateOwnerChain d2 c = Fail ErrRelationInvariant /\ forall j, is_Some (nth_owner (now d2) c j).
Proof.
  unfold validateOwnerChain. rewrite (proj1 (co_base _ _ changes)).
  destruct (chain_decides (now d2) (effectiveOwner d2) (fun c => effectiveOwner_now d2 c ks changes) owned_nodes now_owned c
    (S (size (x_owners x) + length (ownerChanges d2)))) as [[-> H]|[-> H]]; [pose proof owned_nodes_size; lia|left|right]; done.
Qed.

Context (chains : forall c, c ∈ ks -> validateOwnerChain d2 c = Ok tt).

Lemma now_acyclic c : ~ tc (fun c o => now d2 c = Some o) c c.
Proof.
  intros Hc.
  assert (forall a, a ∈ ks -> ~ tc (fun c o => now d2 c = Some o) a a) as Hks.
  { intros a Ha Hcyc. destruct (validateOwnerChain_spec a) as [[_ [j Hj]]|[E _]]; [|by rewrite (chains a Ha) in E].
    destruct (cycle_endless (now d2) a Hcyc j) as [o Ho]. congruence. }
  assert (forall a b, tc (fun c o => now d2 c = Some o) a b -> tc (owner_edge (x_owners x)) a b \/
    exists z, z ∈ ks /\ rtc (fun c o => now d2 c = Some o) a z /\ tc (fun c o => now d2 c = Some o) z b) as Hcases.
  { assert (forall a b, now d2 a = Some b -> a ∈ ks \/ x_owners x !! a = Some b) as Hstep.
    { intros a b E. destruct (decide (a ∈ od_child <$> ownerChanges d2)) as [Hin|Hn]; [|right; by rewrite now_same in E].
      left. apply list_elem_of_fmap in Hin as (e & -> & He). by apply (co_changes _ _ changes). }
    intros a b. induction 1 as [a b E|a b e E Hbe IH].
    - destruct (Hstep a b E) as [Ha|Ho]; [right; exists a; split_and!; [done|apply rtc_refl|by apply tc_once]|left; by apply tc_once].
    - destruct (Hstep a b E) as [Ha|Ho]; [right; exists a; split_and!; [done|apply rtc_refl|by eapply tc_l]|].
      destruct IH as [IH|(z & Hz & H1 & H2)]; [left; by eapply tc_l|right; exists z; split_and!; [done|by eapply rtc_l|done]]. }
  destruct (Hcases c c Hc) as [Ho|(z & Hz & H1 & H2)]; [by apply (gk_acyclic _ _ _ graph) in Ho|].
  apply (Hks z Hz). eapply tc_rtc_r; [exact H2|exact H1].
Qed.
End validated.
End valid.
