(* ===== verification/DeltaCommit.v ===== *)
(** * What an incremental commit publishes (src/relation_index.go)

    The delta of [buildRelationIndexDelta], published over a graph that is
    consistent, leaves a consistent graph: the replaced fields are counted, the
    owners are those the fields give, and the writes that follow find every
    entity they point to. *)
From S2P Require Import Prelude GoReflect RelationSchema SchemaRows RelationModel RelationGraph CommittedGraph PublishedIndex Transaction RelationDelta.

(** ** Specification *)

(** The creates, at their places in the tables. *)
Definition bind_created (d : relationIndexDelta) (binds : list (nodeKey * loc)) : relationIndexDelta :=
  foldl (fun d p => bindCreatedNode d p.1 p.2) d binds.

(** The entities of a delta, at the places it reads them. *)
Definition touched (rs : list touchedResource) (cs : gmap nodeKey loc) (k : nodeKey) (l : loc) : Prop :=
  (exists r, r ∈ rs /\ resource_node r = k /\ t_work r = l) \/ cs !! k = Some l.

(** * Lemmas *)

(** ** Replacing fields *)

Definition put_fields (fs : gmap relationHolderField indexedRelationField) (es : list relationFieldDelta) :=
  foldl (fun fs e => <[fd_key e := fd_field e]> fs) fs es.

Lemma publish_field_ok x e : counts_match (x_incoming x) (targets_of x) ->
  exists inc, publish_field x e = Ok (with_incoming (with_fields x (<[fd_key e := fd_field e]> (x_fields x))) inc) /\
    counts_match inc (upd (targets_of x) (fd_key e) (if_targets (fd_field e))).
Proof.
  intros Hx. unfold publish_field. change (match x_fields x !! fd_key e with Some f => if_targets f | None => [] end) with (targets_of x (fd_key e)).
  destruct (decrement_all x (targets_of x) (fd_key e) (targets_of x (fd_key e)) [] Hx) as (inc & -> & Hinc); [by rewrite app_nil_r|].
  cbn [mbind outcome_bind]. set (x1 := with_fields (with_incoming x inc) _).
  destruct (increment_all x1 (upd (targets_of x) (fd_key e) []) (fd_key e) (if_targets (fd_field e)) Hinc) as (inc' & E & H').
  exists inc'. rewrite E. split; [done|]. eapply counts_match_ext; [|exact H']. intros f. unfold upd. destruct (decide (f = fd_key e)) as [->|]; [|done].
  by rewrite decide_True.
Qed.

Lemma publish_fields_ok es x : counts_match (x_incoming x) (targets_of x) ->
  exists inc, fold_outcome publish_field x es = Ok (with_incoming (with_fields x (put_fields (x_fields x) es)) inc) /\
    counts_match inc (targets_of (with_fields x (put_fields (x_fields x) es))).
Proof.
  revert x. induction es as [|e es IH]; intros x Hx.
  - exists (x_incoming x). by destruct x.
  - destruct (publish_field_ok x e Hx) as (inc & E & Hinc). cbn [fold_outcome]. rewrite E. cbn [mbind outcome_bind].
    destruct (IH (with_incoming (with_fields x (<[fd_key e := fd_field e]> (x_fields x))) inc)) as (inc' & E' & Hinc').
    { cbn [x_incoming with_incoming]. eapply counts_match_ext; [|exact Hinc]. intros f. unfold upd, targets_of. cbn.
      destruct (decide (f = fd_key e)) as [->|Hne]; [by rewrite lookup_insert_eq|by rewrite lookup_insert_ne]. }
    exists inc'. rewrite E'. split; [done|]. exact Hinc'.
Qed.

Lemma put_fields_lookup fs es f : NoDup (fd_key <$> es) ->
  put_fields fs es !! f = match (list_to_map ((fun e => (fd_key e, fd_field e)) <$> es) : gmap _ _) !! f with Some fl => Some fl | None => fs !! f end.
Proof.
  revert fs. induction es as [|e es IH]; intros fs Hnd; cbn [put_fields foldl fmap list_fmap list_to_map foldr]; [by rewrite lookup_empty|].
  cbn in Hnd. apply NoDup_cons in Hnd as [He Hnd]. change (foldl _ _ es) with (put_fields (<[fd_key e := fd_field e]> fs) es). rewrite IH by done.
  cbn [uncurry fst snd]. destruct (decide (f = fd_key e)) as [->|Hne].
  - rewrite lookup_insert_eq. rewrite not_elem_of_list_to_map_1; [by rewrite lookup_insert_eq|]. rewrite <- list_fmap_compose. exact He.
  - by rewrite !lookup_insert_ne by done.
Qed.

(** ** Moving children *)

(** The children lists invert the owners. *)
Definition children_match (own : gmap nodeKey nodeKey) (out : gmap nodeKey (list nodeKey)) : Prop :=
  forall o, NoDup (default [] (out !! o)) /\ forall c, c ∈ default [] (out !! o) <-> own !! c = Some o.

Lemma slices_delete_elem {A} (l : list A) i a : NoDup l -> l !! i = Some a ->
  NoDup (slices_delete l i) /\ forall b, b ∈ slices_delete l i <-> b ∈ l /\ b <> a.
Proof.
  intros Hnd Ha. unfold slices_delete. rewrite <- (take_drop_middle l i a Ha) in Hnd.
  assert (forall b, b ∈ l <-> b ∈ take i l ++ a :: drop (S i) l) as Hl by (intros b; by rewrite (take_drop_middle l i a Ha)).
  apply NoDup_app in Hnd as (H1 & H2 & H3). apply NoDup_cons in H3 as [H3 H4]. split.
  - apply NoDup_app. split_and!; [done| |done]. intros b Hb Hb'. apply (H2 b Hb). by right.
  - intros b. rewrite Hl, !elem_of_app, elem_of_cons. split.
    + intros [Hb|Hb]; (split; [tauto|intros ->]); [by apply (H2 a Hb); left|done].
    + tauto.
Qed.

Lemma removeCommittedChild_match own out o c : children_match own out -> own !! c = Some o ->
  children_match (delete c own) (removeCommittedChild out o c).
Proof.
  intros H Hc. destruct (H o) as [Hnd Hel]. apply Hel in Hc as Hin. unfold removeCommittedChild.
  destruct (list_find_elem_of (fun k => k = c) _ c Hin eq_refl) as [[i c'] E]. rewrite E. apply list_find_Some in E as (E & -> & _).
  destruct (slices_delete_elem _ _ _ Hnd E) as [D1 D2]. intros o'. destruct (decide (o' = o)) as [->|Hne].
  - rewrite lookup_insert_eq. cbn [default from_option id]. split; [done|]. intros k. rewrite D2, Hel, lookup_delete_Some. naive_solver.
  - rewrite lookup_insert_ne by done. destruct (H o') as [Hnd' Hel']. split; [done|]. intros k. rewrite Hel', lookup_delete_Some. naive_solver.
Qed.

Lemma addCommittedChild_match own out o c : children_match own out -> own !! c = None ->
  children_match (<[c := o]> own) (addCommittedChild out o c).
Proof.
  intros H Hc. assert (forall o', c ∉ default [] (out !! o')) as Hn by (intros o' Hin%H; congruence). unfold addCommittedChild.
  rewrite bool_decide_false by done. destruct (H o) as [Hnd Hel]. intros o'. destruct (decide (o' = o)) as [->|Hne].
  - rewrite lookup_insert_eq. cbn [default from_option id]. split.
    + apply NoDup_app. split_and!; [done| |apply NoDup_singleton]. intros k Hk ->%list_elem_of_singleton. by apply (Hn o).
    + intros k. rewrite elem_of_app, list_elem_of_singleton, Hel, lookup_insert_Some. destruct (decide (c = k)) as [->|]; naive_solver.
  - rewrite lookup_insert_ne by done. destruct (H o') as [Hnd' Hel']. split; [done|]. intros k. rewrite Hel', lookup_insert_Some.
    destruct (decide (c = k)) as [->|]; naive_solver.
Qed.

Lemma publish_owner_match own out e : children_match own out -> before (change e) = own !! od_child e ->
  children_match (publish_owner (own, out) e).1 (publish_owner (own, out) e).2 /\
  (publish_owner (own, out) e).1 = partial_alter (fun _ => after (change e)) (od_child e) own.
Proof.
  intros H Hb. unfold publish_owner. rewrite Hb. destruct (own !! od_child e) as [o|] eqn:Eo; cbn [fst snd].
  - pose proof (removeCommittedChild_match _ _ _ _ H Eo) as H1. destruct (after (change e)) as [a|] eqn:Ea.
    + cbn [fst snd]. split; [apply addCommittedChild_match; [done|by rewrite lookup_delete_eq]|].
      rewrite insert_delete_eq. done.
    + done.
  - destruct (after (change e)) as [a|]; cbn [fst snd].
    + split; [by apply addCommittedChild_match|done].
    + split; [done|]. symmetry. change (delete (od_child e) own = own). by apply delete_id.
Qed.

Lemma publish_owners_match es own out : NoDup (od_child <$> es) -> (forall e, e ∈ es -> before (change e) = own !! od_child e) ->
  children_match own out -> let st := foldl publish_owner (own, out) es in children_match st.1 st.2 /\
  forall c, st.1 !! c = default (own !! c) ((list_to_map ((fun e => (od_child e, after (change e))) <$> es) : gmap nodeKey (option nodeKey)) !! c).
Proof.
  revert own out. induction es as [|e es IH]; intros own out Hnd Hb H; cbn [foldl fmap list_fmap list_to_map foldr].
  - split; [done|]. intros c. by rewrite lookup_empty.
  - cbn in Hnd. apply NoDup_cons in Hnd as [He Hnd]. destruct (publish_owner_match own out e H (Hb e ltac:(left))) as [H1 E1].
    destruct (publish_owner (own, out) e) as [own1 out1]. cbn [fst snd] in *. subst own1.
    destruct (IH (partial_alter (fun _ => after (change e)) (od_child e) own) out1 Hnd) as [H2 H3]; [|done|].
    { intros e' He'. rewrite lookup_partial_alter_ne; [apply Hb; by right|]. intros Heq. apply He. rewrite Heq. by apply list_elem_of_fmap_2. }
    split; [done|]. intros c. rewrite H3. cbn [uncurry fst snd]. destruct (decide (c = od_child e)) as [->|Hne].
    + rewrite lookup_insert_eq, lookup_partial_alter_eq, not_elem_of_list_to_map_1; [done|]. rewrite <- list_fmap_compose. exact He.
    + by rewrite lookup_insert_ne, lookup_partial_alter_ne by done.
Qed.

(** ** The graph after the commit *)

Lemma back_of_ext types ft ft' c : (forall f, ft f = ft' f) -> back_of types ft c = back_of types ft' c.
Proof.
  intros H. unfold back_of. destruct (relationSpecs types (key_typ c)) as [specs| |]; [|done..]. f_equal.
  induction specs as [|r specs IH]; [done|]. cbn [omap list_omap].
  assert (back_target ft c r = back_target ft' c r) as -> by (unfold back_target; by rewrite H). by rewrite IH.
Qed.
Lemma own_edge_ext types ft ft' f c : (forall f, ft f = ft' f) -> own_edge types ft f c <-> own_edge types ft' f c.
Proof. intros H. unfold own_edge. by rewrite H. Qed.

Section published.
Context (types : typeEnv) `{!MapOrder nodeKey} `{!MapOrder string} (heap : gmap loc goval).
Context (x : committedRelationIndex) (out : gmap nodeKey (list nodeKey)) (cs : gmap nodeKey loc).
Context (d d2 : relationIndexDelta) (ks : list nodeKey).
Context (graph : graph_ok types x out) (prep : ready_delta types heap x cs d) (changes : changes_ok types x d d2 ks).
Context (affected : forall e r, e ∈ values (d_fields d) -> spec_at types (fd_key e) = Some r ->
    (kind r = ownRelation -> targets_of x (fd_key e) ⊆ ks /\ if_targets (fd_field e) ⊆ ks) /\
    (kind r = ownedByRelation -> hf_holder (fd_key e) ∈ ks)).
Context (chains : forall c, c ∈ ks -> validateOwnerChain d2 c = Ok tt).
(** The delta that is published: the creates may have moved. *)
Context (d3 : relationIndexDelta) (same : d_index d3 = d_index d2 /\ d_targets d3 = d_targets d2 /\ d_fields d3 = d_fields d2 /\
  ownerChanges d3 = ownerChanges d2) (created : dom (d_created d3) = dom cs).

Lemma base3 : d_index d3 = x /\ d_targets d3 = d_targets d /\ d_fields d3 = d_fields d.
Proof. destruct same as (-> & -> & -> & _), (co_base _ _ _ _ _ changes) as (-> & _ & -> & _ & -> & _). done. Qed.

Lemma known3 : dom (x_nodes (add_created x d3)) = dom (x_nodes x) ∪ dom cs.
Proof. cbn. rewrite dom_union_L, created. set_solver. Qed.

Lemma entry_nodes e : e ∈ values (d_fields d) ->
  hf_holder (fd_key e) ∈ dom (x_nodes x) ∪ dom cs /\ forall c, c ∈ if_targets (fd_field e) -> c ∈ dom (x_nodes x) ∪ dom cs.
Proof.
  intros He. pose proof (sc_entries _ _ _ _ (rd_scanned _ _ _ _ _ prep)) as Hall. rewrite Forall_forall in Hall.
  destruct (Hall e He) as (o & r & Ho & Hr & _ & Ek & Es & Escan). split.
  - rewrite Ek. cbn. apply elem_of_union, (rd_overrides _ _ _ _ _ prep o Ho).
  - intros c Hc. rewrite <- (rd_index _ _ _ _ _ prep), <- (rd_created _ _ _ _ _ prep). eapply scanned_targets; [| |exact Escan|exact Hc].
    + rewrite (rd_index _ _ _ _ _ prep). apply (gk_targets _ _ _ graph).
    + intros k t Ht. rewrite (rd_created _ _ _ _ _ prep). by eapply (rd_targets _ _ _ _ _ prep).
Qed.

(** Every child has the owner its fields give it, in a graph with the new
    fields and owners. *)
Lemma graph_after x' out' : x_nodes x' = d_created d3 ∪ x_nodes x -> x_targets x' = d_targets d3 ∪ x_targets x ->
  x_fields x' = put_fields (x_fields x) (values (d_fields d)) -> counts_match (x_incoming x') (targets_of x') ->
  (forall c, x_owners x' !! c = now x d2 c) -> children_match (x_owners x') out' ->
  (forall f, targets_of x' f = new_targets x d f) /\ graph_ok types x' out'.
Proof.
  intros Hn Ht Hf Hc Ho Hch. destruct base3 as (B1 & B2 & B3).
  assert (forall f, x_fields x' !! f = match fd_lookup (d_fields d) !! f with Some fl => Some fl | None => x_fields x !! f end) as Hfl.
  { intros f. rewrite Hf. apply put_fields_lookup. apply (fields_ok types heap x cs d prep). }
  assert (forall f, targets_of x' f = new_targets x d f) as Hft.
  { intros f. unfold targets_of, new_targets. rewrite Hfl. by destruct (fd_lookup (d_fields d) !! f). }
  assert (dom (x_nodes x') = dom (x_nodes x) ∪ dom cs) as Hdom by (rewrite Hn, dom_union_L, created; set_solver).
  pose proof (every_child_ok types heap x out cs d graph prep d2 ks changes affected) as Hok.
  assert (forall f c, own_edge types (targets_of x') f c <-> own_edge types (new_targets x d) f c) as Hedge.
  { intros f c. by apply own_edge_ext. }
  split; [done|]. split.
  - done.
  - intros f fl. rewrite Hfl. destruct (fd_lookup (d_fields d) !! f) as [fl'|] eqn:E; [intros [= <-]|apply graph].
    apply (lookup_entry types heap x cs d prep) in E. destruct (entry_spec types heap x cs d prep _ E) as (r & Er & Es & _). cbn in Er, Es.
    rewrite Er. split; [by intros r' [= <-]|by eexists].
  - intros f fl. rewrite Hfl, Hdom. destruct (fd_lookup (d_fields d) !! f) as [fl'|] eqn:E.
    + intros [= <-]. apply (lookup_entry types heap x cs d prep) in E. exact (entry_nodes _ E).
    + intros E'. destruct (gk_nodes _ _ _ graph f fl E') as [H1 H2]. split; [set_solver|]. intros c Hin. apply elem_of_union. left. by apply H2.
  - intros k t. rewrite Ht, Hdom. intros [E|[_ E]]%lookup_union_Some_raw.
    + rewrite B2 in E. apply elem_of_union. right. by eapply (rd_targets _ _ _ _ _ prep).
    + apply elem_of_union. left. by eapply (gk_targets _ _ _ graph).
  - intros c f f'. rewrite !Hedge, Hft. apply (ck_sole _ _ _ _ _ (Hok c)).
  - intros c f o. rewrite Hedge, (back_of_ext _ _ _ _ Hft). apply (ck_agree _ _ _ _ _ (Hok c)).
  - intros c o. rewrite Ho, (ck_owner _ _ _ _ _ (Hok c)). unfold field_owner. rewrite (back_of_ext _ _ _ _ Hft).
    by setoid_rewrite Hedge.
  - intros c Hcyc. apply (now_acyclic types x out d graph d2 ks changes chains c).
    refine (tc_congruence id _ c c _ Hcyc). intros a b E. unfold owner_edge in E. cbn. by rewrite <- Ho.
  - intros c o. apply Hch.
  - intros o. apply Hch.
  - rewrite Hdom. intros k [Hk|Hk]%elem_of_union; [by apply (gk_known _ _ _ graph)|].
    destruct (rd_creates _ _ _ _ _ prep k Hk) as (o & Hin & <-). exists (o_specs o). by apply (rd_overrides _ _ _ _ _ prep).
Qed.

(** What [publish] returns. *)
Lemma published c : c_index c = Some x -> c_outgoing c = out -> exists c' x', publish c d3 = Ok (c', x') /\
  ready c' = ready c /\ branches c' = ∅ /\ c_index c' = Some x' /\ x_nodes x' = d_created d3 ∪ x_nodes x /\
  (forall f, targets_of x' f = new_targets x d f) /\ graph_ok types x' (c_outgoing c') /\
  forall e, e ∈ values (d_fields d) -> x_fields x' !! fd_key e = Some (fd_field e).
Proof.
  intros Hx Hout. destruct base3 as (B1 & B2 & B3).
  set (x1 := add_created x d3).
  destruct (publish_fields_ok (values (d_fields d)) x1) as (inc & E & Hinc); [apply graph|].
  destruct (publish_owners_match (ownerChanges d2) (x_owners x) out) as [Hch Hown].
  { apply changes. } { intros e He. by apply (co_changes _ _ _ _ _ changes). } { intros o. split; [apply graph|]. intros k. apply graph. }
  eexists _, _. unfold publish. rewrite B1, Hx, bool_decide_true by done. cbn [negb]. rewrite B3. fold x1. rewrite E. cbn [mbind outcome_bind].
  split; [reflexivity|]. cbn [CommittedGraph.ready branches c_index c_outgoing x_nodes with_incoming with_fields].
  do 3 (split; [done|]). split; [done|]. rewrite Hout, (proj2 (proj2 (proj2 same))). match goal with |- (forall f, targets_of ?y f = _) /\ _ => set (x' := y) end.
  assert (x_fields x' = put_fields (x_fields x) (values (d_fields d))) as Hf by done.
  destruct (graph_after x' (foldl publish_owner (x_owners x, out) (ownerChanges d2)).2) as [G1 G2]; [done..|].
  split; [exact G1|]. split; [exact G2|]. intros e He. rewrite Hf, put_fields_lookup by apply (fields_ok types heap x cs d prep).
  destruct (entry_spec types heap x cs d prep e He) as (_ & _ & _ & El). unfold fd_lookup in El. by rewrite El.
Qed.
End published.

(** ** The writes *)

Section rewired.
Context (types : typeEnv) `{!MapOrder nodeKey} `{!MapOrder string}.
Context (x : committedRelationIndex) (out : gmap nodeKey (list nodeKey)) (graph : graph_ok types x out).

Context (exported_relations : forall k specs r, k ∈ dom (x_nodes x) -> relationSpecs types (key_typ k) = Ok specs -> r ∈ specs ->
  spec_exported types r = true).

Lemma field_exported_of f fl r : x_fields x !! f = Some fl -> if_spec fl = Some r -> spec_exported types r = true.
Proof.
  intros Ef Er. destruct (gk_specs _ _ _ graph _ _ Ef) as [Hs _]. specialize (Hs r Er). destruct (gk_nodes _ _ _ graph _ _ Ef) as [Hh _].
  apply spec_at_elim in Hs as (specs & Hs & Hr & _). by eapply exported_relations.
Qed.

Lemma set_field_total heap l i sl ts : (forall c, c ∈ ts -> c ∈ dom (x_nodes x)) ->
  exists heap', setIndexedRelationField heap l i true sl ts (x_nodes x) = Ok heap'.
Proof.
  intros Hts. unfold setIndexedRelationField. cbn [negb].
  assert (forall c, c ∈ ts -> exists l, x_nodes x !! c = Some l) as Hn by (intros c Hc; by apply elem_of_dom, Hts). destruct sl; cbn [negb].
  - destruct (mapM _ ts) as [wired|] eqn:E; [by eexists|]. apply mapM_None in E. apply Exists_exists in E as (c & Hc & E).
    destruct (Hn c Hc) as [l' Hl]. by rewrite Hl in E.
  - destruct ts as [|t ts]; [by eexists|]. destruct (Hn t ltac:(left)) as [l' ->]. by eexists.
Qed.

Lemma rewire_field_total heap e : x_fields x !! fd_key e = Some (fd_field e) -> is_Some (if_spec (fd_field e)) ->
  exists heap', rewire_field types x heap e = Ok heap'.
Proof.
  intros He [r Er]. unfold rewire_field. rewrite Er. destruct (gk_nodes _ _ _ graph _ _ He) as [[l ->]%elem_of_dom Hts].
  rewrite (field_exported_of _ _ r He Er). by apply set_field_total.
Qed.

(** The entries of the counters name indexed fields. *)
Lemma counted_spec tgt e : e ∈ entries (default no_counts (x_incoming x !! tgt)) ->
  exists fl r, x_fields x !! ic_field e = Some fl /\ if_spec fl = Some r /\ tgt ∈ if_targets fl /\ hf_holder (ic_field e) ∈ dom (x_nodes x).
Proof.
  intros He. destruct (gk_counts _ _ _ graph tgt) as [Hw Hn]. pose proof (count_at_elem _ e Hw He) as Hc. rewrite Hn in Hc.
  pose proof (wf_positive _ Hw) as Hp. rewrite Forall_forall in Hp. specialize (Hp e He). cbn in Hp.
  assert (tgt ∈ targets_of x (ic_field e)) as Hin by (apply refs_to_elem; lia). unfold targets_of in Hin.
  destruct (x_fields x !! ic_field e) as [fl|] eqn:Ef; [|by apply elem_of_nil in Hin].
  destruct (gk_specs _ _ _ graph _ _ Ef) as [_ [r Hr]]; [intros E; rewrite E in Hin; by apply elem_of_nil in Hin|].
  exists fl, r. split_and!; [done..|]. exact (proj1 (gk_nodes _ _ _ graph _ _ Ef)).
Qed.

Lemma inverseHolders_total tgt r : exists hs, inverseHolders x tgt r = Ok hs /\ forall h, h ∈ hs -> h ∈ dom (x_nodes x).
Proof.
  unfold inverseHolders.
  assert (forall es (seen : gset nodeKey), es ⊆ entries (default no_counts (x_incoming x !! tgt)) -> (forall h, h ∈ seen -> h ∈ dom (x_nodes x)) ->
    exists seen' : gset nodeKey, fold_outcome (inverse_holder x r) seen es = Ok seen' /\ forall h, h ∈ seen' -> h ∈ dom (x_nodes x)) as H.
  { induction es as [|e es IH]; intros seen Hsub Hs; [by exists seen|]. cbn [fold_outcome].
    destruct (counted_spec tgt e ltac:(set_solver)) as (fl & r' & Ef & Er & _ & Hh).
    assert (exists seen1, inverse_holder x r seen e = Ok seen1 /\ forall h, h ∈ seen1 -> h ∈ dom (x_nodes x)) as (seen1 & -> & H1).
    { unfold inverse_holder. rewrite Ef. cbn [mbind option_bind]. rewrite Er.
      destruct (ic_count e <=? 0)%Z; [by exists seen|]. destruct (_ || _); [by exists seen|]. destruct (_ && _); [by exists seen|].
      eexists. split; [reflexivity|]. set_solver. }
    cbn [mbind outcome_bind]. apply IH; [set_solver|done]. }
  destruct (H (entries (default no_counts (x_incoming x !! tgt))) ∅) as (seen & -> & Hs); [done|set_solver|]. cbn [mbind outcome_bind].
  eexists. split; [reflexivity|]. intros h. rewrite SortFunc_perm, set_range_elem. apply Hs.
Qed.

Lemma fold_outcome_total {A B} (f : B -> A -> outcome B) l b : (forall a b, a ∈ l -> exists b', f b a = Ok b') -> exists b', fold_outcome f b l = Ok b'.
Proof.
  revert b. induction l as [|a l IH]; intros b Hf; [by eexists|]. cbn. destruct (Hf a b ltac:(left)) as [b' ->]. cbn. apply IH.
  intros a' b0 Ha. apply Hf. by right.
Qed.

Lemma rewire_inverse_total heap tgt : exists heap', rewire_inverse types x heap tgt = Ok heap'.
Proof.
  unfold rewire_inverse. destruct (x_nodes x !! tgt) as [l|] eqn:El; [|by eexists].
  destruct (gk_known _ _ _ graph tgt) as [specs Hspecs]; [apply elem_of_dom; by eexists|]. rewrite Hspecs.
  apply fold_outcome_total. intros r h Hr. destruct (negb _); [by eexists|].
  destruct (inverseHolders_total tgt r) as (hs & -> & Hhs). cbn [mbind outcome_bind]. rewrite (exported_relations tgt specs r); [by apply set_field_total|apply elem_of_dom; eauto|done|done].
Qed.

Lemma rewire_total heap d : (forall e, e ∈ values (d_fields d) -> x_fields x !! fd_key e = Some (fd_field e) /\ is_Some (if_spec (fd_field e))) ->
  exists heap', rewire types x heap d = Ok heap'.
Proof.
  intros Hd. unfold rewire. destruct (fold_outcome_total (rewire_field types x) (values (d_fields d)) heap) as [heap1 ->].
  { intros e h He. destruct (Hd e He). by apply rewire_field_total. }
  cbn [mbind outcome_bind]. apply fold_outcome_total. intros tgt h _. apply rewire_inverse_total.
Qed.
End rewired.

(** ** The whole commit *)

Lemma bind_created_same d binds : let d' := bind_created d binds in
  d_index d' = d_index d /\ d_targets d' = d_targets d /\ d_fields d' = d_fields d /\ ownerChanges d' = ownerChanges d /\
  dom (d_created d') = dom (d_created d) ∪ list_to_set binds.*1.
Proof.
  revert d. induction binds as [|p binds IH]; intros d; cbn; [split_and!; [done..|set_solver]|].
  destruct (IH (bindCreatedNode d p.1 p.2)) as (H1 & H2 & H3 & H4 & H5). split_and!; [done..|]. unfold bind_created in H5. rewrite H5. cbn.
  rewrite dom_insert_L. set_solver.
Qed.

Section delta.
Context (types : typeEnv) `{!MapOrder nodeKey} `{!MapOrder string} (heap : gmap loc goval).
Context (x : committedRelationIndex) (rs : list touchedResource) (cs : gmap nodeKey loc) (d : relationIndexDelta).
Context (prep : ready_delta types heap x cs d) (where_ : placed (overrides d) = ((fun r => (resource_node r, t_work r)) <$> rs) ++ map_range cs).

Lemma touched_override k l : touched rs cs k l <-> exists o, o ∈ overrides d /\ o_key o = k /\ o_value o = l.
Proof.
  transitivity ((k, l) ∈ placed (overrides d)).
  - rewrite where_, elem_of_app, list_elem_of_fmap, map_range_elem. unfold touched. split; (intros [(r & Hr)|Hr]; [left; exists r|by right]).
    + destruct Hr as (? & <- & <-). done.
    + destruct Hr as [[= -> ->] ?]. done.
  - unfold placed. rewrite list_elem_of_fmap. split; [intros (o & [= -> ->] & Ho); by exists o|intros (o & Ho & <- & <-); by exists o].
Qed.

(** Every relation field of a touched entity is scanned anew, and no other. *)
Lemma rescanned k l specs r : touched rs cs k l -> relationSpecs types (key_typ k) = Ok specs -> r ∈ specs -> kind r <> inverseRelation ->
  scanIndexedRelationField types heap d l r = Ok (new_targets x d {| hf_holder := k; hf_field := fieldIndex r |}).
Proof.
  intros (o & Ho & <- & <-)%touched_override Hs Hr Hk. destruct (rd_overrides _ _ _ _ _ prep o Ho) as [Hso _].
  assert (o_specs o = specs) as Eo by congruence.
  set (f := {| hf_holder := o_key o; hf_field := fieldIndex r |}).
  assert (f ∈ fd_key <$> values (d_fields d)) as Hf.
  { rewrite (sc_keys _ _ _ _ (rd_scanned _ _ _ _ _ prep)). apply list_elem_of_bind. exists o. split; [|done].
    unfold keys_of. apply list_elem_of_fmap. exists r. split; [done|]. apply list_elem_of_filter. by rewrite Eo. }
  apply list_elem_of_fmap in Hf as (e & Ef & He). destruct (entry_spec types heap x cs d prep e He) as (_ & _ & _ & El).
  rewrite <- Ef in El. unfold new_targets. rewrite El.
  pose proof (sc_entries _ _ _ _ (rd_scanned _ _ _ _ _ prep)) as Hall. rewrite Forall_forall in Hall.
  destruct (Hall e He) as (o' & r' & Ho' & Hr' & _ & Ek & _ & Escan). rewrite <- Ef in Ek. injection Ek as Eko Eri.
  assert (o' = o) as ->.
  { pose proof (rd_distinct _ _ _ _ _ prep) as Hnd. apply list_elem_of_lookup in Ho as [i Hi], Ho' as [j Hj].
    assert (i = j) as <-; [|congruence]. eapply (NoDup_lookup _ i j (o_key o) Hnd); rewrite list_lookup_fmap, ?Hi, ?Hj; [done|cbn; by rewrite Eko]. }
  rewrite Eo in Hr'. by rewrite (spec_unique types _ _ r r' Hs Hr Hr' Eri).
Qed.

Lemma not_rescanned f : (forall l, ~ touched rs cs (hf_holder f) l) -> new_targets x d f = targets_of x f.
Proof.
  intros Hn. unfold new_targets. destruct (fd_lookup (d_fields d) !! f) as [fl|] eqn:E; [|done]. exfalso.
  apply (lookup_entry types heap x cs d prep) in E. pose proof (sc_entries _ _ _ _ (rd_scanned _ _ _ _ _ prep)) as Hall. rewrite Forall_forall in Hall.
  destruct (Hall _ E) as (o & r & Ho & _ & _ & Ek & _). cbn in Ek. apply (Hn (o_value o)), touched_override. exists o. by rewrite Ek.
Qed.
End delta.

(** * Properties *)

(** C11: an incremental commit keeps the published graph consistent. If the
    index and the children lists describe a graph that obeys the ownership
    rules, the relation fields of the types involved are exported (setting an
    unexported one panics, although registration accepts it), and
    [buildRelationIndexDeltaWithCreates] accepts the changed entities and the
    creates, then publishing and rewiring does not panic, and what is published again has exact reference counts, one owner per child,
    owners that are those the relation fields give, no ownership cycle and
    children lists that invert the owners. The fields of the touched entities
    are those scanned from their new values, and all others are kept; the
    cached branches are dropped. *)
Theorem delta_keeps_graph (types : typeEnv) `{!MapOrder nodeKey} `{!MapOrder string} heap opened c x rs cs d binds
    (published_index : c_index c = Some x) (consistent : graph_ok types x (c_outgoing c))
    (distinct : NoDup (resource_key <$> rs)) (in_tables : forall k, k ∈ binds.*1 -> k ∈ dom cs)
    (exported_relations : forall k specs r, k ∈ dom (x_nodes x) ∪ dom cs -> relationSpecs types (key_typ k) = Ok specs -> r ∈ specs ->
      spec_exported types r = true)
    (accepted : buildRelationIndexDeltaWithCreates types heap opened (Some x) rs cs = Ok (Some d)) :
  forall live, exists c' x' live', publishAndRewire types c live (bind_created d binds) = Ok (c', live') /\
    c_index c' = Some x' /\ graph_ok types x' (c_outgoing c') /\ branches c' = ∅ /\
    dom (x_nodes x') = dom (x_nodes x) ∪ dom cs /\
    (forall k l specs r, touched rs cs k l -> relationSpecs types (key_typ k) = Ok specs -> r ∈ specs -> kind r <> inverseRelation ->
      scanIndexedRelationField types heap d l r = Ok (targets_of x' {| hf_holder := k; hf_field := fieldIndex r |})) /\
    (forall f, (forall l, ~ touched rs cs (hf_holder f) l) -> targets_of x' f = targets_of x f).
Proof.
  intros live. destruct (build_ready types heap opened x rs cs d distinct accepted) as (d1 & d2 & prep & E2 & _ & Ed & Hwhere).
  destruct (validateOwnership_spec types heap x (c_outgoing c) cs d1 consistent prep d2 E2) as (ks & changes & affected & chains).
  destruct (co_base _ _ _ _ _ changes) as (B1 & B2 & B3 & B4 & B5 & _).
  destruct (bind_created_same d binds) as (S1 & S2 & S3 & S4 & S5). rewrite Ed in S1, S2, S3, S4, S5. cbn in S1, S2, S3, S4, S5. rewrite <- Ed in *.
  set (d3 := bind_created d binds) in *.
  assert (dom (d_created d3) = dom cs) as Hcr.
  { rewrite S5, B2, (rd_created _ _ _ _ _ prep). apply set_eq. intros k. rewrite elem_of_union, elem_of_list_to_set. naive_solver. }
  destruct (published types heap x (c_outgoing c) cs d1 d2 ks consistent prep changes affected chains d3 ltac:(done) Hcr c published_index eq_refl)
    as (c' & x' & E & _ & Hbr & Hx' & Hn & Hft & Hg & Hfl).
  assert (Hdom : dom (x_nodes x') = dom (x_nodes x) ∪ dom cs) by (rewrite Hn, dom_union_L, Hcr; set_solver).
  destruct (rewire_total types x' (c_outgoing c') Hg ltac:(by rewrite Hdom) live d3) as [live' Ew].
  { rewrite S3, B5. intros e He. split; [by apply Hfl|]. destruct (entry_spec types heap x cs d1 prep e He) as (r & -> & _). by eexists. }
  exists c', x', live'. unfold publishAndRewire. rewrite E. cbn [mbind outcome_bind snd fst]. rewrite Ew.
  split_and!; [done|done|done|done|exact Hdom| |].
  - intros k l specs r Hk Hs Hr Hinv. rewrite Hft, <- (rescanned types heap x rs cs d1 prep Hwhere k l specs r Hk Hs Hr Hinv).
    apply scan_same; rewrite Ed; cbn; [by rewrite B1, (rd_index _ _ _ _ _ prep)|done].
  - intros f Hf. rewrite Hft. by apply (not_rescanned types heap x rs cs d1 prep Hwhere).
Qed.

(** The user of the sample writes a third post, which is stored at 7. *)
Definition edited_heap : gmap loc goval :=
  <[5%positive := VStruct [VInt 3; VPointer (Some 1%positive)]]>
  (<[6%positive := VStruct [VInt 1; VSlice (Some ((fun l => VPointer (Some l)) <$> [2; 3; 5]%positive))]]> graph_heap).
Definition edited_user : touchedResource := {| dbName := "User"; t_id := 1; ver := 0; t_work := 6%positive; original := 1%positive |}.
Definition sample_published : committedOwnership := storeCommittedOwnership graph_types graph_heap graph_model ∅.
Definition sample_index : committedRelationIndex := buildCommittedRelationIndex graph_types graph_heap graph_model ∅.
Definition sample_built : outcome (option relationIndexDelta) :=
  buildRelationIndexDeltaWithCreates graph_types edited_heap {["User"; "Post"; "Like"]} (Some sample_index) [edited_user] {[node "Post" 3 := 5%positive]}.
Definition sample_delta : relationIndexDelta :=
  match sample_built with
  | Ok (Some d) => d
  | _ => {| d_index := sample_index; d_created := ∅; d_targets := ∅; overrides := []; d_fields := no_fields; ownerChanges := [];
            ownerPositions := None; inverseTargets := ∅ |}
  end.
Lemma sample_accepted : sample_built = Ok (Some sample_delta).
Proof.
  assert (match sample_built with Ok (Some _) => true | _ => false end = true) as H by (vm_compute; reflexivity).
  unfold sample_delta. destruct sample_built as [[d|]| |]; [reflexivity|discriminate..].
Qed.

Lemma named_in (names : list string) (ns cs : gmap nodeKey loc) k :
  forallb (fun p => bool_decide (key_typ p.1 ∈ names)) (map_to_list ns) = true ->
  forallb (fun p => bool_decide (key_typ p.1 ∈ names)) (map_to_list cs) = true ->
  k ∈ dom ns ∪ dom cs -> key_typ k ∈ names.
Proof.
  intros Hns Hcs Hk. assert (exists m l, m !! k = Some l /\
    forallb (fun p : nodeKey * loc => bool_decide (key_typ p.1 ∈ names)) (map_to_list m) = true) as (m & l & Hl & Hm).
  { apply elem_of_union in Hk as [Hk|Hk]; apply elem_of_dom in Hk as [l Hl]; eauto. }
  rewrite forallb_forall in Hm. specialize (Hm (k, l)). apply bool_decide_eq_true in Hm; [done|].
  apply list_elem_of_In. by apply elem_of_map_to_list.
Qed.
Definition sample_names : list string := ["User"; "Post"; "Like"]%string.

Lemma delta_keeps_graph_witness :
  (let r := publishAndRewire graph_types sample_published graph_heap (bind_created sample_delta [(node "Post" 3, 7%positive)]) in
   match r with
   | Ok (c, live) => committedChildren c (node "User" 1) = [node "Post" 1; node "Post" 2; node "Post" 3] /\
       live !! 1%positive = Some (VStruct [VInt 1; VSlice (Some ((fun l => VPointer (Some l)) <$> [2; 3; 7]%positive))])
   | _ => False
   end) /\
  exists c' x' live', publishAndRewire graph_types sample_published graph_heap (bind_created sample_delta [(node "Post" 3, 7%positive)]) = Ok (c', live') /\
    c_index c' = Some x' /\ graph_ok graph_types x' (c_outgoing c') /\ branches c' = ∅ /\
    dom (x_nodes x') = dom (x_nodes sample_index) ∪ dom ({[node "Post" 3 := 5%positive]} : gmap nodeKey loc) /\
    (forall k l specs r, touched [edited_user] {[node "Post" 3 := 5%positive]} k l -> relationSpecs graph_types (key_typ k) = Ok specs ->
      r ∈ specs -> kind r <> inverseRelation ->
      scanIndexedRelationField graph_types edited_heap sample_delta l r = Ok (targets_of x' {| hf_holder := k; hf_field := fieldIndex r |})) /\
    (forall f, (forall l, ~ touched [edited_user] {[node "Post" 3 := 5%positive]} (hf_holder f) l) -> targets_of x' f = targets_of sample_index f).
Proof.
  split; [vm_compute; split; reflexivity|].
  apply (delta_keeps_graph graph_types edited_heap {["User"; "Post"; "Like"]} sample_published sample_index [edited_user]
    {[node "Post" 3 := 5%positive]} sample_delta [(node "Post" 3, 7%positive)]).
  - reflexivity.
  - exact (published_graph_ok graph_types graph_heap graph_nodes graph_model graph_builds graph_registered).
  - apply NoDup_singleton.
  - intros k Hk%list_elem_of_singleton. subst k. apply elem_of_dom. eexists. reflexivity.
  - intros k specs r Hk Hs Hr. assert (Ht : key_typ k ∈ sample_names).
    { apply (named_in sample_names (x_nodes sample_index) {[node "Post" 3 := 5%positive]} k); [vm_compute; reflexivity..|exact Hk]. }
    revert Hs. repeat (apply elem_of_cons in Ht as [->|Ht];
      [intros Hs; vm_compute in Hs; injection Hs as <-; revert r Hr; apply Forall_forall; repeat constructor|]).
    exfalso. exact (not_elem_of_nil _ Ht).
  - exact sample_accepted.
Defined.
