(* ===== verification/IndexSpecs.v ===== *)
(** * Secondary index declarations (src/secondary_index.go, lines 19-171)

    [key:"unique"] and [index:"name,position[,unique]"] tags are parsed into
    the specs of a type's indexes. The builders and their fields live in Go
    maps, whose iteration order is a [MapOrder] argument. *)
From Stdlib Require Import Ascii.
From S2P Require Import Prelude GoReflect RelationSchema.

Record secondaryIndexField := { sf_name : string; sf_index : nat; sf_typ : gotype; sf_order : Z }.
Record secondaryIndexSpec := {
  si_name : string;
  si_fields : list secondaryIndexField;
  si_unique : bool;
  lookupField : string;
}.
Record secondaryIndexBuilder := {
  b_name : string;
  b_fields : gmap Z secondaryIndexField;
  b_unique : bool;
  b_uniqueSet : bool;
}.

(** [strconv.Atoi]: an optional sign and decimal digits, within an int. *)
Definition digit (c : ascii) : option Z :=
  let n := Z.of_nat (nat_of_ascii c) in
  if (48 <=? n)%Z && (n <=? 57)%Z then Some (n - 48)%Z else None.
Fixpoint digits (acc : Z) (s : string) : option Z :=
  match s with
  | EmptyString => Some acc
  | String c rest => d ← digit c; digits (10 * acc + d)%Z rest
  end.
Definition unsigned_digits (s : string) : option Z :=
  match s with EmptyString => None | _ => digits 0 s end.
Definition Atoi (s : string) : option Z :=
  z ← match s with
      | String "-" rest => Z.opp <$> unsigned_digits rest
      | String "+" rest => unsigned_digits rest
      | _ => unsigned_digits s
      end;
  if bool_decide (- 2 ^ 63 <= z)%Z && bool_decide (z < 2 ^ 63)%Z then Some z else None.

Definition indexable (t : gotype) : bool :=
  match t with
  | TBasic _ (KBool | KString | KInt | KInt8 | KInt16 | KInt32 | KInt64
             | KUint | KUint8 | KUint16 | KUint32 | KUint64) => true
  | _ => false
  end.

Definition validateSecondaryIndexField (field : structField) : outcome unit :=
  if indexable (ftype field) then Ok tt else Fail (ErrText "nestory: field cannot be indexed").

(** The state of the loop over the fields: builders and finished specs. *)
Definition parse_state : Type := gmap string secondaryIndexBuilder * list secondaryIndexSpec.

(** The [key:"unique"] half of the loop body. *)
Definition parseKeyTag (st : parse_state) (index : nat) (field : structField) : outcome parse_state :=
  when negb (bool_decide (tag_get "key" field = "unique"%string)) => Ok st ;;
  _ ← validateSecondaryIndexField field;
  Ok (st.1, st.2 ++ [{| si_name := fname field; si_unique := true; lookupField := fname field;
       si_fields := [{| sf_name := fname field; sf_index := index; sf_typ := ftype field; sf_order := 1 |}] |}]).

(** The [index:"..."] half. *)
Definition parseIndexTag (st : parse_state) (index : nat) (field : structField) : outcome parse_state :=
  let raw := tag_get "index" field in
  when bool_decide (raw = EmptyString) => Ok st ;;
  match split_comma raw with
  | name :: pos :: options =>
      when (1 <? length options)%nat || bool_decide (name = EmptyString) =>
        Fail (ErrText "nestory: invalid index tag") ;;
      match Atoi pos with
      | None => Fail (ErrText "nestory: invalid index position")
      | Some position =>
          when (position <? 1)%Z => Fail (ErrText "nestory: invalid index position") ;;
          _ ← validateSecondaryIndexField field;
          let unique := match options with [o] => bool_decide (o = "unique"%string) | _ => false end in
          when (length options =? 1)%nat && negb unique => Fail (ErrText "nestory: invalid index option") ;;
          let builder := default {| b_name := name; b_fields := ∅; b_unique := false; b_uniqueSet := false |}
                                 (st.1 !! name) in
          match b_fields builder !! position with
          | Some _ => Fail (ErrText "nestory: index repeats position")
          | None =>
              when b_uniqueSet builder && negb (Bool.eqb (b_unique builder) unique) =>
                Fail (ErrText "nestory: index has inconsistent unique options") ;;
              Ok (<[name := {| b_name := b_name builder; b_unique := unique; b_uniqueSet := true;
                      b_fields := <[position := {| sf_name := fname field; sf_index := index;
                        sf_typ := ftype field; sf_order := position |}]> (b_fields builder) |}]> st.1, st.2)
          end
      end
  | _ => Fail (ErrText "nestory: invalid index tag")
  end.

Fixpoint parseIndexFields (st : parse_state) (index : nat) (fs : list structField) : outcome parse_state :=
  match fs with
  | [] => Ok st
  | f :: rest =>
      st ← parseKeyTag st index f;
      st ← parseIndexTag st index f;
      parseIndexFields st (S index) rest
  end.

(** [field.order != index+1] for some sorted field. *)
Definition positions_ok (sorted : list secondaryIndexField) : bool :=
  bool_decide (sf_order <$> sorted = Z.of_nat <$> seq 1 (length sorted)).

Definition buildIndexSpec `{!MapOrder Z} (builder : secondaryIndexBuilder) : outcome secondaryIndexSpec :=
  let sorted := SortFunc (fun l r => cmp_compare (sf_order l) (sf_order r)) (map_range (b_fields builder)).*2 in
  when negb (positions_ok sorted) => Fail (ErrText "nestory: index is missing position") ;;
  let lookup := match sorted with [f] => if b_unique builder then sf_name f else EmptyString | _ => EmptyString end in
  Ok {| si_name := b_name builder; si_fields := sorted; si_unique := b_unique builder; lookupField := lookup |}.

(** [specs[index-1].name == specs[index].name] for some index. *)
Fixpoint repeats_name (specs : list secondaryIndexSpec) : bool :=
  match specs with
  | a :: (b :: _) as rest => bool_decide (si_name a = si_name b) || repeats_name rest
  | _ => false
  end.

Definition parseSecondaryIndexSpecs `{!MapOrder Z, !MapOrder string} (d : structDef) :
    outcome (list secondaryIndexSpec) :=
  st ← parseIndexFields (∅, []) 0 (fields d);
  specs ← fold_outcome (fun specs p => spec ← buildIndexSpec p.2; Ok (specs ++ [spec])) st.2 (map_range st.1);
  let specs := SortFunc (fun l r => string_compare (si_name l) (si_name r)) specs in
  when repeats_name specs => Fail (ErrText "nestory: repeats index name") ;;
  Ok specs.

(** [secondaryIndexSpecs]: the sync.Map in front of the parser. *)
Definition secondaryIndexSpecs `{!MapOrder Z, !MapOrder string} (types : typeEnv)
    (cache : gmap string (outcome (list secondaryIndexSpec))) (t : string) :
    gmap string (outcome (list secondaryIndexSpec)) * outcome (list secondaryIndexSpec) :=
  match cache !! t, types !! t with
  | Some result, _ => (cache, result)
  | None, Some d => let r := parseSecondaryIndexSpecs d in (<[t := r]> cache, r)
  | None, None => (cache, Panic)
  end.

(** ** Specification *)

(** A spec an index can run on: fields of the struct, of indexable types, in
    the declared order; a lookup field exactly for single-field unique ones. *)
Record spec_ok (d : structDef) (s : secondaryIndexSpec) : Prop := {
  spec_nonempty : si_fields s <> [];
  spec_positions : sf_order <$> si_fields s = Z.of_nat <$> seq 1 (length (si_fields s));
  spec_fields : Forall (fun f => exists g, fields d !! sf_index f = Some g /\ fname g = sf_name f /\
                                  ftype g = sf_typ f /\ indexable (sf_typ f) = true) (si_fields s);
  spec_lookup : lookupField s = match si_fields s with
                                | [f] => if si_unique s then sf_name f else EmptyString
                                | _ => EmptyString end;
}.

Definition index_field (name : string) (t : gotype) (tags : list (string * string)) : structField :=
  {| fname := name; ftype := t; exported := true; tag := tags |}.
Definition indexed_user : structDef :=
  entity [index_field "Email" (TBasic "string" KString) [("key", "unique")];
          index_field "Org" (TBasic "int" KInt) [("index", "byOrg,1")];
          index_field "Seq" (TBasic "uint16" KUint16) [("index", "byOrg,2")]]%string.

(** * Lemmas *)

Section parse.
Context (d : structDef).

(** A field spec that describes a field of [d]. *)
Definition field_ok (f : secondaryIndexField) : Prop :=
  exists g, fields d !! sf_index f = Some g /\ fname g = sf_name f /\ ftype g = sf_typ f /\
            indexable (sf_typ f) = true.

(** What the loop over the fields maintains. *)
Record parse_inv (st : parse_state) : Prop := {
  parse_builders : forall name b, st.1 !! name = Some b ->
    b_name b = name /\ b_fields b <> ∅ /\ forall pos f, b_fields b !! pos = Some f -> sf_order f = pos /\ field_ok f;
  parse_specs : Forall (spec_ok d) st.2;
}.

Lemma parseKeyTag_inv st index field st' :
  parse_inv st -> fields d !! index = Some field -> parseKeyTag st index field = Ok st' -> parse_inv st'.
Proof.
  intros [HB HS] Hf E. unfold parseKeyTag, validateSecondaryIndexField in E.
  destruct (negb _); [by injection E as <-|].
  destruct (indexable (ftype field)) eqn:Hi; cbn in E; [|done]. injection E as <-.
  constructor; [done|]. cbn. apply Forall_app. split; [done|]. constructor; [|constructor].
  constructor; cbn; try done. constructor; [|constructor]. by exists field.
Qed.

Lemma parseIndexTag_inv st index field st' :
  parse_inv st -> fields d !! index = Some field -> parseIndexTag st index field = Ok st' -> parse_inv st'.
Proof.
  intros [HB HS] Hf E. unfold parseIndexTag, validateSecondaryIndexField in E.
  destruct (bool_decide _); [by injection E as <-|].
  destruct (split_comma (tag_get "index" field)) as [|name [|pos options]]; [done..|].
  destruct (_ || _); [done|]. destruct (Atoi pos) as [position|]; [|done].
  destruct (position <? 1)%Z; [done|].
  destruct (indexable (ftype field)) eqn:Hi; cbn [mbind outcome_bind] in E; [|done].
  destruct (_ && _); [done|].
  set (b := default _ (st.1 !! name)) in E.
  destruct (b_fields b !! position) eqn:Hpos; [done|].
  destruct (_ && _); [done|]. injection E as <-. constructor; [|done]. cbn.
  intros name' b' Hb. apply lookup_insert_Some in Hb as [[<- <-]|[_ Hb]]; [|by apply HB].
  cbn. assert (b_name b = name /\ forall pos f, b_fields b !! pos = Some f -> sf_order f = pos /\ field_ok f) as [Hn Hfs].
  { subst b. destruct (st.1 !! name) as [b0|] eqn:Eb; cbn.
    - destruct (HB _ _ Eb) as (? & _ & ?). done.
    - split; [done|]. intros pos' f. by rewrite lookup_empty. }
  split_and!; [done|apply insert_non_empty|].
  intros pos' f Hp. apply lookup_insert_Some in Hp as [[<- <-]|[_ Hp]]; [|by apply Hfs].
  split; [done|]. by exists field.
Qed.

Lemma parseIndexFields_inv st pre fs st' :
  fields d = pre ++ fs -> parse_inv st -> parseIndexFields st (length pre) fs = Ok st' -> parse_inv st'.
Proof.
  revert st pre. induction fs as [|f fs IH]; intros st pre Hd Hst E; cbn in E; [by injection E as <-|].
  assert (fields d !! length pre = Some f) as Hf by (rewrite Hd; by rewrite lookup_app_r, Nat.sub_diag).
  destruct (parseKeyTag st (length pre) f) as [st1| |] eqn:E1; cbn in E; [|done|done].
  destruct (parseIndexTag st1 (length pre) f) as [st2| |] eqn:E2; cbn in E; [|done|done].
  apply (IH st2 (pre ++ [f])).
  - by rewrite <- app_assoc.
  - eapply parseIndexTag_inv; [|exact Hf|exact E2]. by eapply parseKeyTag_inv.
  - rewrite length_app, Nat.add_1_r. done.
Qed.

Lemma buildIndexSpec_ok `{!MapOrder Z} name b s :
  (b_name b = name /\ b_fields b <> ∅ /\
   forall pos f, b_fields b !! pos = Some f -> sf_order f = pos /\ field_ok f) ->
  buildIndexSpec b = Ok s -> spec_ok d s /\ si_name s = name.
Proof.
  intros (Hn & Hne & Hfs) E. unfold buildIndexSpec in E. set (sorted := SortFunc _ _) in E.
  destruct (positions_ok sorted) eqn:Hp; cbn [negb] in E; [|done]. injection E as <-.
  apply bool_decide_eq_true in Hp. split; [|done].
  assert (Hperm : sorted ≡ₚ (map_range (b_fields b)).*2).
  { subst sorted. apply SortFunc_perm. }
  constructor; cbn; [| done | |done].
  - intros E. rewrite E in Hperm. apply Permutation_nil_l in Hperm.
    apply Hne, map_empty. intros pos. destruct (b_fields b !! pos) as [f|] eqn:Ef; [|done]. exfalso.
    apply map_range_elem in Ef. destruct (map_range (b_fields b)); [by apply not_elem_of_nil in Ef|done].
  - apply Forall_forall. intros f Hf. rewrite Hperm in Hf. apply list_elem_of_fmap in Hf as ([pos f'] & -> & Hf).
    apply map_range_elem in Hf. by destruct (Hfs _ _ Hf).
Qed.

Lemma build_all_ok `{!MapOrder Z} bs specs out :
  (forall name b, (name, b) ∈ bs -> b_name b = name /\ b_fields b <> ∅ /\
     forall pos f, b_fields b !! pos = Some f -> sf_order f = pos /\ field_ok f) ->
  Forall (spec_ok d) specs ->
  fold_outcome (fun specs p => spec ← buildIndexSpec p.2; Ok (specs ++ [spec])) specs bs = Ok out ->
  Forall (spec_ok d) out.
Proof.
  revert specs. induction bs as [|[name b] bs IH]; intros specs Hb Hs E; cbn in E; [by injection E as <-|].
  destruct (buildIndexSpec b) as [s| |] eqn:Eb; cbn in E; [|done|done].
  apply (IH (specs ++ [s])); [intros name' b' ?; apply Hb; by right| |exact E].
  apply Forall_app. split; [done|]. constructor; [|constructor].
  eapply buildIndexSpec_ok; [|exact Eb]. apply (Hb name). left.
Qed.
End parse.

Lemma repeats_name_sorted specs :
  StronglySorted (fun a b => string_compare (si_name a) (si_name b) <= 0)%Z specs ->
  repeats_name specs = false -> NoDup (si_name <$> specs).
Proof.
  induction 1 as [|a specs Hs IH Hall]; intros Hr; [constructor|]. cbn. constructor.
  - intros Hin. apply list_elem_of_fmap in Hin as (b & Eb & Hb).
    destruct specs as [|c specs]; [by apply not_elem_of_nil in Hb|].
    cbn in Hr. apply orb_false_iff in Hr as [Hac _]. apply bool_decide_eq_false in Hac. apply Hac.
    apply string_compare_spec.
    apply Forall_cons in Hall as [Hc Hall]. apply elem_of_cons in Hb as [<-|Hb]; [by apply string_compare_spec|].
    inversion Hs as [|? ? _ Hcs]; subst. rewrite Forall_forall in Hcs. specialize (Hcs b Hb). cbn in Hcs.
    rewrite <- Eb in Hcs. pose proof (order_flip (cmp := string_compare) (si_name c) (si_name a)).
    pose proof (order_flip (cmp := string_compare) (si_name a) (si_name c)). lia.
  - apply IH. destruct specs as [|c specs]; [done|]. cbn in Hr. by apply orb_false_iff in Hr as [_ ?].
Qed.
#[export] Instance name_order : GoOrder (fun l r : secondaryIndexSpec => string_compare (si_name l) (si_name r)).
Proof. split; intros; [apply order_flip; apply _|by eapply (order_trans (cmp := string_compare))]. Qed.

Lemma buildIndexSpec_order (M1 M2 : MapOrder Z) d b :
  (forall pos f, b_fields b !! pos = Some f -> sf_order f = pos /\ field_ok d f) ->
  @buildIndexSpec M1 b = @buildIndexSpec M2 b.
Proof.
  intros Hfs. unfold buildIndexSpec.
  assert (SortFunc (fun l r => cmp_compare (sf_order l) (sf_order r)) (@map_range _ _ _ M1 _ (b_fields b)).*2 =
          SortFunc (fun l r => cmp_compare (sf_order l) (sf_order r)) (@map_range _ _ _ M2 _ (b_fields b)).*2) as ->; [|done].
  apply SortFunc_unique.
  - split; intros; [apply order_flip; apply _|by eapply (order_trans (cmp := cmp_compare))].
  - intros x y Hx Hy E. apply list_elem_of_fmap in Hx as ([px fx] & -> & Hx), Hy as ([py fy] & -> & Hy).
    apply map_range_elem in Hx, Hy. cbn in *. destruct (Hfs _ _ Hx) as [<- _], (Hfs _ _ Hy) as [<- _].
    apply (cmp_compare_spec (sf_order fx) (sf_order fy)) in E. rewrite E in Hx. congruence.
  - by rewrite !map_range_perm.
Qed.

(** The specs of the builders, one per builder. *)
Lemma build_all_iff `{!MapOrder Z} bs specs out :
  fold_outcome (fun specs p => spec ← buildIndexSpec p.2; Ok (specs ++ [spec])) specs bs = Ok out <->
  exists ss, out = specs ++ ss /\
    Forall2 (fun (p : string * secondaryIndexBuilder) s => buildIndexSpec p.2 = Ok s) bs ss.
Proof.
  revert specs. induction bs as [|p bs IH]; intros specs; cbn.
  - split; [intros [= <-]; exists []; rewrite app_nil_r; auto|].
    intros (ss & -> & Hss). inversion Hss; subst. by rewrite app_nil_r.
  - split.
    + destruct (buildIndexSpec p.2) as [s| |] eqn:Es; cbn; [|done|done]. intros E.
      apply IH in E as (ss & -> & Hss). exists (s :: ss). rewrite <- app_assoc. split; [done|by constructor].
    + intros (ss & -> & Hss). inversion Hss as [|? s ? ss' Es Hss']; subst. rewrite Es. cbn. apply IH.
      exists ss'. by rewrite <- app_assoc.
Qed.

Lemma parse_inv_empty d : parse_inv d (∅, []).
Proof. constructor; [intros name b E; cbn in E; by rewrite lookup_empty in E|constructor]. Qed.

(** * Properties *)

(** The index declarations of a type parse to specs an index can run on,
    or to an error. Every spec's positions are 1, 2, ... without a gap, each
    of its fields is a field of the struct with its own type, of an indexable
    kind (so the panics of the comparison and key functions are unreachable),
    a lookup field is recorded exactly for single-field unique indexes, and
    names are unique and sorted. Go's map iteration order does not matter. *)
Theorem parseSecondaryIndexSpecs_ok (M1 : MapOrder Z) (M2 : MapOrder string) d specs :
  parseSecondaryIndexSpecs d = Ok specs ->
  Forall (spec_ok d) specs /\ NoDup (si_name <$> specs) /\
  StronglySorted (fun a b => string_compare (si_name a) (si_name b) <= 0)%Z specs /\
  forall (M1' : MapOrder Z) (M2' : MapOrder string), @parseSecondaryIndexSpecs M1' M2' d = Ok specs.
Proof.
  intros E. unfold parseSecondaryIndexSpecs in *.
  destruct (parseIndexFields (∅, []) 0 (fields d)) as [st| |] eqn:E1; cbn [mbind outcome_bind] in *; [|done|done].
  assert (parse_inv d st) as [HB HS] by exact (parseIndexFields_inv d _ [] _ _ eq_refl (parse_inv_empty d) E1).
  assert (HB' : forall (M : MapOrder string) name b, (name, b) ∈ map_range st.1 -> b_name b = name /\ b_fields b <> ∅ /\
    forall pos f, b_fields b !! pos = Some f -> sf_order f = pos /\ field_ok d f).
  { intros M name b Hin. apply map_range_elem in Hin. by apply HB. }
  destruct (fold_outcome _ st.2 (map_range st.1)) as [built| |] eqn:E2; cbn [mbind outcome_bind] in E; [|done|done].
  set (cmp := fun l r => string_compare (si_name l) (si_name r)) in *.
  destruct (repeats_name (SortFunc cmp built)) eqn:Hr; [done|]. injection E as <-.
  pose proof (SortFunc_sorted cmp built) as Hsorted. pose proof (SortFunc_perm cmp built) as Hperm.
  pose proof (repeats_name_sorted _ Hsorted Hr) as Hnd.
  pose proof (build_all_ok d _ _ _ (HB' M2) HS E2) as Hok.
  split_and!; [by rewrite Hperm|done|done|]. intros M1' M2'.
  apply build_all_iff in E2 as (ss & -> & Hss).
  assert (exists ss', ss' ≡ₚ ss /\ Forall2 (fun (p : string * secondaryIndexBuilder) s => @buildIndexSpec M1' p.2 = Ok s)
            (@map_range _ _ _ M2' _ st.1) ss') as (ss' & Hp' & Hss').
  { assert (Forall2 (fun (p : string * secondaryIndexBuilder) s => @buildIndexSpec M1' p.2 = Ok s)
              (@map_range _ _ _ M2 _ st.1) ss) as Hss2.
    { apply Forall2_same_length_lookup_2; [exact (Forall2_length _ _ _ Hss)|]. intros i [name b] s Hp Hs.
      destruct (Forall2_lookup_l _ _ _ _ _ Hss Hp) as (s' & Hs' & Eb). rewrite Hs in Hs'. injection Hs' as <-.
      cbn in *. rewrite <- Eb. eapply buildIndexSpec_order.
      apply (HB' M2 name b). by eapply list_elem_of_lookup_2. }
    assert (@map_range _ _ _ M2' _ st.1 ≡ₚ @map_range _ _ _ M2 _ st.1) as Hpm by by rewrite !map_range_perm.
    symmetry in Hpm. revert Hss2 Hpm. generalize (@map_range _ _ _ M2 _ st.1), (@map_range _ _ _ M2' _ st.1). clear.
    intros l l' H Hp. revert ss H. induction Hp as [|x l l' Hp IH|x y l|l1 l2 l3 _ IH1 _ IH2]; intros ss H.
    - inversion H; subst. by exists [].
    - inversion H as [|? s ? ss0 Hs H0]; subst. destruct (IH _ H0) as (ss' & Hps & H').
      exists (s :: ss'). split; [by rewrite Hps|by constructor].
    - inversion H as [|? s ? ss0 Hs H0]; subst. inversion H0 as [|? s' ? ss1 Hs' H1]; subst.
      exists (s' :: s :: ss1). split; [constructor|by repeat constructor].
    - destruct (IH1 _ H) as (ss1 & Hp1 & H1). destruct (IH2 _ H1) as (ss2 & Hp2 & H2).
      exists ss2. split; [by rewrite Hp2|done]. }
  assert (fold_outcome (fun specs p => spec ← @buildIndexSpec M1' p.2; Ok (specs ++ [spec])) st.2
            (@map_range _ _ _ M2' _ st.1) = Ok (st.2 ++ ss')) as -> by (apply build_all_iff; eauto).
  cbn [mbind outcome_bind].
  assert (SortFunc cmp (st.2 ++ ss') = SortFunc cmp (st.2 ++ ss)) as ->; [|by rewrite Hr].
  symmetry. apply SortFunc_unique; [apply _| |by rewrite Hp'].
  intros a b Ha Hb Hc. apply string_compare_spec in Hc. rewrite Hperm in Hnd.
  apply list_elem_of_lookup in Ha as [i Hi], Hb as [j Hj].
  assert (i = j) as ->; [|congruence].
  eapply NoDup_lookup; [exact Hnd|by rewrite list_lookup_fmap, Hi|rewrite list_lookup_fmap, Hj; cbn; by rewrite Hc].
Qed.

Lemma parseSecondaryIndexSpecs_ok_witness :
  match parseSecondaryIndexSpecs indexed_user with
  | Ok specs =>
      si_name <$> specs = ["Email"; "byOrg"]%string /\
      Forall (spec_ok indexed_user) specs /\ NoDup (si_name <$> specs) /\
      StronglySorted (fun a b => string_compare (si_name a) (si_name b) <= 0)%Z specs /\
      forall (M1' : MapOrder Z) (M2' : MapOrder string), @parseSecondaryIndexSpecs M1' M2' indexed_user = Ok specs
  | _ => False
  end.
Proof.
  destruct (parseSecondaryIndexSpecs indexed_user) as [specs| |] eqn:E; [|vm_compute in E; discriminate E..].
  split; [vm_compute in E; injection E as <-; reflexivity|].
  exact (parseSecondaryIndexSpecs_ok _ _ indexed_user specs E).
Defined.
