(* ===== verification/SecondaryIndex.v ===== *)
(** * Secondary indexes at run time (src/secondary_index.go, lines 173-762)

    An index keeps the live entities sorted by its fields and, when unique, a
    lookup map from key to id. Entities are struct values in cells of a heap;
    an index entry is the location of a cell, so what an index compares
    changes when an entity is overwritten: a commit takes the changed
    entities out of the indexes before it writes them and puts them back
    after. Go ranges over [db.secondary] to treat each index on its own. *)
From S2P Require Import Prelude GoBytes GoReflect RelationSchema SchemaRows IndexSpecs.

(** ** Data *)

Record secondaryIndex := {
  spec : secondaryIndexSpec;
  entries : list loc;
  compositeKeys : gmap string Z;
  stringKeys : gmap string Z;
  signedKeys : gmap Z Z;
  unsignedKeys : gmap Z Z;
  boolKeys : Z * Z;
}.

Record pendingWrite := { w_id : Z; work : goval; w_deleted : bool }.

Definition secondaryIndexBatchThreshold : Z := 64.

(** Updates of one field of an index. *)
Definition with_entries (x : secondaryIndex) (es : list loc) : secondaryIndex :=
  {| spec := spec x; entries := es; compositeKeys := compositeKeys x; stringKeys := stringKeys x;
     signedKeys := signedKeys x; unsignedKeys := unsignedKeys x; boolKeys := boolKeys x |}.
Definition with_composite (x : secondaryIndex) m : secondaryIndex :=
  {| spec := spec x; entries := entries x; compositeKeys := m; stringKeys := stringKeys x;
     signedKeys := signedKeys x; unsignedKeys := unsignedKeys x; boolKeys := boolKeys x |}.
Definition with_string (x : secondaryIndex) m : secondaryIndex :=
  {| spec := spec x; entries := entries x; compositeKeys := compositeKeys x; stringKeys := m;
     signedKeys := signedKeys x; unsignedKeys := unsignedKeys x; boolKeys := boolKeys x |}.
Definition with_signed (x : secondaryIndex) m : secondaryIndex :=
  {| spec := spec x; entries := entries x; compositeKeys := compositeKeys x; stringKeys := stringKeys x;
     signedKeys := m; unsignedKeys := unsignedKeys x; boolKeys := boolKeys x |}.
Definition with_unsigned (x : secondaryIndex) m : secondaryIndex :=
  {| spec := spec x; entries := entries x; compositeKeys := compositeKeys x; stringKeys := stringKeys x;
     signedKeys := signedKeys x; unsignedKeys := m; boolKeys := boolKeys x |}.
Definition with_bool (x : secondaryIndex) m : secondaryIndex :=
  {| spec := spec x; entries := entries x; compositeKeys := compositeKeys x; stringKeys := stringKeys x;
     signedKeys := signedKeys x; unsignedKeys := unsignedKeys x; boolKeys := m |}.

Definition newSecondaryIndex (s : secondaryIndexSpec) : secondaryIndex :=
  {| spec := s; entries := []; compositeKeys := ∅; stringKeys := ∅; signedKeys := ∅; unsignedKeys := ∅;
     boolKeys := (0, 0)%Z |}.

(** ** Comparing and encoding keys *)

(** [value.Field(i)] of an entity. *)
Definition field_value (e : goval) (i : nat) : goval := default (VStruct []) (struct_fields e !! i).

Definition boolByte (b : bool) : Z := if b then 1 else 0.

(** The kinds [compareIndexValues] distinguishes. Both operands are values of
    one indexed field, hence of one kind, and the parser admits no other kind
    ([parseSecondaryIndexSpecs_ok]): the panics of the code are unreachable,
    and the model orders such operands by kind. *)
Definition kind_rank (v : goval) : Z :=
  match v with VBool _ => 0 | VInt _ => 1 | VUint _ => 2 | VString _ => 3 | _ => 4 end.

Definition compareIndexValues (left right : goval) : Z :=
  match left, right with
  | VBool a, VBool b => cmp_compare (boolByte a) (boolByte b)
  | VInt a, VInt b => cmp_compare a b
  | VUint a, VUint b => cmp_compare a b
  | VString a, VString b => string_compare a b
  | _, _ => cmp_compare (kind_rank left) (kind_rank right)
  end.

Definition writeIndexKey (v : goval) : list byte :=
  match v with
  | VBool b => [if b then Byte.x01 else Byte.x00]
  | VInt z => be_put 8 (to_uint 64 z)
  | VUint z => be_put 8 z
  | VString s => be_put 8 (to_uint 64 (zlen (string_bytes s))) ++ string_bytes s
  | _ => []
  end.

(** The values of the indexed fields. *)
Definition key_values (s : secondaryIndexSpec) (e : goval) : list goval :=
  (fun f => field_value e (sf_index f)) <$> si_fields s.

Definition key (x : secondaryIndex) (e : goval) : string :=
  bytes_string (concat (writeIndexKey <$> key_values (spec x) e)).

(** ** The lookup maps of a unique index *)

Definition uniqueValueID (x : secondaryIndex) (v : goval) : option Z :=
  match v with
  | VBool b => let id := if b then (boolKeys x).2 else (boolKeys x).1 in
               if (id =? 0)%Z then None else Some id
  | VInt z => signedKeys x !! z
  | VUint z => unsignedKeys x !! z
  | VString s => stringKeys x !! s
  | _ => None
  end.

(** [Field(spec.fields[0].index)] of the entity. *)
Definition first_value (x : secondaryIndex) (e : goval) : goval :=
  default (VStruct []) (head (key_values (spec x) e)).

Definition uniqueID (x : secondaryIndex) (e : goval) : option Z :=
  if bool_decide (lookupField (spec x) = EmptyString) then compositeKeys x !! key x e
  else uniqueValueID x (first_value x e).

Definition setUnique (x : secondaryIndex) (e : goval) (id : Z) : secondaryIndex :=
  if bool_decide (lookupField (spec x) = EmptyString) then with_composite x (<[key x e := id]> (compositeKeys x))
  else match first_value x e with
       | VBool b => with_bool x (if b then ((boolKeys x).1, id) else (id, (boolKeys x).2))
       | VInt z => with_signed x (<[z := id]> (signedKeys x))
       | VUint z => with_unsigned x (<[z := id]> (unsignedKeys x))
       | VString s => with_string x (<[s := id]> (stringKeys x))
       | _ => x
       end.

Definition deleteUnique (x : secondaryIndex) (e : goval) : secondaryIndex :=
  if bool_decide (lookupField (spec x) = EmptyString) then with_composite x (delete (key x e) (compositeKeys x))
  else match first_value x e with
       | VBool b => with_bool x (if b then ((boolKeys x).1, 0%Z) else (0%Z, (boolKeys x).2))
       | VInt z => with_signed x (delete z (signedKeys x))
       | VUint z => with_unsigned x (delete z (unsignedKeys x))
       | VString s => with_string x (delete s (stringKeys x))
       | _ => x
       end.

(** [raw any]: a value with its dynamic type, or nil. *)
Definition lookup_raw (x : secondaryIndex) (raw : option (gotype * goval)) :
    option Z :=
  match raw, si_fields (spec x) with
  | Some (t, v), f :: _ =>
      if bool_decide (lookupField (spec x) = EmptyString) then None
      else if negb (gotype_eqb t (sf_typ f)) then None else uniqueValueID x v
  | _, _ => None
  end.

Definition uniqueIDForValidation (x : secondaryIndex) (e : goval) (k : string) : option Z :=
  if bool_decide (lookupField (spec x) = EmptyString) then compositeKeys x !! k else uniqueID x e.

Definition pendingKey (x : secondaryIndex) (e : goval) : string :=
  match si_fields (spec x) with
  | f :: _ =>
      if negb (bool_decide (lookupField (spec x) = EmptyString)) then
        match sf_typ f, first_value x e with
        | TBasic _ KString, VString s => s
        | _, _ => key x e
        end
      else key x e
  | [] => key x e
  end.

Section index.
Context (GetId : goval -> Z).

Fixpoint compareFields (fs : list secondaryIndexField) (left right : goval) : Z :=
  match fs with
  | [] => 0
  | f :: rest =>
      let order := compareIndexValues (field_value left (sf_index f)) (field_value right (sf_index f)) in
      if (order =? 0)%Z then compareFields rest left right else order
  end.

Definition compare (s : secondaryIndexSpec) (left right : goval) : Z :=
  let order := compareFields (si_fields s) left right in
  if (order =? 0)%Z then cmp_compare (GetId left) (GetId right) else order.

Definition deref (heap : gmap loc goval) (l : loc) : goval := default (VStruct []) (heap !! l).
Definition compare_at (heap : gmap loc goval) (s : secondaryIndexSpec) (a b : loc) : Z :=
  compare s (deref heap a) (deref heap b).

(** ** Rebuilding *)

Fixpoint rebuildKeys (heap : gmap loc goval) (x : secondaryIndex) (es : list loc) : outcome secondaryIndex :=
  match es with
  | [] => Ok x
  | l :: rest =>
      let e := deref heap l in
      match uniqueID x e with
      | Some existing =>
          when negb (existing =? GetId e)%Z => Fail ErrUniqueViolation ;;
          rebuildKeys heap (setUnique x e (GetId e)) rest
      | None => rebuildKeys heap (setUnique x e (GetId e)) rest
      end
  end.

Definition rebuildIndex (heap : gmap loc goval) (live : list loc) (current : secondaryIndex) :
    outcome secondaryIndex :=
  let x := with_entries (newSecondaryIndex (spec current)) (SortFunc (compare_at heap (spec current)) live) in
  if si_unique (spec x) then rebuildKeys heap x (entries x) else Ok x.

(** [rebuildSecondaryIndices]; on an error [db.secondary] stays as it was. *)
Definition rebuildSecondaryIndices `{!MapOrder string} (heap : gmap loc goval) (live : list loc)
    (secondary : gmap string secondaryIndex) : outcome (gmap string secondaryIndex) :=
  fold_outcome (fun out p => x ← rebuildIndex heap live p.2; Ok (<[p.1 := x]> out)) ∅ (map_range secondary).

(** ** Validating a commit *)

(** The loop over the items for one unique index. *)
Fixpoint validateItems (x : secondaryIndex) (changed : gset Z) (pending : gmap string Z)
    (items : list pendingWrite) : outcome unit :=
  match items with
  | [] => Ok tt
  | item :: rest =>
      if w_deleted item then validateItems x changed pending rest else
      let k := pendingKey x (work item) in
      when match uniqueIDForValidation x (work item) k with
           | Some existing => negb (existing =? w_id item)%Z && negb (bool_decide (existing ∈ changed))
           | None => false end => Fail ErrUniqueViolation ;;
      when match pending !! k with
           | Some existing => negb (existing =? w_id item)%Z
           | None => false end => Fail ErrUniqueViolation ;;
      validateItems x changed (<[k := w_id item]> pending) rest
  end.

Definition validateIndexes `{!MapOrder string} (secondary : gmap string secondaryIndex)
    (items : list pendingWrite) : outcome unit :=
  let changed : gset Z := list_to_set (w_id <$> items) in
  fold_outcome (fun _ p => if si_unique (spec p.2) then validateItems p.2 changed ∅ items else Ok tt)
    tt (map_range secondary).

(** ** Taking changed entities out *)

Definition removeLookup (heap : gmap loc goval) (l : loc) (x : secondaryIndex) : secondaryIndex :=
  if si_unique (spec x) then deleteUnique x (deref heap l) else x.
Definition removeSecondaryIndexLookups heap (l : loc) (secondary : gmap string secondaryIndex) :=
  removeLookup heap l <$> secondary.

(** The scan over equal entries from the position the search found. *)
Fixpoint remove_from (heap : gmap loc goval) (s : secondaryIndexSpec) (l : loc) (pos fuel : nat) (es : list loc) :
    list loc :=
  match fuel with
  | O => es
  | S fuel =>
      match es !! pos with
      | Some l' =>
          if (compare_at heap s l' l =? 0)%Z then
            if (GetId (deref heap l') =? GetId (deref heap l))%Z then slices_delete es pos
            else remove_from heap s l (S pos) fuel es
          else es
      | None => es
      end
  end.

(** The predicate of the binary searches for [l]. *)
Definition not_before (heap : gmap loc goval) (s : secondaryIndexSpec) (es : list loc) (l : loc) (pos : nat) : bool :=
  match es !! pos with Some l' => (0 <=? compare_at heap s l' l)%Z | None => true end.

Definition removeEntry (heap : gmap loc goval) (l : loc) (x : secondaryIndex) : secondaryIndex :=
  let pos := sort_search (length (entries x)) (not_before heap (spec x) (entries x) l) in
  with_entries x (remove_from heap (spec x) l pos (length (entries x)) (entries x)).

Definition removeSecondaryIndices heap (l : loc) (secondary : gmap string secondaryIndex) :=
  removeEntry heap l <$> removeSecondaryIndexLookups heap l secondary.

Definition removed_items (res : gmap Z loc) (items : list pendingWrite) : list loc :=
  omap (fun item => res !! w_id item) items.

Definition prepareIndexBatch (heap : gmap loc goval) (res : gmap Z loc) (items : list pendingWrite)
    (secondary : gmap string secondaryIndex) : gmap string secondaryIndex :=
  let changed : gset Z := list_to_set (omap (fun item => if res !! w_id item is Some _ then Some (w_id item) else None) items) in
  let removed := removed_items res items in
  if (zlen removed =? 0)%Z then secondary else
  let secondary := foldl (fun sec l => removeSecondaryIndexLookups heap l sec) secondary removed in
  (fun x => with_entries x
     (List.filter (fun l => negb (bool_decide (GetId (deref heap l) ∈ changed))) (entries x))) <$> secondary.

Definition prepareIndexes (heap : gmap loc goval) (res : gmap Z loc) (items : list pendingWrite)
    (secondary : gmap string secondaryIndex) : gmap string secondaryIndex :=
  if (secondaryIndexBatchThreshold <=? zlen items)%Z then prepareIndexBatch heap res items secondary
  else foldl (fun sec item => match res !! w_id item with
                              | Some l => removeSecondaryIndices heap l sec
                              | None => sec end) secondary items.

(** ** Putting them back *)

Definition addLookup (heap : gmap loc goval) (l : loc) (x : secondaryIndex) : secondaryIndex :=
  if si_unique (spec x) then setUnique x (deref heap l) (GetId (deref heap l)) else x.
Definition addSecondaryIndexLookups heap (l : loc) (secondary : gmap string secondaryIndex) :=
  addLookup heap l <$> secondary.

Definition addEntry (heap : gmap loc goval) (l : loc) (x : secondaryIndex) : secondaryIndex :=
  let pos := sort_search (length (entries x)) (not_before heap (spec x) (entries x) l) in
  with_entries x (slices_insert (entries x) pos l).

Definition addSecondaryIndices heap (l : loc) (secondary : gmap string secondaryIndex) :=
  addEntry heap l <$> addSecondaryIndexLookups heap l secondary.

(** [mergeSecondaryIndexEntries]; [<= 0] prefers the existing entry. *)
Fixpoint merge_entries (cmp : loc -> loc -> Z) (fuel : nat) (existing additions : list loc) : list loc :=
  match fuel, existing, additions with
  | S fuel, x :: existing', y :: additions' =>
      if (cmp x y <=? 0)%Z then x :: merge_entries cmp fuel existing' additions
      else y :: merge_entries cmp fuel existing additions'
  | _, _, _ => existing ++ additions
  end.
Definition mergeSecondaryIndexEntries (cmp : loc -> loc -> Z) (existing additions : list loc) : list loc :=
  match additions, existing with
  | [], _ => existing
  | _, [] => additions
  | _, _ => merge_entries cmp (length existing + length additions) existing additions
  end.

Definition added_items (res : gmap Z loc) (items : list pendingWrite) : list loc :=
  omap (fun item => if w_deleted item then None else res !! w_id item) items.

Definition finishIndexBatch (heap : gmap loc goval) (res : gmap Z loc) (items : list pendingWrite)
    (secondary : gmap string secondaryIndex) : gmap string secondaryIndex :=
  let additions := added_items res items in
  let merged := (fun x => mergeSecondaryIndexEntries (compare_at heap (spec x)) (entries x)
                            (SortFunc (compare_at heap (spec x)) additions)) <$> secondary in
  let secondary := foldl (fun sec l => addSecondaryIndexLookups heap l sec) secondary additions in
  map_imap (fun name x => Some (with_entries x (default [] (merged !! name)))) secondary.

Definition finishIndexes (heap : gmap loc goval) (res : gmap Z loc) (items : list pendingWrite)
    (secondary : gmap string secondaryIndex) : gmap string secondaryIndex :=
  if (secondaryIndexBatchThreshold <=? zlen items)%Z then finishIndexBatch heap res items secondary
  else foldl (fun sec item => if w_deleted item then sec else
                              match res !! w_id item with
                              | Some l => addSecondaryIndices heap l sec
                              | None => sec end) secondary items.

(** ** Range queries *)

(** [indexValue] on [raw any]. *)
Definition indexValue (s : secondaryIndexSpec)
    (raw : option (gotype * goval)) (position : nat) : outcome goval :=
  match raw, si_fields s !! position with
  | None, _ => Fail (ErrText "nestory: index value is nil")
  | _, None => Panic
  | Some (t, v), Some f =>
      if gotype_eqb t (sf_typ f) then Ok v else Fail (ErrText "nestory: index value has the wrong type")
  end.

Fixpoint indexValues (s : secondaryIndexSpec) (prefix : list (option (gotype * goval))) (position : nat) :
    outcome (list goval) :=
  match prefix with
  | [] => Ok []
  | raw :: rest =>
      v ← indexValue s raw position;
      vs ← indexValues s rest (S position);
      Ok (v :: vs)
  end.

(** [comparePrefix]: the row against the prefix values. *)
Fixpoint comparePrefix (fs : list secondaryIndexField) (row : goval) (values : list goval) : Z :=
  match fs, values with
  | f :: fs, v :: values =>
      let order := compareIndexValues (field_value row (sf_index f)) v in
      if (order =? 0)%Z then comparePrefix fs row values else order
  | _, _ => 0
  end.

Definition prefixBounds (heap : gmap loc goval) (x : secondaryIndex)
    (prefix : list (option (gotype * goval))) : outcome (nat * nat) :=
  when (length (si_fields (spec x)) <? length prefix)%nat => Fail (ErrText "nestory: index prefix is too long") ;;
  values ← indexValues (spec x) prefix 0;
  let at_pos (test : Z -> bool) pos :=
    match entries x !! pos with
    | Some l => test (comparePrefix (si_fields (spec x)) (deref heap l) values)
    | None => true end in
  Ok (sort_search (length (entries x)) (at_pos (fun c => 0 <=? c)%Z),
      sort_search (length (entries x)) (at_pos (fun c => 0 <? c)%Z)).

Definition rangePrefix (heap : gmap loc goval) (x : secondaryIndex)
    (prefix : list (option (gotype * goval))) : outcome (list loc) :=
  bounds ← prefixBounds heap x prefix;
  slice (entries x) (Z.of_nat bounds.1) (Z.of_nat bounds.2).

Definition rangeAfter (heap : gmap loc goval) (x : secondaryIndex)
    (prefix : list (option (gotype * goval))) (after : option (gotype * goval)) : outcome (list loc) :=
  when (length (si_fields (spec x)) <=? length prefix)%nat => Fail (ErrText "nestory: index has no cursor field") ;;
  cursor ← indexValue (spec x) after (length prefix);
  bounds ← prefixBounds heap x prefix;
  match si_fields (spec x) !! length prefix with
  | None => Panic
  | Some field =>
      let offset := sort_search (bounds.2 - bounds.1) (fun pos =>
        match entries x !! (bounds.1 + pos) with
        | Some l => (0 <? compareIndexValues (field_value (deref heap l) (sf_index field)) cursor)%Z
        | None => true end) in
      slice (entries x) (Z.of_nat (bounds.1 + offset)) (Z.of_nat bounds.2)
  end.

(** ** Specification *)

(** Index keys of an entity have the kinds of the declared fields, and strings
    a length an int can hold. *)
Definition key_value_ok (t : gotype) (v : goval) : Prop :=
  value_ok t v = true /\ match v with VString s => (zlen (string_bytes s) < 2 ^ 63)%Z | _ => True end.
Definition entity_typed (s : secondaryIndexSpec) (e : goval) : Prop :=
  Forall (fun f => indexable (sf_typ f) = true /\ key_value_ok (sf_typ f) (field_value e (sf_index f))) (si_fields s).

(** The live entities: typed, with distinct positive ids. *)
Record live_ok (heap : gmap loc goval) (s : secondaryIndexSpec) (live : list loc) : Prop := {
  live_typed : Forall (fun l => entity_typed s (deref heap l)) live;
  live_ids : NoDup ((fun l => GetId (deref heap l)) <$> live);
  live_positive : Forall (fun l => (0 < GetId (deref heap l))%Z) live;
}.

(** No two live entities have the key of a unique index in common. *)
Definition unique_keys (heap : gmap loc goval) (s : secondaryIndexSpec) (live : list loc) : Prop :=
  si_unique s = true -> NoDup ((fun l => key_values s (deref heap l)) <$> live).

(** The entries are the live entities in the order of the index, ... *)
Record entries_ok (heap : gmap loc goval) (live : list loc) (x : secondaryIndex) : Prop := {
  ok_perm : entries x ≡ₚ live;
  ok_sorted : StronglySorted (fun a b => compare_at heap (spec x) a b <= 0)%Z (entries x);
}.

(** ... and a unique index finds exactly the keys of the live entities. *)
Record lookups_ok (heap : gmap loc goval) (live : list loc) (x : secondaryIndex) : Prop := {
  ok_found : forall l, l ∈ live -> uniqueID x (deref heap l) = Some (GetId (deref heap l));
  ok_only : forall e id, entity_typed (spec x) e -> uniqueID x e = Some id ->
    exists l, l ∈ live /\ GetId (deref heap l) = id /\ key_values (spec x) (deref heap l) = key_values (spec x) e;
}.

(** An index describes the live entities. *)
Definition index_ok (heap : gmap loc goval) (live : list loc) (x : secondaryIndex) : Prop :=
  entries_ok heap live x /\ (si_unique (spec x) = true -> lookups_ok heap live x).

(** A spec as the parser gives it, as far as the run time relies on it. *)
Definition spec_shape (s : secondaryIndexSpec) : Prop :=
  lookupField s <> EmptyString -> exists f, si_fields s = [f].
End index.

(** * Lemmas *)

(** ** The comparison is a total order that tells keys apart *)

Lemma cmp_compare_0 a b : cmp_compare a b = 0%Z -> a = b.
Proof. apply (cmp_compare_spec a b). Qed.

Definition key_parts (v : goval) : Z * Z * string :=
  match v with
  | VBool b => (0, boolByte b, EmptyString)
  | VInt z => (1, z, EmptyString)
  | VUint z => (2, z, EmptyString)
  | VString s => (3, 0, s)
  | _ => (4, 0, EmptyString)
  end%Z.
Definition compare_parts : Z * Z * string -> Z * Z * string -> Z :=
  lex_cmp (fun a b => cmp_compare a.1.1 b.1.1)
    (lex_cmp (fun a b => cmp_compare a.1.2 b.1.2) (fun a b => string_compare a.2 b.2)).

Lemma compareIndexValues_parts a b : compareIndexValues a b = compare_parts (key_parts a) (key_parts b).
Proof.
  assert (string_compare "" "" = 0%Z) as Es by done.
  destruct a, b; try reflexivity; unfold compare_parts, lex_cmp; cbn [key_parts fst snd compareIndexValues];
    rewrite ?cmp_compare_refl, ?Es; cbn [Z.eqb]; try reflexivity;
    try (match goal with |- ?x = _ => destruct (Z.eqb_spec x 0) as [E|]; [exact E|reflexivity] end).
Qed.

#[export] Instance compare_parts_order : GoOrder compare_parts.
Proof.
  unfold compare_parts. repeat apply lex_cmp_order.
  - apply (on_order (fun a : Z * Z * string => a.1.1) cmp_compare).
  - apply (on_order (fun a : Z * Z * string => a.1.2) cmp_compare).
  - apply (on_order (fun a : Z * Z * string => a.2) string_compare).
Qed.

#[export] Instance compareIndexValues_order : GoOrder compareIndexValues.
Proof.
  split; intros; rewrite ?compareIndexValues_parts in *; [apply order_flip; apply _|].
  by eapply (order_trans (cmp := compare_parts)).
Qed.

Lemma compareIndexValues_refl v : compareIndexValues v v = 0%Z.
Proof. pose proof (order_flip (cmp := compareIndexValues) v v). lia. Qed.

Lemma indexable_kind t v :
  indexable t = true -> value_ok t v = true ->
  match v with VBool _ | VInt _ | VUint _ | VString _ => True | _ => False end.
Proof. destruct t as [name k| | | | |]; try done. destruct k; try done; by destruct v. Qed.

Lemma compareIndexValues_eq t a b :
  indexable t = true -> value_ok t a = true -> value_ok t b = true ->
  compareIndexValues a b = 0%Z -> a = b.
Proof.
  intros Hi Ha Hb E. pose proof (indexable_kind t a Hi Ha). pose proof (indexable_kind t b Hi Hb).
  destruct a, b; try done; cbn in E.
  - destruct b0, b; done.
  - apply cmp_compare_0 in E. by subst.
  - apply cmp_compare_0 in E. by subst.
  - apply string_compare_spec in E. by subst.
Qed.

Section orders.
Context (GetId : goval -> Z).

#[export] Instance compareFields_order fs : GoOrder (compareFields fs).
Proof.
  induction fs as [|f fs IH]; [exact const_order|].
  change (compareFields (f :: fs)) with
    (lex_cmp (fun l r => compareIndexValues (field_value l (sf_index f)) (field_value r (sf_index f))) (compareFields fs)).
  apply lex_cmp_order; [|done]. apply (on_order (fun l => field_value l (sf_index f)) compareIndexValues).
Qed.

#[export] Instance compare_order s : GoOrder (compare GetId s).
Proof.
  change (compare GetId s) with (lex_cmp (compareFields (si_fields s)) (fun l r => cmp_compare (GetId l) (GetId r))).
  apply lex_cmp_order; [apply _|]. apply (on_order GetId cmp_compare).
Qed.

#[export] Instance compare_at_order heap s : GoOrder (compare_at GetId heap s).
Proof. apply (on_order (deref heap) (compare GetId s)). Qed.

Lemma compareFields_eq s a b :
  entity_typed s a -> entity_typed s b -> compareFields (si_fields s) a b = 0%Z <-> key_values s a = key_values s b.
Proof.
  unfold entity_typed, key_values. intros Ha Hb. induction (si_fields s) as [|f fs IH]; [done|].
  apply Forall_cons in Ha as [[Hi [Ha _]] Hfa], Hb as [[_ [Hb _]] Hfb]. specialize (IH Hfa Hfb). cbn.
  destruct (Z.eqb_spec (compareIndexValues (field_value a (sf_index f)) (field_value b (sf_index f))) 0) as [E|E].
  - rewrite (compareIndexValues_eq _ _ _ Hi Ha Hb E). rewrite IH. split; [by intros ->|by intros [= ->]].
  - split; [done|]. intros [= E' _]. rewrite E' in E. by rewrite compareIndexValues_refl in E.
Qed.

Lemma key_values_dec s a b :
  entity_typed s a -> entity_typed s b -> key_values s a = key_values s b \/ key_values s a <> key_values s b.
Proof.
  intros Ha Hb. rewrite <- (compareFields_eq s a b Ha Hb). destruct (decide (compareFields (si_fields s) a b = 0%Z)); auto.
Qed.

(** Equal in the index order means equal keys and equal ids. *)
Lemma compare_zero s a b : compare GetId s a b = 0%Z -> GetId a = GetId b.
Proof.
  unfold compare. destruct (Z.eqb_spec (compareFields (si_fields s) a b) 0); [|done].
  apply cmp_compare_0.
Qed.
End orders.

(** ** The key encoding is injective *)

Lemma be_put_inj n a b x y :
  uint_range (8 * Z.of_nat n) a -> uint_range (8 * Z.of_nat n) b -> be_put n a ++ x = be_put n b ++ y -> a = b /\ x = y.
Proof.
  intros Ha Hb E. destruct (zlen_app_inj _ _ _ _ E) as [E1 E2]; [by rewrite !zlen_be_put|].
  split; [|done]. pose proof (Uint_put n a [] Ha) as U1. pose proof (Uint_put n b [] Hb) as U2.
  rewrite E1 in U1. congruence.
Qed.

Lemma writeIndexKey_inj t a b x y :
  indexable t = true -> key_value_ok t a -> key_value_ok t b ->
  writeIndexKey a ++ x = writeIndexKey b ++ y -> a = b /\ x = y.
Proof.
  intros Hi [Ha Hla] [Hb Hlb] E. destruct t as [name k| | | | |]; try done.
  assert (forall z1 z2, sint_range 64 z1 -> sint_range 64 z2 ->
    be_put 8 (to_uint 64 z1) ++ x = be_put 8 (to_uint 64 z2) ++ y -> z1 = z2 /\ x = y) as Hint.
  { intros z1 z2 H1 H2 E'. apply be_put_inj in E' as [E1 E2]; [|apply to_uint_range; lia..].
    split; [|done]. apply (f_equal (to_sint 64)) in E1. by rewrite !to_sint_to_uint in E1 by (done || lia). }
  destruct k; try done; destruct a, b; try done; cbn in Ha, Hb, E.
  1: { injection E as E1 E2. split; [|done]. destruct b0, b; done. }
  11: { rewrite <- !app_assoc in E. pose proof (zlen_nonneg (string_bytes s)). pose proof (zlen_nonneg (string_bytes s0)).
    apply be_put_inj in E as [E1 E2]; [|apply to_uint_range; lia..].
    rewrite !to_uint_small in E1 by (unfold uint_range; lia).
    destruct (zlen_app_inj _ _ _ _ E2 E1) as [E3 E4]. split; [|done]. f_equal.
    rewrite <- (bytes_string_bytes s), <- (bytes_string_bytes s0). by rewrite E3. }
  all: try (destruct (Hint z z0) as [-> ->]; [unfold sint_range; lia..|exact E|done]).
  all: apply be_put_inj in E as [-> ->]; [done|unfold uint_range; lia..].
Qed.

Lemma bytes_string_inj a b : bytes_string a = bytes_string b -> a = b.
Proof. intros E. rewrite <- (string_bytes_string a), <- (string_bytes_string b). by rewrite E. Qed.

(** The composite key determines the values of the indexed fields. *)
Lemma key_inj x e e' :
  entity_typed (spec x) e -> entity_typed (spec x) e' ->
  key x e = key x e' <-> key_values (spec x) e = key_values (spec x) e'.
Proof.
  intros He He'. unfold key. split; [|by intros ->]. intros E. apply bytes_string_inj in E.
  rewrite <- (app_nil_r (concat (writeIndexKey <$> key_values (spec x) e))),
          <- (app_nil_r (concat (writeIndexKey <$> key_values (spec x) e'))) in E.
  revert He He' E. unfold entity_typed, key_values. generalize (@nil byte) at 1 2.
  induction (si_fields (spec x)) as [|f fs IH]; intros tl He He' E; [done|].
  apply Forall_cons in He as [[Hi Hk] He], He' as [[_ Hk'] He']. cbn in E. rewrite <- !app_assoc in E.
  destruct (writeIndexKey_inj _ _ _ _ _ Hi Hk Hk' E) as [E1 E2]. cbn. rewrite E1. f_equal. by apply (IH tl).
Qed.

(** ** The lookup maps behave as one map from keys to ids *)

Lemma spec_setUnique x e id : spec (setUnique x e id) = spec x.
Proof. unfold setUnique. repeat case_match; done. Qed.
Lemma spec_deleteUnique x e : spec (deleteUnique x e) = spec x.
Proof. unfold deleteUnique. repeat case_match; done. Qed.
Lemma entries_setUnique x e id : entries (setUnique x e id) = entries x.
Proof. unfold setUnique. repeat case_match; done. Qed.
Lemma entries_deleteUnique x e : entries (deleteUnique x e) = entries x.
Proof. unfold deleteUnique. repeat case_match; done. Qed.

Lemma first_value_typed x e :
  spec_shape (spec x) -> lookupField (spec x) <> EmptyString -> entity_typed (spec x) e ->
  exists f, si_fields (spec x) = [f] /\ first_value x e = field_value e (sf_index f) /\
    key_values (spec x) e = [first_value x e] /\ indexable (sf_typ f) = true /\ value_ok (sf_typ f) (first_value x e) = true.
Proof.
  intros Hs Hl He. destruct (Hs Hl) as [f Hf]. exists f.
  assert (first_value x e = field_value e (sf_index f)) as Hv by (unfold first_value, key_values; by rewrite Hf).
  unfold entity_typed in He. rewrite Hf in He. apply Forall_cons in He as [[Hi [Hok _]] _].
  rewrite Hv. split_and!; try done. unfold key_values. by rewrite Hf.
Qed.

Lemma first_value_set x e e' id : first_value (setUnique x e id) e' = first_value x e'.
Proof. unfold first_value. by rewrite spec_setUnique. Qed.
Lemma first_value_delete x e e' : first_value (deleteUnique x e) e' = first_value x e'.
Proof. unfold first_value. by rewrite spec_deleteUnique. Qed.

Lemma indexable_same_kind t a b :
  indexable t = true -> value_ok t a = true -> value_ok t b = true -> kind_rank a = kind_rank b.
Proof. destruct t as [name k| | | | |]; try done. destruct k; try done; by destruct a, b. Qed.

Lemma uniqueID_set_same x e e' id :
  spec_shape (spec x) -> (0 < id)%Z -> entity_typed (spec x) e -> entity_typed (spec x) e' ->
  key_values (spec x) e = key_values (spec x) e' -> uniqueID (setUnique x e id) e' = Some id.
Proof.
  intros Hs Hid He He' E. unfold uniqueID. rewrite spec_setUnique, first_value_set.
  destruct (bool_decide_reflect (lookupField (spec x) = EmptyString)) as [Hl|Hl].
  - assert (key (setUnique x e id) e' = key x e) as ->.
    { unfold key. rewrite spec_setUnique. by rewrite E. }
    unfold setUnique. rewrite bool_decide_true by done. cbn. by rewrite lookup_insert_eq.
  - destruct (first_value_typed x e Hs Hl He) as (f & _ & _ & Hv & Hi & Hok).
    destruct (first_value_typed x e' Hs Hl He') as (_ & _ & _ & Hv' & _ & _).
    rewrite Hv, Hv' in E. injection E as E. rewrite <- E.
    unfold setUnique. rewrite bool_decide_false by done.
    pose proof (indexable_kind _ _ Hi Hok). destruct (first_value x e); try done; cbn; rewrite ?lookup_insert_eq; try done.
    destruct b; cbn; destruct (Z.eqb_spec id 0); try lia; done.
Qed.

Lemma uniqueID_set_other x e e' id :
  spec_shape (spec x) -> entity_typed (spec x) e -> entity_typed (spec x) e' ->
  key_values (spec x) e <> key_values (spec x) e' -> uniqueID (setUnique x e id) e' = uniqueID x e'.
Proof.
  intros Hs He He' E. unfold uniqueID. rewrite spec_setUnique, first_value_set.
  destruct (bool_decide_reflect (lookupField (spec x) = EmptyString)) as [Hl|Hl].
  - assert (key (setUnique x e id) e' = key x e') as -> by (unfold key; by rewrite spec_setUnique).
    unfold setUnique. rewrite bool_decide_true by done. cbn.
    rewrite lookup_insert_ne; [done|]. by rewrite key_inj.
  - destruct (first_value_typed x e Hs Hl He) as (f & Hf & _ & Hv & Hi & Hok).
    destruct (first_value_typed x e' Hs Hl He') as (f' & Hf' & _ & Hv' & _ & Hok').
    rewrite Hf in Hf'. injection Hf' as <-. rewrite Hv, Hv' in E.
    pose proof (indexable_kind _ _ Hi Hok). pose proof (indexable_same_kind _ _ _ Hi Hok Hok') as Hr.
    unfold setUnique. rewrite bool_decide_false by done.
    destruct (first_value x e), (first_value x e'); try done; cbn; rewrite ?lookup_insert_ne by congruence; try done.
    destruct b, b0; done.
Qed.

Lemma uniqueID_delete_same x e e' :
  spec_shape (spec x) -> entity_typed (spec x) e -> entity_typed (spec x) e' ->
  key_values (spec x) e = key_values (spec x) e' -> uniqueID (deleteUnique x e) e' = None.
Proof.
  intros Hs He He' E. unfold uniqueID. rewrite spec_deleteUnique, first_value_delete.
  destruct (bool_decide_reflect (lookupField (spec x) = EmptyString)) as [Hl|Hl].
  - assert (key (deleteUnique x e) e' = key x e) as ->.
    { unfold key. rewrite spec_deleteUnique. by rewrite E. }
    unfold deleteUnique. rewrite bool_decide_true by done. cbn. by rewrite lookup_delete_eq.
  - destruct (first_value_typed x e Hs Hl He) as (f & _ & _ & Hv & Hi & Hok).
    destruct (first_value_typed x e' Hs Hl He') as (_ & _ & _ & Hv' & _ & _).
    rewrite Hv, Hv' in E. injection E as E. rewrite <- E.
    unfold deleteUnique. rewrite bool_decide_false by done.
    pose proof (indexable_kind _ _ Hi Hok). destruct (first_value x e); try done; cbn; rewrite ?lookup_delete_eq; try done.
    by destruct b.
Qed.

Lemma uniqueID_delete_other x e e' :
  spec_shape (spec x) -> entity_typed (spec x) e -> entity_typed (spec x) e' ->
  key_values (spec x) e <> key_values (spec x) e' -> uniqueID (deleteUnique x e) e' = uniqueID x e'.
Proof.
  intros Hs He He' E. unfold uniqueID. rewrite spec_deleteUnique, first_value_delete.
  destruct (bool_decide_reflect (lookupField (spec x) = EmptyString)) as [Hl|Hl].
  - assert (key (deleteUnique x e) e' = key x e') as -> by (unfold key; by rewrite spec_deleteUnique).
    unfold deleteUnique. rewrite bool_decide_true by done. cbn.
    rewrite lookup_delete_ne; [done|]. by rewrite key_inj.
  - destruct (first_value_typed x e Hs Hl He) as (f & Hf & _ & Hv & Hi & Hok).
    destruct (first_value_typed x e' Hs Hl He') as (f' & Hf' & _ & Hv' & _ & Hok').
    rewrite Hf in Hf'. injection Hf' as <-. rewrite Hv, Hv' in E.
    pose proof (indexable_kind _ _ Hi Hok). pose proof (indexable_same_kind _ _ _ Hi Hok Hok') as Hr.
    unfold deleteUnique. rewrite bool_decide_false by done.
    destruct (first_value x e), (first_value x e'); try done; cbn; rewrite ?lookup_delete_ne by congruence; try done.
    destruct b, b0; done.
Qed.

(** An index with no keys finds nothing. *)
Lemma uniqueID_new s e : spec_shape s -> entity_typed s e -> uniqueID (newSecondaryIndex s) e = None.
Proof.
  intros Hs He. unfold uniqueID. destruct (bool_decide_reflect (lookupField (spec (newSecondaryIndex s)) = EmptyString)) as [Hl|Hl]; [done|].
  destruct (first_value_typed (newSecondaryIndex s) e Hs Hl He) as (f & _ & _ & _ & Hi & Hok).
  pose proof (indexable_kind _ _ Hi Hok). destruct (first_value _ e); try done. by destruct b.
Qed.

(** ** Sorted entries *)

Section sorted.
Context {A} (cmp : A -> A -> Z) `{!GoOrder cmp}.
Notation sorted := (StronglySorted (fun a b => cmp a b <= 0)%Z).

Lemma sorted_lookup l i j a b :
  sorted l -> l !! i = Some a -> l !! j = Some b -> i < j -> (cmp a b <= 0)%Z.
Proof.
  intros Hs. revert i j. induction Hs as [|c l Hs IH Hall]; intros i j Hi Hj Hlt; [done|].
  destruct i as [|i], j as [|j]; try lia; cbn in Hi, Hj.
  - injection Hi as ->. rewrite Forall_forall in Hall. apply Hall. by eapply list_elem_of_lookup_2.
  - eapply IH; eauto. lia.
Qed.

Lemma sorted_app_iff l1 l2 :
  sorted (l1 ++ l2) <-> sorted l1 /\ sorted l2 /\ forall a b, a ∈ l1 -> b ∈ l2 -> (cmp a b <= 0)%Z.
Proof. rewrite StronglySorted_app. naive_solver. Qed.

(** The searches for an element split the list where it belongs. *)
Lemma search_split (l : list A) (x : A) :
  sorted l ->
  let pos := sort_search (length l) (fun p => match l !! p with Some y => (0 <=? cmp y x)%Z | None => true end) in
  pos <= length l /\ (forall y, y ∈ take pos l -> (cmp y x < 0)%Z) /\ (forall y, y ∈ drop pos l -> (0 <= cmp y x)%Z).
Proof.
  intros Hs. set (f := fun p => match l !! p with Some y => (0 <=? cmp y x)%Z | None => true end).
  destruct (sort_search_spec f (length l)) as (H1 & H2 & H3).
  { intros a b Hab Ha. unfold f in *. destruct (l !! b) as [yb|] eqn:Eb; [|done].
    destruct (l !! a) as [ya|] eqn:Ea; [|apply lookup_ge_None in Ea; lia].
    destruct (decide (a = b)) as [->|Hne]; [congruence|].
    pose proof (sorted_lookup l a b ya yb Hs Ea Eb ltac:(lia)) as Hle.
    apply Z.leb_le in Ha. apply Z.leb_le. pose proof (order_flip (cmp := cmp) x ya). pose proof (order_flip (cmp := cmp) x yb).
    pose proof (order_trans (cmp := cmp) x ya yb). lia. }
  cbv zeta. set (pos := sort_search (length l) f) in *. split; [done|]. split.
  - intros y Hy. apply list_elem_of_lookup in Hy as [i Hi]. apply lookup_take_Some in Hi as [Hi Hlt].
    specialize (H2 i Hlt). unfold f in H2. rewrite Hi in H2. lia.
  - intros y Hy. apply list_elem_of_lookup in Hy as [i Hi]. rewrite lookup_drop in Hi.
    specialize (H3 (pos + i)). unfold f in H3. rewrite Hi in H3. apply lookup_lt_Some in Hi. lia.
Qed.

Lemma insert_sorted (l : list A) (x : A) :
  sorted l ->
  let pos := sort_search (length l) (fun p => match l !! p with Some y => (0 <=? cmp y x)%Z | None => true end) in
  sorted (slices_insert l pos x) /\ slices_insert l pos x ≡ₚ x :: l.
Proof.
  intros Hs. pose proof (search_split l x Hs) as H. cbv zeta in *.
  set (pos := sort_search _ _) in *. destruct H as (H1 & H2 & H3). unfold slices_insert. split.
  - rewrite <- (take_drop pos l) in Hs. apply sorted_app_iff in Hs as (Ha & Hb & Hab).
    apply sorted_app_iff. split_and!; [done| |].
    + constructor; [done|]. apply Forall_forall. intros y Hy. apply order_flip. by apply H3.
    + intros a b Hin Hb'. apply elem_of_cons in Hb' as [->|Hb']; [specialize (H2 a Hin); lia|by apply Hab].
  - rewrite <- Permutation_middle. by rewrite take_drop.
Qed.

Lemma sorted_filter (f : A -> bool) l : sorted l -> sorted (List.filter f l).
Proof.
  induction 1 as [|a l Hs IH Hall]; cbn; [constructor|]. destruct (f a); [|done]. constructor; [done|].
  rewrite Forall_forall in *. intros b Hb. apply Hall.
  apply list_elem_of_In, filter_In in Hb as [Hb _]. by apply list_elem_of_In.
Qed.
End sorted.

#[export] Instance filter_Perm {A} (f : A -> bool) : Proper (Permutation ==> Permutation) (List.filter f).
Proof.
  induction 1 as [|a ? ? ? IH|a b l|? ? ? ? IH1 ? IH2]; cbn; [done| | |by rewrite IH1].
  - destruct (f a); [by constructor|done].
  - destruct (f a), (f b); [apply perm_swap|done..].
Qed.

Lemma sorted_ext {A} (c1 c2 : A -> A -> Z) l :
  (forall a b, a ∈ l -> b ∈ l -> c1 a b = c2 a b) ->
  StronglySorted (fun a b => c1 a b <= 0)%Z l -> StronglySorted (fun a b => c2 a b <= 0)%Z l.
Proof.
  intros He Hs. induction Hs as [|a l Hs IH Hall]; constructor.
  - apply IH. intros. apply He; by right.
  - rewrite Forall_forall in *. intros b Hb. rewrite <- He; [by apply Hall|left|by right].
Qed.

Lemma merge_sorted (cmp : loc -> loc -> Z) `{!GoOrder cmp} fuel l1 l2 :
  length l1 + length l2 <= fuel ->
  StronglySorted (fun a b => cmp a b <= 0)%Z l1 -> StronglySorted (fun a b => cmp a b <= 0)%Z l2 ->
  StronglySorted (fun a b => cmp a b <= 0)%Z (merge_entries cmp fuel l1 l2) /\ merge_entries cmp fuel l1 l2 ≡ₚ l1 ++ l2.
Proof.
  revert l1 l2. induction fuel as [|fuel IH]; intros l1 l2 Hf H1 H2.
  { destruct l1, l2; cbn in Hf; try lia. done. }
  destruct l1 as [|x l1]; [done|]. destruct l2 as [|y l2]; [by cbn; rewrite app_nil_r|].
  inversion H1 as [|? ? H1' Hx]; subst. inversion H2 as [|? ? H2' Hy]; subst. cbn in Hf.
  rewrite Forall_forall in Hx, Hy. cbn [merge_entries]. destruct (Z.leb_spec (cmp x y) 0) as [Hxy|Hxy].
  - destruct (IH l1 (y :: l2) ltac:(cbn; lia) H1' H2) as [Hs Hp].
    split; [|by rewrite Hp]. constructor; [done|]. apply Forall_forall. intros z Hz. rewrite Hp in Hz.
    apply elem_of_app in Hz as [Hz|Hz]; [by apply Hx|]. apply elem_of_cons in Hz as [->|Hz]; [done|].
    eapply order_trans; [exact Hxy|by apply Hy].
  - destruct (IH (x :: l1) l2 ltac:(cbn; lia) H1 H2') as [Hs Hp].
    split.
    + constructor; [done|]. apply Forall_forall. intros z Hz. rewrite Hp in Hz.
      assert (cmp y x <= 0)%Z by (apply order_flip; lia).
      apply elem_of_app in Hz as [Hz|Hz]; [|by apply Hy]. apply elem_of_cons in Hz as [->|Hz]; [done|].
      eapply order_trans; [eassumption|by apply Hx].
    + rewrite Hp. by rewrite <- Permutation_middle.
Qed.

Lemma merge_entries_spec cmp `{!GoOrder cmp} existing additions :
  StronglySorted (fun a b => cmp a b <= 0)%Z existing -> StronglySorted (fun a b => cmp a b <= 0)%Z additions ->
  StronglySorted (fun a b => cmp a b <= 0)%Z (mergeSecondaryIndexEntries cmp existing additions) /\
  mergeSecondaryIndexEntries cmp existing additions ≡ₚ existing ++ additions.
Proof.
  intros H1 H2. unfold mergeSecondaryIndexEntries.
  destruct additions as [|y additions]; [by rewrite app_nil_r|]. destruct existing as [|x existing]; [done|].
  by apply merge_sorted.
Qed.

(** ** One entity leaves or enters an index *)

Section steps.
Context (GetId : goval -> Z).
Implicit Types (x : secondaryIndex) (l : loc) (live : list loc) (heap : gmap loc goval).
Notation index_ok := (index_ok GetId).
Notation entries_ok := (entries_ok GetId).
Notation lookups_ok := (lookups_ok GetId).
Notation live_ok := (live_ok GetId).

Lemma live_ok_perm heap s live live' : live ≡ₚ live' -> live_ok heap s live -> live_ok heap s live'.
Proof. intros Hp [H1 H2 H3]. split; by rewrite <- Hp. Qed.
Lemma live_ok_app heap s xs ys : live_ok heap s (xs ++ ys) -> live_ok heap s xs /\ live_ok heap s ys.
Proof.
  intros [H1 H2 H3]. apply Forall_app in H1 as [], H3 as []. rewrite fmap_app in H2.
  apply NoDup_app in H2 as (? & _ & ?). by split; split.
Qed.
Lemma live_ok_elem heap s live l : live_ok heap s live -> l ∈ live -> entity_typed s (deref heap l) /\ (0 < GetId (deref heap l))%Z.
Proof. intros [H1 _ H3] Hl. rewrite Forall_forall in H1, H3. auto. Qed.
Lemma live_ok_id_inj heap s live a b :
  live_ok heap s live -> a ∈ live -> b ∈ live -> GetId (deref heap a) = GetId (deref heap b) -> a = b.
Proof.
  intros [_ H _] Ha Hb E. apply list_elem_of_lookup in Ha as [i Hi], Hb as [j Hj].
  assert (i = j) as ->; [|congruence]. apply (NoDup_lookup _ i j (GetId (deref heap a)) H); rewrite list_lookup_fmap.
  - by rewrite Hi. - rewrite Hj, E. done.
Qed.
Lemma live_ok_NoDup heap s live : live_ok heap s live -> NoDup live.
Proof. intros [_ H _]. by apply NoDup_fmap_1 in H. Qed.

Lemma lookups_ok_perm heap live live' x : live ≡ₚ live' -> lookups_ok heap live x -> lookups_ok heap live' x.
Proof.
  intros Hp [H1 H2]. split.
  - intros l Hl. apply H1. by rewrite Hp.
  - intros e id He Hx. destruct (H2 e id He Hx) as (l & Hl & Hr). exists l. by rewrite <- Hp.
Qed.
Lemma index_ok_perm heap live live' x : live ≡ₚ live' -> index_ok heap live x -> index_ok heap live' x.
Proof.
  intros Hp [[H1 H2] H3]. split; [split; [by rewrite <- Hp|done]|]. intros Hu. eapply lookups_ok_perm; eauto.
Qed.

(** A unique index in order means unique keys. *)
Lemma lookups_ok_unique heap live x :
  live_ok heap (spec x) live -> lookups_ok heap live x -> unique_keys heap (spec x) live.
Proof.
  intros Hlive [Hf Ho] _. pose proof (live_ok_NoDup _ _ _ Hlive) as Hnd.
  apply NoDup_fmap_2_strong; [|done]. intros a b Ha Hb E.
  destruct (live_ok_elem _ _ _ _ Hlive Ha) as [Hta _]. destruct (live_ok_elem _ _ _ _ Hlive Hb) as [Htb _].
  eapply live_ok_id_inj; eauto. destruct (Ho (deref heap a) _ Hta (Hf a Ha)) as (c & _ & Hc & _).
  assert (uniqueID x (deref heap b) = uniqueID x (deref heap a)) as Hu.
  { unfold uniqueID, key, first_value. by rewrite E. }
  rewrite (Hf a Ha), (Hf b Hb) in Hu. congruence.
Qed.

Lemma spec_removeLookup heap l x : spec (removeLookup heap l x) = spec x.
Proof. unfold removeLookup. destruct (si_unique (spec x)); [apply spec_deleteUnique|done]. Qed.
Lemma entries_removeLookup heap l x : entries (removeLookup heap l x) = entries x.
Proof. unfold removeLookup. destruct (si_unique (spec x)); [apply entries_deleteUnique|done]. Qed.
Lemma spec_addLookup heap l x : spec (addLookup GetId heap l x) = spec x.
Proof. unfold addLookup. destruct (si_unique (spec x)); [apply spec_setUnique|done]. Qed.
Lemma entries_addLookup heap l x : entries (addLookup GetId heap l x) = entries x.
Proof. unfold addLookup. destruct (si_unique (spec x)); [apply entries_setUnique|done]. Qed.
Lemma uniqueID_with_entries x es e : uniqueID (with_entries x es) e = uniqueID x e.
Proof. done. Qed.

Lemma entries_ok_spec heap live x x' :
  spec x' = spec x -> entries x' = entries x -> entries_ok heap live x -> entries_ok heap live x'.
Proof. intros E1 E2 [H1 H2]. split; by rewrite ?E1, E2. Qed.
Lemma lookups_ok_with_entries heap live x es : lookups_ok heap live x -> lookups_ok heap live (with_entries x es).
Proof. intros [H1 H2]. by split. Qed.

Lemma removeLookup_ok heap l live x :
  spec_shape (spec x) -> si_unique (spec x) = true -> live_ok heap (spec x) (l :: live) ->
  lookups_ok heap (l :: live) x -> lookups_ok heap live (removeLookup heap l x).
Proof.
  intros Hs Hu Hlive Hok. pose proof (lookups_ok_unique _ _ _ Hlive Hok Hu) as Hk.
  destruct Hok as [Hf Ho]. cbn in Hk. apply NoDup_cons in Hk as [Hk _].
  destruct (live_ok_elem _ _ _ l Hlive ltac:(left)) as [Ht _].
  unfold removeLookup. rewrite Hu. split; rewrite ?spec_deleteUnique.
  - intros l' Hl'. destruct (live_ok_elem _ _ _ l' Hlive ltac:(by right)) as [Ht' _].
    rewrite uniqueID_delete_other; [by apply Hf; right|done..|].
    intros E. apply Hk. apply list_elem_of_fmap. eauto.
  - intros e id He Hx. destruct (key_values_dec (spec x) (deref heap l) e Ht He) as [E|E].
    { rewrite uniqueID_delete_same in Hx by done. done. }
    rewrite uniqueID_delete_other in Hx by done. destruct (Ho e id He Hx) as (l' & Hl' & Hid & E').
    apply elem_of_cons in Hl' as [->|Hl']; [done|]. eauto.
Qed.

Lemma addLookup_ok heap l live x :
  spec_shape (spec x) -> si_unique (spec x) = true -> live_ok heap (spec x) (l :: live) ->
  unique_keys heap (spec x) (l :: live) ->
  lookups_ok heap live x -> lookups_ok heap (l :: live) (addLookup GetId heap l x).
Proof.
  intros Hs Hu Hlive Hk [Hf Ho]. specialize (Hk Hu). cbn in Hk. apply NoDup_cons in Hk as [Hk _].
  destruct (live_ok_elem _ _ _ l Hlive ltac:(left)) as [Ht Hpos].
  unfold addLookup. rewrite Hu. split; rewrite ?spec_setUnique.
  - intros l' Hl'. destruct (live_ok_elem _ _ _ l' Hlive Hl') as [Ht' _].
    apply elem_of_cons in Hl' as [->|Hl']; [by rewrite uniqueID_set_same|].
    rewrite uniqueID_set_other; [by apply Hf|done..|].
    intros E. apply Hk. apply list_elem_of_fmap. eauto.
  - intros e id He Hx. destruct (key_values_dec (spec x) (deref heap l) e Ht He) as [E|E].
    { rewrite uniqueID_set_same in Hx by done. injection Hx as <-. exists l. split_and!; [left|done|done]. }
    rewrite uniqueID_set_other in Hx by done. destruct (Ho e id He Hx) as (l' & Hl' & Hid & E').
    exists l'. split_and!; [by right|done|done].
Qed.

Lemma remove_sorted heap s l (es : list loc) :
  StronglySorted (fun a b => compare_at GetId heap s a b <= 0)%Z es -> l ∈ es ->
  (forall a, a ∈ es -> GetId (deref heap a) = GetId (deref heap l) -> a = l) ->
  let es' := remove_from GetId heap s l (sort_search (length es) (not_before GetId heap s es l)) (length es) es in
  StronglySorted (fun a b => compare_at GetId heap s a b <= 0)%Z es' /\ l :: es' ≡ₚ es.
Proof.
  intros Hs Hl Hid. pose proof (search_split (compare_at GetId heap s) es l Hs) as H.
  cbv zeta in *. fold (not_before GetId heap s es l) in H.
  set (pos := sort_search _ _) in *. destruct H as (H1 & H2 & H3).
  assert (compare_at GetId heap s l l = 0)%Z as Hll.
  { pose proof (order_flip (cmp := compare_at GetId heap s) l l). lia. }
  assert (l ∈ drop pos es) as Hd.
  { rewrite <- (take_drop pos es) in Hl. apply elem_of_app in Hl as [Hl|Hl]; [|done]. apply H2 in Hl. lia. }
  destruct (drop pos es) as [|a rest] eqn:Ed; [by apply elem_of_nil in Hd|].
  assert (es !! pos = Some a) as Ea.
  { replace pos with (pos + 0) by lia. by rewrite <- lookup_drop, Ed. }
  rewrite <- (take_drop pos es), Ed in Hs. apply sorted_app_iff in Hs as (Hs1 & Hs2 & Hs12).
  inversion Hs2 as [|? ? Hs2' Hall]; subst. rewrite Forall_forall in Hall.
  assert (compare_at GetId heap s a l = 0)%Z as Hal.
  { specialize (H3 a ltac:(left)). apply elem_of_cons in Hd as [->|Hd]; [done|]. specialize (Hall l Hd). lia. }
  assert (a = l) as -> by (apply Hid; [by eapply list_elem_of_lookup_2|by eapply compare_zero]).
  clearbody pos. destruct (length es) as [|n] eqn:En; [by destruct es|]. cbn. rewrite Ea, Hal, !Z.eqb_refl.
  unfold slices_delete. assert (drop (S pos) es = rest) as ->.
  { replace (S pos) with (pos + 1) by lia. rewrite <- drop_drop, Ed. done. }
  split.
  - apply sorted_app_iff. split_and!; [done..|]. intros b c Hb Hc. apply Hs12; [done|by right].
  - rewrite <- (take_drop pos es) at 2. rewrite Ed. by rewrite Permutation_middle.
Qed.

Lemma removeEntry_ok heap l live x :
  live_ok heap (spec x) (l :: live) -> entries_ok heap (l :: live) x -> entries_ok heap live (removeEntry GetId heap l x).
Proof.
  intros Hlive [Hp Hs]. destruct (remove_sorted heap (spec x) l (entries x) Hs) as [H1 H2].
  - rewrite Hp. left.
  - intros a Ha. rewrite Hp in Ha. intros E. eapply live_ok_id_inj; eauto. left.
  - split; [|done]. cbn in *. apply (Permutation_cons_inv (a := l)). etrans; [exact H2|done].
Qed.

Lemma addEntry_ok heap l live x :
  entries_ok heap live x -> entries_ok heap (l :: live) (addEntry GetId heap l x).
Proof.
  intros [Hp Hs]. destruct (insert_sorted (compare_at GetId heap (spec x)) (entries x) l Hs) as [H1 H2].
  split; [|done]. cbn in *. etrans; [exact H2|]. by rewrite Hp.
Qed.

(** The whole step for one entity. *)
Definition remove_one heap l x : secondaryIndex := removeEntry GetId heap l (removeLookup heap l x).
Definition add_one heap l x : secondaryIndex := addEntry GetId heap l (addLookup GetId heap l x).

Lemma remove_one_ok heap l live x :
  spec_shape (spec x) -> live_ok heap (spec x) (l :: live) ->
  index_ok heap (l :: live) x -> index_ok heap live (remove_one heap l x).
Proof.
  intros Hs Hlive [He Hl]. split.
  - apply removeEntry_ok; rewrite ?spec_removeLookup; [done|].
    eapply entries_ok_spec; [apply spec_removeLookup|apply entries_removeLookup|done].
  - cbn. rewrite spec_removeLookup. intros Hu. apply lookups_ok_with_entries. by apply removeLookup_ok; auto.
Qed.

Lemma add_one_ok heap l live x :
  spec_shape (spec x) -> live_ok heap (spec x) (l :: live) -> unique_keys heap (spec x) (l :: live) ->
  index_ok heap live x -> index_ok heap (l :: live) (add_one heap l x).
Proof.
  intros Hs Hlive Hk [He Hl]. split.
  - apply addEntry_ok. eapply entries_ok_spec; [apply spec_addLookup|apply entries_addLookup|done].
  - cbn. rewrite spec_addLookup. intros Hu. apply lookups_ok_with_entries. by apply addLookup_ok; auto.
Qed.

(** Removing an entity that is not there. *)
Lemma remove_absent_ok heap l live x :
  spec_shape (spec x) -> live_ok heap (spec x) (l :: live) -> unique_keys heap (spec x) (l :: live) ->
  index_ok heap live x -> index_ok heap live (remove_one heap l x).
Proof.
  intros Hs Hlive Hk [[Hp Hsort] Hl].
  assert (forall pos fuel, remove_from GetId heap (spec x) l pos fuel (entries x) = entries x) as Hsame.
  { intros pos fuel. revert pos. induction fuel as [|fuel IH]; intros pos; [done|]. cbn.
    destruct (entries x !! pos) as [l'|] eqn:E; [|done]. destruct (_ =? 0)%Z; [|done].
    destruct (Z.eqb_spec (GetId (deref heap l')) (GetId (deref heap l))) as [Eid|_]; [|apply IH].
    destruct Hlive as [_ Hids _]. cbn in Hids. apply NoDup_cons in Hids as [Hids _]. exfalso. apply Hids, list_elem_of_fmap.
    exists l'. split; [done|]. rewrite <- Hp. by eapply list_elem_of_lookup_2. }
  split.
  - unfold remove_one, removeEntry. split; cbn; rewrite ?spec_removeLookup, entries_removeLookup, Hsame; done.
  - cbn. rewrite spec_removeLookup. intros Hu. apply lookups_ok_with_entries. destruct (Hl Hu) as [Hf Ho]. specialize (Hk Hu). cbn in Hk.
    apply NoDup_cons in Hk as [Hk _]. destruct (live_ok_elem _ _ _ l Hlive ltac:(left)) as [Ht _].
    unfold removeLookup. rewrite Hu. split; rewrite ?spec_deleteUnique.
    + intros l' Hl'. destruct (live_ok_elem _ _ _ l' Hlive ltac:(by right)) as [Ht' _].
      rewrite uniqueID_delete_other; [by apply Hf|done..|]. intros E. apply Hk. apply list_elem_of_fmap. eauto.
    + intros e id He Hx. destruct (key_values_dec (spec x) (deref heap l) e Ht He) as [E|E].
      { rewrite uniqueID_delete_same in Hx by done. done. }
      rewrite uniqueID_delete_other in Hx by done. by apply Ho.
Qed.

Lemma spec_remove_one heap l x : spec (remove_one heap l x) = spec x.
Proof. apply spec_removeLookup. Qed.
Lemma spec_add_one heap l x : spec (add_one heap l x) = spec x.
Proof. apply spec_addLookup. Qed.

(** ** The two paths of a commit, on one index *)

Lemma remove_all_ok heap removed live x :
  spec_shape (spec x) -> live_ok heap (spec x) (removed ++ live) -> index_ok heap (removed ++ live) x ->
  index_ok heap live (foldl (fun x l => remove_one heap l x) x removed).
Proof.
  revert x. induction removed as [|l removed IH]; intros x Hs Hlive Hok; [done|]. cbn in *.
  apply IH; rewrite ?spec_remove_one; [done| |by apply remove_one_ok].
  by apply (live_ok_app _ _ [l]) in Hlive as [_ ?].
Qed.

Lemma foldl_spec (f : loc -> secondaryIndex -> secondaryIndex) (ls : list loc) x :
  (forall l y, spec (f l y) = spec y) -> spec (foldl (fun y l => f l y) x ls) = spec x.
Proof. intros H. revert x. induction ls as [|l ls IH]; intros x; [done|]. cbn. by rewrite IH, H. Qed.
Lemma foldl_entries (f : loc -> secondaryIndex -> secondaryIndex) (ls : list loc) x :
  (forall l y, entries (f l y) = entries y) -> entries (foldl (fun y l => f l y) x ls) = entries x.
Proof. intros H. revert x. induction ls as [|l ls IH]; intros x; [done|]. cbn. by rewrite IH, H. Qed.

Lemma remove_lookups_ok heap removed live x :
  spec_shape (spec x) -> si_unique (spec x) = true -> live_ok heap (spec x) (removed ++ live) ->
  lookups_ok heap (removed ++ live) x ->
  lookups_ok heap live (foldl (fun x l => removeLookup heap l x) x removed).
Proof.
  revert x. induction removed as [|l removed IH]; intros x Hs Hu Hlive Hok; [done|]. cbn in *.
  apply IH; rewrite ?spec_removeLookup; [done|done| |by apply removeLookup_ok].
  by apply (live_ok_app _ _ [l]) in Hlive as [_ ?].
Qed.

Lemma remove_batch_ok heap removed live x (changed : gset Z) :
  spec_shape (spec x) -> live_ok heap (spec x) (removed ++ live) -> index_ok heap (removed ++ live) x ->
  (forall l, l ∈ removed -> GetId (deref heap l) ∈ changed) ->
  (forall l, l ∈ live -> GetId (deref heap l) ∉ changed) ->
  let x' := foldl (fun x l => removeLookup heap l x) x removed in
  index_ok heap live (with_entries x'
    (List.filter (fun l => negb (bool_decide (GetId (deref heap l) ∈ changed))) (entries x'))).
Proof.
  intros Hs Hlive [He Hl] Hin Hout x'.
  assert (spec x' = spec x) as E1 by (apply foldl_spec; intros; apply spec_removeLookup).
  assert (entries x' = entries x) as E2 by (apply foldl_entries; intros; apply entries_removeLookup).
  destruct He as [Hp Hsort]. split; [split|]; cbn.
  - rewrite E2, Hp. rewrite List.filter_app.
    assert (forall zs, (forall l, l ∈ zs -> GetId (deref heap l) ∈ changed) ->
      List.filter (fun l => negb (bool_decide (GetId (deref heap l) ∈ changed))) zs = []) as H1.
    { induction zs as [|z zs IH]; intros Hz; [done|]. cbn. rewrite bool_decide_true by (apply Hz; left). cbn.
      apply IH. intros. apply Hz. by right. }
    assert (forall zs, (forall l, l ∈ zs -> GetId (deref heap l) ∉ changed) ->
      List.filter (fun l => negb (bool_decide (GetId (deref heap l) ∈ changed))) zs = zs) as H2.
    { induction zs as [|z zs IH]; intros Hz; [done|]. cbn. rewrite bool_decide_false by (apply Hz; left). cbn.
      f_equal. apply IH. intros. apply Hz. by right. }
    by rewrite H1, H2.
  - rewrite E1, E2. by apply sorted_filter.
  - rewrite E1. intros Hu. apply lookups_ok_with_entries. by apply remove_lookups_ok; auto.
Qed.

Lemma unique_keys_perm heap s live live' : live ≡ₚ live' -> unique_keys heap s live -> unique_keys heap s live'.
Proof. intros Hp H Hu. specialize (H Hu). by rewrite <- Hp. Qed.
Lemma unique_keys_app heap s xs ys : unique_keys heap s (xs ++ ys) -> unique_keys heap s ys.
Proof. intros H Hu. specialize (H Hu). rewrite fmap_app in H. by apply NoDup_app in H as (_ & _ & ?). Qed.

(** Adding [l] first, then the rest. *)
Lemma add_order heap s l added live :
  live_ok heap s ((l :: added) ++ live) -> unique_keys heap s ((l :: added) ++ live) ->
  (live_ok heap s (l :: live) /\ unique_keys heap s (l :: live)) /\
  live_ok heap s (added ++ l :: live) /\ unique_keys heap s (added ++ l :: live).
Proof.
  intros H1 H2. assert ((l :: added) ++ live ≡ₚ added ++ l :: live) as Hp by apply Permutation_middle.
  apply (live_ok_perm _ _ _ _ Hp) in H1. apply (unique_keys_perm _ _ _ _ Hp) in H2.
  split_and!; [|by eapply unique_keys_app|done..]. by apply live_ok_app in H1 as [_ ?].
Qed.

Lemma add_all_ok heap added live x :
  spec_shape (spec x) -> live_ok heap (spec x) (added ++ live) -> unique_keys heap (spec x) (added ++ live) ->
  index_ok heap live x ->
  index_ok heap (added ++ live) (foldl (fun x l => add_one heap l x) x added).
Proof.
  revert x live. induction added as [|l added IH]; intros x live Hs Hlive Hk Hok; [done|].
  destruct (add_order _ _ _ _ _ Hlive Hk) as [[H1 H2] [H3 H4]].
  eapply index_ok_perm; [symmetry; apply Permutation_middle|].
  apply IH; rewrite ?spec_add_one; [done..|]. by apply add_one_ok.
Qed.

Lemma add_lookups_ok heap added live x :
  spec_shape (spec x) -> si_unique (spec x) = true -> live_ok heap (spec x) (added ++ live) ->
  unique_keys heap (spec x) (added ++ live) -> lookups_ok heap live x ->
  lookups_ok heap (added ++ live) (foldl (fun x l => addLookup GetId heap l x) x added).
Proof.
  revert x live. induction added as [|l added IH]; intros x live Hs Hu Hlive Hk Hok; [done|].
  destruct (add_order _ _ _ _ _ Hlive Hk) as [[H1 H2] [H3 H4]].
  eapply lookups_ok_perm; [symmetry; apply Permutation_middle|].
  apply IH; rewrite ?spec_addLookup; [done..|]. by apply addLookup_ok.
Qed.

Lemma add_batch_ok heap added live x :
  spec_shape (spec x) -> live_ok heap (spec x) (added ++ live) -> unique_keys heap (spec x) (added ++ live) ->
  index_ok heap live x ->
  index_ok heap (added ++ live)
    (with_entries (foldl (fun x l => addLookup GetId heap l x) x added)
       (mergeSecondaryIndexEntries (compare_at GetId heap (spec x)) (entries x)
          (SortFunc (compare_at GetId heap (spec x)) added))).
Proof.
  intros Hs Hlive Hk [[Hp Hsort] Hl].
  assert (spec (foldl (fun x l => addLookup GetId heap l x) x added) = spec x) as E
    by (apply foldl_spec; intros; apply spec_addLookup).
  destruct (merge_entries_spec (compare_at GetId heap (spec x)) (entries x) (SortFunc (compare_at GetId heap (spec x)) added))
    as [H1 H2]; [done|apply SortFunc_sorted; apply _|].
  split; [split|]; cbn; rewrite ?E; [|done|].
  - rewrite H2, SortFunc_perm, Hp. apply Permutation_app_comm.
  - intros Hu. apply lookups_ok_with_entries. by apply add_lookups_ok; auto.
Qed.
End steps.
