(* ===== verification/IndexCommit.v ===== *)
(** * What the secondary indexes promise

    The theorems over [SecondaryIndex]: the checks of a commit accept exactly
    the commits that leave unique keys unique, a commit keeps every index in
    step with the table, rebuilding gives the same index, and range queries
    return exactly the matching rows. *)
From S2P Require Import Prelude GoBytes GoReflect RelationSchema SchemaRows IndexSpecs SecondaryIndex.

(** ** Validation *)

Definition written (items : list pendingWrite) : list pendingWrite := List.filter (fun it => negb (w_deleted it)) items.

Lemma validation_id x e : uniqueIDForValidation x e (pendingKey x e) = uniqueID x e.
Proof.
  unfold uniqueIDForValidation, uniqueID, pendingKey.
  destruct (bool_decide_reflect (lookupField (spec x) = EmptyString)); [|done]. cbn. by destruct (si_fields (spec x)).
Qed.

Lemma pendingKey_inj x e e' :
  spec_shape (spec x) -> entity_typed (spec x) e -> entity_typed (spec x) e' ->
  pendingKey x e = pendingKey x e' <-> key_values (spec x) e = key_values (spec x) e'.
Proof.
  intros Hs He He'. pose proof (key_inj x e e' He He') as Hk. unfold pendingKey.
  destruct (bool_decide_reflect (lookupField (spec x) = EmptyString)) as [Hl|Hl]; cbn; [by destruct (si_fields (spec x))|].
  destruct (first_value_typed x e Hs Hl He) as (f & Hf & _ & Hv & Hi & Hok).
  destruct (first_value_typed x e' Hs Hl He') as (f' & Hf' & _ & Hv' & _ & Hok').
  rewrite Hf in Hf'. injection Hf' as <-. rewrite Hf. rewrite Hv, Hv' in Hk |- *.
  destruct (sf_typ f) as [n k| | | | |]; try done. destruct k; try done.
  destruct (first_value x e), (first_value x e'); try done. split; [by intros ->|by intros [= ->]].
Qed.

(** The checks of one unique index: no written key belongs to an entity that
    stays, and no two written entities share a key. *)
Lemma validateItems_iff x changed pending items :
  NoDup (w_id <$> items) -> (forall k id, pending !! k = Some id -> id ∉ w_id <$> items) ->
  validateItems x changed pending items = Ok tt <->
    Forall (fun it => forall existing, uniqueID x (work it) = Some existing -> existing = w_id it \/ existing ∈ changed) (written items) /\
    NoDup ((fun it => pendingKey x (work it)) <$> written items) /\
    Forall (fun it => pending !! pendingKey x (work it) = None) (written items).
Proof.
  revert pending. induction items as [|it items IH]; intros pending Hnd Hp.
  { cbn. split; [|done]. intros _. split_and!; constructor. }
  cbn in Hnd. apply NoDup_cons in Hnd as [Hit Hnd]. cbn [validateItems written List.filter].
  destruct (w_deleted it) eqn:Ed; cbn.
  { apply IH; [done|]. intros k id Hk Hin. apply (Hp k id Hk). by right. }
  rewrite validation_id. fold (written items). set (k := pendingKey x (work it)).
  assert (pending !! k <> Some (w_id it)) as Hk by (intros E; apply (Hp _ _ E); left).
  rewrite !Forall_cons, NoDup_cons.
  match goal with |- context [when ?c => _ ;; _] => destruct c eqn:Ec end.
  { split; [done|]. intros ([Ha _] & _). destruct (uniqueID x (work it)) as [existing|]; [|done].
    apply andb_true_iff in Ec as [E1 E2]. destruct (Ha _ eq_refl) as [->|Hin].
    - by rewrite Z.eqb_refl in E1. - by rewrite (bool_decide_true _ Hin) in E2. }
  assert (forall existing, uniqueID x (work it) = Some existing -> existing = w_id it \/ existing ∈ changed) as Ha.
  { intros existing E. rewrite E in Ec. destruct (Z.eqb_spec existing (w_id it)); [by left|right].
    by destruct (bool_decide_reflect (existing ∈ changed)). }
  destruct (pending !! k) as [existing|] eqn:Epk.
  { destruct (Z.eqb_spec existing (w_id it)) as [->|]; [done|]. cbn. split; [done|]. intros (_ & _ & E & _). change (pending !! k = None) in E. congruence. }
  cbn. rewrite IH; [|done|].
  2: { intros k' id'. rewrite lookup_insert_Some. intros [[<- <-]|[_ H]]; [done|].
    intros Hin. apply (Hp _ _ H). by right. }
  assert (Forall (fun it' => <[k:=w_id it]> pending !! pendingKey x (work it') = None) (written items) <->
    k ∉ (fun it => pendingKey x (work it)) <$> written items /\
    Forall (fun it => pending !! pendingKey x (work it) = None) (written items)) as ->.
  { rewrite !Forall_forall, list_elem_of_fmap. split.
    - intros H. split.
      + intros (it' & E & Hin). specialize (H it' Hin). rewrite <- E, lookup_insert_eq in H. done.
      + intros it' Hin. specialize (H it' Hin). by apply lookup_insert_None in H as [? _].
    - intros [H1 H2] it' Hin. apply lookup_insert_None. split; [by apply H2|]. intros E. apply H1. eauto. }
  naive_solver.
Qed.

Lemma validateItems_outcome x changed pending items :
  validateItems x changed pending items = Ok tt \/ validateItems x changed pending items = Fail ErrUniqueViolation.
Proof.
  revert pending. induction items as [|it items IH]; intros pending; cbn; [auto|].
  destruct (w_deleted it); [auto|]. repeat match goal with |- context [when ?c => _ ;; _] => destruct c end; auto.
Qed.

Lemma fold_outcome_unit {A} (f : A -> outcome unit) e (l : list A) :
  (forall a, a ∈ l -> f a = Ok tt \/ f a = Fail e) ->
  (fold_outcome (fun _ a => f a) tt l = Ok tt /\ Forall (fun a => f a = Ok tt) l) \/
  (fold_outcome (fun _ a => f a) tt l = Fail e /\ Exists (fun a => f a = Fail e) l).
Proof.
  induction l as [|a l IH]; intros H; [by left|]. cbn. destruct (H a ltac:(left)) as [E|E]; rewrite E; cbn.
  - destruct IH as [[? ?]|[? ?]]; [intros; apply H; by right|left|right]; split; auto.
  - right. split; auto.
Qed.

Lemma NoDup_fmap_iff {A B C} (f : A -> B) (g : A -> C) (l : list A) :
  (forall a b, a ∈ l -> b ∈ l -> f a = f b <-> g a = g b) -> NoDup (f <$> l) <-> NoDup (g <$> l).
Proof.
  induction l as [|a l IH]; intros H; [split; constructor|]. cbn. rewrite !NoDup_cons.
  rewrite IH by (intros; apply H; by right). rewrite !list_elem_of_fmap.
  assert ((exists y, f a = f y /\ y ∈ l) <-> (exists y, g a = g y /\ y ∈ l)) as ->; [|done].
  split; intros (y & E & Hy); exists y; (split; [|done]); apply (H a y); [left|by right|done|left|by right|done].
Qed.

(** ** A table and a commit *)

Section commit.
Context (GetId : goval -> Z) `{!MapOrder string}.
Implicit Types (res : gmap Z loc) (items : list pendingWrite) (secondary : gmap string secondaryIndex).

(** The live entities of a table: what [resById] points to. *)
Definition residents res : list loc := (map_to_list res).*2.

(** [resById] maps the id of each live entity to its cell, and every index
    describes the live entities. *)
Record table_ok (heap : gmap loc goval) res secondary : Prop := {
  resident_id : forall id l, res !! id = Some l -> GetId (deref heap l) = id /\ (0 < id)%Z;
  indexes_shape : map_Forall (fun _ x => spec_shape (spec x)) secondary;
  indexes_typed : map_Forall (fun _ x => Forall (fun l => entity_typed (spec x) (deref heap l)) (residents res)) secondary;
  indexes_ok : map_Forall (fun _ x => index_ok GetId heap (residents res) x) secondary;
}.

(** What a commit does to the table between [prepareIndexes] and
    [finishIndexes]: it writes, creates and deletes the entities of [items]
    and leaves the others alone. *)
Record writes_applied secondary items heap0 res0 heap1 res1 : Prop := {
  items_distinct : NoDup (w_id <$> items);
  items_typed : Forall (fun it => w_deleted it = false -> GetId (work it) = w_id it /\ (0 < w_id it)%Z /\
    map_Forall (fun _ x => entity_typed (spec x) (work it)) secondary) items;
  others_kept : forall id, id ∉ w_id <$> items -> res1 !! id = res0 !! id /\
    forall l, res0 !! id = Some l -> deref heap1 l = deref heap0 l;
  items_written : Forall (fun it => if w_deleted it then res1 !! w_id it = None else
    exists l, res1 !! w_id it = Some l /\ deref heap1 l = work it) items;
}.

Definition without (items : list pendingWrite) res : gmap Z loc := foldl (fun m it => delete (w_id it) m) res items.

Lemma lookup_without items res id :
  without items res !! id = if bool_decide (id ∈ w_id <$> items) then None else res !! id.
Proof.
  unfold without. revert res. induction items as [|it items IH]; intros res; [done|]. cbn. rewrite IH.
  destruct (bool_decide_reflect (id ∈ w_id <$> items)) as [H|H].
  - rewrite bool_decide_true; [done|by right].
  - destruct (decide (id = w_id it)) as [->|Hne].
    + rewrite lookup_delete_eq, bool_decide_true; [done|left].
    + rewrite lookup_delete_ne by done. rewrite bool_decide_false; [done|]. by rewrite not_elem_of_cons.
Qed.

(** The live entities are those of the items and the rest. *)
Lemma residents_split items res :
  NoDup (w_id <$> items) -> residents res ≡ₚ removed_items res items ++ residents (without items res).
Proof.
  unfold without, removed_items, residents. revert res.
  induction items as [|it items IH]; intros res Hnd; [done|]. cbn in Hnd. apply NoDup_cons in Hnd as [Hit Hnd].
  cbn. assert (omap (fun item => delete (w_id it) res !! w_id item) items = omap (fun item => res !! w_id item) items) as E.
  { clear IH Hnd. induction items as [|it' items IH]; [done|]. cbn in *. rewrite not_elem_of_cons in Hit. destruct Hit as [H1 H2].
    rewrite lookup_delete_ne by done. by rewrite IH. }
  specialize (IH (delete (w_id it) res) Hnd). cbn in IH. rewrite E in IH.
  destruct (res !! w_id it) as [l|] eqn:El.
  - rewrite <- (map_to_list_delete res (w_id it) l El). cbn. by rewrite IH.
  - rewrite delete_id in IH by done. by rewrite delete_id by done.
Qed.

Lemma without_eq secondary items heap0 res0 heap1 res1 :
  writes_applied secondary items heap0 res0 heap1 res1 -> without items res1 = without items res0.
Proof.
  intros [_ _ Hk _]. apply map_eq. intros id. rewrite !lookup_without.
  case_bool_decide as H; [done|]. by apply Hk.
Qed.

Lemma added_removed secondary items heap0 res0 heap1 res1 :
  writes_applied secondary items heap0 res0 heap1 res1 -> removed_items res1 items = added_items res1 items.
Proof.
  intros [_ _ _ Hw]. unfold removed_items, added_items. induction Hw as [|it items H Hw IH]; [done|]. cbn.
  destruct (w_deleted it); [by rewrite H|by rewrite IH].
Qed.

Lemma elem_of_residents res l : l ∈ residents res <-> exists id, res !! id = Some l.
Proof.
  unfold residents. rewrite list_elem_of_fmap. split.
  - intros ([id l'] & -> & H). apply elem_of_map_to_list in H. eauto.
  - intros [id H]. exists (id, l). split; [done|]. by apply elem_of_map_to_list.
Qed.

Lemma residents_live heap res s :
  (forall id l, res !! id = Some l -> GetId (deref heap l) = id /\ (0 < id)%Z) ->
  Forall (fun l => entity_typed s (deref heap l)) (residents res) -> live_ok GetId heap s (residents res).
Proof.
  intros Hid Ht. split; [done| |].
  - unfold residents. rewrite <- list_fmap_compose. pose proof (NoDup_fst_map_to_list res) as Hnd.
    assert ((fun l => GetId (deref heap l)) ∘ snd <$> map_to_list res = fst <$> map_to_list res) as ->; [|done].
    apply list_fmap_ext. intros i [id l] Hi. cbn. apply Hid. apply elem_of_map_to_list. by eapply list_elem_of_lookup_2.
  - apply Forall_forall. intros l Hl. apply elem_of_residents in Hl as [id H]. destruct (Hid _ _ H). lia.
Qed.

Lemma uniqueID_keys x e e' : key_values (spec x) e = key_values (spec x) e' -> uniqueID x e = uniqueID x e'.
Proof. intros E. unfold uniqueID, key, first_value. by rewrite E. Qed.

Lemma index_ok_heap heap0 heap1 live x :
  (forall l, l ∈ live -> deref heap1 l = deref heap0 l) -> index_ok GetId heap0 live x -> index_ok GetId heap1 live x.
Proof.
  intros H [[Hp Hs] Hl]. split; [split; [done|]|].
  - eapply sorted_ext; [|exact Hs]. intros a b Ha Hb. rewrite Hp in Ha, Hb. unfold compare_at. by rewrite !H.
  - intros Hu. destruct (Hl Hu) as [Hf Ho]. split.
    + intros l Hin. rewrite H by done. by apply Hf.
    + intros e id He Hx. destruct (Ho e id He Hx) as (l & Hin & Hid). exists l. by rewrite H.
Qed.

(** What [writes_applied] gives, for a table in order. *)
Section applied.
Context secondary items heap0 res0 heap1 res1
  (Htab : table_ok heap0 res0 secondary) (Hw : writes_applied secondary items heap0 res0 heap1 res1).
Notation kept := (residents (without items res0)).

Lemma kept_resident l : l ∈ kept <-> exists id, id ∉ w_id <$> items /\ res0 !! id = Some l.
Proof.
  rewrite elem_of_residents. setoid_rewrite lookup_without. split.
  - intros [id H]. case_bool_decide; [done|]. eauto.
  - intros (id & Hin & H). exists id. by rewrite bool_decide_false.
Qed.

Lemma kept_same l : l ∈ kept -> deref heap1 l = deref heap0 l.
Proof. intros (id & Hin & H)%kept_resident. by apply (others_kept _ _ _ _ _ _ Hw id Hin). Qed.

Lemma resident_id_after id l : res1 !! id = Some l -> GetId (deref heap1 l) = id /\ (0 < id)%Z.
Proof.
  intros H. destruct (decide (id ∈ w_id <$> items)) as [Hin|Hin].
  - apply list_elem_of_fmap in Hin as (it & -> & Hin).
    pose proof (items_written _ _ _ _ _ _ Hw) as H1. rewrite Forall_forall in H1. specialize (H1 it Hin).
    pose proof (items_typed _ _ _ _ _ _ Hw) as H2. rewrite Forall_forall in H2. specialize (H2 it Hin).
    destruct (w_deleted it); [congruence|]. destruct H1 as (l' & El & E). destruct (H2 eq_refl) as (? & ? & _).
    assert (l = l') as -> by congruence. by rewrite E.
  - destruct (others_kept _ _ _ _ _ _ Hw id Hin) as [E Hd]. rewrite E in H. rewrite (Hd l H).
    by apply (resident_id _ _ _ Htab).
Qed.

Lemma residents_before : residents res0 ≡ₚ removed_items res0 items ++ kept.
Proof. apply residents_split. apply Hw. Qed.
Lemma residents_after : residents res1 ≡ₚ added_items res1 items ++ kept.
Proof.
  rewrite <- (added_removed _ _ _ _ _ _ Hw), <- (without_eq _ _ _ _ _ _ Hw). apply residents_split. apply Hw.
Qed.

Lemma added_values {B} (f : goval -> B) :
  (fun l => f (deref heap1 l)) <$> added_items res1 items = (fun it => f (work it)) <$> written items.
Proof.
  pose proof (items_written _ _ _ _ _ _ Hw) as H. unfold added_items, written.
  clear Hw. induction H as [|it items' H _ IH]; [done|]. cbn. destruct (w_deleted it); cbn; [done|].
  destruct H as (l & -> & E). cbn. rewrite E. by f_equal.
Qed.

Lemma written_typed it name x :
  it ∈ written items -> secondary !! name = Some x -> entity_typed (spec x) (work it).
Proof.
  intros Hin Hx. apply list_elem_of_In, filter_In in Hin as [Hin Hd]. apply list_elem_of_In in Hin.
  pose proof (items_typed _ _ _ _ _ _ Hw) as H. rewrite Forall_forall in H. destruct (H it Hin) as (_ & _ & Ht).
  - by destruct (w_deleted it).
  - by apply (Ht name x).
Qed.

Lemma typed_after name x :
  secondary !! name = Some x -> Forall (fun l => entity_typed (spec x) (deref heap1 l)) (residents res1).
Proof.
  intros Hx. rewrite residents_after. apply Forall_app. split.
  - apply Forall_forall. intros l Hl.
    assert (deref heap1 l ∈ (fun it => work it) <$> written items) as Hin.
    { rewrite <- (added_values (fun e => e)). apply list_elem_of_fmap. eauto. }
    apply list_elem_of_fmap in Hin as (it & -> & Hin). by eapply written_typed.
  - pose proof (indexes_typed _ _ _ Htab name x Hx) as H. cbn in H. rewrite residents_before in H.
    apply Forall_app in H as [_ H]. rewrite Forall_forall in *. intros l Hl. rewrite kept_same by done. auto.
Qed.

Lemma live_before name x : secondary !! name = Some x -> live_ok GetId heap0 (spec x) (residents res0).
Proof. intros Hx. apply residents_live; [apply Htab|by apply (indexes_typed _ _ _ Htab name)]. Qed.
Lemma live_after name x : secondary !! name = Some x -> live_ok GetId heap1 (spec x) (residents res1).
Proof. intros Hx. apply residents_live; [apply resident_id_after|by eapply typed_after]. Qed.

Lemma written_taken_iff name x :
  secondary !! name = Some x -> si_unique (spec x) = true ->
  Forall (fun it => forall existing, uniqueID x (work it) = Some existing ->
    existing = w_id it \/ existing ∈ (list_to_set (w_id <$> items) : gset Z)) (written items) <->
  forall k, k ∈ (fun it => key_values (spec x) (work it)) <$> written items ->
    k ∉ (fun l => key_values (spec x) (deref heap1 l)) <$> kept.
Proof.
  intros Hx Hu. destruct (indexes_ok _ _ _ Htab name x Hx) as [_ Hl]. destruct (Hl Hu) as [Hf Ho].
  rewrite Forall_forall. setoid_rewrite elem_of_list_to_set. split.
  - intros H k (it & -> & Hin)%list_elem_of_fmap (l & E & Hk)%list_elem_of_fmap.
    rewrite kept_same in E by done. apply kept_resident in Hk as (id & Hid & Hres).
    pose proof (uniqueID_keys x _ _ E) as Eu.
    specialize (H it Hin id). rewrite Eu in H. destruct (resident_id _ _ _ Htab id l Hres) as [Eid _].
    rewrite (Hf l) in H by (apply elem_of_residents; eauto). rewrite Eid in H.
    apply Hid. destruct (H eq_refl) as [->|?]; [|done].
    apply list_elem_of_fmap. exists it. split; [done|]. apply list_elem_of_In, filter_In in Hin as [Hin _]. by apply list_elem_of_In.
  - intros H it Hin existing E. destruct (Ho _ _ (written_typed it name x Hin Hx) E) as (l & Hin' & Eid & Ek).
    destruct (decide (existing ∈ w_id <$> items)); [by right|]. exfalso.
    apply (H (key_values (spec x) (work it))); [apply list_elem_of_fmap; eauto|].
    apply elem_of_residents in Hin' as [id Hres]. destruct (resident_id _ _ _ Htab id l Hres) as [Eid' _].
    assert (l ∈ kept) as Hk by (apply kept_resident; exists id; split; congruence).
    apply list_elem_of_fmap. exists l. split; [|done]. rewrite kept_same by done. congruence.
Qed.

(** The checks on one index accept exactly the commits after which its keys
    are unique. *)
Lemma validate_one name x :
  secondary !! name = Some x -> si_unique (spec x) = true ->
  validateItems x (list_to_set (w_id <$> items)) ∅ items = Ok tt <->
  unique_keys heap1 (spec x) (residents res1).
Proof.
  intros Hx Hu. rewrite validateItems_iff; [|apply Hw|by intros ? ? ?%lookup_empty_Some].
  rewrite (written_taken_iff name x Hx Hu).
  rewrite (NoDup_fmap_iff (fun it => pendingKey x (work it)) (fun it => key_values (spec x) (work it))).
  2: { intros a b Ha Hb. apply pendingKey_inj; [by apply (indexes_shape _ _ _ Htab name)|by eapply written_typed..]. }
  assert (unique_keys heap1 (spec x) (residents res1) <->
    NoDup ((fun l => key_values (spec x) (deref heap1 l)) <$> added_items res1 items ++ kept)) as ->.
  { rewrite <- residents_after. unfold unique_keys. split; auto. }
  rewrite fmap_app, (added_values (key_values (spec x))), NoDup_app.
  assert (NoDup ((fun l => key_values (spec x) (deref heap1 l)) <$> kept)) as Hk.
  { pose proof (live_before name x Hx) as Hlive. destruct (indexes_ok _ _ _ Htab name x Hx) as [_ Hl].
    pose proof (lookups_ok_unique _ _ _ _ Hlive (Hl Hu)) as H.
    apply (unique_keys_perm _ _ _ _ residents_before), unique_keys_app in H. specialize (H Hu).
    erewrite list_fmap_ext; [exact H|]. intros i l Hi. cbn. rewrite kept_same; [done|]. by eapply list_elem_of_lookup_2. }
  assert (Forall (fun it => (∅ : gmap string Z) !! pendingKey x (work it) = None) (written items)) as He
    by (apply Forall_forall; intros; apply lookup_empty).
  naive_solver.
Qed.
End applied.

(** ** The operations act on each index on its own *)

Lemma fold_items {I} (pick : I -> option loc) (f : loc -> secondaryIndex -> secondaryIndex) (its : list I)
    (secondary : gmap string secondaryIndex) :
  foldl (fun sec it => match pick it with Some l => f l <$> sec | None => sec end) secondary its =
  (fun x => foldl (fun x l => f l x) x (omap pick its)) <$> secondary.
Proof.
  revert secondary. induction its as [|it its IH]; intros secondary; cbn; [by rewrite map_fmap_id|].
  rewrite IH. destruct (pick it); [|done]. by rewrite <- map_fmap_compose.
Qed.

Lemma fold_locs (f : loc -> secondaryIndex -> secondaryIndex) (ls : list loc) (secondary : gmap string secondaryIndex) :
  foldl (fun sec l => f l <$> sec) secondary ls = (fun x => foldl (fun x l => f l x) x ls) <$> secondary.
Proof.
  revert secondary. induction ls as [|l ls IH]; intros secondary; cbn; [by rewrite map_fmap_id|].
  by rewrite IH, <- map_fmap_compose.
Qed.

Lemma foldl_ext_fun {A B} (f g : A -> B -> A) (l : list B) a :
  (forall a b, f a b = g a b) -> foldl f a l = foldl g a l.
Proof. intros H. revert a. induction l as [|b l IH]; intros a; [done|]. cbn. by rewrite H. Qed.

(** [prepareIndexes] on one index. *)
Definition prepare_one heap res items (x : secondaryIndex) : secondaryIndex :=
  let removed := removed_items res items in
  if (secondaryIndexBatchThreshold <=? zlen items)%Z then
    if (zlen removed =? 0)%Z then x else
    let changed : gset Z := list_to_set (omap (fun item => if res !! w_id item is Some _ then Some (w_id item) else None) items) in
    let x' := foldl (fun x l => removeLookup heap l x) x removed in
    with_entries x' (List.filter (fun l => negb (bool_decide (GetId (deref heap l) ∈ changed))) (entries x'))
  else foldl (fun x l => remove_one GetId heap l x) x removed.

Lemma prepareIndexes_one heap res items secondary :
  prepareIndexes GetId heap res items secondary = prepare_one heap res items <$> secondary.
Proof.
  unfold prepareIndexes, prepareIndexBatch, prepare_one. destruct (secondaryIndexBatchThreshold <=? zlen items)%Z.
  - destruct (zlen (removed_items res items) =? 0)%Z; [by rewrite map_fmap_id|].
    unfold removeSecondaryIndexLookups. by rewrite fold_locs, <- map_fmap_compose.
  - unfold removed_items. rewrite <- fold_items. apply foldl_ext_fun. intros sec it.
    destruct (res !! w_id it); [|done]. unfold removeSecondaryIndices, removeSecondaryIndexLookups.
    by rewrite <- map_fmap_compose.
Qed.

Lemma prepare_one_spec heap res items x : spec (prepare_one heap res items x) = spec x.
Proof.
  unfold prepare_one. destruct (secondaryIndexBatchThreshold <=? zlen items)%Z.
  - destruct (zlen (removed_items res items) =? 0)%Z; [done|]. cbn. apply foldl_spec. intros. apply spec_removeLookup.
  - apply foldl_spec. intros. apply spec_remove_one.
Qed.

(** [finishIndexes] on one index. *)
Definition finish_one heap res items (x : secondaryIndex) : secondaryIndex :=
  let added := added_items res items in
  if (secondaryIndexBatchThreshold <=? zlen items)%Z then
    with_entries (foldl (fun x l => addLookup GetId heap l x) x added)
      (mergeSecondaryIndexEntries (compare_at GetId heap (spec x)) (entries x)
         (SortFunc (compare_at GetId heap (spec x)) added))
  else foldl (fun x l => add_one GetId heap l x) x added.

Lemma finishIndexes_one heap res items secondary :
  finishIndexes GetId heap res items secondary = finish_one heap res items <$> secondary.
Proof.
  unfold finishIndexes, finishIndexBatch, finish_one. destruct (secondaryIndexBatchThreshold <=? zlen items)%Z.
  - unfold addSecondaryIndexLookups. rewrite fold_locs. apply map_eq. intros name.
    rewrite map_lookup_imap, !lookup_fmap. by destruct (secondary !! name).
  - unfold added_items.
    rewrite <- (fold_items (fun it => if w_deleted it then None else res !! w_id it) (fun l x => add_one GetId heap l x)).
    apply foldl_ext_fun. intros sec it. destruct (w_deleted it); [done|].
    destruct (res !! w_id it); [|done]. unfold addSecondaryIndices, addSecondaryIndexLookups.
    by rewrite <- map_fmap_compose.
Qed.

Lemma finish_one_spec heap res items x : spec (finish_one heap res items x) = spec x.
Proof.
  unfold finish_one. destruct (secondaryIndexBatchThreshold <=? zlen items)%Z.
  - cbn. apply foldl_spec. intros. apply spec_addLookup.
  - apply foldl_spec. intros. apply spec_add_one.
Qed.

Lemma prepare_one_ok heap res items x :
  NoDup (w_id <$> items) -> spec_shape (spec x) ->
  (forall id l, res !! id = Some l -> GetId (deref heap l) = id /\ (0 < id)%Z) ->
  live_ok GetId heap (spec x) (residents res) -> index_ok GetId heap (residents res) x ->
  index_ok GetId heap (residents (without items res)) (prepare_one heap res items x).
Proof.
  intros Hnd Hs Hid Hlive Hok. pose proof (residents_split items res Hnd) as Hsplit.
  apply (index_ok_perm _ _ _ _ _ Hsplit) in Hok. apply (live_ok_perm _ _ _ _ _ Hsplit) in Hlive.
  unfold prepare_one. destruct (secondaryIndexBatchThreshold <=? zlen items)%Z; [|by apply remove_all_ok].
  destruct (Z.eqb_spec (zlen (removed_items res items)) 0) as [E|_].
  { destruct (removed_items res items); [done|]. unfold zlen in E. cbn in E. lia. }
  apply remove_batch_ok; [done..| |].
  - intros l (it & Hin & Hl)%list_elem_of_omap. destruct (Hid _ _ Hl) as [-> _].
    apply elem_of_list_to_set, list_elem_of_omap. exists it. by rewrite Hl.
  - intros l (id & Hl)%elem_of_residents. rewrite lookup_without in Hl. case_bool_decide as Hin; [done|].
    destruct (Hid _ _ Hl) as [-> _]. rewrite elem_of_list_to_set, list_elem_of_omap. intros (it & Hit & E).
    apply Hin. destruct (res !! w_id it); [|done]. injection E as <-. apply list_elem_of_fmap. eauto.
Qed.

Lemma finish_one_ok heap res items kept x :
  spec_shape (spec x) -> live_ok GetId heap (spec x) (added_items res items ++ kept) ->
  unique_keys heap (spec x) (added_items res items ++ kept) ->
  index_ok GetId heap kept x -> index_ok GetId heap (added_items res items ++ kept) (finish_one heap res items x).
Proof.
  intros. unfold finish_one. destruct (secondaryIndexBatchThreshold <=? zlen items)%Z.
  - by apply add_batch_ok. - by apply add_all_ok.
Qed.

(** ** Rebuilding *)

Lemma rebuildKeys_spec heap live x es :
  spec_shape (spec x) -> si_unique (spec x) = true -> live_ok GetId heap (spec x) (es ++ live) ->
  unique_keys heap (spec x) live -> lookups_ok GetId heap live x ->
  (unique_keys heap (spec x) (es ++ live) /\
   exists x', rebuildKeys GetId heap x es = Ok x' /\ spec x' = spec x /\ entries x' = entries x /\ lookups_ok GetId heap (es ++ live) x') \/
  (~ unique_keys heap (spec x) (es ++ live) /\ rebuildKeys GetId heap x es = Fail ErrUniqueViolation).
Proof.
  revert x live. induction es as [|l es IH]; intros x live Hs Hu Hlive Hk Hok.
  { left. split; [done|]. exists x. done. }
  assert ((l :: es) ++ live ≡ₚ es ++ l :: live) as Hp by apply Permutation_middle.
  pose proof (live_ok_perm _ _ _ _ _ Hp Hlive) as Hlive'. pose proof (proj2 (live_ok_app _ _ _ _ _ Hlive')) as Hl.
  destruct (live_ok_elem _ _ _ _ l Hl ltac:(left)) as [Ht _]. cbn [rebuildKeys].
  assert (rebuildKeys GetId heap (setUnique x (deref heap l) (GetId (deref heap l))) es =
    rebuildKeys GetId heap (addLookup GetId heap l x) es) as Eadd by (unfold addLookup; by rewrite Hu).
  rewrite Eadd. destruct (uniqueID x (deref heap l)) as [existing|] eqn:Eu.
  - destruct (ok_only _ _ _ _ Hok _ _ Ht Eu) as (l' & Hin & Hid & Ek).
    destruct Hl as [_ Hids _]. cbn in Hids. apply NoDup_cons in Hids as [Hids _].
    destruct (Z.eqb_spec existing (GetId (deref heap l))) as [E|_].
    { exfalso. apply Hids. apply list_elem_of_fmap. exists l'. split; [congruence|done]. }
    right. split; [|done]. intros H. specialize (H Hu). rewrite Hp, fmap_app in H.
    apply NoDup_app in H as (_ & _ & H). cbn in H. apply NoDup_cons in H as [H _].
    apply H. apply list_elem_of_fmap. eauto.
  - assert (unique_keys heap (spec x) (l :: live)) as Hk'.
    { intros _. cbn. apply NoDup_cons. split; [|by apply Hk]. intros (l' & E & Hin)%list_elem_of_fmap.
      rewrite (uniqueID_keys x _ _ E), (ok_found _ _ _ _ Hok l' Hin) in Eu. done. }
    destruct (IH (addLookup GetId heap l x) (l :: live)) as [(H1 & x' & H2 & H3 & H4 & H5)|(H1 & H2)];
      rewrite ?spec_addLookup in *; try done.
    + by apply addLookup_ok.
    + left. split; [by eapply unique_keys_perm; [symmetry|]|]. exists x'. split_and!; [done|done| |].
      * by rewrite entries_addLookup in H4.
      * by eapply lookups_ok_perm; [symmetry|].
    + right. split; [|done]. intros H. apply H1. by eapply unique_keys_perm.
Qed.

Lemma rebuildIndex_spec heap live current :
  spec_shape (spec current) -> live_ok GetId heap (spec current) live ->
  (unique_keys heap (spec current) live /\
   exists x, rebuildIndex GetId heap live current = Ok x /\ spec x = spec current /\ index_ok GetId heap live x) \/
  (~ unique_keys heap (spec current) live /\ rebuildIndex GetId heap live current = Fail ErrUniqueViolation).
Proof.
  intros Hs Hlive. unfold rebuildIndex. set (s := spec current) in *.
  set (es := SortFunc (compare_at GetId heap s) live).
  assert (es ≡ₚ live) as Hp by apply SortFunc_perm.
  assert (forall x, spec x = s -> entries x = es -> entries_ok GetId heap live x) as He.
  { intros x E1 E2. split; rewrite ?E1, E2; [done|]. apply SortFunc_sorted. apply _. }
  cbn [spec with_entries newSecondaryIndex entries]. destruct (si_unique s) eqn:Hu.
  - destruct (rebuildKeys_spec heap [] (with_entries (newSecondaryIndex s) es) es) as [(H1 & x & H2 & H3 & H4 & H5)|(H1 & H2)];
      try rewrite app_nil_r in *; try done.
    + by eapply live_ok_perm; [symmetry|].
    + intros _. constructor.
    + split; [by intros l Hl%elem_of_nil|]. cbn. intros e id Ht E. rewrite uniqueID_with_entries, uniqueID_new in E by done. done.
    + left. split; [by eapply unique_keys_perm|]. exists x. split_and!; [done|done|]. split; [by apply He|].
      intros _. by eapply lookups_ok_perm.
    + right. split; [|done]. intros H. apply H1. eapply unique_keys_perm; [|exact H]. done.
  - left. split; [by intros E; rewrite Hu in E|]. eexists. split_and!; [done|done|]. split; [by apply He|].
    cbn. by rewrite Hu.
Qed.

(** Two indexes in order over the same table agree. *)
Lemma index_ok_canonical heap live x y :
  spec x = spec y -> live_ok GetId heap (spec x) live -> index_ok GetId heap live x -> index_ok GetId heap live y ->
  entries x = entries y /\
  (si_unique (spec x) = true -> forall e, entity_typed (spec x) e -> uniqueID x e = uniqueID y e).
Proof.
  intros E Hlive [[Hp Hs] Hl] [[Hp' Hs'] Hl']. rewrite <- E in *. split.
  - apply (sorted_unique (compare_at GetId heap (spec x))); [|done|done|by rewrite Hp, Hp'].
    intros a b Ha Hb H. rewrite Hp in Ha, Hb. eapply live_ok_id_inj; eauto. by apply compare_zero in H.
  - intros Hu e He. destruct (Hl Hu) as [Hf Ho], (Hl' Hu) as [Hf' Ho']. rewrite <- E in *.
    destruct (uniqueID x e) as [id|] eqn:E1.
    + destruct (Ho e id He E1) as (l & Hin & <- & Ek). rewrite <- (uniqueID_keys y _ _ ltac:(rewrite <- E; exact Ek)).
      by rewrite Hf'.
    + destruct (uniqueID y e) as [id|] eqn:E2; [|done].
      destruct (Ho' e id He E2) as (l & Hin & <- & Ek). rewrite <- (uniqueID_keys x _ _ Ek), Hf in E1 by done. done.
Qed.

Lemma validateIndexes_cases secondary items heap0 res0 heap1 res1 :
  table_ok heap0 res0 secondary -> writes_applied secondary items heap0 res0 heap1 res1 ->
  (validateIndexes secondary items = Ok tt /\ map_Forall (fun _ x => unique_keys heap1 (spec x) (residents res1)) secondary) \/
  (validateIndexes secondary items = Fail ErrUniqueViolation /\
   exists name x, secondary !! name = Some x /\ ~ unique_keys heap1 (spec x) (residents res1)).
Proof.
  intros Htab Hw.
  set (f := fun p : string * secondaryIndex => if si_unique (spec p.2) then validateItems p.2 (list_to_set (w_id <$> items)) ∅ items else Ok tt).
  assert (forall p, p ∈ map_range secondary -> f p = Ok tt <-> unique_keys heap1 (spec p.2) (residents res1)) as Hf.
  { intros [name x] Hin%map_range_elem. unfold f. cbn. destruct (si_unique (spec x)) eqn:Hu.
    - by eapply validate_one.
    - split; [|done]. intros _ H. congruence. }
  assert (validateIndexes secondary items = fold_outcome (fun _ p => f p) tt (map_range secondary)) as -> by done.
  destruct (fold_outcome_unit f ErrUniqueViolation (map_range secondary)) as [[-> H]|[-> H]].
  - intros p _. unfold f. destruct (si_unique (spec p.2)); [apply validateItems_outcome|auto].
  - left. split; [done|]. intros name x Hx. rewrite Forall_forall in H. apply map_range_elem in Hx.
    apply (Hf (name, x) Hx). by apply (H (name, x)).
  - right. split; [done|]. apply Exists_exists in H as ([name x] & Hin & E). exists name, x.
    split; [by apply map_range_elem|]. intros Hk. apply (Hf (name, x) Hin) in Hk. congruence.
Qed.

(** [finishIndexes] on indexes that describe what the commit leaves alone. *)
Lemma finish_table_ok secondary items heap0 res0 heap1 res1 (mid : gmap string secondaryIndex) :
  table_ok heap0 res0 secondary -> writes_applied secondary items heap0 res0 heap1 res1 ->
  validateIndexes secondary items = Ok tt ->
  (forall name y, mid !! name = Some y -> exists x, secondary !! name = Some x /\ spec y = spec x /\
    index_ok GetId heap1 (residents (without items res0)) y) ->
  table_ok heap1 res1 (finishIndexes GetId heap1 res1 items mid).
Proof.
  intros Htab Hw Hv Hmid. destruct (validateIndexes_cases _ _ _ _ _ _ Htab Hw) as [[_ Huniq]|[E _]]; [|congruence].
  rewrite finishIndexes_one.
  assert (forall (P : secondaryIndex -> Prop),
    (forall name x y, secondary !! name = Some x -> spec y = spec x -> index_ok GetId heap1 (residents (without items res0)) y ->
      P (finish_one heap1 res1 items y)) ->
    map_Forall (fun _ x => P x) (finish_one heap1 res1 items <$> mid)) as Hlift.
  { intros P HP name z Hz. rewrite lookup_fmap in Hz. apply fmap_Some in Hz as (y & Hy & ->).
    destruct (Hmid name y Hy) as (x & Hx & Es & Hok). by eapply HP. }
  split.
  - by eapply resident_id_after.
  - apply (Hlift (fun x => spec_shape (spec x))). intros name x y Hx Es _. rewrite finish_one_spec, Es.
    by apply (indexes_shape _ _ _ Htab name).
  - apply (Hlift (fun x => Forall (fun l => entity_typed (spec x) (deref heap1 l)) (residents res1))).
    intros name x y Hx Es _. rewrite finish_one_spec, Es. by eapply typed_after.
  - apply Hlift. intros name x y Hx Es Hok. pose proof (residents_after _ _ _ _ _ _ Hw) as Hra.
    eapply index_ok_perm; [symmetry; exact Hra|].
    apply finish_one_ok; rewrite ?Es; [| | |done].
    + by apply (indexes_shape _ _ _ Htab name).
    + eapply live_ok_perm; [exact Hra|]. by eapply live_after.
    + eapply unique_keys_perm; [exact Hra|]. by apply (Huniq name).
Qed.

(** What [prepareIndexes] leaves, in the heap after the writes. *)
Lemma prepare_kept secondary items heap0 res0 heap1 res1 name y :
  table_ok heap0 res0 secondary -> writes_applied secondary items heap0 res0 heap1 res1 ->
  prepareIndexes GetId heap0 res0 items secondary !! name = Some y ->
  exists x, secondary !! name = Some x /\ spec y = spec x /\ index_ok GetId heap1 (residents (without items res0)) y.
Proof.
  intros Htab Hw. rewrite prepareIndexes_one, lookup_fmap. intros (x & Hx & ->)%fmap_Some. exists x. rewrite prepare_one_spec.
  split_and!; [done..|]. eapply index_ok_heap; [intros l Hl; by eapply kept_same|].
  apply prepare_one_ok; [apply Hw|by apply (indexes_shape _ _ _ Htab name)|apply Htab| |by apply (indexes_ok _ _ _ Htab name)].
  by eapply live_before.
Qed.

Lemma commit_table_ok secondary items heap0 res0 heap1 res1 :
  table_ok heap0 res0 secondary -> writes_applied secondary items heap0 res0 heap1 res1 ->
  validateIndexes secondary items = Ok tt ->
  table_ok heap1 res1 (finishIndexes GetId heap1 res1 items (prepareIndexes GetId heap0 res0 items secondary)).
Proof. intros. eapply finish_table_ok; [done..|]. intros name y Hy. by eapply prepare_kept. Qed.

Lemma rebuild_fold heap live (l : list (string * secondaryIndex)) (out : gmap string secondaryIndex) :
  NoDup l.*1 -> (forall p, p ∈ l -> spec_shape (spec p.2) /\ live_ok GetId heap (spec p.2) live) ->
  Forall (fun p => unique_keys heap (spec p.2) live) l ->
  exists out', fold_outcome (fun out p => x ← rebuildIndex GetId heap live p.2; Ok (<[p.1 := x]> out)) out l = Ok out' /\
    (forall name, name ∉ l.*1 -> out' !! name = out !! name) /\
    (forall name x, (name, x) ∈ l -> exists y, out' !! name = Some y /\ spec y = spec x /\ index_ok GetId heap live y).
Proof.
  revert out. induction l as [|[name x] l IH]; intros out Hnd Hok Hu.
  { exists out. split_and!; [done|done|]. by intros ? ? ?%elem_of_nil. }
  cbn in Hnd. apply NoDup_cons in Hnd as [Hname Hnd]. apply Forall_cons in Hu as [Hx Hu].
  destruct (Hok (name, x) ltac:(left)) as [Hs Hlive]. cbn [fold_outcome fst snd] in *.
  destruct (rebuildIndex_spec heap live x Hs Hlive) as [(_ & y & Ey & Es & Hy)|[Hn _]]; [|done].
  rewrite Ey. cbn. destruct (IH (<[name := y]> out) Hnd) as (out' & E & Hout & Hin); [intros; apply Hok; by right|done|].
  exists out'. split_and!; [done| |].
  - intros n Hn. cbn in Hn. rewrite not_elem_of_cons in Hn. destruct Hn as [Hn1 Hn2].
    rewrite Hout by done. by rewrite lookup_insert_ne.
  - intros n z [[= -> ->]|Hz]%elem_of_cons; [|by apply Hin].
    exists y. rewrite Hout by done. by rewrite lookup_insert_eq.
Qed.
End commit.

(** ** Range queries *)

(** Two searches with a weaker and a stronger test cut out the elements that
    pass the first and fail the second. *)
Lemma cut_between {A} (f g : A -> bool) (l : list A) :
  (forall i j a b, l !! i = Some a -> l !! j = Some b -> i <= j -> f a = true -> f b = true) ->
  (forall i j a b, l !! i = Some a -> l !! j = Some b -> i <= j -> g a = true -> g b = true) ->
  (forall a, a ∈ l -> g a = true -> f a = true) ->
  let at_pos t pos := match l !! pos with Some a => t a | None => true end in
  let lo := sort_search (length l) (at_pos f) in let hi := sort_search (length l) (at_pos g) in
  lo <= hi <= length l /\ take (hi - lo) (drop lo l) = List.filter (fun a => f a && negb (g a)) l.
Proof.
  intros Hf Hg Hgf at_pos lo hi.
  assert (forall t, (forall i j a b, l !! i = Some a -> l !! j = Some b -> i <= j -> t a = true -> t b = true) ->
    forall a b, a <= b < length l -> at_pos t a = true -> at_pos t b = true) as Hmono.
  { intros t Ht a b [Hab Hb]. unfold at_pos.
    destruct (lookup_lt_is_Some_2 l b Hb) as [y Ey], (lookup_lt_is_Some_2 l a ltac:(lia)) as [x Ex].
    rewrite Ex, Ey. by eapply Ht. }
  destruct (sort_search_spec (at_pos f) (length l) (Hmono f Hf)) as (F1 & F2 & F3).
  destruct (sort_search_spec (at_pos g) (length l) (Hmono g Hg)) as (G1 & G2 & G3). fold lo hi in F1, F2, F3, G1, G2, G3.
  assert (lo <= hi) as Hle.
  { destruct (decide (lo <= hi)) as [|Hn]; [done|]. exfalso. destruct (lookup_lt_is_Some_2 l hi ltac:(lia)) as [x Ex].
    specialize (F2 hi ltac:(lia)). specialize (G3 hi ltac:(lia)). unfold at_pos in F2, G3. rewrite Ex in F2, G3.
    rewrite (Hgf x) in F2; [done| |done]. by eapply list_elem_of_lookup_2. }
  split; [lia|].
  rewrite <- (take_drop lo l) at 2. rewrite <- (take_drop (hi - lo) (drop lo l)) at 2. rewrite drop_drop, !List.filter_app.
  assert (forall t (k : list A), (forall a, a ∈ k -> t a = true) -> List.filter t k = k) as Hall.
  { induction k as [|a k IH]; intros H; [done|]. cbn. rewrite H by left. f_equal. apply IH. intros. apply H. by right. }
  assert (forall t (k : list A), (forall a, a ∈ k -> t a = false) -> List.filter t k = []) as Hnone.
  { induction k as [|a k IH]; intros H; [done|]. cbn. rewrite H by left. apply IH. intros. apply H. by right. }
  rewrite (Hnone _ (take lo l)), (Hall _ (take (hi - lo) (drop lo l))), (Hnone _ (drop (lo + (hi - lo)) l)).
  - by rewrite app_nil_r.
  - intros a (i & Hi)%list_elem_of_lookup. rewrite lookup_drop in Hi. pose proof (lookup_lt_Some _ _ _ Hi).
    specialize (G3 (lo + (hi - lo) + i) ltac:(lia)). unfold at_pos in G3. rewrite Hi in G3. rewrite G3. apply andb_false_r.
  - intros a (i & Hi)%list_elem_of_lookup. apply lookup_take_Some in Hi as [Hi Hlt]. rewrite lookup_drop in Hi.
    pose proof (lookup_lt_Some _ _ _ Hi). specialize (F3 (lo + i) ltac:(lia)). specialize (G2 (lo + i) ltac:(lia)).
    unfold at_pos in F3, G2. rewrite Hi in F3, G2. by rewrite F3, G2.
  - intros a (i & Hi)%list_elem_of_lookup. apply lookup_take_Some in Hi as [Hi Hlt].
    specialize (F2 i Hlt). unfold at_pos in F2. rewrite Hi in F2. by rewrite F2.
Qed.

(** Rows in index order are in order against a prefix, and those that match
    it are in order of the next field. *)
Lemma prefix_monotone fs values a b :
  (compareFields fs a b <= 0)%Z ->
  ((0 <= comparePrefix fs a values)%Z -> (0 <= comparePrefix fs b values)%Z) /\
  ((0 < comparePrefix fs a values)%Z -> (0 < comparePrefix fs b values)%Z) /\
  (comparePrefix fs a values = 0%Z -> comparePrefix fs b values = 0%Z ->
   forall f, fs !! length values = Some f ->
   (compareIndexValues (field_value a (sf_index f)) (field_value b (sf_index f)) <= 0)%Z).
Proof.
  revert values. induction fs as [|f fs IH]; intros [|v values]; cbn [compareFields comparePrefix]; intros Hle.
  1,2: split_and!; intros; done || lia.
  - split_and!; [done|lia|]. cbn. intros _ _ f' [= <-]. destruct (Z.eqb_spec (compareIndexValues (field_value a (sf_index f)) (field_value b (sf_index f))) 0); lia.
  - set (va := field_value a (sf_index f)) in *. set (vb := field_value b (sf_index f)) in *. cbn [length lookup list_lookup].
    pose proof (order_flip (cmp := compareIndexValues) vb va). pose proof (order_flip (cmp := compareIndexValues) v va).
    pose proof (order_flip (cmp := compareIndexValues) v vb).
    pose proof (order_flip (cmp := compareIndexValues) va vb). pose proof (order_flip (cmp := compareIndexValues) va v).
    pose proof (order_flip (cmp := compareIndexValues) vb v). pose proof (order_trans (cmp := compareIndexValues) va vb v).
    pose proof (order_trans (cmp := compareIndexValues) vb va v). pose proof (order_trans (cmp := compareIndexValues) v va vb).
    pose proof (order_trans (cmp := compareIndexValues) v vb va). pose proof (order_trans (cmp := compareIndexValues) va v vb).
    pose proof (order_trans (cmp := compareIndexValues) vb v va).
    destruct (Z.eqb_spec (compareIndexValues va vb) 0) as [E|E].
    + destruct (IH values Hle) as (I1 & I2 & I3).
      destruct (Z.eqb_spec (compareIndexValues va v) 0), (Z.eqb_spec (compareIndexValues vb v) 0); try lia.
      * split_and!; auto.
    + destruct (Z.eqb_spec (compareIndexValues va v) 0), (Z.eqb_spec (compareIndexValues vb v) 0); split_and!; intros; lia.
Qed.

(** A query's values: one of the declared type for each leading field. *)
Definition raw_ok (raw : option (gotype * goval)) : Prop :=
  match raw with Some (t, v) => value_ok t v = true | None => True end.
Definition fits (raw : option (gotype * goval)) (f : secondaryIndexField) : Prop := exists v, raw = Some (sf_typ f, v).
Definition prefix_fits (s : secondaryIndexSpec) (prefix : list (option (gotype * goval))) : Prop :=
  Forall2 fits prefix (take (length prefix) (si_fields s)).
Definition raw_values (prefix : list (option (gotype * goval))) : list goval := omap (fmap snd) prefix.

Lemma indexValue_fits s raw p f :
  si_fields s !! p = Some f ->
  (exists v, raw = Some (sf_typ f, v) /\ indexValue s raw p = Ok v) \/ (~ fits raw f /\ exists e, indexValue s raw p = Fail e).
Proof.
  intros Hf. unfold indexValue, fits. rewrite Hf. destruct raw as [[t v]|]; [|right; split; [by intros [? ?]|eauto]].
  destruct (gotype_eqb t (sf_typ f)) eqn:E.
  - apply gotype_eqb_eq in E as ->. left. eauto.
  - right. split; [|eauto]. intros [v' [= -> _]]. assert (gotype_eqb (sf_typ f) (sf_typ f) = true) by by apply gotype_eqb_eq.
    congruence.
Qed.

Lemma indexValues_fits s prefix p :
  p + length prefix <= length (si_fields s) ->
  (Forall2 fits prefix (take (length prefix) (drop p (si_fields s))) /\ indexValues s prefix p = Ok (raw_values prefix) /\
   length (raw_values prefix) = length prefix) \/
  (~ Forall2 fits prefix (take (length prefix) (drop p (si_fields s))) /\ exists e, indexValues s prefix p = Fail e).
Proof.
  revert p. induction prefix as [|raw prefix IH]; intros p Hp; [left; split_and!; [constructor|done..]|]. cbn in Hp.
  destruct (lookup_lt_is_Some_2 (si_fields s) p ltac:(lia)) as [f Hf]. rewrite (drop_S _ _ _ Hf). cbn [take length indexValues].
  destruct (indexValue_fits s raw p f Hf) as [(v & -> & E)|(Hn & e & E)]; rewrite E; cbn.
  - destruct (IH (S p) ltac:(lia)) as [(H1 & H2 & H3)|(H1 & e & H2)]; rewrite H2; cbn.
    + left. split_and!; [constructor; [by eexists|done]|done|by f_equal].
    + right. split; [|eauto]. intros H. by inversion H.
  - right. split; [|eauto]. intros H. by inversion H.
Qed.

Lemma comparePrefix_zero fs prefix e :
  Forall2 fits prefix (take (length prefix) fs) -> Forall raw_ok prefix ->
  Forall (fun f => indexable (sf_typ f) = true /\ key_value_ok (sf_typ f) (field_value e (sf_index f))) fs ->
  comparePrefix fs e (raw_values prefix) = 0%Z <->
  take (length prefix) ((fun f => field_value e (sf_index f)) <$> fs) = raw_values prefix.
Proof.
  revert fs. induction prefix as [|raw prefix IH]; intros fs Hf Hr He; [by destruct fs|].
  destruct fs as [|f fs]; [by inversion Hf|]. cbn [length take] in *. inversion Hf as [|? ? ? ? [v ->] Hf']; subst.
  apply Forall_cons in Hr as [Hv Hr], He as [[Hi [Hok _]] He]. cbn. fold (raw_values prefix).
  destruct (Z.eqb_spec (compareIndexValues (field_value e (sf_index f)) v) 0) as [E|E].
  - rewrite (compareIndexValues_eq _ _ _ Hi Hok Hv E). rewrite IH by done. split; [by intros ->|by intros [= ->]].
  - split; [done|]. intros [= E' _]. rewrite E' in E. by rewrite compareIndexValues_refl in E.
Qed.

Section ranges.
Context (GetId : goval -> Z).

(** The rows of an index that match a prefix. *)
Definition matches (heap : gmap loc goval) (s : secondaryIndexSpec) (values : list goval) (l : loc) : bool :=
  (comparePrefix (si_fields s) (deref heap l) values =? 0)%Z.

Lemma sorted_compareFields heap s es i j a b :
  StronglySorted (fun a b => compare_at GetId heap s a b <= 0)%Z es -> es !! i = Some a -> es !! j = Some b -> i <= j ->
  (compareFields (si_fields s) (deref heap a) (deref heap b) <= 0)%Z.
Proof.
  intros Hs Ha Hb Hij. assert (compare_at GetId heap s a b <= 0)%Z as H.
  { destruct (decide (i = j)) as [->|]; [|eapply sorted_lookup; eauto; lia].
    assert (a = b) as -> by congruence. pose proof (order_flip (cmp := compare_at GetId heap s) b b). lia. }
  unfold compare_at, compare in H. destruct (Z.eqb_spec (compareFields (si_fields s) (deref heap a) (deref heap b)) 0); lia.
Qed.

Lemma prefixBounds_ok heap x prefix :
  StronglySorted (fun a b => compare_at GetId heap (spec x) a b <= 0)%Z (entries x) ->
  (prefix_fits (spec x) prefix /\ exists lo hi, prefixBounds heap x prefix = Ok (lo, hi) /\ lo <= hi <= length (entries x) /\
     take (hi - lo) (drop lo (entries x)) = List.filter (matches heap (spec x) (raw_values prefix)) (entries x)) \/
  (~ prefix_fits (spec x) prefix /\ exists e, prefixBounds heap x prefix = Fail e).
Proof.
  intros Hs. unfold prefixBounds, prefix_fits. destruct (Nat.ltb_spec (length (si_fields (spec x))) (length prefix)) as [Hl|Hl].
  { right. split; [|eauto]. intros H. apply Forall2_length in H. rewrite length_take in H. lia. }
  destruct (indexValues_fits (spec x) prefix 0 ltac:(lia)) as [(H1 & -> & H2)|(H1 & e & ->)]; cbn [drop] in *; [left|right; eauto].
  split; [done|]. cbn. set (c := fun l => comparePrefix (si_fields (spec x)) (deref heap l) (raw_values prefix)).
  destruct (cut_between (fun l => (0 <=? c l)%Z) (fun l => (0 <? c l)%Z) (entries x)) as [Hb Hc].
  - intros i j a b Ha Hb Hij. rewrite !Z.leb_le. apply prefix_monotone. by eapply sorted_compareFields.
  - intros i j a b Ha Hb Hij. rewrite !Z.ltb_lt. apply prefix_monotone. by eapply sorted_compareFields.
  - intros a _. rewrite Z.leb_le, Z.ltb_lt. lia.
  - cbv zeta in Hc. eexists _, _. split; [done|]. split; [exact Hb|]. etrans; [exact Hc|].
    apply filter_ext. intros l. unfold matches. fold (c l). destruct (Z.leb_spec 0 (c l)), (Z.ltb_spec 0 (c l)), (Z.eqb_spec (c l) 0); done || lia.
Qed.

(** A search inside a range drops the elements that fail the test. *)
Lemma cut_after {A} (g : A -> bool) (m : list A) (f : nat -> bool) :
  (forall i j a b, m !! i = Some a -> m !! j = Some b -> i <= j -> g a = true -> g b = true) ->
  (forall i a, m !! i = Some a -> f i = g a) ->
  sort_search (length m) f <= length m /\ drop (sort_search (length m) f) m = List.filter g m.
Proof.
  intros Hg Hf. destruct (sort_search_spec f (length m)) as (H1 & H2 & H3).
  { intros a b [Hab Hb]. destruct (lookup_lt_is_Some_2 m b Hb) as [y Ey], (lookup_lt_is_Some_2 m a ltac:(lia)) as [x Ex].
    rewrite (Hf a x Ex), (Hf b y Ey). by eapply Hg. }
  split; [done|]. set (off := sort_search _ _) in *. rewrite <- (take_drop off m) at 2. rewrite List.filter_app.
  assert (List.filter g (take off m) = []) as ->.
  { destruct (List.filter g (take off m)) as [|a rest] eqn:E; [done|]. exfalso.
    assert (a ∈ List.filter g (take off m)) as Hin by (rewrite E; left).
    apply list_elem_of_In, filter_In in Hin as [Hin Hga]. apply list_elem_of_In, list_elem_of_lookup in Hin as [i Hi].
    apply lookup_take_Some in Hi as [Hi Hlt]. specialize (H2 i Hlt). rewrite (Hf i a Hi) in H2. congruence. }
  cbn. symmetry. apply forallb_filter_id, forallb_forall. intros a Hin.
  apply list_elem_of_In, list_elem_of_lookup in Hin as [i Hi]. rewrite lookup_drop in Hi.
  rewrite <- (Hf (off + i) a Hi). apply H3. apply lookup_lt_Some in Hi. lia.
Qed.

Lemma slice_nat {A} (l : list A) lo hi :
  lo <= hi <= length l -> slice l (Z.of_nat lo) (Z.of_nat hi) = Ok (take (hi - lo) (drop lo l)).
Proof.
  intros H. unfold slice, ztake, zdrop, zlen.
  rewrite !(proj2 (Z.leb_le _ _)) by lia. cbn. do 2 f_equal; [lia|]. f_equal. lia.
Qed.

Lemma filter_matches heap live x prefix :
  live_ok GetId heap (spec x) live -> index_ok GetId heap live x -> prefix_fits (spec x) prefix -> Forall raw_ok prefix ->
  forall l, l ∈ entries x -> matches heap (spec x) (raw_values prefix) l = true <->
    take (length prefix) (key_values (spec x) (deref heap l)) = raw_values prefix.
Proof.
  intros Hlive [[Hp _] _] Hf Hr l Hl. rewrite Hp in Hl. destruct (live_ok_elem _ _ _ _ _ Hlive Hl) as [Ht _].
  unfold matches. rewrite Z.eqb_eq. by apply comparePrefix_zero.
Qed.
End ranges.

(** ** A sample table and commit

    Players [Id, Name, Score] with a unique index on the name and an index on
    score and name; the commit swaps the names of players 1 and 2, creates
    player 4 and deletes player 3. *)
Definition player_id (e : goval) : Z := match e with VStruct (VInt id :: _) => id | _ => 0%Z end.
Definition player (id : Z) (name : string) (score : Z) : goval := VStruct [VInt id; VString name; VInt score].
Definition name_field : secondaryIndexField := {| sf_name := "Name"; sf_index := 1; sf_typ := TBasic "string" KString; sf_order := 1 |}.
Definition score_field : secondaryIndexField := {| sf_name := "Score"; sf_index := 2; sf_typ := TBasic "int" KInt; sf_order := 1 |}.
Definition by_name : secondaryIndexSpec :=
  {| si_name := "by_name"; si_fields := [name_field]; si_unique := true; lookupField := "Name" |}.
Definition by_score : secondaryIndexSpec :=
  {| si_name := "by_score"; si_fields := [score_field; name_field]; si_unique := false; lookupField := "" |}.
Definition sample_specs : gmap string secondaryIndex :=
  {[ "by_name" := newSecondaryIndex by_name; "by_score" := newSecondaryIndex by_score ]}.

Definition heap_before : gmap loc goval :=
  {[ 1%positive := player 1 "ann" 5; 2%positive := player 2 "bob" 5; 3%positive := player 3 "eve" 1 ]}.
Definition res_before : gmap Z loc := {[ 1%Z := 1%positive; 2%Z := 2%positive; 3%Z := 3%positive ]}.
Definition heap_after : gmap loc goval :=
  {[ 1%positive := player 1 "bob" 5; 2%positive := player 2 "ann" 5; 3%positive := player 3 "eve" 1; 4%positive := player 4 "eve" 5 ]}.
Definition res_after : gmap Z loc := {[ 1%Z := 1%positive; 2%Z := 2%positive; 4%Z := 4%positive ]}.
Definition sample_items : list pendingWrite :=
  [ {| w_id := 1; work := player 1 "bob" 5; w_deleted := false |};
    {| w_id := 2; work := player 2 "ann" 5; w_deleted := false |};
    {| w_id := 4; work := player 4 "eve" 5; w_deleted := false |};
    {| w_id := 3; work := VStruct []; w_deleted := true |} ].
Definition sample_secondary : gmap string secondaryIndex :=
  match rebuildSecondaryIndices player_id heap_before (residents res_before) sample_specs with
  | Ok sec => sec | _ => ∅ end.

Lemma player_typed s id name score :
  s = by_name \/ s = by_score -> (zlen (string_bytes name) < 2 ^ 63)%Z -> value_ok (TBasic "int" KInt) (VInt score) = true ->
  entity_typed s (player id name score).
Proof. intros [-> | ->] Hn Hs; repeat constructor; done. Qed.

Lemma sample_names name x : sample_secondary !! name = Some x -> spec x = by_name \/ spec x = by_score.
Proof.
  assert (map_Forall (fun _ x => spec x = by_name \/ spec x = by_score) sample_secondary) as H; [|apply H].
  apply map_Forall_to_list. vm_compute.
  repeat (apply Forall_cons; split; [first [left; reflexivity|right; reflexivity]|]). apply Forall_nil. exact I.
Qed.

Lemma sample_residents : residents res_before = [3%positive; 2%positive; 1%positive].
Proof. vm_compute. reflexivity. Qed.
Lemma sample_table_ok : table_ok player_id heap_before res_before sample_secondary.
Proof.
  assert (forall id l, res_before !! id = Some l -> player_id (deref heap_before l) = id /\ (0 < id)%Z) as Hid.
  { intros id l H. unfold res_before in H.
    repeat (apply lookup_insert_Some in H as [[<- <-]|[_ H]]; [by vm_compute|]).
    by apply lookup_singleton_Some in H as [<- <-]. }
  assert (forall s, s = by_name \/ s = by_score -> Forall (fun l => entity_typed s (deref heap_before l)) (residents res_before)) as Ht.
  { intros s Hs. rewrite sample_residents.
    apply Forall_cons; split; [|apply Forall_cons; split; [|apply Forall_cons; split; [|by apply Forall_nil]]].
    - apply (player_typed s 3 "eve" 1 Hs); vm_compute; reflexivity.
    - apply (player_typed s 2 "bob" 5 Hs); vm_compute; reflexivity.
    - apply (player_typed s 1 "ann" 5 Hs); vm_compute; reflexivity. }
  split; [done| | |].
  - intros name x Hx. destruct (sample_names name x Hx) as [E|E]; clear Hx; rewrite E; intros H; [exists name_field; reflexivity|by destruct H].
  - intros name x Hx. apply Ht. by eapply sample_names.
  - destruct (rebuild_fold player_id heap_before (residents res_before) (map_to_list sample_specs) ∅) as (out & E & Hout & Hin).
    + apply NoDup_fst_map_to_list.
    + intros p Hp. assert (spec p.2 = by_name \/ spec p.2 = by_score) as Hs.
      { destruct p as [name x]. apply elem_of_map_to_list in Hp. unfold sample_specs in Hp.
        apply lookup_insert_Some in Hp as [[_ <-]|[_ Hp]]; [by left|]. apply lookup_singleton_Some in Hp as [_ <-]. by right. }
      split; [destruct Hs as [E|E]; rewrite E; intros H; [exists name_field; reflexivity|by destruct H]|]. apply residents_live; auto.
    + apply Forall_forall. intros [name x] Hp%elem_of_map_to_list. intros Hu. cbn [snd] in *.
      assert (spec x = by_name) as ->.
      { unfold sample_specs in Hp.
        apply lookup_insert_Some in Hp as [[_ <-]|[_ Hp]]; [done|]. by apply lookup_singleton_Some in Hp as [_ <-]. }
      rewrite sample_residents. cbn. repeat (apply NoDup_cons; split; [rewrite ?not_elem_of_cons; split_and?; try done; by intros ?%elem_of_nil|]).
      apply NoDup_nil_2.
    + assert (sample_secondary = out) as ->.
      { unfold sample_secondary, rebuildSecondaryIndices.
        change (@map_range string _ _ _ secondaryIndex sample_specs) with (map_to_list sample_specs). by rewrite E. }
      clear E. intros name x Hx. destruct (decide (name ∈ (map_to_list sample_specs).*1)) as [Hn|Hn].
      * apply list_elem_of_fmap in Hn as ([name' x0] & -> & H0). destruct (Hin _ _ H0) as (y & Hy & _ & Hok).
        cbn [fst] in Hx. rewrite Hy in Hx. by injection Hx as <-.
      * rewrite (Hout name Hn), lookup_empty in Hx. discriminate Hx.
Qed.

Lemma sample_writes : writes_applied player_id sample_secondary sample_items heap_before res_before heap_after res_after.
Proof.
  split.
  - cbn. repeat (apply NoDup_cons; split; [set_solver|]). apply NoDup_nil_2.
  - unfold sample_items.
    do 3 (apply Forall_cons; split; [intros _; split; [reflexivity|split; [reflexivity|]];
      intros name x Hx; apply player_typed; [by eapply sample_names|vm_compute; reflexivity..]|]).
    apply Forall_cons; split; [intros Hd; discriminate Hd|]. by apply Forall_nil.
  - intros id Hid. cbn in Hid. rewrite !not_elem_of_cons in Hid. destruct Hid as (H1 & H2 & H4 & H3 & _).
    unfold res_after, res_before. rewrite !lookup_insert_ne, !lookup_singleton_ne by done. done.
  - unfold sample_items. repeat (apply Forall_cons; split; [cbn; first [reflexivity|eexists; split; reflexivity]|]).
    by apply Forall_nil.
Qed.

(** ** Theorems *)

Section theorems.
Context (GetId : goval -> Z) `{!MapOrder string}.

(** C21: [validateIndexes] accepts a commit exactly when, after its writes, no
    two live entities share the key of a unique index; otherwise it reports
    [ErrUniqueViolation]. A swap of keys between entities of one commit is
    accepted, a clash with an untouched entity or inside the commit is not. *)
Theorem validateIndexes_decides secondary items heap0 res0 heap1 res1 :
  table_ok GetId heap0 res0 secondary -> writes_applied GetId secondary items heap0 res0 heap1 res1 ->
  (validateIndexes secondary items = Ok tt <-> map_Forall (fun _ x => unique_keys heap1 (spec x) (residents res1)) secondary) /\
  (validateIndexes secondary items = Ok tt \/ validateIndexes secondary items = Fail ErrUniqueViolation).
Proof.
  intros Htab Hw. destruct (validateIndexes_cases GetId _ _ _ _ _ _ Htab Hw) as [[E H]|(E & name & x & Hx & H)]; rewrite E.
  - split; [done|auto].
  - split; [|auto]. split; [done|]. intros Hall. by destruct (H (Hall name x Hx)).
Qed.

(** C8: A validated commit keeps every index of the table in step with its
    live entities, on the one-by-one path and on the batch path: entries are
    the live entities in index order and unique lookups find exactly their
    keys. *)
Theorem commit_keeps_indexes secondary items heap0 res0 heap1 res1 :
  table_ok GetId heap0 res0 secondary -> writes_applied GetId secondary items heap0 res0 heap1 res1 ->
  validateIndexes secondary items = Ok tt ->
  table_ok GetId heap1 res1 (finishIndexes GetId heap1 res1 items (prepareIndexes GetId heap0 res0 items secondary)).
Proof. apply commit_table_ok. Qed.

(** C25: Maintaining the indexes commit by commit gives what rebuilding them
    from the table gives: after a validated commit [rebuildSecondaryIndices]
    succeeds and agrees with the maintained indexes in their entries and in
    every unique lookup. *)
Theorem commit_equals_rebuild secondary items heap0 res0 heap1 res1 :
  table_ok GetId heap0 res0 secondary -> writes_applied GetId secondary items heap0 res0 heap1 res1 ->
  validateIndexes secondary items = Ok tt ->
  let maintained := finishIndexes GetId heap1 res1 items (prepareIndexes GetId heap0 res0 items secondary) in
  exists rebuilt, rebuildSecondaryIndices GetId heap1 (residents res1) maintained = Ok rebuilt /\
    map_Forall (fun name x => exists y, rebuilt !! name = Some y /\ entries y = entries x /\
      (si_unique (spec x) = true -> forall e, entity_typed (spec x) e -> uniqueID y e = uniqueID x e)) maintained.
Proof.
  intros Htab Hw Hv maintained. pose proof (commit_table_ok GetId _ _ _ _ _ _ Htab Hw Hv) as Hok. fold maintained in Hok.
  assert (forall name x, maintained !! name = Some x -> live_ok GetId heap1 (spec x) (residents res1)) as Hlive
    by (intros; by eapply live_before).
  destruct (rebuild_fold GetId heap1 (residents res1) (map_range maintained) ∅) as (out & E & _ & Hin).
  - apply map_range_nodup.
  - intros [name x] Hx%map_range_elem. split; [by apply (indexes_shape _ _ _ _ Hok name)|by eapply Hlive].
  - apply Forall_forall. intros [name x] Hx%map_range_elem. intros Hu.
    destruct (indexes_ok _ _ _ _ Hok name x Hx) as [_ Hl]. eapply lookups_ok_unique; eauto.
  - exists out. split; [done|]. intros name x Hx. destruct (Hin name x) as (y & Hy & Es & Hyok); [by apply map_range_elem|].
    exists y. split; [done|]. destruct (index_ok_canonical GetId heap1 (residents res1) x y) as [H1 H2]; eauto.
    { by apply (indexes_ok _ _ _ _ Hok name). }
    split; [done|]. intros Hu e He. symmetry. auto.
Qed.

(** C26: [rangePrefix] returns exactly the live rows whose leading indexed
    fields equal the given values, each once and in index order; it fails
    exactly when the values do not fit the leading fields, and never panics. *)
Theorem rangePrefix_exact heap live x prefix :
  live_ok GetId heap (spec x) live -> index_ok GetId heap live x -> Forall raw_ok prefix ->
  match rangePrefix heap x prefix with
  | Ok out => prefix_fits (spec x) prefix /\ NoDup out /\
      StronglySorted (fun a b => compare_at GetId heap (spec x) a b <= 0)%Z out /\
      forall l, l ∈ out <-> l ∈ live /\ take (length prefix) (key_values (spec x) (deref heap l)) = raw_values prefix
  | Fail _ => ~ prefix_fits (spec x) prefix
  | Panic => False
  end.
Proof.
  intros Hlive Hok Hr. pose proof Hok as [[Hp Hs] _]. unfold rangePrefix.
  destruct (prefixBounds_ok GetId heap x prefix Hs) as [(Hf & lo & hi & -> & Hb & E)|(Hf & e & ->)]; [|done].
  cbn. rewrite slice_nat, E by done. split_and!; [done| |by apply sorted_filter|].
  - apply NoDup_ListNoDup, List.NoDup_filter, NoDup_ListNoDup. rewrite Hp. by eapply live_ok_NoDup.
  - intros l. rewrite list_elem_of_In, filter_In, <- list_elem_of_In. rewrite <- Hp. split.
    + intros [Hl Hm]. split; [done|]. by apply (filter_matches GetId heap live).
    + intros [Hl Hm]. split; [done|]. by apply (filter_matches GetId heap live).
Qed.

(** C27: [rangeAfter] returns exactly the rows that match the prefix and whose
    next indexed field lies after the cursor, in index order. *)
Theorem rangeAfter_exact heap live x prefix after :
  live_ok GetId heap (spec x) live -> index_ok GetId heap live x -> Forall raw_ok prefix ->
  match rangeAfter heap x prefix after with
  | Ok out => exists f c, prefix_fits (spec x) prefix /\ si_fields (spec x) !! length prefix = Some f /\
      after = Some (sf_typ f, c) /\ NoDup out /\
      StronglySorted (fun a b => compare_at GetId heap (spec x) a b <= 0)%Z out /\
      forall l, l ∈ out <-> l ∈ live /\ take (length prefix) (key_values (spec x) (deref heap l)) = raw_values prefix /\
        (0 < compareIndexValues (field_value (deref heap l) (sf_index f)) c)%Z
  | Fail _ => ~ (prefix_fits (spec x) prefix /\ exists f, si_fields (spec x) !! length prefix = Some f /\ fits after f)
  | Panic => False
  end.
Proof.
  intros Hlive Hok Hr. pose proof Hok as [[Hp Hs] _]. unfold rangeAfter.
  destruct (Nat.leb_spec (length (si_fields (spec x))) (length prefix)) as [Hl|Hl].
  { intros [_ (f & Hf & _)]. apply lookup_lt_Some in Hf. lia. }
  destruct (lookup_lt_is_Some_2 _ _ Hl) as [f Hf].
  destruct (indexValue_fits (spec x) after _ _ Hf) as [(c & -> & E)|(Hn & e & E)]; rewrite E; cbn.
  2: { intros [_ (f' & Hf' & H)]. congruence. }
  destruct (prefixBounds_ok GetId heap x prefix Hs) as [(Hfit & lo & hi & -> & Hb & Em)|(Hfit & e & ->)]; cbn.
  2: { by intros [? _]. }
  rewrite Hf. set (m := take (hi - lo) (drop lo (entries x))) in *.
  set (g := fun l => (0 <? compareIndexValues (field_value (deref heap l) (sf_index f)) c)%Z).
  assert (length m = hi - lo) as Hm by (unfold m; rewrite length_take, length_drop; lia).
  assert (forall l, l ∈ m <-> l ∈ live /\ take (length prefix) (key_values (spec x) (deref heap l)) = raw_values prefix) as Hin.
  { intros l. rewrite Em, list_elem_of_In, filter_In, <- list_elem_of_In. rewrite <- Hp.
    split; (intros [Hl' Hm']; split; [done|]; by apply (filter_matches GetId heap live)). }
  assert (StronglySorted (fun a b => compare_at GetId heap (spec x) a b <= 0)%Z m) as Hsm by (rewrite Em; by apply sorted_filter).
  match goal with |- context [sort_search _ ?t] => destruct (cut_after g m t) as [H1 H2] end.
  - intros i j a b Ha Hb' Hij. unfold g. rewrite !Z.ltb_lt. intros Hpos.
    pose proof (sorted_compareFields GetId heap (spec x) m i j a b Hsm Ha Hb' Hij) as Hle.
    destruct (indexValues_fits (spec x) prefix 0 ltac:(lia)) as [(_ & _ & Hlen)|(Hn & _)]; [|done].
    destruct (prefix_monotone _ (raw_values prefix) _ _ Hle) as (_ & _ & H3). rewrite Hlen in H3.
    assert (forall z, z ∈ m -> comparePrefix (si_fields (spec x)) (deref heap z) (raw_values prefix) = 0%Z) as Hz.
    { intros z Hz. rewrite Em in Hz. apply list_elem_of_In, filter_In in Hz as [_ Hz]. by apply Z.eqb_eq. }
    specialize (H3 (Hz _ (list_elem_of_lookup_2 _ _ _ Ha)) (Hz _ (list_elem_of_lookup_2 _ _ _ Hb')) f Hf).
    pose proof (order_trans (cmp := compareIndexValues) _ _ c H3). lia.
  - intros i a Hi. unfold m in Hi. apply lookup_take_Some in Hi as [Hi _]. rewrite lookup_drop in Hi. by rewrite Hi.
  - rewrite Hm in H1, H2. set (off := sort_search _ _) in *. rewrite slice_nat by lia.
    replace (hi - (lo + off)) with (hi - lo - off) by lia. rewrite <- drop_drop.
    assert (take (hi - lo - off) (drop off (drop lo (entries x))) = List.filter g m) as ->.
    { rewrite <- H2. unfold m. rewrite take_drop_commute. do 2 f_equal. lia. }
    exists f, c. split_and!; [done..| | |].
    + apply NoDup_ListNoDup, List.NoDup_filter. rewrite Em. apply List.NoDup_filter, NoDup_ListNoDup. rewrite Hp. by eapply live_ok_NoDup.
    + by apply sorted_filter.
    + intros l. rewrite list_elem_of_In, filter_In, <- list_elem_of_In, Hin. unfold g. rewrite Z.ltb_lt. naive_solver.
Qed.
End theorems.

(** C40: The byte key of a composite unique index tells any two combinations
    of field values apart: lengths delimit strings, so no two different keys
    are concatenated to the same bytes. *)
Theorem composite_key_injective x e e' :
  entity_typed (spec x) e -> entity_typed (spec x) e' ->
  key x e = key x e' <-> key_values (spec x) e = key_values (spec x) e'.
Proof. apply key_inj. Qed.

(** ** Witnesses *)

Lemma validateIndexes_decides_witness :
  validateIndexes sample_secondary sample_items = Ok tt /\
  map_Forall (fun _ x => unique_keys heap_after (spec x) (residents res_after)) sample_secondary.
Proof.
  split; [vm_compute; reflexivity|].
  apply (validateIndexes_decides player_id _ _ _ _ _ _ sample_table_ok sample_writes). vm_compute. reflexivity.
Defined.

Lemma commit_keeps_indexes_witness :
  table_ok player_id heap_after res_after
    (finishIndexes player_id heap_after res_after sample_items (prepareIndexes player_id heap_before res_before sample_items sample_secondary)).
Proof. apply (commit_keeps_indexes player_id _ _ _ _ _ _ sample_table_ok sample_writes). vm_compute. reflexivity. Defined.

Lemma commit_equals_rebuild_witness :
  exists rebuilt, rebuildSecondaryIndices player_id heap_after (residents res_after)
    (finishIndexes player_id heap_after res_after sample_items (prepareIndexes player_id heap_before res_before sample_items sample_secondary)) = Ok rebuilt.
Proof.
  destruct (commit_equals_rebuild player_id _ _ _ _ _ _ sample_table_ok sample_writes) as (rebuilt & E & _);
    [vm_compute; reflexivity|by exists rebuilt].
Defined.

Definition score_prefix : list (option (gotype * goval)) := [Some (TBasic "int" KInt, VInt 5)].
Lemma score_prefix_ok : Forall raw_ok score_prefix.
Proof. apply Forall_cons; split; [vm_compute; reflexivity|by apply Forall_nil]. Qed.

Lemma rangePrefix_exact_witness :
  match sample_secondary !! "by_score" with
  | Some x => rangePrefix heap_before x score_prefix = Ok [1%positive; 2%positive] /\
      forall l, l ∈ [1%positive; 2%positive] <-> l ∈ residents res_before /\
        take 1 (key_values (spec x) (deref heap_before l)) = [VInt 5]
  | None => False
  end.
Proof.
  destruct (sample_secondary !! "by_score") as [x|] eqn:E; [|vm_compute in E; discriminate E].
  assert (rangePrefix heap_before x score_prefix = Ok [1%positive; 2%positive]) as Er.
  { pose proof E as E'. vm_compute in E'. injection E' as <-. vm_compute. reflexivity. }
  split; [exact Er|].
  pose proof (rangePrefix_exact player_id heap_before (residents res_before) x score_prefix
    (live_before player_id _ _ _ sample_table_ok "by_score" x E)
    (indexes_ok _ _ _ _ sample_table_ok "by_score" x E) score_prefix_ok) as H.
  rewrite Er in H. apply H.
Defined.

Lemma rangeAfter_exact_witness :
  match sample_secondary !! "by_score" with
  | Some x => rangeAfter heap_before x score_prefix (Some (TBasic "string" KString, VString "ann")) = Ok [2%positive] /\ NoDup [2%positive]
  | None => False
  end.
Proof.
  destruct (sample_secondary !! "by_score") as [x|] eqn:E; [|vm_compute in E; discriminate E].
  assert (rangeAfter heap_before x score_prefix (Some (TBasic "string" KString, VString "ann")) = Ok [2%positive]) as Er.
  { pose proof E as E'. vm_compute in E'. injection E' as <-. vm_compute. reflexivity. }
  split; [exact Er|].
  pose proof (rangeAfter_exact player_id heap_before (residents res_before) x score_prefix (Some (TBasic "string" KString, VString "ann"))
    (live_before player_id _ _ _ sample_table_ok "by_score" x E)
    (indexes_ok _ _ _ _ sample_table_ok "by_score" x E) score_prefix_ok) as H.
  rewrite Er in H. destruct H as (f & c & _ & _ & _ & H & _). exact H.
Defined.

Lemma composite_key_injective_witness :
  (key (newSecondaryIndex by_score) (player 1 "ann" 5) = key (newSecondaryIndex by_score) (player 2 "bob" 5) <->
   [VInt 5; VString "ann"] = [VInt 5; VString "bob"]).
Proof.
  apply (composite_key_injective (newSecondaryIndex by_score) (player 1 "ann" 5) (player 2 "bob" 5));
    apply player_typed; first [by right|vm_compute; reflexivity].
Defined.
