(* ===== verification/Storage.v ===== *)
(** * Chunk files, loading and recovery (src/storage.go)

    Each type persists as a directory of chunk files [<n>.gob], one per block
    of its store. [loadStore] rebuilds the store from them and applies the
    rows of the two logs; [save] rewrites the files of the dirty blocks, each
    through a temporary file and a rename. gob is a parameter. The loaders and
    writers run one goroutine per file on disjoint data, so the model runs
    them one after the other; [wg.Wait] precedes every use of the results. *)
From Stdlib Require Import Ascii.
From S2P Require Import Prelude GoBytes WalFrame GoReflect RowCodec WalLog ChunkStore RelationSchema SchemaRows IndexSpecs.

(** ** File names *)

Definition dec_digit (d : Z) : ascii := ascii_of_nat (Z.to_nat (48 + d)).
Fixpoint dec_loop (fuel : nat) (n : Z) (tail : string) : string :=
  match fuel with
  | O => tail
  | S fuel => let s := String (dec_digit (n mod 10)) tail in
              if (n / 10 =? 0)%Z then s else dec_loop fuel (n / 10) s
  end.

(** [%d] on a non-negative int: 20 digits hold any int. *)
Definition itoa (n : Z) : string := dec_loop 20 n EmptyString.

Definition chunk_file (ci : Z) : string := itoa ci +:+ ".gob".
Definition tmp_file (ci : Z) : string := chunk_file ci +:+ ".tmp".

(** [strings.TrimSuffix] when [strings.HasSuffix] holds. *)
Fixpoint strip_suffix (suffix s : string) : option string :=
  if decide (s = suffix) then Some EmptyString else
  match s with
  | EmptyString => None
  | String c rest => String c <$> strip_suffix suffix rest
  end.

(** A directory: names, whether the entry is a directory, file contents. *)
Record dirEntry := { de_name : string; de_isdir : bool; de_file : opened_file }.

Definition chunkEntry (e : dirEntry) : option (Z * dirEntry) :=
  if de_isdir e then None else
  match strip_suffix ".gob" (de_name e) with
  | None => None
  | Some stem => (fun idx => (idx, e)) <$> Atoi stem
  end.

Definition sortedChunkFiles (dir : outcome (list dirEntry)) : outcome (list dirEntry) :=
  ents ← dir;
  Ok (SortFunc (fun a b => cmp_compare a.1 b.1) (omap chunkEntry ents)).*2.

(** The row type as the row codec sees it. *)
Definition row_gotype (d : structDef) : gotype :=
  TStruct EmptyString ((fun f => (fname f, exported f, ftype f)) <$> fields d).

Section storage.
Context (types : typeEnv) (GetId : goval -> Z).
Context (gob_encode_rows : structDef -> list goval -> outcome (list byte))
        (gob_decode_rows : structDef -> list byte -> outcome (list goval))
        (gob_decode : gotype -> list byte -> outcome goval).

(** ** Loading *)

Definition decodeSlice (file : opened_file) (row : structDef) : outcome (list goval) :=
  match file with
  | NotExist => Fail (ErrText "nestory: open")
  | OpenFailed e => Fail e
  | ReadUpTo [] => Ok []
  | ReadUpTo contents => gob_decode_rows row contents
  end.

(** The goroutine of one chunk file. *)
Definition loadFile (t : string) (row : structDef) (st : val_heap * list (list goval)) (e : dirEntry) :
    outcome (val_heap * list (list goval)) :=
  slice ← decodeSlice (de_file e) row;
  vals ← inflateSlice types st.1 t slice;
  Ok (vals.1, st.2 ++ [vals.2]).

(** [*resource.item = v] and [store.markDirty(resource.chunk)]. *)
Definition overwrite (heap : val_heap) (s : chunkStore) (r : slotRef) (v : goval) : val_heap * chunkStore :=
  match slot_at s r with
  | Some slot => (<[item slot := v]> heap, markDirty s (chunk slot))
  | None => (heap, s)
  end.

Record recovery := { rv_heap : val_heap; rv_store : chunkStore; byID : gmap Z slotRef; rv_deleted : gset Z }.

Definition slot_value (heap : val_heap) (s : chunkStore) (r : slotRef) : goval :=
  default (VStruct []) (slot ← slot_at s r; heap !! item slot).

(** The body of the loop over the recovered rows. *)
Definition applyRow (t : string) (st : recovery) (recovered : recoveredRow) : outcome recovery :=
  when deleted recovered =>
    Ok {| rv_heap := rv_heap st; rv_store := rv_store st; byID := byID st;
          rv_deleted := {[ rec_id recovered ]} ∪ rv_deleted st |} ;;
  values ← inflateSlice types (rv_heap st) t (match rec_row recovered with Some row => [row] | None => [] end);
  match values.2 with
  | [] => Panic
  | v :: _ =>
      when negb (GetId v =? rec_id recovered)%Z => Fail (ErrText "nestory: WAL row id contains another entity id") ;;
      let deleted' := rv_deleted st ∖ {[ rec_id recovered ]} in
      match byID st !! rec_id recovered with
      | Some r =>
          let '(heap, s) := overwrite values.1 (rv_store st) r v in
          Ok {| rv_heap := heap; rv_store := s; byID := byID st; rv_deleted := deleted' |}
      | None =>
          let '(heap, s, r) := Append values.1 (rv_store st) v in
          Ok {| rv_heap := heap; rv_store := s; byID := <[rec_id recovered := r]> (byID st); rv_deleted := deleted' |}
      end
  end.

(** The ids of the live entities with their slots. *)
Definition ids_of (heap : val_heap) (s : chunkStore) : gmap Z slotRef :=
  foldl (fun m r => <[GetId (slot_value heap s r) := r]> m) ∅ (rangeResources s).

Definition applyRecoveredRows (t : string) (heap : val_heap) (s : chunkStore) (rows : list recoveredRow) :
    outcome (val_heap * chunkStore) :=
  st ← fold_outcome (applyRow t)
         {| rv_heap := heap; rv_store := s; byID := ids_of heap s; rv_deleted := ∅ |} rows;
  if bool_decide (rv_deleted st = ∅) then Ok (rv_heap st, rv_store st)
  else Ok (rv_heap st, (DeleteFunc (rv_heap st) (rv_store st) (fun e => bool_decide (GetId e ∈ rv_deleted st))).1).

Definition loadStore (t : string) (mkdir : option gerror) (dir : outcome (list dirEntry))
    (wal_log transaction_log : opened_file) (heap : val_heap) : outcome (val_heap * chunkStore) :=
  sch ← schemaFor types t;
  match mkdir with
  | Some e => Fail e
  | None =>
      paths ← sortedChunkFiles dir;
      results ← fold_outcome (loadFile t (rowType sch)) (heap, []) paths;
      loaded ← fold_outcome (fun st vals => loadChunk st.1 st.2 vals) (results.1, newChunkStore) results.2;
      walRows ← replayWAL gob_decode (row_gotype (rowType sch)) wal_log;
      transactionRows ← replayTransactionWAL gob_decode t (row_gotype (rowType sch)) transaction_log;
      applyRecoveredRows t loaded.1 loaded.2 (walRows ++ transactionRows)
  end.

(** ** Saving *)

(** Answers of the operating system while one chunk is written. *)
Record chunk_env := {
  ce_create : option gerror; ce_partial : list byte; ce_sync : option gerror; ce_close : option gerror;
  ce_rename : option gerror; ce_remove_fails : bool;
}.

(** [db.directSchema]: the type has no relation fields. *)
Definition directSchema (t : string) : bool :=
  match relationSpecs types t with Ok [] => true | _ => false end.

Definition flatten (t : string) (heap : val_heap) (e : goval) : outcome goval :=
  if directSchema t then Ok e else normalizeToSchema types heap t e.

(** The rows of one block. *)
Definition chunkRows (t : string) (heap : val_heap) (s : chunkStore) (ci : Z) : outcome (list goval) :=
  live ← chunkLive s ci;
  fold_outcome (fun rows l => row ← flatten t heap (default (VStruct []) (heap !! l)); Ok (rows ++ [row])) [] live.

Definition remove_tmp (env : chunk_env) (files : disk) (ci : Z) : disk :=
  if ce_remove_fails env then files else delete (tmp_file ci) files.

Definition saveChunk (t : string) (row : structDef) (env : chunk_env) (heap : val_heap) (s : chunkStore) (files : disk)
    (ci : Z) : disk * outcome unit :=
  match chunkRows t heap s ci with
  | Panic => (files, Panic)
  | Fail e => (files, Fail e)
  | Ok rows =>
      match ce_create env with
      | Some e => (files, Fail e)
      | None =>
          match gob_encode_rows row rows with
          | Panic => (<[tmp_file ci := ce_partial env]> files, Panic)
          | Fail e => (remove_tmp env (<[tmp_file ci := ce_partial env]> files) ci, Fail e)
          | Ok contents =>
              let written := <[tmp_file ci := contents]> files in
              match ce_sync env with
              | Some e => (remove_tmp env (<[tmp_file ci := ce_partial env]> files) ci, Fail e)
              | None =>
                  match ce_close env with
                  | Some e => (remove_tmp env written ci, Fail e)
                  | None =>
                      match ce_rename env with
                      | Some e => (remove_tmp env written ci, Fail e)
                      | None => (delete (tmp_file ci) (<[chunk_file ci := contents]> files), Ok tt)
                      end
                  end
              end
          end
      end
  end.

Fixpoint saveChunks (t : string) (row : structDef) (env : Z -> chunk_env) (heap : val_heap) (s : chunkStore)
    (files : disk) (idxs : list Z) : disk * outcome unit :=
  match idxs with
  | [] => (files, Ok tt)
  | ci :: rest =>
      let '(files, r) := saveChunk t row (env ci) heap s files ci in
      let '(files, r') := saveChunks t row env heap s files rest in
      (files, match r with Ok _ => r' | Fail e => match r' with Panic => Panic | _ => Fail e end | Panic => Panic end)
  end.

Definition save (t : string) (mkdir : option gerror) (env : Z -> chunk_env) (heap : val_heap) (s : chunkStore)
    (files : disk) : chunkStore * disk * outcome unit :=
  let idxs := dirtyIndices s in
  if (zlen idxs =? 0)%Z then (s, files, Ok tt) else
  match mkdir with
  | Some e => (s, files, Fail e)
  | None =>
      match schemaFor types t with
      | Ok sch =>
          let '(files, r) := saveChunks t (rowType sch) env heap s files idxs in
          match r with
          | Ok _ => (clearDirty s idxs, files, Ok tt)
          | Fail e => (s, files, Fail e)
          | Panic => (s, files, Panic)
          end
      | Fail e => (s, files, Fail e)
      | Panic => (s, files, Panic)
      end
  end.
End storage.
