(* ===== verification/Recovery.v ===== *)
(** * Recovery: last writer wins, and what a save leaves on disk

    The theorems over [Storage]. A store is described by the rows its live
    entities persist as, by id; recovery from the logs acts on that
    description as replaying the rows one by one onto a map. *)
From S2P Require Import Prelude GoBytes WalFrame GoReflect RowCodec WalLog ChunkStore RelationSchema SchemaRows IndexSpecs Storage.

Section recovery.
Context (types : typeEnv) (GetId : goval -> Z) (t : string).
Implicit Types (heap : val_heap) (s : chunkStore) (r : slotRef).
Notation item_of := (fun s r => item <$> slot_at s r).

Definition cells s : list loc := item <$> concat (chunks s).

(** The entity [v] persists as [row], whatever the store writes to its own
    cells: the relations of [v] lead to cells outside the store. *)
Definition persists heap s (v row : goval) : Prop :=
  exists H : val_heap, H ⊆ heap /\ (forall l, is_Some (H !! l) -> l ∉ cells s) /\
    (forall heap', H ⊆ heap' -> normalizeToSchema types heap' t v = Ok row) /\
    (forall d, types !! t = Some d -> length (struct_fields v) = length (fields d)).

(** The store holds the rows [vl], in slot order, under distinct ids. *)
Record holds heap s (vl : list (Z * goval)) : Prop := {
  holds_wf : store_wf heap s;
  holds_rows : Forall2 (fun p q => GetId p.2 = q.1 /\ persists heap s p.2 q.2) (contents heap s) vl;
  holds_ids : NoDup vl.*1;
}.

(** [row] is the row of an entity of this type, and [GetId] of the entity is
    [id] however the row is inflated. *)
Definition row_of (id : Z) (row : goval) : Prop :=
  exists heap e, entity_ok types heap t e /\ normalizeToSchema types heap t e = Ok row /\
    forall heap0 heap' e', inflateSlice types heap0 t [row] = Ok (heap', [e']) -> GetId e' = id.

(** A recovered row the code wrote. *)
Definition row_ok (rr : recoveredRow) : Prop :=
  deleted rr = true \/ deleted rr = false /\ exists row, rec_row rr = Some row /\ row_of (rec_id rr) row.

(** One row replayed onto the table. *)
Definition replay_row (view : gmap Z goval) (rr : recoveredRow) : gmap Z goval :=
  if deleted rr then delete (rec_id rr) view
  else match rec_row rr with Some row => <[rec_id rr := row]> view | None => view end.

(** ** The store under recovery *)

Lemma store_wf_mono heap heap' s :
  (forall l, is_Some (heap !! l) -> is_Some (heap' !! l)) -> store_wf heap s -> store_wf heap' s.
Proof. intros H [W1 W2 W3 W4 W5 W6 W7 W8]. constructor; try done. eapply Forall_impl; [exact W7|]. intros x. apply H. Qed.

Lemma contents_mono heap heap' s :
  store_wf heap s -> heap ⊆ heap' -> contents heap' s = contents heap s.
Proof.
  intros Hwf Hsub. apply contents_ext. intros l Hl. destruct (Range_alloc _ _ _ Hwf Hl) as [w Hw].
  rewrite Hw. by eapply lookup_weaken.
Qed.

Lemma Range_cells heap s l : store_wf heap s -> l ∈ Range s -> l ∈ cells s.
Proof.
  intros Hwf. rewrite (Range_live _ _ Hwf). intros (slot & -> & Hin)%list_elem_of_fmap.
  apply live_slots_elem in Hin. by apply list_elem_of_fmap_2.
Qed.

Lemma elem_of_contents heap s l v : (l, v) ∈ contents heap s <-> l ∈ Range s /\ heap !! l = Some v.
Proof.
  unfold contents. rewrite list_elem_of_omap. split.
  - intros (l' & Hl & E). destruct (heap !! l') eqn:E'; [|done]. cbn in E. injection E as -> ->. done.
  - intros [Hl E]. exists l. by rewrite E.
Qed.

Lemma holds_grow heap heap' s vl : heap ⊆ heap' -> holds heap s vl -> holds heap' s vl.
Proof.
  intros Hsub [Hwf Hr Hi]. split; [|rewrite (contents_mono _ _ _ Hwf Hsub)|done].
  - eapply store_wf_mono; [|exact Hwf]. intros l [w Hw]. exists w. by eapply lookup_weaken.
  - eapply Forall2_impl; [exact Hr|]. intros p q [H1 (H & H2 & H3 & H4)]. split; [done|].
    exists H. split; [by transitivity heap|done].
Qed.

(** The ids of the store, each at one cell. *)
Lemma holds_id heap s vl l v : holds heap s vl -> (l, v) ∈ contents heap s -> GetId v ∈ vl.*1.
Proof.
  intros [_ Hr _] (i & Hi)%list_elem_of_lookup. destruct (Forall2_lookup_l _ _ _ _ _ Hr Hi) as (q & Hq & E & _).
  cbn in E. rewrite E. apply list_elem_of_fmap_2. by eapply list_elem_of_lookup_2.
Qed.

Lemma holds_cell heap s vl id : holds heap s vl -> id ∈ vl.*1 -> exists l v, (l, v) ∈ contents heap s /\ GetId v = id.
Proof.
  intros [_ Hr _] (q & -> & Hin)%list_elem_of_fmap. apply list_elem_of_lookup in Hin as [i Hi].
  destruct (Forall2_lookup_r _ _ _ _ _ Hr Hi) as ([l v] & Hp & E & _). exists l, v. split; [by eapply list_elem_of_lookup_2|done].
Qed.

Lemma holds_unique heap s vl l v l' v' :
  holds heap s vl -> (l, v) ∈ contents heap s -> (l', v') ∈ contents heap s -> GetId v = GetId v' -> l = l'.
Proof.
  intros [_ Hr Hi] (i & Hp)%list_elem_of_lookup (j & Hq)%list_elem_of_lookup E.
  destruct (Forall2_lookup_l _ _ _ _ _ Hr Hp) as (a & Ha & Ea & _), (Forall2_lookup_l _ _ _ _ _ Hr Hq) as (b & Hb & Eb & _).
  cbn in Ea, Eb. assert (i = j) as ->; [|congruence].
  apply (NoDup_lookup _ i j a.1 Hi); rewrite list_lookup_fmap; [by rewrite Ha|]. rewrite Hb. cbn. congruence.
Qed.

(** ** Overwriting, appending, deleting *)

Definition put_row (id : Z) (row : goval) (q : Z * goval) : Z * goval := if decide (q.1 = id) then (id, row) else q.

Lemma put_row_ids id row vl : (put_row id row <$> vl).*1 = vl.*1.
Proof.
  rewrite <- list_fmap_compose. apply list_fmap_ext. intros i q _. cbn. unfold put_row. by case_decide as H; [rewrite H|].
Qed.

Lemma cells_markDirty s ci : cells (markDirty s ci) = cells s.
Proof. done. Qed.

Lemma overwrite_holds heap s vl r slot v0 v row :
  holds heap s vl -> slot_at s r = Some slot -> (item slot, v0) ∈ contents heap s -> GetId v0 = GetId v ->
  persists heap s v row ->
  holds (overwrite heap s r v).1 (overwrite heap s r v).2 (put_row (GetId v) row <$> vl).
Proof.
  intros Hh Hs Hin Hid Hp. pose proof Hh as [Hwf Hr Hi]. unfold overwrite. rewrite Hs. cbn [fst snd].
  assert (item slot ∈ cells s) as Hcell by (apply list_elem_of_fmap_2; by eapply slot_at_concat).
  assert (forall w row', persists heap s w row' -> persists (<[item slot := v]> heap) (markDirty s (chunk slot)) w row') as Hkeep.
  { intros w row' (H & H1 & H2 & H3). exists H. split; [|done].
    apply map_subseteq_spec. intros l x Hl. rewrite lookup_insert_ne; [by eapply lookup_weaken|].
    intros <-. apply (H2 (item slot)); [by eexists|done]. }
  apply elem_of_contents in Hin as [HR Hv0].
  split; [| |by rewrite put_row_ids].
  - apply markDirty_wf. eapply store_wf_mono; [|exact Hwf]. intros l Hl. apply lookup_insert_is_Some'. by right.
  - assert (contents (<[item slot := v]> heap) (markDirty s (chunk slot)) =
      (fun p => if decide (p.1 = item slot) then (p.1, v) else p) <$> contents heap s) as -> by (apply contents_write; by eexists).
    apply Forall2_fmap. apply Forall2_same_length_lookup_2; [by eapply Forall2_length|].
    intros i p q Hip Hiq. destruct (Forall2_lookup_lr _ _ _ _ _ _ Hr Hip Hiq) as [E Hpq].
    unfold put_row. destruct p as [l w]. cbn in E |- *. destruct (decide (l = item slot)) as [->|Hne].
    + assert (w = v0) as ->.
      { apply list_elem_of_lookup_2, elem_of_contents in Hip as [_ Hw]. congruence. }
      rewrite decide_True by congruence. cbn. split; [done|]. by apply Hkeep.
    + rewrite decide_False; [split; [done|by apply Hkeep]|]. intros Eq. apply Hne.
      eapply holds_unique; [exact Hh|by eapply list_elem_of_lookup_2|apply elem_of_contents; split; [exact HR|exact Hv0]|]. congruence.
Qed.

Lemma append_holds heap s vl v row heap' s' r :
  holds heap s vl -> persists heap s v row -> GetId v ∉ vl.*1 -> Append heap s v = (heap', s', r) ->
  holds heap' s' (vl ++ [(GetId v, row)]) /\
  (exists slot, slot_at s' r = Some slot /\ (item slot, v) ∈ contents heap' s') /\
  (forall r0 slot, slot_at s r0 = Some slot -> slot_at s' r0 = Some slot) /\
  (forall p, p ∈ contents heap s -> p ∈ contents heap' s').
Proof.
  intros Hh Hp Hid A. pose proof Hh as [Hwf Hr Hi].
  destruct (Append_spec _ _ _ _ _ _ Hwf A) as (l & Hl & -> & Hwf' & HR & _ & _ & Hs & Hk & _ & Hc).
  assert (heap ⊆ <[l := v]> heap) as Hsub by by apply insert_subseteq.
  assert (contents (<[l := v]> heap) s' = contents heap s ++ [(l, v)]) as Hcont.
  { rewrite <- (contents_mono _ _ _ Hwf Hsub). unfold contents. rewrite HR, contents_split. cbn. by rewrite lookup_insert_eq. }
  assert (forall w row', persists heap s w row' -> persists (<[l := v]> heap) s' w row') as Hkeep.
  { intros w row' (H & H1 & H2 & H3). exists H. split; [by transitivity heap|]. split; [|done].
    intros l' Hl'. unfold cells. rewrite Hc. rewrite not_elem_of_app. split; [by apply H2|].
    intros ->%list_elem_of_singleton. destruct Hl' as [x Hx]. eapply lookup_weaken in Hx; [|exact H1]. congruence. }
  split_and!.
  - split; [done| |].
    + rewrite Hcont. apply Forall2_app; [|by repeat constructor; auto].
      eapply Forall2_impl; [exact Hr|]. intros p q [E Hpq]. split; [done|by apply Hkeep].
    + rewrite fmap_app. apply NoDup_app. split_and!; [done| |cbn; repeat constructor; set_solver].
      cbn. set_solver.
  - eexists. split; [exact Hs|]. rewrite Hcont. cbn. set_solver.
  - done.
  - intros p Hin. rewrite Hcont. set_solver.
Qed.

Lemma Forall2_filter {A B} (P : A -> B -> Prop) (f : A -> bool) (g : B -> bool) l k :
  (forall a b, P a b -> f a = g b) -> Forall2 P l k -> Forall2 P (List.filter f l) (List.filter g k).
Proof.
  intros H. induction 1 as [|a b l k Hab _ IH]; cbn; [constructor|]. rewrite (H a b Hab). destruct (g b); [by constructor|done].
Qed.

Lemma fst_filter {A} (f : Z -> bool) (l : list (Z * A)) : (List.filter (fun q => f q.1) l).*1 = List.filter f l.*1.
Proof. induction l as [|q l IH]; [done|]. cbn. destruct (f q.1); cbn; by rewrite IH. Qed.

Lemma delete_holds heap s vl (dead_ids : gset Z) :
  holds heap s vl ->
  holds heap (DeleteFunc heap s (fun e => bool_decide (GetId e ∈ dead_ids))).1
    (List.filter (fun q => negb (bool_decide (q.1 ∈ dead_ids))) vl).
Proof.
  intros [Hwf Hr Hi]. destruct (DeleteFunc heap s _) as [s' removed] eqn:D. cbn [fst].
  destruct (DeleteFunc_spec _ _ _ _ _ Hwf D) as (Hc & _).
  assert (store_step (heap, s) (OpDelete (fun e => bool_decide (GetId e ∈ dead_ids))) = Ok (heap, s')) as E by (cbn; by rewrite D).
  split.
  - by eapply store_step_wf.
  - pose proof (store_step_spec _ _ _ _ _ Hwf E) as Hsp. cbn in Hsp. rewrite Hsp.
    apply Forall2_filter; [intros p q [-> _]; done|].
    eapply Forall2_impl; [exact Hr|]. intros p q [E1 (H & H1 & H2 & H3)]. split; [done|].
    exists H. unfold cells. by rewrite Hc.
  - pose proof (fst_filter (fun id => negb (bool_decide (id ∈ dead_ids))) vl) as E1.
    eapply (eq_ind_r NoDup); [|exact E1].
    apply NoDup_ListNoDup, List.NoDup_filter. by apply NoDup_ListNoDup.
Qed.

(** ** The slots by id *)

(** [byID] has exactly the ids of the live entities, each with a slot whose
    cell holds the entity. *)
Definition index_by_id heap s (vl : list (Z * goval)) (m : gmap Z slotRef) : Prop :=
  (forall id, id ∈ vl.*1 -> is_Some (m !! id)) /\
  forall id r, m !! id = Some r ->
    exists slot v, slot_at s r = Some slot /\ (item slot, v) ∈ contents heap s /\ GetId v = id.

Lemma block_refs_items c (ch : list resourceSlot) (tb : list bool) cs s k :
  length ch = length tb -> chunks s !! c = Some (cs ++ ch) -> length cs = k ->
  (fun r => item <$> slot_at s r) <$> omap (fun p => if p.2 : bool then None else Some (c, p.1)) (zip (seq k (length tb)) tb) =
  Some <$> (item <$> live_slots ch tb).
Proof.
  revert ch cs k. induction tb as [|b tb IH]; intros [|slot ch] cs k Hl Hc Hk; try done. cbn in Hl.
  assert (chunks s !! c = Some ((cs ++ [slot]) ++ ch)) as Hc' by (by rewrite <- app_assoc).
  specialize (IH ch (cs ++ [slot]) (S k) ltac:(lia) Hc'). rewrite length_app in IH. cbn in IH. specialize (IH ltac:(lia)).
  unfold live_slots in *. cbn. destruct b; cbn; [exact IH|].
  assert (slot_at s (c, k) = Some slot) as ->.
  { unfold slot_at. cbn. rewrite Hc. cbn. rewrite lookup_app_r, <- Hk, Nat.sub_diag by lia. done. }
  cbn. f_equal. exact IH.
Qed.

Lemma rangeResources_items heap s :
  store_wf heap s -> (fun r => item <$> slot_at s r) <$> rangeResources s = Some <$> Range s.
Proof.
  intros Hwf. unfold rangeResources, Range.
  assert (forall cs tbs k, Forall2 (fun ch tb => length ch = length tb) cs tbs ->
    (forall i ch, cs !! i = Some ch -> chunks s !! (k + i) = Some ch) ->
    (fun r => item <$> slot_at s r) <$> concat (zip_with block_refs (seq k (length tbs)) tbs) =
    Some <$> (item <$> concat (zip_with live_slots cs tbs))) as H.
  { intros cs tbs k Hall. revert k. induction Hall as [|ch tb cs tbs Hl Hall IH]; intros k Hk; [done|].
    cbn. rewrite !fmap_app. f_equal.
    - apply (block_refs_items k ch tb []); [done| |done]. specialize (Hk 0 ch eq_refl). by rewrite Nat.add_0_r in Hk.
    - apply IH. intros i ch' Hi. specialize (Hk (S i) ch' Hi). by rewrite Nat.add_succ_r in Hk. }
  apply H; [apply Hwf|done].
Qed.

Lemma ids_of_spec heap s vl : holds heap s vl -> index_by_id heap s vl (ids_of GetId heap s).
Proof.
  intros Hh. pose proof (rangeResources_items heap s (holds_wf _ _ _ Hh)) as HR. unfold ids_of.
  assert (forall (refs : list slotRef) (ls : list loc), (fun r => item <$> slot_at s r) <$> refs = Some <$> ls -> (forall l, l ∈ ls -> l ∈ Range s) ->
    forall m : gmap Z slotRef, (forall id r, m !! id = Some r -> exists slot v, slot_at s r = Some slot /\ (item slot, v) ∈ contents heap s /\ GetId v = id) ->
    let m' := foldl (fun m r => <[GetId (slot_value heap s r) := r]> m) m refs in
    (forall id, is_Some (m !! id) -> is_Some (m' !! id)) /\
    (forall l v, l ∈ ls -> (l, v) ∈ contents heap s -> is_Some (m' !! GetId v)) /\
    (forall id r, m' !! id = Some r -> exists slot v, slot_at s r = Some slot /\ (item slot, v) ∈ contents heap s /\ GetId v = id)) as H.
  { induction refs as [|r refs IH]; intros [|l ls] E Hin m Hm; try done.
    { cbn. split_and!; [done| |done]. by intros l v ?%elem_of_nil. }
    cbn in E. injection E as E1 E2. destruct (slot_at s r) as [slot|] eqn:Es; [|done]. cbn in E1. injection E1 as <-.
    destruct (Range_alloc _ _ _ (holds_wf _ _ _ Hh) (Hin (item slot) ltac:(left))) as [v Hv].
    assert (slot_value heap s r = v) as Esv by (unfold slot_value; rewrite Es; cbn; by rewrite Hv).
    assert ((item slot, v) ∈ contents heap s) as Hc by (apply elem_of_contents; split; [apply Hin; left|done]).
    cbn. rewrite Esv. destruct (IH ls E2 ltac:(intros; apply Hin; by right) (<[GetId v := r]> m)) as (H1 & H2 & H3).
    - intros id r0. rewrite lookup_insert_Some. intros [[<- <-]|[_ Hr0]]; [by exists slot, v|by apply Hm].
    - split_and!; [|intros l w [->|Hl]%elem_of_cons Hw|done].
      + intros id Hid. apply H1. apply lookup_insert_is_Some'. by right.
      + apply H1. assert (w = v) as -> by (apply elem_of_contents in Hw as [_ Hw]; congruence). rewrite lookup_insert_eq. by eexists.
      + by eapply H2. }
  destruct (H _ _ HR (fun l Hl => Hl) ∅) as (_ & H2 & H3); [by intros id r ?%lookup_empty_Some|].
  split; [|exact H3]. intros id Hid. destruct (holds_cell _ _ _ _ Hh Hid) as (l & v & Hc & <-).
  apply (H2 l v); [|done]. by apply elem_of_contents in Hc as [? _].
Qed.

(** ** The loop *)

(** The table a recovery state describes: the rows of the store without the
    ids to be deleted. *)
Definition view_of (vl : list (Z * goval)) (dead_ids : gset Z) : gmap Z goval :=
  list_to_map (List.filter (fun q => negb (bool_decide (q.1 ∈ dead_ids))) vl).

Lemma lookup_view vl dead_ids id :
  NoDup vl.*1 -> view_of vl dead_ids !! id = if bool_decide (id ∈ dead_ids) then None else (list_to_map vl : gmap Z goval) !! id.
Proof.
  unfold view_of. induction vl as [|q vl IH]; intros Hnd.
  { cbn. rewrite !lookup_empty. by case_bool_decide. }
  cbn in Hnd. apply NoDup_cons in Hnd as [Hq Hnd]. specialize (IH Hnd). cbn.
  destruct (bool_decide_reflect (q.1 ∈ dead_ids)) as [Hin|Hin]; cbn.
  - rewrite IH. case_bool_decide as Hd; [done|]. rewrite lookup_insert_ne; [done|]. congruence.
  - destruct (decide (q.1 = id)) as [<-|Hne].
    + rewrite !lookup_insert_eq. by rewrite bool_decide_false.
    + rewrite !lookup_insert_ne by done. exact IH.
Qed.

Lemma lookup_put id row (vl : list (Z * goval)) id' :
  (list_to_map (put_row id row <$> vl) : gmap Z goval) !! id' =
  if decide (id' = id) then (if decide (id ∈ vl.*1) then Some row else None) else (list_to_map vl : gmap Z goval) !! id'.
Proof.
  induction vl as [|q vl IH]; cbn.
  { rewrite lookup_empty. case_decide; [|done]. case_decide; [|done]. set_solver. }
  unfold put_row at 1 2. destruct (decide (q.1 = id)) as [E|E]; cbn.
  - destruct (decide (id' = id)) as [->|Hne].
    + rewrite lookup_insert_eq. rewrite decide_True; [done|]. rewrite <- E. left.
    + rewrite lookup_insert_ne by done. rewrite IH. rewrite lookup_insert_ne; [done|]. congruence.
  - destruct (decide (id' = q.1)) as [->|Hne].
    + rewrite lookup_insert_eq, decide_False, lookup_insert_eq by done. done.
    + rewrite !lookup_insert_ne by done. rewrite IH. case_decide as Hd; [|done].
      destruct (decide (id ∈ vl.*1)); [rewrite decide_True; [done|by right]|].
      rewrite decide_False; [done|]. rewrite not_elem_of_cons. split; [congruence|done].
Qed.

Definition state_ok (st : recovery) (view : gmap Z goval) : Prop :=
  exists vl, holds (rv_heap st) (rv_store st) vl /\ index_by_id (rv_heap st) (rv_store st) vl (byID st) /\
    view_of vl (rv_deleted st) = view.

Lemma contents_cells_fresh heap s l : store_wf heap s -> heap !! l = None -> l ∉ cells s.
Proof.
  intros Hwf Hl (slot & -> & Hin)%list_elem_of_fmap. pose proof (wf_alloc _ _ Hwf) as Ha. rewrite Forall_forall in Ha.
  destruct (Ha _ Hin). congruence.
Qed.

(** The row of a recovered entity persists in the store it is put into. *)
Lemma inflated_persists heap s row heap0 e :
  store_wf heap s -> entity_ok types heap0 t e -> normalizeToSchema types heap0 t e = Ok row ->
  exists heap' e', inflateSlice types heap t [row] = Ok (heap', [e']) /\ heap ⊆ heap' /\ persists heap' s e' row.
Proof.
  intros Hwf He Hn. destruct (row_inflates types t heap0 e row heap He Hn) as (heap' & e' & E & Hsub & H).
  exists heap', e'. split_and!; [done|done|]. exists (heap' ∖ heap). split; [apply heap_difference_sub|]. split; [|done].
  intros l [x [_ Hl]%lookup_difference_Some]. by eapply contents_cells_fresh.
Qed.

Lemma view_put vl id row dead_ids :
  NoDup vl.*1 -> id ∈ vl.*1 ->
  view_of (put_row id row <$> vl) (dead_ids ∖ {[id]}) = <[id := row]> (view_of vl dead_ids).
Proof.
  intros Hnd Hin. apply map_eq. intros id'. rewrite lookup_view by (by rewrite put_row_ids). rewrite lookup_put.
  destruct (decide (id' = id)) as [->|Hne].
  - rewrite bool_decide_false by set_solver. by rewrite decide_True, lookup_insert_eq.
  - rewrite lookup_insert_ne, lookup_view by done. by rewrite (bool_decide_ext _ (id' ∈ dead_ids)) by set_solver.
Qed.

Lemma view_append vl id row dead_ids :
  NoDup vl.*1 -> id ∉ vl.*1 ->
  view_of (vl ++ [(id, row)]) (dead_ids ∖ {[id]}) = <[id := row]> (view_of vl dead_ids).
Proof.
  intros Hnd Hin. assert (NoDup (vl ++ [(id, row)]).*1) as Hnd'.
  { rewrite fmap_app. apply NoDup_app. split_and!; [done| |cbn; repeat constructor; set_solver]. cbn. set_solver. }
  apply map_eq. intros id'. rewrite lookup_view by done. rewrite list_to_map_app, lookup_union. cbn.
  destruct (decide (id' = id)) as [->|Hne].
  - rewrite bool_decide_false by set_solver. rewrite not_elem_of_list_to_map_1 by done. by rewrite !lookup_insert_eq.
  - rewrite !lookup_insert_ne, lookup_empty by done. rewrite (right_id_L None _), lookup_view by done.
    by rewrite (bool_decide_ext _ (id' ∈ dead_ids)) by set_solver.
Qed.

Lemma applyRow_step st view rr :
  state_ok st view -> row_ok rr ->
  exists st', applyRow types GetId t st rr = Ok st' /\ state_ok st' (replay_row view rr).
Proof.
  intros (vl & Hh & Hb & Hv) Hrr. unfold applyRow, replay_row. destruct Hrr as [Hd|(Hd & row & Hrow & heap0 & e & He & Hn & Hget)]; rewrite Hd.
  { eexists. split; [done|]. exists vl. split_and!; [done|done|]. cbn. rewrite <- Hv. apply map_eq. intros id.
    rewrite lookup_view by apply Hh. destruct (decide (id = rec_id rr)) as [->|Hne].
    - rewrite lookup_delete_eq. by rewrite bool_decide_true by set_solver.
    - rewrite lookup_delete_ne, lookup_view by (done || apply Hh). by rewrite (bool_decide_ext _ (id ∈ rv_deleted st)) by set_solver. }
  rewrite Hrow. destruct (inflated_persists (rv_heap st) (rv_store st) row heap0 e (holds_wf _ _ _ Hh) He Hn) as (heap' & v & E & Hsub & Hp).
  rewrite E. cbn. pose proof (Hget _ _ _ E) as Hid. rewrite Hid, Z.eqb_refl. cbn.
  pose proof (holds_grow _ _ _ _ Hsub Hh) as Hh'. pose proof (contents_mono _ _ _ (holds_wf _ _ _ Hh) Hsub) as Hc.
  destruct Hb as [Hb1 Hb2]. rewrite <- Hid in *. destruct (byID st !! GetId v) as [r|] eqn:Er.
  - destruct (Hb2 _ _ Er) as (slot & w & Hs & Hin & Hw). rewrite <- Hc in Hin.
    pose proof (overwrite_holds heap' (rv_store st) vl r slot w v row Hh' Hs Hin Hw Hp) as Ho.
    assert (GetId v ∈ vl.*1) as Hvl by (rewrite <- Hw; by eapply holds_id).
    assert (forall l u, (l, u) ∈ contents heap' (rv_store st) ->
      exists u', (l, u') ∈ contents (overwrite heap' (rv_store st) r v).1 (overwrite heap' (rv_store st) r v).2 /\ GetId u' = GetId u) as Hkeep.
    { intros l u [HR Hu]%elem_of_contents. unfold overwrite. rewrite Hs. cbn [fst snd].
      destruct (decide (l = item slot)) as [->|Hne].
      - exists v. split; [apply elem_of_contents; split; [done|by rewrite lookup_insert_eq]|].
        apply elem_of_contents in Hin as [_ Hin]. congruence.
      - exists u. split; [|done]. apply elem_of_contents. split; [done|]. by rewrite lookup_insert_ne. }
    assert (forall r0, slot_at (overwrite heap' (rv_store st) r v).2 r0 = slot_at (rv_store st) r0) as Hslot
      by (intros; unfold overwrite; by rewrite Hs).
    destruct (overwrite heap' (rv_store st) r v) as [heap2 s2] eqn:Eo. eexists. split; [done|].
    exists (put_row (GetId v) row <$> vl). cbn [fst snd] in *. split_and!; [done| |].
    + split; cbn; [by rewrite put_row_ids|]. intros id r0 Hr0. destruct (Hb2 _ _ Hr0) as (slot0 & u & Hs0 & Hu & Hid0).
      rewrite <- Hc in Hu. destruct (Hkeep _ _ Hu) as (u' & Hu' & Hid'). exists slot0, u'. rewrite Hslot. split_and!; [done|done|congruence].
    + cbn. rewrite <- Hv. by apply view_put; [apply Hh|].
  - assert (GetId v ∉ vl.*1) as Hvl by (intros Hin; destruct (Hb1 _ Hin); congruence).
    destruct (Append heap' (rv_store st) v) as [[heap2 s2] r] eqn:Ea.
    destruct (append_holds _ _ _ _ _ _ _ _ Hh' Hp Hvl Ea) as (Hh2 & (slot & Hs & Hin) & Hk & Hcont).
    eexists. split; [done|]. exists (vl ++ [(GetId v, row)]). cbn. split_and!; [done| |].
    + split; cbn.
      * intros id. rewrite fmap_app, elem_of_app. intros [Hid'|Hid']; [apply lookup_insert_is_Some'; right; by apply Hb1|].
        cbn in Hid'. apply list_elem_of_singleton in Hid' as ->. rewrite lookup_insert_eq. by eexists.
      * intros id r0. rewrite lookup_insert_Some. intros [[<- <-]|[_ Hr0]]; [by exists slot, v|].
        destruct (Hb2 _ _ Hr0) as (slot0 & u & Hs0 & Hu & Hid0). exists slot0, u. rewrite <- Hc in Hu. split_and!; auto.
    + rewrite <- Hv. by apply view_append; [apply Hh|].
Qed.

Lemma applyRows_loop rows st view :
  state_ok st view -> Forall row_ok rows ->
  exists st', fold_outcome (applyRow types GetId t) st rows = Ok st' /\ state_ok st' (foldl replay_row view rows).
Proof.
  intros Hst Hall. revert st view Hst. induction Hall as [|rr rows Hrr _ IH]; intros st view Hst; [by exists st|].
  destruct (applyRow_step _ _ _ Hst Hrr) as (st' & E & Hst'). cbn. rewrite E. by apply IH.
Qed.

Lemma recovered heap s vl rows :
  holds heap s vl -> Forall row_ok rows ->
  exists heap' s' vl', applyRecoveredRows types GetId t heap s rows = Ok (heap', s') /\ holds heap' s' vl' /\
    (list_to_map vl' : gmap Z goval) = foldl replay_row (list_to_map vl) rows.
Proof.
  intros Hh Hall.
  destruct (applyRows_loop rows {| rv_heap := heap; rv_store := s; byID := ids_of GetId heap s; rv_deleted := ∅ |} (list_to_map vl))
    as (st' & E & vl' & Hh' & _ & Hv); [|done|].
  { exists vl. split_and!; [done|by apply ids_of_spec|]. cbn. unfold view_of. f_equal.
    apply forallb_filter_id, forallb_forall. intros q _. by rewrite bool_decide_false by set_solver. }
  unfold applyRecoveredRows. rewrite E. cbn. case_bool_decide as Hd.
  - exists (rv_heap st'), (rv_store st'), vl'. split_and!; [done|done|]. rewrite <- Hv. unfold view_of. rewrite Hd. f_equal.
    symmetry. apply forallb_filter_id, forallb_forall. intros q _. by rewrite bool_decide_false by set_solver.
  - eexists _, _, _. split_and!; [done|by apply delete_holds|done].
Qed.
End recovery.
