(* ===== verification/Persistence.v ===== *)
(** * What a save leaves on disk and what loading makes of it

    The theorems over the file half of [Storage]: chunk files are replaced
    atomically, the directory listing is read back in block order, and a
    store that is saved and loaded again holds the same rows. *)
From Stdlib Require Import Ascii.
From S2P Require Import Prelude GoBytes WalFrame GoReflect RowCodec WalLog ChunkStore RelationSchema SchemaRows IndexSpecs Storage Recovery.

(** ** Decimal file names *)

Lemma digit_dec d : (0 <= d <= 9)%Z -> digit (dec_digit d) = Some d /\ dec_digit d <> "-"%char /\ dec_digit d <> "+"%char.
Proof.
  intros H. assert (d = 0 \/ d = 1 \/ d = 2 \/ d = 3 \/ d = 4 \/ d = 5 \/ d = 6 \/ d = 7 \/ d = 8 \/ d = 9)%Z as Hd by lia.
  repeat destruct Hd as [->|Hd]; [by vm_compute..|]. subst d. by vm_compute.
Qed.

Lemma dec_loop_spec fuel n tail :
  (0 <= n < 10 ^ Z.of_nat fuel)%Z -> fuel <> 0 ->
  (exists k, forall acc, digits acc (dec_loop fuel n tail) = digits (acc * k + n)%Z tail) /\
  exists d rest, dec_loop fuel n tail = String (dec_digit d) rest /\ (0 <= d <= 9)%Z.
Proof.
  revert n tail. induction fuel as [|fuel IH]; intros n tail Hn Hf; [done|]. cbn [dec_loop].
  pose proof (Z.mod_pos_bound n 10 ltac:(lia)) as Hm. pose proof (Z.div_mod n 10 ltac:(lia)) as Hdm.
  assert (forall acc, digits acc (String (dec_digit (n mod 10)) tail) = digits (10 * acc + n mod 10)%Z tail) as Hstep.
  { intros acc. cbn. destruct (digit_dec (n mod 10)) as [-> _]; [lia|done]. }
  destruct (Z.eqb_spec (n / 10) 0) as [E|E].
  - split; [|exists (n mod 10)%Z, tail; split; [done|lia]]. exists 10%Z. intros acc. rewrite Hstep. f_equal. lia.
  - assert (fuel <> 0) as Hf'.
    { intros ->. change (10 ^ Z.of_nat 1)%Z with 10%Z in Hn. apply E. apply Z.div_small. lia. }
    destruct (IH (n / 10)%Z (String (dec_digit (n mod 10)) tail)) as [[k Hk] Hd]; [|done|].
    { rewrite Nat2Z.inj_succ, Z.pow_succ_r in Hn by lia. split; [apply Z.div_pos; lia|]. apply Z.div_lt_upper_bound; lia. }
    split; [|exact Hd]. exists (10 * k)%Z. intros acc. rewrite Hk, Hstep. f_equal. lia.
Qed.

Lemma Atoi_itoa n : (0 <= n < 2 ^ 63)%Z -> Atoi (itoa n) = Some n.
Proof.
  intros Hn. destruct (dec_loop_spec 20 n EmptyString) as [[k Hk] (d & rest & E & Hd)]; [lia|done|].
  unfold Atoi, itoa. specialize (Hk 0%Z). rewrite E in Hk |- *.
  destruct (digit_dec d Hd) as (_ & H1 & H2).
  assert (match String (dec_digit d) rest with
          | String "-" rest' => Z.opp <$> unsigned_digits rest' | String "+" rest' => unsigned_digits rest'
          | _ => unsigned_digits (String (dec_digit d) rest) end = unsigned_digits (String (dec_digit d) rest)) as ->.
  { destruct (dec_digit d) as [[] [] [] [] [] [] [] []]; try done; first [by destruct H1|by destruct H2]. }
  unfold unsigned_digits. rewrite Hk. cbn. rewrite !bool_decide_true by lia. done.
Qed.

Lemma append_length a b : String.length (a +:+ b) = String.length a + String.length b.
Proof. induction a as [|c a IH]; [done|]. change (String c a +:+ b) with (String c (a +:+ b)). cbn. by rewrite IH. Qed.

Lemma strip_suffix_app suffix s : strip_suffix suffix (s +:+ suffix) = Some s.
Proof.
  induction s as [|c s IH]; [change ("" +:+ suffix) with suffix; destruct suffix; cbn; by rewrite decide_True|].
  change (String c s +:+ suffix) with (String c (s +:+ suffix)). cbn. rewrite decide_False.
  - by rewrite IH.
  - intros E. apply (f_equal String.length) in E. cbn in E. rewrite append_length in E. lia.
Qed.

Lemma strip_suffix_Some suffix s x : strip_suffix suffix s = Some x -> s = x +:+ suffix.
Proof.
  revert x. induction s as [|c s IH]; intros x; cbn.
  - case_decide as E; [|done]. intros [= <-]. by rewrite <- E.
  - case_decide as E; [intros [= <-]; by rewrite <- E|]. intros (y & Hy & ->)%fmap_Some. by rewrite (IH y Hy) at 1.
Qed.

Lemma append_last a b c : exists x, a +:+ String c b = x +:+ String c b.
Proof. by exists a. Qed.

(** The listing of the chunk directory. *)
Definition file_entry (p : string * list byte) : dirEntry :=
  {| de_name := p.1; de_isdir := false; de_file := ReadUpTo p.2 |}.
Definition listing (files : disk) : list dirEntry := file_entry <$> map_to_list files.

Definition chunk_index (name : string) : option Z := stem ← strip_suffix ".gob" name; Atoi stem.

Lemma chunkEntry_file p : chunkEntry (file_entry p) = (fun idx => (idx, file_entry p)) <$> chunk_index p.1.
Proof. unfold chunkEntry, chunk_index. cbn. by destruct (strip_suffix ".gob" p.1). Qed.

Lemma chunk_index_file ci : (0 <= ci < 2 ^ 63)%Z -> chunk_index (chunk_file ci) = Some ci.
Proof. intros H. unfold chunk_index, chunk_file. rewrite strip_suffix_app. cbn. by apply Atoi_itoa. Qed.

Lemma chunk_file_inj a b : (0 <= a < 2 ^ 63)%Z -> (0 <= b < 2 ^ 63)%Z -> chunk_file a = chunk_file b -> a = b.
Proof. intros Ha Hb E. apply (f_equal chunk_index) in E. rewrite !chunk_index_file in E by done. by injection E. Qed.

Lemma list_ascii_append a b : String.list_ascii_of_string (a +:+ b) = String.list_ascii_of_string a ++ String.list_ascii_of_string b.
Proof. induction a as [|c a IH]; [done|]. change (String c a +:+ b) with (String c (a +:+ b)). cbn. by rewrite IH. Qed.

(** A temporary file is never taken for a chunk. *)
Lemma chunk_index_tmp ci : chunk_index (tmp_file ci) = None.
Proof.
  unfold chunk_index, tmp_file. destruct (strip_suffix ".gob" (chunk_file ci +:+ ".tmp")) as [x|] eqn:E; [|done].
  apply strip_suffix_Some, (f_equal (fun s => last (String.list_ascii_of_string s))) in E.
  rewrite !list_ascii_append in E. change (String.list_ascii_of_string ".tmp") with (String.list_ascii_of_string ".tm" ++ ["p"%char]) in E.
  change (String.list_ascii_of_string ".gob") with (String.list_ascii_of_string ".go" ++ ["b"%char]) in E.
  rewrite !app_assoc, !last_snoc in E. done.
Qed.

Lemma tmp_not_chunk ci cj : tmp_file ci <> chunk_file cj.
Proof.
  intros E. pose proof (strip_suffix_app ".gob" (itoa cj)) as H. fold (chunk_file cj) in H. rewrite <- E in H.
  unfold tmp_file in H. apply strip_suffix_Some, (f_equal (fun s => last (String.list_ascii_of_string s))) in H.
  rewrite !list_ascii_append in H. change (String.list_ascii_of_string ".tmp") with (String.list_ascii_of_string ".tm" ++ ["p"%char]) in H.
  change (String.list_ascii_of_string ".gob") with (String.list_ascii_of_string ".go" ++ ["b"%char]) in H.
  rewrite !app_assoc, !last_snoc in H. done.
Qed.

(** ** Listing the chunks in block order *)

(** The directory holds the chunks [0 .. n-1] and no other chunk file. *)
Definition chunks_listed (files : disk) (n : nat) : Prop :=
  (forall ci, ci < n -> is_Some (files !! chunk_file (Z.of_nat ci))) /\
  (forall name idx, is_Some (files !! name) -> chunk_index name = Some idx ->
    exists ci, ci < n /\ idx = Z.of_nat ci /\ name = chunk_file idx).

Definition chunk_entries (files : disk) (n : nat) : list dirEntry :=
  (fun ci => file_entry (chunk_file (Z.of_nat ci), default [] (files !! chunk_file (Z.of_nat ci)))) <$> seq 0 n.

Lemma listing_chunks files n :
  (Z.of_nat n <= 2 ^ 63)%Z -> chunks_listed files n ->
  omap chunkEntry (listing files) ≡ₚ (fun ci => (Z.of_nat ci, file_entry (chunk_file (Z.of_nat ci), default [] (files !! chunk_file (Z.of_nat ci))))) <$> seq 0 n.
Proof.
  intros Hn [H1 H2]. apply NoDup_Permutation.
  - set (g := fun p : string * list byte => (fun idx => (idx, file_entry p)) <$> chunk_index p.1).
    assert (omap chunkEntry (listing files) = omap g (map_to_list files)) as ->.
    { unfold listing. induction (map_to_list files) as [|p l IH]; [done|]. rewrite fmap_cons. cbn [omap list_omap].
      by rewrite chunkEntry_file, IH. }
    assert (forall l : list (string * list byte), NoDup l.*1 -> NoDup (omap g l)) as Ho; [|apply Ho, NoDup_fst_map_to_list].
    induction l as [|p l IH]; intros Hl; [constructor|]. cbn in Hl. apply NoDup_cons in Hl as [Hp Hl]. cbn [omap list_omap].
    destruct (g p) as [[idx e]|] eqn:Eg; [|by apply IH]. apply NoDup_cons. split; [|by apply IH].
    intros (q & Hq & E)%list_elem_of_omap. unfold g in Eg, E. apply fmap_Some in Eg as (i & _ & [= _ ->]), E as (j & _ & [= _ E]).
    apply Hp. rewrite E. by apply list_elem_of_fmap_2.
  - apply NoDup_fmap_2_strong; [|apply NoDup_seq]. intros a b _ _ E. injection E as E _. lia.
  - intros [idx e]. rewrite list_elem_of_omap, list_elem_of_fmap. split.
    + intros (e' & He' & E). unfold listing in He'. apply list_elem_of_fmap in He' as ([name bs] & -> & Hin).
      apply elem_of_map_to_list in Hin. rewrite chunkEntry_file in E. cbn [fst] in E.
      destruct (chunk_index name) as [idx'|] eqn:Ei; [|done]. cbn in E. injection E as -> <-.
      destruct (H2 name idx) as (ci & Hci & -> & ->); [by eexists|done|]. exists ci. rewrite Hin. cbn. split; [done|].
      apply elem_of_seq. lia.
    + intros (ci & E & Hci). apply elem_of_seq in Hci. injection E as -> ->. destruct (H1 ci ltac:(lia)) as [bs Hbs].
      exists (file_entry (chunk_file (Z.of_nat ci), bs)). split.
      * unfold listing. apply list_elem_of_fmap_2. by apply elem_of_map_to_list.
      * rewrite chunkEntry_file. cbn [fst]. rewrite chunk_index_file by lia. cbn. by rewrite Hbs.
Qed.

#[export] Instance entry_order : GoOrder (fun a b : Z * dirEntry => cmp_compare a.1 b.1).
Proof. apply (on_order (fun a : Z * dirEntry => a.1) cmp_compare). Qed.

Lemma sorted_chunks files n :
  (Z.of_nat n <= 2 ^ 63)%Z -> chunks_listed files n -> sortedChunkFiles (Ok (listing files)) = Ok (chunk_entries files n).
Proof.
  intros Hn Hl. unfold sortedChunkFiles, chunk_entries. cbn. f_equal.
  set (target := (fun ci => (Z.of_nat ci, file_entry (chunk_file (Z.of_nat ci), default [] (files !! chunk_file (Z.of_nat ci))))) <$> seq 0 n).
  assert (SortFunc (fun a b => cmp_compare a.1 b.1) (omap chunkEntry (listing files)) = target) as ->.
  { apply (sorted_unique (fun a b : Z * dirEntry => cmp_compare a.1 b.1)).
    - intros a b Ha Hb E. rewrite SortFunc_perm, (listing_chunks files n Hn Hl) in Ha, Hb. fold target in Ha, Hb.
      apply list_elem_of_fmap in Ha as (i & -> & _), Hb as (j & -> & _). apply (cmp_compare_spec (Z.of_nat i) (Z.of_nat j)) in E.
      assert (i = j) as -> by lia. done.
    - apply SortFunc_sorted. apply _.
    - assert (forall k m, StronglySorted (fun a b : Z * dirEntry => (cmp_compare a.1 b.1 <= 0)%Z)
        ((fun ci => (Z.of_nat ci, file_entry (chunk_file (Z.of_nat ci), default [] (files !! chunk_file (Z.of_nat ci))))) <$> seq k m)) as Hs.
      { intros k m. revert k. induction m as [|m IH]; intros k; cbn; [constructor|]. constructor; [apply IH|].
        apply Forall_forall. intros b (j & -> & Hj)%list_elem_of_fmap. apply elem_of_seq in Hj. cbn.
        unfold cmp_compare. destruct (Z.compare_spec (Z.of_nat k) (Z.of_nat j)); lia. }
      apply Hs.
    - rewrite SortFunc_perm. by apply listing_chunks. }
  unfold target. rewrite <- list_fmap_compose. done.
Qed.

(** ** Saving *)

Section saving.
Context (types : typeEnv) (GetId : goval -> Z) (t : string).
Context (gob_encode_rows : structDef -> list goval -> outcome (list byte))
        (gob_decode_rows : structDef -> list byte -> outcome (list goval))
        (gob_decode : gotype -> list byte -> outcome goval).
Implicit Types (heap : val_heap) (s : chunkStore) (files : disk) (row : structDef).

(** The file of block [ci] holds the rows of the block. *)
Definition on_disk row heap s files (ci : Z) : Prop :=
  exists rows b, chunkRows types t heap s ci = Ok rows /\ gob_encode_rows row rows = Ok b /\ files !! chunk_file ci = Some b.

Lemma saveChunk_files row env heap s files ci :
  let '(files', r) := saveChunk types gob_encode_rows t row env heap s files ci in
  (forall name, name <> tmp_file ci -> name <> chunk_file ci -> files' !! name = files !! name) /\
  (files' !! chunk_file ci = files !! chunk_file ci \/ on_disk row heap s files' ci) /\
  (r = Ok tt -> on_disk row heap s files' ci).
Proof.
  pose proof (tmp_not_chunk ci ci) as Hne.
  assert (forall b, (forall name, name <> tmp_file ci -> name <> chunk_file ci ->
      remove_tmp env (<[tmp_file ci := b]> files) ci !! name = files !! name) /\
    (remove_tmp env (<[tmp_file ci := b]> files) ci !! chunk_file ci = files !! chunk_file ci)) as Hrm.
  { intros b. unfold remove_tmp. destruct (ce_remove_fails env); split; intros;
      rewrite ?lookup_delete_ne, ?lookup_insert_ne by congruence; done. }
  unfold saveChunk, on_disk. destruct (chunkRows types t heap s ci) as [rows|e|]; [|by split_and!; [done|by left|done]..].
  destruct (ce_create env); [by split_and!; [done|by left|done]|]. destruct (gob_encode_rows row rows) as [b|e|] eqn:Eb.
  2: { destruct (Hrm (ce_partial env)). by split_and!; [done|by left|done]. }
  2: { split_and!; [|left|done]; intros; rewrite lookup_insert_ne by congruence; done. }
  destruct (ce_sync env); [destruct (Hrm (ce_partial env)); by split_and!; [done|by left|done]|].
  destruct (ce_close env); [destruct (Hrm b); by split_and!; [done|by left|done]|].
  destruct (ce_rename env); [destruct (Hrm b); by split_and!; [done|by left|done]|].
  assert (delete (tmp_file ci) (<[chunk_file ci := b]> files) !! chunk_file ci = Some b) as Hb
    by (rewrite lookup_delete_ne, lookup_insert_eq by done; done).
  split_and!; [|right|intros _]; [|by exists rows, b..].
  intros name H1 H2. by rewrite lookup_delete_ne, lookup_insert_ne by congruence.
Qed.

Lemma on_disk_keep row heap s files files' ci :
  files' !! chunk_file ci = files !! chunk_file ci -> on_disk row heap s files ci -> on_disk row heap s files' ci.
Proof. intros E (rows & b & H1 & H2 & H3). exists rows, b. by rewrite E. Qed.

Lemma saveChunks_files row env heap s idxs files :
  NoDup idxs -> Forall (fun ci => (0 <= ci < 2 ^ 63)%Z) idxs ->
  let '(files', r) := saveChunks types gob_encode_rows t row env heap s files idxs in
  (forall name, (forall ci, ci ∈ idxs -> name <> tmp_file ci /\ name <> chunk_file ci) -> files' !! name = files !! name) /\
  (r = Ok tt -> Forall (on_disk row heap s files') idxs).
Proof.
  revert files. induction idxs as [|ci idxs IH]; intros files Hnd Hr; [done|].
  apply NoDup_cons in Hnd as [Hci Hnd]. apply Forall_cons in Hr as [Hr0 Hr]. cbn.
  pose proof (saveChunk_files row (env ci) heap s files ci) as H1.
  destruct (saveChunk types gob_encode_rows t row (env ci) heap s files ci) as [files1 r1]. destruct H1 as (H1 & _ & H2).
  specialize (IH files1 Hnd Hr). destruct (saveChunks types gob_encode_rows t row env heap s files1 idxs) as [files2 r2].
  destruct IH as [H3 H4]. split.
  - intros name Hn. rewrite H3 by (intros; apply Hn; by right). destruct (Hn ci ltac:(left)). by apply H1.
  - intros Hok. destruct r1 as [[]|e|]; [|by destruct r2|done]. constructor; [|by apply H4].
    eapply on_disk_keep; [|by apply H2]. apply H3. intros cj Hcj. split; [apply not_eq_sym, tmp_not_chunk|].
    intros E. apply chunk_file_inj in E as ->; [done|done|]. rewrite Forall_forall in Hr. by apply Hr.
Qed.
End saving.

(** ** Loading *)

Section loading.
Context (types : typeEnv) (GetId : goval -> Z) (t : string).
Context (d : structDef) (Hd : types !! t = Some d) (Hdef : def_ok d) (Hfields : fields d <> []).
Implicit Types (heap : val_heap) (s : chunkStore) (files : disk).

(** The entity [v] persists as [row] in any heap that extends [base]. *)
Definition pers (base : val_heap) (v row : goval) : Prop :=
  (forall heap', base ⊆ heap' -> normalizeToSchema types heap' t v = Ok row) /\
  (forall d, types !! t = Some d -> length (struct_fields v) = length (fields d)).

Lemma pers_mono base base' v row : base ⊆ base' -> pers base v row -> pers base' v row.
Proof. intros Hsub [H1 H2]. split; [|done]. intros heap' Hsub'. apply H1. by transitivity base'. Qed.

Lemma inflateSlice_cons heap row rows :
  inflateSlice types heap t (row :: rows) =
  (p ← inflateSlice types heap t [row]; q ← inflateSlice types p.1 t rows; Ok (q.1, p.2 ++ q.2)).
Proof.
  unfold inflateSlice. destruct (specsByField types t) as [sp| |]; cbn; [|done..]. rewrite Hd.
  destruct (schemaFor types t) as [sch| |]; cbn; [|done..].
  destruct (inflateRow types d sp sch heap row) as [[h e]| |]; cbn; [|done..].
  destruct (inflateRows types d sp sch h rows) as [[h' es]| |]; cbn; done.
Qed.

Lemma inflate_many vq heap sp sch :
  specsByField types t = Ok sp ->
  schemaFor types t = Ok sch -> Forall (fun q : Z * goval => row_of types GetId t q.1 q.2) vq ->
  exists heap' vs, inflateSlice types heap t vq.*2 = Ok (heap', vs) /\ heap ⊆ heap' /\
    Forall2 (fun v q => GetId v = q.1 /\ pers heap' v q.2) vs vq.
Proof.
  intros Hsp Hsch Hall. revert heap. induction Hall as [|[id row] vq (heap0 & e & He & Hn & Hid) _ IH]; intros heap.
  { exists heap, []. split_and!; [|done|constructor]. unfold inflateSlice. cbn. rewrite Hsp. cbn. by rewrite Hd, Hsch. }
  destruct (row_inflates types t heap0 e row heap He Hn) as (heap1 & v & E & Hsub & Hp).
  destruct (IH heap1) as (heap2 & vs & E2 & Hsub2 & Hvs).
  exists heap2, (v :: vs). cbn [fmap list_fmap snd]. rewrite inflateSlice_cons, E. cbn. rewrite E2. cbn.
  split_and!; [done|by transitivity heap1|]. constructor; [|done]. cbn in *. split; [by eapply Hid|].
  destruct Hp as [Hp1 Hp2]. split; [|done]. intros heap' Hsub'. apply Hp1.
  transitivity heap1; [apply heap_difference_sub|by transitivity heap2].
Qed.

(** The store while chunks are loaded into it: every entity persists by the
    cells of [base], which the store does not own. *)
Record loading_ok (base heap : val_heap) s (vl : list (Z * goval)) : Prop := {
  lo_wf : store_wf heap s;
  lo_base : base ⊆ heap;
  lo_cells : forall l, l ∈ cells s -> base !! l = None;
  lo_rows : Forall2 (fun p q => GetId p.2 = q.1 /\ pers base p.2 q.2) (contents heap s) vl;
}.

Lemma load_step base heap s vl vals vq :
  loading_ok base heap s vl -> Forall2 (fun v q => GetId v = q.1 /\ pers base v q.2) vals vq -> length vals <= chunkLimit ->
  exists heap' s', loadChunk heap s vals = Ok (heap', s') /\ loading_ok base heap' s' (vl ++ vq) /\
    length (chunks s') = S (length (chunks s)).
Proof.
  intros [Hwf Hb Hc Hr] Hv Hlen. destruct (loadChunk heap s vals) as [[heap' s']| |] eqn:E.
  2,3: unfold loadChunk in E; destruct (Nat.ltb_spec chunkLimit (length vals)); [lia|]; by destruct (loadSlots _ _ _).
  destruct (loadChunk_spec _ _ _ _ _ Hwf E) as (slots & Hwf' & Hsub & Hl & Hfr & Hval & Hch & _).
  pose proof (store_step_spec heap s (OpLoad vals) heap' s' Hwf E) as (ls & Hls & Hlen' & Hcont).
  exists heap', s'. split_and!; [done| |by rewrite Hch, length_app, Nat.add_1_r]. split; [done|by transitivity heap| |].
  - intros l (slot & -> & Hin)%list_elem_of_fmap. rewrite Hch, concat_app in Hin. cbn in Hin. rewrite app_nil_r in Hin.
    apply elem_of_app in Hin as [Hin|Hin]; [apply Hc; by apply list_elem_of_fmap_2|].
    rewrite Forall_forall in Hfr. eapply lookup_weaken_None; [by apply Hfr|done].
  - rewrite Hcont. apply Forall2_app; [done|]. clear -Hlen' Hv. revert ls Hlen'.
    induction Hv as [|v q vals vq Hvq _ IH]; intros [|l ls] Hl; try done; cbn; constructor; [done|]. apply IH. cbn in Hl. lia.
Qed.

Lemma load_loop base heap s vl results vqs :
  loading_ok base heap s vl -> Forall2 (fun vals vq => Forall2 (fun v q => GetId v = q.1 /\ pers base v q.2) vals vq /\ length vals <= chunkLimit) results vqs ->
  exists heap' s', fold_outcome (fun st vals => loadChunk st.1 st.2 vals) (heap, s) results = Ok (heap', s') /\
    loading_ok base heap' s' (vl ++ concat vqs) /\ length (chunks s') = length (chunks s) + length results.
Proof.
  intros Hlo Hall. revert heap s vl Hlo. induction Hall as [|vals vq results vqs [Hv Hlen] _ IH]; intros heap s vl Hlo.
  { exists heap, s. cbn. rewrite app_nil_r. split_and!; [done|done|lia]. }
  destruct (load_step _ _ _ _ _ _ Hlo Hv Hlen) as (heap1 & s1 & E & Hlo1 & Hn). cbn [fold_outcome fst snd]. rewrite E. cbn.
  destruct (IH _ _ _ Hlo1) as (heap2 & s2 & E2 & Hlo2 & Hn2). exists heap2, s2. rewrite E2, <- app_assoc in *.
  split_and!; [done|done|lia].
Qed.

Lemma loading_holds base heap s vl : loading_ok base heap s vl -> NoDup vl.*1 -> holds types GetId t heap s vl.
Proof.
  intros [Hwf Hb Hc Hr] Hnd. split; [done| |done]. eapply Forall2_impl; [exact Hr|]. intros p q [H1 [H2 H3]]. split; [done|].
  exists base. split; [done|]. split; [|done]. intros l [x Hx] Hl. rewrite (Hc l Hl) in Hx. done.
Qed.

(** ** The rows of the blocks *)

Lemma flatten_row heap s v row : persists types t heap s v row -> flatten types t heap v = Ok row.
Proof.
  intros (H & Hsub & _ & Hn & Hlen). specialize (Hn heap Hsub). specialize (Hlen d Hd). unfold flatten.
  destruct (directSchema types t) eqn:Ed; [|done]. unfold directSchema in Ed.
  destruct (relationSpecs types t) as [[|]| |] eqn:Es; try done.
  assert (exists sch, schemaFor types t = Ok sch) as [sch Hsch].
  { unfold normalizeToSchema in Hn. destruct (specsByField types t); [|done..]. rewrite Hd in Hn.
    destruct (schemaFor types t) as [sch| |]; [by exists sch|done..]. }
  rewrite (direct_row types t d sch heap v Hd Hdef Es Hsch Hlen) in Hn. injection Hn as <-.
  destruct v; try done; cbn in Hlen; by destruct (fields d).
Qed.

Lemma Forall2_concat {A B} (P : A -> B -> Prop) (ls : list (list A)) k :
  Forall2 P (concat ls) k -> exists ks, k = concat ks /\ Forall2 (Forall2 P) ls ks.
Proof.
  revert k. induction ls as [|l ls IH]; intros k H; cbn in H.
  - apply Forall2_nil_inv_l in H as ->. exists []. split; [done|constructor].
  - apply Forall2_app_inv_l in H as (k1 & k2 & H1 & H2 & ->). destruct (IH k2 H2) as (ks & -> & Hks).
    exists (k1 :: ks). split; [done|]. by constructor.
Qed.

Lemma holds_chunks heap s vl :
  holds types GetId t heap s vl ->
  exists vqs, vl = concat vqs /\ length vqs = length (chunks s) /\
    forall i vq, vqs !! i = Some vq -> chunkRows types t heap s (Z.of_nat i) = Ok vq.*2 /\ length vq <= chunkLimit.
Proof.
  intros [Hwf Hr _].
  assert (contents heap s = concat ((fun p => omap (fun slot => pair (item slot) <$> heap !! item slot) (live_slots p.1 p.2)) <$> zip (chunks s) (tomb s))) as Hc.
  { unfold contents, Range.
    generalize (chunks s), (tomb s). induction l as [|ch cs IH]; intros [|tb tbs]; try done.
    cbn. rewrite fmap_app, contents_split, IH. f_equal. clear.
    induction (live_slots ch tb) as [|slot l IH]; [done|]. cbn. by rewrite IH. }
  rewrite Hc in Hr. apply Forall2_concat in Hr as (vqs & -> & Hall). exists vqs.
  pose proof (wf_shape _ _ Hwf) as Hsh. pose proof (Forall2_length _ _ _ Hsh) as Hl.
  split; [done|]. split.
  { apply Forall2_length in Hall. rewrite length_fmap, length_zip_with in Hall. lia. }
  intros i vq Hi. destruct (Forall2_lookup_r _ _ _ _ _ Hall Hi) as (ps & Hps & Hrow).
  rewrite list_lookup_fmap in Hps. apply fmap_Some in Hps as ([ch tb] & Hz & ->).
  apply lookup_zip_with_Some in Hz as (ch' & tb' & [= <- <-] & Hch & Htb).
  assert (Forall2 (fun l q => exists v, heap !! l = Some v /\ persists types t heap s v q.2) (item <$> live_slots ch tb) vq) as Hlive.
  { cbn in Hrow. assert (Forall (fun slot => is_Some (heap !! item slot)) (live_slots ch tb)) as Ha.
    { apply Forall_forall. intros slot Hin. apply live_slots_elem in Hin. pose proof (wf_alloc _ _ Hwf) as Ha. rewrite Forall_forall in Ha.
      apply Ha. apply list_elem_of_In, in_concat. exists ch. split; apply list_elem_of_In; [by eapply list_elem_of_lookup_2|done]. }
    revert vq Hi Hrow. clear -Ha. intros vq _. revert vq. induction Ha as [|slot l [v Hv] _ IH]; intros vq Hrow; cbn in Hrow.
    - apply Forall2_nil_inv_l in Hrow as ->. constructor.
    - rewrite Hv in Hrow. cbn in Hrow. inversion Hrow as [|? q ? vq' [_ Hp] Hrest]; subst. cbn. constructor; [|by apply IH].
      exists v. done. }
  split.
  - unfold chunkRows, chunkLive, at_index.
    assert ((0 <=? Z.of_nat i)%Z = true) as -> by (apply Z.leb_le; lia). rewrite Nat2Z.id, Hch, Htb. cbn.
    assert (forall acc ls (vq0 : list (Z * goval)), Forall2 (fun l q => exists v, heap !! l = Some v /\ persists types t heap s v q.2) ls vq0 ->
      fold_outcome (fun rows l => row ← flatten types t heap (default (VStruct []) (heap !! l)); Ok (rows ++ [row])) acc ls = Ok (acc ++ vq0.*2)) as Hf.
    { intros acc ls vq0 H. revert acc. induction H as [|l q ls vq0 (v & Hv & Hp) _ IH]; intros acc; cbn; [by rewrite app_nil_r|].
      rewrite Hv. cbn. unfold id. rewrite (flatten_row _ _ _ _ Hp). cbn. rewrite IH, <- app_assoc. done. }
    by rewrite (Hf [] _ _ Hlive).
  - apply Forall2_length in Hlive. rewrite length_fmap in Hlive. rewrite <- Hlive.
    pose proof (wf_cap _ _ Hwf) as Hcap. rewrite Forall_lookup in Hcap. specialize (Hcap _ _ Hch).
    pose proof (Forall2_lookup_lr _ _ _ _ _ _ Hsh Hch Htb) as Heq. pose proof (live_slots_length ch tb Heq) as Hll.
    pose proof (zlen_nonneg (List.filter id tb)). unfold zlen in Hll. lia.
Qed.
End loading.

(** ** Dirty blocks *)

Lemma elem_of_dirtyIndices s ci : ci ∈ dirtyIndices s <-> exists i, ci = Z.of_nat i /\ dirty s !! i = Some true.
Proof.
  unfold dirtyIndices. rewrite list_elem_of_omap. split.
  - intros ([i b] & Hin & E). destruct b; [|done]. cbn in E. injection E as <-. exists i. split; [done|].
    apply list_elem_of_lookup in Hin as [k Hk]. apply lookup_zip_with_Some in Hk as (i' & b & [= <- <-] & Hs & Hb).
    apply lookup_seq in Hs as [-> _]. done.
  - intros (i & -> & Hi). exists (i, true). split; [|done]. apply list_elem_of_lookup. exists i.
    apply lookup_zip_with_Some. exists i, true. split_and!; [done| |done]. apply lookup_seq. split; [done|]. by apply lookup_lt_Some in Hi.
Qed.

Lemma NoDup_dirtyIndices s : NoDup (dirtyIndices s).
Proof.
  unfold dirtyIndices.
  assert (forall (l : list bool) k, Forall (fun ci => (Z.of_nat k <= ci)%Z) (omap (fun p : nat * bool => if p.2 then Some (Z.of_nat p.1) else None) (zip (seq k (length l)) l)) /\
    NoDup (omap (fun p : nat * bool => if p.2 then Some (Z.of_nat p.1) else None) (zip (seq k (length l)) l))) as H; [|exact (proj2 (H (dirty s) 0))].
  clear. induction l as [|b l IH]; intros k; [split; constructor|]. destruct (IH (S k)) as [H1 H2]. cbn [length seq zip zip_with omap list_omap fst snd].
  assert (Forall (fun ci => (Z.of_nat k <= ci)%Z) (omap (fun p : nat * bool => if p.2 then Some (Z.of_nat p.1) else None) (zip (seq (S k) (length l)) l))) as H3
    by (eapply Forall_impl; [exact H1|]; intros; cbn in *; lia).
  destruct b; [|done]. split; [constructor; [lia|done]|]. constructor; [|done]. intros Hin. rewrite Forall_forall in H1. specialize (H1 _ Hin). cbn in H1. lia.
Qed.

Lemma dirty_clear s i b :
  dirty (clearDirty s (dirtyIndices s)) !! i = Some b -> b = false.
Proof.
  assert (forall idxs dl i, foldl (fun d i => set_dirty d i false) dl idxs !! i =
    (fun b => if bool_decide (Z.of_nat i ∈ idxs) then false else b) <$> dl !! i) as Hf.
  { induction idxs as [|ci idxs IH]; intros dl j; cbn; [by destruct (dl !! j)|]. rewrite IH.
    unfold set_dirty. destruct ((0 <=? ci)%Z && (ci <? zlen dl)%Z) eqn:E.
    - apply andb_true_iff in E as [E1%Z.leb_le E2%Z.ltb_lt]. unfold zlen in E2.
      destruct (decide (Z.of_nat j = ci)) as [<-|Hne].
      + rewrite Nat2Z.id, list_lookup_insert_eq by lia. destruct (lookup_lt_is_Some_2 dl j ltac:(lia)) as [b' ->]. cbn.
        rewrite (bool_decide_true (Z.of_nat j ∈ Z.of_nat j :: idxs)) by left. by case_bool_decide.
      + rewrite list_lookup_insert_ne by lia. destruct (dl !! j); [|done]. cbn.
        by rewrite (bool_decide_ext (Z.of_nat j ∈ ci :: idxs) (Z.of_nat j ∈ idxs)) by set_solver.
    - destruct (dl !! j) as [b'|] eqn:Ej; [|done]. cbn. apply lookup_lt_Some in Ej.
      rewrite (bool_decide_ext (Z.of_nat j ∈ ci :: idxs) (Z.of_nat j ∈ idxs)); [done|]. rewrite elem_of_cons.
      split; [|by right]. intros [<-|?]; [|done]. apply andb_false_iff in E as [E|E]; [apply Z.leb_gt in E|apply Z.ltb_ge in E; unfold zlen in E]; lia. }
  unfold clearDirty. cbn. rewrite Hf. intros (b' & Hb & ->)%fmap_Some. destruct b'; [|by case_bool_decide].
  rewrite bool_decide_true; [done|]. apply elem_of_dirtyIndices. eauto.
Qed.

(** ** A saved store is loaded back *)

Section roundtrip.
Context (types : typeEnv) (GetId : goval -> Z) (t : string).
Context (gob_encode_rows : structDef -> list goval -> outcome (list byte))
        (gob_decode_rows : structDef -> list byte -> outcome (list goval))
        (gob_decode : gotype -> list byte -> outcome goval).
(** gob gives back the rows it encodes when they are in the form gob keeps
    (it turns an empty slice into nil, for instance). *)
Context (gob_stable : goval -> Prop)
        (gob_total : forall row rows, Forall gob_stable rows ->
           exists b, gob_encode_rows row rows = Ok b /\ b <> [] /\ gob_decode_rows row b = Ok rows).
Context (d : structDef) (Hd : types !! t = Some d) (Hdef : def_ok d) (Hfields : fields d <> []).

Definition no_failure (env : chunk_env) : Prop :=
  ce_create env = None /\ ce_sync env = None /\ ce_close env = None /\ ce_rename env = None.

(** Clean blocks are on disk, and no other chunk files are. *)
Definition disk_ok (row : structDef) (heap : val_heap) (s : chunkStore) (files : disk) : Prop :=
  (forall i, dirty s !! i = Some false -> on_disk types t gob_encode_rows row heap s files (Z.of_nat i)) /\
  (forall name idx, is_Some (files !! name) -> chunk_index name = Some idx ->
     exists ci, ci < length (chunks s) /\ idx = Z.of_nat ci /\ name = chunk_file idx).

Lemma saveChunks_succeed row env heap s idxs files :
  (forall ci, no_failure (env ci)) ->
  Forall (fun ci => exists rows b, chunkRows types t heap s ci = Ok rows /\ gob_encode_rows row rows = Ok b) idxs ->
  (saveChunks types gob_encode_rows t row env heap s files idxs).2 = Ok tt.
Proof.
  intros Henv Hall. revert files. induction Hall as [|ci idxs (rows & b & Hr & Hb) _ IH]; intros files; [done|]. cbn.
  destruct (Henv ci) as (H1 & H2 & H3 & H4). unfold saveChunk. rewrite Hr, H1, Hb, H2, H3, H4.
  specialize (IH (delete (tmp_file ci) (<[chunk_file ci := b]> files))).
  destruct (saveChunks _ _ _ _ _ _ _ _ _) as [files' r']. by cbn in *; subst.
Qed.

Lemma load_files sch heap s files vqs n :
  (Z.of_nat n <= 2 ^ 63)%Z -> specsByField types t <> Panic -> schemaFor types t = Ok sch ->
  length vqs = n ->
  (forall i vq, vqs !! i = Some vq -> Forall (fun q : Z * goval => row_of types GetId t q.1 q.2) vq /\ Forall gob_stable vq.*2 /\
     chunkRows types t heap s (Z.of_nat i) = Ok vq.*2 /\ length vq <= chunkLimit /\
     on_disk types t gob_encode_rows (rowType sch) heap s files (Z.of_nat i)) ->
  forall k heap0 acc, k <= n ->
  exists heap' results, fold_outcome (loadFile types gob_decode_rows t (rowType sch)) (heap0, acc) (drop k (chunk_entries files n)) = Ok (heap', acc ++ results) /\
    heap0 ⊆ heap' /\
    Forall2 (fun vals vq => Forall2 (fun v q => GetId v = q.1 /\ pers types t heap' v q.2) vals vq /\ length vals <= chunkLimit) results (drop k vqs).
Proof.
  intros Hn Hsp Hsch Hlen Hvq k. remember (n - k) as m eqn:Em. revert k Em.
  destruct (specsByField types t) as [sp| |] eqn:Esp; [|by unfold schemaFor in Hsch; rewrite Esp in Hsch|done].
  induction m as [|m IH]; intros k Em heap0 acc Hk.
  { exists heap0, []. rewrite !drop_ge by (unfold chunk_entries; rewrite ?length_fmap, ?length_seq; lia).
    rewrite app_nil_r. split_and!; [done|done|constructor]. }
  destruct (lookup_lt_is_Some_2 vqs k ltac:(lia)) as [vq Hvqk]. destruct (Hvq k vq Hvqk) as (Hrow & Hst & Hcr & Hcap & rows & b & Hcr' & Hb & Hf).
  rewrite Hcr in Hcr'. injection Hcr' as <-.
  destruct (gob_total (rowType sch) vq.*2 Hst) as (b' & Hb' & Hne & Hdec). rewrite Hb in Hb'. injection Hb' as <-.
  assert (chunk_entries files n !! k = Some (file_entry (chunk_file (Z.of_nat k), b))) as He.
  { unfold chunk_entries. rewrite list_lookup_fmap, lookup_seq_lt by lia. cbn. by rewrite Hf. }
  rewrite (drop_S _ _ _ He), (drop_S _ _ _ Hvqk). cbn [fold_outcome].
  destruct (inflate_many types GetId t d Hd vq heap0 sp sch Esp Hsch Hrow) as (heap1 & vs & Einf & Hsub1 & Hvs).
  assert (loadFile types gob_decode_rows t (rowType sch) (heap0, acc) (file_entry (chunk_file (Z.of_nat k), b)) = Ok (heap1, acc ++ [vs])) as ->.
  { unfold loadFile, decodeSlice. cbn [de_file file_entry snd]. destruct b as [|x b]; [done|]. rewrite Hdec. cbn. by rewrite Einf. }
  cbn. destruct (IH (S k) ltac:(lia) heap1 (acc ++ [vs]) ltac:(lia)) as (heap2 & results & E & Hsub2 & Hres).
  exists heap2, (vs :: results). rewrite E, <- app_assoc. split_and!; [done|by transitivity heap1|].
  constructor; [|done]. split; [|by rewrite (Forall2_length _ _ _ Hvs)].
  eapply Forall2_impl; [exact Hvs|]. intros v q [H1 H2]. split; [done|]. by eapply pers_mono.
Qed.

Lemma save_writes_all sch heap s files env :
  schemaFor types t = Ok sch -> store_wf heap s -> (zlen (chunks s) <= 2 ^ 63)%Z ->
  disk_ok (rowType sch) heap s files -> (forall ci, no_failure (env ci)) ->
  Forall (fun ci => exists rows b, chunkRows types t heap s ci = Ok rows /\ gob_encode_rows (rowType sch) rows = Ok b) (dirtyIndices s) ->
  exists s' files', save types gob_encode_rows t None env heap s files = (s', files', Ok tt) /\
    dirtyIndices s' = [] /\ disk_ok (rowType sch) heap s' files' /\ chunks s' = chunks s /\
    forall i, i < length (chunks s) -> on_disk types t gob_encode_rows (rowType sch) heap s files' (Z.of_nat i).
Proof.
  intros Hsch Hwf Hn [Hclean Hstray] Henv Hcan. unfold save, zlen in *.
  assert (forall i, i < length (chunks s) -> dirty s !! i = Some false \/ Z.of_nat i ∈ dirtyIndices s) as Hcase.
  { intros i Hi. destruct (lookup_lt_is_Some_2 (dirty s) i) as [[] Hb]; [by rewrite (wf_dirty _ _ Hwf)| |by left].
    right. apply elem_of_dirtyIndices. eauto. }
  destruct (Z.eqb_spec (Z.of_nat (length (dirtyIndices s))) 0) as [E|_].
  { assert (dirtyIndices s = []) as Ed by (destruct (dirtyIndices s); [done|cbn in E; lia]).
    exists s, files. split_and!; try done. intros i Hi. destruct (Hcase i Hi) as [Hb|Hb]; [by apply Hclean|].
    rewrite Ed in Hb. by apply elem_of_nil in Hb. }
  rewrite Hsch. pose proof (saveChunks_succeed (rowType sch) env heap s (dirtyIndices s) files Henv Hcan) as Hok.
  pose proof (saveChunks_files types t gob_encode_rows (rowType sch) env heap s (dirtyIndices s) files (NoDup_dirtyIndices s)) as Hf.
  assert (Forall (fun ci => (0 <= ci < 2 ^ 63)%Z /\ exists i, ci = Z.of_nat i /\ i < length (chunks s)) (dirtyIndices s)) as Hr.
  { apply Forall_forall. intros ci (i & -> & Hi)%elem_of_dirtyIndices. apply lookup_lt_Some in Hi. rewrite (wf_dirty _ _ Hwf) in Hi.
    split; [lia|eauto]. }
  destruct (saveChunks types gob_encode_rows t (rowType sch) env heap s files (dirtyIndices s)) as [files' r].
  cbn in Hok. subst r. destruct Hf as [Hf1 Hf2]; [eapply Forall_impl; [exact Hr|]; naive_solver|]. specialize (Hf2 eq_refl).
  rewrite Forall_forall in Hf2, Hr.
  assert (forall i, i < length (chunks s) -> on_disk types t gob_encode_rows (rowType sch) heap s files' (Z.of_nat i)) as Hall.
  { intros i Hi. destruct (decide (Z.of_nat i ∈ dirtyIndices s)) as [Hin|Hin]; [by apply Hf2|].
    destruct (Hcase i Hi) as [Hb|]; [|done]. eapply on_disk_keep; [|by apply Hclean]. apply Hf1. intros ci Hci.
    split; [apply not_eq_sym, tmp_not_chunk|]. destruct (Hr ci Hci) as [Hci' _].
    intros E. apply chunk_file_inj in E as <-; [done|lia|done]. }
  exists (clearDirty s (dirtyIndices s)), files'. split_and!; try done.
  - destruct (dirtyIndices (clearDirty s (dirtyIndices s))) as [|ci l] eqn:E; [done|]. exfalso.
    assert (ci ∈ dirtyIndices (clearDirty s (dirtyIndices s))) as Hin by (rewrite E; left).
    apply elem_of_dirtyIndices in Hin as (i & _ & Hi). by apply dirty_clear in Hi.
  - split.
    + intros i Hi. apply Hall. apply lookup_lt_Some in Hi.
      assert (length (dirty (clearDirty s (dirtyIndices s))) = length (dirty s)) as Hl.
      { unfold clearDirty. cbn. generalize (dirty s). clear. induction (dirtyIndices s) as [|ci l IH]; intros dl; [done|]. cbn.
        by rewrite IH, set_dirty_length. }
      rewrite Hl, (wf_dirty _ _ Hwf) in Hi. exact Hi.
    + intros name idx [b Hb] Hidx. destruct (decide (name ∈ chunk_file <$> dirtyIndices s)) as [(ci & -> & Hci)%list_elem_of_fmap|Hno].
      * destruct (Hr ci Hci) as [Hci' (i & -> & Hi)]. rewrite chunk_index_file in Hidx by done. injection Hidx as <-. exists i. done.
      * apply (Hstray name idx); [|done]. rewrite <- Hf1; [by eexists|]. intros ci Hci. split.
        -- intros ->. by rewrite chunk_index_tmp in Hidx.
        -- intros ->. apply Hno. by apply list_elem_of_fmap_2.
Qed.

Lemma all_on_disk_load sch heap s files vqs :
  schemaFor types t = Ok sch -> store_wf heap s -> (zlen (chunks s) <= 2 ^ 63)%Z -> NoDup (concat vqs).*1 ->
  length vqs = length (chunks s) ->
  (forall i vq, vqs !! i = Some vq -> Forall (fun q : Z * goval => row_of types GetId t q.1 q.2) vq /\ Forall gob_stable vq.*2 /\
     chunkRows types t heap s (Z.of_nat i) = Ok vq.*2 /\ length vq <= chunkLimit /\
     on_disk types t gob_encode_rows (rowType sch) heap s files (Z.of_nat i)) ->
  (forall name idx, is_Some (files !! name) -> chunk_index name = Some idx ->
     exists ci, ci < length (chunks s) /\ idx = Z.of_nat ci /\ name = chunk_file idx) ->
  forall heap0, exists heap1 s1,
    loadStore types GetId gob_decode_rows gob_decode t None (Ok (listing files)) NotExist NotExist heap0 = Ok (heap1, s1) /\
    holds types GetId t heap1 s1 (concat vqs).
Proof.
  intros Hsch Hwf Hn Hnd Hlen Hvq Hstray heap0. unfold zlen in Hn. unfold loadStore. rewrite Hsch. cbn [mbind outcome_bind].
  rewrite (sorted_chunks files (length (chunks s)) Hn).
  2: { split; [|exact Hstray]. intros ci Hci. destruct (lookup_lt_is_Some_2 vqs ci ltac:(lia)) as [vq Hi].
       destruct (Hvq ci vq Hi) as (_ & _ & _ & _ & rows & b & _ & _ & Hf). by rewrite Hf. }
  destruct (load_files sch heap s files vqs (length (chunks s)) Hn) with (k := 0) (heap0 := heap0) (acc := @nil (list goval))
    as (heap1 & results & E & Hsub & Hres); [|done|done|exact Hvq|lia|].
  { intros E. unfold schemaFor in Hsch. by rewrite E in Hsch. }
  rewrite drop_0 in E. change (drop 0 vqs) with vqs in Hres. cbn [mbind outcome_bind]. rewrite E. cbn [mbind outcome_bind fst snd app].
  destruct (load_loop types GetId t heap1 heap1 newChunkStore [] results vqs) as (heap2 & s2 & E2 & Hlo & _); [|done|].
  { split; [apply newChunkStore_wf|done|by intros l ?%elem_of_nil|constructor]. }
  rewrite E2. cbn. exists heap2, s2. split; [|by eapply loading_holds].
  unfold applyRecoveredRows. cbn. by rewrite bool_decide_true.
Qed.

Lemma saved_and_loaded sch heap s vl files env :
  schemaFor types t = Ok sch -> holds types GetId t heap s vl ->
  Forall (fun q => row_of types GetId t q.1 q.2) vl -> Forall gob_stable vl.*2 -> (zlen (chunks s) <= 2 ^ 63)%Z ->
  disk_ok (rowType sch) heap s files -> (forall ci, no_failure (env ci)) ->
  exists s' files', save types gob_encode_rows t None env heap s files = (s', files', Ok tt) /\
    dirtyIndices s' = [] /\ disk_ok (rowType sch) heap s' files' /\
    forall heap0, exists heap1 s1,
      loadStore types GetId gob_decode_rows gob_decode t None (Ok (listing files')) NotExist NotExist heap0 = Ok (heap1, s1) /\
      holds types GetId t heap1 s1 vl.
Proof.
  intros Hsch Hh Hrows Hst Hn [Hclean Hstray] Henv.
  destruct (holds_chunks types GetId t d Hd Hdef Hfields heap s vl Hh) as (vqs & -> & Hlen & Hvq).
  assert (forall i vq, vqs !! i = Some vq -> Forall (fun q : Z * goval => row_of types GetId t q.1 q.2) vq /\ Forall gob_stable vq.*2) as Hseg.
  { intros i vq Hi. rewrite Forall_forall in Hrows. rewrite Forall_fmap, Forall_forall in Hst.
    rewrite Forall_fmap, !Forall_forall.
    assert (forall q, q ∈ vq -> q ∈ concat vqs) as Hsub.
    { intros q Hq. apply list_elem_of_In, in_concat. exists vq. split; apply list_elem_of_In; [by eapply list_elem_of_lookup_2|done]. }
    split; intros q Hq; [apply Hrows|apply Hst]; by apply Hsub. }
  assert (Forall (fun ci => exists rows b, chunkRows types t heap s ci = Ok rows /\ gob_encode_rows (rowType sch) rows = Ok b) (dirtyIndices s)) as Hcan.
  { apply Forall_forall. intros ci (i & -> & Hi)%elem_of_dirtyIndices. apply lookup_lt_Some in Hi. rewrite (wf_dirty _ _ (holds_wf _ _ _ _ _ _ Hh)) in Hi.
    destruct (lookup_lt_is_Some_2 vqs i ltac:(lia)) as [vq Hvi]. destruct (Hvq i vq Hvi) as [Hcr _], (Hseg i vq Hvi) as [_ Hsi].
    destruct (gob_total (rowType sch) _ Hsi) as (b & Hb & _). eauto. }
  destruct (save_writes_all sch heap s files env Hsch (holds_wf _ _ _ _ _ _ Hh) Hn (conj Hclean Hstray) Henv Hcan)
    as (s' & files' & Esave & Hdirty & Hdisk & Ec & Hall).
  exists s', files'. split_and!; [done|done|done|].
  eapply all_on_disk_load; try done; [apply Hh|apply Hh| |].
  - intros i vq Hi. destruct (Hseg i vq Hi), (Hvq i vq Hi). split_and!; try done. apply Hall.
    apply lookup_lt_Some in Hi. lia.
  - destruct Hdisk as [_ Hdisk]. by rewrite Ec in Hdisk.
Qed.
End roundtrip.

(** ** Theorems *)

(** C14: Recovery replays the log onto the table: after [applyRecoveredRows]
    the live entities persist as exactly the rows that replaying the log, in
    order, onto the table leaves, the last row of an id winning and a
    deletion removing it, a later row after a deletion bringing it back; the
    store stays well formed with distinct ids. *)
Theorem recovery_last_writer_wins types GetId t heap s vl rows :
  holds types GetId t heap s vl -> Forall (row_ok types GetId t) rows ->
  exists heap' s' vl', applyRecoveredRows types GetId t heap s rows = Ok (heap', s') /\ holds types GetId t heap' s' vl' /\
    (list_to_map vl' : gmap Z goval) = foldl replay_row (list_to_map vl) rows.
Proof. apply recovered. Qed.

(** C22: A chunk file is replaced atomically. Whatever the operating system
    answers, after [saveChunk] the file holds what it held before or the
    complete encoding of the block's rows, the latter whenever [saveChunk]
    reports success, and no other chunk file changes; a temporary file that
    stays behind is never read as a chunk. *)
Theorem saveChunk_atomic types t gob_encode_rows row env heap s files ci :
  let '(files', r) := saveChunk types gob_encode_rows t row env heap s files ci in
  (files' !! chunk_file ci = files !! chunk_file ci \/ on_disk types t gob_encode_rows row heap s files' ci) /\
  (r = Ok tt -> on_disk types t gob_encode_rows row heap s files' ci) /\
  (forall name, name <> tmp_file ci -> name <> chunk_file ci -> files' !! name = files !! name) /\
  (forall b, chunkEntry (file_entry (tmp_file ci, b)) = None).
Proof.
  pose proof (saveChunk_files types t gob_encode_rows row env heap s files ci) as H.
  destruct (saveChunk types gob_encode_rows t row env heap s files ci) as [files' r]. destruct H as (H1 & H2 & H3).
  split_and!; [done|done|done|]. intros b. rewrite chunkEntry_file. cbn [fst]. by rewrite chunk_index_tmp.
Qed.

(** C15: Save then load. When the operating system fails no call, [save]
    succeeds, leaves no block dirty and every block on disk, and loading the
    directory in a fresh process, whatever its listing order, gives a store
    that holds the same rows under the same ids. *)
Theorem save_then_load types GetId t gob_encode_rows gob_decode_rows gob_decode (gob_stable : goval -> Prop) d sch heap s vl files env :
  (forall row rows, Forall gob_stable rows ->
     exists b, gob_encode_rows row rows = Ok b /\ b <> [] /\ gob_decode_rows row b = Ok rows) ->
  types !! t = Some d -> def_ok d -> fields d <> [] -> schemaFor types t = Ok sch ->
  holds types GetId t heap s vl -> Forall (fun q => row_of types GetId t q.1 q.2) vl -> Forall gob_stable vl.*2 ->
  (zlen (chunks s) <= 2 ^ 63)%Z ->
  disk_ok types t gob_encode_rows (rowType sch) heap s files -> (forall ci, no_failure (env ci)) ->
  exists s' files', save types gob_encode_rows t None env heap s files = (s', files', Ok tt) /\
    dirtyIndices s' = [] /\ disk_ok types t gob_encode_rows (rowType sch) heap s' files' /\
    forall heap0, exists heap1 s1,
      loadStore types GetId gob_decode_rows gob_decode t None (Ok (listing files')) NotExist NotExist heap0 = Ok (heap1, s1) /\
      holds types GetId t heap1 s1 vl.
Proof. intros Hgob Hd Hdef Hf. by apply (saved_and_loaded types GetId t gob_encode_rows gob_decode_rows gob_decode gob_stable Hgob d Hd Hdef Hf). Qed.

(** ** A sample: the post of [SchemaRows] in a store of its own *)

Definition post_id (e : goval) : Z := match e with VStruct (VInt id :: _) => id | _ => 0%Z end.
Definition post_row : goval := VStruct [VInt 7; VInt 9; VInt 4].
Lemma sample_post_ok : entity_ok sample_types sample_heap "Post" sample_post.
Proof.
  eexists. split; [vm_compute; reflexivity|]. split_and!.
  - unfold def_ok. cbn. repeat constructor; set_solver.
  - eexists. split; [reflexivity|]. repeat constructor.
  - intros r specs field l Hs Hr Hg Hin. vm_compute in Hs. injection Hs as <-.
    repeat (apply elem_of_cons in Hr as [->|Hr]); [| |by apply not_elem_of_nil in Hr];
      vm_compute in Hg; injection Hg as <-; cbn in Hin; apply list_elem_of_singleton in Hin; injection Hin as ->;
      eexists _, _; (split; [vm_compute; reflexivity|]); (split; [vm_compute; reflexivity|]); split;
      [unfold def_ok; cbn; repeat constructor; set_solver|eexists; split; [reflexivity|]; repeat constructor
      |unfold def_ok; cbn; repeat constructor; set_solver|eexists; split; [reflexivity|]; repeat constructor].
Qed.

Lemma post_row_of : row_of sample_types post_id "Post" 7 post_row.
Proof.
  exists sample_heap, sample_post. split_and!; [apply sample_post_ok|vm_compute; reflexivity|].
  intros heap0 heap' e' E. vm_compute in E. injection E as _ <-. vm_compute. reflexivity.
Qed.

(** A store that holds the post alone. *)
Lemma post_store :
  exists heap s, holds sample_types post_id "Post" heap s [(7%Z, post_row)] /\ dirty s = [true] /\ zlen (chunks s) = 1%Z.
Proof.
  assert (normalizeToSchema sample_types sample_heap "Post" sample_post = Ok post_row) as Hn by (vm_compute; reflexivity).
  destruct (inflated_persists sample_types "Post" sample_heap newChunkStore post_row sample_heap sample_post
    (newChunkStore_wf _) sample_post_ok Hn) as (heap1 & v & E & Hsub & Hp).
  destruct post_row_of as (_ & _ & _ & _ & Hid). pose proof (Hid _ _ _ E) as Hv.
  destruct (Append heap1 newChunkStore v) as [[heap2 s] r] eqn:Ea.
  assert (holds sample_types post_id "Post" heap1 newChunkStore []) as Hempty
    by (split; [apply newChunkStore_wf|constructor|constructor]).
  destruct (append_holds sample_types post_id "Post" _ _ _ _ _ _ _ _ Hempty Hp ltac:(by intros ?%elem_of_nil) Ea) as [Hh _].
  exists heap2, s. rewrite Hv in Hh. split; [exact Hh|].
  unfold Append in Ea. cbn in Ea. destruct (new_cell heap1 v) as [h l]. cbn in Ea. injection Ea as _ <- _. by vm_compute.
Qed.

Lemma recovery_last_writer_wins_witness :
  exists heap s heap' s' vl',
    applyRecoveredRows sample_types post_id "Post" heap s
      [{| rec_id := 7; rec_row := None; deleted := true |}; {| rec_id := 7; rec_row := Some post_row; deleted := false |}] = Ok (heap', s') /\
    holds sample_types post_id "Post" heap' s' vl' /\ (list_to_map vl' : gmap Z goval) = {[7%Z := post_row]}.
Proof.
  destruct post_store as (heap & s & Hh & _). exists heap, s.
  refine (recovery_last_writer_wins sample_types post_id "Post" heap s [(7%Z, post_row)]
    [{| rec_id := 7; rec_row := None; deleted := true |}; {| rec_id := 7; rec_row := Some post_row; deleted := false |}] Hh _).
  apply Forall_cons; split; [by left|]. apply Forall_cons; split; [|by apply Forall_nil].
  right. split; [done|]. exists post_row. split; [done|apply post_row_of].
Defined.

(** A codec for lists of that one row. *)
Definition post_encode (_ : structDef) (rows : list goval) : outcome (list byte) := Ok (replicate (S (length rows)) Byte.x00).
Definition post_decode (_ : structDef) (b : list byte) : outcome (list goval) := Ok (replicate (length b - 1) post_row).
Definition env_fine (_ : Z) : chunk_env :=
  {| ce_create := None; ce_partial := []; ce_sync := None; ce_close := None; ce_rename := None; ce_remove_fails := false |}.

Lemma post_codec (row : structDef) rows : Forall (fun r => r = post_row) rows ->
  exists b, post_encode row rows = Ok b /\ b <> [] /\ post_decode row b = Ok rows.
Proof.
  intros H. eexists. split; [reflexivity|]. split; [done|]. unfold post_decode. f_equal. rewrite length_replicate. cbn.
  rewrite Nat.sub_0_r. induction H as [|r rows -> _ IH]; [done|]. cbn. by f_equal.
Qed.

Lemma save_then_load_witness :
  exists heap s s' files', save sample_types post_encode "Post" None env_fine heap s ∅ = (s', files', Ok tt) /\
    forall heap0, exists heap1 s1,
      loadStore sample_types post_id post_decode (fun _ _ => Panic) "Post" None (Ok (listing files')) NotExist NotExist heap0 = Ok (heap1, s1) /\
      holds sample_types post_id "Post" heap1 s1 [(7%Z, post_row)].
Proof.
  destruct post_store as (heap & s & Hh & Hdirty & Hlen). exists heap, s.
  destruct (sample_types !! "Post") as [d|] eqn:Hd; [|vm_compute in Hd; discriminate Hd].
  destruct (schemaFor sample_types "Post") as [sch| |] eqn:Hsch; [|vm_compute in Hsch; discriminate Hsch..].
  destruct (save_then_load sample_types post_id "Post" post_encode post_decode (fun _ _ => Panic) (fun r => r = post_row) d sch
    heap s [(7%Z, post_row)] ∅ env_fine) as (s' & files' & E & _ & _ & Hload).
  - apply post_codec.
  - exact Hd.
  - destruct sample_post_ok as (d' & Hd' & Hok & _). rewrite Hd in Hd'. injection Hd' as <-. exact Hok.
  - intros Hf. vm_compute in Hd. injection Hd as <-. discriminate Hf.
  - exact Hsch.
  - exact Hh.
  - apply Forall_cons; split; [apply post_row_of|by apply Forall_nil].
  - apply Forall_cons; split; [reflexivity|by apply Forall_nil].
  - rewrite Hlen. lia.
  - split.
    + intros i Hi. rewrite Hdirty in Hi. apply list_lookup_singleton_Some in Hi as [_ Hi]. discriminate Hi.
    + intros name idx [b Hb]. rewrite lookup_empty in Hb. discriminate Hb.
  - intros ci. split_and!; reflexivity.
  - exists s', files'. split; [exact E|exact Hload].
Defined.

(** ** Two logs, one order: what recovery loses *)

(** A type without relations and two commits to it: the first joins another
    type and goes to the transaction log, the second writes this type alone
    and goes to its own log. *)
Definition note_types : typeEnv :=
  {[ "Note" := entity [{| fname := "Text"; ftype := TBasic "string" KString; exported := true; tag := [] |}] ]}.
Definition note (text : string) : goval := VStruct [VInt 1; VString text].
Definition note_bytes (text : string) : list byte :=
  match encodeRow (fun _ _ => Panic) (TStruct "Note" [("Id", true, TBasic "int" KInt); ("Text", true, TBasic "string" KString)]) (note text) with
  | Ok b => b | _ => [] end.
Definition env_calm : append_env :=
  {| mkdir_error := None; open_error := None; write_error := None; written := 0; sync_error := None |}.

(** C32 (a defect): recovery appends the rows of the transaction log after the
    rows of the type's own log, whatever the order of the commits. An update
    that committed alone, later, and was acknowledged is overwritten by the
    older row of a transaction over several types. *)
Theorem recovery_loses_later_commit :
  let '(_, files1, r1) := appendTransactionFrame (openTransactionWAL "transactions.wal") env_calm ∅
    {| TRows := [Build_transactionWALRow "Note" {| Id := 1; Row := note_bytes "older" |};
                 Build_transactionWALRow "Tag" {| Id := 5; Row := [] |}] |} in
  let '(_, files2, r2) := appendFrame (openWAL "Note/wal.log") env_calm files1
    {| Rows := [{| Id := 1; Row := note_bytes "newer" |}] |} in
  r1 = Ok tt /\ r2 = Ok tt /\
  match loadStore note_types post_id (fun _ _ => Panic) (fun _ _ => Panic) "Note" None (Ok [])
          (ReadUpTo (default [] (files2 !! "Note/wal.log"%string)))
          (ReadUpTo (default [] (files2 !! "transactions.wal"%string))) ∅ with
  | Ok (heap, s) => (contents heap s).*2 = [note "older"]
  | _ => False
  end.
Proof. vm_compute. auto. Qed.

(** The shortcut for types without relations is the general path: an
    entity of such a type is its own row. *)
Theorem direct_schema_is_identity types t d sch heap e :
  types !! t = Some d -> def_ok d -> schemaFor types t = Ok sch -> struct_ok d e ->
  directSchema types t = true ->
  normalizeToSchema types heap t e = Ok e /\ flatten types t heap e = Ok e.
Proof.
  intros Hd Hok Hsch (l & -> & Hl) Hdir. split; [|unfold flatten; by rewrite Hdir].
  unfold directSchema in Hdir. destruct (relationSpecs types t) as [[|]| |] eqn:Es; try done.
  apply Forall2_length in Hl. by rewrite (direct_row types t d sch heap (VStruct l) Hd Hok Es Hsch) by (cbn; lia).
Qed.

Lemma direct_schema_is_identity_witness :
  normalizeToSchema note_types ∅ "Note" (note "x") = Ok (note "x") /\ flatten note_types "Note" ∅ (note "x") = Ok (note "x").
Proof.
  destruct (note_types !! "Note") as [d|] eqn:Hd; [|vm_compute in Hd; discriminate Hd].
  destruct (schemaFor note_types "Note") as [sch| |] eqn:Hsch; [|vm_compute in Hsch; discriminate Hsch..].
  apply (direct_schema_is_identity note_types "Note" d sch ∅ (note "x") Hd).
  - vm_compute in Hd. injection Hd as <-. unfold def_ok. cbn. repeat constructor; set_solver.
  - exact Hsch.
  - vm_compute in Hd. injection Hd as <-. eexists. split; [reflexivity|]. repeat constructor.
  - vm_compute. reflexivity.
Defined.
