(* ===== verification/Table.v ===== *)
(** * One table (src/db.go, src/persist.go, src/indices.go, src/query.go,
      src/unsafe.go and the table methods of src/relation_runtime.go)

    A [DB[T]] keeps the store of its entities, the map from ids to slots, the
    secondary indexes, the queues of the unsafe path, its log and the counter
    for new ids. Entities of all tables are struct values in cells of one heap;
    [t] is the name of the entity type. The locks are left to [Locks]. *)
From S2P Require Import Prelude GoBytes GoReflect RelationSchema SchemaRows RelationModel Transaction.
From S2P Require Import WalFrame RowCodec WalLog ChunkStore IndexSpecs SecondaryIndex IndexCommit Storage.

(** ** Data *)

Record detachedRoot := { dr_id : Z; dr_version : Z; dr_original : goval }.

Record DB := {
  name : string;
  counter : Z;
  store : chunkStore;
  persistQueue : list loc;
  deleteQueue : list loc;
  secondary : gmap string secondaryIndex;
  resById : gmap Z slotRef;
  db_wal : wal;
  snapshots : gmap loc detachedRoot;
  epoch : Z;
}.

Definition with_counter (db : DB) (c : Z) : DB :=
  {| name := name db; counter := c; store := store db; persistQueue := persistQueue db; deleteQueue := deleteQueue db;
     secondary := secondary db; resById := resById db; db_wal := db_wal db; snapshots := snapshots db; epoch := epoch db |}.
Definition with_store (db : DB) (s : chunkStore) : DB :=
  {| name := name db; counter := counter db; store := s; persistQueue := persistQueue db; deleteQueue := deleteQueue db;
     secondary := secondary db; resById := resById db; db_wal := db_wal db; snapshots := snapshots db; epoch := epoch db |}.
Definition with_queues (db : DB) (p d : list loc) : DB :=
  {| name := name db; counter := counter db; store := store db; persistQueue := p; deleteQueue := d;
     secondary := secondary db; resById := resById db; db_wal := db_wal db; snapshots := snapshots db; epoch := epoch db |}.
Definition with_secondary (db : DB) (s : gmap string secondaryIndex) : DB :=
  {| name := name db; counter := counter db; store := store db; persistQueue := persistQueue db; deleteQueue := deleteQueue db;
     secondary := s; resById := resById db; db_wal := db_wal db; snapshots := snapshots db; epoch := epoch db |}.
Definition with_rows (db : DB) (s : chunkStore) (ids : gmap Z slotRef) : DB :=
  {| name := name db; counter := counter db; store := s; persistQueue := persistQueue db; deleteQueue := deleteQueue db;
     secondary := secondary db; resById := ids; db_wal := db_wal db; snapshots := snapshots db; epoch := epoch db |}.
Definition with_wal (db : DB) (w : wal) : DB :=
  {| name := name db; counter := counter db; store := store db; persistQueue := persistQueue db; deleteQueue := deleteQueue db;
     secondary := secondary db; resById := resById db; db_wal := w; snapshots := snapshots db; epoch := epoch db |}.

(** The Tower counter of the table, a [uint64]. *)
Definition markChanged (db : DB) : DB :=
  {| name := name db; counter := counter db; store := store db; persistQueue := persistQueue db; deleteQueue := deleteQueue db;
     secondary := secondary db; resById := resById db; db_wal := db_wal db; snapshots := snapshots db;
     epoch := to_uint 64 (epoch db + 1) |}.

(** [db.counter++] on an [int]. *)
Definition next_counter (db : DB) : DB := with_counter db (to_sint 64 (counter db + 1)).

Section table.
Context (types : typeEnv) (GetId : goval -> Z) (gob_encode : gotype -> goval -> outcome (list byte)).
Context `{!MapOrder Z, !MapOrder string}.
Implicit Types (heap : gmap loc goval) (db : DB) (id : Z).

(** ** Rows *)

(** The slot of a row; slots are never removed from the store. *)
Definition resource db id : option resourceSlot := r ← resById db !! id; slot_at (store db) r.
(** The cells of the rows, as the indexes see them. *)
Definition rowCells db : gmap Z loc := omap (fun r => item <$> slot_at (store db) r) (resById db).

Definition resourceVersion db id : option Z := version <$> resource db id.
Definition relationValue db id : option loc := item <$> resource db id.

(** A copy of the struct. Slices are values here; how [cloneSliceFields] gives
    the copy arrays of its own is in [SliceCells]. *)
Definition copy_cell heap (l : loc) : gmap loc goval * loc := new_cell heap (deref heap l).
Definition snapshotResource heap db id : gmap loc goval * option (loc * loc * Z) :=
  match resource db id with
  | None => (heap, None)
  | Some r =>
      let '(heap, work_) := copy_cell heap (item r) in
      let '(heap, original_) := copy_cell heap (item r) in
      (heap, Some (work_, original_, version r))
  end.

Definition applyWrite heap db id (work_ : loc) : gmap loc goval * DB :=
  match resById db !! id with
  | None => (heap, db)
  | Some r =>
      let '(heap, s) := write_slot heap (store db) r (deref heap work_) in
      (heap, markChanged (with_store db s))
  end.

Definition refreshSnapshot heap db id (work_ : loc) : gmap loc goval :=
  match resource db id with
  | None => heap
  | Some r => <[work_ := deref heap (item r)]> heap
  end.

Definition add heap db (entity : loc) : gmap loc goval * DB :=
  let '(heap, s, r) := Append heap (store db) (deref heap entity) in
  (heap, markChanged (with_rows db s (<[GetId (slot_value heap s r) := r]> (resById db)))).

(** ** New ids *)

(** [setID]: the conversion of [SetInt] and [SetUint] to the width of the field. *)
Definition setID heap (t : string) (l : loc) id : outcome (gmap loc goval) :=
  match types !! t, heap !! l with
  | Some d, Some v =>
      match FieldByName d entityIDField with
      | Some (i, f) =>
          when negb (exported f) => Panic ;;
          match ftype f with
          | TBasic _ k =>
              match is_signed k, is_unsigned k with
              | Some w, _ => Ok (<[l := VStruct (<[i := VInt (to_sint w id)]> (struct_fields v))]> heap)
              | None, Some w => Ok (<[l := VStruct (<[i := VUint (to_uint w id)]> (struct_fields v))]> heap)
              | None, None => Panic
              end
          | _ => Panic
          end
      | None => Panic
      end
  | _, _ => Panic
  end.

Definition relationPrepareCreate heap db (l : loc) : outcome (gmap loc goval * DB) :=
  let id := GetId (deref heap l) in
  if (id =? 0)%Z then
    let db := next_counter db in
    heap ← setID heap (name db) l (counter db); Ok (heap, db)
  else
    when bool_decide (is_Some (resById db !! id)) => Fail ErrAlreadyExists ;;
    Ok (heap, if (counter db <? id)%Z then with_counter db id else db).
Definition relationApplyCreate heap db (l : loc) : gmap loc goval * DB := add heap db l.

(** ** Deleting rows *)

Definition relationDelete heap db (ids : gset Z) : DB :=
  when bool_decide (ids = ∅) => db ;;
  let '(s, removed) := DeleteFunc heap (store db) (fun e => bool_decide (GetId e ∈ ids)) in
  let db := foldl (fun db l =>
      with_rows (with_secondary db (removeSecondaryIndices GetId heap l (secondary db))) (store db)
        (delete (GetId (deref heap l)) (resById db))) (with_store db s) removed in
  if (0 <? length removed)%nat then markChanged db else db.

(** ** Logging *)

Definition encodeWrite heap (t : string) (it : pendingWrite) : outcome walRow :=
  if w_deleted it then Ok {| Id := to_sint 64 (- w_id it); Row := [] |} else
  def ← (if directSchema types t then match types !! t with Some d => Ok d | None => Panic end
         else sch ← schemaFor types t; Ok (rowType sch));
  row ← flatten types t heap (work it);
  bytes ← encodeRow gob_encode (row_gotype def) row;
  Ok {| Id := w_id it; Row := bytes |}.
Definition encodeWrites heap (t : string) (items : list pendingWrite) : outcome (list walRow) :=
  fold_outcome (fun rows it => row ← encodeWrite heap t it; Ok (rows ++ [row])) [] items.

Definition logWrites heap db (env : append_env) (files : disk) (items : list pendingWrite) : DB * disk * outcome unit :=
  match encodeWrites heap (name db) items with
  | Ok rows =>
      let '(w, files, r) := appendFrame (db_wal db) env files {| Rows := rows |} in (with_wal db w, files, r)
  | Fail e => (db, files, Fail e)
  | Panic => (db, files, Panic)
  end.

(** ** Opening *)

Definition syncResById heap db : DB := with_rows db (store db) (foldl (fun m r =>
  <[GetId (slot_value heap (store db) r) := r]> m) (resById db) (rangeResources (store db))).
Definition seedCounter heap db : DB :=
  with_counter db (foldl (fun m l => if (m <? GetId (deref heap l))%Z then GetId (deref heap l) else m) 0%Z (Range (store db))).
Definition initIndices db : outcome DB :=
  match snd (secondaryIndexSpecs types ∅ (name db)) with
  | Ok specs => Ok (with_secondary db (foldl (fun m s => <[si_name s := newSecondaryIndex s]> m) ∅ specs))
  | _ => Panic
  end.
Definition relationReindex heap db : outcome DB :=
  s ← rebuildSecondaryIndices GetId heap (Range (store db)) (secondary db); Ok (with_secondary db s).
Definition syncIndices heap db : outcome DB := relationReindex heap db.

(** What [Open] does to a table beside wiring pointers and publishing it. *)
Definition open_table heap (t : string) (s : chunkStore) (dir : string) (epoch_ : Z) : outcome DB :=
  match relationSpecs types t with
  | Ok _ =>
      let db := {| name := t; counter := 0; store := s; persistQueue := []; deleteQueue := []; secondary := ∅; resById := ∅;
                   db_wal := openWAL (dir +:+ "/wal.log"); snapshots := ∅; epoch := epoch_ |} in
      db ← initIndices db;
      match syncIndices heap db with
      | Ok db => Ok (seedCounter heap (syncResById heap db))
      | _ => Panic
      end
  | _ => Panic
  end.

(** ** The queues of the unsafe path *)

Definition queueCreate heap db (entity : loc) : outcome (gmap loc goval * DB) :=
  let id := GetId (deref heap entity) in
  if (id =? 0)%Z then
    let db := next_counter db in
    heap ← setID heap (name db) entity (counter db);
    Ok (heap, with_queues db (persistQueue db ++ [entity]) (deleteQueue db))
  else
    when bool_decide (is_Some (resById db !! id)) => Ok (heap, db) ;;
    when existsb (fun queued => (GetId (deref heap queued) =? id)%Z) (persistQueue db) => Ok (heap, db) ;;
    Ok (heap, with_queues db (persistQueue db ++ [entity]) (deleteQueue db)).
Definition resetPersistQueue db : DB := with_queues db [] (deleteQueue db).

Definition queueDelete heap db id : outcome DB :=
  match resource db id with
  | None => Fail ErrNotFound
  | Some r =>
      when existsb (fun queued => (GetId (deref heap queued) =? id)%Z) (deleteQueue db) => Ok db ;;
      Ok (with_queues db (persistQueue db) (deleteQueue db ++ [item r]))
  end.
Definition resetDeleteQueue db : DB := with_queues db (persistQueue db) [].
Definition relationClearQueues db : DB := resetDeleteQueue (resetPersistQueue db).

Definition relationLive db : list loc := StorePointers (store db).
Definition relationPending db : list loc := persistQueue db.
Definition relationDeleteIDs heap db : list Z := (fun l => GetId (deref heap l)) <$> deleteQueue db.

Definition relationApplyPending heap db : outcome (gmap loc goval * DB) :=
  fold_outcome (fun (st : gmap loc goval * DB) entity =>
    when bool_decide (is_Some (resource st.2 (GetId (deref st.1 entity)))) => Fail ErrAlreadyExists ;;
    Ok (add st.1 st.2 entity)) (heap, db) (persistQueue db).

Definition relationMarkDirty db id : DB :=
  match resource db id with Some r => with_store db (markDirty (store db) (chunk r)) | None => db end.

(** The files of a directory by their names in it, and putting them back. *)
Definition strip_dir (dir path : string) : option string :=
  let prefix := dir +:+ "/" in
  if String.prefix prefix path then Some (String.substring (String.length prefix) (String.length path - String.length prefix) path) else None.
Definition directory (dir : string) (files : disk) : disk :=
  list_to_map (omap (fun p => (fun base => (base, p.2)) <$> strip_dir dir p.1) (map_to_list files)).
Definition with_directory (dir : string) (inside files : disk) : disk :=
  list_to_map ((fun p => (dir +:+ "/" +:+ p.1, p.2)) <$> map_to_list inside) ∪ filter (fun p => strip_dir dir p.1 = None) files.

(** The chunks of a table are in the directory of its name. *)
Definition relationSave (gob_encode_rows : structDef -> list goval -> outcome (list byte)) (mkdir : option gerror)
    (env : Z -> chunk_env) (trunc : truncate_env) heap db (files : disk) : DB * disk * outcome unit :=
  let '(s, chunk_files, r) := save types gob_encode_rows (name db) mkdir env heap (store db) (directory (name db) files) in
  let files := with_directory (name db) chunk_files files in
  let db := with_store db s in
  match r with
  | Ok _ => let '(w, files, r) := truncate (db_wal db) trunc files in (with_wal db w, files, r)
  | Fail e => (db, files, Fail e)
  | Panic => (db, files, Panic)
  end.

(** [UnsafeDB]: live pointers, with the blocks they may change marked.
    [ensured] is the answer of [ensureCommittedOwnership]. *)
Definition unsafe_Get db id (ensured : outcome unit) : outcome (DB * loc) :=
  match resource db id with
  | None => Fail ErrNotFound
  | Some r => _ ← ensured; let db := markChanged db in Ok (with_store db (markDirty (store db) (chunk r)), item r)
  end.
Definition unsafe_All db : DB * list loc :=
  let db := markChanged db in (with_store db (markAllDirty (store db)), StorePointers (store db)).

(** ** Reading *)

Definition table_Len db : Z := Len (store db).

(** The scan keeps the last match until it has one with a non-zero id. *)
Definition scan_step heap (d : structDef) (field : string) (raw : option (gotype * goval)) (st : Z) (l : loc) : outcome Z :=
  when negb (st =? 0)%Z => Ok st ;;
  match FieldByName d field with
  | None => Ok st
  | Some (i, f) =>
      when negb (exported f) => Panic ;;
      match raw with
      | Some (t, v) =>
          if gotype_eqb (ftype f) t && DeepEqual types heap t (field_value (deref heap l) i) v
          then Ok (GetId (deref heap l)) else Ok st
      | None => Ok st
      end
  end.

(** The first index, in the order of the map, that looks [field] up. *)
Definition lookup_index db (field : string) : option secondaryIndex :=
  snd <$> (snd <$> list_find (fun p => lookupField (spec p.2) = field) (map_range (secondary db))).

(** [findID field value]; a [nil] value is [None]. *)
Definition findID heap db (field : string) (raw : option (gotype * goval)) : outcome Z :=
  if bool_decide (field = entityIDField) then
    match raw with
    | Some (TBasic n KInt, VInt id) =>
        when negb (bool_decide (n = "int"%string)) => Fail ErrNotFound ;;
        if bool_decide (is_Some (resById db !! id)) then Ok id else Fail ErrNotFound
    | _ => Fail ErrNotFound
    end
  else
    match lookup_index db field with
    | Some x => match lookup_raw x raw with Some id => Ok id | None => Fail ErrNotFound end
    | None =>
        match types !! name db with
        | None => Panic
        | Some d =>
            id ← fold_outcome (scan_step heap d field raw) 0%Z (Range (store db));
            if (id =? 0)%Z then Fail ErrNotFound else Ok id
        end
    end.

Definition Filter heap db (filterFn : goval -> bool) : list goval :=
  List.filter filterFn (deref heap <$> Range (store db)).

Definition idsByIndexPrefix heap db (indexName : string) (prefix : list (option (gotype * goval))) : outcome (list Z) :=
  match secondary db !! indexName with
  | None => Fail (ErrText "nestory: index does not exist")
  | Some x => es ← rangePrefix heap x prefix; Ok (map (fun l => GetId (deref heap l)) es)
  end.
End table.

(** ** Specification *)

(** The cells of a table, its deleted rows included. *)
Definition owned (db : DB) : list loc := item <$> concat (chunks (store db)).

Section invariant.
Context (GetId : goval -> Z).

(** [resById] has exactly the live entities, each under its id, and ids are
    positive. *)
Record rows_ok (heap : gmap loc goval) (db : DB) : Prop := {
  ro_store : store_wf heap (store db);
  ro_slots : forall id r, resById db !! id = Some r -> exists slot, slot_at (store db) r = Some slot /\
    item slot ∈ Range (store db) /\ GetId (deref heap (item slot)) = id /\ (0 < id)%Z;
  ro_all : forall l, l ∈ Range (store db) -> exists r slot, resById db !! GetId (deref heap l) = Some r /\
    slot_at (store db) r = Some slot /\ item slot = l;
}.

(** What the table holds under an id: the entity and its version. *)
Definition row_at (heap : gmap loc goval) (db : DB) (id : Z) : option (goval * Z) :=
  (fun slot => (deref heap (item slot), version slot)) <$> resource db id.
End invariant.

(** * Lemmas *)

Section rows.
Context (GetId : goval -> Z).
Implicit Types (heap : gmap loc goval) (db : DB) (id : Z).

Lemma resource_Some heap db id slot : rows_ok GetId heap db -> resource db id = Some slot ->
  exists r, resById db !! id = Some r /\ slot_at (store db) r = Some slot /\ item slot ∈ Range (store db) /\
    GetId (deref heap (item slot)) = id /\ (0 < id)%Z.
Proof.
  intros H E. unfold resource in E. destruct (resById db !! id) as [r|] eqn:Er; [|done]. cbn in E.
  destruct (ro_slots _ _ _ H id r Er) as (slot' & Es & ?). rewrite Es in E. injection E as <-. by exists r.
Qed.

Lemma resource_is_Some heap db id : rows_ok GetId heap db -> is_Some (resource db id) <-> is_Some (resById db !! id).
Proof.
  intros H. unfold resource. destruct (resById db !! id) as [r|] eqn:Er; cbn; [|by split; intros [? ?]].
  destruct (ro_slots _ _ _ H id r Er) as (slot & -> & _). split; intros _; by eexists.
Qed.

Lemma rowCells_resource db id : rowCells db !! id = item <$> resource db id.
Proof. unfold rowCells, resource. rewrite lookup_omap. destruct (resById db !! id); [|done]. done. Qed.

Lemma owned_alloc heap db l : rows_ok GetId heap db -> l ∈ owned db -> is_Some (heap !! l).
Proof.
  intros [Hwf _ _] (slot & -> & Hin)%list_elem_of_fmap. pose proof (wf_alloc _ _ Hwf) as Ha. rewrite Forall_forall in Ha. by apply Ha.
Qed.

Lemma resource_owned heap db id slot : rows_ok GetId heap db -> resource db id = Some slot -> item slot ∈ owned db.
Proof.
  intros H E. destruct (resource_Some _ _ _ _ H E) as (r & _ & Es & _). apply list_elem_of_fmap_2. by eapply slot_at_concat.
Qed.

(** Distinct rows are in distinct cells. *)
Lemma resource_inj heap db id id' slot slot' : rows_ok GetId heap db -> resource db id = Some slot -> resource db id' = Some slot' ->
  item slot = item slot' -> id = id'.
Proof.
  intros H E E' Ei. destruct (resource_Some _ _ _ _ H E) as (_ & _ & _ & _ & <- & _), (resource_Some _ _ _ _ H E') as (_ & _ & _ & _ & <- & _).
  by rewrite Ei.
Qed.

(** Writes elsewhere do not concern a table. *)
Lemma rows_ok_frame heap heap' db : (forall l, l ∈ owned db -> heap' !! l = heap !! l) -> rows_ok GetId heap db -> rows_ok GetId heap' db.
Proof.
  intros Hh [Hwf Hs Ha].
  assert (forall l, l ∈ Range (store db) -> l ∈ owned db) as Hin.
  { intros l. rewrite (Range_live _ _ Hwf). intros (slot & -> & Hl)%list_elem_of_fmap. apply live_slots_elem in Hl. by apply list_elem_of_fmap_2. }
  assert (forall l, l ∈ Range (store db) -> deref heap' l = deref heap l) as Hd by (intros l Hl; unfold deref; by rewrite Hh by auto).
  split.
  - destruct Hwf as [W1 W2 W3 W4 W5 W6 W7 W8]. split; try done. rewrite Forall_forall in W7 |- *. intros slot Hsl.
    rewrite Hh by (by apply list_elem_of_fmap_2). by apply W7.
  - intros id r Hr. destruct (Hs id r Hr) as (slot & H1 & H2 & H3 & H4). exists slot. by rewrite Hd.
  - intros l Hl. rewrite Hd by done. by apply Ha.
Qed.

Lemma row_at_frame heap heap' db id : rows_ok GetId heap db -> (forall l, l ∈ owned db -> heap' !! l = heap !! l) ->
  row_at heap' db id = row_at heap db id.
Proof.
  intros H Hh. unfold row_at. destruct (resource db id) as [slot|] eqn:E; [|done]. cbn. unfold deref.
  by rewrite Hh by (by eapply resource_owned).
Qed.

(** ** The operations on rows *)

Lemma write_slot_owned heap (s : chunkStore) r (v : goval) : item <$> concat (chunks (write_slot heap s r v).2) = item <$> concat (chunks s).
Proof.
  unfold write_slot. destruct (slot_at s r) as [slot|] eqn:Es; [|done]. cbn.
  destruct (concat_alter (chunks s) r.1 r.2 slot {| item := item slot; version := version slot + 1; chunk := chunk slot |} Es) as (a & b & -> & ->).
  by rewrite !fmap_app, !fmap_cons.
Qed.

Definition bumped (slot : resourceSlot) : resourceSlot := {| item := item slot; version := version slot + 1; chunk := chunk slot |}.

(** A write changes one cell and the version of one row. *)
Lemma applyWrite_ok heap db id w slot : rows_ok GetId heap db -> resource db id = Some slot -> GetId (deref heap w) = id ->
  exists db', applyWrite heap db id w = (<[item slot := deref heap w]> heap, db') /\ rows_ok GetId (<[item slot := deref heap w]> heap) db' /\
    resource db' id = Some (bumped slot) /\ (forall id', id' <> id -> resource db' id' = resource db id') /\
    secondary db' = secondary db /\ name db' = name db /\ db_wal db' = db_wal db /\ owned db' = owned db.
Proof.
  intros H E Hw. destruct (resource_Some _ _ _ _ H E) as (r & Er & Es & HR & Hid & Hpos). unfold applyWrite. rewrite Er.
  pose proof (write_slot_spec heap (store db) r (deref heap w) slot (ro_store _ _ _ H) Es) as Hsp.
  pose proof (write_slot_owned heap (store db) r (deref heap w)) as Hown.
  destruct (write_slot heap (store db) r (deref heap w)) as [heap' s]. cbn [fst snd] in *.
  destruct Hsp as (Hwf & -> & HRs & Hs1 & Hs2 & _). eexists. split; [reflexivity|].
  assert (forall r0 slot0, slot_at (store db) r0 = Some slot0 -> exists slot1, slot_at s r0 = Some slot1 /\ item slot1 = item slot0) as Hkeep.
  { intros r0 slot0 Hr0. destruct (decide (r0 = r)) as [->|Hne]; [exists (bumped slot); split; [done|cbn; congruence]|].
    exists slot0. by rewrite Hs2. }
  assert (forall l, GetId (deref (<[item slot := deref heap w]> heap) l) = GetId (deref heap l)) as Hget.
  { intros l. unfold deref at 1. destruct (decide (l = item slot)) as [->|Hne]; [rewrite lookup_insert_eq; cbn; congruence|by rewrite lookup_insert_ne]. }
  split_and!; try done.
  - split; cbn [markChanged with_store store resById]; [done| |].
    + intros id0 r0 Hr0. destruct (ro_slots _ _ _ H id0 r0 Hr0) as (slot0 & A1 & A2 & A3 & A4).
      destruct (Hkeep r0 slot0 A1) as (slot1 & B1 & B2). exists slot1. rewrite B1, B2, HRs, Hget. done.
    + intros l. rewrite HRs. intros Hl. destruct (ro_all _ _ _ H l Hl) as (r0 & slot0 & A1 & A2 & A3).
      destruct (Hkeep r0 slot0 A2) as (slot1 & B1 & B2). exists r0, slot1. rewrite Hget, B2. done.
  - unfold resource. cbn. rewrite Er. cbn. exact Hs1.
  - intros id' Hne. unfold resource. cbn. destruct (resById db !! id') as [r'|] eqn:Er'; [|done]. cbn. apply Hs2.
    intros ->. destruct (ro_slots _ _ _ H id' r Er') as (slot0 & A1 & _ & A3 & _). apply Hne. rewrite <- A3. congruence.
Qed.

(** A new row gets a fresh cell. *)
Lemma add_ok heap db l : rows_ok GetId heap db -> resource db (GetId (deref heap l)) = None -> (0 < GetId (deref heap l))%Z ->
  exists l' db' ci, add GetId heap db l = (<[l' := deref heap l]> heap, db') /\ heap !! l' = None /\
    rows_ok GetId (<[l' := deref heap l]> heap) db' /\
    resource db' (GetId (deref heap l)) = Some {| item := l'; version := 0; chunk := ci |} /\
    (forall id', id' <> GetId (deref heap l) -> resource db' id' = resource db id') /\
    secondary db' = secondary db /\ name db' = name db /\ db_wal db' = db_wal db /\ owned db' = owned db ++ [l'].
Proof.
  intros H Hnone Hpos. unfold add. destruct (Append heap (store db) (deref heap l)) as [[heap' s] r] eqn:A.
  destruct (Append_spec _ _ _ _ _ _ (ro_store _ _ _ H) A) as (l' & Hl' & -> & Hwf & HR & _ & _ & Hs & Hkeep & _ & Hown).
  set (id := GetId (deref heap l)) in *.
  assert (resById db !! id = None) as Hn.
  { apply eq_None_not_Some. intros Hs'. apply (resource_is_Some _ _ _ H) in Hs'. rewrite Hnone in Hs'. by destruct Hs'. }
  assert (deref (<[l' := deref heap l]> heap) l' = deref heap l) as Hd by (unfold deref at 1; by rewrite lookup_insert_eq).
  assert (forall k, is_Some (heap !! k) -> deref (<[l' := deref heap l]> heap) k = deref heap k) as Hd'.
  { intros k [w Hk]. unfold deref at 1. rewrite lookup_insert_ne; [done|]. intros ->. congruence. }
  assert (forall k, k ∈ Range (store db) -> is_Some (heap !! k)) as Hal by (intros k Hk; by eapply Range_alloc; [apply H|]).
  assert (slot_value (<[l' := deref heap l]> heap) s r = deref heap l) as Hsv by (unfold slot_value; rewrite Hs; cbn; by rewrite lookup_insert_eq).
  rewrite Hsv. fold id. exists l'. eexists _, _. split; [reflexivity|]. split; [done|]. split_and!; try done.
  - split; cbn [markChanged with_rows store resById]; [done| |].
    + intros id0 r0. rewrite lookup_insert_Some. intros [[<- <-]|[Hne Hr0]].
      * eexists. split; [exact Hs|]. cbn [item]. rewrite HR, Hd.
        split_and!; [apply elem_of_app; right; left|done|done].
      * destruct (ro_slots _ _ _ H id0 r0 Hr0) as (slot0 & A1 & A2 & A3 & A4). exists slot0. rewrite HR, Hd' by auto.
        split_and!; [by apply Hkeep|apply elem_of_app; by left|done|done].
    + intros k. rewrite HR. intros [Hk| ->%list_elem_of_singleton]%elem_of_app.
      * rewrite Hd' by auto. destruct (ro_all _ _ _ H k Hk) as (r0 & slot0 & A1 & A2 & A3). exists r0, slot0.
        split_and!; [|by apply Hkeep|done]. rewrite lookup_insert_ne; [done|]. intros Heq. rewrite <- Heq in A1. congruence.
      * rewrite Hd. exists r. eexists. split; [by rewrite lookup_insert_eq|]. by split.
  - unfold resource. cbn. rewrite lookup_insert_eq. cbn. exact Hs.
  - intros id' Hne. unfold resource. cbn. rewrite lookup_insert_ne by done. destruct (resById db !! id') as [r'|] eqn:Er'; [|done]. cbn.
    destruct (ro_slots _ _ _ H id' r' Er') as (slot0 & A1 & _). by rewrite A1, (Hkeep _ _ A1).
Qed.

(** The loop over the removed entities. *)
Lemma removed_loop heap db ls :
  foldl (fun db l => with_rows (with_secondary db (removeSecondaryIndices GetId heap l (secondary db))) (store db)
    (delete (GetId (deref heap l)) (resById db))) db ls =
  with_rows (with_secondary db (foldl (fun sec l => removeSecondaryIndices GetId heap l sec) (secondary db) ls)) (store db)
    (foldl (fun m l => delete (GetId (deref heap l)) m) (resById db) ls).
Proof. revert db. induction ls as [|l ls IH]; intros db; cbn; [by destruct db|]. by rewrite IH. Qed.

Lemma lookup_deletes heap (m : gmap Z slotRef) ls id :
  foldl (fun m l => delete (GetId (deref heap l)) m) m ls !! id =
  if bool_decide (id ∈ (fun l => GetId (deref heap l)) <$> ls) then None else m !! id.
Proof.
  revert m. induction ls as [|l ls IH]; intros m; [done|]. cbn [foldl]. rewrite IH.
  rewrite (bool_decide_ext (id ∈ (fun l => GetId (deref heap l)) <$> l :: ls) (id = GetId (deref heap l) \/ id ∈ (fun l => GetId (deref heap l)) <$> ls)) by apply elem_of_cons.
  destruct (bool_decide_reflect (id ∈ (fun l => GetId (deref heap l)) <$> ls)) as [Hin|Hn].
  - by rewrite bool_decide_true by (by right).
  - destruct (decide (id = GetId (deref heap l))) as [->|Hne]; [by rewrite lookup_delete_eq, bool_decide_true by (by left)|].
    rewrite lookup_delete_ne by done. rewrite bool_decide_false; [done|]. by intros [?|?].
Qed.

Lemma relationDelete_ok heap db ids : rows_ok GetId heap db -> let db' := relationDelete GetId heap db ids in
  rows_ok GetId heap db' /\
  (forall id, resource db' id = if bool_decide (id ∈ ids) then None else resource db id) /\
  (exists ls, secondary db' = foldl (fun sec l => removeSecondaryIndices GetId heap l sec) (secondary db) ls /\
    forall l, l ∈ ls <-> exists id, id ∈ ids /\ rowCells db !! id = Some l) /\
  name db' = name db /\ db_wal db' = db_wal db /\ owned db' = owned db.
Proof.
  intros H. cbn zeta. unfold relationDelete. destruct (bool_decide_reflect (ids = ∅)) as [->|Hne].
  { split; [done|]. split; [intros id; by rewrite bool_decide_false by set_solver|]. split; [|done].
    exists []. split; [done|]. intros l. rewrite elem_of_nil. set_solver. }
  destruct (DeleteFunc heap (store db) (fun e => bool_decide (GetId e ∈ ids))) as [s removed] eqn:D.
  pose proof (DeleteFunc_wf heap (store db) (fun e => bool_decide (GetId e ∈ ids)) (ro_store _ _ _ H)) as Hwf. rewrite D in Hwf. cbn in Hwf.
  destruct (DeleteFunc_spec _ _ _ _ _ (ro_store _ _ _ H) D) as (Hc & _ & _ & _ & _ & HR & Hrem & _).
  assert (forall slot, slot ∈ live_slots (concat (chunks (store db))) (concat (tomb (store db))) ->
    selects heap (fun e => bool_decide (GetId e ∈ ids)) slot = bool_decide (GetId (deref heap (item slot)) ∈ ids)) as Hsel.
  { intros slot Hin. unfold selects, deref. destruct (Range_alloc heap (store db) (item slot) (ro_store _ _ _ H)) as [v ->]; [|done].
    rewrite (Range_live _ _ (ro_store _ _ _ H)). by apply list_elem_of_fmap_2. }
  assert (forall l, l ∈ removed <-> l ∈ Range (store db) /\ GetId (deref heap l) ∈ ids) as Hremoved.
  { intros l. rewrite Hrem, (Range_live _ _ (ro_store _ _ _ H)), !list_elem_of_fmap. split.
    - intros (slot & -> & Hin). apply list_elem_of_In, filter_In in Hin as [Hin Hs]. apply list_elem_of_In in Hin. rewrite Hsel in Hs by done.
      split; [by exists slot|by apply bool_decide_eq_true in Hs].
    - intros [(slot & -> & Hin) Hid]. exists slot. split; [done|]. apply list_elem_of_In, filter_In. split; [by apply list_elem_of_In|].
      rewrite Hsel by done. by apply bool_decide_eq_true. }
  assert (forall l, l ∈ Range s <-> l ∈ Range (store db) /\ GetId (deref heap l) ∉ ids) as Hkept.
  { intros l. rewrite HR, (Range_live _ _ (ro_store _ _ _ H)), !list_elem_of_fmap. split.
    - intros (slot & -> & Hin). apply list_elem_of_In, filter_In in Hin as [Hin Hs]. apply list_elem_of_In in Hin. cbn in Hs. rewrite Hsel in Hs by done.
      split; [by exists slot|]. by case_bool_decide.
    - intros [(slot & -> & Hin) Hid]. exists slot. split; [done|]. apply list_elem_of_In, filter_In. split; [by apply list_elem_of_In|].
      cbn. rewrite Hsel by done. by rewrite bool_decide_false. }
  rewrite removed_loop. cbn [with_store secondary store resById].
  set (db1 := with_rows _ _ _). assert (forall r, slot_at s r = slot_at (store db) r) as Hslot by (intros r; unfold slot_at; by rewrite Hc).
  assert (forall id, resById db1 !! id = if bool_decide (id ∈ ids) then None else resById db !! id) as Hby.
  { intros id. cbn [db1 with_rows resById]. rewrite lookup_deletes. destruct (bool_decide_reflect (id ∈ ids)) as [Hid|Hid].
    - case_bool_decide as Hin; [done|]. apply eq_None_not_Some. intros [r Hr]. apply Hin.
      destruct (ro_slots _ _ _ H id r Hr) as (slot & _ & A2 & A3 & _). rewrite <- A3. apply (list_elem_of_fmap_2 (fun l => GetId (deref heap l))).
      apply Hremoved. by rewrite A3.
    - rewrite bool_decide_false; [done|]. intros (l & -> & Hl)%list_elem_of_fmap. by apply Hremoved in Hl as [_ ?]. }
  assert (rows_ok GetId heap db1) as Hok1.
  { split; cbn [store]; [exact Hwf| |].
    - intros id r. rewrite Hby. case_bool_decide as Hid; [done|]. intros Hr. destruct (ro_slots _ _ _ H id r Hr) as (slot & A1 & A2 & A3 & A4).
      exists slot. split_and!; [by rewrite Hslot|apply Hkept; by rewrite A3|done|done].
    - intros l Hl. apply Hkept in Hl as [Hl Hid]. destruct (ro_all _ _ _ H l Hl) as (r & slot & A1 & A2 & A3). exists r, slot.
      rewrite Hby, bool_decide_false by done. by rewrite Hslot. }
  assert (forall id, resource db1 id = if bool_decide (id ∈ ids) then None else resource db id) as Hres.
  { intros id. unfold resource. rewrite Hby. case_bool_decide; [done|]. destruct (resById db !! id) as [r|]; [|done]. cbn. apply Hslot. }
  assert (forall l, l ∈ removed <-> exists id, id ∈ ids /\ rowCells db !! id = Some l) as Hls.
  { intros l. rewrite Hremoved. split.
    - intros [Hl Hid]. exists (GetId (deref heap l)). split; [done|]. rewrite rowCells_resource.
      destruct (ro_all _ _ _ H l Hl) as (r & slot & A1 & A2 & A3). unfold resource. rewrite A1. cbn. rewrite A2. cbn. by rewrite A3.
    - intros (id & Hid & Hl). rewrite rowCells_resource in Hl. apply fmap_Some in Hl as (slot & Hr & ->).
      destruct (resource_Some _ _ _ _ H Hr) as (r & _ & _ & A1 & A2 & _). by rewrite A2. }
  destruct (0 <? length removed)%nat.
  - split_and!; [by destruct Hok1|exact Hres|by exists removed|done|done|]. unfold owned. cbn. by rewrite Hc.
  - split_and!; [exact Hok1|exact Hres|by exists removed|done|done|]. unfold owned. cbn. by rewrite Hc.
Qed.
End rows.
