(* ===== verification/Wiring.v ===== *)
(** * Wiring live pointers (src/relations.go, lines 411-742)

    After a load, a flush or a commit that rebuilt the whole graph, relation
    fields are pointed at the stable pointers of the stores: to-one fields and
    reference slices by the key their pointers carry, computed own and inverse
    slices from what refers to the entity. A [relationWireIndex] holds the
    lookups for one such pass. *)
From S2P Require Import Prelude GoReflect RelationSchema SchemaRows RelationModel.

(** ** Data *)

(** A [map[any][]reflect.Value] whose keys all come from one field: its type
    is the dynamic type of every key. *)
Record indexedSlice := { is_type : gotype; is_values : gmap goval (list loc) }.
(** A [relationFieldKey] is an owner type and the position of a field. *)
Record relationWireIndex := {
  w_targets : gmap relationTargetKey loc;
  w_slices : gmap (string * nat) indexedSlice;
}.

Section wiring.
Context (types : typeEnv) (GetId : goval -> Z) `{!MapOrder string}.
Implicit Types (heap : gmap loc goval) (stores : gmap string (list loc)) (index : relationWireIndex) (r : relationSpec).

(** ** The index *)

(** One field of the loop of [indexEntityTargets]. *)
Definition index_entity_target heap (t : string) (l : loc) (ts : gmap relationTargetKey loc) (p : string * nat) :
    outcome (gmap relationTargetKey loc) :=
  match types !! t ≫= (fun d => fields d !! p.2), node_field heap l p.2 with
  | Some f, Some v =>
      when is_zero (ftype f) v || negb (exported f) => Ok ts ;;
      let k := {| tk_typ := t; tk_field := p.1; tk_value := v |} in
      Ok (if bool_decide (is_Some (ts !! k)) then ts else <[k := l]> ts)
  | _, _ => Panic
  end.
Definition indexEntityTargets heap (t : string) (l : loc) (fs : gmap string nat) (ts : gmap relationTargetKey loc) :=
  fold_outcome (index_entity_target heap t l) ts (map_range fs).

Definition push_group (m : gmap goval (list loc)) (k : goval) (l : loc) : gmap goval (list loc) := <[k := default [] (m !! k) ++ [l]]> m.
Definition add_slice index (r : relationSpec) (s : indexedSlice) : relationWireIndex :=
  {| w_targets := w_targets index; w_slices := <[(owner r, fieldIndex r) := s]> (w_slices index) |}.

(** The key a child carries in its back field: the id behind a pointer, or the
    id itself. *)
Definition own_slice_key heap (back : structField) (v : goval) : option goval :=
  match ftype back with
  | TPointer o => if exported back && field_exported types o entityIDField then relationKey types heap o v entityIDField else None
  | _ => if is_zero (ftype back) v || negb (exported back) then None else Some v
  end.
Definition own_slice_key_type (back : structField) : option gotype :=
  match ftype back with TPointer o => ftype ∘ snd <$> named_field types o entityIDField | t => Some t end.

Definition indexOwnSlice heap stores index r : outcome relationWireIndex :=
  match stores !! target r with
  | None => Ok index
  | Some foreign =>
      match named_field types (target r) (matchField r) with
      | None => Panic
      | Some (i, back) =>
          match own_slice_key_type back with
          | None => Panic
          | Some kt =>
              byOwner ← fold_outcome (fun byOwner candidate =>
                match node_field heap candidate i with
                | None => Panic
                | Some v => Ok match own_slice_key heap back v with Some k => push_group byOwner k candidate | None => byOwner end
                end) ∅ foreign;
              Ok (add_slice index r {| is_type := kt; is_values := byOwner |})
          end
      end
  end.

Definition namedRelationSpec (t name : string) : outcome (option relationSpec) :=
  match relationSpecs types t with
  | Ok specs => Ok (List.find (fun r => bool_decide (fieldName r = name)) specs)
  | Fail _ => Ok None
  | Panic => Panic
  end.

Definition inverse_key heap (back : relationSpec) (pointer : goval) : option goval :=
  if spec_exported types back && field_exported types (target back) (matchField back)
  then relationKey types heap (target back) pointer (matchField back) else None.
Definition indexInverseReference heap (byTarget : gmap goval (list loc)) (holder : loc) (pointer : goval) (back : relationSpec) :=
  match inverse_key heap back pointer with Some k => push_group byTarget k holder | None => byTarget end.
Definition inverse_candidate heap (back : relationSpec) (byTarget : gmap goval (list loc)) (candidate : loc) : outcome (gmap goval (list loc)) :=
  match node_field heap candidate (fieldIndex back) with
  | None => Panic
  | Some v =>
      when negb (many back) => Ok (indexInverseReference heap byTarget candidate v back) ;;
      Ok (foldl (fun (st : gmap goval (list loc) * gset goval) e =>
            match inverse_key heap back e with
            | None => st
            | Some k => if bool_decide (k ∈ st.2) then st else (push_group st.1 k candidate, {[k]} ∪ st.2)
            end) (byTarget, ∅) (slice_elems v)).1
  end.
Definition indexInverseSlice heap stores index r : outcome relationWireIndex :=
  match stores !! target r with
  | None => Ok index
  | Some foreign =>
      found ← namedRelationSpec (target r) (matchField r);
      match found with
      | None => Ok index
      | Some back =>
          match named_field types (target back) (matchField back) with
          | None => Panic
          | Some (_, f) =>
              byTarget ← fold_outcome (inverse_candidate heap back) ∅ foreign;
              Ok (add_slice index r {| is_type := ftype f; is_values := byTarget |})
          end
      end
  end.

(** The first loop of [buildRelationWireIndex]: [targetFields] has the
    positions of the fields some relation looks a type up by. *)
Definition wire_spec heap stores (st : relationWireIndex * gmap string (gmap string nat)) r :
    outcome (relationWireIndex * gmap string (gmap string nat)) :=
  match kind r, many r with
  | ownRelation, true => index ← indexOwnSlice heap stores st.1 r; Ok (index, st.2)
  | inverseRelation, _ => index ← indexInverseSlice heap stores st.1 r; Ok (index, st.2)
  | _, _ => Ok (st.1, match named_field types (target r) (matchField r) with
      | Some (i, _) => <[target r := <[matchField r := i]> (default ∅ (st.2 !! target r))]> st.2
      | None => st.2
      end)
  end.
Definition buildRelationWireIndex heap stores : outcome relationWireIndex :=
  st ← fold_outcome (fun st p => specs ← relationSpecs types p.1; fold_outcome (wire_spec heap stores) st specs)
    ({| w_targets := ∅; w_slices := ∅ |}, ∅) (map_range stores);
  ts ← fold_outcome (fun ts p => fold_outcome (fun ts l => indexEntityTargets heap p.1 l (default ∅ (st.2 !! p.1)) ts) ts p.2)
    (w_targets st.1) (map_range stores);
  Ok {| w_targets := ts; w_slices := w_slices st.1 |}.

(** ** Wiring one field *)

(** The canonical pointer for what [pointer] carries. Taking the key out of
    an unexported match field panics. *)
Definition canonical heap index r (pointer : goval) : outcome (option loc) :=
  match relationKey types heap (target r) pointer (matchField r) with
  | None => Ok None
  | Some k =>
      when negb (field_exported types (target r) (matchField r)) => Panic ;;
      Ok (w_targets index !! {| tk_typ := target r; tk_field := matchField r; tk_value := k |})
  end.

(** [field.Set] on the field of a relation panics when it is not exported. *)
Definition put_field heap (l : loc) r (v : goval) : outcome (gmap loc goval) :=
  when negb (spec_exported types r) => Panic ;; Ok (set_node_field heap l (fieldIndex r) v).

Definition wireToOne heap index (l : loc) r : outcome (gmap loc goval) :=
  match node_field heap l (fieldIndex r) with
  | None => Panic
  | Some v => found ← canonical heap index r v; put_field heap l r (VPointer found)
  end.

Definition wireReferenceSlice heap index (l : loc) r : outcome (gmap loc goval) :=
  match node_field heap l (fieldIndex r) with
  | None => Panic
  | Some v =>
      wired ← fold_outcome (fun wired e => found ← canonical heap index r e;
          Ok match found with Some tgt => wired ++ [VPointer (Some tgt)] | None => wired end) [] (slice_elems v);
      put_field heap l r (VSlice (Some wired))
  end.

(** The members of a computed slice in their new order: first those the field
    already lists, in its order, then the others in the order of the index. *)
Definition by_id heap (members : list loc) : gmap Z loc :=
  foldl (fun m p => match valueID GetId heap (VPointer (Some p)) with Some id => <[id := p]> m | None => m end) ∅ members.
Definition keep_listed heap (byID : gmap Z loc) (st : list loc * gset Z) (e : goval) : list loc * gset Z :=
  match valueID GetId heap e with
  | None => st
  | Some id =>
      match byID !! id with
      | None => st
      | Some p => if bool_decide (id ∈ st.2) then st else (st.1 ++ [p], {[id]} ∪ st.2)
      end
  end.
Definition wired_order heap (members : list loc) (current : list goval) : list loc :=
  let st := foldl (keep_listed heap (by_id heap members)) ([], ∅) current in
  foldl (fun wired p => match valueID GetId heap (VPointer (Some p)) with
    | Some id => if bool_decide (id ∈ st.2) then wired else wired ++ [p]
    | None => wired
    end) st.1 members.

(** [index.slices[field][key]]: nothing for a key of another dynamic type. *)
Definition slice_members index r (t : gotype) (k : goval) : list loc :=
  match w_slices index !! (owner r, fieldIndex r) with
  | Some s => if gotype_eqb (is_type s) t then default [] (is_values s !! k) else []
  | None => []
  end.
Definition wireIndexedSlice heap index (t : string) (l : loc) r : outcome (gmap loc goval) :=
  let put members := put_field heap l r (VSlice (Some ((fun p => VPointer (Some p)) <$> members))) in
  match relationKey types heap t (VPointer (Some l)) entityIDField with
  | None => put []
  | Some k =>
      match named_field types t entityIDField, node_field heap l (fieldIndex r) with
      | Some (_, f), Some v =>
          when negb (exported f) => Panic ;;
          put (wired_order heap (slice_members index r (ftype f) k) (slice_elems v))
      | _, _ => Panic
      end
  end.

Definition wireRelation index (t : string) (l : loc) heap r : outcome (gmap loc goval) :=
  when negb (many r) => wireToOne heap index l r ;;
  match kind r with
  | borrowRelation | optionRelation => wireReferenceSlice heap index l r
  | ownRelation | inverseRelation => wireIndexedSlice heap index t l r
  | ownedByRelation => Ok heap
  end.
Definition wireEntityRelations index (t : string) (specs : list relationSpec) heap (l : loc) : outcome (gmap loc goval) :=
  fold_outcome (wireRelation index t l) heap specs.

(** ** Wiring tables *)

(** [live] are the entities of the table; errors are panics. *)
Definition fillRelationFrom index heap (p : string * list loc) : outcome (gmap loc goval) :=
  match relationSpecs types p.1 with
  | Ok specs => fold_outcome (wireEntityRelations index p.1 specs) heap p.2
  | _ => Panic
  end.
Definition fillRelation heap stores (p : string * list loc) : outcome (gmap loc goval) :=
  match buildRelationWireIndex heap stores with Ok index => fillRelationFrom index heap p | _ => Panic end.
Definition rewireRelations heap stores (runtimes : list (string * list loc)) : outcome (gmap loc goval) :=
  match buildRelationWireIndex heap stores with
  | Ok index => fold_outcome (fillRelationFrom index) heap runtimes
  | _ => Panic
  end.
End wiring.
