(* ===== verification/Aggregate.v ===== *)
(** * Detached branches (src/relation_runtime.go, lines 569-790,
      src/snapshot.go, src/query.go, src/engine.go)

    What a reader gets is a copy of an entity and of all it owns; relation
    pointers inside the branch lead to the copies, those that leave it to live
    entities. A transaction remembers the copies, with a second, untouched copy
    of each to see what changed. *)
From S2P Require Import Prelude GoBytes GoReflect RelationSchema SchemaRows RelationModel RelationGraph CommittedGraph Transaction.
From S2P Require Import ChunkStore IndexSpecs SecondaryIndex IndexCommit Storage Table.

Notation tables := (gmap string DB) (only parsing).

Section aggregate.
Context (types : typeEnv) (GetId : goval -> Z) `{!MapOrder nodeKey} `{!MapOrder string}.
Implicit Types (heap : gmap loc goval) (dbs : tables) (r : relationSpec).

(** [committerFor] panics on a type that is not open. *)
Definition committerFor dbs (t : string) : outcome DB := match dbs !! t with Some db => Ok db | None => Panic end.

(** ** Redirecting relation pointers *)

(** [f] on the pointer of a relation field, or on each of a relation slice,
    one after the other. *)
Definition redirect (f : gmap loc goval -> goval -> goval) heap (l : loc) r : outcome (gmap loc goval) :=
  match node_field heap l (fieldIndex r) with
  | None => Panic
  | Some v =>
      if negb (many r) then Ok (set_node_field heap l (fieldIndex r) (f heap v)) else
      Ok (foldl (fun heap j =>
            match slice_elems (default (VSlice None) (node_field heap l (fieldIndex r))) !! j with
            | Some p => set_node_field heap l (fieldIndex r)
                (VSlice (Some (<[j := f heap p]> (slice_elems (default (VSlice None) (node_field heap l (fieldIndex r)))))))
            | None => heap
            end) heap (seq 0 (length (slice_elems v))))
  end.

Definition rewireSelfRelationPointer heap (r : relationSpec) (key : nodeKey) (tgt : loc) (pointer : goval) : goval :=
  match valueID GetId heap (readable types r pointer) with
  | Some id => if bool_decide (target r = key_typ key) && (id =? key_id key)%Z then VPointer (Some tgt) else pointer
  | None => pointer
  end.
Definition rewireSelfRelationField heap (l : loc) r (key : nodeKey) (tgt : loc) : outcome (gmap loc goval) :=
  redirect (fun heap p => rewireSelfRelationPointer heap r key tgt p) heap l r.

Definition rewireSingleOwnershipResource heap (key : nodeKey) (res : touchedResource) : outcome (gmap loc goval) :=
  specs ← relationSpecs types (key_typ key);
  fold_outcome (fun heap r =>
    heap ← rewireSelfRelationField heap (t_work res) r key (t_work res);
    rewireSelfRelationField heap (original res) r key (original res)) heap specs.

(** [positions] is nil for a single resource. *)
Definition resource_positions (rs : list touchedResource) : option (gmap nodeKey nat) :=
  if (1 <? length rs)%nat
  then Some (foldl (fun m p => <[{| key_typ := dbName p.2; key_id := t_id p.2 |} := p.1]> m) ∅ (zip (seq 0 (length rs)) rs))
  else None.
Definition rewireResourcePointer (rs : list touchedResource) (positions : option (gmap nodeKey nat)) (orig : bool) r heap (pointer : goval) : goval :=
  match valueID GetId heap (readable types r pointer) with
  | None => pointer
  | Some id =>
      let at_ := match positions with
        | Some m => m !! {| key_typ := target r; key_id := id |}
        | None =>
            match rs with
            | [res] => if bool_decide (dbName res = target r) && (t_id res =? id)%Z then Some 0 else None
            | _ => None
            end
        end in
      match at_ ≫= (rs !!.) with
      | Some res => VPointer (Some (if orig then original res else t_work res))
      | None => pointer
      end
  end.
Definition rewireResourceField (rs : list touchedResource) (positions : option (gmap nodeKey nat)) (orig : bool) heap (l : loc) r :
    outcome (gmap loc goval) :=
  redirect (rewireResourcePointer rs positions orig r) heap l r.
Definition rewireOwnershipResources heap (rs : list touchedResource) : outcome (gmap loc goval) :=
  let positions := resource_positions rs in
  fold_outcome (fun heap res =>
    specs ← relationSpecs types (dbName res);
    fold_outcome (fun heap r =>
      heap ← rewireResourceField rs positions false heap (t_work res) r;
      rewireResourceField rs positions true heap (original res) r) heap specs) heap rs.

(** ** Cloning a branch *)

Definition snapshot_resource heap dbs (key : nodeKey) : outcome (gmap loc goval * touchedResource) :=
  db ← committerFor dbs (key_typ key);
  match snapshotResource heap db (key_id key) with
  | (heap, Some (w, o, v)) => Ok (heap, {| dbName := key_typ key; t_id := key_id key; ver := v; t_work := w; original := o |})
  | (_, None) => Fail ErrNotFound
  end.

Definition cloneSingleOwnershipResource heap dbs (root : nodeKey) : outcome (gmap loc goval * loc * list touchedResource) :=
  p ← snapshot_resource heap dbs root;
  heap ← rewireSingleOwnershipResource p.1 root p.2;
  Ok (heap, t_work p.2, [p.2]).

(** The loop over the keys of the branch. *)
Definition clone_key dbs (root : nodeKey) (st : gmap loc goval * list touchedResource * option loc) (key : nodeKey) :
    outcome (gmap loc goval * list touchedResource * option loc) :=
  let '(heap, rs, rootWork) := st in
  p ← snapshot_resource heap dbs key;
  Ok (p.1, rs ++ [p.2], if bool_decide (key = root) then Some (t_work p.2) else rootWork).

(** [c] is what [ensureCommittedOwnership] leaves. A branch always contains
    its root. *)
Definition cloneOwnershipAggregate heap dbs c (root : nodeKey) :
    outcome (committedOwnership * gmap loc goval * loc * list touchedResource) :=
  if negb (committedOwnerHasChildren c root) then
    p ← cloneSingleOwnershipResource heap dbs root; Ok (c, p.1.1, p.1.2, p.2)
  else
    k ← committedOwnershipKeys c root;
    st ← fold_outcome (clone_key dbs root) (heap, [], None) k.2;
    let '(heap, rs, rootWork) := st in
    heap ← rewireOwnershipResources heap rs;
    match rootWork with Some w => Ok (k.1, heap, w, rs) | None => Panic end.

(** ** Copies after a conflict *)

(** The loop of [rewireAggregateCopies]. *)
Definition rewire_copy (copies : gmap nodeKey loc) heap (ref : resolvedRelation) : outcome (gmap loc goval) :=
  match copies !! r_holder ref, copies !! r_target ref with
  | Some holder, Some tgt =>
      when negb (many (r_spec ref)) && negb (spec_exported types (r_spec ref)) => Panic ;;
      redirect (fun heap p =>
        if negb (many (r_spec ref)) then VPointer (Some tgt) else
        match valueID GetId heap (readable types (r_spec ref) p) with
        | Some id => if (id =? key_id (r_target ref))%Z then VPointer (Some tgt) else p
        | None => p
        end) heap holder (r_spec ref)
  | _, _ => Ok heap
  end.
Definition rewireAggregateCopies (m : relationModel) (copies : gmap nodeKey loc) heap : outcome (gmap loc goval) :=
  fold_outcome (rewire_copy copies) heap (refs m).

(** The stores a graph is collected from: those of the open tables and of the
    types registered but not open, [closed]. *)
Definition registries_of heap (closed : gmap string chunkStore) dbs : registries :=
  {| storeRegistry := ((fun db => StorePointers (store db)) <$> dbs) ∪ (StorePointers <$> closed);
     baseRegistry := (fun db => {| RelationModel.relationLive := relationLive db; RelationModel.relationPending := relationPending db;
                                   RelationModel.relationDeleteIDs := relationDeleteIDs GetId heap db |}) <$> dbs |}.

Definition rewireTouchedCopies heap (closed : gmap string chunkStore) dbs (rs : list touchedResource) : outcome (gmap loc goval) :=
  let copies : gmap nodeKey loc := foldl (fun m res => <[{| key_typ := dbName res; key_id := t_id res |} := t_work res]> m) ∅
    (List.filter (fun res => bool_decide (is_Some (dbs !! dbName res))) rs) in
  match collectRelationNodes GetId heap (registries_of heap closed dbs) false None with
  | Ok ns =>
      match buildRelationModel types heap ns with
      | Ok m => rewireAggregateCopies m copies heap
      | Fail _ => Ok heap
      | Panic => Panic
      end
  | Fail _ => Ok heap
  | Panic => Panic
  end.

(** The loop of [refresh]: the copies take the state of the rows. *)
Definition refresh_resource dbs (st : gmap loc goval * list touchedResource) (res : touchedResource) :
    outcome (gmap loc goval * list touchedResource) :=
  db ← committerFor dbs (dbName res);
  match resourceVersion db (t_id res) with
  | None => Ok (st.1, st.2 ++ [res])
  | Some v =>
      let heap := refreshSnapshot st.1 db (t_id res) (t_work res) in
      let heap := refreshSnapshot heap db (t_id res) (original res) in
      Ok (heap, st.2 ++ [{| dbName := dbName res; t_id := t_id res; ver := v; t_work := t_work res; original := original res |}])
  end.
Definition refresh heap (closed : gmap string chunkStore) dbs (tx : transactionState) : outcome (gmap loc goval * transactionState) :=
  st ← fold_outcome (refresh_resource dbs) (heap, []) (copyResources tx);
  heap ← rewireTouchedCopies st.1 closed dbs st.2;
  Ok (heap, match st.2 with
            | [] => tx
            | first :: rest => with_resources tx (Some first) rest (resourcePos tx)
            end).

(** ** Reading through a transaction *)

Definition getInTransaction heap dbs c (en : transactionEngine) (h : positive) (root : nodeKey) :
    outcome (committedOwnership * gmap loc goval * transactionEngine * loc) :=
  match states en !! h with
  | None => Panic
  | Some tx =>
      existing ← Transaction.work tx (key_typ root) (key_id root);
      match existing with
      | Some w => Ok (c, heap, en, w)
      | None =>
          p ← cloneOwnershipAggregate heap dbs c root;
          let '(c, heap, w, rs) := p in
          en ← recordBatch en h rs (Some w);
          Ok (c, heap, en, w)
      end
  end.

(** [Tx.Get]: what the transaction creates is not a copy. *)
Definition Tx_Get heap dbs c en (h : positive) (key : nodeKey) : outcome (committedOwnership * gmap loc goval * transactionEngine * loc) :=
  match states en !! h ≫= fun tx => creates tx !! key with
  | Some w => Ok (c, heap, en, w)
  | None => getInTransaction heap dbs c en h key
  end.

(** ** Branches of one node, outside a transaction *)

Definition with_snapshots (db : DB) (s : gmap loc detachedRoot) : DB :=
  {| name := name db; counter := counter db; store := store db; persistQueue := persistQueue db; deleteQueue := deleteQueue db;
     secondary := secondary db; resById := resById db; db_wal := db_wal db; snapshots := s; epoch := epoch db |}.

Definition rewireDetachedRoot heap (key : nodeKey) (w : loc) : outcome (gmap loc goval) :=
  specs ← relationSpecs types (key_typ key);
  fold_outcome (fun heap r => rewireSelfRelationField heap w r key w) heap specs.

(** [None]: the branch has more nodes. [participant] says whether the type
    takes part in the relation graph. *)
Definition getDetachedRoot heap (db : DB) c (participant : bool) (root : nodeKey) : outcome (option (gmap loc goval * DB * loc)) :=
  when participant && committedOwnerHasChildren c root => Ok None ;;
  match resource db (key_id root) with
  | None => Fail ErrNotFound
  | Some slot =>
      let '(heap, w) := copy_cell heap (item slot) in
      let original_ := deref heap w in
      heap ← rewireDetachedRoot heap root w;
      Ok (Some (heap, with_snapshots db (<[w := {| dr_id := key_id root; dr_version := version slot; dr_original := original_ |}]> (snapshots db)), w))
  end.

Definition promoteDetachedRoot heap (db : DB) (en : transactionEngine) (branch : loc) : outcome (gmap loc goval * DB * transactionEngine) :=
  match snapshots db !! branch with
  | None => Ok (heap, db, en)
  | Some s =>
      let '(heap, original_) := new_cell heap (dr_original s) in
      let '(en, h) := begin en in
      en ← record en h {| dbName := name db; t_id := dr_id s; ver := dr_version s; t_work := branch; original := original_ |};
      Ok (heap, with_snapshots db (delete branch (snapshots db)), en)
  end.

(** [DB.Get]. *)
Definition Get heap dbs c en (participant : bool) (db : DB) (root : nodeKey) :
    outcome (committedOwnership * gmap loc goval * tables * transactionEngine * loc) :=
  detached ← getDetachedRoot heap db c participant root;
  match detached with
  | Some (heap, db, w) => Ok (c, heap, <[name db := db]> dbs, en, w)
  | None =>
      let '(en, h) := begin en in
      match getInTransaction heap dbs c en h root with
      | Ok (c, heap, en, w) => Ok (c, heap, dbs, en, w)
      | Fail e => Fail e
      | Panic => Panic
      end
  end.

(** ** Staging *)

(** [Tx.Delete]. *)
Definition Tx_Delete (db : DB) (tx : transactionState) (key : nodeKey) : outcome transactionState :=
  when bool_decide (is_Some (creates tx !! key)) => stageDelete tx {| sd_key := key; sd_ver := 0 |} ;;
  match resource db (key_id key) with
  | None => Fail ErrNotFound
  | Some slot => stageDelete tx {| sd_key := key; sd_ver := version slot |}
  end.
(** What was staged before an error stays staged. *)
Fixpoint Tx_DeleteMany (db : DB) (tx : transactionState) (seen : gset Z) (ids : list Z) : transactionState * outcome unit :=
  match ids with
  | [] => (tx, Ok tt)
  | id :: ids =>
      if bool_decide (id ∈ seen) then Tx_DeleteMany db tx seen ids else
      match Tx_Delete db tx {| key_typ := name db; key_id := id |} with
      | Ok tx => Tx_DeleteMany db tx ({[id]} ∪ seen) ids
      | Fail e => (tx, Fail e)
      | Panic => (tx, Panic)
      end
  end.

(** The pointers a created entity leads to through its own fields. *)
Definition owned_pointers heap (l : loc) (specs : list relationSpec) : outcome (list (string * goval)) :=
  fold_outcome (fun out r =>
    when negb (bool_decide (kind r = ownRelation)) => Ok out ;;
    match node_field heap l (fieldIndex r) with
    | None => Panic
    | Some v => Ok (out ++ (if negb (many r) then [(target r, v)] else (fun e => (target r, e)) <$> slice_elems v))
    end) [] specs.

(** [stageCreatedOwnershipTree]: a worklist of the pointers still to stage, in
    the order of the recursion. The ids given and the entities staged before
    an error remain. [fuel] bounds the pointers that are followed. *)
Fixpoint stage_tree (fuel : nat) heap dbs (tx : transactionState) (seen : gset loc) (todo : list (string * goval)) :
    gmap loc goval * tables * transactionState * outcome unit :=
  match fuel, todo with
  | _, [] => (heap, dbs, tx, Ok tt)
  | O, _ => (heap, dbs, tx, Panic)
  | S fuel, (t, VPointer (Some l)) :: todo =>
      if bool_decide (l ∈ seen) then stage_tree fuel heap dbs tx seen todo else
      match dbs !! t with
      | None => (heap, dbs, tx, Fail (ErrText "nestory: is not open"))
      | Some db =>
          match relationPrepareCreate types GetId heap db l with
          | Fail e => (heap, dbs, tx, Fail e)
          | Panic => (heap, dbs, tx, Panic)
          | Ok (heap, db) =>
              let dbs := <[t := db]> dbs in
              match stageCreate tx {| key_typ := t; key_id := GetId (deref heap l) |} l with
              | Fail e => (heap, dbs, tx, Fail e)
              | Panic => (heap, dbs, tx, Panic)
              | Ok tx =>
                  match (specs ← relationSpecs types t; owned_pointers heap l specs) with
                  | Ok next => stage_tree fuel heap dbs tx ({[l]} ∪ seen) (next ++ todo)
                  | Fail e => (heap, dbs, tx, Fail e)
                  | Panic => (heap, dbs, tx, Panic)
                  end
              end
          end
      end
  | S _, _ :: _ => (heap, dbs, tx, Fail (ErrText "nestory: create requires non-nil entity pointers"))
  end.

(** Every cell is staged once, so there are at most as many pointers to follow
    as the cells hold. *)
Definition stage_fuel heap : nat :=
  S (S (list_sum ((fun p => list_sum ((fun v => S (length (slice_elems v))) <$> struct_fields p.2)) <$> map_to_list heap))).
Definition stageCreatedOwnershipTree heap dbs (tx : transactionState) (t : string) (root : loc) :
    gmap loc goval * tables * transactionState * outcome unit :=
  stage_tree (stage_fuel heap) heap dbs tx ∅ [(t, VPointer (Some root))].
End aggregate.
