(* ===== verification/GraphCommit.v ===== *)
(** * Commits that rebuild the relation graph (src/engine.go, lines 625-725,
      924-963 and 1062-1250)

    A commit whose change the incremental index does not support validates a
    whole model of the graph it would leave: the committed one with the copies
    and the creates in place of the rows. Before it is logged, the back
    references of owned slices are written into the copies, and into copies of
    further rows where they differ. After the rows are written, the model is
    bound to the live entities. *)
From S2P Require Import Prelude GoReflect RelationSchema SchemaRows RelationModel CommittedGraph RelationDelta Transaction.
From S2P Require Import ChunkStore SecondaryIndex Storage Table Aggregate.

Definition with_nodes (m : relationModel) (ns : gmap nodeKey loc) : relationModel :=
  {| nodes := ns; targets := targets m; targetFields := targetFields m; refs := refs m; unresolved := unresolved m;
     missing := missing m; owners := owners m; outgoing := outgoing m |}.

Section graph_commit.
Context (types : typeEnv) (GetId : goval -> Z) `{!MapOrder nodeKey} `{!MapOrder string}.
Implicit Types (heap : gmap loc goval) (dbs : gmap string DB) (m : relationModel).

(** The rows of all tables, as [snapshotTouchedResource] finds them. *)
Definition table_rows (t : string) (db : DB) : list (nodeKey * (loc * Z)) :=
  omap (fun p => slot ← slot_at (store db) p.2; Some ({| key_typ := t; key_id := p.1 |}, (item slot, version slot)))
    (map_to_list (resById db)).
Definition live_rows dbs : gmap nodeKey (loc * Z) := list_to_map (concat ((fun p => table_rows p.1 p.2) <$> map_to_list dbs)).

(** ** The graph a commit would leave *)

Record transactionRelationState := {
  rs_committed : option relationModel;
  rs_nodes : gmap nodeKey loc;
  rs_targets : gmap relationTargetKey indexedRelationTarget;
  rs_targetFields : gmap string (gset string);
  rebuild : bool;
}.

Definition relationModelHasType m (t : string) : bool := existsb (fun p => bool_decide (key_typ p.1 = t)) (map_to_list (nodes m)).

Definition relationNodeTargetsOverlap heap (ts : gmap relationTargetKey indexedRelationTarget) (key : nodeKey) (l : loc) (fs : gset string) : bool :=
  existsb (fun field =>
    match relationKey types heap (key_typ key) (VPointer (Some l)) field with
    | Some v => bool_decide (is_Some (ts !! {| tk_typ := key_typ key; tk_field := field; tk_value := v |}))
    | None => false
    end) (set_range fs).

Definition relationTargetKeysChanged heap (overrides committed : gmap nodeKey loc) (fs : gmap string (gset string)) : outcome bool :=
  any_changed (fun p =>
    match committed !! p.1 with
    | None => Ok false
    | Some before_ => any_changed (fun name => named_field_changed types heap (key_typ p.1) name before_ p.2)
        (set_range (default ∅ (fs !! key_typ p.1)))
    end) (map_range overrides).

(** One create: does it add a key that exists, and the targets with its keys. *)
Definition index_create heap (ns : gmap nodeKey loc) (fs : gmap string (gset string))
    (st : gmap relationTargetKey indexedRelationTarget * bool) (key : nodeKey) :
    outcome (gmap relationTargetKey indexedRelationTarget * bool) :=
  match ns !! key with
  | None => Panic
  | Some l =>
      let fields := default ∅ (fs !! key_typ key) in
      Ok (indexRelationNodeTargets types heap st.1 key l fields, st.2 || relationNodeTargetsOverlap heap st.1 key l fields)
  end.

Definition prepareTransactionRelationState heap (reg : registries) (committed : option relationModel) (overrides cs : gmap nodeKey loc) :
    outcome transactionRelationState :=
  match committed with
  | None =>
      ns ← collectRelationNodesWithOverrides GetId heap reg false overrides;
      fs ← relationTargetFields types ns;
      Ok {| rs_committed := None; rs_nodes := ns; rs_targets := buildRelationTargetIndexFromFields types heap ns fs; rs_targetFields := fs;
            rebuild := true |}
  | Some cm =>
      let ns := overrides ∪ nodes cm in
      if existsb (fun p => negb (relationModelHasType cm (key_typ p.1))) (map_range cs) then
        fs ← relationTargetFields types ns;
        Ok {| rs_committed := Some cm; rs_nodes := ns; rs_targets := buildRelationTargetIndexFromFields types heap ns fs; rs_targetFields := fs;
              rebuild := true |}
      else
        changed ← relationTargetKeysChanged heap overrides (nodes cm) (targetFields cm);
        if changed : bool then
          Ok {| rs_committed := Some cm; rs_nodes := ns; rs_targets := buildRelationTargetIndexFromFields types heap ns (targetFields cm);
                rs_targetFields := targetFields cm; rebuild := true |}
        else if bool_decide (cs = ∅) then
          Ok {| rs_committed := Some cm; rs_nodes := ns; rs_targets := targets cm; rs_targetFields := targetFields cm; rebuild := false |}
        else
          st ← fold_outcome (index_create heap ns (targetFields cm)) (targets cm, false) (map_range cs).*1;
          Ok {| rs_committed := Some cm; rs_nodes := ns; rs_targets := st.1; rs_targetFields := targetFields cm; rebuild := st.2 |}
  end.

(** [overrides] of [validateTransactionGraph]: the copies of open types, then
    the creates. *)
Definition transaction_overrides dbs (rs : list touchedResource) (cs : gmap nodeKey loc) : gmap nodeKey loc :=
  cs ∪ foldl (fun (ns : gmap nodeKey loc) r => if bool_decide (is_Some (dbs !! dbName r)) then <[resource_node r := t_work r]> ns else ns) ∅ rs.

(** [children] is the published [outgoing]. *)
Definition validateTransactionGraph heap (closed : gmap string chunkStore) dbs c (rs : list touchedResource) (cs : gmap nodeKey loc)
    (ds : gmap nodeKey stagedDelete) : outcome (relationModel * gset nodeKey) :=
  let overrides := transaction_overrides dbs rs cs in
  s ← prepareTransactionRelationState heap (registries_of GetId heap closed dbs) (graph c) overrides cs;
  m ← (match rebuild s, rs_committed s with
       | true, _ => buildRelationModelFromTargets types heap (rs_nodes s) (rs_targets s) (rs_targetFields s)
       | false, Some cm => buildRelationModelDelta types heap cm (rs_nodes s) (rs_targets s) overrides
       | false, None => Panic
       end);
  deleted ← deletionClosure m (c_outgoing c) (dom ds);
  _ ← validateRequiredRelations m deleted;
  Ok (m, deleted).

(** ** Back references *)

Definition ownSliceBackReferencePersists heap m (ref : resolvedRelation) : outcome bool :=
  match nodes m !! r_target ref, back_field types (r_spec ref) with
  | Some child, Some (i, t) =>
      match node_field heap child i with
      | None => Panic
      | Some back =>
          if is_pointer t then
            Ok (back_exported types (r_spec ref) &&
                bool_decide (valueID GetId heap back = Some (key_id (r_holder ref)))) else
          match nodes m !! r_holder ref with
          | None => Panic
          | Some own => Ok match id_field_of types heap (key_typ (r_holder ref)) own with Some id => back_exported types (r_spec ref) && scalarEqual (t, back) id | None => false end
          end
      end
  | _, _ => Panic
  end.

(** A reference of an owned slice whose child does not carry it. *)
Definition back_reference_due heap m (ref : resolvedRelation) : outcome bool :=
  when negb (bool_decide (kind (r_spec ref) = ownRelation)) || negb (many (r_spec ref)) => Ok false ;;
  same ← ownSliceBackReferencePersists heap m ref; Ok (negb same).

(** The loop of [materializeOwnBackReferences]: the model, the changed
    resources and their keys. *)
Definition materialize_ref dbs (available : gmap nodeKey touchedResource) (cs : gmap nodeKey loc) (deleted : gset nodeKey)
    (st : gmap loc goval * relationModel * list touchedResource * gset nodeKey) (ref : resolvedRelation) :
    outcome (gmap loc goval * relationModel * list touchedResource * gset nodeKey) :=
  let '(heap, m, changed, keys) := st in
  due ← back_reference_due heap m ref;
  when negb due => Ok st ;;
  let tgt := r_target ref in
  when bool_decide (tgt ∈ deleted) => Ok st ;;
  match cs !! tgt with
  | Some work_ =>
      let m := with_nodes m (<[tgt := work_]> (nodes m)) in
      p ← syncOwnSliceBackReference types m heap ref; Ok (p.1, m, changed, keys)
  | None =>
      if bool_decide (tgt ∈ keys) then p ← syncOwnSliceBackReference types m heap ref; Ok (p.1, m, changed, keys) else
      found ← (match available !! tgt with
               | Some res => Ok (heap, res)
               | None => snapshotTouchedResource heap (live_rows dbs) tgt
               end);
      let '(heap, res) := found in
      let m := with_nodes m (<[tgt := t_work res]> (nodes m)) in
      p ← syncOwnSliceBackReference types m heap ref;
      Ok (if (p.2 : bool) then (p.1, m, changed ++ [res], {[tgt]} ∪ keys) else (p.1, m, changed, keys))
  end.
Definition materializeOwnBackReferences heap dbs m (transactionResources changed : list touchedResource) (cs : gmap nodeKey loc)
    (deleted : gset nodeKey) : outcome (gmap loc goval * relationModel * list touchedResource) :=
  _ ← fold_outcome (fun _ r => _ ← committerFor dbs (dbName r); Ok tt) tt (transactionResources ++ changed);
  let available := foldl (fun (rs : gmap nodeKey touchedResource) r => <[resource_node r := r]> rs) ∅ transactionResources in
  st ← fold_outcome (materialize_ref dbs available cs deleted) (heap, m, changed, list_to_set (resource_node <$> changed)) (refs m);
  Ok (st.1.1.1, st.1.1.2, st.1.2).

(** Are the rows a commit writes all that its creates change? The back
    references of what it writes are brought in line on the way. *)
Fixpoint sync_covered heap m (covered : gset nodeKey) (rs : list resolvedRelation) : outcome (gmap loc goval * bool) :=
  match rs with
  | [] => Ok (heap, true)
  | ref :: rs =>
      due ← back_reference_due heap m ref;
      if negb due then sync_covered heap m covered rs else
      if negb (bool_decide (r_target ref ∈ covered)) then Ok (heap, false) else
      p ← syncOwnSliceBackReference types m heap ref;
      sync_covered p.1 m covered rs
  end.
Definition prepareStructuralCreateWAL heap dbs m (rs : list touchedResource) (cs : gmap nodeKey loc) : outcome (gmap loc goval * bool) :=
  let covered : gset nodeKey := list_to_set (resource_node <$> List.filter (fun r => bool_decide (is_Some (dbs !! dbName r))) rs) ∪ dom cs in
  sync_covered heap m covered (refs m).

(** ** After the rows are written *)

Definition bind_live dbs m (key : nodeKey) : outcome relationModel :=
  db ← committerFor dbs (key_typ key);
  match relationValue db (key_id key) with
  | None => Fail ErrRelationInvariant
  | Some l => Ok (with_nodes m (<[key := l]> (nodes m)))
  end.
Definition bindRelationModelToLiveNodes dbs m (rs : list touchedResource) (cs : gmap nodeKey loc) : outcome relationModel :=
  m ← fold_outcome (fun m r => if bool_decide (is_Some (dbs !! dbName r)) then bind_live dbs m (resource_node r) else Ok m) m rs;
  fold_outcome (bind_live dbs) m (map_range cs).*1.
End graph_commit.
