(* ===== verification/World.v ===== *)
(** * The state of the process

    The package-level state of nestory in one record - the heap of entities,
    the open tables, the transaction engine, the published relation graph, the
    files - and the monad of the operations that change it: a state, and an
    outcome. What an operation did before it failed remains. *)
From S2P Require Import Prelude GoBytes GoReflect RelationSchema SchemaRows RelationModel CommittedGraph Transaction.
From S2P Require Import WalFrame WalLog ChunkStore IndexSpecs SecondaryIndex Storage Table Aggregate.

(** ** The data of the Tower (src/tower.go)

    A replica is a second, private copy of the committed graph: one shadow cell
    per node, with the relation fields wired to shadows. Replicas are objects
    that are changed in place, so the state keeps a store of them. The memory
    layout of structs is not modelled: a segment is the run of its fields. *)
Record towerFieldPlan := {
  tf_index : nat; relational : bool; tf_many : bool; tf_slice : bool;
  targetIDIndex : option nat; tf_target : string;
}.
Record cachedTowerFieldPlan := { tp_fields : list towerFieldPlan; segments : list (list nat); tp_equal : bool }.
Record towerRelationState := { rs_present : bool; rs_one : Z; rs_many : option (list goval) }.
Record towerWalkRelation := { wr_index : nat; wr_many : bool; wr_one : goval; wr_elements : list goval }.
Record towerWalkEntry := { we_key : nodeKey; we_live : loc; we_shadow : loc; we_relations : list towerWalkRelation }.
Record towerTypeWalk := {
  tw_typ : string; tw_plan : cachedTowerFieldPlan; tw_keyFields : list towerFieldPlan; tw_entries : list towerWalkEntry;
}.
Record towerBranchNode := { bn_key : nodeKey; bn_live : loc; bn_shadow : loc }.
Record towerChange := { tc_key : nodeKey; tc_live : loc; tc_shadow : loc; tc_fields : list nat }.

(** [tr_index] is [None] while the replica and the published ownership share
    one index object, else the index as it was when it was replaced. *)
Record towerReplica := {
  tr_epochs : gmap string Z;
  tr_nodes : gmap nodeKey loc;
  tr_relations : gmap (nodeKey * nat) towerRelationState;
  tr_walk : list towerTypeWalk;
  tr_index : option committedRelationIndex;
  tr_branches : gmap nodeKey (list towerBranchNode);
  tr_branchNodes : Z;
}.
Record Tower := { t_replica : option positive; t_replicas : gmap positive towerReplica }.

Definition with_tr_epochs (r : towerReplica) (e : gmap string Z) : towerReplica :=
  {| tr_epochs := e; tr_nodes := tr_nodes r; tr_relations := tr_relations r; tr_walk := tr_walk r; tr_index := tr_index r;
     tr_branches := tr_branches r; tr_branchNodes := tr_branchNodes r |}.
Definition with_tr_nodes (r : towerReplica) (ns : gmap nodeKey loc) : towerReplica :=
  {| tr_epochs := tr_epochs r; tr_nodes := ns; tr_relations := tr_relations r; tr_walk := tr_walk r; tr_index := tr_index r;
     tr_branches := tr_branches r; tr_branchNodes := tr_branchNodes r |}.
Definition with_tr_relations (r : towerReplica) (rs : gmap (nodeKey * nat) towerRelationState) : towerReplica :=
  {| tr_epochs := tr_epochs r; tr_nodes := tr_nodes r; tr_relations := rs; tr_walk := tr_walk r; tr_index := tr_index r;
     tr_branches := tr_branches r; tr_branchNodes := tr_branchNodes r |}.
Definition with_tr_walk (r : towerReplica) (ws : list towerTypeWalk) : towerReplica :=
  {| tr_epochs := tr_epochs r; tr_nodes := tr_nodes r; tr_relations := tr_relations r; tr_walk := ws; tr_index := tr_index r;
     tr_branches := tr_branches r; tr_branchNodes := tr_branchNodes r |}.
Definition with_tr_index (r : towerReplica) (x : option committedRelationIndex) : towerReplica :=
  {| tr_epochs := tr_epochs r; tr_nodes := tr_nodes r; tr_relations := tr_relations r; tr_walk := tr_walk r; tr_index := x;
     tr_branches := tr_branches r; tr_branchNodes := tr_branchNodes r |}.
Definition with_tr_branches (r : towerReplica) (bs : gmap nodeKey (list towerBranchNode)) (n : Z) : towerReplica :=
  {| tr_epochs := tr_epochs r; tr_nodes := tr_nodes r; tr_relations := tr_relations r; tr_walk := tr_walk r; tr_index := tr_index r;
     tr_branches := bs; tr_branchNodes := n |}.

(** [w_closed] are the stores of the types that are registered but not open;
    [w_participants] is [relationParticipants]; [w_shared] is the log
    [sharedTransactionWAL] returns; [w_tower] is [projectTower]. *)
Record world := {
  w_heap : gmap loc goval;
  w_dbs : gmap string DB;
  w_closed : gmap string chunkStore;
  w_engine : transactionEngine;
  w_committed : committedOwnership;
  w_participants : gset string;
  w_files : disk;
  w_shared : transactionWAL;
  w_tower : Tower;
}.

Definition with_heap (w : world) (h : gmap loc goval) : world :=
  {| w_heap := h; w_dbs := w_dbs w; w_closed := w_closed w; w_engine := w_engine w; w_committed := w_committed w;
     w_participants := w_participants w; w_files := w_files w; w_shared := w_shared w; w_tower := w_tower w |}.
Definition with_table (w : world) (t : string) (db : DB) : world :=
  {| w_heap := w_heap w; w_dbs := <[t := db]> (w_dbs w); w_closed := w_closed w; w_engine := w_engine w; w_committed := w_committed w;
     w_participants := w_participants w; w_files := w_files w; w_shared := w_shared w; w_tower := w_tower w |}.
Definition with_engine (w : world) (en : transactionEngine) : world :=
  {| w_heap := w_heap w; w_dbs := w_dbs w; w_closed := w_closed w; w_engine := en; w_committed := w_committed w;
     w_participants := w_participants w; w_files := w_files w; w_shared := w_shared w; w_tower := w_tower w |}.
Definition with_committed (w : world) (c : committedOwnership) : world :=
  {| w_heap := w_heap w; w_dbs := w_dbs w; w_closed := w_closed w; w_engine := w_engine w; w_committed := c;
     w_participants := w_participants w; w_files := w_files w; w_shared := w_shared w; w_tower := w_tower w |}.
Definition with_log (w : world) (log : transactionWAL) (fs : disk) : world :=
  {| w_heap := w_heap w; w_dbs := w_dbs w; w_closed := w_closed w; w_engine := w_engine w; w_committed := w_committed w;
     w_participants := w_participants w; w_files := fs; w_shared := log; w_tower := w_tower w |}.
Definition with_files (w : world) (fs : disk) : world := with_log w (w_shared w) fs.

Definition with_tower (w : world) (t : Tower) : world :=
  {| w_heap := w_heap w; w_dbs := w_dbs w; w_closed := w_closed w; w_engine := w_engine w; w_committed := w_committed w;
     w_participants := w_participants w; w_files := w_files w; w_shared := w_shared w; w_tower := t |}.
(** A new index object is published: replicas keep the one they had. *)
Definition with_new_index (w : world) (c : committedOwnership) : world :=
  with_tower (with_committed w c)
    {| t_replica := t_replica (w_tower w);
       t_replicas := (fun r => match tr_index r with None => with_tr_index r (c_index (w_committed w)) | Some _ => r end) <$> t_replicas (w_tower w) |}.

Definition opened (w : world) : gset string := dom (w_dbs w).

(** ** The monad *)

Definition st (A : Type) : Type := world -> world * outcome A.
#[export] Instance st_ret : MRet st := fun A a w => (w, Ok a).
#[export] Instance st_bind : MBind st := fun A B f m w =>
  match m w with
  | (w, Ok a) => f a w
  | (w, Fail e) => (w, Fail e)
  | (w, Panic) => (w, Panic)
  end.

(** A pure step, and one that only reads. *)
Definition lift {A} (f : world -> outcome A) : st A := fun w => (w, f w).
Definition gets {A} (f : world -> A) : st A := fun w => (w, Ok (f w)).
Definition modify (f : world -> world) : st unit := fun w => (f w, Ok tt).
Definition fail {A} (e : gerror) : st A := fun w => (w, Fail e).
Definition panic {A} : st A := fun w => (w, Panic).
(** A step on the heap. *)
Definition on_heap (f : world -> outcome (gmap loc goval)) : st unit := fun w =>
  match f w with Ok h => (with_heap w h, Ok tt) | Fail e => (w, Fail e) | Panic => (w, Panic) end.
Definition heap_step {A} (f : world -> outcome (gmap loc goval * A)) : st A := fun w =>
  match f w with Ok (h, a) => (with_heap w h, Ok a) | Fail e => (w, Fail e) | Panic => (w, Panic) end.
(** A step on the whole state that may fail. *)
Definition world_step (f : world -> outcome world) : st unit := fun w =>
  match f w with Ok w => (w, Ok tt) | Fail e => (w, Fail e) | Panic => (w, Panic) end.
(** A step of one open table, with the heap. *)
Definition on_table (t : string) (f : gmap loc goval -> DB -> gmap loc goval * DB) : st unit := fun w =>
  match w_dbs w !! t with
  | None => (w, Panic)
  | Some db => let p := f (w_heap w) db in (with_table (with_heap w p.1) t p.2, Ok tt)
  end.
(** A step of one open table that may fail, with the files. *)
Definition on_files (t : string) (f : gmap loc goval -> DB -> disk -> DB * disk * outcome unit) : st unit := fun w =>
  match w_dbs w !! t with
  | None => (w, Panic)
  | Some db => let '(db, fs, r) := f (w_heap w) db (w_files w) in (with_files (with_table w t db) fs, r)
  end.

Fixpoint each {A} (f : A -> st unit) (l : list A) : st unit :=
  match l with
  | [] => mret tt
  | a :: l => _ ← f a; each f l
  end.

(** ** Lemmas *)

Lemma bind_Ok {A B} (m : st A) (f : A -> st B) w w' a : m w = (w', Ok a) -> (a ← m; f a) w = f a w'.
Proof. intros E. unfold mbind, st_bind. by rewrite E. Qed.

Lemma bind_Fail {A B} (m : st A) (f : A -> st B) w w' e : m w = (w', Fail e) -> (a ← m; f a) w = (w', Fail e).
Proof. intros E. unfold mbind, st_bind. by rewrite E. Qed.

Lemma bind_Panic {A B} (m : st A) (f : A -> st B) w w' : m w = (w', Panic) -> (a ← m; f a) w = (w', Panic).
Proof. intros E. unfold mbind, st_bind. by rewrite E. Qed.

(** A statement on a run, step by step. *)
Lemma run_bind {A B} (P : world * outcome B -> Prop) (m : st A) (f : A -> st B) w w' a : m w = (w', Ok a) -> P (f a w') -> P ((a ← m; f a) w).
Proof. intros E H. by rewrite (bind_Ok m f w w' a E). Qed.
Lemma run_lift {A B} (P : world * outcome B -> Prop) (g : world -> outcome A) (f : A -> st B) w :
  (forall a, g w = Ok a -> P (f a w)) -> (forall r, (forall b, r <> Ok b) -> P (w, r)) -> P ((a ← lift g; f a) w).
Proof. intros H1 H2. unfold mbind, st_bind, lift. destruct (g w) as [a|e|]; [by apply H1|by apply H2..]. Qed.

(** The steps of a run that ended well. *)
Lemma bind_inv {A B} (m : st A) (f : A -> st B) w w' b : (a ← m; f a) w = (w', Ok b) -> exists w1 a, m w = (w1, Ok a) /\ f a w1 = (w', Ok b).
Proof. unfold mbind, st_bind. destruct (m w) as [w1 [a| |]]; [|done..]. intros H. by exists w1, a. Qed.
Lemma heap_step_inv {A} (f : world -> outcome (gmap loc goval * A)) w w' a : heap_step f w = (w', Ok a) -> exists h, f w = Ok (h, a) /\ w' = with_heap w h.
Proof. unfold heap_step. destruct (f w) as [[h b]| |]; [|done..]. intros [= <- <-]. by exists h. Qed.
