(* ===== verification/Commit.v ===== *)
(** * Commits (src/engine.go, lines 286-518, 727-753 and 872-922;
      src/relation_runtime.go, lines 2107-2120; src/transaction.go)

    A commit checks its transaction against the rows, validates the relation
    graph and the unique indexes it would leave, logs its writes in one frame,
    and only then changes the tables. The locks it takes are in [Locks]. *)
From S2P Require Import Prelude GoBytes GoReflect RelationSchema SchemaRows RelationModel CommittedGraph RelationDelta Transaction.
From S2P Require Import WalFrame RowCodec WalLog ChunkStore IndexSpecs SecondaryIndex IndexCommit Storage Table Wiring Aggregate GraphCommit World.

(** What the operating system answers during one operation. *)
Record save_env := { sv_mkdir : option gerror; sv_chunk : Z -> chunk_env; sv_truncate : truncate_env }.
Record commit_env := { ev_append : append_env; ev_save : string -> save_env; ev_truncate : truncate_env }.

(** How a commit brings the published graph up to date: not at all, by an
    index delta, or by a model and the nodes it deletes. *)
Inductive graph_plan :=
  | plan_values
  | plan_delta (d : relationIndexDelta)
  | plan_model (m : relationModel) (deleted : gset nodeKey).

Section commit.
Context (types : typeEnv) (GetId : goval -> Z) (gob_encode : gotype -> goval -> outcome (list byte))
  (gob_encode_rows : structDef -> list goval -> outcome (list byte)).
Context `{!MapOrder nodeKey, !MapOrder string, !MapOrder Z}.
Implicit Types (tx : transactionState) (w : world).

Definition evict_tx (h : positive) : st unit := modify (fun w => with_engine w (evict (w_engine w) h)).
Definition begin_tx : st positive := fun w => let '(en, h) := begin (w_engine w) in (with_engine w en, Ok h).
Definition find_tx (h : positive) : st transactionState := lift (fun w =>
  match states (w_engine w) !! h with Some tx => Ok tx | None => Panic end).

Definition refresh_tx (h : positive) : st unit := world_step (fun w =>
  match states (w_engine w) !! h with
  | None => Panic
  | Some tx =>
      p ← refresh types GetId (w_heap w) (w_closed w) (w_dbs w) tx;
      Ok (with_engine (with_heap w p.1) {| bind := bind (w_engine w); states := <[h := p.2]> (states (w_engine w)) |})
  end).

(** ** What is written *)

(** A [pendingWrite] points to the copy, which no later step changes. *)
Definition pending_write (heap : gmap loc goval) (c : Z * option loc) : pendingWrite :=
  match c.2 with
  | Some l => {| w_id := c.1; work := deref heap l; w_deleted := false |}
  | None => {| w_id := c.1; work := VStruct []; w_deleted := true |}
  end.
Notation changes := (gmap string (list pendingWrite)) (only parsing).
Definition pending_changes (heap : gmap loc goval) (cs : gmap string (list (Z * option loc))) : changes :=
  (fun l : list (Z * option loc) => (pending_write heap <$> l : list pendingWrite)) <$> cs.

Definition validateTransactionIndexes (cs : changes) : st unit :=
  lift (fun w => fold_outcome (fun _ p => db ← committerFor (w_dbs w) p.1; validateIndexes (secondary db) p.2) tt (map_range cs)).
Definition prepareTransactionIndexes (cs : changes) : st unit :=
  each (fun p => on_table p.1 (fun heap db => (heap, with_secondary db (prepareIndexes GetId heap (rowCells db) p.2 (secondary db))))) (map_range cs).
Definition finishTransactionIndexes (cs : changes) : st unit :=
  each (fun p => on_table p.1 (fun heap db => (heap, with_secondary db (finishIndexes GetId heap (rowCells db) p.2 (secondary db))))) (map_range cs).

(** One table logs to its own file, several to the transaction log. *)
Definition transaction_rows w (names : list string) (cs : changes) : outcome (list transactionWALRow) :=
  fold_outcome (fun rows t =>
    db ← committerFor (w_dbs w) t;
    encoded ← encodeWrites types gob_encode (w_heap w) (Table.name db) (default [] (cs !! t));
    Ok (rows ++ ((fun row => {| Type_ := t; row_ := row |}) <$> encoded))) [] names.
Definition logTransactionChanges (env : append_env) (cs : changes) : st unit :=
  match SortFunc string_compare (map_range cs).*1 with
  | [] => mret tt
  | [t] => on_files t (fun heap db files => logWrites types gob_encode heap db env files (default [] (cs !! t)))
  | names => fun w =>
      match transaction_rows w names cs with
      | Ok rows =>
          let '(log, files, r) := appendTransactionFrame (w_shared w) env (w_files w) {| TRows := rows |} in
          (with_log w log files, r)
      | Fail e => (w, Fail e)
      | Panic => (w, Panic)
      end
  end.

(** ** Checks *)

Definition check_version (h : positive) (r : touchedResource) : st unit :=
  v ← lift (fun w => db ← committerFor (w_dbs w) (dbName r); Ok (resourceVersion db (t_id r)));
  if bool_decide (v = Some (ver r)) then mret tt else _ ← refresh_tx h; fail ErrConflict.
Definition check_create (key : nodeKey) : st unit :=
  v ← lift (fun w => db ← committerFor (w_dbs w) (key_typ key); Ok (resourceVersion db (key_id key)));
  if bool_decide (v = None) then mret tt else fail ErrAlreadyExists.
Definition check_delete (cs : gmap nodeKey loc) (p : nodeKey * stagedDelete) : st unit :=
  if bool_decide (is_Some (cs !! p.1)) then mret tt else
  v ← lift (fun w => db ← committerFor (w_dbs w) (key_typ p.1); Ok (resourceVersion db (key_id p.1)));
  if bool_decide (v = Some (sd_ver p.2)) then mret tt else fail ErrConflict.

(** ** Changes *)

Definition apply_write (r : touchedResource) : st unit := on_table (dbName r) (fun heap db => applyWrite heap db (t_id r) (t_work r)).
Definition apply_create (p : nodeKey * loc) : st unit := on_table (key_typ p.1) (fun heap db => relationApplyCreate GetId heap db p.2).

(** A create of an index delta is bound to its live entity. *)
Fixpoint apply_creates (plan : graph_plan) (cs : list (nodeKey * loc)) : st graph_plan :=
  match cs with
  | [] => mret plan
  | p :: cs =>
      _ ← apply_create p;
      match plan with
      | plan_delta d =>
          live ← lift (fun w => db ← committerFor (w_dbs w) (key_typ p.1);
            match relationValue db (key_id p.1) with Some l => Ok l | None => Panic end);
          apply_creates (plan_delta (bindCreatedNode d p.1 live)) cs
      | _ => apply_creates plan cs
      end
  end.

Definition ids_of_type (t : string) (deleted : gset nodeKey) : gset Z :=
  set_map key_id (filter (fun k => key_typ k = t) deleted).
Definition applyDeletedNodes (deleted : gset nodeKey) : st unit := fun w =>
  each (fun t => on_table t (fun heap db => (heap, relationDelete GetId heap db (ids_of_type t deleted))))
    (SortFunc string_compare (map_range (w_dbs w)).*1) w.

(** The rows [markChangedRelations] marks for the next save. *)
Definition markChangedRelations (changed : gset nodeKey) : st unit :=
  each (fun key => fun w =>
    match w_dbs w !! key_typ key with
    | Some db => (with_table w (key_typ key) (relationMarkDirty db (key_id key)), Ok tt)
    | None => (w, Ok tt)
    end) (set_range changed).

(** [rewireRelations(relationRuntimes())]. *)
Definition rewire_all : st unit := on_heap (fun w =>
  rewireRelations types GetId (w_heap w) (storeRegistry (registries_of GetId (w_heap w) (w_closed w) (w_dbs w)))
    (omap (fun t => pair t ∘ (fun db => Range (store db)) <$> w_dbs w !! t) (SortFunc string_compare (map_range (w_dbs w)).*1))).

Definition save_all (env : commit_env) : st unit := fun w =>
  each (fun t => on_files t (fun heap db files =>
      relationSave types gob_encode_rows (sv_mkdir (ev_save env t)) (sv_chunk (ev_save env t)) (sv_truncate (ev_save env t)) heap db files))
    (SortFunc string_compare (map_range (w_dbs w)).*1) w.
Definition truncate_shared (env : commit_env) : st unit := fun w =>
  let '(log, files, r) := truncateTransaction (w_shared w) (ev_truncate env) (w_files w) in (with_log w log files, r).

(** ** The commit *)

(** The branch of [commit] under the write lock of the graph: the resources to
    write, and the plan. *)
Definition plan_graph tx (touched : list touchedResource) : st (list touchedResource * graph_plan) :=
  delta ← lift (fun w =>
    let published := c_index (w_committed w) in
    if negb (bool_decide (deletes tx = ∅)) then Ok None
    else if negb (bool_decide (creates tx = ∅)) then buildRelationCreateIndexDelta types (w_heap w) (opened w) published touched (creates tx)
    else buildRelationIndexDelta types (w_heap w) (opened w) published touched);
  match delta with
  | Some d => heap_step (fun w =>
      p ← RelationDelta.materializeOwnBackReferences types (w_heap w) (live_rows (w_dbs w)) d (copyResources tx) touched (creates tx);
      Ok (p.1, (p.2, plan_delta d)))
  | None => heap_step (fun w =>
      v ← validateTransactionGraph types GetId (w_heap w) (w_closed w) (w_dbs w) (w_committed w) touched (creates tx) (deletes tx);
      p ← GraphCommit.materializeOwnBackReferences types GetId (w_heap w) (w_dbs w) v.1 (copyResources tx) touched (creates tx) v.2;
      Ok (p.1.1, (p.2, plan_model p.1.2 v.2)))
  end.

Definition commitSingleWrite (env : commit_env) (h : positive) (r : touchedResource) : st unit :=
  _ ← check_version h r;
  _ ← on_files (dbName r) (fun heap db files => logWrites types gob_encode heap db (ev_append env) files [pending_write heap (t_id r, Some (t_work r))]);
  _ ← apply_write r;
  evict_tx h.

(** [walBackedStructural]; on the way back references are brought in line. *)
Definition wal_backed tx (touched : list touchedResource) (plan : graph_plan) : st bool :=
  let structural := negb (bool_decide (creates tx = ∅)) || negb (bool_decide (deletes tx = ∅)) in
  match plan with
  | plan_values => mret structural
  | plan_delta _ => mret (structural && bool_decide (deletes tx = ∅))
  | plan_model m _ =>
      if structural && bool_decide (deletes tx = ∅)
      then heap_step (fun w => prepareStructuralCreateWAL types GetId (w_heap w) (w_dbs w) m touched (creates tx))
      else mret false
  end.

(** The end of a commit, by plan. *)
Definition finish_values (h : positive) (durable : gset nodeKey) (cs : changes) : st unit :=
  _ ← applyDeletedNodes durable;
  _ ← finishTransactionIndexes cs;
  evict_tx h.
Definition finish_delta (h : positive) (d : relationIndexDelta) (cs : changes) : st unit :=
  _ ← finishTransactionIndexes cs;
  _ ← world_step (fun w => p ← publishAndRewire types (w_committed w) (w_heap w) d; Ok (with_heap (with_committed w p.1) p.2));
  evict_tx h.
Definition finish_model (env : commit_env) (h : positive) tx (touched : list touchedResource) (m : relationModel) (deleted : gset nodeKey)
    (walBacked : bool) (cs : changes) : st unit :=
  let structural := negb (bool_decide (creates tx = ∅)) || negb (bool_decide (deletes tx = ∅)) in
  m ← lift (fun w => bindRelationModelToLiveNodes (w_dbs w) m touched (creates tx));
  changed ← heap_step (fun w => reconcileRelations types m (w_heap w) deleted);
  _ ← markChangedRelations changed;
  _ ← applyDeletedNodes deleted;
  _ ← rewire_all;
  _ ← finishTransactionIndexes cs;
  _ ← (if structural && negb walBacked then _ ← save_all env; truncate_shared env else mret tt);
  _ ← modify (fun w => with_new_index w (storeCommittedOwnership types (w_heap w) m deleted));
  evict_tx h.

(** Everything after the plan, under the locks of the tables and the rows. *)
Definition commit_locked (env : commit_env) (h : positive) tx (touched : list touchedResource) (plan : graph_plan) : st unit :=
  _ ← each check_create (map_range (creates tx)).*1;
  _ ← each (check_version h) touched;
  _ ← each (check_delete (creates tx)) (map_range (deletes tx));
  let durable := match plan with plan_model _ deleted => deleted | _ => dom (deletes tx) end in
  walBacked ← wal_backed tx touched plan;
  cs ← gets (fun w => pending_changes (w_heap w) (transactionChanges touched (creates tx) durable));
  _ ← validateTransactionIndexes cs;
  _ ← logTransactionChanges (ev_append env) cs;
  _ ← prepareTransactionIndexes cs;
  _ ← each apply_write touched;
  plan ← apply_creates plan (map_range (creates tx));
  match plan with
  | plan_values => finish_values h durable cs
  | plan_delta d => finish_delta h d cs
  | plan_model m deleted => finish_model env h tx touched m deleted walBacked cs
  end.

Definition commit (env : commit_env) (h : positive) : st unit :=
  tx ← find_tx h;
  if negb (active tx) then fail ErrExpiredSnapshot else
  touched ← gets (fun w => changedResources types GetId (w_heap w) (copyResources tx));
  let structural := negb (bool_decide (creates tx = ∅)) || negb (bool_decide (deletes tx = ∅)) in
  if bool_decide (touched = []) && negb structural then evict_tx h else
  relationChanged ← lift (fun w => resourcesChangeRelationGraph types GetId (w_heap w) (opened w) touched);
  access ← gets (fun w => transactionGraphAccess (w_participants w) touched (creates tx) (deletes tx) relationChanged);
  planned ← match access with graphAccessWrite => plan_graph tx touched | _ => mret (touched, plan_values) end;
  let '(touched, plan) := planned in
  single ← lift (fun w =>
    match plan, touched with
    | plan_values, [r] => if structural then Ok None else db ← committerFor (w_dbs w) (dbName r);
        Ok (if bool_decide (secondary db = ∅) then Some r else None)
    | _, _ => Ok None
    end);
  match single with
  | Some r => commitSingleWrite env h r
  | None => commit_locked env h tx touched plan
  end.

(** ** Callers *)

(** [DB.Update]: the branch of a detached root becomes a transaction first. *)
Definition Update (env : commit_env) (t : string) (branch : loc) : st unit :=
  _ ← world_step (fun w =>
    db ← committerFor (w_dbs w) t;
    p ← promoteDetachedRoot (w_heap w) db (w_engine w) branch;
    Ok (with_engine (with_table (with_heap w p.1.1) t p.1.2) p.2));
  found ← gets (fun w => bind (w_engine w) !! branch);
  match found with None => fail ErrExpiredSnapshot | Some h => commit env h end.

(** [DB.Transaction]: the working set is discarded on every error. *)
Definition evict_on_error (h : positive) (m : st unit) : st unit := fun w =>
  match m w with
  | (w, Fail e) => ((evict_tx h w).1, Fail e)
  | r => r
  end.
Definition Transaction_ (env : commit_env) (fn : positive -> st unit) : st unit :=
  h ← begin_tx;
  _ ← evict_on_error h (fn h);
  evict_on_error h (commit env h).
End commit.
