(* ===== verification/Api.v ===== *)
(** * The public operations (src/persist.go, src/transaction.go, src/query.go,
      src/view.go, src/unsafe.go and [Register] and [Open] of src/db.go)

    The functions a program calls, as steps of the process: they find the
    table of the type, complete the published ownership where they need it and
    hand over to the engine. Callbacks are steps of the caller. [id]s and type
    names stand for the type parameters. The locks are in [Locks]. *)
From S2P Require Import Prelude GoBytes GoReflect RelationSchema SchemaRows RelationModel CommittedGraph RelationDelta Transaction.
From S2P Require Import WalFrame RowCodec WalLog ChunkStore IndexSpecs SecondaryIndex IndexCommit Storage Table Wiring Aggregate GraphCommit World Commit.

Section api.
Context (types : typeEnv) (GetId : goval -> Z) (gob_encode : gotype -> goval -> outcome (list byte))
  (gob_encode_rows : structDef -> list goval -> outcome (list byte))
  (gob_decode : gotype -> list byte -> outcome goval) (gob_decode_rows : structDef -> list byte -> outcome (list goval)).
Context `{!MapOrder nodeKey, !MapOrder string, !MapOrder Z}.
Implicit Types (t : string) (h : positive) (id : Z) (w : world).
Notation key_of t id := {| key_typ := t; key_id := id |}.
Notation transaction := (Transaction_ types GetId gob_encode gob_encode_rows).

Definition with_dbs w (dbs : gmap string DB) : world :=
  {| w_heap := w_heap w; w_dbs := dbs; w_closed := w_closed w; w_engine := w_engine w; w_committed := w_committed w;
     w_participants := w_participants w; w_files := w_files w; w_shared := w_shared w; w_tower := w_tower w |}.
Definition with_participants w (ps : gset string) : world :=
  {| w_heap := w_heap w; w_dbs := w_dbs w; w_closed := w_closed w; w_engine := w_engine w; w_committed := w_committed w;
     w_participants := ps; w_files := w_files w; w_shared := w_shared w; w_tower := w_tower w |}.
Definition with_closed w (cs : gmap string chunkStore) : world :=
  {| w_heap := w_heap w; w_dbs := w_dbs w; w_closed := cs; w_engine := w_engine w; w_committed := w_committed w;
     w_participants := w_participants w; w_files := w_files w; w_shared := w_shared w; w_tower := w_tower w |}.

Definition table t : st DB := lift (fun w => committerFor (w_dbs w) t).
Definition relationParticipant t : st bool := gets (fun w => relationGraphParticipant (w_participants w) t).
(** [relationGraphRegistered]: some type takes part in a relation. *)
Definition ensure_ownership : st unit := world_step (fun w =>
  c ← ensureCommittedOwnership types GetId (w_heap w) (registries_of GetId (w_heap w) (w_closed w) (w_dbs w))
        (negb (bool_decide (w_participants w = ∅))) (w_committed w);
  Ok (if ready (w_committed w) then with_committed w c else with_new_index w c)).

(** ** Opening *)

(** [registerRelationParticipants] precedes what may panic. *)
Definition Register t (mkdir : option gerror) (dir : outcome (list dirEntry)) (wal_log transaction_log : opened_file) : st unit := fun w =>
  if bool_decide (is_Some (w_dbs w !! t)) || bool_decide (is_Some (w_closed w !! t))
  then (w, Fail (ErrText "nestory: base is already registered"))
  else match (_ ← buildRelationSchema types t; snd (secondaryIndexSpecs types ∅ t)) with
  | Ok _ =>
      match loadStore types GetId gob_decode_rows gob_decode t mkdir dir wal_log transaction_log (w_heap w) with
      | Ok (heap, s) => (with_closed (with_heap w heap) (<[t := s]> (w_closed w)), Ok tt)
      | Fail e => (w, Fail e)
      | Panic => (w, Panic)
      end
  | Fail e => (w, Fail e)
  | Panic => (w, Panic)
  end.

(** [epoch] is the counter [towerEpochCounter] has for the name. *)
Definition Open_ t (dir : string) (epoch_ : Z) : st unit := fun w =>
  if bool_decide (is_Some (w_dbs w !! t)) then (w, Ok tt) else
  match relationSpecs types t with
  | Ok specs =>
      let w := with_participants w (registerRelationParticipants (w_participants w) t specs) in
      match w_closed w !! t with
      | None => (w, Panic)
      | Some s =>
          match fillRelation types GetId (w_heap w) (storeRegistry (registries_of GetId (w_heap w) (w_closed w) (w_dbs w))) (t, Range s) with
          | Ok heap =>
              match open_table types GetId heap t s dir epoch_ with
              | Ok db =>
                  let w := with_closed (with_table (with_heap w heap) t (markChanged db)) (delete t (w_closed w)) in
                  (with_new_index w resetCommittedOwnership, Ok tt)
              | _ => (with_heap w heap, Panic)
              end
          | _ => (w, Panic)
          end
      end
  | _ => (w, Panic)
  end.

(** ** Transactions *)

(** A step of the transaction [h]. *)
Definition on_tx h (f : world -> transactionState -> world * transactionState * outcome unit) : st unit := fun w =>
  match states (w_engine w) !! h with
  | None => (w, Panic)
  | Some tx =>
      let '(w, tx, r) := f w tx in
      (with_engine w {| bind := bind (w_engine w); states := <[h := tx]> (states (w_engine w)) |}, r)
  end.

(** [Tx.Create]; the ids it gave and what it staged before an error stay. *)
Definition create_in h t (entity : option loc) : st unit :=
  match entity with
  | None => fail (ErrText "nestory: create: nil entity")
  | Some l => on_tx h (fun w tx =>
      let '(heap, dbs, tx, r) := stageCreatedOwnershipTree types GetId (w_heap w) (w_dbs w) tx t l in
      (with_dbs (with_heap w heap) dbs, tx, r))
  end.
Definition delete_in h t id : st unit :=
  db ← table t;
  on_tx h (fun w tx => match Tx_Delete db tx (key_of t id) with Ok tx' => (w, tx', Ok tt) | Fail e => (w, tx, Fail e) | Panic => (w, tx, Panic) end).
Definition deleteMany_in h t (ids : list Z) : st unit :=
  db ← table t; on_tx h (fun w tx => let '(tx, r) := Tx_DeleteMany db tx ∅ ids in (w, tx, r)).

(** [DB.getInTransaction]; only a row the transaction does not hold is cloned. *)
Definition clone_into h t id : st loc := fun w =>
  match getInTransaction types GetId (w_heap w) (w_dbs w) (w_committed w) (w_engine w) h (key_of t id) with
  | Ok (c, heap, en, l) => (with_engine (with_committed (with_heap w heap) c) en, Ok l)
  | Fail e => (w, Fail e)
  | Panic => (w, Panic)
  end.
Definition get_tx h t id : st loc :=
  existing ← lift (fun w => match states (w_engine w) !! h with Some tx => Transaction.work tx t id | None => Panic end);
  match existing with Some l => mret l | None => _ ← ensure_ownership; clone_into h t id end.
Definition get_in h t id : st loc :=
  found ← gets (fun w => states (w_engine w) !! h ≫= fun tx => creates tx !! key_of t id);
  match found with Some l => mret l | None => get_tx h t id end.
Definition UpdateWithin_in h t id (fn : loc -> st unit) : st unit := entity ← get_in h t id; fn entity.

(** ** One operation, one transaction *)

Definition Create (env : commit_env) t (entity : option loc) : st unit := transaction env (fun h => create_in h t entity).
Definition Delete (env : commit_env) t id : st unit := transaction env (fun h => delete_in h t id).
Definition DeleteMany (env : commit_env) t (ids : list Z) : st unit := transaction env (fun h => deleteMany_in h t ids).
Definition DeleteByIndex (env : commit_env) t (indexName : string) (prefix : list (option (gotype * goval))) : st unit :=
  db ← table t;
  ids ← lift (fun w => idsByIndexPrefix GetId (w_heap w) db indexName prefix);
  DeleteMany env t ids.

(** ** Reading *)

(** [ensureCommittedOwnership] where the type takes part in a relation. *)
Definition ensure_for (participant : bool) : st unit := if participant then ensure_ownership else mret tt.

Definition snapshot_root t id (participant : bool) : st (option loc) := fun w =>
  match (db ← committerFor (w_dbs w) t; getDetachedRoot types GetId (w_heap w) db (w_committed w) participant (key_of t id)) with
  | Ok (Some (heap, db, l)) => (with_table (with_heap w heap) t db, Ok (Some l))
  | Ok None => (w, Ok None)
  | Fail e => (w, Fail e)
  | Panic => (w, Panic)
  end.
Definition get_detached t id : st (option loc) :=
  participant ← relationParticipant t; _ ← ensure_for participant; snapshot_root t id participant.
(** [DB.Get]: a transaction that could not be read into is evicted. *)
Definition evict_failed {A} h (m : st A) : st A := fun w =>
  match m w with (w, Fail e) => ((evict_tx h w).1, Fail e) | r => r end.
Definition Get_ t id : st loc :=
  found ← get_detached t id;
  match found with
  | Some l => mret l
  | None => h ← begin_tx; evict_failed h (get_tx h t id)
  end.

Definition FindOneBy t (field : string) (value : option (gotype * goval)) : st loc :=
  db ← table t;
  id ← lift (fun w => findID types GetId (w_heap w) db field value);
  Get_ t id.

(** Callbacks on live cells. *)
Definition View t id (fn : option (loc -> st unit)) : st unit :=
  match fn with
  | None => fail (ErrText "nestory: View requires a callback")
  | Some fn =>
      participant ← relationParticipant t;
      _ ← ensure_for participant;
      db ← table t;
      match resource db id with None => fail ErrNotFound | Some slot => fn (item slot) end
  end.

(** [slices.Compact] on a sorted list. *)
Fixpoint compact (l : list Z) : list Z :=
  match l with
  | x :: ((y :: _) as rest) => if (x =? y)%Z then compact rest else x :: compact rest
  | _ => l
  end.
Definition row_cells (db : DB) (ids : list Z) : outcome (list loc) :=
  fold_outcome (fun out id => match resource db id with None => Fail ErrNotFound | Some slot => Ok (out ++ [item slot]) end) [] ids.
Definition ViewMany t (ids : list Z) (fn : option (list loc -> st unit)) : st unit :=
  match fn with
  | None => fail (ErrText "nestory: ViewMany requires a callback")
  | Some fn => db ← table t; entities ← lift (fun _ => row_cells db (compact (SortFunc cmp_compare ids))); fn entities
  end.

(** [viewRange]; [after] is [None] without a cursor. The rows are locked in
    the order of their ids and passed in the order of the index. *)
Definition viewRange t (indexName : string) (prefix : list (option (gotype * goval))) (after : option (option (gotype * goval)))
    (fn : list loc -> st unit) : st unit :=
  db ← table t;
  match secondary db !! indexName with
  | None => fail (ErrText "nestory: index does not exist")
  | Some x =>
      entities ← lift (fun w => match after with Some a => rangeAfter (w_heap w) x prefix a | None => rangePrefix (w_heap w) x prefix end);
      _ ← lift (fun w => row_cells db (SortFunc cmp_compare ((fun l => GetId (deref (w_heap w) l)) <$> entities)));
      fn entities
  end.
Definition ViewRange t (indexName : string) (prefix : list (option (gotype * goval))) (fn : option (list loc -> st unit)) : st unit :=
  match fn with
  | None => fail (ErrText "nestory: ViewRange requires a callback")
  | Some fn => viewRange t indexName prefix None fn
  end.
Definition ViewRangeAfter t (indexName : string) (prefix : list (option (gotype * goval))) (after : option (gotype * goval))
    (fn : option (list loc -> st unit)) : st unit :=
  match fn with
  | None => fail (ErrText "nestory: ViewRangeAfter requires a callback")
  | Some fn => viewRange t indexName prefix (Some after) fn
  end.
End api.
