(* ===== verification/Tower.v ===== *)
(** * The Tower (src/tower.go)

    Short writes to a branch of the graph run on a replica of the committed
    graph instead of on a clone of the branch: the callback edits shadow cells,
    the difference between the shadows and the live rows becomes the write. A
    replica is good while the epoch of every table of the graph is the one it
    was built from; [refresh] brings it up to date in place.

    [same_bytes heap a b run] says whether the memory of a run of fields is the
    same in two structs; the layout of values in memory is not modelled.
    [other_comparable] says which opaque types are comparable and hold no
    interface. *)
From S2P Require Import Prelude GoBytes GoReflect RelationSchema SchemaRows RelationModel CommittedGraph RelationDelta Transaction.
From S2P Require Import WalFrame RowCodec WalLog ChunkStore IndexSpecs SecondaryIndex IndexCommit Storage Table Wiring Aggregate GraphCommit World Commit Api.

(** [==] on values of a comparable type. *)
Fixpoint go_equal (t : gotype) (v w : goval) {struct t} : bool :=
  match t, v, w with
  | TBasic _ k, VFloat a, VFloat b => float_equal k a b
  | TArray _ e, VArray l, VArray l' => (length l =? length l')%nat && forallb (fun p => go_equal e p.1 p.2) (zip l l')
  | TStruct _ fs, VStruct l, VStruct l' =>
      (fix fields fs l l' := match fs, l, l' with
         | (_, _, ft) :: fs, x :: l, y :: l' => go_equal ft x y && fields fs l l'
         | [], [], [] => true
         | _, _, _ => false end) fs l l'
  | _, _, _ => bool_decide (v = w)
  end.

Section tower.
Context (types : typeEnv) (GetId : goval -> Z) (gob_encode : gotype -> goval -> outcome (list byte))
  (gob_encode_rows : structDef -> list goval -> outcome (list byte)).
Context `{!MapOrder nodeKey, !MapOrder string, !MapOrder Z}.
Context (same_bytes : gmap loc goval -> loc -> loc -> list nat -> bool) (other_comparable : string -> bool).
Implicit Types (t : string) (w : world) (heap : gmap loc goval) (key : nodeKey).

(** ** Plans *)

Definition entityIDFieldIndex t : option nat :=
  match types !! t ≫= fun d => FieldByName d entityIDField with
  | Some (i, f) => match ftype f with TBasic _ KInt => Some i | _ => None end
  | None => None
  end.
Definition fieldPointerID heap (value : goval) (idIndex : option nat) : option Z :=
  match idIndex, value with
  | None, _ => valueID GetId heap value
  | Some i, VPointer (Some l) => match node_field heap l i with Some (VInt id) => Some id | _ => None end
  | Some _, _ => None
  end.

Definition segmentEligible (f : towerFieldPlan) : bool := negb (relational f) && negb (tf_slice f).
Definition is_slice (t : gotype) : bool := match t with TSlice _ => true | _ => false end.
Fixpoint towerAlwaysComparable (t : gotype) : bool :=
  match t with
  | TBasic _ _ | TPointer _ => true
  | TSlice _ => false
  | TArray _ e => towerAlwaysComparable e
  | TStruct _ fs => forallb (fun f => towerAlwaysComparable f.2) fs
  | TOther name => other_comparable name
  end.

Definition field_plan (specs : gmap string relationSpec) (i : nat) (f : structField) : towerFieldPlan :=
  match specs !! fname f with
  | Some r => {| tf_index := i; relational := true; tf_many := many r; tf_slice := false;
                 targetIDIndex := entityIDFieldIndex (target r); tf_target := target r |}
  | None => {| tf_index := i; relational := false; tf_many := false; tf_slice := is_slice (ftype f);
               targetIDIndex := None; tf_target := EmptyString |}
  end.
(** The last segment grows while the field before it is in it. *)
Fixpoint build_segments (before : bool) (segs : list (list nat)) (fs : list towerFieldPlan) : list (list nat) :=
  match fs with
  | [] => segs
  | f :: fs =>
      if negb (segmentEligible f) then build_segments false segs fs else
      match rev segs with
      | last :: rest => if before then build_segments true (rev ((last ++ [tf_index f]) :: rest)) fs
                        else build_segments true (segs ++ [[tf_index f]]) fs
      | [] => build_segments true [[tf_index f]] fs
      end
  end.
(** The plans are cached; the type is registered, so that its comparator is. *)
Definition towerFields t : outcome cachedTowerFieldPlan :=
  specs ← specsByField types t;
  match types !! t with
  | None => Panic
  | Some d =>
      let fs := imap (field_plan specs) (fields d) in
      Ok {| tp_fields := fs; segments := build_segments false [] fs;
            tp_equal := bool_decide (specs = ∅) && forallb (fun f => towerAlwaysComparable (ftype f)) (fields d) |}
  end.

(** ** Comparing a live cell with its shadow *)

Definition cell_field heap (l : loc) (i : nat) : goval := field_value (deref heap l) i.
Definition field_type t (i : nat) : gotype := match types !! t ≫= fun d => fields d !! i with Some f => ftype f | None => TOther "" end.
Definition towerSegmentsEqual heap (live shadow : loc) (segs : list (list nat)) : bool := forallb (same_bytes heap live shadow) segs.

Definition sameRelationIdentity heap (live shadow : goval) (many : bool) (idIndex : option nat) : bool :=
  let same p := bool_decide (fieldPointerID heap p.1 idIndex = fieldPointerID heap p.2 idIndex) in
  if negb many then same (live, shadow)
  else (length (slice_elems live) =? length (slice_elems shadow))%nat && forallb same (zip (slice_elems live) (slice_elems shadow)).

Definition towerNodeUnchanged heap t (live shadow : loc) (plan : cachedTowerFieldPlan) : bool :=
  towerSegmentsEqual heap live shadow (segments plan) &&
  forallb (fun f =>
    let a := cell_field heap live (tf_index f) in let b := cell_field heap shadow (tf_index f) in
    if relational f then sameRelationIdentity heap a b (tf_many f) (targetIDIndex f)
    else if tf_slice f then relationFieldEqual types heap (field_type t (tf_index f)) a b else true) (tp_fields plan).

(** [registered] is whether the comparator of the slice type is. *)
Definition relationEqual heap (registered : string -> bool) (value : goval) (f : towerFieldPlan) (baseline : option towerRelationState) : bool :=
  let baseline := default {| rs_present := false; rs_one := 0; rs_many := None |} baseline in
  if negb (tf_many f) then
    match fieldPointerID heap value (targetIDIndex f) with
    | Some id => rs_present baseline && (id =? rs_one baseline)%Z
    | None => negb (rs_present baseline)
    end
  else match registered (tf_target f), rs_many baseline with
  | true, Some l => bool_decide (slice_elems value = l)
  | _, _ => false
  end.

Definition diffFields heap (registered : string -> bool) (rep : towerReplica) (n : towerBranchNode) (plan : cachedTowerFieldPlan) : list nat :=
  let t := key_typ (bn_key n) in
  let equal i := go_equal (field_type t i) (cell_field heap (bn_live n) i) (cell_field heap (bn_shadow n) i) in
  if tp_equal plan && forallb (fun f => equal (tf_index f)) (tp_fields plan) then [] else
  let scalarsEqual := towerSegmentsEqual heap (bn_live n) (bn_shadow n) (segments plan) in
  omap (fun f =>
    let i := tf_index f in
    let field_equal := relationFieldEqual types heap (field_type t i) (cell_field heap (bn_live n) i) (cell_field heap (bn_shadow n) i) in
    let same :=
      if relational f then relationEqual heap registered (cell_field heap (bn_shadow n) i) f (tr_relations rep !! (bn_key n, i))
      else if tf_slice f then field_equal
      else scalarsEqual || field_equal in
    if same then None else Some i) (tp_fields plan).

(** ** Epochs *)

Definition towerEpoch w t : Z := match w_dbs w !! t with Some db => epoch db | None => 0%Z end.
Definition towerParticipantEpochs w : gmap string Z := set_to_map (fun t => (t, towerEpoch w t)) (w_participants w).
Definition synced w (rep : towerReplica) : bool :=
  forallb (fun t => (default 0 (tr_epochs rep !! t) =? towerEpoch w t)%Z) (set_range (w_participants w)).

(** ** The store of replicas *)

Definition replica_at (p : positive) : st towerReplica := lift (fun w => match t_replicas (w_tower w) !! p with Some r => Ok r | None => Panic end).
Definition on_replica (p : positive) (f : towerReplica -> towerReplica) : st unit := modify (fun w =>
  with_tower w {| t_replica := t_replica (w_tower w); t_replicas := alter f p (t_replicas (w_tower w)) |}).
(** Only the replica that is still current is dropped. *)
Definition retire (p : positive) : st unit := modify (fun w =>
  if bool_decide (t_replica (w_tower w) = Some p) then with_tower w {| t_replica := None; t_replicas := t_replicas (w_tower w) |} else w).
Definition resetTower : st unit := modify (fun w => with_tower w {| t_replica := None; t_replicas := t_replicas (w_tower w) |}).
Definition replica_index w (rep : towerReplica) : option committedRelationIndex :=
  match tr_index rep with None => c_index (w_committed w) | Some x => Some x end.
Definition captureEpochs (p : positive) : st unit :=
  epochs ← gets towerParticipantEpochs; on_replica p (fun rep => with_tr_epochs rep epochs).

(** ** Shadows *)

Definition addedTowerNodes (x : committedRelationIndex) (added : list nodeKey) : gmap nodeKey loc :=
  filter (fun q => q.1 ∈ added) (x_nodes x).

(** One block per type, in ascending ids. *)
Definition add_shadow (liveNodes : gmap nodeKey loc) (acc : gmap loc goval * gmap nodeKey loc) key : gmap loc goval * gmap nodeKey loc :=
  match liveNodes !! key with
  | Some live => let '(heap, shadow) := new_cell acc.1 (deref acc.1 live) in (heap, <[key := shadow]> acc.2)
  | None => acc
  end.
Definition buildTowerShadows heap (liveNodes : gmap nodeKey loc) : gmap loc goval * gmap nodeKey loc :=
  let byTable := foldl (fun (m : gmap string (list nodeKey)) p => <[key_typ p.1 := default [] (m !! key_typ p.1) ++ [p.1]]> m)
    ∅ (map_range liveNodes) in
  foldl (fun acc q => foldl (add_shadow liveNodes) acc (SortFunc (fun a b => cmp_compare (key_id a) (key_id b)) q.2)) (heap, ∅) (map_range byTable).

Definition wireTowerNode (ns : gmap nodeKey loc) heap (q : nodeKey * loc) : outcome (gmap loc goval) :=
  specs ← relationSpecs types (key_typ q.1);
  fold_outcome (fun heap r => redirect (fun heap v =>
      match valueID GetId heap (readable types r v) ≫= fun id => ns !! {| key_typ := target r; key_id := id |} with
      | Some l => VPointer (Some l)
      | None => v
      end) heap q.2 r) heap specs.
Definition wireTowerNodes heap (ns : gmap nodeKey loc) : outcome (gmap loc goval) := fold_outcome (wireTowerNode ns) heap (map_range ns).

Definition relation_state heap (value : goval) (r : relationSpec) : towerRelationState :=
  if negb (many r) then
    match valueID GetId heap (readable types r value) with
    | Some id => {| rs_present := true; rs_one := id; rs_many := None |}
    | None => {| rs_present := false; rs_one := 0; rs_many := None |}
    end
  else {| rs_present := false; rs_one := 0; rs_many := Some (slice_elems value) |}.
(** [reflect.Copy] panics on an unexported slice. *)
Definition snapshotTowerRelationsInto heap (rs : gmap (nodeKey * nat) towerRelationState) (q : nodeKey * loc) :
    outcome (gmap (nodeKey * nat) towerRelationState) :=
  specs ← relationSpecs types (key_typ q.1);
  when existsb (fun r => many r && negb (spec_exported types r)) specs => Panic ;;
  Ok (foldl (fun rs r => <[(q.1, fieldIndex r) := relation_state heap (cell_field heap q.2 (fieldIndex r)) r]> rs) rs specs).
Definition snapshotTowerRelations heap (ns : gmap nodeKey loc) : outcome (gmap (nodeKey * nat) towerRelationState) :=
  fold_outcome (snapshotTowerRelationsInto heap) ∅ (map_range ns).

(** ** The walk *)

(** The words of a live relation slice. *)
Definition liveManyWords heap (l : loc) (i : nat) : list goval := slice_elems (cell_field heap l i).
Definition recordWalkRelations heap (l : loc) (plan : cachedTowerFieldPlan) : list towerWalkRelation :=
  omap (fun f => if negb (relational f) then None else Some
    (if tf_many f then {| wr_index := tf_index f; wr_many := true; wr_one := VPointer None; wr_elements := liveManyWords heap l (tf_index f) |}
     else {| wr_index := tf_index f; wr_many := false; wr_one := cell_field heap l (tf_index f); wr_elements := [] |})) (tp_fields plan).
Definition newTowerWalkEntry heap key (live shadow : loc) (plan : cachedTowerFieldPlan) : towerWalkEntry :=
  {| we_key := key; we_live := live; we_shadow := shadow; we_relations := recordWalkRelations heap live plan |}.

Definition with_entries_of (g : towerTypeWalk) (es : list towerWalkEntry) : towerTypeWalk :=
  {| tw_typ := tw_typ g; tw_plan := tw_plan g; tw_keyFields := tw_keyFields g; tw_entries := es |}.
Definition key_fields (x : committedRelationIndex) t (plan : cachedTowerFieldPlan) : list towerFieldPlan :=
  let names := default ∅ (x_targetFields x !! t) in
  List.filter (fun f => negb (relational f) &&
    match types !! t ≫= fun d => fields d !! tf_index f with Some sf => bool_decide (fname sf ∈ names) | None => false end) (tp_fields plan).
Definition build_walk_entry heap (x : committedRelationIndex) (shadows : gmap nodeKey loc) (groups : gmap string towerTypeWalk) (q : nodeKey * loc) :
    outcome (gmap string towerTypeWalk) :=
  let t := key_typ q.1 in
  g ← match groups !! t with
      | Some g => Ok g
      | None => plan ← towerFields t; Ok {| tw_typ := t; tw_plan := plan; tw_keyFields := key_fields x t plan; tw_entries := [] |}
      end;
  match shadows !! q.1 with
  | None => Panic
  | Some shadow => Ok (<[t := with_entries_of g (tw_entries g ++ [newTowerWalkEntry heap q.1 q.2 shadow (tw_plan g)])]> groups)
  end.
Definition buildTowerWalk heap (x : committedRelationIndex) (live shadows : gmap nodeKey loc) : outcome (list towerTypeWalk) :=
  groups ← fold_outcome (build_walk_entry heap x shadows) ∅ (map_range live);
  Ok (map_range groups).*2.

(** An entry goes to the first group of its type. *)
Fixpoint add_to_group (e : towerTypeWalk -> towerWalkEntry) t (walk : list towerTypeWalk) : option (list towerTypeWalk) :=
  match walk with
  | [] => None
  | g :: walk => if bool_decide (tw_typ g = t) then Some (with_entries_of g (tw_entries g ++ [e g]) :: walk)
                 else cons g <$> add_to_group e t walk
  end.
Definition appendWalkEntry heap (x : committedRelationIndex) (shadows : gmap nodeKey loc) (walk : list towerTypeWalk) key : outcome (list towerTypeWalk) :=
  match x_nodes x !! key, shadows !! key with
  | Some live, Some shadow =>
      match add_to_group (fun g => newTowerWalkEntry heap key live shadow (tw_plan g)) (key_typ key) walk with
      | Some walk => Ok walk
      | None => built ← buildTowerWalk heap x {[key := live]} shadows; Ok (walk ++ built)
      end
  | _, _ => Panic
  end.
Definition record_moved heap (moved : gset nodeKey) (walk : list towerTypeWalk) : list towerTypeWalk :=
  (fun g => with_entries_of g ((fun e =>
     if bool_decide (we_key e ∈ moved)
     then {| we_key := we_key e; we_live := we_live e; we_shadow := we_shadow e; we_relations := recordWalkRelations heap (we_live e) (tw_plan g) |}
     else e) <$> tw_entries g)) <$> walk.
Definition refreshWalk heap (x : committedRelationIndex) (shadows : gmap nodeKey loc) (moved added : list nodeKey) (walk : list towerTypeWalk) :
    outcome (list towerTypeWalk) :=
  let addedSet : gset nodeKey := list_to_set added in
  fold_outcome (appendWalkEntry heap x shadows) (record_moved heap (list_to_set moved ∖ addedSet) walk) (set_range addedSet).

(** ** Refreshing a replica in place *)

Definition same_node_set (x : committedRelationIndex) (rep : towerReplica) : bool :=
  (size (tr_nodes rep) <=? size (x_nodes x))%nat &&
  forallb (fun g => forallb (fun e => bool_decide (x_nodes x !! we_key e = Some (we_live e))) (tw_entries g)) (tr_walk rep).
Definition added_nodes (x : committedRelationIndex) (rep : towerReplica) : list nodeKey :=
  if (size (x_nodes x) =? size (tr_nodes rep))%nat then [] else
  List.filter (fun key => negb (bool_decide (is_Some (tr_nodes rep !! key)))) (map_range (x_nodes x)).*1.

(** The live value of a node that differs is copied into its shadow. *)
Definition refresh_node (shadows : gmap nodeKey loc) (acc : gmap loc goval * list nodeKey) (q : nodeKey * loc) :
    outcome (gmap loc goval * list nodeKey) :=
  plan ← towerFields (key_typ q.1);
  match shadows !! q.1 with
  | None => Panic
  | Some shadow =>
      if towerNodeUnchanged acc.1 (key_typ q.1) q.2 shadow plan then Ok acc
      else Ok (<[shadow := deref acc.1 q.2]> acc.1, acc.2 ++ [q.1])
  end.
Definition rewire_moved (shadows : gmap nodeKey loc) (acc : gmap loc goval * gmap (nodeKey * nat) towerRelationState) key :
    outcome (gmap loc goval * gmap (nodeKey * nat) towerRelationState) :=
  match shadows !! key with
  | None => Panic
  | Some shadow =>
      heap ← wireTowerNode shadows acc.1 (key, shadow);
      rs ← snapshotTowerRelationsInto heap acc.2 (key, shadow);
      Ok (heap, rs)
  end.

(** [refresh]; a replica that could not be brought up to date is left with what
    was done to it, and its epochs as they were. *)
Definition grow_replica (p : positive) (x : committedRelationIndex) (added : list nodeKey) : st unit := fun w =>
  match t_replicas (w_tower w) !! p with
  | None => (w, Panic)
  | Some rep =>
      let '(heap, grown) := buildTowerShadows (w_heap w) (addedTowerNodes x added) in
      on_replica p (fun rep => with_tr_nodes rep (grown ∪ tr_nodes rep)) (with_heap w heap)
  end.
Definition refresh_cells (x : committedRelationIndex) (shadows : gmap nodeKey loc) : st (list nodeKey) :=
  heap_step (fun w => fold_outcome (refresh_node shadows) (w_heap w, []) (map_range (x_nodes x))).
Definition refresh_relations (p : positive) (shadows : gmap nodeKey loc) (moved : list nodeKey) : st unit :=
  rep ← replica_at p;
  rs ← heap_step (fun w => fold_outcome (rewire_moved shadows) (w_heap w, tr_relations rep) moved);
  on_replica p (fun rep => with_tr_relations rep rs).
Definition refresh_walk (p : positive) (x : committedRelationIndex) (moved added : list nodeKey) : st unit :=
  rep ← replica_at p;
  walk ← lift (fun w => refreshWalk (w_heap w) x (tr_nodes rep) moved added (tr_walk rep));
  on_replica p (fun rep => with_tr_walk rep walk).
Definition refresh (current : option positive) (x : committedRelationIndex) (epochs : gmap string Z) : st bool :=
  match current with
  | None => mret false
  | Some p =>
      rep ← replica_at p;
      if negb (same_node_set x rep) then mret false else
      let added := added_nodes x rep in
      _ ← grow_replica p x added;
      rep ← replica_at p;
      moved ← refresh_cells x (tr_nodes rep);
      let moved := moved ++ added in
      _ ← refresh_relations p (tr_nodes rep) moved;
      _ ← refresh_walk p x moved added;
      _ ← on_replica p (fun rep => with_tr_epochs (with_tr_branches (with_tr_index rep None) ∅ 0) epochs);
      mret true
  end.

Definition towerForgetNodes (closure : gset nodeKey) : st unit := fun w =>
  match t_replica (w_tower w) with
  | None => (w, Ok tt)
  | Some p =>
      if bool_decide (closure = ∅) then (w, Ok tt) else
      on_replica p (fun rep =>
        with_tr_branches (with_tr_walk (with_tr_relations (with_tr_nodes rep
          (filter (fun q => q.1 ∉ closure) (tr_nodes rep))) (filter (fun q => q.1.1 ∉ closure) (tr_relations rep)))
          ((fun g => with_entries_of g (List.filter (fun e => negb (bool_decide (we_key e ∈ closure))) (tw_entries g))) <$> tr_walk rep)) ∅ 0) w
  end.
(** Errors are dropped. *)
Definition refreshAfterCommit : st unit := fun w =>
  match t_replica (w_tower w), c_index (w_committed w) with
  | Some p, Some x =>
      match refresh (Some p) x (towerParticipantEpochs w) w with
      | (w, Panic) => (w, Panic)
      | (w, _) => (w, Ok tt)
      end
  | _, _ => (w, Ok tt)
  end.

(** A replica from nothing. *)
Definition new_replica heap (x : committedRelationIndex) (epochs : gmap string Z) : outcome (gmap loc goval * towerReplica) :=
  let shadows := buildTowerShadows heap (x_nodes x) in
  heap ← wireTowerNodes shadows.1 shadows.2;
  rs ← snapshotTowerRelations heap shadows.2;
  walk ← buildTowerWalk heap x (x_nodes x) shadows.2;
  Ok (heap, {| tr_epochs := epochs; tr_nodes := shadows.2; tr_relations := rs; tr_walk := walk; tr_index := None;
               tr_branches := ∅; tr_branchNodes := 0 |}).
Definition store_replica (rep : towerReplica) : st positive := fun w =>
  let p := fresh (dom (t_replicas (w_tower w))) in
  (with_tower w {| t_replica := Some p; t_replicas := <[p := rep]> (t_replicas (w_tower w)) |}, Ok p).
Definition build_replica (x : committedRelationIndex) (epochs : gmap string Z) : st positive :=
  rep ← heap_step (fun w => new_replica (w_heap w) x epochs); store_replica rep.
Definition current_synced w : option positive :=
  p ← t_replica (w_tower w); rep ← t_replicas (w_tower w) !! p; if synced w rep then Some p else None.
Definition rebuild : st positive :=
  _ ← ensure_ownership types GetId;
  found ← gets current_synced;
  match found with
  | Some p => mret p
  | None =>
      epochs ← gets towerParticipantEpochs;
      index ← gets (fun w => c_index (w_committed w));
      match index with
      | None => fail (ErrText "nestory: committed relation index is unavailable")
      | Some x =>
          current ← gets (fun w => t_replica (w_tower w));
          refreshed ← refresh current x epochs;
          if (refreshed : bool) then lift (fun w => match t_replica (w_tower w) with Some p => Ok p | None => Panic end)
          else build_replica x epochs
      end
  end.

(** ** What moved since the last commit, for the flush *)

Definition words_moved heap (e : towerWalkEntry) : bool :=
  existsb (fun r =>
    if wr_many r then negb (bool_decide (liveManyWords heap (we_live e) (wr_index r) = wr_elements r))
    else negb (bool_decide (cell_field heap (we_live e) (wr_index r) = wr_one r))) (we_relations e).
Definition key_moved heap t (e : towerWalkEntry) (f : towerFieldPlan) : bool :=
  let i := tf_index f in
  negb (same_bytes heap (we_live e) (we_shadow e) [i]) &&
  negb (relationFieldEqual types heap (field_type t i) (cell_field heap (we_live e) i) (cell_field heap (we_shadow e) i)).
Definition graphMovedNodes heap (rep : towerReplica) : list nodeKey * bool :=
  foldl (fun acc g => foldl (fun (acc : list nodeKey * bool) e =>
      let keyed := existsb (key_moved heap (tw_typ g) e) (tw_keyFields g) in
      (if words_moved heap e || keyed then acc.1 ++ [we_key e] else acc.1, acc.2 || keyed)) acc (tw_entries g))
    ([], false) (tr_walk rep).

(** ** What a callback changed *)

Definition towerBranchCacheLimit : Z := 64 * 1024.
Definition branchNode w (rep : towerReplica) key : outcome towerBranchNode :=
  match tr_nodes rep !! key with
  | None => Fail (ErrText "nestory: tower shadow node is missing")
  | Some shadow =>
      match replica_index w rep ≫= fun x => x_nodes x !! key with
      | None => Fail ErrNotFound
      | Some live => Ok {| bn_key := key; bn_live := live; bn_shadow := shadow |}
      end
  end.
Definition branch_keys (root : nodeKey) : st (list nodeKey) := fun w =>
  match committedOwnershipKeys (w_committed w) root with
  | Ok (c, keys) => (with_committed w c, Ok keys)
  | Fail e => (w, Fail e)
  | Panic => (w, Panic)
  end.
Definition cache_branch (root : nodeKey) (branch : list towerBranchNode) (rep : towerReplica) : towerReplica :=
  let rep := if (towerBranchCacheLimit <? tr_branchNodes rep + zlen branch)%Z then with_tr_branches rep ∅ 0 else rep in
  with_tr_branches rep (<[root := branch]> (tr_branches rep)) (tr_branchNodes rep + zlen branch).
Definition branchFor (p : positive) (root : nodeKey) : st (list towerBranchNode) :=
  rep ← replica_at p;
  match tr_branches rep !! root with
  | Some cached => mret cached
  | None =>
      keys ← branch_keys root;
      branch ← lift (fun w => fold_outcome (fun out key => n ← branchNode w rep key; Ok (out ++ [n])) [] keys);
      _ ← on_replica p (cache_branch root branch);
      mret branch
  end.

(** [towerSliceComparators]: the registered types. *)
Definition slice_registered w t : bool := bool_decide (is_Some (w_dbs w !! t)) || bool_decide (is_Some (w_closed w !! t)).
Definition diff_node w (rep : towerReplica) (changes : list towerChange) (n : towerBranchNode) : outcome (list towerChange) :=
  plan ← towerFields (key_typ (bn_key n));
  let fs := diffFields (w_heap w) (slice_registered w) rep n plan in
  Ok (if (0 <? length fs)%nat
      then changes ++ [{| tc_key := bn_key n; tc_live := bn_live n; tc_shadow := bn_shadow n; tc_fields := fs |}] else changes).
Definition diffBranch (p : positive) (root : nodeKey) : st (list towerChange) :=
  branch ← branchFor p root;
  rep ← replica_at p;
  lift (fun w => fold_outcome (diff_node w rep) [] branch).
Fixpoint first_keys (seen : gset nodeKey) (keys : list nodeKey) : list nodeKey :=
  match keys with
  | [] => []
  | key :: keys => if bool_decide (key ∈ seen) then first_keys seen keys else key :: first_keys ({[key]} ∪ seen) keys
  end.
Definition diffNodes (p : positive) (keys : list nodeKey) : st (list towerChange) :=
  rep ← replica_at p;
  lift (fun w => fold_outcome (fun changes key => n ← branchNode w rep key; diff_node w rep changes n) [] (first_keys ∅ keys)).
Definition auditDeclaration (p : positive) (root : nodeKey) (declared : list towerChange) : st unit :=
  full ← diffBranch p root;
  if (length full =? length declared)%nat then mret tt else
  if forallb (fun c => bool_decide (tc_key c ∈ tc_key <$> declared)) full then mret tt
  else fail (ErrText "nestory: node changed without a matching Edit").
(** [audit] is [AuditTrackedWrites]; [declared] is [None] for nil. *)
Definition diffFor (audit : bool) (p : positive) (root : nodeKey) (declared : option (list nodeKey)) : st (list towerChange) :=
  match declared with
  | None => diffBranch p root
  | Some keys =>
      changes ← diffNodes p (root :: keys);
      _ ← (if audit then auditDeclaration p root changes else mret tt);
      mret changes
  end.
End tower.
