(* ===== verification/TowerRun.v ===== *)
(** * Writes through the Tower (src/tower.go, lines 793-942 and 1488-1606,
      src/query.go, src/tracked.go)

    An attempt runs the callback on the shadows, compares them with the live
    rows and writes what differs: values under the locks of the rows alone,
    anything else as a transaction. A conflict starts over. The loops of the
    code have no bound; [fuel] is the number of attempts, [unfinished] a run
    that is still going. *)
From S2P Require Import Prelude GoBytes GoReflect RelationSchema SchemaRows RelationModel CommittedGraph RelationDelta Transaction.
From S2P Require Import WalFrame RowCodec WalLog ChunkStore IndexSpecs SecondaryIndex IndexCommit Storage Table Wiring Aggregate GraphCommit World Commit Api Tower.

Inductive attempt := settled | again | relation_commit (rs : list touchedResource).
Inductive run_result := handled | unhandled | unfinished.

(** [Writes] of a tracked callback. *)
Record Writes := { ws_owner : nodeKey; declared : list nodeKey; ws_err : option gerror }.

(** The outcome as a value, for the callers that look at errors. *)
Definition catch {A} (m : st A) : st (outcome A) := fun w =>
  match m w with (w, Panic) => (w, Panic) | (w, r) => (w, Ok r) end.

Section tower.
Context (types : typeEnv) (GetId : goval -> Z) (gob_encode : gotype -> goval -> outcome (list byte))
  (gob_encode_rows : structDef -> list goval -> outcome (list byte)).
Context `{!MapOrder nodeKey, !MapOrder string, !MapOrder Z}.
Context (same_bytes : gmap loc goval -> loc -> loc -> list nat -> bool) (other_comparable : string -> bool).
(** [AuditTrackedWrites]. *)
Context (audit : bool).
Implicit Types (t : string) (id : Z) (w : world) (heap : gmap loc goval) (key : nodeKey).
Notation commit := (commit types GetId gob_encode gob_encode_rows).
Notation transaction := (Transaction_ types GetId gob_encode gob_encode_rows).

(** ** From shadows to a write *)

(** [copyTowerField]: slices are values. *)
Definition patch heap (c : towerChange) : goval :=
  VStruct (foldl (fun fs i => <[i := cell_field heap (tc_shadow c) i]> fs) (struct_fields (deref heap (tc_live c))) (tc_fields c)).
Definition materialize_change w (acc : gmap loc goval * list touchedResource) (c : towerChange) : outcome (gmap loc goval * list touchedResource) :=
  db ← committerFor (w_dbs w) (key_typ (tc_key c));
  match resourceVersion db (key_id (tc_key c)) with
  | None => Fail ErrNotFound
  | Some v =>
      let o := new_cell acc.1 (deref acc.1 (tc_live c)) in
      let k := new_cell o.1 (patch o.1 c) in
      Ok (k.1, acc.2 ++ [{| dbName := key_typ (tc_key c); t_id := key_id (tc_key c); ver := v; t_work := k.2; original := o.2 |}])
  end.
Definition materializeTowerChanges (changes : list towerChange) : st (list touchedResource * bool) :=
  rs ← heap_step (fun w => fold_outcome (materialize_change w) (w_heap w, []) changes);
  relationChanged ← lift (fun w => resourcesChangeRelationGraph types GetId (w_heap w) (opened w) rs);
  mret (rs, relationChanged).

Definition tower_version (r : touchedResource) : st unit :=
  v ← lift (fun w => db ← committerFor (w_dbs w) (dbName r); Ok (resourceVersion db (t_id r)));
  if bool_decide (v = Some (ver r)) then mret tt else fail ErrConflict.
Definition commitTowerScalarChanges (env : commit_env) (rs : list touchedResource) : st unit :=
  _ ← each tower_version rs;
  cs ← gets (fun w => pending_changes (w_heap w) (transactionChanges rs ∅ ∅));
  _ ← validateTransactionIndexes cs;
  _ ← logTransactionChanges types gob_encode (ev_append env) cs;
  _ ← prepareTransactionIndexes GetId cs;
  _ ← each apply_write rs;
  finishTransactionIndexes GetId cs.
Definition record_tx (h : positive) (r : touchedResource) : st unit := world_step (fun w =>
  en ← record (w_engine w) h r; Ok (with_engine w en)).
Definition commitTowerRelationChanges (env : commit_env) (rs : list touchedResource) : st unit :=
  h ← begin_tx; _ ← each (record_tx h) rs; commit env h.

(** ** One attempt *)

Definition retire_on_error {A} (p : positive) (m : st A) : st A := fun w =>
  match m w with (w, Fail e) => ((retire p w).1, Fail e) | r => r end.
Definition publish_changes (env : commit_env) (p : positive) (changes : list towerChange) : st attempt :=
  found ← retire_on_error p (materializeTowerChanges changes);
  if (found.2 : bool) then mret (relation_commit found.1) else
  _ ← retire_on_error p (commitTowerScalarChanges env found.1);
  _ ← captureEpochs p;
  mret settled.
(** [edit] returns what it declares to have changed, [None] for nil. *)
Definition towerAttempt (env : commit_env) (p : positive) (root owner : nodeKey) (edit : loc -> nodeKey -> st (option (list nodeKey))) : st attempt :=
  rep ← replica_at p;
  match tr_nodes rep !! root with
  | None => fail ErrNotFound
  | Some shadow =>
      decl ← retire_on_error p (edit shadow owner);
      rep ← replica_at p;
      good ← gets (fun w => synced w rep);
      if negb good then _ ← retire p; mret again else
      changes ← retire_on_error p (diffFor types GetId same_bytes other_comparable audit p root decl);
      if bool_decide (length changes = 0)%nat then mret settled else publish_changes env p changes
  end.

Definition current_replica : st positive :=
  found ← gets current_synced;
  match found with Some p => mret p | None => rebuild types GetId same_bytes other_comparable end.
Fixpoint tower_loop (env : commit_env) (fuel : nat) (root : nodeKey) (edit : loc -> nodeKey -> st (option (list nodeKey))) : st run_result :=
  match fuel with
  | O => mret unfinished
  | S fuel =>
      owner ← gets (fun w => committedOwnershipRoot (w_committed w) root);
      p ← current_replica;
      a ← towerAttempt env p root owner edit;
      match a with
      | settled => mret handled
      | again => tower_loop env fuel root edit
      | relation_commit rs =>
          r ← catch (commitTowerRelationChanges env rs);
          _ ← retire p;
          match r with
          | Fail e => if bool_decide (e = ErrConflict) then tower_loop env fuel root edit else fail e
          | _ => mret handled
          end
      end
  end.
(** Errors are those of a write that was handled. *)
Definition towerRun (env : commit_env) (fuel : nat) t id (edit : loc -> nodeKey -> st (option (list nodeKey))) : st run_result :=
  participant ← relationParticipant t;
  if negb participant then mret unhandled else
  _ ← ensure_ownership types GetId;
  children ← gets (fun w => committedOwnerHasChildren (w_committed w) {| key_typ := t; key_id := id |});
  if negb children then mret unhandled else tower_loop env fuel {| key_typ := t; key_id := id |} edit.
Definition towerUpdateWithin (env : commit_env) (fuel : nat) t id (fn : loc -> st unit) : st run_result :=
  towerRun env fuel t id (fun shadow _ => _ ← fn shadow; mret None).

(** ** The write APIs *)

(** The retry after a conflict: [fast] first, then a transaction. *)
Fixpoint retry (fuel : nat) (fast : st run_result) (slow : st unit) : st run_result :=
  match fuel with
  | O => mret unfinished
  | S fuel =>
      r ← catch fast;
      match r with
      | Ok unhandled =>
          r ← catch slow;
          match r with
          | Fail e => if bool_decide (e = ErrConflict) then retry fuel fast slow else fail e
          | _ => mret handled
          end
      | Ok r => mret r
      | Fail e => if bool_decide (e = ErrConflict) then retry fuel fast slow else fail e
      | Panic => panic
      end
  end.
Definition found_row t id : st unit := db ← table t; match resource db id with None => fail ErrNotFound | Some _ => mret tt end.
(** [DB.UpdateWithin]. *)
Definition UpdateWithin (env : commit_env) (fuel : nat) t id (fn : loc -> st unit) : st run_result :=
  _ ← found_row t id;
  retry fuel (towerUpdateWithin env fuel t id fn) (transaction env (fun h => UpdateWithin_in types GetId h t id fn)).

(** ** Tracked writes *)

Definition no_writes (owner : nodeKey) : Writes := {| ws_owner := owner; declared := []; ws_err := None |}.
Definition fail_writes (ws : Writes) (e : gerror) : Writes :=
  match ws_err ws with None => {| ws_owner := ws_owner ws; declared := declared ws; ws_err := Some e |} | Some _ => ws end.
(** [Edit]: [None] is a nil node. *)
Definition Edit t (node : option loc) (ws : Writes) : st Writes :=
  match node with
  | None => mret (fail_writes ws (ErrText "nestory: Edit needs a non-nil node"))
  | Some l => gets (fun w =>
      let key := {| key_typ := t; key_id := GetId (deref (w_heap w) l) |} in
      if bool_decide (committedOwnershipRoot (w_committed w) key = ws_owner ws)
      then {| ws_owner := ws_owner ws; declared := declared ws ++ [key]; ws_err := ws_err ws |}
      else fail_writes ws (ErrText "nestory: Edit is outside the branch being updated"))
  end.
Definition tracked_edit (fn : Writes -> loc -> st Writes) (shadow : loc) (owner : nodeKey) : st (option (list nodeKey)) :=
  ws ← fn (no_writes owner) shadow;
  match ws_err ws with Some e => fail e | None => mret (Some (declared ws)) end.
(** A root outside the graph, or one that owns nothing, is written by a
    transaction; what the callback declares is not used there. *)
Definition tracked_transaction (env : commit_env) t id (fn : Writes -> loc -> st Writes) : st unit :=
  transaction env (fun h => UpdateWithin_in types GetId h t id (fun l =>
    _ ← fn {| ws_owner := {| key_typ := ""; key_id := 0 |}; declared := []; ws_err := None |} l; mret tt)).
Definition Tracked_UpdateWithin (env : commit_env) (fuel : nat) t id (fn : Writes -> loc -> st Writes) : st run_result :=
  _ ← found_row t id;
  retry fuel (towerRun env fuel t id (tracked_edit fn)) (tracked_transaction env t id fn).
End tower.
