(* ===== verification/Flush.v ===== *)
(** * Flushing live edits (src/unsafe.go, src/relation_runtime.go, lines
      1294-1303 and 1495-2105)

    The unsafe API hands out live pointers and queues creates and deletes;
    [flushRelations] finds out what changed, validates it and writes it. It
    settles a flush against the replica of the Tower where it can, by an index
    delta or by taking deleted nodes out of the published index, and rebuilds
    the whole graph where it cannot. What was done before an error remains. *)
From S2P Require Import Prelude GoBytes GoReflect RelationSchema SchemaRows RelationModel CommittedGraph RelationDelta Transaction.
From S2P Require Import WalFrame RowCodec WalLog ChunkStore IndexSpecs SecondaryIndex IndexCommit Storage Table Wiring Aggregate GraphCommit World Commit Api Tower.

(** ** Taking nodes out of the published index *)

Definition index_without (x : committedRelationIndex) (fs : gmap relationHolderField indexedRelationField)
    (ts : gmap relationTargetKey indexedRelationTarget) (doomed : nodeKey) : committedRelationIndex :=
  {| x_nodes := delete doomed (x_nodes x); x_targets := ts; x_targetFields := x_targetFields x; backFields := backFields x;
     x_fields := fs; x_incoming := delete doomed (x_incoming x); x_owners := delete doomed (x_owners x) |}.

Section flush.
Context (types : typeEnv) (GetId : goval -> Z) (gob_encode : gotype -> goval -> outcome (list byte))
  (gob_encode_rows : structDef -> list goval -> outcome (list byte)).
Context `{!MapOrder nodeKey, !MapOrder string, !MapOrder Z}.
Context (same_bytes : gmap loc goval -> loc -> loc -> list nat -> bool) (other_comparable : string -> bool).
Implicit Types (w : world) (heap : gmap loc goval) (t : string) (x : committedRelationIndex) (closure : gset nodeKey).

Notation removal := (committedRelationIndex * gmap nodeKey (list nodeKey) * gset nodeKey)%type.
(** A relation field of a deleted node: the targets that stay lose a count. *)
Definition remove_field closure (doomed : nodeKey) (st : removal) (r : relationSpec) : outcome removal :=
  let '(x, out, again) := st in
  let f := {| hf_holder := doomed; hf_field := fieldIndex r |} in
  if bool_decide (kind r = inverseRelation) then Ok st else
  match x_fields x !! f with
  | None => Ok st
  | Some field =>
      let kept := List.filter (fun tgt => negb (bool_decide (tgt ∈ closure))) (if_targets field) in
      x ← fold_outcome (fun x tgt => decrementIncoming x tgt f) x kept;
      let again := if bool_decide (kind r = borrowRelation) || bool_decide (kind r = optionRelation)
        then foldl (fun again tgt => {[tgt]} ∪ again) again kept else again in
      Ok (with_fields x (delete f (x_fields x)), out, again)
  end.
Definition node_pointer x (key : nodeKey) : goval := VPointer (x_nodes x !! key).
Definition remove_lookups heap x (doomed : nodeKey) : gmap relationTargetKey indexedRelationTarget :=
  foldl (fun ts field => match relationKey types heap (key_typ doomed) (node_pointer x doomed) field with
    | Some v => delete {| tk_typ := key_typ doomed; tk_field := field; tk_value := v |} ts
    | None => ts
    end) (x_targets x) (set_range (default ∅ (x_targetFields x !! key_typ doomed))).
Definition remove_node heap closure (st : removal) (doomed : nodeKey) : outcome removal :=
  st ← match relationSpecs types (key_typ doomed) with
       | Ok specs => fold_outcome (remove_field closure doomed) st specs
       | Fail _ => Ok st
       | Panic => Panic
       end;
  let '(x, out, again) := st in
  let out := match x_owners x !! doomed with Some owner => removeCommittedChild out owner doomed | None => out end in
  Ok (index_without x (x_fields x) (remove_lookups heap x doomed) doomed, delete doomed out, again).
Definition removeDeletedFromCommittedIndex c x heap closure : outcome (committedOwnership * gmap loc goval) :=
  st ← fold_outcome (remove_node heap closure) (x, c_outgoing c, ∅) (set_range closure);
  let '(x, out, again) := st in
  heap ← fold_outcome (RelationDelta.rewire_inverse types x) heap (set_range again);
  Ok ({| ready := ready c; c_outgoing := out; branches := ∅; graph := None; c_index := Some x |}, heap).

(** ** The tail of every flush *)

Definition runtime_names w : list string := SortFunc string_compare (map_range (w_dbs w)).*1.
(** Each open table in turn. *)
Definition each_runtime (f : string -> st unit) : st unit := fun w => each f (runtime_names w) w.
Definition table_step (f : gmap loc goval -> DB -> outcome (gmap loc goval * DB)) t : st unit := fun w =>
  match w_dbs w !! t with
  | None => (w, Panic)
  | Some db => match f (w_heap w) db with
               | Ok (heap, db) => (with_table (with_heap w heap) t db, Ok tt)
               | Fail e => (w, Fail e)
               | Panic => (w, Panic)
               end
  end.
(** [relationApplyPending]: what was added before an error stays. *)
Definition apply_one (entity : loc) : string -> st unit := table_step (fun heap db =>
  when bool_decide (is_Some (resource db (GetId (deref heap entity)))) => Fail ErrAlreadyExists ;;
  Ok (add GetId heap db entity)).
Definition apply_pending : st unit := each_runtime (fun t => fun w =>
  match w_dbs w !! t with None => (w, Panic) | Some db => each (fun entity => apply_one entity t) (relationPending db) w end).
Definition reindex_all : st unit := each_runtime (table_step (fun heap db => db ← relationReindex GetId heap db; Ok (heap, db))).
Definition clear_queues : st unit := each_runtime (table_step (fun heap db => Ok (heap, relationClearQueues db))).
Definition flushPersist (env : commit_env) : st unit :=
  _ ← reindex_all;
  _ ← save_all types gob_encode_rows env;
  _ ← truncate_shared env;
  clear_queues.

Definition registeredRelations w : outcome bool := any_relations types (runtime_names w).
Definition explicitDeletes w : gset nodeKey :=
  foldl (fun (out : gset nodeKey) t => match w_dbs w !! t with
    | Some db => foldl (fun (out : gset nodeKey) id => {[ {| key_typ := t; key_id := id |} ]} ∪ out) out (relationDeleteIDs GetId (w_heap w) db)
    | None => out
    end) ∅ (runtime_names w).
Definition flushWithoutRelations (env : commit_env) : st unit :=
  _ ← apply_pending;
  _ ← each_runtime (table_step (fun heap db =>
        let ids := relationDeleteIDs GetId heap db in
        Ok (heap, if (length ids =? 0)%nat then db else relationDelete GetId heap db (list_to_set ids))));
  flushPersist env.

(** Created entities are bound to their live cells. *)
Definition bind_pending (t : string) w m (l : loc) : outcome relationModel :=
  match valueID GetId (w_heap w) (VPointer (Some l)) with
  | None => Fail ErrRelationInvariant
  | Some id =>
      db ← committerFor (w_dbs w) t;
      match relationValue db id with
      | None => Fail ErrRelationInvariant
      | Some live => Ok (with_nodes m (<[{| key_typ := t; key_id := id |} := live]> (nodes m)))
      end
  end.
Definition bindPendingRelationModelToLive w m : outcome relationModel :=
  fold_outcome (fun m t => db ← committerFor (w_dbs w) t; fold_outcome (bind_pending t w) m (relationPending db)) m (runtime_names w).

(** ** Flushes by an index delta *)

Definition published : st (option committedRelationIndex) := gets (fun w => c_index (w_committed w)).
Definition mark_touched (rs : list touchedResource) : st unit := each (fun r => fun w =>
  match w_dbs w !! dbName r with
  | Some db => (with_table w (dbName r) (relationMarkDirty db (t_id r)), Ok tt)
  | None => (w, Ok tt)
  end) rs.
Definition publish_delta (d : relationIndexDelta) : st unit := world_step (fun w =>
  p ← publishAndRewire types (w_committed w) (w_heap w) d; Ok (with_heap (with_committed w p.1) p.2)).
(** An error of [f] is no error of the flush: it falls back. *)
Definition attempt_lift {A} (f : world -> outcome (option A)) : st (option A) := fun w =>
  match f w with Ok r => (w, Ok r) | Fail _ => (w, Ok None) | Panic => (w, Panic) end.

(** The live cell of a node is its working copy; there is no original. *)
Definition live_resource x (key : nodeKey) : option touchedResource :=
  (fun l => {| dbName := key_typ key; t_id := key_id key; ver := 0; t_work := l; original := l |}) <$> x_nodes x !! key.
Definition pending_creates w : option (gmap nodeKey loc) :=
  foldl (fun acc t => match w_dbs w !! t with
    | Some db => foldl (fun acc l => match acc, valueID GetId (w_heap w) (VPointer (Some l)) with
        | Some cs, Some id => Some (<[{| key_typ := t; key_id := id |} := l]> cs)
        | _, _ => None
        end) acc (relationPending db)
    | None => acc
    end) (Some ∅) (runtime_names w).

Definition build_create_delta (touched : list touchedResource) (cs : gmap nodeKey loc) : st (option relationIndexDelta) :=
  attempt_lift (fun w => buildRelationCreateIndexDelta types (w_heap w) (opened w) (c_index (w_committed w)) touched cs).
(** The heap changes of a step that fails are to copies and queued entities. *)
Definition materialize_delta (d : relationIndexDelta) (touched : list touchedResource) (cs : gmap nodeKey loc) : st (option (list touchedResource)) := fun w =>
  match RelationDelta.materializeOwnBackReferences types (w_heap w) (live_rows (w_dbs w)) d [] touched cs with
  | Ok (heap, rs) => (with_heap w heap, Ok (Some rs))
  | Fail _ => (w, Ok None)
  | Panic => (w, Panic)
  end.
Definition bind_create w d (key : nodeKey) : outcome relationIndexDelta :=
  match w_dbs w !! key_typ key with
  | None => Fail ErrRelationInvariant
  | Some db => match relationValue db (key_id key) with
               | None => Fail ErrRelationInvariant
               | Some live => Ok (bindCreatedNode d key live)
               end
  end.
Definition flush_delta (env : commit_env) (d : relationIndexDelta) (touched changed : list touchedResource) (cs : gmap nodeKey loc) : st unit :=
  _ ← apply_pending;
  d ← lift (fun w => fold_outcome (bind_create w) d (map_range cs).*1);
  _ ← each apply_write (drop (length touched) changed);
  _ ← mark_touched touched;
  _ ← flushPersist env;
  _ ← publish_delta d;
  refreshAfterCommit types GetId same_bytes other_comparable.
Definition flush_moved (env : commit_env) x (moved : list nodeKey) : st bool :=
  creates ← gets pending_creates;
  match creates with
  | None => mret false
  | Some cs =>
      if bool_decide (moved = []) && bool_decide (cs = ∅) then _ ← flushPersist env; mret true else
      let touched := omap (live_resource x) moved in
      delta ← build_create_delta touched cs;
      match delta with
      | None => mret false
      | Some d =>
          changed ← materialize_delta d touched cs;
          match changed with
          | None => mret false
          | Some changed => _ ← flush_delta env d touched changed cs; mret true
          end
      end
  end.

(** ** Deletes by the published index *)

(** The nodes the deletes take with them. *)
Definition cascade_fuel c (explicit : gset nodeKey) : nat := S (size explicit + list_sum (length <$> (map_to_list (c_outgoing c)).*2)).
Definition cascade c x (explicit : gset nodeKey) : outcome (option (gset nodeKey)) :=
  if negb (forallb (fun key => bool_decide (is_Some (x_nodes x !! key))) (set_range explicit)) then Ok None else
  closure ← closure_loop (committedChildren c) (cascade_fuel c explicit) explicit (set_range explicit);
  Ok (Some closure).

(** The fields of survivors that lose a target; [None] if a survivor cannot do
    without it, or the index does not know the field. *)
Notation survivors := (list (nodeKey * relationSpec) * gset relationHolderField)%type.
Definition survivor_entry closure x (acc : option survivors) (e : incomingCount) : option survivors :=
  match acc with
  | None => None
  | Some (out, seen) =>
      if (ic_count e <=? 0)%Z || bool_decide (hf_holder (ic_field e) ∈ closure) then acc else
      match x_fields x !! ic_field e ≫= if_spec with
      | None => None
      | Some r =>
          if bool_decide (kind r = borrowRelation) || bool_decide (kind r = ownedByRelation) ||
             (bool_decide (kind r = ownRelation) && negb (many r)) then None
          else if bool_decide (ic_field e ∈ seen) then acc
          else Some (out ++ [(hf_holder (ic_field e), r)], {[ic_field e]} ∪ seen)
      end
  end.
Definition duplicate_key heap x (doomed : nodeKey) : bool :=
  existsb (fun field => match relationKey types heap (key_typ doomed) (node_pointer x doomed) field with
    | Some v => match x_targets x !! {| tk_typ := key_typ doomed; tk_field := field; tk_value := v |} with
                | Some target => it_duplicate target | None => false end
    | None => false
    end) (set_range (default ∅ (x_targetFields x !! key_typ doomed))).
Definition survivors_of heap closure x : option survivors :=
  foldl (fun acc doomed =>
    match foldl (survivor_entry closure x) acc (CommittedGraph.entries (default no_counts (x_incoming x !! doomed))) with
    | Some s => if duplicate_key heap x doomed then None else Some s
    | None => None
    end) (Some ([], ∅)) (set_range closure).

(** A nil slice stays nil; [Set] and [SetLen] panic on an unexported field. *)
Definition drop_doomed heap closure (l : loc) (r : relationSpec) : outcome (gmap loc goval) :=
  when negb (spec_exported types r) => Panic ;;
  Ok match node_field heap l (fieldIndex r) with
  | Some (VSlice (Some es)) => set_node_field heap l (fieldIndex r) (VSlice (Some (dropDoomedPointers types GetId heap r es closure)))
  | _ => heap
  end.
Definition drop_target closure x heap (s : nodeKey * relationSpec) : outcome (gmap loc goval) :=
  match x_nodes x !! s.1 with
  | None => Panic
  | Some l =>
      if many s.2 then drop_doomed heap closure l s.2 else
      match (v ← node_field heap l (fieldIndex s.2); valueID GetId heap (readable types s.2 v)) with
      | Some id => Ok (if bool_decide ({| key_typ := target s.2; key_id := id |} ∈ closure) then (clearPointer heap l (fieldIndex s.2)).1 else heap)
      | None => Ok heap
      end
  end.

Definition flush_closure (env : commit_env) closure : st bool :=
  _ ← world_step (fun w => match c_index (w_committed w) with
        | None => Panic
        | Some x => p ← removeDeletedFromCommittedIndex (w_committed w) x (w_heap w) closure; Ok (with_heap (with_committed w p.1) p.2)
        end);
  _ ← applyDeletedNodes GetId closure;
  _ ← flushPersist env;
  _ ← towerForgetNodes closure;
  _ ← refreshAfterCommit types GetId same_bytes other_comparable;
  mret true.
(** The fields are changed before the delta is built: what follows a delta that
    is refused finds the graph without the deleted nodes. *)
Definition flush_survivors (env : commit_env) closure x (ss : list (nodeKey * relationSpec)) : st bool :=
  _ ← on_heap (fun w => fold_outcome (drop_target closure x) (w_heap w) ss);
  let touched := omap (fun s => live_resource x s.1) ss in
  if bool_decide (touched = []) then flush_closure env closure else
  delta ← attempt_lift (fun w => buildRelationIndexDelta types (w_heap w) (opened w) (c_index (w_committed w)) touched);
  match delta with
  | None => mret false
  | Some d =>
      _ ← publish_delta d;
      _ ← mark_touched touched;
      flush_closure env closure
  end.
Definition flushDeletesViaDelta (env : commit_env) x (explicit : gset nodeKey) : st bool :=
  closure ← lift (fun w => cascade (w_committed w) x explicit);
  match closure with
  | None => mret false
  | Some closure =>
      ss ← gets (fun w => survivors_of (w_heap w) closure x);
      match ss with
      | None => mret false
      | Some ss => flush_survivors env closure x ss.1
      end
  end.

(** [flushIncremental]: the replica must share the published index. *)
Definition shared_replica w : option (towerReplica * committedRelationIndex) :=
  p ← t_replica (w_tower w); rep ← t_replicas (w_tower w) !! p;
  match tr_index rep with None => pair rep <$> c_index (w_committed w) | Some _ => None end.
Definition no_pending w : bool :=
  forallb (fun t => match w_dbs w !! t with Some db => (length (relationPending db) =? 0)%nat | None => true end) (runtime_names w).
Definition flushIncremental (env : commit_env) : st bool :=
  deletes ← gets explicitDeletes;
  shared ← gets shared_replica;
  match shared with
  | None => mret false
  | Some (rep, x) =>
      found ← gets (fun w => graphMovedNodes types same_bytes (w_heap w) rep);
      if (found.2 : bool) then mret false else
      if negb (bool_decide (deletes = ∅)) then
        idle ← gets no_pending;
        if negb (bool_decide (found.1 = [])) || negb idle then mret false else flushDeletesViaDelta env x deletes
      else flush_moved env x found.1
  end.

(** ** The flush *)

Definition flush_rebuilt (env : commit_env) m (deleted : gset nodeKey) : st unit :=
  _ ← apply_pending;
  m ← lift (fun w => bindPendingRelationModelToLive w m);
  _ ← lift (fun _ => validateRequiredRelations m deleted);
  _ ← heap_step (fun w => reconcileRelations types m (w_heap w) deleted);
  _ ← applyDeletedNodes GetId deleted;
  _ ← rewire_all types GetId;
  _ ← flushPersist env;
  _ ← modify (fun w => with_new_index w (storeCommittedOwnership types (w_heap w) m deleted));
  refreshAfterCommit types GetId same_bytes other_comparable.
Definition plan_flush : st (relationModel * gset nodeKey) := lift (fun w =>
  ns ← collectRelationNodes GetId (w_heap w) (registries_of GetId (w_heap w) (w_closed w) (w_dbs w)) true None;
  m ← buildRelationModel types (w_heap w) ns;
  deleted ← deletionClosure m (c_outgoing (w_committed w)) (explicitDeletes w);
  _ ← validateRequiredRelations m deleted;
  Ok (m, deleted)).
Definition flushRelations (env : commit_env) : st unit :=
  hasRelations ← lift registeredRelations;
  if negb hasRelations then flushWithoutRelations env else
  done_ ← flushIncremental env;
  if (done_ : bool) then mret tt else
  planned ← plan_flush;
  flush_rebuilt env planned.1 planned.2.

(** ** The unsafe API *)

Definition update_table t (f : DB -> DB) : st unit := table_step (fun heap db => Ok (heap, f db)) t.
Definition Unsafe_Get t (id : Z) : st loc :=
  db ← table t;
  match resource db id with
  | None => fail ErrNotFound
  | Some slot =>
      _ ← ensure_ownership types GetId;
      _ ← update_table t (fun db => let db := markChanged db in with_store db (markDirty (store db) (chunk slot)));
      mret (item slot)
  end.
Definition Unsafe_All t : st (list loc) :=
  _ ← update_table t (fun db => (unsafe_All db).1);
  db ← table t;
  mret (StorePointers (store db)).
Definition Unsafe_Create t (entity : loc) : st unit := table_step (fun heap db => queueCreate types GetId heap db entity) t.
Definition Unsafe_Delete t (id : Z) : st unit := table_step (fun heap db => db ← queueDelete GetId heap db id; Ok (heap, db)) t.
Definition Unsafe_Flush (env : commit_env) t : st unit := _ ← update_table t markChanged; flushRelations env.
End flush.
