(* ===== verification/CommitSteps.v ===== *)
(** * What a commit does to the tables (src/engine.go)

    The tables of the process are described by their rows: key to value and
    version. A commit that leaves the relation graph alone refines an atomic
    step on that map: either it succeeds, and every row it names was at the
    version it was read at and has its new contents, or no row changes. The
    tables and their indexes stay consistent either way. *)
From S2P Require Import Prelude GoBytes GoReflect RelationSchema SchemaRows RelationModel CommittedGraph RelationDelta Transaction.
From S2P Require Import WalFrame RowCodec WalLog ChunkStore IndexSpecs SecondaryIndex IndexCommit Storage Table Wiring Aggregate GraphCommit World Commit.

(** ** Specification *)

(** A row of the tables: its cell, value and version. *)
Definition cell_row (w : world) (k : nodeKey) : option (loc * goval * Z) :=
  db ← w_dbs w !! key_typ k; slot ← resource db (key_id k);
  Some (item slot, deref (w_heap w) (item slot), version slot).
Definition row (w : world) (k : nodeKey) : option (goval * Z) := (fun c => (c.1.2, c.2)) <$> cell_row w k.

(** A cell that belongs to no table: where the copies of a transaction are. *)
Definition detached (w : world) (l : loc) : Prop :=
  is_Some (w_heap w !! l) /\ forall t db, w_dbs w !! t = Some db -> l ∉ owned db.

(** The resource of a commit for a key, if it has one. *)
Definition find_key (rs : list touchedResource) (k : nodeKey) : option touchedResource :=
  List.find (fun r => bool_decide (resource_node r = k)) rs.

(** The rows after a commit: deletes gone - also what the commit creates or
    changes itself -, creates at version 0, changed copies written with the next
    version, all others as they were. *)
Definition committed_row (w : world) (touched : list touchedResource) (cs : gmap nodeKey loc) (ds : gset nodeKey)
    (k : nodeKey) : option (goval * Z) :=
  if bool_decide (k ∈ ds) then None else
  match cs !! k with
  | Some l => Some (deref (w_heap w) l, 0%Z)
  | None =>
      match find_key touched k with
      | Some r => Some (deref (w_heap w) (t_work r), (ver r + 1)%Z)
      | None => row w k
      end
  end.

Section invariant.
Context (GetId : goval -> Z).

(** The stores agree with their maps of ids, and share no cell. *)
Record stores_ok (w : world) : Prop := {
  so_name : forall t db, w_dbs w !! t = Some db -> Table.name db = t;
  so_rows : forall t db, w_dbs w !! t = Some db -> rows_ok GetId (w_heap w) db;
  so_apart : forall t t' db db' l, w_dbs w !! t = Some db -> w_dbs w !! t' = Some db' -> t <> t' -> l ∈ owned db -> l ∉ owned db';
}.
(** And the indexes describe the rows. *)
Definition indexes_in_step (w : world) : Prop := forall t db, w_dbs w !! t = Some db -> IndexCommit.table_ok GetId (w_heap w) (rowCells db) (secondary db).
Definition tables_ok (w : world) : Prop := stores_ok w /\ indexes_in_step w.

(** A value a table can hold under an id. *)
Definition fits_table (w : world) (k : nodeKey) (v : goval) : Prop :=
  GetId v = key_id k /\ (0 < key_id k)%Z /\
  forall db, w_dbs w !! key_typ k = Some db -> map_Forall (fun _ x => entity_typed (spec x) v) (secondary db).

(** What transactions keep to: copies and creates are cells of their own, the
    untouched copy has the id of its row, and what is to be written fits its
    table. *)
Record tx_ok (w : world) (tx : transactionState) : Prop := {
  tx_collected : collected tx;
  tx_copies : forall r, r ∈ copyResources tx -> detached w (t_work r) /\ detached w (original r) /\
    GetId (deref (w_heap w) (original r)) = t_id r /\
    (GetId (deref (w_heap w) (t_work r)) = t_id r -> fits_table w (resource_node r) (deref (w_heap w) (t_work r)));
  tx_creates : forall k l, creates tx !! k = Some l -> detached w l /\ fits_table w k (deref (w_heap w) l);
}.
End invariant.

(** ** Steps that keep the indexes *)

Lemma row_some w k v n : row w k = Some (v, n) <-> exists c, cell_row w k = Some (c, v, n).
Proof.
  unfold row. rewrite fmap_Some. split.
  - intros ([[c v'] n'] & E & [= -> ->]). by exists c.
  - intros [c E]. by exists (c, v, n).
Qed.
Lemma row_none w k : row w k = None <-> cell_row w k = None.
Proof. unfold row. by destruct (cell_row w k). Qed.

Lemma row_cells w k v : cell_row w k = Some v -> exists db, w_dbs w !! key_typ k = Some db /\ rowCells db !! key_id k = Some v.1.1.
Proof.
  unfold cell_row. destruct (w_dbs w !! key_typ k) as [db|]; [|done]. cbn. intros E. exists db. split; [done|].
  rewrite rowCells_resource. destruct (resource db (key_id k)); [|done]. by injection E as <-.
Qed.
Lemma rowCells_row w t db id l : w_dbs w !! t = Some db -> rowCells db !! id = Some l ->
  exists n, cell_row w {| key_typ := t; key_id := id |} = Some (l, deref (w_heap w) l, n).
Proof.
  intros Hdb. rewrite rowCells_resource. intros (slot & E & ->)%fmap_Some. exists (version slot).
  unfold cell_row. cbn. rewrite Hdb. cbn. by rewrite E.
Qed.

Definition keeps_indexes (w w' : world) : Prop := forall t, secondary <$> w_dbs w' !! t = secondary <$> w_dbs w !! t.

Section steps.
Context (GetId : goval -> Z).
Notation stores_ok := (stores_ok GetId).

(** A step on the rows: the tables stay sound, and detached cells are left alone. *)
Record step_ok (w w' : world) : Prop := {
  st_stores : stores_ok w';
  st_detached : forall l, detached w l -> w_heap w' !! l = w_heap w !! l /\ detached w' l;
}.
Lemma step_refl w : stores_ok w -> step_ok w w.
Proof. by split. Qed.
Lemma step_trans w1 w2 w3 : step_ok w1 w2 -> step_ok w2 w3 -> step_ok w1 w3.
Proof. intros [_ H1] [S2 H2]. split; [done|]. intros l Hl. destruct (H1 l Hl) as [<- Hl']. by apply H2. Qed.
Lemma step_deref w w' l : step_ok w w' -> detached w l -> deref (w_heap w') l = deref (w_heap w) l.
Proof. intros [_ H] Hl. unfold deref. by rewrite (proj1 (H l Hl)). Qed.
Lemma keeps_trans w1 w2 w3 : keeps_indexes w1 w2 -> keeps_indexes w2 w3 -> keeps_indexes w1 w3.
Proof. intros H1 H2 t. by rewrite H2, H1. Qed.

(** One table changes, and with it the heap: in the cells of the table, or in
    a fresh one. *)
Lemma on_table_step w t db heap' db' : stores_ok w -> w_dbs w !! t = Some db ->
  Table.name db' = Table.name db -> rows_ok GetId heap' db' ->
  (forall l, is_Some (w_heap w !! l) -> l ∉ owned db -> heap' !! l = w_heap w !! l) ->
  (forall l, l ∈ owned db' -> l ∈ owned db \/ w_heap w !! l = None) ->
  let w' := with_table (with_heap w heap') t db' in
  step_ok w w' /\ forall k, key_typ k <> t -> cell_row w' k = cell_row w k.
Proof.
  intros [Hn Hr Ha] Hdb Hname Hok Hheap Hown w'.
  assert (forall t', w_dbs w' !! t' = if bool_decide (t' = t) then Some db' else w_dbs w !! t') as Hdbs.
  { intros t'. cbn. case_bool_decide as E; [subst; apply lookup_insert_eq|by apply lookup_insert_ne]. }
  assert (forall t' db0 l, w_dbs w !! t' = Some db0 -> t' <> t -> l ∈ owned db0 -> is_Some (w_heap w !! l) /\ l ∉ owned db /\ l ∉ owned db') as Hother.
  { intros t' db0 l H0 Hne Hl. assert (is_Some (w_heap w !! l)) as [v Hv] by (eapply owned_alloc; eauto).
    assert (l ∉ owned db) as Hn' by (eapply Ha; eauto). split; [by eexists|]. split; [done|].
    intros [?|?]%Hown; [done|congruence]. }
  assert (forall t' db0, w_dbs w !! t' = Some db0 -> t' <> t -> forall l, l ∈ owned db0 -> heap' !! l = w_heap w !! l) as Hframe.
  { intros t' db0 H0 Hne l Hl. destruct (Hother t' db0 l H0 Hne Hl) as (? & ? & _). by apply Hheap. }
  split.
  - split.
    + split.
      * intros t' db0. rewrite Hdbs. case_bool_decide as E; [intros [= <-]; rewrite Hname, E; by apply Hn|apply Hn].
      * intros t' db0. rewrite Hdbs. case_bool_decide as E; [by intros [= <-]|]. intros H0. cbn.
        eapply rows_ok_frame; [|by eapply Hr]. by eapply Hframe.
      * intros t1 t2 db1 db2 l. rewrite !Hdbs. do 2 case_bool_decide; intros E1 E2 Hne Hl; simplify_eq.
        -- intros Hl2. by destruct (Hother t2 db2 l E2 ltac:(done) Hl2) as (_ & _ & ?).
        -- by destruct (Hother t1 db1 l E1 ltac:(done) Hl) as (_ & _ & ?).
        -- by eapply (Ha t1 t2).
    + intros l [Hl Hd]. assert (heap' !! l = w_heap w !! l) as E by (apply Hheap; eauto). split; [done|].
      split; [cbn; by rewrite E|]. intros t' db0. rewrite Hdbs. case_bool_decide; [|apply Hd]. intros [= <-] [Hl'|Hl']%Hown.
      * by eapply Hd. * destruct Hl. congruence.
  - intros k Hne. unfold cell_row. rewrite Hdbs, bool_decide_false by done. destruct (w_dbs w !! key_typ k) as [db0|] eqn:E0; [|done]. cbn.
    destruct (resource db0 (key_id k)) as [slot|] eqn:Es; [|done]. cbn. do 2 f_equal. unfold deref.
    rewrite (Hframe _ _ E0 Hne); [done|]. eapply resource_owned; eauto.
Qed.

Lemma on_table_Ok t f w db : w_dbs w !! t = Some db ->
  on_table t f w = (with_table (with_heap w (f (w_heap w) db).1) t (f (w_heap w) db).2, Ok tt).
Proof. intros E. unfold on_table. by rewrite E. Qed.

Lemma keeps_with_table w heap' t db db' : w_dbs w !! t = Some db -> secondary db' = secondary db -> keeps_indexes w (with_table (with_heap w heap') t db').
Proof.
  intros E Es t'. cbn. destruct (decide (t' = t)) as [->|]; [|by rewrite lookup_insert_ne]. rewrite lookup_insert_eq, E. cbn. by rewrite Es.
Qed.

Lemma cell_row_table w heap' t db' k : key_typ k = t ->
  cell_row (with_table (with_heap w heap') t db') k = slot ← resource db' (key_id k); Some (item slot, deref heap' (item slot), version slot).
Proof. intros <-. unfold cell_row. cbn. by rewrite lookup_insert_eq. Qed.

(** Writing one row. *)
Lemma apply_write_step w r c v n : stores_ok w -> cell_row w (resource_node r) = Some (c, v, n) -> GetId (deref (w_heap w) (t_work r)) = t_id r ->
  exists w', apply_write r w = (w', Ok tt) /\ step_ok w w' /\ keeps_indexes w w' /\
    forall k, cell_row w' k = if bool_decide (resource_node r = k) then Some (c, deref (w_heap w) (t_work r), (n + 1)%Z) else cell_row w k.
Proof.
  intros Hw E Hid. pose proof E as E0. unfold cell_row in E0. cbn in E0. destruct (w_dbs w !! dbName r) as [db|] eqn:Edb; [|done]. cbn in E0.
  destruct (resource db (t_id r)) as [slot|] eqn:Es; [|done]. cbn in E0. injection E0 as <- <- <-.
  pose proof (so_rows _ _ Hw _ _ Edb) as Hdb.
  destruct (applyWrite_ok GetId (w_heap w) db (t_id r) (t_work r) slot Hdb Es Hid) as (db' & Ea & Hdb' & H1 & H2 & H3 & H4 & H5 & H6).
  unfold apply_write. rewrite (on_table_Ok _ _ _ _ Edb), Ea. eexists. split; [reflexivity|]. cbn [fst snd].
  destruct (on_table_step w (dbName r) db (<[item slot := deref (w_heap w) (t_work r)]> (w_heap w)) db' Hw Edb H4 Hdb') as [Hstep Hother].
  { intros l _ Hl. apply lookup_insert_ne. intros <-. apply Hl. eapply resource_owned; eauto. }
  { rewrite H6. auto. }
  split_and!; [done|by eapply keeps_with_table|].
  intros k. case_bool_decide as Hk.
  - subst k. rewrite cell_row_table by done. cbn. rewrite H1. cbn. unfold deref at 1. by rewrite lookup_insert_eq.
  - destruct (decide (key_typ k = dbName r)) as [Ht|Ht]; [|by apply Hother].
    rewrite cell_row_table by done. assert (key_id k <> t_id r) as Hne.
    { intros Hi. apply Hk. destruct k. unfold resource_node. cbn in *. congruence. }
    rewrite H2 by done. unfold cell_row. rewrite Ht, Edb. cbn. destruct (resource db (key_id k)) as [slot'|] eqn:Es'; [|done]. cbn.
    do 2 f_equal. unfold deref. rewrite lookup_insert_ne; [done|]. intros Ei. apply Hne. symmetry. by eapply (resource_inj GetId (w_heap w) db).
Qed.

(** Adding one row. *)
Lemma apply_create_step w k l db : stores_ok w -> w_dbs w !! key_typ k = Some db -> cell_row w k = None ->
  GetId (deref (w_heap w) l) = key_id k -> (0 < key_id k)%Z ->
  exists w' c, apply_create GetId (k, l) w = (w', Ok tt) /\ step_ok w w' /\ keeps_indexes w w' /\
    forall k', cell_row w' k' = if bool_decide (k = k') then Some (c, deref (w_heap w) l, 0%Z) else cell_row w k'.
Proof.
  intros Hw Edb E Hid Hpos. pose proof (so_rows _ _ Hw _ _ Edb) as Hdb.
  assert (resource db (GetId (deref (w_heap w) l)) = None) as Es.
  { unfold cell_row in E. rewrite Edb in E. cbn in E. rewrite Hid. by destruct (resource db (key_id k)). }
  destruct (add_ok GetId (w_heap w) db l Hdb Es ltac:(lia)) as (c & db' & ci & Ea & Hc & Hdb' & H1 & H2 & H3 & H4 & H5 & H6).
  unfold apply_create, relationApplyCreate. cbn [fst snd]. rewrite (on_table_Ok _ _ _ _ Edb), Ea. eexists _, c. split; [reflexivity|]. cbn [fst snd].
  destruct (on_table_step w (key_typ k) db (<[c := deref (w_heap w) l]> (w_heap w)) db' Hw Edb H4 Hdb') as [Hstep Hother].
  { intros l' [v Hv] _. apply lookup_insert_ne. congruence. }
  { intros l'. rewrite H6. intros [?|Hl%list_elem_of_singleton]%elem_of_app; [by left|right]. by subst. }
  split_and!; [done|by eapply keeps_with_table|].
  intros k'. case_bool_decide as Hk.
  - subst k'. rewrite cell_row_table, <- Hid, H1 by done. cbn. unfold deref at 1. by rewrite lookup_insert_eq.
  - destruct (decide (key_typ k' = key_typ k)) as [Ht|Ht]; [|by apply Hother].
    rewrite cell_row_table, H2 by (try done; rewrite Hid; intros Hi; apply Hk; destruct k, k'; cbn in *; congruence).
    unfold cell_row. rewrite Ht, Edb. cbn. destruct (resource db (key_id k')) as [slot'|] eqn:Es'; [|done]. cbn.
    do 2 f_equal. unfold deref. rewrite lookup_insert_ne; [done|]. intros Ei.
    destruct (owned_alloc GetId (w_heap w) db (item slot') Hdb) as [v Hv]; [eapply resource_owned; eauto|congruence].
Qed.

(** The rows a commit writes. *)
Lemma writes_loop rs w : stores_ok w -> NoDup (resource_node <$> rs) ->
  (forall r, r ∈ rs -> detached w (t_work r) /\ is_Some (cell_row w (resource_node r)) /\ GetId (deref (w_heap w) (t_work r)) = t_id r) ->
  exists w', each apply_write rs w = (w', Ok tt) /\ step_ok w w' /\ keeps_indexes w w' /\
    forall k, cell_row w' k = match find_key rs k with
      | Some r => (fun c => (c.1.1, deref (w_heap w) (t_work r), (c.2 + 1)%Z)) <$> cell_row w k
      | None => cell_row w k
      end.
Proof.
  revert w. induction rs as [|r rs IH]; intros w Hw Hnd Hrs.
  { exists w. split_and!; [done|by apply step_refl|done|done]. }
  cbn in Hnd. apply NoDup_cons in Hnd as [Hr Hnd].
  destruct (Hrs r ltac:(left)) as (Hd & [[[c v] n] E] & Hid).
  destruct (apply_write_step w r c v n Hw E Hid) as (w1 & E1 & Hs1 & Hk1 & Hc1).
  destruct (IH w1) as (w2 & E2 & Hs2 & Hk2 & Hc2); [apply Hs1|done| |].
  { intros r' Hr'. destruct (Hrs r' ltac:(by right)) as (Hd' & He' & Hid').
    split; [by apply Hs1|]. rewrite (step_deref _ _ _ Hs1 Hd'). split; [|done]. rewrite Hc1, bool_decide_false; [done|].
    intros Heq. apply Hr. rewrite Heq. by apply list_elem_of_fmap_2. }
  exists w2. cbn [each]. rewrite (bind_Ok _ _ _ _ _ E1). split_and!; [done|by eapply step_trans|by eapply keeps_trans|].
  intros k. rewrite Hc2. cbn. fold (find_key rs k). case_bool_decide as Hk.
  - assert (find_key rs k = None) as ->.
    { destruct (find_key rs k) as [r'|] eqn:Ef; [|done]. apply List.find_some in Ef as [Hin Ek%bool_decide_eq_true].
      exfalso. apply Hr. rewrite Hk, <- Ek. by apply list_elem_of_fmap_2, list_elem_of_In. }
    rewrite Hc1, bool_decide_true by done. subst k. by rewrite E.
  - rewrite Hc1, bool_decide_false by done. destruct (find_key rs k) as [r'|] eqn:Ef; [|done].
    apply List.find_some in Ef as [Hin _]. destruct (Hrs r') as (Hd' & _); [right; by apply list_elem_of_In|].
    by rewrite (step_deref _ _ _ Hs1 Hd').
Qed.

(** The rows it creates. *)
Lemma creates_loop cs w : stores_ok w -> NoDup cs.*1 ->
  (forall k l, (k, l) ∈ cs -> detached w l /\ is_Some (w_dbs w !! key_typ k) /\ cell_row w k = None /\
    GetId (deref (w_heap w) l) = key_id k /\ (0 < key_id k)%Z) ->
  exists w', apply_creates GetId plan_values cs w = (w', Ok plan_values) /\ step_ok w w' /\ keeps_indexes w w' /\
    (forall k, k ∉ cs.*1 -> cell_row w' k = cell_row w k) /\
    forall k l, (k, l) ∈ cs -> exists c, cell_row w' k = Some (c, deref (w_heap w) l, 0%Z).
Proof.
  revert w. induction cs as [|[k l] cs IH]; intros w Hw Hnd Hcs.
  { exists w. split_and!; [done|by apply step_refl|done|done|by intros k l ?%elem_of_nil]. }
  cbn in Hnd. apply NoDup_cons in Hnd as [Hk Hnd].
  destruct (Hcs k l ltac:(left)) as (Hd & [db Edb] & En & Hid & Hpos).
  destruct (apply_create_step w k l db Hw Edb En Hid Hpos) as (w1 & c & E1 & Hs1 & Hk1 & Hc1).
  destruct (IH w1) as (w2 & E2 & Hs2 & Hk2 & Ho2 & Hn2); [apply Hs1|done| |].
  { intros k' l' Hin. destruct (Hcs k' l' ltac:(by right)) as (Hd' & Ho' & En' & Hid' & Hpos').
    assert (k <> k') as Hne by (intros ->; apply Hk; by eapply (list_elem_of_fmap_2 fst) in Hin).
    rewrite (step_deref _ _ _ Hs1 Hd'), Hc1, bool_decide_false by done. split_and!; [by apply Hs1| |done..].
    destruct Ho' as [db' Eo]. specialize (Hk1 (key_typ k')). rewrite Eo in Hk1. by destruct (w_dbs w1 !! key_typ k'). }
  exists w2. cbn [apply_creates]. rewrite (bind_Ok _ _ _ _ _ E1). split_and!; [done|by eapply step_trans|by eapply keeps_trans| |].
  - intros k' Hk'. cbn in Hk'. rewrite not_elem_of_cons in Hk'. destruct Hk' as [Hne Hk'].
    rewrite Ho2, Hc1 by done. by rewrite bool_decide_false by congruence.
  - intros k' l' [[= -> ->]|Hin]%elem_of_cons.
    + exists c. rewrite Ho2, Hc1 by done. by rewrite bool_decide_true.
    + destruct (Hn2 k' l' Hin) as [c' E']. exists c'. rewrite E'. destruct (Hcs k' l' ltac:(by right)) as (Hd' & _).
      by rewrite (step_deref _ _ _ Hs1 Hd').
Qed.
End steps.

(** ** Steps table by table *)

Lemma find_map_range `{MapOrder K} {V} (m : gmap K V) k :
  List.find (fun p => bool_decide (p.1 = k)) (map_range m) = pair k <$> m !! k.
Proof.
  destruct (List.find _ _) as [[k' v]|] eqn:E.
  - apply List.find_some in E as [Hin Hk%bool_decide_eq_true]. cbn in Hk. subst k'.
    apply list_elem_of_In, map_range_elem in Hin. by rewrite Hin.
  - destruct (m !! k) as [v|] eqn:Ek; [|done]. apply map_range_elem, list_elem_of_In in Ek.
    pose proof (List.find_none _ _ E _ Ek) as Hk. cbn in Hk. by rewrite bool_decide_true in Hk.
Qed.

Lemma find_string (l : list string) t : List.find (fun a => bool_decide (a = t)) l = if bool_decide (t ∈ l) then Some t else None.
Proof.
  destruct (List.find _ _) as [a|] eqn:E.
  - apply List.find_some in E as [Hin ->%bool_decide_eq_true]. by rewrite bool_decide_true by (by apply list_elem_of_In).
  - case_bool_decide as Hin; [|done]. apply list_elem_of_In in Hin. pose proof (List.find_none _ _ E _ Hin) as Hk.
    cbn in Hk. by rewrite bool_decide_true in Hk.
Qed.

Lemma each_tables {A} (kf : A -> string) (g : A -> gmap loc goval -> DB -> DB) l w :
  NoDup (kf <$> l) -> (forall a, a ∈ l -> is_Some (w_dbs w !! kf a)) ->
  exists w', each (fun a => on_table (kf a) (fun heap db => (heap, g a heap db))) l w = (w', Ok tt) /\ w_heap w' = w_heap w /\
    forall t, w_dbs w' !! t = match List.find (fun a => bool_decide (kf a = t)) l with
      | Some a => g a (w_heap w) <$> w_dbs w !! t
      | None => w_dbs w !! t
      end.
Proof.
  revert w. induction l as [|a l IH]; intros w Hnd Hl; [by exists w|].
  cbn in Hnd. apply NoDup_cons in Hnd as [Ha Hnd]. destruct (Hl a ltac:(left)) as [db Edb].
  pose proof (on_table_Ok (kf a) (fun heap db => (heap, g a heap db)) w db Edb) as E1. cbn [fst snd] in E1.
  set (w1 := with_table (with_heap w (w_heap w)) (kf a) (g a (w_heap w) db)) in *.
  assert (forall t, t <> kf a -> w_dbs w1 !! t = w_dbs w !! t) as Hother by (intros t Ht; by apply lookup_insert_ne).
  assert (forall b, b ∈ l -> kf b <> kf a) as Hne by (intros b Hb Hk; apply Ha; rewrite <- Hk; by apply list_elem_of_fmap_2).
  destruct (IH w1 Hnd) as (w2 & E2 & Hh & Hd). { intros b Hb. rewrite Hother by auto. apply Hl. by right. }
  exists w2. cbn [each]. rewrite (bind_Ok _ _ _ _ _ E1). split_and!; [done|done|].
  intros t. rewrite Hd. cbn [List.find]. case_bool_decide as Ht.
  - subst t. destruct (List.find _ l) as [b|] eqn:Ef.
    { apply List.find_some in Ef as [Hin Hk%bool_decide_eq_true]. apply list_elem_of_In in Hin. by destruct (Hne b Hin). }
    rewrite Edb. apply lookup_insert_eq.
  - rewrite Hother by done. done.
Qed.

(** ** Operations that leave the tables alone *)

Definition bare (db : DB) : DB := with_wal db (openWAL "").
(** Same rows, ids and indexes; logs may differ. *)
Definition same_tables (w w' : world) : Prop :=
  (forall t, bare <$> w_dbs w' !! t = bare <$> w_dbs w !! t) /\
  forall t db l, w_dbs w !! t = Some db -> l ∈ owned db -> w_heap w' !! l = w_heap w !! l.

Lemma bare_eq db db' : bare db' = bare db -> Table.name db' = Table.name db /\ store db' = store db /\ resById db' = resById db /\ secondary db' = secondary db.
Proof. intros E. split_and!; [apply (f_equal Table.name E)|apply (f_equal store E)|apply (f_equal resById E)|apply (f_equal secondary E)]. Qed.

Lemma same_tables_refl w : same_tables w w.
Proof. by split. Qed.
Lemma same_lookup w w' t db' : same_tables w w' -> w_dbs w' !! t = Some db' -> exists db, w_dbs w !! t = Some db /\
  Table.name db' = Table.name db /\ store db' = store db /\ resById db' = resById db /\ secondary db' = secondary db.
Proof.
  intros [H _] E. specialize (H t). rewrite E in H. destruct (w_dbs w !! t) as [db|]; [|done].
  exists db. split; [done|]. apply bare_eq. by apply (inj Some).
Qed.
Lemma same_tables_sym_lookup w w' t db : same_tables w w' -> w_dbs w !! t = Some db -> exists db', w_dbs w' !! t = Some db' /\
  Table.name db' = Table.name db /\ store db' = store db /\ resById db' = resById db /\ secondary db' = secondary db.
Proof.
  intros [H _] E. specialize (H t). rewrite E in H. destruct (w_dbs w' !! t) as [db'|]; [|done].
  exists db'. split; [done|]. apply bare_eq. by apply (inj Some).
Qed.
Lemma owned_store db db' : store db' = store db -> owned db' = owned db.
Proof. unfold owned. by intros ->. Qed.
Lemma same_tables_trans w1 w2 w3 : same_tables w1 w2 -> same_tables w2 w3 -> same_tables w1 w3.
Proof.
  intros H1 H2. split; [intros t; by rewrite (proj1 H2), (proj1 H1)|].
  intros t db l E Hl. destruct (same_tables_sym_lookup _ _ _ _ H1 E) as (db2 & E2 & _ & Es & _).
  rewrite (proj2 H2 t db2 l E2), (proj2 H1 t db l E Hl); [done|]. by rewrite (owned_store _ _ Es).
Qed.

(** The part that concerns the rows. *)
Record same_rows (w w' : world) : Prop := {
  sr_back : forall t db', w_dbs w' !! t = Some db' -> exists db, w_dbs w !! t = Some db /\
    Table.name db' = Table.name db /\ store db' = store db /\ resById db' = resById db;
  sr_tables : forall t, is_Some (w_dbs w !! t) -> is_Some (w_dbs w' !! t);
  sr_heap : forall t db l, w_dbs w !! t = Some db -> l ∈ owned db -> w_heap w' !! l = w_heap w !! l;
}.
Lemma same_tables_rows w w' : same_tables w w' -> same_rows w w'.
Proof.
  intros Hs. split; [|intros t [db E]; destruct (same_tables_sym_lookup _ _ _ _ Hs E) as (db' & ? & _); by exists db'|apply Hs].
  intros t db' E. destruct (same_lookup _ _ _ _ Hs E) as (db & ? & ? & ? & ? & _). by exists db.
Qed.

Section same.
Context (GetId : goval -> Z).
Notation stores_ok := (stores_ok GetId).

Lemma rows_ok_store heap db db' : store db' = store db -> resById db' = resById db -> rows_ok GetId heap db -> rows_ok GetId heap db'.
Proof. intros E1 E2 [A B C]. split; rewrite ?E1, ?E2; done. Qed.

Lemma same_cell_row w w' k : stores_ok w -> same_rows w w' -> cell_row w' k = cell_row w k.
Proof.
  intros Hw Hs. unfold cell_row. destruct (w_dbs w' !! key_typ k) as [db'|] eqn:E'.
  - destruct (sr_back _ _ Hs _ _ E') as (db & E & _ & E1 & E2). rewrite E. cbn.
    assert (resource db' (key_id k) = resource db (key_id k)) as -> by (unfold resource; by rewrite E1, E2).
    destruct (resource db (key_id k)) as [slot|] eqn:Es; [|done]. cbn. unfold deref. rewrite (sr_heap _ _ Hs _ _ _ E); [done|].
    eapply resource_owned; [by eapply so_rows|exact Es].
  - destruct (w_dbs w !! key_typ k) as [db|] eqn:E; [|done].
    destruct (sr_tables _ _ Hs (key_typ k)) as [? ?]; [by exists db|congruence].
Qed.

Lemma same_stores w w' : same_rows w w' -> stores_ok w -> stores_ok w'.
Proof.
  intros Hs Hw. split.
  - intros t db' E. destruct (sr_back _ _ Hs _ _ E) as (db & E0 & -> & _). by eapply so_name.
  - intros t db' E. destruct (sr_back _ _ Hs _ _ E) as (db & E0 & _ & E1 & E2).
    eapply rows_ok_store; [done..|]. eapply rows_ok_frame; [|by eapply so_rows]. intros l Hl. by eapply (sr_heap _ _ Hs).
  - intros t t' db db' l E E' Hne Hl Hl'. destruct (sr_back _ _ Hs _ _ E) as (db0 & E0 & _ & E1 & _), (sr_back _ _ Hs _ _ E') as (db1 & E1' & _ & E2 & _).
    rewrite (owned_store _ _ E1) in Hl. rewrite (owned_store _ _ E2) in Hl'. by eapply (so_apart _ _ Hw t t').
Qed.

Lemma same_detached w w' l : same_rows w w' -> w_heap w' = w_heap w -> detached w l -> detached w' l.
Proof.
  intros Hs Hh [H1 H2]. split; [by rewrite Hh|]. intros t db' E. destruct (sr_back _ _ Hs _ _ E) as (db & E0 & _ & E1 & _).
  rewrite (owned_store _ _ E1). by eapply H2.
Qed.

Lemma table_ok_frame heap heap' res sec : (forall id l, res !! id = Some l -> deref heap' l = deref heap l) ->
  IndexCommit.table_ok GetId heap res sec -> IndexCommit.table_ok GetId heap' res sec.
Proof.
  intros H [A B C D].
  assert (forall l, l ∈ residents res -> deref heap' l = deref heap l) as Hd.
  { intros l (id & Hl)%elem_of_residents. by eapply H. }
  split; [|done| |].
  - intros id l Hl. rewrite Hd by (apply elem_of_residents; eauto). by apply A.
  - intros name x Hx. specialize (C name x Hx). cbn in C. rewrite Forall_forall in *. intros l Hl. rewrite Hd by done. auto.
  - intros name x Hx. eapply index_ok_heap; [exact Hd|]. by apply (D name).
Qed.

Lemma rowCells_store db db' : store db' = store db -> resById db' = resById db -> rowCells db' = rowCells db.
Proof. unfold rowCells. by intros -> ->. Qed.

Lemma same_tables_ok w w' : same_tables w w' -> tables_ok GetId w -> tables_ok GetId w'.
Proof.
  intros Hs [Hw Hi]. split; [by eapply same_stores; [apply same_tables_rows|]|]. intros t db' E.
  destruct (same_lookup _ _ _ _ Hs E) as (db & E0 & _ & E1 & E2 & E3). rewrite E3, (rowCells_store _ _ E1 E2).
  eapply table_ok_frame; [|by apply (Hi t)]. intros id l Hl. unfold deref. f_equal. rewrite rowCells_resource in Hl.
  apply fmap_Some in Hl as (slot & Hr & ->). eapply (proj2 Hs); [exact E0|]. eapply resource_owned; [by eapply so_rows|exact Hr].
Qed.
End same.

(** ** Refreshing copies *)

Lemma fold_outcome_frame {A} (f : gmap loc goval -> A -> outcome (gmap loc goval)) (P : loc -> Prop) l heap heap' :
  (forall heap a heap', a ∈ l -> f heap a = Ok heap' -> forall x, P x -> heap' !! x = heap !! x) ->
  fold_outcome f heap l = Ok heap' -> forall x, P x -> heap' !! x = heap !! x.
Proof.
  revert heap. induction l as [|a l IH]; intros heap Hf; cbn [fold_outcome]; [by intros [= <-]|].
  destruct (f heap a) as [h1| |] eqn:E; cbn; [|done..]. intros E2 x Hx.
  transitivity (h1 !! x).
  - apply (IH h1); [|done|done]. intros h b h' Hb Eb. eapply Hf; [by right|exact Eb].
  - eapply Hf; [left|exact E|done].
Qed.

Lemma set_node_field_frame heap l i v x : x <> l -> set_node_field heap l i v !! x = heap !! x.
Proof. intros Hne. unfold set_node_field. destruct (heap !! l); [|done]. by apply lookup_insert_ne. Qed.

Lemma redirect_frame f heap l r heap' : redirect f heap l r = Ok heap' -> forall x, x <> l -> heap' !! x = heap !! x.
Proof.
  unfold redirect. destruct (node_field heap l (fieldIndex r)) as [v|]; [|done]. destruct (negb (many r)); intros [= <-] x Hx.
  - by apply set_node_field_frame.
  - generalize (seq 0 (length (slice_elems v))). intros js. revert heap. induction js as [|j js IH]; intros heap; [done|]. cbn.
    rewrite IH. destruct (slice_elems _ !! j); [|done]. by apply set_node_field_frame.
Qed.

Lemma refreshSnapshot_frame heap db id l x : x <> l -> refreshSnapshot heap db id l !! x = heap !! x.
Proof. intros Hne. unfold refreshSnapshot. destruct (resource db id); [|done]. by apply lookup_insert_ne. Qed.

Section refresh.
Context (types : typeEnv) (GetId : goval -> Z) `{!MapOrder nodeKey} `{!MapOrder string}.

Lemma rewireAggregateCopies_frame m copies heap heap' : rewireAggregateCopies types GetId m copies heap = Ok heap' ->
  forall x, (forall k l, copies !! k = Some l -> x <> l) -> heap' !! x = heap !! x.
Proof.
  intros E. eapply fold_outcome_frame; [|exact E]. intros h ref h' _ Er x Hx. unfold rewire_copy in Er.
  destruct (copies !! r_holder ref) as [holder|] eqn:Eh; [|by injection Er as <-].
  destruct (copies !! r_target ref) as [tgt|]; [|by injection Er as <-]. destruct (_ && _) in Er; [done|]. eapply redirect_frame; [exact Er|]. by eapply Hx.
Qed.

Lemma refresh_copies dbs rs : forall st st', fold_outcome (refresh_resource dbs) st rs = Ok st' ->
  (forall x, (forall r, r ∈ rs -> x <> t_work r /\ x <> original r) -> st'.1 !! x = st.1 !! x) /\
  exists rs', st'.2 = st.2 ++ rs' /\ Forall2 (fun r r' => t_work r' = t_work r) rs rs'.
Proof.
  induction rs as [|r rs IH]; intros st st'; cbn [fold_outcome].
  { intros [= <-]. split; [done|]. exists []. split; [by rewrite app_nil_r|constructor]. }
  destruct (refresh_resource dbs st r) as [st1| |] eqn:E; cbn; [|done..]. intros E2.
  destruct (IH _ _ E2) as [Hh (rs' & Hrs & Hf)]. unfold refresh_resource in E. destruct (committerFor dbs (dbName r)) as [db| |]; cbn in E; [|done..].
  destruct (resourceVersion db (t_id r)) as [v|]; injection E as <-; cbn in *.
  - split.
    + intros x Hx. rewrite Hh by (intros r' Hr'; apply Hx; by right). destruct (Hx r ltac:(left)). by rewrite !refreshSnapshot_frame.
    + eexists (_ :: rs'). rewrite Hrs, <- app_assoc. split; [reflexivity|]. by constructor.
  - split.
    + intros x Hx. apply Hh. intros r' Hr'. apply Hx. by right.
    + exists (r :: rs'). rewrite Hrs, <- app_assoc. split; [done|]. by constructor.
Qed.

Lemma copies_values (f : touchedResource -> bool) rs (m : gmap nodeKey loc) k l :
  foldl (fun m res => <[{| key_typ := dbName res; key_id := t_id res |} := t_work res]> m) m (List.filter f rs) !! k = Some l ->
  m !! k = Some l \/ l ∈ t_work <$> rs.
Proof.
  revert m. induction rs as [|r rs IH]; intros m; cbn; [auto|]. destruct (f r); cbn.
  - intros [H|H]%IH; [|right; by right]. apply lookup_insert_Some in H as [[_ <-]|[_ H]]; [right; by left|by left].
  - intros [H|H]%IH; [by left|right; by right].
Qed.

Lemma refresh_frame heap closed dbs tx heap' tx' : refresh types GetId heap closed dbs tx = Ok (heap', tx') ->
  forall x, (forall r, r ∈ copyResources tx -> x <> t_work r /\ x <> original r) -> heap' !! x = heap !! x.
Proof.
  unfold refresh. destruct (fold_outcome (refresh_resource dbs) (heap, []) (copyResources tx)) as [st| |] eqn:E; cbn; [|done..].
  destruct (refresh_copies _ _ _ _ E) as [Hh (rs' & Hrs & Hf)]. cbn in *.
  destruct (rewireTouchedCopies _ _ _ _ _ _) as [h2| |] eqn:E2; cbn; [|done..]. intros [= <- _] x Hx.
  rewrite <- Hh by done. unfold rewireTouchedCopies in E2.
  destruct (collectRelationNodes _ _ _ _ _) as [ns| |]; [|by injection E2 as <-|done].
  destruct (buildRelationModel _ _ _) as [m| |]; [|by injection E2 as <-|done].
  eapply rewireAggregateCopies_frame; [exact E2|]. intros k l Hl.
  apply copies_values in Hl as [Hl|Hl]; [by rewrite lookup_empty in Hl|]. rewrite Hrs in Hl.
  apply list_elem_of_fmap in Hl as (r' & -> & Hr'). apply list_elem_of_lookup in Hr' as [i Hr'].
  destruct (Forall2_lookup_r _ _ _ _ _ Hf Hr') as (r & Hr & ->). apply Hx. by eapply list_elem_of_lookup_2.
Qed.
End refresh.

(** ** Quiet steps: what fails changes no table and no file, what succeeds changes nothing *)

(** The files and the logs that write them. *)
Definition logs (w : world) : disk * gmap string wal * transactionWAL := (w_files w, db_wal <$> w_dbs w, w_shared w).
Definition unchanged (w w' : world) : Prop := same_tables w w' /\ logs w' = logs w.
Lemma unchanged_refl w : unchanged w w.
Proof. split; [apply same_tables_refl|done]. Qed.

Definition quiet {A} (P : A -> Prop) (m : st A) (w : world) : Prop :=
  match m w with (w', Ok a) => w' = w /\ P a | (w', _) => unchanged w w' end.
(** A step that fails without changing a table, or ends in [Q]. *)
Definition atomic (Q : world -> Prop) (m : st unit) (w : world) : Prop :=
  match m w with (w', Ok _) => Q w' | (w', _) => same_tables w w' end.

Lemma quiet_lift {A} (f : world -> outcome A) w : quiet (fun a => f w = Ok a) (lift f) w.
Proof. unfold quiet, lift. destruct (f w); [done|apply unchanged_refl..]. Qed.
Lemma quiet_gets {A} (f : world -> A) w : quiet (fun a => a = f w) (gets f) w.
Proof. done. Qed.
Lemma quiet_mono {A} (P P' : A -> Prop) m w : (forall a, P a -> P' a) -> quiet P m w -> quiet P' m w.
Proof. unfold quiet. intros H. destruct (m w) as [w' []]; [|done..]. intros [? ?]. auto. Qed.
Lemma quiet_bind {A B} (P : A -> Prop) (Q : B -> Prop) (m : st A) (f : A -> st B) w :
  quiet P m w -> (forall a, P a -> quiet Q (f a) w) -> quiet Q (a ← m; f a) w.
Proof.
  unfold quiet, mbind, st_bind. destruct (m w) as [w' [a| |]]; [|done..]. intros [-> Ha] H. by apply H.
Qed.
Lemma quiet_each {A} (P : A -> Prop) (f : A -> st unit) l w :
  (forall a, a ∈ l -> quiet (fun _ => P a) (f a) w) -> quiet (fun _ => forall a, a ∈ l -> P a) (each f l) w.
Proof.
  induction l as [|a l IH]; intros H.
  { split; [done|]. by intros a ?%elem_of_nil. }
  cbn [each]. eapply quiet_bind; [apply (H a); left|]. intros u Ha. cbn in Ha. eapply quiet_mono; [|apply IH; intros; apply H; by right].
  cbn. intros u2 Hl b [->|Hb]%elem_of_cons; auto.
Qed.
(** A statement on a run that starts with a quiet step. *)
Lemma run_quiet {A B} (P : world * outcome B -> Prop) (Q : A -> Prop) (m : st A) (f : A -> st B) w :
  quiet Q m w -> (forall w1 r, (forall b, r <> Ok b) -> unchanged w w1 -> P (w1, r)) -> (forall a, Q a -> P (f a w)) -> P ((a ← m; f a) w).
Proof.
  unfold quiet, mbind, st_bind. intros Hq Hf Hok. destruct (m w) as [w' [a|e|]]; [destruct Hq as [-> Ha]; by apply Hok|by apply Hf..].
Qed.
Lemma atomic_bind {A} (P : A -> Prop) (Q : world -> Prop) (m : st A) (f : A -> st unit) w :
  quiet P m w -> (forall a, P a -> atomic Q (f a) w) -> atomic Q (a ← m; f a) w.
Proof.
  unfold quiet, atomic, mbind, st_bind. destruct (m w) as [w' [a| |]]; [|by intros [? _]..]. intros [-> Ha] H. by apply H.
Qed.
Lemma atomic_same (R Q : world -> Prop) (m : st unit) (f : unit -> st unit) w :
  atomic (fun w' => same_tables w w' /\ R w') m w -> (forall w', same_tables w w' -> R w' -> atomic Q (f tt) w') -> atomic Q (a ← m; f a) w.
Proof.
  unfold atomic, mbind, st_bind. destruct (m w) as [w' [[]| |]]; [|done..]. intros [Hs Hr] H. specialize (H w' Hs Hr).
  destruct (f tt w') as [w'' []]; [done|by eapply same_tables_trans..].
Qed.
Lemma atomic_mono (Q Q' : world -> Prop) m w : (forall w', Q w' -> Q' w') -> atomic Q m w -> atomic Q' m w.
Proof. unfold atomic. destruct (m w) as [w' []]; auto. Qed.

(** ** The changes of a commit, table by table *)

(** All changes: a key with the cell to write, [None] for a delete. What is
    deleted is not written, and a delete of what is created is none. *)
Definition all_changes `{!MapOrder nodeKey} (rs : list touchedResource) (cs : gmap nodeKey loc) (ds : gset nodeKey) : list (nodeKey * option loc) :=
  ((fun r => (resource_node r, Some (t_work r))) <$> List.filter (fun r => negb (bool_decide (resource_node r ∈ ds))) rs) ++
  ((fun p => (p.1, Some p.2)) <$> List.filter (fun p => negb (bool_decide (p.1 ∈ ds))) (map_range cs)) ++
  ((fun k => (k, None)) <$> List.filter (fun k => negb (bool_decide (is_Some (cs !! k)))) (set_range ds)).
Definition table_changes (t : string) (l : list (nodeKey * option loc)) : list (Z * option loc) :=
  (fun p => (key_id p.1, p.2)) <$> List.filter (fun p => bool_decide (key_typ p.1 = t)) l.

Lemma table_changes_app t l1 l2 : table_changes t (l1 ++ l2) = table_changes t l1 ++ table_changes t l2.
Proof. unfold table_changes. by rewrite List.filter_app, fmap_app. Qed.

Lemma table_changes_elem t l id c : (id, c) ∈ table_changes t l <-> ({| key_typ := t; key_id := id |}, c) ∈ l.
Proof.
  unfold table_changes. rewrite list_elem_of_fmap. split.
  - intros ([[t' id'] c'] & [= -> ->] & Hin). apply list_elem_of_In, filter_In in Hin as [Hin Ht%bool_decide_eq_true].
    cbn in Ht. subst. by apply list_elem_of_In.
  - intros Hin. exists ({| key_typ := t; key_id := id |}, c). split; [done|].
    apply list_elem_of_In, filter_In. split; [by apply list_elem_of_In|]. by apply bool_decide_eq_true.
Qed.

Lemma table_changes_nodup t l : NoDup l.*1 -> NoDup (table_changes t l).*1.
Proof.
  induction l as [|[k c] l IH]; intros H; [constructor|]. cbn in H. apply NoDup_cons in H as [Hk H].
  unfold table_changes. cbn. case_bool_decide as Ht; [|by apply IH]. cbn. apply NoDup_cons. split; [|by apply IH].
  intros ([id c'] & E & Hin)%list_elem_of_fmap. cbn in E. apply Hk. apply table_changes_elem in Hin.
  apply (list_elem_of_fmap_2 fst) in Hin. cbn in Hin. subst t id. by destruct k.
Qed.

(** One of the loops of [transactionChanges]. *)
Lemma changes_loop {A} (skip : A -> bool) (key : A -> nodeKey) (c : A -> option loc) (l : list A) out t :
  let out' := foldl (fun out a => if skip a then out else add_change out (key_typ (key a)) (key_id (key a), c a)) out l in
  default [] (out' !! t) = default [] (out !! t) ++ table_changes t ((fun a => (key a, c a)) <$> List.filter (fun a => negb (skip a)) l) /\
  (is_Some (out' !! t) -> is_Some (out !! t) \/ exists a, a ∈ List.filter (fun a => negb (skip a)) l /\ key_typ (key a) = t).
Proof.
  revert out. induction l as [|a l IH]; intros out; cbn zeta.
  { unfold table_changes. cbn. split; [by rewrite app_nil_r|by left]. }
  cbn [foldl List.filter]. destruct (skip a); cbn [negb]; [apply IH|].
  destruct (IH (add_change out (key_typ (key a)) (key_id (key a), c a))) as [E1 E2].
  split.
  - rewrite E1. unfold table_changes, add_change. cbn. case_bool_decide as Ht.
    + subst t. rewrite lookup_insert_eq. cbn. by rewrite <- app_assoc.
    + by rewrite lookup_insert_ne.
  - intros [H|(b & Hb & Ht)]%E2; [|right; exists b; split; [by right|done]].
    destruct (decide (t = key_typ (key a))) as [->|Ht]; [right; exists a; split; [left|done]|].
    left. unfold add_change in H. by rewrite lookup_insert_ne in H.
Qed.

Section changes.
Context `{!MapOrder nodeKey, !MapOrder string}.
Implicit Types (rs : list touchedResource) (cs : gmap nodeKey loc) (ds : gset nodeKey).

Lemma transactionChanges_spec rs cs ds t :
  default [] (transactionChanges rs cs ds !! t) = table_changes t (all_changes rs cs ds) /\
  (is_Some (transactionChanges rs cs ds !! t) -> exists k, k ∈ (all_changes rs cs ds).*1 /\ key_typ k = t).
Proof.
  unfold transactionChanges.
  set (out1 := foldl _ ∅ rs). set (out2 := foldl _ out1 (map_range cs)).
  destruct (changes_loop (fun r => bool_decide (resource_node r ∈ ds)) resource_node (fun r => Some (t_work r)) rs ∅ t) as [A1 B1].
  destruct (changes_loop (fun p : nodeKey * loc => bool_decide (p.1 ∈ ds)) fst (fun p => Some p.2) (map_range cs) out1 t) as [A2 B2].
  destruct (changes_loop (fun k => bool_decide (is_Some (cs !! k))) (fun k => k) (fun _ => None) (set_range ds) out2 t) as [A3 B3].
  unfold all_changes. rewrite !table_changes_app. split.
  - etransitivity; [exact A3|]. rewrite app_assoc. f_equal. etransitivity; [exact A2|]. f_equal. exact A1.
  - rewrite !fmap_app, <- !list_fmap_compose. intros [[[H|(r & Hr & Ht)]%B1|(p & Hp & Ht)]%B2|(k & Hk & Ht)]%B3.
    + rewrite lookup_empty in H. by destruct H.
    + exists (resource_node r). split; [|done]. apply elem_of_app. left. apply list_elem_of_fmap. by exists r.
    + exists p.1. split; [|done]. apply elem_of_app. right. apply elem_of_app. left. apply list_elem_of_fmap. by exists p.
    + exists k. split; [|done]. apply elem_of_app. right. apply elem_of_app. right. apply list_elem_of_fmap. by exists k.
Qed.

Lemma kept_elem {A} (skip : A -> bool) l a : a ∈ List.filter (fun a => negb (skip a)) l <-> a ∈ l /\ skip a = false.
Proof. by rewrite !list_elem_of_In, filter_In, negb_true_iff. Qed.
Lemma kept_nodup {A B} (f : A -> B) (skip : A -> bool) l : NoDup (f <$> l) -> NoDup (f <$> List.filter (fun a => negb (skip a)) l).
Proof.
  intros H. eapply sublist_NoDup; [exact H|]. apply fmap_sublist. clear H. induction l as [|a l IH]; cbn; [done|]. destruct (skip a); cbn; by constructor.
Qed.

Lemma all_changes_write rs cs ds k l : (k, Some l) ∈ all_changes rs cs ds <->
  k ∉ ds /\ ((exists r, r ∈ rs /\ resource_node r = k /\ t_work r = l) \/ cs !! k = Some l).
Proof.
  unfold all_changes. rewrite !elem_of_app, !list_elem_of_fmap. split.
  - intros [(r & [= -> ->] & Hr)|[([k' l'] & [= -> ->] & Hp)|(k' & [=] & _)]].
    + apply kept_elem in Hr as [Hr Hd%bool_decide_eq_false]. split; [done|]. left. by exists r.
    + apply kept_elem in Hp as [Hp Hd%bool_decide_eq_false]. split; [done|]. right. by apply map_range_elem.
  - intros [Hd [(r & Hr & <- & <-)|Hk]].
    + left. exists r. split; [done|]. apply kept_elem. split; [done|by apply bool_decide_eq_false].
    + right. left. exists (k, l). split; [done|]. apply kept_elem. split; [by apply map_range_elem|by apply bool_decide_eq_false].
Qed.
Lemma all_changes_delete rs cs ds k : (k, None) ∈ all_changes rs cs ds <-> k ∈ ds /\ cs !! k = None.
Proof.
  unfold all_changes. rewrite !elem_of_app, !list_elem_of_fmap. split.
  - intros [(r & [=] & Hr)|[([k' l'] & [=] & Hp)|(k' & [= ->] & Hk)]]. apply kept_elem in Hk as [Hk Hc%bool_decide_eq_false].
    split; [by apply set_range_elem|]. by apply eq_None_not_Some.
  - intros [Hk Hc]. right. right. exists k. split; [done|]. apply kept_elem. split; [by apply set_range_elem|].
    apply bool_decide_eq_false. rewrite Hc. by intros [? ?].
Qed.

Lemma all_changes_nodup rs cs ds :
  NoDup (resource_node <$> rs) -> (forall r, r ∈ rs -> cs !! resource_node r = None) -> NoDup (all_changes rs cs ds).*1.
Proof.
  intros H0 H3. unfold all_changes. rewrite !fmap_app, <- !list_fmap_compose. apply NoDup_app. split_and!.
  - by apply kept_nodup.
  - intros k (r & -> & Hr)%list_elem_of_fmap. apply kept_elem in Hr as [Hr Hd%bool_decide_eq_false].
    intros [(p & Ep & Hp)%list_elem_of_fmap|(k' & Ek & Hk)%list_elem_of_fmap]%elem_of_app.
    + apply kept_elem in Hp as [Hp _]. destruct p as [k' l]. apply map_range_elem in Hp. cbn in Ep. rewrite <- Ep, H3 in Hp by done. done.
    + apply kept_elem in Hk as [Hk _]. apply set_range_elem in Hk. cbn in Ek. subst k'. done.
  - apply NoDup_app. split_and!.
    + apply (kept_nodup fst), map_range_nodup.
    + intros k ([k' l] & -> & Hp)%list_elem_of_fmap (k'' & Ek & Hk)%list_elem_of_fmap.
      apply kept_elem in Hp as [Hp _], Hk as [_ Hk%bool_decide_eq_false]. apply map_range_elem in Hp.
      cbn in Ek. subst k''. apply Hk. by exists l.
    + assert (forall l : list nodeKey, (fst ∘ (fun k : nodeKey => (k, @None loc))) <$> l = l) as ->
        by (intros l; etransitivity; [|apply list_fmap_id]; done).
      rewrite <- list_fmap_id. apply kept_nodup. rewrite list_fmap_id. apply set_range_nodup.
Qed.
End changes.

(** ** The indexes of one table over a commit *)

Section indexes.
Context (GetId : goval -> Z) `{!MapOrder string}.

(** What a commit leaves: every change is in the rows, and nothing else. *)
Record changes_applied (w0 w1 : world) (l : list (nodeKey * option loc)) : Prop := {
  ca_others : forall k, k ∉ l.*1 -> cell_row w1 k = cell_row w0 k;
  ca_writes : forall k c, (k, Some c) ∈ l -> exists l' n, cell_row w1 k = Some (l', deref (w_heap w0) c, n);
  ca_deletes : forall k, (k, None) ∈ l -> cell_row w1 k = None;
}.

Lemma cells_of w t db id : w_dbs w !! t = Some db -> rowCells db !! id = (fun c => c.1.1) <$> cell_row w {| key_typ := t; key_id := id |}.
Proof. intros E. rewrite rowCells_resource. unfold cell_row. cbn. rewrite E. cbn. by destruct (resource db id). Qed.
Lemma deref_of w k l v n : cell_row w k = Some (l, v, n) -> deref (w_heap w) l = v.
Proof.
  unfold cell_row. destruct (w_dbs w !! key_typ k) as [db|]; [|done]. cbn. destruct (resource db (key_id k)); [|done]. cbn. by intros [= <- <- _].
Qed.

Lemma writes_applied_table w0 w1 l t db0 db1 :
  changes_applied w0 w1 l -> NoDup l.*1 -> (forall k c, (k, Some c) ∈ l -> fits_table GetId w0 k (deref (w_heap w0) c)) ->
  w_dbs w0 !! t = Some db0 -> w_dbs w1 !! t = Some db1 ->
  writes_applied GetId (secondary db0) (pending_write (w_heap w0) <$> table_changes t l) (w_heap w0) (rowCells db0) (w_heap w1) (rowCells db1).
Proof.
  intros [Ho Hw Hd] Hnd Hfit E0 E1.
  assert (w_id <$> (pending_write (w_heap w0) <$> table_changes t l) = (table_changes t l).*1) as Hids.
  { rewrite <- list_fmap_compose. apply list_fmap_ext. intros i [id [c|]] _; done. }
  split.
  - rewrite Hids. by apply table_changes_nodup.
  - apply Forall_forall. intros it ([id [c|]] & -> & Hin)%list_elem_of_fmap; [|done]. intros _. cbn.
    apply table_changes_elem in Hin. destruct (Hfit _ _ Hin) as (H1 & H2 & H3). split_and!; [done|done|by apply H3].
  - intros id. rewrite Hids. intros Hid. rewrite (cells_of w1 t), (cells_of w0 t) by done.
    assert (cell_row w1 {| key_typ := t; key_id := id |} = cell_row w0 {| key_typ := t; key_id := id |}) as Hc.
    { apply Ho. intros ([k c] & Ek & Hin)%list_elem_of_fmap. cbn in Ek. subst k. apply Hid.
      apply (list_elem_of_fmap_2' fst _ (id, c)); [|done]. by apply table_changes_elem. }
    rewrite Hc. split; [done|]. intros a ([[a' v] n] & Ec & ->)%fmap_Some. cbn.
    rewrite (deref_of w0 _ _ _ _ Ec). rewrite Ec in Hc. by rewrite (deref_of w1 _ _ _ _ Hc).
  - apply Forall_forall. intros it ([id [c|]] & -> & Hin)%list_elem_of_fmap; cbn; apply table_changes_elem in Hin.
    + destruct (Hw _ _ Hin) as (a & n & Ec). exists a. rewrite (cells_of w1 t), Ec by done. split; [done|]. by eapply deref_of.
    + by rewrite (cells_of w1 t), Hd by done.
Qed.

Lemma deref_list {B} (f : goval -> B) heap0 heap1 (l : list loc) : (forall a, a ∈ l -> deref heap1 a = deref heap0 a) ->
  (fun a => f (deref heap1 a)) <$> l = (fun a => f (deref heap0 a)) <$> l.
Proof. intros H. apply list_fmap_ext. intros i a Ha. cbn. rewrite H; [done|]. by eapply list_elem_of_lookup_2. Qed.

(** A deleted row against the rows a commit leaves alone. *)
Lemma removed_absent sec items heap0 res0 heap1 res1 name x l id :
  IndexCommit.table_ok GetId heap0 res0 sec -> writes_applied GetId sec items heap0 res0 heap1 res1 ->
  sec !! name = Some x -> id ∈ w_id <$> items -> res0 !! id = Some l -> deref heap1 l = deref heap0 l ->
  live_ok GetId heap1 (spec x) (l :: residents (without items res0)) /\ unique_keys heap1 (spec x) (l :: residents (without items res0)).
Proof.
  intros Htab Hw Hx Hid Hl Hd. set (kept := residents (without items res0)).
  pose proof (residents_before GetId _ _ _ _ _ _ Hw) as Hp. fold kept in Hp.
  assert (l ∈ removed_items res0 items) as (rest & Hr)%elem_of_Permutation.
  { apply list_elem_of_omap. apply list_elem_of_fmap in Hid as (it & -> & Hin). by exists it. }
  assert (residents res0 ≡ₚ rest ++ l :: kept) as Hp2 by (rewrite Hp, Hr; apply Permutation_middle).
  assert (forall a, a ∈ l :: kept -> deref heap1 a = deref heap0 a) as Hsame.
  { intros a [->|Ha]%elem_of_cons; [done|]. by eapply kept_same. }
  pose proof (live_before GetId _ _ _ Htab name x Hx) as Hlive.
  destruct (indexes_ok _ _ _ _ Htab name x Hx) as [_ Hlk].
  split.
  - eapply live_ok_perm in Hlive; [|exact Hp2]. apply live_ok_app in Hlive as [_ [A B C]]. split.
    + rewrite Forall_forall in *. intros a Ha. rewrite Hsame by done. auto.
    + by rewrite (deref_list GetId heap0).
    + rewrite Forall_forall in *. intros a Ha. rewrite Hsame by done. auto.
  - intros Hu. pose proof (lookups_ok_unique _ _ _ _ Hlive (Hlk Hu)) as Hk.
    apply (unique_keys_perm _ _ _ _ Hp2), unique_keys_app in Hk. specialize (Hk Hu). by rewrite (deref_list (key_values (spec x)) heap0).
Qed.

(** What the second removal of deleted rows makes of prepared indexes. *)
Lemma deletes_keep_prepared sec items heap0 res0 heap1 res1 ls name y :
  IndexCommit.table_ok GetId heap0 res0 sec -> writes_applied GetId sec items heap0 res0 heap1 res1 ->
  (forall l, l ∈ ls -> exists id, id ∈ w_id <$> items /\ res0 !! id = Some l /\ deref heap1 l = deref heap0 l) ->
  foldl (fun sec l => removeSecondaryIndices GetId heap1 l sec) (prepareIndexes GetId heap0 res0 items sec) ls !! name = Some y ->
  exists x, sec !! name = Some x /\ spec y = spec x /\ index_ok GetId heap1 (residents (without items res0)) y.
Proof.
  intros Htab Hw Hls E.
  assert (foldl (fun sec l => removeSecondaryIndices GetId heap1 l sec) (prepareIndexes GetId heap0 res0 items sec) ls =
    foldl (fun sec l => remove_one GetId heap1 l <$> sec) (prepareIndexes GetId heap0 res0 items sec) ls) as Ef.
  { apply foldl_ext_fun. intros s l. unfold removeSecondaryIndices, removeSecondaryIndexLookups. by rewrite <- map_fmap_compose. }
  rewrite Ef, fold_locs, lookup_fmap in E. apply fmap_Some in E as (y0 & Ey0 & ->).
  destruct (prepare_kept GetId _ _ _ _ _ _ name y0 Htab Hw Ey0) as (x & Hx & Es & Hok). exists x. split; [done|].
  pose proof (indexes_shape _ _ _ _ Htab name x Hx) as Hshape. cbn in Hshape. clear Ef Ey0. revert y0 Es Hok.
  induction ls as [|l ls IH]; intros y0 Es Hok; [done|]. cbn.
  destruct (Hls l ltac:(left)) as (id & Hid & Hl & Hd). destruct (removed_absent _ _ _ _ _ _ _ _ _ _ Htab Hw Hx Hid Hl Hd) as [H1 H2].
  apply IH; [intros l' Hl'; apply Hls; by right|by rewrite spec_remove_one|].
  apply remove_absent_ok; by rewrite ?Es.
Qed.
End indexes.
