(* ===== verification/CommitEffect.v ===== *)
(** * Commits are all or nothing (src/engine.go, lines 286-518)

    The stages of a commit that leaves the relation graph alone, put together:
    it refines an atomic step on the rows, with a witness on a concrete state
    of the process; and a defect in how deletes treat unique lookups. *)
From S2P Require Import Prelude GoBytes GoReflect RelationSchema SchemaRows RelationModel CommittedGraph RelationDelta Transaction.
From S2P Require Import WalFrame RowCodec WalLog ChunkStore IndexSpecs SecondaryIndex IndexCommit Storage Table Wiring Aggregate GraphCommit World Commit Api CommitSteps.

(** ** The stages of a commit *)

Section stages.
Context (GetId : goval -> Z) `{!MapOrder string}.
Notation stores_ok := (stores_ok GetId).

Lemma sorted_tables {V} (m : gmap string V) :
  NoDup (SortFunc string_compare (map_range m).*1) /\ forall t, t ∈ SortFunc string_compare (map_range m).*1 <-> is_Some (m !! t).
Proof.
  rewrite SortFunc_perm. split; [apply map_range_nodup|]. intros t. rewrite SortFunc_perm, list_elem_of_fmap. split.
  - intros ([t' v] & -> & Hin). apply map_range_elem in Hin. by exists v.
  - intros [v E]. exists (t, v). split; [done|]. by apply map_range_elem.
Qed.

(** A step on the indexes of the tables that change. *)
Lemma index_stage (g : gmap loc goval -> gmap Z loc -> list pendingWrite -> gmap string secondaryIndex -> gmap string secondaryIndex)
    (cs : gmap string (list pendingWrite)) w :
  (forall heap res sec, g heap res [] sec = sec) -> (forall t, is_Some (cs !! t) -> is_Some (w_dbs w !! t)) ->
  exists w', each (fun p => on_table p.1 (fun heap db => (heap, with_secondary db (g heap (rowCells db) p.2 (secondary db))))) (map_range cs) w = (w', Ok tt) /\
    w_heap w' = w_heap w /\ forall t, w_dbs w' !! t = (fun db => with_secondary db (g (w_heap w) (rowCells db) (default [] (cs !! t)) (secondary db))) <$> w_dbs w !! t.
Proof.
  intros Hg Hcs.
  destruct (each_tables fst (fun p heap db => with_secondary db (g heap (rowCells db) p.2 (secondary db))) (map_range cs) w) as (w' & E & Hh & Hd).
  { apply map_range_nodup. }
  { intros [t items] Hin%map_range_elem. apply Hcs. by exists items. }
  exists w'. split_and!; [done|done|]. intros t. rewrite Hd, find_map_range. destruct (cs !! t) as [items|]; [done|].
  cbn. destruct (w_dbs w !! t) as [db|]; [|done]. cbn. rewrite Hg. by destruct db.
Qed.
Lemma secondary_same_rows w w' (f : string -> DB -> gmap string secondaryIndex) : w_heap w' = w_heap w ->
  (forall t, w_dbs w' !! t = (fun db => with_secondary db (f t db)) <$> w_dbs w !! t) -> same_rows w w'.
Proof.
  intros Hh Hd. split.
  - intros t db'. rewrite Hd. intros (db & E & ->)%fmap_Some. by exists db.
  - intros t [db E]. rewrite Hd, E. by eexists.
  - intros. by rewrite Hh.
Qed.

Lemma ids_of_type_elem t (ds : gset nodeKey) id : id ∈ ids_of_type t ds <-> {| key_typ := t; key_id := id |} ∈ ds.
Proof.
  unfold ids_of_type. rewrite elem_of_map. split.
  - intros (k & -> & Hk). apply elem_of_filter in Hk as [<- Hk]. by destruct k.
  - intros H. exists {| key_typ := t; key_id := id |}. split; [done|]. by apply elem_of_filter.
Qed.

(** The rows it deletes. *)
Lemma delete_stage ds w : stores_ok w ->
  exists w', applyDeletedNodes GetId ds w = (w', Ok tt) /\ w_heap w' = w_heap w /\ stores_ok w' /\
    (forall t, w_dbs w' !! t = (fun db => relationDelete GetId (w_heap w) db (ids_of_type t ds)) <$> w_dbs w !! t) /\
    forall k, cell_row w' k = if bool_decide (k ∈ ds) then None else cell_row w k.
Proof.
  intros Hw. unfold applyDeletedNodes. destruct (sorted_tables (w_dbs w)) as [Hnd Hin].
  set (l := SortFunc _ _) in *.
  destruct (each_tables (fun t => t) (fun t heap db => relationDelete GetId heap db (ids_of_type t ds)) l w) as (w' & E & Hh & Hd0).
  { by rewrite list_fmap_id. } { intros t. apply Hin. }
  assert (forall t, w_dbs w' !! t = (fun db => relationDelete GetId (w_heap w) db (ids_of_type t ds)) <$> w_dbs w !! t) as Hd.
  { intros t. rewrite Hd0, find_string. case_bool_decide as Ht; [done|]. destruct (w_dbs w !! t) eqn:Et; [|done].
    exfalso. apply Ht, Hin. by eexists. }
  clear Hd0. exists w'. split; [done|]. split; [done|].
  assert (forall t db', w_dbs w' !! t = Some db' -> exists db, w_dbs w !! t = Some db /\ rows_ok GetId (w_heap w) db' /\
    (forall id, resource db' id = if bool_decide (id ∈ ids_of_type t ds) then None else resource db id) /\
    Table.name db' = Table.name db /\ owned db' = owned db) as Hback.
  { intros t db'. rewrite Hd. intros (db & Edb & ->)%fmap_Some. exists db.
    destruct (relationDelete_ok GetId (w_heap w) db (ids_of_type t ds) (so_rows _ _ Hw _ _ Edb)) as (H1 & H2 & _ & H3 & _ & H4). done. }
  split; [split|split; [done|]].
  - intros t db' E'. destruct (Hback _ _ E') as (db & E0 & _ & _ & -> & _). by eapply so_name.
  - intros t db' E'. rewrite Hh. by destruct (Hback _ _ E') as (db & E0 & ? & _).
  - intros t t' db db' l0 E1 E2 Hne. destruct (Hback _ _ E1) as (db1 & ? & _ & _ & _ & ->), (Hback _ _ E2) as (db2 & ? & _ & _ & _ & ->).
    by eapply (so_apart _ _ Hw t t').
  - intros k. unfold cell_row. rewrite Hh. destruct (w_dbs w' !! key_typ k) as [db'|] eqn:E'.
    + destruct (Hback _ _ E') as (db & E0 & _ & Hr & _). rewrite E0. cbn. rewrite Hr.
      rewrite (bool_decide_ext _ _ (ids_of_type_elem _ _ _)). destruct k as [t id]. cbn. by case_bool_decide.
    + rewrite Hd in E'. destruct (w_dbs w !! key_typ k); [done|]. by case_bool_decide.
Qed.
End stages.

(** ** The checks of a commit *)

Section checks.
Context (types : typeEnv) (GetId : goval -> Z) (gob_encode : gotype -> goval -> outcome (list byte)).
Context `{!MapOrder nodeKey, !MapOrder string}.

Lemma refresh_tx_same h tx w : states (w_engine w) !! h = Some tx ->
  (forall r, r ∈ copyResources tx -> detached w (t_work r) /\ detached w (original r)) -> unchanged w (refresh_tx types GetId h w).1.
Proof.
  intros Eh Hd. unfold refresh_tx, world_step. rewrite Eh.
  destruct (refresh types GetId (w_heap w) (w_closed w) (w_dbs w) tx) as [[heap' tx']| |] eqn:E; cbn; [|apply unchanged_refl..].
  split; [|done]. split; [done|]. intros t db l Edb Hl. cbn. eapply refresh_frame; [exact E|]. intros r Hr.
  destruct (Hd r Hr) as [[_ H1] [_ H2]]. split; intros ->; [by eapply H1|by eapply H2].
Qed.

Lemma version_row w t id db : committerFor (w_dbs w) t = Ok db -> w_dbs w !! t = Some db /\
  resourceVersion db id = snd <$> cell_row w {| key_typ := t; key_id := id |}.
Proof.
  unfold committerFor. destruct (w_dbs w !! t) as [db'|] eqn:E; [|done]. intros [= ->]. split; [done|].
  unfold resourceVersion, cell_row. cbn. rewrite E. cbn. by destruct (resource db id).
Qed.

Lemma check_version_quiet h tx r w : states (w_engine w) !! h = Some tx ->
  (forall r, r ∈ copyResources tx -> detached w (t_work r) /\ detached w (original r)) ->
  quiet (fun _ => snd <$> cell_row w (resource_node r) = Some (ver r)) (check_version types GetId h r) w.
Proof.
  intros Eh Hd. unfold check_version. eapply quiet_bind; [apply quiet_lift|]. intros v. cbn.
  destruct (committerFor (w_dbs w) (dbName r)) as [db| |] eqn:Edb; [|done..]. cbn. intros [= <-].
  destruct (version_row w (dbName r) (t_id r) db Edb) as [_ ->]. case_bool_decide as E; [by split|].
  pose proof (refresh_tx_same h tx w Eh Hd) as Hs. unfold quiet, mbind, st_bind.
  destruct (refresh_tx types GetId h w) as [w' [u| |]]; exact Hs.
Qed.

Lemma check_create_quiet k w : quiet (fun _ => is_Some (w_dbs w !! key_typ k) /\ cell_row w k = None) (check_create k) w.
Proof.
  unfold check_create. eapply quiet_bind; [apply quiet_lift|]. intros v. cbn.
  destruct (committerFor (w_dbs w) (key_typ k)) as [db| |] eqn:Edb; [|done..]. cbn. intros [= <-].
  destruct (version_row w (key_typ k) (key_id k) db Edb) as [E ->]. case_bool_decide as Ev; [|apply unchanged_refl].
  split; [done|]. split; [by eexists|]. destruct k as [t id]. cbn in *. by destruct (cell_row w _).
Qed.

Lemma check_delete_quiet (cs : gmap nodeKey loc) k sd w :
  quiet (fun _ => cs !! k = None -> snd <$> cell_row w k = Some (sd_ver sd)) (check_delete cs (k, sd)) w.
Proof.
  unfold check_delete. cbn [fst snd]. case_bool_decide as Hc; [split; [done|]; intros Hn; rewrite Hn in Hc; by destruct Hc|].
  eapply quiet_bind; [apply quiet_lift|]. intros v. cbn.
  destruct (committerFor (w_dbs w) (key_typ k)) as [db| |] eqn:Edb; [|done..]. cbn. intros [= <-].
  destruct (version_row w (key_typ k) (key_id k) db Edb) as [E ->]. case_bool_decide as Ev; [|apply unchanged_refl].
  split; [done|]. by destruct k.
Qed.

Lemma on_files_same t f w : (forall db, w_dbs w !! t = Some db -> exists wl fs r, f (w_heap w) db (w_files w) = (with_wal db wl, fs, r)) ->
  same_tables w (on_files t f w).1 /\ w_heap (on_files t f w).1 = w_heap w.
Proof.
  intros Hf. unfold on_files. destruct (w_dbs w !! t) as [db|] eqn:E; [|split; [apply same_tables_refl|done]].
  destruct (Hf db eq_refl) as (wl & fs & r & ->). cbn. split; [|done]. split; [|done]. intros t'. cbn.
  destruct (decide (t' = t)) as [->|]; [|by rewrite lookup_insert_ne]. rewrite lookup_insert_eq, E. done.
Qed.

Lemma logWrites_wal heap db env files items : exists wl fs r, logWrites types gob_encode heap db env files items = (with_wal db wl, fs, r).
Proof.
  unfold logWrites. destruct (encodeWrites types gob_encode heap (Table.name db) items) as [rows|e|].
  - destruct (appendFrame _ _ _ _) as [[wl fs] r]. by eexists _, _, _.
  - exists (db_wal db), files, (Fail e). by destruct db.
  - exists (db_wal db), files, Panic. by destruct db.
Qed.

Lemma log_same env cs w : let w' := (logTransactionChanges types gob_encode env cs w).1 in same_tables w w' /\ w_heap w' = w_heap w.
Proof.
  unfold logTransactionChanges. destruct (SortFunc _ _) as [|t [|t' ts]].
  - split; [apply same_tables_refl|done].
  - apply on_files_same. intros db _. apply logWrites_wal.
  - destruct (transaction_rows _ _ _ _ _) as [rows| |]; [|by split; [apply same_tables_refl|]..].
    by destruct (appendTransactionFrame _ _ _ _) as [[log fs] r].
Qed.
End checks.

Lemma atomic_always (R Q : world -> Prop) (m : st unit) (f : unit -> st unit) w :
  same_tables w (m w).1 -> R (m w).1 -> (forall w', same_tables w w' -> R w' -> atomic Q (f tt) w') -> atomic Q (a ← m; f a) w.
Proof.
  intros H1 H2 H. apply (atomic_same R); [|done]. unfold atomic. by destruct (m w) as [w' []].
Qed.

Lemma fold_unit_all {A} (f : A -> outcome unit) l : fold_outcome (fun _ a => f a) tt l = Ok tt -> forall a, a ∈ l -> f a = Ok tt.
Proof.
  induction l as [|b l IH]; cbn; [by intros _ a ?%elem_of_nil|]. destruct (f b) as [[]| |] eqn:E; cbn; [|done..].
  intros Hl a [->|Ha]%elem_of_cons; auto.
Qed.

Lemma validateIndexes_nil `{!MapOrder string} sec : validateIndexes sec [] = Ok tt.
Proof.
  unfold validateIndexes. cbn. induction (map_range sec) as [|p l IH]; [done|]. cbn. by destruct (si_unique (spec p.2)).
Qed.

(** ** The steps behind the log *)

Section effect.
Context (GetId : goval -> Z) `{!MapOrder nodeKey, !MapOrder string}.
Notation stores_ok := (stores_ok GetId).
Notation tables_ok := (tables_ok GetId).

Definition apply_changes (h : positive) (rs : list touchedResource) (cs : gmap nodeKey loc) (ds : gset nodeKey)
    (tcs : gmap string (list pendingWrite)) : st unit :=
  _ ← prepareTransactionIndexes GetId tcs;
  _ ← each apply_write rs;
  _ ← apply_creates GetId plan_values (map_range cs);
  finish_values GetId h ds tcs.

Context (w : world) (h : positive) (rs : list touchedResource) (cs : gmap nodeKey loc) (ds : gset nodeKey).
Notation changes := (all_changes rs cs ds).
Notation tcs := (pending_changes (w_heap w) (transactionChanges rs cs ds)).

(** What the checks have established. *)
Record checked : Prop := {
  ck_tables : tables_ok w;
  ck_nodup : NoDup (resource_node <$> rs);
  ck_writes : forall r, r ∈ rs -> detached w (t_work r) /\ snd <$> cell_row w (resource_node r) = Some (ver r) /\
    fits_table GetId w (resource_node r) (deref (w_heap w) (t_work r));
  ck_creates : forall k l, cs !! k = Some l -> detached w l /\ is_Some (w_dbs w !! key_typ k) /\ cell_row w k = None /\
    fits_table GetId w k (deref (w_heap w) l);
  ck_deletes : forall k, k ∈ ds -> cs !! k = None -> is_Some (cell_row w k);
  ck_valid : forall t items db, tcs !! t = Some items -> w_dbs w !! t = Some db -> validateIndexes (secondary db) items = Ok tt;
}.
Hypothesis (Hck : checked).

Lemma cell_open k : is_Some (cell_row w k) -> is_Some (w_dbs w !! key_typ k).
Proof. intros [v E]. destruct (row_cells _ _ _ E) as (db & E' & _). by exists db. Qed.
Lemma write_row r : r ∈ rs -> is_Some (cell_row w (resource_node r)).
Proof. intros Hr. destruct (ck_writes Hck r Hr) as (_ & E & _). destruct (cell_row w (resource_node r)); [done|]. done. Qed.
Lemma write_not_created r : r ∈ rs -> cs !! resource_node r = None.
Proof.
  intros Hr. destruct (cs !! resource_node r) as [l|] eqn:E; [|done]. destruct (ck_creates Hck _ l E) as (_ & _ & En & _).
  destruct (write_row r Hr). congruence.
Qed.
Lemma change_open k : k ∈ changes.*1 -> is_Some (w_dbs w !! key_typ k).
Proof.
  intros ([k' [c|]] & -> & Hin)%list_elem_of_fmap; cbn.
  - apply all_changes_write in Hin as [_ [(r & Hr & <- & _)|Hin]]; [by apply cell_open, write_row|]. by eapply ck_creates.
  - apply all_changes_delete in Hin as [Hin Hc]. by apply cell_open, ck_deletes.
Qed.

Lemma items_of t : default [] (tcs !! t) = pending_write (w_heap w) <$> table_changes t changes.
Proof.
  destruct (transactionChanges_spec rs cs ds t) as [E _]. rewrite <- E. unfold pending_changes. rewrite lookup_fmap. by destruct (transactionChanges rs cs ds !! t).
Qed.
Lemma tcs_open t : is_Some (tcs !! t) -> is_Some (w_dbs w !! t).
Proof.
  unfold pending_changes. rewrite lookup_fmap, fmap_is_Some. intros Ht.
  destruct (transactionChanges_spec rs cs ds t) as [_ E]. destruct (E Ht) as (k & Hk & <-). by apply change_open.
Qed.
Lemma valid_of t db : w_dbs w !! t = Some db -> validateIndexes (secondary db) (pending_write (w_heap w) <$> table_changes t changes) = Ok tt.
Proof.
  intros E. rewrite <- items_of. destruct (tcs !! t) as [items|] eqn:Et; [by eapply ck_valid|]. apply validateIndexes_nil.
Qed.
Lemma changes_nodup : NoDup changes.*1.
Proof.
  apply all_changes_nodup; [apply Hck|apply write_not_created].
Qed.
Lemma change_fits k c : (k, Some c) ∈ changes -> fits_table GetId w k (deref (w_heap w) c).
Proof.
  intros [_ [(r & Hr & <- & <-)|Hk]]%all_changes_write; [by apply ck_writes|]. by apply ck_creates.
Qed.

Lemma find_key_Some k r : find_key rs k = Some r -> r ∈ rs /\ resource_node r = k.
Proof. intros [Hin E%bool_decide_eq_true]%List.find_some. split; [by apply list_elem_of_In|done]. Qed.
Lemma find_key_None k : find_key rs k = None -> k ∉ resource_node <$> rs.
Proof.
  intros E (r & -> & Hr)%list_elem_of_fmap. apply list_elem_of_In in Hr. pose proof (List.find_none _ _ E _ Hr) as H. cbn in H.
  by rewrite bool_decide_true in H.
Qed.
Lemma find_key_elem r : r ∈ rs -> find_key rs (resource_node r) = Some r.
Proof.
  intros Hr. destruct (find_key rs (resource_node r)) as [r'|] eqn:E.
  - apply find_key_Some in E as [Hr' E]. f_equal. pose proof (ck_nodup Hck) as Hnd.
    apply list_elem_of_lookup in Hr as [i Hi], Hr' as [j Hj].
    assert (i = j) as ->; [|congruence]. eapply (NoDup_lookup _ i j (resource_node r) Hnd); rewrite list_lookup_fmap; [by rewrite Hi|].
    rewrite Hj. cbn. by rewrite E.
  - apply find_key_None in E. destruct E. by apply list_elem_of_fmap_2.
Qed.

(** The rows of the changes, up to the deletes. *)
Lemma rows_after w2 : same_rows w w2 -> w_heap w2 = w_heap w ->
  exists w4, (_ ← each apply_write rs; apply_creates GetId plan_values (map_range cs)) w2 = (w4, Ok plan_values) /\
    stores_ok w4 /\ keeps_indexes w2 w4 /\
    (forall k l, cs !! k = Some l -> exists c, cell_row w4 k = Some (c, deref (w_heap w) l, 0%Z)) /\
    (forall r, r ∈ rs -> exists c, cell_row w4 (resource_node r) = Some (c, deref (w_heap w) (t_work r), (ver r + 1)%Z)) /\
    (forall k, cs !! k = None -> k ∉ resource_node <$> rs -> cell_row w4 k = cell_row w k).
Proof.
  intros Hs Hh. pose proof (ck_tables Hck) as [Hw _].
  assert (forall k, cell_row w2 k = cell_row w k) as Hrow by (intros k; by eapply same_cell_row).
  assert (forall l, detached w l -> detached w2 l) as Hdet by (intros l; by apply same_detached).
  destruct (writes_loop GetId rs w2) as (w3 & E3 & Hs3 & Hk3 & Hc3); [by eapply same_stores|apply Hck| |].
  { intros r Hr. destruct (ck_writes Hck r Hr) as (Hd & _ & (Hid & _)). rewrite Hrow, Hh. split_and!; [by apply Hdet|by apply write_row|done]. }
  assert (forall k l, cs !! k = Some l -> cell_row w3 k = None /\ deref (w_heap w3) l = deref (w_heap w) l) as Hcr.
  { intros k l Hk. destruct (ck_creates Hck k l Hk) as (Hd & _ & En & _). rewrite (step_deref _ _ _ _ Hs3 (Hdet _ Hd)), Hh. split; [|done].
    rewrite Hc3, Hrow, En. by destruct (find_key rs k). }
  destruct (creates_loop GetId (map_range cs) w3) as (w4 & E4 & Hs4 & Hk4 & Hc4 & Hn4); [apply Hs3|apply map_range_nodup| |].
  { intros k l Hin%map_range_elem. destruct (ck_creates Hck k l Hin) as (Hd & [db Ho] & _ & Hid & Hpos & _), (Hcr k l Hin) as [En ->].
    split_and!; [apply Hs3; auto| |done..]. pose proof (Hk3 (key_typ k)) as Hk.
    destruct (sr_tables _ _ Hs (key_typ k)) as [db2 E2]; [by eexists|]. rewrite E2 in Hk. by destruct (w_dbs w3 !! key_typ k). }
  exists w4. rewrite (bind_Ok _ _ _ _ _ E3). split_and!; [done|apply Hs4|by eapply keeps_trans| | |].
  - intros k l Hk. destruct (Hn4 k l) as [c Ec]; [by apply map_range_elem|]. exists c. by rewrite Ec, (proj2 (Hcr k l Hk)).
  - intros r Hr. assert (resource_node r ∉ (map_range cs).*1) as Hn.
    { intros ([k l] & Ek & Hin%map_range_elem)%list_elem_of_fmap. cbn in Ek. subst k. rewrite write_not_created in Hin by done. done. }
    rewrite Hc4, Hc3, find_key_elem, Hrow, Hh by done. destruct (ck_writes Hck r Hr) as (_ & E & _).
    destruct (cell_row w (resource_node r)) as [[[c v] n]|]; [|done]. injection E as <-. by exists c.
  - intros k Hk Hn. rewrite Hc4, Hc3.
    + destruct (find_key rs k) as [r|] eqn:E; [|apply Hrow]. apply find_key_Some in E as [Hr <-]. destruct Hn. by apply list_elem_of_fmap_2.
    + intros ([k' l] & -> & Hin%map_range_elem)%list_elem_of_fmap. cbn in Hk. congruence.
Qed.

Lemma changes_done w4 w5 :
  (forall k l, cs !! k = Some l -> exists c, cell_row w4 k = Some (c, deref (w_heap w) l, 0%Z)) ->
  (forall r, r ∈ rs -> exists c, cell_row w4 (resource_node r) = Some (c, deref (w_heap w) (t_work r), (ver r + 1)%Z)) ->
  (forall k, cs !! k = None -> k ∉ resource_node <$> rs -> cell_row w4 k = cell_row w k) ->
  (forall k, cell_row w5 k = if bool_decide (k ∈ ds) then None else cell_row w4 k) ->
  changes_applied w w5 changes /\ forall k, row w5 k = committed_row w rs cs ds k.
Proof.
  intros H1 H2 H3 H5.
  assert (forall k, cs !! k = None -> find_key rs k = None -> k ∉ ds -> cell_row w5 k = cell_row w k) as Hsame.
  { intros k Hc Hf Hd. rewrite H5, bool_decide_false by done. apply H3; [done|]. by apply find_key_None. }
  split; [split|].
  - intros k Hk. destruct (decide (k ∈ ds)) as [Hd|Hd].
    { rewrite H5, bool_decide_true by done. destruct (cs !! k) as [l|] eqn:E; [symmetry; by eapply ck_creates|].
      destruct Hk. apply (list_elem_of_fmap_2 fst _ (k, None)). by apply all_changes_delete. }
    apply Hsame; [| |done].
    + destruct (cs !! k) as [l|] eqn:E; [|done]. destruct Hk. apply (list_elem_of_fmap_2 fst _ (k, Some l)). apply all_changes_write. auto.
    + destruct (find_key rs k) as [r|] eqn:E; [|done]. apply find_key_Some in E as [Hr <-]. destruct Hk.
      apply (list_elem_of_fmap_2 fst _ (resource_node r, Some (t_work r))). apply all_changes_write. split; [done|]. left. by exists r.
  - intros k c [Hd [(r & Hr & <- & <-)|Hk]]%all_changes_write.
    + destruct (H2 r Hr) as [c E]. exists c, (ver r + 1)%Z. by rewrite H5, bool_decide_false.
    + destruct (H1 k c Hk) as [c' E]. exists c', 0%Z. by rewrite H5, bool_decide_false.
  - intros k [Hk _]%all_changes_delete. by rewrite H5, bool_decide_true.
  - intros k. unfold committed_row. case_bool_decide as Hd; [unfold row; by rewrite H5, bool_decide_true|].
    destruct (cs !! k) as [l|] eqn:Ec.
    + destruct (H1 k l Ec) as [c E]. unfold row. by rewrite H5, bool_decide_false, E.
    + destruct (find_key rs k) as [r|] eqn:Ef.
      * apply find_key_Some in Ef as [Hr <-]. destruct (H2 r Hr) as [c E]. unfold row. by rewrite H5, bool_decide_false, E.
      * unfold row. by rewrite Hsame.
Qed.

(** What is deleted is neither created nor changed. *)
Definition apart : Prop := forall k, k ∈ ds -> cs !! k = None /\ k ∉ resource_node <$> rs.

(** The indexes of a table over the whole commit. *)
Lemma indexes_after t db w4 db4 heap5 db5 :
  w_dbs w !! t = Some db -> w_dbs w4 !! t = Some db4 -> stores_ok w4 ->
  secondary db4 = prepareIndexes GetId (w_heap w) (rowCells db) (pending_write (w_heap w) <$> table_changes t changes) (secondary db) ->
  apart -> (forall k, k ∈ ds -> cell_row w4 k = cell_row w k) ->
  db5 = relationDelete GetId (w_heap w4) db4 (ids_of_type t ds) -> heap5 = w_heap w4 ->
  writes_applied GetId (secondary db) (pending_write (w_heap w) <$> table_changes t changes) (w_heap w) (rowCells db) heap5 (rowCells db5) ->
  IndexCommit.table_ok GetId heap5 (rowCells db5)
    (finishIndexes GetId heap5 (rowCells db5) (pending_write (w_heap w) <$> table_changes t changes) (secondary db5)).
Proof.
  intros Edb E4 Hw4 Hsec Hapart Hds -> -> Hw. pose proof (ck_tables Hck) as [_ Hi]. specialize (Hi t db Edb).
  eapply finish_table_ok; [exact Hi|exact Hw|by apply valid_of|]. intros name y Hy.
  destruct (relationDelete_ok GetId (w_heap w4) db4 (ids_of_type t ds) (so_rows _ _ Hw4 _ _ E4)) as (_ & _ & (ls & Els & Hls) & _).
  rewrite Els, Hsec in Hy. eapply deletes_keep_prepared; [exact Hi|exact Hw| |exact Hy].
  intros l (id & Hid & Hl)%Hls. apply ids_of_type_elem in Hid. exists id.
  rewrite (cells_of w4 t) in Hl by done. rewrite Hds in Hl by done. rewrite (cells_of w t) by done. split_and!; [|done|].
  - apply list_elem_of_fmap. exists (pending_write (w_heap w) (id, None)). split; [done|]. apply list_elem_of_fmap_2.
    apply table_changes_elem, all_changes_delete. by destruct (Hapart {| key_typ := t; key_id := id |} Hid).
  - apply fmap_Some in Hl as ([[l' v] n] & E & ->). cbn. rewrite (deref_of _ _ _ _ _ E).
    rewrite <- Hds in E by done. apply (deref_of _ _ _ _ _ E).
Qed.

Lemma apply_changes_ok : exists w', apply_changes h rs cs ds tcs w = (w', Ok tt) /\ stores_ok w' /\
  (apart -> indexes_in_step GetId w') /\ forall k, row w' k = committed_row w rs cs ds k.
Proof.
  destruct (index_stage (prepareIndexes GetId) tcs w) as (w2 & E2 & Hh2 & Hd2); [done|apply tcs_open|].
  pose proof (secondary_same_rows w w2 _ Hh2 Hd2) as Hs2.
  destruct (rows_after w2 Hs2 Hh2) as (w4 & E4 & Hw4 & Hk4 & Hc & Hr & Ho).
  destruct (delete_stage GetId ds w4 Hw4) as (w5 & E5 & Hh5 & Hw5 & Hd5 & Hc5).
  assert (forall t, is_Some (w_dbs w !! t) -> is_Some (w_dbs w5 !! t)) as Hopen.
  { intros t [db E]. rewrite Hd5. specialize (Hk4 t). rewrite Hd2, E in Hk4. cbn in Hk4. by destruct (w_dbs w4 !! t). }
  destruct (index_stage (finishIndexes GetId) tcs w5) as (w6 & E6 & Hh6 & Hd6); [done|intros t Ht; by apply Hopen, tcs_open|].
  pose proof (secondary_same_rows w5 w6 _ Hh6 Hd6) as Hs6.
  destruct (changes_done w4 w5 Hc Hr Ho Hc5) as [Hdone Hrows].
  exists (with_engine w6 (evict (w_engine w6) h)). split_and!.
  - unfold apply_changes, finish_values. rewrite (bind_Ok _ _ _ _ _ E2).
    unfold mbind at 1, st_bind at 1. unfold mbind, st_bind in E4.
    destruct (each apply_write rs w2) as [w3 [[]| |]]; [|done..]. rewrite (bind_Ok _ _ _ _ _ E4), (bind_Ok _ _ _ _ _ E5), (bind_Ok _ _ _ _ _ E6). done.
  - destruct (same_stores GetId w5 w6 Hs6 Hw5). by split.
  - intros Hapart t db6. cbn. rewrite Hd6. intros (db5 & Edb5 & ->)%fmap_Some.
    pose proof Edb5 as Edb5'. rewrite Hd5 in Edb5'. apply fmap_Some in Edb5' as (db4 & Edb4 & Edb5').
    pose proof (Hk4 t) as Hsec. rewrite Edb4, Hd2 in Hsec. destruct (w_dbs w !! t) as [db|] eqn:Edb; [|done]. cbn in Hsec. injection Hsec as Hsec.
    rewrite items_of in Hsec. cbn [secondary with_secondary]. rewrite items_of, Hh6.
    change (rowCells (with_secondary db5 _)) with (rowCells db5).
    eapply indexes_after; [exact Edb|exact Edb4|exact Hw4|exact Hsec|exact Hapart| |exact Edb5'|exact Hh5|].
    + intros k Hk. by apply Ho; apply Hapart.
    + eapply writes_applied_table; [exact Hdone|apply changes_nodup|apply change_fits|done|done].
  - intros k. rewrite <- Hrows. unfold row.
    change (cell_row (with_engine w6 _) k) with (cell_row w6 k). by rewrite (same_cell_row GetId w5 w6).
Qed.
End effect.

Lemma checked_same GetId `{!MapOrder nodeKey, !MapOrder string} w w' rs cs ds : same_tables w w' -> w_heap w' = w_heap w ->
  checked GetId w rs cs ds -> checked GetId w' rs cs ds.
Proof.
  intros Hs Hh [Hok Hnd Hw Hc Hd Hv]. pose proof (same_tables_rows _ _ Hs) as Hr.
  assert (forall k, cell_row w' k = cell_row w k) as Hrow by (intros k; by eapply same_cell_row; [apply Hok|]).
  assert (forall k v, fits_table GetId w k v -> fits_table GetId w' k v) as Hfit.
  { intros k v (H1 & H2 & H3). split_and!; [done..|]. intros db' E. destruct (same_lookup _ _ _ _ Hs E) as (db & E0 & _ & _ & _ & ->). by apply H3. }
  split; [by eapply same_tables_ok|done| | | |].
  - intros r Hin. destruct (Hw r Hin) as (H1 & H2 & H3). rewrite Hrow, Hh. split_and!; [by eapply same_detached|done|by apply Hfit].
  - intros k l Hk. destruct (Hc k l Hk) as (H1 & H2 & H3 & H4). rewrite Hrow, Hh.
    split_and!; [by eapply same_detached|by eapply sr_tables|done|by apply Hfit].
  - intros k Hk Hn. rewrite Hrow. by apply Hd.
  - intros t items db' Et E. rewrite Hh in Et. destruct (same_lookup _ _ _ _ Hs E) as (db & E0 & _ & _ & _ & ->). by eapply Hv.
Qed.

Lemma committed_row_same w w' rs cs ds k : w_heap w' = w_heap w -> row w' k = row w k -> committed_row w' rs cs ds k = committed_row w rs cs ds k.
Proof. intros Hh Hr. unfold committed_row. by rewrite Hh, Hr. Qed.

Section single.
Context (GetId : goval -> Z).

Lemma empty_table_ok heap db : rows_ok GetId heap db -> secondary db = ∅ -> IndexCommit.table_ok GetId heap (rowCells db) (secondary db).
Proof.
  intros H ->. split; [|apply map_Forall_empty..]. intros id l. rewrite rowCells_resource. intros (slot & E & ->)%fmap_Some.
  by destruct (resource_Some _ _ _ _ _ H E) as (_ & _ & _ & _ & ? & ?).
Qed.

(** The path of one write to a table without indexes. *)
Lemma single_write_ok w r db c v n : tables_ok GetId w -> w_dbs w !! dbName r = Some db -> secondary db = ∅ ->
  cell_row w (resource_node r) = Some (c, v, n) -> GetId (deref (w_heap w) (t_work r)) = t_id r ->
  exists w', apply_write r w = (w', Ok tt) /\ tables_ok GetId w' /\
    forall k, row w' k = if bool_decide (resource_node r = k) then Some (deref (w_heap w) (t_work r), (n + 1)%Z) else row w k.
Proof.
  intros [Hw Hi] Edb Es Ec Hid. destruct (apply_write_step GetId w r c v n Hw Ec Hid) as (w' & E & [Hw' _] & Hk & Hrow).
  exists w'. split; [done|]. split; [split; [done|]|].
  - intros t db' Et. pose proof (Hk t) as Hsec. rewrite Et in Hsec. destruct (decide (t = dbName r)) as [->|Hne].
    { rewrite Edb in Hsec. injection Hsec as Hsec. apply empty_table_ok; [by eapply so_rows|congruence]. }
    destruct (w_dbs w !! t) as [db0|] eqn:E0; [|done]. injection Hsec as ->.
    assert (forall id, cell_row w' {| key_typ := t; key_id := id |} = cell_row w {| key_typ := t; key_id := id |}) as Hsame.
    { intros id. rewrite Hrow, bool_decide_false; [done|]. intros [= ? ?]. congruence. }
    assert (rowCells db' = rowCells db0) as ->.
    { apply map_eq. intros id. by rewrite (cells_of w' t), (cells_of w t), Hsame. }
    eapply table_ok_frame; [|by apply (Hi t)]. intros id l. rewrite (cells_of w t) by done.
    intros ([[l' v'] n'] & E1 & ->)%fmap_Some. cbn. rewrite (deref_of _ _ _ _ _ E1). rewrite <- Hsame in E1. by rewrite (deref_of _ _ _ _ _ E1).
  - intros k. unfold row. rewrite Hrow. by case_bool_decide.
Qed.
End single.

Section facts.
Context (types : typeEnv) (GetId : goval -> Z) `{!MapOrder nodeKey, !MapOrder string}.

(** The compaction of [changedResources] keeps the changed copies. *)
Lemma changedResources_filter heap rs :
  changedResources types GetId heap rs = List.filter (fun r => negb (entityStateEqual types GetId heap (dbName r) (original r) (t_work r))) rs.
Proof.
  set (p := fun r => negb _). unfold changedResources.
  assert (forall rest acc, foldl (fun changed remaining => if p remaining then changed ++ [remaining] else changed) acc rest = acc ++ List.filter p rest) as Hf.
  { induction rest as [|r rest IH]; intros acc; cbn; [by rewrite app_nil_r|]. rewrite IH. destruct (p r); [by rewrite <- app_assoc|done]. }
  assert (forall rest before, match changed_from types GetId heap before rest with
    | Some l => l = before ++ List.filter p rest | None => List.filter p rest = rest end) as H.
  { induction rest as [|r rest IH]; intros before; cbn; [done|]. fold (p r). destruct (p r).
    - specialize (IH (before ++ [r])). destruct (changed_from types GetId heap (before ++ [r]) rest); [by rewrite IH, <- app_assoc|by f_equal].
    - apply Hf. }
  specialize (H rs []). destruct (changed_from types GetId heap [] rs); cbn; by rewrite H.
Qed.

Lemma resources_keep_ids heap opened hr rs : resources_change_graph types GetId heap opened hr rs = Ok false ->
  forall r, r ∈ rs -> GetId (deref heap (original r)) = GetId (deref heap (t_work r)).
Proof.
  induction rs as [|r rs IH]; cbn; [by intros _ r ?%elem_of_nil|].
  destruct (resource_changes_graph types GetId heap opened hr r) as [[]| |] eqn:E; cbn; [done| |done..].
  intros Hrs r' [->|Hr']%elem_of_cons; [|by apply IH].
  unfold resource_changes_graph in E. unfold deref. destruct (heap !! original r) as [a|], (heap !! t_work r) as [b|]; [|done..]. cbn.
  destruct (Z.eqb_spec (GetId a) (GetId b)) as [|]; [done|]. done.
Qed.

Lemma apply_creates_values cs w w' p : apply_creates GetId plan_values cs w = (w', Ok p) -> p = plan_values.
Proof.
  revert w. induction cs as [|c cs IH]; intros w; cbn [apply_creates].
  { by intros [= _ <-]. }
  unfold mbind, st_bind. destruct (apply_create GetId c w) as [w1 [u| |]]; [apply IH|done..].
Qed.

Lemma copies_distinct tx : collected tx -> NoDup (resource_node <$> copyResources tx).
Proof.
  intros [H _ _]. assert (resource_key <$> copyResources tx = (fun k => (key_typ k, key_id k)) <$> (resource_node <$> copyResources tx)) as E.
  { by rewrite <- list_fmap_compose. }
  rewrite E in H. by eapply NoDup_fmap_1.
Qed.
End facts.

(** ** The commit *)

Section commit.
Context (types : typeEnv) (GetId : goval -> Z) (gob_encode : gotype -> goval -> outcome (list byte))
  (gob_encode_rows : structDef -> list goval -> outcome (list byte)).
Context `{!MapOrder nodeKey, !MapOrder string, !MapOrder Z}.
Notation commit := (commit types GetId gob_encode gob_encode_rows).
Notation touched_of w tx := (changedResources types GetId (w_heap w) (copyResources tx)).

(** The transaction leaves the relation graph alone. *)
Definition values_only (w : world) (tx : transactionState) : Prop := forall changed,
  resourcesChangeRelationGraph types GetId (w_heap w) (opened w) (touched_of w tx) = Ok changed ->
  transactionGraphAccess (w_participants w) (touched_of w tx) (creates tx) (deletes tx) changed <> graphAccessWrite.

(** Every row the transaction changes, creates or deletes is as the
    transaction knows it. *)
Definition current (w : world) (tx : transactionState) : Prop :=
  (forall r, r ∈ touched_of w tx -> snd <$> row w (resource_node r) = Some (ver r)) /\
  (forall k, is_Some (creates tx !! k) -> row w k = None) /\
  (forall k sd, deletes tx !! k = Some sd -> creates tx !! k = None -> snd <$> row w k = Some (sd_ver sd)).

(** The transaction deletes no row that it also creates or changes. *)
Definition deletes_apart (w : world) (tx : transactionState) : Prop := forall k, is_Some (deletes tx !! k) ->
  creates tx !! k = None /\ k ∉ resource_node <$> touched_of w tx.

(** The end of a commit that succeeds. *)
Definition committed (w : world) (tx : transactionState) (w' : world) : Prop :=
  stores_ok GetId w' /\ (deletes_apart w tx -> indexes_in_step GetId w') /\ current w tx /\ forall k, row w' k = committed_row w (touched_of w tx) (creates tx) (dom (deletes tx)) k.

Lemma snd_row w k : snd <$> row w k = snd <$> cell_row w k.
Proof. unfold row. by destruct (cell_row w k). Qed.

Context (h : positive) (tx : transactionState) (w : world).
Hypotheses (Eh : states (w_engine w) !! h = Some tx) (Hok : tables_ok GetId w) (Htx : tx_ok GetId w tx).
Hypothesis (Hids : forall r, r ∈ touched_of w tx -> GetId (deref (w_heap w) (original r)) = GetId (deref (w_heap w) (t_work r))).
Let rs := touched_of w tx.

Lemma touched_copies r : r ∈ rs -> r ∈ copyResources tx.
Proof. unfold rs. rewrite changedResources_filter. rewrite !list_elem_of_In, filter_In. tauto. Qed.

Lemma copies_detached r : r ∈ copyResources tx -> detached w (t_work r) /\ detached w (original r).
Proof. intros Hr. by destruct (tx_copies _ _ _ Htx r Hr) as (? & ? & _). Qed.

Lemma touched_fits r : r ∈ rs -> GetId (deref (w_heap w) (t_work r)) = t_id r /\ fits_table GetId w (resource_node r) (deref (w_heap w) (t_work r)).
Proof.
  intros Hr. destruct (tx_copies _ _ _ Htx r (touched_copies r Hr)) as (_ & _ & Ho & Hf). rewrite (Hids r Hr) in Ho. auto.
Qed.

(** What the checks leave is [checked]. *)
Lemma checks_done : current w tx -> (forall k, is_Some (creates tx !! k) -> is_Some (w_dbs w !! key_typ k)) ->
  (forall t items db, pending_changes (w_heap w) (transactionChanges rs (creates tx) (dom (deletes tx))) !! t = Some items ->
    w_dbs w !! t = Some db -> validateIndexes (secondary db) items = Ok tt) ->
  checked GetId w rs (creates tx) (dom (deletes tx)).
Proof.
  intros (Hv & Hc & Hd) Ho Hval. split; [done| | | | |done].
  - unfold rs. rewrite changedResources_filter. eapply sublist_NoDup; [apply copies_distinct, (tx_collected _ _ _ Htx)|].
    apply fmap_sublist. generalize (copyResources tx). intros l. induction l as [|r l IH]; cbn; [done|].
    destruct (negb _); [by apply sublist_skip|by apply sublist_cons].
  - intros r Hr. destruct (touched_fits r Hr) as [_ Hf], (copies_detached r (touched_copies r Hr)) as [Hdet _].
    split_and!; [done|by rewrite <- snd_row, Hv|done].
  - intros k l Hk. destruct (tx_creates _ _ _ Htx k l Hk) as [H1 H2]. split_and!; [done|by apply Ho; eexists| |done].
    apply row_none, Hc. by eexists.
  - intros k [sd E]%elem_of_dom Hn. specialize (Hd k sd E Hn). rewrite snd_row in Hd. by destruct (cell_row w k).
Qed.

(** A commit of values passes its checks, or changes nothing; what is left is to
    log and to apply. *)
Lemma locked_checks env (P : world * outcome unit -> Prop) :
  let tcs := pending_changes (w_heap w) (transactionChanges rs (creates tx) (dom (deletes tx))) in
  (forall w1 r, (forall b, r <> Ok b) -> unchanged w w1 -> P (w1, r)) ->
  (current w tx -> checked GetId w rs (creates tx) (dom (deletes tx)) ->
     P ((_ ← logTransactionChanges types gob_encode (ev_append env) tcs; apply_changes GetId h rs (creates tx) (dom (deletes tx)) tcs) w)) ->
  P (commit_locked types GetId gob_encode gob_encode_rows env h tx rs plan_values w).
Proof.
  intros tcs Hno Hyes. unfold commit_locked.
  eapply run_quiet; [eapply (quiet_each (fun k => is_Some (w_dbs w !! key_typ k) /\ cell_row w k = None)); intros k _; apply check_create_quiet|done|].
  intros [] Hc. eapply run_quiet; [|done|].
  { eapply (quiet_each (fun r => snd <$> cell_row w (resource_node r) = Some (ver r))). intros r _. eapply check_version_quiet; [exact Eh|apply copies_detached]. }
  intros [] Hv. eapply run_quiet; [|done|].
  { eapply (quiet_each (fun p => creates tx !! p.1 = None -> snd <$> cell_row w p.1 = Some (sd_ver p.2))). intros [k sd] _.
    apply check_delete_quiet. }
  intros [] Hd. cbn beta in Hc, Hv, Hd |- *. cbn zeta. eapply run_bind; [reflexivity|]. eapply run_bind; [reflexivity|]. cbv beta. fold tcs.
  eapply run_quiet; [apply quiet_lift|done|]. intros [] Hval. cbn beta in Hval.
  assert (forall k l, creates tx !! k = Some l -> k ∈ (map_range (creates tx)).*1) as Hin.
  { intros k l E. apply (list_elem_of_fmap_2' fst _ (k, l)); [|done]. by apply map_range_elem. }
  assert (current w tx) as Hcur.
  { split_and!.
    - intros r Hr. rewrite snd_row. by apply Hv.
    - intros k [l E]. apply row_none. by apply (Hc k (Hin k l E)).
    - intros k sd E Hn. rewrite snd_row. apply (Hd (k, sd)); [|done]. by apply map_range_elem. }
  match goal with |- P ?run => assert (run = (_ ← logTransactionChanges types gob_encode (ev_append env) tcs;
    apply_changes GetId h rs (creates tx) (dom (deletes tx)) tcs) w) as -> end.
  - unfold apply_changes, mbind, st_bind. destruct (logTransactionChanges _ _ _ _ w) as [w1 [[]| |]]; [|done..]. destruct (prepareTransactionIndexes _ _ w1) as [w2 [[]| |]]; [|done..].
    destruct (each apply_write rs w2) as [w3 [[]| |]]; [|done..].
    destruct (apply_creates GetId plan_values _ w3) as [w4 [p| |]] eqn:Ep; [|done..]. by rewrite (apply_creates_values _ _ _ _ _ Ep).
  - apply Hyes; [done|]. apply checks_done; [done|intros k [l E]; by apply (Hc k (Hin k l E))|]. intros t items db Et Edb. apply map_range_elem in Et.
    pose proof (fold_unit_all _ _ Hval _ Et) as E. cbn in E. unfold committerFor in E. by rewrite Edb in E.
Qed.

(** Once the checks have passed only the log can fail. *)
Lemma apply_checked env : let tcs := pending_changes (w_heap w) (transactionChanges rs (creates tx) (dom (deletes tx))) in
  current w tx -> checked GetId w rs (creates tx) (dom (deletes tx)) ->
  atomic (committed w tx) (_ ← logTransactionChanges types gob_encode (ev_append env) tcs; apply_changes GetId h rs (creates tx) (dom (deletes tx)) tcs) w.
Proof.
  intros tcs Hcur Hck. destruct (log_same types gob_encode (ev_append env) tcs w) as [Hs1 Hh1].
  eapply (atomic_always (fun w' => w_heap w' = w_heap w)); [exact Hs1|exact Hh1|]. clear Hs1 Hh1. intros w1 Hs Hh.
  destruct (apply_changes_ok GetId w1 h rs (creates tx) (dom (deletes tx))) as (w' & E & Hok' & Hix & Hrow).
  { by eapply checked_same. }
  unfold atomic, tcs. rewrite <- Hh, E. split_and!; [done| |done|].
  { intros Hap. apply Hix. intros k Hk%elem_of_dom. by apply Hap. }
  intros k. rewrite Hrow. apply committed_row_same; [done|].
  unfold row. by rewrite (same_cell_row GetId w w1) by (apply Hok || by apply same_tables_rows).
Qed.

Lemma commit_locked_atomic env : atomic (committed w tx) (commit_locked types GetId gob_encode gob_encode_rows env h tx rs plan_values) w.
Proof.
  unfold atomic. apply locked_checks.
  - intros w1 r Hr [Hs _]. destruct r; [by edestruct Hr|done..].
  - intros Hcur Hck. by apply apply_checked.
Qed.

Lemma commitSingleWrite_atomic env r db : rs = [r] -> creates tx = ∅ -> deletes tx = ∅ -> w_dbs w !! dbName r = Some db -> secondary db = ∅ ->
  atomic (committed w tx) (commitSingleWrite types GetId gob_encode env h r) w.
Proof.
  intros Ers Ec Ed Edb Es. unfold commitSingleWrite.
  eapply atomic_bind; [eapply check_version_quiet; [exact Eh|apply copies_detached]|]. intros [] Hv. cbn beta in Hv. cbn beta in Hv.
  destruct (on_files_same (dbName r) (fun heap db files => logWrites types gob_encode heap db (ev_append env) files
    [pending_write heap (t_id r, Some (t_work r))]) w) as [Hs1 Hh1]; [intros; apply logWrites_wal|].
  eapply (atomic_always (fun w' => w_heap w' = w_heap w)); [exact Hs1|exact Hh1|]. clear Hs1 Hh1. intros w1 Hs Hh.
  destruct (touched_fits r) as [Hid _]; [rewrite Ers; by left|].
  pose proof (same_cell_row GetId w w1 (resource_node r) (proj1 Hok) (same_tables_rows _ _ Hs)) as Hrow.
  destruct (cell_row w (resource_node r)) as [[[c v] n]|] eqn:Ecell; [|done]. injection Hv as ->.
  destruct (same_tables_sym_lookup _ _ _ _ Hs Edb) as (db1 & Edb1 & _ & _ & _ & Es1).
  destruct (single_write_ok GetId w1 r db1 c v (ver r)) as (w' & E & Hok' & Hrow'); [by eapply same_tables_ok|done|congruence|done|by rewrite Hh|].
  unfold atomic. rewrite (bind_Ok _ _ _ _ _ E). change (committed w tx (with_engine w' (evict (w_engine w') h))).
  destruct Hok' as [[A B C] D]. split; [by split|]. split; [done|]. split.
  - split_and!.
    + intros r' Hr'. fold rs in Hr'. rewrite Ers in Hr'. apply list_elem_of_singleton in Hr' as ->. by rewrite snd_row, Ecell.
    + rewrite Ec. intros k [l El]. by rewrite lookup_empty in El.
    + rewrite Ed. intros k sd El. by rewrite lookup_empty in El.
  - intros k. change (row (with_engine w' _) k) with (row w' k). rewrite Hrow', Hh. unfold committed_row. fold rs.
    rewrite Ec, Ed, Ers, lookup_empty, dom_empty_L, (bool_decide_false (k ∈ ∅)) by apply not_elem_of_empty. unfold find_key. cbn.
    case_bool_decide; [done|]. unfold row. by rewrite (same_cell_row GetId w w1) by (apply Hok || by apply same_tables_rows).
Qed.

Lemma nothing_committed : rs = [] -> creates tx = ∅ -> deletes tx = ∅ -> committed w tx (with_engine w (evict (w_engine w) h)).
Proof.
  intros Ers Ec Ed. destruct Hok as [[A B C] D]. split; [by split|]. split; [done|]. split.
  - split_and!.
    + fold rs. rewrite Ers. by intros r ?%elem_of_nil.
    + rewrite Ec. intros k [l El]. by rewrite lookup_empty in El.
    + rewrite Ed. intros k sd El. by rewrite lookup_empty in El.
  - intros k. unfold committed_row. fold rs. rewrite Ec, Ed, Ers, lookup_empty, dom_empty_L.
    by rewrite bool_decide_false by apply not_elem_of_empty.
Qed.
End commit.

Section theorem.
Context (types : typeEnv) (GetId : goval -> Z) (gob_encode : gotype -> goval -> outcome (list byte))
  (gob_encode_rows : structDef -> list goval -> outcome (list byte)).
Context `{!MapOrder nodeKey, !MapOrder string, !MapOrder Z}.

(** A commit that leaves the graph alone fails before it starts, has nothing to
    do, or is one of the two ways to write rows. *)
Lemma commit_cases env h tx w : states (w_engine w) !! h = Some tx -> values_only types GetId w tx ->
  let rs := changedResources types GetId (w_heap w) (copyResources tx) in let run := commit types GetId gob_encode gob_encode_rows env h w in
  (exists r, run = (w, r) /\ r <> Ok tt) \/
  (rs = [] /\ creates tx = ∅ /\ deletes tx = ∅ /\ run = evict_tx h w) \/
  (forall r, r ∈ rs -> GetId (deref (w_heap w) (original r)) = GetId (deref (w_heap w) (t_work r))) /\
  ((~ (rs = [] /\ creates tx = ∅ /\ deletes tx = ∅) /\ run = commit_locked types GetId gob_encode gob_encode_rows env h tx rs plan_values w) \/
   (exists r db, rs = [r] /\ creates tx = ∅ /\ deletes tx = ∅ /\ w_dbs w !! dbName r = Some db /\ secondary db = ∅ /\
      run = commitSingleWrite types GetId gob_encode env h r w)).
Proof.
  intros Eh Hval rs run. pattern run. match goal with |- ?P run => set (Q := P) end. unfold run, commit.
  eapply run_bind; [unfold find_tx, lift; by rewrite Eh|].
  destruct (negb (active tx)); [left; by eexists|]. eapply run_bind; [reflexivity|]. cbv beta zeta. change (changedResources _ _ _ _) with rs.
  set (structural := negb (bool_decide (creates tx = ∅)) || negb (bool_decide (deletes tx = ∅))).
  assert (structural = false <-> creates tx = ∅ /\ deletes tx = ∅) as Hst.
  { unfold structural. by rewrite orb_false_iff, !negb_false_iff, !bool_decide_eq_true. }
  destruct (bool_decide (rs = []) && negb structural) eqn:Enone.
  { apply andb_true_iff in Enone as [Ers%bool_decide_eq_true Es%negb_true_iff]. apply Hst in Es as [Ec Ed]. right. by left. }
  assert (~ (rs = [] /\ creates tx = ∅ /\ deletes tx = ∅)) as Hsome.
  { intros (Ers & Hcd). apply Hst in Hcd. rewrite Hcd, Ers in Enone. done. }
  assert (forall r : outcome unit, (forall b, r <> Ok b) -> Q (w, r)) as Hno by (intros r Hr; left; by eexists).
  apply run_lift; [|done]. intros changed Hch. cbv beta in Hch. eapply run_bind; [reflexivity|]. cbv beta.
  specialize (Hval changed Hch). fold rs in Hval.
  assert (changed = false) as -> by (destruct changed; [by destruct Hval|done]).
  eapply (run_bind _ _ _ _ _ (rs, plan_values)); [by destruct (transactionGraphAccess _ _ _ _ _)|]. cbv beta iota.
  assert (forall r, r ∈ rs -> GetId (deref (w_heap w) (original r)) = GetId (deref (w_heap w) (t_work r))) as Hids.
  { intros r Hr. unfold resourcesChangeRelationGraph in Hch. destruct (registryHasRelations _ _) as [hr| |]; [|done..]. by eapply resources_keep_ids. }
  apply run_lift; [|done]. intros single Hs. cbv beta in Hs.
  assert (Q (commit_locked types GetId gob_encode gob_encode_rows env h tx rs plan_values w)) as Hlocked by (right; right; split; [done|by left]).
  destruct rs as [|r [|r' rs']] eqn:Ers; [injection Hs as <-; exact Hlocked| |injection Hs as <-; exact Hlocked].
  destruct structural; [injection Hs as <-; exact Hlocked|]. unfold committerFor in Hs.
  destruct (w_dbs w !! dbName r) as [db|] eqn:Edb; [|done]. cbn in Hs. injection Hs as <-.
  destruct (bool_decide_reflect (secondary db = ∅)) as [Esec|]; [|exact Hlocked]. destruct (proj1 Hst eq_refl) as [Ec Ed].
  right. right. split; [done|]. right. by exists r, db.
Qed.

Lemma commit_atomic env h tx w :
  states (w_engine w) !! h = Some tx -> tables_ok GetId w -> tx_ok GetId w tx -> values_only types GetId w tx ->
  atomic (committed types GetId w tx) (commit types GetId gob_encode gob_encode_rows env h) w.
Proof.
  intros Eh Hok Htx Hval. unfold atomic.
  destruct (commit_cases env h tx w Eh Hval) as [(r & -> & Hr)|[(Ers & Ec & Ed & ->)|(Hids & [(_ & ->)|(r & db & Ers & Ec & Ed & Edb & Esec & ->)])]].
  - destruct r as [[]| |]; [done|apply same_tables_refl..].
  - by apply nothing_committed.
  - by apply commit_locked_atomic.
  - by eapply commitSingleWrite_atomic.
Qed.

(** C1: (atomicity of a commit) Let the tables be consistent, and let the
    transaction hold copies and creates in cells of their own, with values of the
    types of their tables. A commit that leaves the relation graph alone
    either succeeds or fails with every row and version as before. When it
    succeeds, every row it changes, creates or deletes was as the transaction
    last saw it, and the rows afterwards are exactly the old rows with the
    transaction's changes at the next version, its creates at version 0 and
    its deletes gone (a row it deletes is gone also when it changed or created
    it). The stores stay sound either way. After a failure the indexes of every
    table describe exactly its rows; after a success they do if the transaction
    deletes no row that it also changed or created (such a delete may erase a
    lookup of another row, see [delete_erases_unique_lookup]). *)
Theorem commit_all_or_nothing env h tx w w' r :
  states (w_engine w) !! h = Some tx -> tables_ok GetId w -> tx_ok GetId w tx -> values_only types GetId w tx ->
  commit types GetId gob_encode gob_encode_rows env h w = (w', r) ->
  stores_ok GetId w' /\
  match r with
  | Ok _ => current types GetId w tx /\
      (forall k, row w' k = committed_row w (changedResources types GetId (w_heap w) (copyResources tx)) (creates tx) (dom (deletes tx)) k) /\
      (deletes_apart types GetId w tx -> indexes_in_step GetId w')
  | _ => (forall k, row w' k = row w k) /\ indexes_in_step GetId w'
  end.
Proof.
  intros Eh Hok Htx Hval E. pose proof (commit_atomic env h tx w Eh Hok Htx Hval) as H. unfold atomic in H. rewrite E in H.
  assert (same_tables w w' -> stores_ok GetId w' /\ (forall k, row w' k = row w k) /\ indexes_in_step GetId w') as Hsame.
  { intros Hs. destruct (same_tables_ok GetId w w' Hs Hok) as [Hw' Hi']. split_and!; [done| |done]. intros k. unfold row.
    by rewrite (same_cell_row GetId w w') by (apply Hok || by apply same_tables_rows). }
  destruct r; [|by apply Hsame..]. by destruct H as (H1 & H2 & H3 & H4).
Qed.
End theorem.

(** ** A process with one table

    Accounts with a unique e-mail address. *)
Definition account_types : typeEnv :=
  {[ "Account" := entity [{| fname := "Email"; ftype := TBasic "string" KString; exported := true; tag := [("key", "unique")] |}] ]}.
Definition account (id : Z) (email : string) : goval := VStruct [VInt id; VString email].
Definition account_id (e : goval) : Z := match e with VStruct (VInt id :: _) => id | _ => 0%Z end.
Definition account_world : world :=
  {| w_heap := ∅; w_dbs := ∅; w_closed := {[ "Account" := newChunkStore ]}; w_engine := {| bind := ∅; states := ∅ |};
     w_committed := resetCommittedOwnership; w_participants := ∅; w_files := ∅; w_shared := openTransactionWAL "transactions.wal";
     w_tower := {| t_replica := None; t_replicas := ∅ |} |}.
Definition no_encoder (t : gotype) (v : goval) : outcome (list byte) := Panic.
Definition no_rows_encoder (d : structDef) (v : list goval) : outcome (list byte) := Panic.
Definition append_calm : append_env := {| mkdir_error := None; open_error := None; write_error := None; WalLog.written := 0; sync_error := None |}.
Definition truncate_calm : truncate_env := {| close_error := None; remove_error := None |}.
Definition commit_calm : commit_env :=
  {| ev_append := append_calm; ev_truncate := truncate_calm;
     ev_save := fun _ => {| sv_mkdir := None; sv_truncate := truncate_calm;
       sv_chunk := fun _ => {| ce_create := None; ce_partial := []; ce_sync := None; ce_close := None; ce_rename := None; ce_remove_fails := false |} |} |}.

Definition new_entity (v : goval) : st (option loc) := heap_step (fun w => let '(heap, l) := new_cell (w_heap w) v in Ok (heap, Some l)).
Definition new_account (id : Z) (email : string) : st unit :=
  entity ← new_entity (account id email);
  Create account_types account_id no_encoder no_rows_encoder commit_calm "Account" entity.
Definition emails (w : world) : list (Z * goval) :=
  omap (fun id => (fun v => (id, v.1)) <$> row w {| key_typ := "Account"; key_id := id |}) [1; 2; 3]%Z.
Definition opened_accounts : st unit := Open_ account_types account_id "Account" "Account" 0.
(** Account 2 takes the address of account 1 and is deleted, in one
    transaction; then a third account asks for the address. *)
Definition lost_lookup : st unit :=
  _ ← opened_accounts;
  _ ← new_account 1 "ann";
  _ ← new_account 2 "bob";
  _ ← Transaction_ account_types account_id no_encoder no_rows_encoder commit_calm (fun h =>
        l ← get_in account_types account_id h "Account" 2;
        _ ← on_heap (fun w => Ok (<[l := account 2 "ann"]> (w_heap w)));
        delete_in h "Account" 2);
  new_account 3 "ann".

(** C29 (a defect): A commit writes a changed copy also into a row it deletes,
    and then takes the row out of the unique indexes under its new key, which
    no check has seen. If the key is that of another row, the lookup of that
    row is erased, and a later create with the same key, refused before, is
    accepted: two rows have one unique key. *)
Theorem delete_erases_unique_lookup :
  let refused := (_ ← opened_accounts; _ ← new_account 1 "ann"; new_account 3 "ann") account_world in
  let accepted := lost_lookup account_world in
  refused.2 = Fail ErrUniqueViolation /\ emails refused.1 = [(1%Z, account 1 "ann")] /\
  accepted.2 = Ok tt /\ emails accepted.1 = [(1%Z, account 1 "ann"); (3%Z, account 3 "ann")].
Proof. vm_compute. auto. Qed.

(** ** Witnesses *)

Section fresh.
Context (GetId : goval -> Z).

(** A process whose tables are empty. *)
Lemma fresh_tables_ok w : (forall t db, w_dbs w !! t = Some db -> Table.name db = t /\ store db = newChunkStore /\ resById db = ∅ /\
    map_Forall (fun _ x => exists s, spec_shape s /\ x = newSecondaryIndex s) (secondary db)) -> tables_ok GetId w.
Proof.
  intros H. split.
  - split.
    + intros t db E. by destruct (H t db E) as (? & _).
    + intros t db E. destruct (H t db E) as (_ & Es & Er & _). split; rewrite Es.
      * apply newChunkStore_wf.
      * intros id r. by rewrite Er, lookup_empty.
      * intros l Hl. apply elem_of_nil in Hl. done.
    + intros t t' db db' l E _ _ Hl. destruct (H t db E) as (_ & Es & _). unfold owned in Hl. rewrite Es in Hl. by apply elem_of_nil in Hl.
  - intros t db E. destruct (H t db E) as (_ & Es & Er & Hsec).
    assert (rowCells db = ∅) as ->. { apply map_eq. intros id. unfold rowCells. by rewrite Er, lookup_omap, !lookup_empty. }
    assert (residents ∅ = []) as Hnil by done.
    split.
    + intros id l. by rewrite lookup_empty.
    + intros name x Hx. by destruct (Hsec name x Hx) as (s & Hs & ->).
    + intros name x Hx. rewrite Hnil. constructor.
    + intros name x Hx. rewrite Hnil. destruct (Hsec name x Hx) as (s & Hs & ->). split; [split; [done|constructor]|].
      intros _. split; [by intros l ?%elem_of_nil|]. intros e id He Hu. by rewrite uniqueID_new in Hu.
Qed.
End fresh.

(** The open table, with the create of account 1 staged. *)
Definition email_spec : secondaryIndexSpec :=
  {| si_name := "Email"; si_fields := [{| sf_name := "Email"; sf_index := 1; sf_typ := TBasic "string" KString; sf_order := 1 |}];
     si_unique := true; lookupField := "Email" |}.
Definition account_db : DB :=
  {| Table.name := "Account"; counter := 1; store := newChunkStore; persistQueue := []; deleteQueue := [];
     secondary := {[ "Email" := newSecondaryIndex email_spec ]}; resById := ∅; db_wal := openWAL "Account/wal.log"; snapshots := ∅; epoch := 1 |}.
Definition ann : nodeKey := {| key_typ := "Account"; key_id := 1 |}.
Definition staged_tx : transactionState :=
  {| active := true; Transaction.resource := None; resources := []; resourcePos := None; bindings := [];
     creates := {[ ann := 1%positive ]}; deletes := ∅ |}.
Definition staged_world : world :=
  {| w_heap := {[ 1%positive := account 1 "ann" ]}; w_dbs := {[ "Account" := account_db ]}; w_closed := ∅;
     w_engine := {| bind := ∅; states := {[ 1%positive := staged_tx ]} |};
     w_committed := resetCommittedOwnership; w_participants := ∅; w_files := ∅; w_shared := openTransactionWAL "transactions.wal";
     w_tower := {| t_replica := None; t_replicas := ∅ |} |}.

Lemma staged_table t db : w_dbs staged_world !! t = Some db -> t = "Account"%string /\ db = account_db.
Proof. intros H. cbn in H. by apply lookup_singleton_Some in H as [<- <-]. Qed.
Lemma account_index name x : secondary account_db !! name = Some x -> x = newSecondaryIndex email_spec.
Proof. intros H. cbn in H. by apply lookup_singleton_Some in H as [_ <-]. Qed.

Lemma staged_tables_ok : tables_ok account_id staged_world.
Proof.
  apply fresh_tables_ok. intros t db [-> ->]%staged_table. split_and!; [done..|].
  intros name x ->%account_index. exists email_spec. split; [|done]. intros _. by eexists.
Qed.
Lemma staged_tx_ok : tx_ok account_id staged_world staged_tx.
Proof.
  split.
  - split; [constructor|done|done].
  - intros r Hr. by apply elem_of_nil in Hr.
  - intros k l Hk. cbn in Hk. apply lookup_singleton_Some in Hk as [<- <-]. split.
    + split; [by eexists|]. intros t db [-> ->]%staged_table Hl. by apply elem_of_nil in Hl.
    + split_and!; [done|done|]. intros db [_ ->]%staged_table name x ->%account_index. by repeat constructor.
Qed.

Lemma commit_all_or_nothing_witness :
  exists w', commit account_types account_id no_encoder no_rows_encoder commit_calm 1 staged_world = (w', Ok tt) /\
    tables_ok account_id w' /\ row w' ann = Some (account 1 "ann", 0%Z).
Proof.
  destruct (commit account_types account_id no_encoder no_rows_encoder commit_calm 1 staged_world) as [w' r] eqn:E.
  assert (values_only account_types account_id staged_world staged_tx) as Hv.
  { intros changed Hc. vm_compute in Hc. injection Hc as <-. vm_compute. discriminate. }
  assert (r = Ok tt) as -> by (pose proof (f_equal snd E) as Er; vm_compute in Er; by symmetry).
  destruct (commit_all_or_nothing account_types account_id no_encoder no_rows_encoder commit_calm 1 staged_tx staged_world w' (Ok tt)
    eq_refl staged_tables_ok staged_tx_ok Hv E) as (Hok & _ & Hrow & Hix).
  exists w'. split; [done|]. split; [split; [exact Hok|]|].
  { apply Hix. intros k Hk. change (deletes staged_tx) with (∅ : gmap nodeKey stagedDelete) in Hk. rewrite lookup_empty in Hk. by destruct Hk. }
  rewrite Hrow. vm_compute. reflexivity.
Defined.
