(* ===== verification/TowerEffect.v ===== *)
(** * What a write through the Tower does

    The commit of a diff writes exactly the fields the callback changed, or
    nothing; the theorem about a whole attempt puts this together with the
    comparison of shadows and rows. The last section shows how an attempt that
    overlaps with another commit takes a later write of the other tree back. *)
From S2P Require Import Prelude GoBytes GoReflect RelationSchema SchemaRows RelationModel RelationGraph CommittedGraph RelationDelta Transaction.
From S2P Require Import WalFrame RowCodec WalLog ChunkStore IndexSpecs SecondaryIndex IndexCommit Storage Table Wiring Aggregate GraphCommit World Commit Api Tower TowerRun CommitSteps CommitEffect.

(** ** Steps that leave the tables alone *)

Definition calm {A} (R : A -> world -> Prop) (m : st A) (w : world) : Prop :=
  match m w with (w', Ok a) => same_tables w w' /\ R a w' | (w', _) => same_tables w w' end.
(** An attempt that settles in [Q], or leaves the tables alone; resources it
    hands over are as [H] says. *)
Definition settles (Q : world -> Prop) (H : list touchedResource -> world -> Prop) (m : st attempt) (w : world) : Prop :=
  match m w with
  | (w', Ok settled) => Q w'
  | (w', Ok (relation_commit rs)) => same_tables w w' /\ H rs w'
  | (w', _) => same_tables w w'
  end.

Lemma calm_bind {A B} (R : A -> world -> Prop) (S : B -> world -> Prop) (m : st A) (f : A -> st B) w :
  calm R m w -> (forall a w', same_tables w w' -> R a w' -> calm S (f a) w') -> calm S (a ← m; f a) w.
Proof.
  unfold calm, mbind, st_bind. destruct (m w) as [w' [a| |]]; [|done..]. intros [Hs Hr] H. specialize (H a w' Hs Hr).
  destruct (f a w') as [w'' [b| |]]; [destruct H; split; [|done]|..]; by eapply same_tables_trans.
Qed.
Lemma settles_bind {A} (R : A -> world -> Prop) Q H (m : st A) (f : A -> st attempt) w :
  calm R m w -> (forall a w', same_tables w w' -> R a w' -> settles Q H (f a) w') -> settles Q H (a ← m; f a) w.
Proof.
  unfold calm, settles, mbind, st_bind. destruct (m w) as [w' [a| |]]; [|done..]. intros [Hs Hr] Hf. specialize (Hf a w' Hs Hr).
  destruct (f a w') as [w'' [[]| |]]; [done| | | |]; [|destruct Hf; split; [|done]|..]; by eapply same_tables_trans.
Qed.
Lemma settles_mono (Q Q' : world -> Prop) (H H' : list touchedResource -> world -> Prop) m w :
  (forall w', Q w' -> Q' w') -> (forall rs w', H rs w' -> H' rs w') -> settles Q H m w -> settles Q' H' m w.
Proof. unfold settles. intros H1 H2. destruct (m w) as [w' [[]| |]]; [auto|done| |done..]. intros []. auto. Qed.
Lemma calm_gets {A} (f : world -> A) w : calm (fun a w' => w' = w /\ a = f w) (gets f) w.
Proof. by split; [apply same_tables_refl|]. Qed.
Lemma calm_lift {A} (f : world -> outcome A) w : calm (fun a w' => w' = w /\ f w = Ok a) (lift f) w.
Proof. unfold calm, lift. destruct (f w); [split; [|done]|..]; apply same_tables_refl. Qed.
Lemma calm_mono {A} (R S : A -> world -> Prop) m w : (forall a w', R a w' -> S a w') -> calm R m w -> calm S m w.
Proof. unfold calm. intros H. destruct (m w) as [w' []]; [|done..]. intros []. auto. Qed.
Lemma tower_same w t : same_tables w (with_tower w t).
Proof. by split. Qed.
Lemma calm_tower (f : world -> Tower) w : calm (fun _ w' => w' = with_tower w (f w)) (modify (fun w => with_tower w (f w))) w.
Proof. split; [apply tower_same|done]. Qed.
Lemma retire_same p w : same_tables w (retire p w).1.
Proof. unfold retire, modify. cbn. case_bool_decide; [apply tower_same|apply same_tables_refl]. Qed.
Lemma calm_retire {A} (R : A -> world -> Prop) p (m : st A) w : calm R m w -> calm R (retire_on_error p m) w.
Proof.
  unfold calm, retire_on_error. destruct (m w) as [w' [a|e|]]; [done| |done]. intros Hs.
  eapply same_tables_trans; [exact Hs|apply retire_same].
Qed.

(** ** Patching *)

Lemma patch_lookup (fs : list nat) (g : nat -> goval) (l : list goval) i :
  length (foldl (fun l i => <[i := g i]> l) l fs) = length l /\
  foldl (fun l i => <[i := g i]> l) l fs !! i = if bool_decide (i ∈ fs /\ i < length l)%nat then Some (g i) else l !! i.
Proof.
  revert l. induction fs as [|j fs IH]; intros l; cbn [foldl].
  { split; [done|]. by rewrite bool_decide_false by (intros [?%elem_of_nil _]; done). }
  destruct (IH (<[j := g j]> l)) as [IH1 IH2]. rewrite length_insert in *. split; [done|]. rewrite IH2.
  destruct (decide (i ∈ fs /\ i < length l)%nat) as [[H1 H2]|Hn].
  - rewrite !bool_decide_true; [done| |done]. split; [by right|done].
  - rewrite (bool_decide_false _ Hn). destruct (decide (i = j)) as [->|Hij].
    + destruct (decide (j < length l)%nat) as [Hl|Hl].
      * rewrite list_lookup_insert_eq by done. rewrite bool_decide_true; [done|]. split; [by left|done].
      * rewrite list_insert_ge by lia. rewrite bool_decide_false; [done|]. by intros [_ ?].
    + rewrite list_lookup_insert_ne by done. rewrite bool_decide_false; [done|]. intros [[?|?]%elem_of_cons ?]; [done|]. by apply Hn.
Qed.
Lemma patch_field heap c i : field_value (patch heap c) i =
  if bool_decide (i ∈ tc_fields c /\ i < length (struct_fields (deref heap (tc_live c))))%nat then cell_field heap (tc_shadow c) i else cell_field heap (tc_live c) i.
Proof.
  unfold patch, field_value at 1. cbn [struct_fields].
  destruct (patch_lookup (tc_fields c) (cell_field heap (tc_shadow c)) (struct_fields (deref heap (tc_live c))) i) as [_ ->].
  by case_bool_decide.
Qed.

Section scalar.
Context (types : typeEnv) (GetId : goval -> Z) (gob_encode : gotype -> goval -> outcome (list byte)).
Context `{!MapOrder nodeKey, !MapOrder string, !MapOrder Z}.
Notation tables_ok := (tables_ok GetId).
Notation stores_ok := (stores_ok GetId).

Lemma extend_same w heap : stores_ok w -> w_heap w ⊆ heap -> same_tables w (with_heap w heap).
Proof.
  intros Hw Hh. split; [done|]. intros t db l E Hl. destruct (owned_alloc GetId (w_heap w) db l) as [v Ev]; [by eapply so_rows|done|].
  cbn. rewrite Ev. by eapply lookup_weaken.
Qed.
Lemma fresh_detached w heap l v : stores_ok w -> w_heap w !! l = None -> heap !! l = Some v -> detached (with_heap w heap) l.
Proof.
  intros Hw Hn Hl. split; [by eexists|]. intros t db E Ho. cbn in E.
  destruct (owned_alloc GetId (w_heap w) db l) as [? ?]; [by eapply so_rows|done|congruence].
Qed.

(** ** The commit of values *)

Lemma delete_nothing w : applyDeletedNodes GetId ∅ w = (w, Ok tt).
Proof.
  unfold applyDeletedNodes. destruct (sorted_tables (w_dbs w)) as [_ Hd]. revert Hd. generalize (SortFunc string_compare (map_range (w_dbs w)).*1).
  intros l Hl. assert (forall t, t ∈ l -> is_Some (w_dbs w !! t)) as H by (intros t Ht; by apply Hl). clear Hl.
  induction l as [|t l IH]; [done|]. cbn [each]. destruct (H t) as [db E]; [by left|].
  assert (on_table t (fun heap db => (heap, relationDelete GetId heap db (ids_of_type t ∅))) w = (w, Ok tt)) as E1.
  { unfold on_table. rewrite E. unfold relationDelete. rewrite bool_decide_true by (unfold ids_of_type; set_solver). cbn.
    unfold with_table. cbn. rewrite insert_id by done. by destruct w. }
  rewrite (bind_Ok _ _ _ _ _ E1). apply IH. intros t' Ht'. apply H. by right.
Qed.

(** The rows after a commit of values alone. *)
Definition values_written (w : world) (rs : list touchedResource) (w' : world) : Prop :=
  tables_ok w' /\ (forall r, r ∈ rs -> snd <$> cell_row w (resource_node r) = Some (ver r)) /\
  forall k, row w' k = match find_key rs k with Some r => Some (deref (w_heap w) (t_work r), (ver r + 1)%Z) | None => row w k end.

Lemma tower_version_quiet r w : quiet (fun _ => snd <$> cell_row w (resource_node r) = Some (ver r)) (tower_version r) w.
Proof.
  unfold tower_version. eapply quiet_bind; [apply quiet_lift|]. intros v. cbn.
  destruct (committerFor (w_dbs w) (dbName r)) as [db| |] eqn:Edb; [|done..]. cbn. intros [= <-].
  destruct (version_row w (dbName r) (t_id r) db Edb) as [_ ->]. case_bool_decide as E; [by split|apply unchanged_refl].
Qed.

Lemma scalar_commit env rs w : tables_ok w -> NoDup (resource_node <$> rs) ->
  (forall r, r ∈ rs -> detached w (t_work r) /\ fits_table GetId w (resource_node r) (deref (w_heap w) (t_work r))) ->
  atomic (values_written w rs) (commitTowerScalarChanges types GetId gob_encode env rs) w.
Proof.
  intros Hok Hnd Hrs. unfold commitTowerScalarChanges. eapply atomic_bind.
  { eapply (quiet_each (fun r => snd <$> cell_row w (resource_node r) = Some (ver r))). intros r _. apply tower_version_quiet. }
  intros [] Hv. cbn beta in Hv. eapply atomic_bind; [apply quiet_gets|]. intros cs ->. cbn beta.
  eapply atomic_bind; [apply quiet_lift|]. intros [] Hval.
  assert (checked GetId w rs ∅ ∅) as Hck.
  { split; [done|done| |intros k l E; by rewrite lookup_empty in E|set_solver|].
    - intros r Hr. destruct (Hrs r Hr) as [H1 H2]. split_and!; [done|by apply Hv|done].
    - intros t items db Et Edb. apply map_range_elem in Et. pose proof (fold_unit_all _ _ Hval _ Et) as E. cbn in E.
      unfold committerFor in E. by rewrite Edb in E. }
  destruct (log_same types gob_encode (ev_append env) (pending_changes (w_heap w) (transactionChanges rs ∅ ∅)) w) as [Hs1 Hh1].
  eapply (atomic_always (fun w' => w_heap w' = w_heap w)); [exact Hs1|exact Hh1|]. clear Hs1 Hh1. intros w1 Hs Hh.
  destruct (apply_changes_ok GetId w1 1 rs ∅ ∅) as (w' & E & Hst & Hix & Hrow); [by eapply checked_same|].
  assert (indexes_in_step GetId w') as Hix' by (apply Hix; intros k ?; set_solver). clear Hix.
  unfold atomic. rewrite <- Hh. unfold apply_changes, finish_values in E. rewrite map_range_empty in E. unfold mbind, st_bind in E |- *.
  destruct (prepareTransactionIndexes _ _ w1) as [w2 [[]| |]]; [|done..].
  destruct (each apply_write rs w2) as [w3 [[]| |]]; [|done..]. cbn [apply_creates] in E. unfold mret, st_ret in E. rewrite delete_nothing in E.
  destruct (finishTransactionIndexes _ _ w3) as [w4 [[]| |]]; [|done..]. injection E as <-. split_and!.
  - destruct Hst as [A B C]. split; [by split|exact Hix'].
  - done.
  - intros k. change (row w4 k) with (row (with_engine w4 (evict (w_engine w4) 1)) k). rewrite Hrow. unfold committed_row.
    rewrite bool_decide_false by apply not_elem_of_empty. rewrite lookup_empty, Hh. destruct (find_key rs k); [done|].
    unfold row. by rewrite (same_cell_row GetId w w1) by (apply Hok || by apply same_tables_rows).
Qed.

(** ** The relation graph of a struct *)

(** The entities a relation field names, as the code reads them. *)
Definition field_ids (heap : gmap loc goval) (r : relationSpec) (v : goval) : list (option Z) :=
  valueID GetId heap <$> (if many r then slice_elems (readable types r v) else [readable types r v]).
Definition same_graph (heap : gmap loc goval) (t : string) (before after : goval) : Prop := forall specs r,
  relationSpecs types t = Ok specs -> r ∈ specs ->
  field_ids heap r (field_value before (fieldIndex r)) = field_ids heap r (field_value after (fieldIndex r)).
(** The cells a field points to. *)
Definition alive (heap : gmap loc goval) (v : goval) : Prop := forall l, VPointer (Some l) ∈ v :: slice_elems v -> is_Some (heap !! l).

Lemma valueID_weaken (h heap : gmap loc goval) v : h ⊆ heap -> (forall l, v = VPointer (Some l) -> is_Some (h !! l)) -> valueID GetId heap v = valueID GetId h v.
Proof. intros Hh H. destruct v as [| | | | | | | | |[l|]|]; try done. cbn. destruct (H l eq_refl) as [x E]. by rewrite E, (lookup_weaken _ _ _ _ E Hh). Qed.
Lemma field_ids_weaken (h heap : gmap loc goval) r v : h ⊆ heap -> alive h v -> field_ids heap r v = field_ids h r v.
Proof.
  intros Hh Ha. assert (forall x l, x ∈ (if many r then slice_elems (readable types r v) else [readable types r v]) -> x = VPointer (Some l) -> is_Some (h !! l)) as H.
  { intros x l Hx ->. apply Ha. unfold readable in Hx. destruct (spec_exported types r).
    - destruct (many r); [by right|]. apply list_elem_of_singleton in Hx as <-. by left.
    - exfalso. destruct (many r), v as [| | | | | |[]| | | |]; cbn in Hx; rewrite ?list_elem_of_singleton in Hx; try done; try by apply elem_of_nil in Hx.
      by apply elem_of_replicate in Hx as [? _]. }
  unfold field_ids. apply list_fmap_ext. intros i x Hx. apply valueID_weaken; [done|]. intros l ->. eapply H; [|done]. by eapply list_elem_of_lookup_2.
Qed.
Lemma equal_ids heap r a b : relationValueEqual GetId heap (readable types r a) (readable types r b) (many r) = true -> field_ids heap r a = field_ids heap r b.
Proof.
  unfold relationValueEqual, field_ids. destruct (many r); cbn [negb].
  - rewrite andb_true_iff, Nat.eqb_eq, forallb_forall. generalize (slice_elems (readable types r a)) (slice_elems (readable types r b)).
    intros l. induction l as [|x l IH]; intros [|y l'] [Hl H]; try done. cbn. f_equal; [|apply IH; split; [by injection Hl|]].
    + specialize (H (x, y) ltac:(by left)). by apply bool_decide_eq_true in H.
    + intros q Hq. apply H. by right.
  - rewrite bool_decide_eq_true. cbn. by intros ->.
Qed.
Lemma any_relations_true ts b t specs : any_relations types ts = Ok b -> t ∈ ts -> relationSpecs types t = Ok specs -> specs <> [] -> b = true.
Proof.
  induction ts as [|t' ts IH]; cbn; intros E Ht Hs Hn; [by apply elem_of_nil in Ht|].
  apply elem_of_cons in Ht as [<-|Ht].
  - rewrite Hs in E. cbn in E. destruct specs; [done|]. cbn in E. congruence.
  - destruct (relationSpecs types t') as [[|s0 sp]| |]; [|cbn in E; congruence|done..]. by apply IH.
Qed.
Lemma graph_unchanged heap (ts : gset string) rs : resourcesChangeRelationGraph types GetId heap ts rs = Ok false ->
  forall r, r ∈ rs -> dbName r ∈ ts -> same_graph heap (dbName r) (deref heap (original r)) (deref heap (t_work r)).
Proof.
  unfold resourcesChangeRelationGraph, registryHasRelations. destruct (any_relations types (set_range ts)) as [hr| |] eqn:Ea; [|done..]. cbn.
  induction rs as [|r0 rs IH]; cbn; [by intros _ r ?%elem_of_nil|].
  destruct (resource_changes_graph types GetId heap ts hr r0) as [[]| |] eqn:E; cbn; [done| |done..].
  intros Hrs r [->|Hr]%elem_of_cons; [|by apply IH]. clear IH Hrs. intros Ht specs sp Hsp Hin.
  assert (hr = true) as -> by (eapply (any_relations_true _ _ _ _ Ea); [by apply set_range_elem|exact Hsp|intros ->; by apply elem_of_nil in Hin]).
  unfold resource_changes_graph in E. unfold deref. destruct (heap !! original r0) as [a|], (heap !! t_work r0) as [b|]; [|done..]. cbn.
  destruct (GetId a =? GetId b)%Z; [|done]. cbn in E. rewrite Hsp in E. cbn in E.
  destruct (existsb _ specs) eqn:Ee; [done|]. clear E.
  assert (forall x, x ∈ specs -> match struct_fields a !! fieldIndex x, struct_fields b !! fieldIndex x with
    | Some a, Some b => relationValueEqual GetId heap (readable types x a) (readable types x b) (many x) | _, _ => false end = true) as H.
  { intros x Hx. apply not_true_iff_false in Ee. apply not_false_iff_true. intros Hn. apply Ee, existsb_exists. exists x. split; [by apply list_elem_of_In|].
    by rewrite Hn. }
  specialize (H sp Hin). unfold field_value. destruct (struct_fields a !! fieldIndex sp) as [x|], (struct_fields b !! fieldIndex sp) as [y|]; [|done..].
  by apply equal_ids.
Qed.

(** ** From changes to rows *)

(** What a diff hands over: the live cell is that of the row, and the patched
    struct has the field types the indexes of the table read. *)
Record change_ok (w : world) (c : towerChange) : Prop := {
  co_row : exists v n, cell_row w (tc_key c) = Some (tc_live c, v, n);
  co_shadow : is_Some (w_heap w !! tc_shadow c);
  co_pointers : forall i, alive (w_heap w) (cell_field (w_heap w) (tc_live c) i) /\ alive (w_heap w) (cell_field (w_heap w) (tc_shadow c) i);
  co_typed : forall db, w_dbs w !! key_typ (tc_key c) = Some db -> map_Forall (fun _ x => entity_typed (spec x) (patch (w_heap w) c)) (secondary db);
}.
Definition find_change (changes : list towerChange) k : option towerChange := List.find (fun c => bool_decide (tc_key c = k)) changes.
Definition published (w : world) (changes : list towerChange) (w' : world) : Prop :=
  tables_ok w' /\ (forall c, c ∈ changes -> same_graph (w_heap w) (key_typ (tc_key c)) (deref (w_heap w) (tc_live c)) (patch (w_heap w) c)) /\
  forall k, row w' k = match find_change changes k with
    | Some c => (fun r => (patch (w_heap w) c, (r.2 + 1)%Z)) <$> row w k | None => row w k end.

(** The resource made of a change. *)
Definition copied (w : world) (heap : gmap loc goval) (c : towerChange) (r : touchedResource) : Prop :=
  resource_node r = tc_key c /\ snd <$> cell_row w (tc_key c) = Some (ver r) /\ w_heap w !! t_work r = None /\
  heap !! t_work r = Some (patch (w_heap w) c) /\ heap !! original r = Some (deref (w_heap w) (tc_live c)).

(** The resources made of changes, when they touch the graph. *)
Definition handed_over (w : world) (changes : list towerChange) (rs : list touchedResource) (w' : world) : Prop :=
  w_dbs w' = w_dbs w /\ w_heap w ⊆ w_heap w' /\ Forall2 (copied w (w_heap w')) changes rs.

Lemma live_alloc w c : stores_ok w -> change_ok w c -> is_Some (w_heap w !! tc_live c).
Proof.
  intros Hw [(v & n & E) _ _ _]. destruct (row_cells _ _ _ E) as (db & Edb & Ec). cbn in Ec.
  rewrite rowCells_resource in Ec. apply fmap_Some in Ec as (slot & Er & ->). eapply (owned_alloc GetId); [by eapply so_rows|].
  eapply resource_owned; [by eapply so_rows|exact Er].
Qed.
Lemma deref_weaken (h heap : gmap loc goval) l : h ⊆ heap -> is_Some (h !! l) -> deref heap l = deref h l.
Proof. intros Hh [v E]. unfold deref. by rewrite E, (lookup_weaken _ _ _ _ E Hh). Qed.
Lemma patch_weaken w heap c : stores_ok w -> change_ok w c -> w_heap w ⊆ heap -> patch heap c = patch (w_heap w) c.
Proof.
  intros Hw Hc Hh. unfold patch, cell_field. rewrite (deref_weaken (w_heap w) heap (tc_live c)), (deref_weaken (w_heap w) heap (tc_shadow c)); [done|done|apply Hc|done|].
  by apply live_alloc.
Qed.
Lemma copied_weaken w heap heap' c r : heap ⊆ heap' -> copied w heap c r -> copied w heap' c r.
Proof. intros Hh (?&?&?&?&?). split_and!; try done; by eapply lookup_weaken. Qed.

Lemma materialize_one w heap acc c heap' rs : stores_ok w -> change_ok w c -> w_heap w ⊆ heap ->
  materialize_change w (heap, acc) c = Ok (heap', rs) -> heap ⊆ heap' /\ exists r, rs = acc ++ [r] /\ copied w heap' c r.
Proof.
  intros Hw Hc Hh. unfold materialize_change. destruct (committerFor (w_dbs w) (key_typ (tc_key c))) as [db| |] eqn:Edb; [|done..]. cbn.
  destruct (version_row w _ (key_id (tc_key c)) _ Edb) as [_ Ev]. rewrite Ev. replace {| key_typ := _; key_id := _ |} with (tc_key c) by (by destruct (tc_key c)).
  destruct (cell_row w (tc_key c)) as [cell|] eqn:Ecell; [|done]. cbn.
  destruct (new_cell heap _) as [h1 l1] eqn:E1. apply new_cell_spec in E1 as [Hn1 ->]. cbn.
  destruct (new_cell _ (patch _ c)) as [h2 l2] eqn:E2. apply new_cell_spec in E2 as [Hn2 ->]. cbn. intros [= <- <-].
  assert (heap ⊆ <[l1:=deref heap (tc_live c)]> heap) as H1 by (by apply insert_subseteq).
  rewrite (patch_weaken w) in * by (try done; by etrans).
  rewrite (deref_weaken (w_heap w)) in * by (try done; by apply live_alloc). split; [etrans; [exact H1|by apply insert_subseteq]|].
  eexists. split; [done|]. unfold copied, resource_node. cbn. split_and!.
  - by destruct (tc_key c).
  - by rewrite Ecell.
  - eapply lookup_weaken_None; [exact Hn2|by etrans].
  - by rewrite lookup_insert_eq.
  - rewrite lookup_insert_ne; [by rewrite lookup_insert_eq|]. intros ->. by rewrite lookup_insert_eq in Hn2.
Qed.

Lemma materialize_fold w changes : stores_ok w -> forall heap acc heap' rs, (forall c, c ∈ changes -> change_ok w c) -> w_heap w ⊆ heap ->
  fold_outcome (materialize_change w) (heap, acc) changes = Ok (heap', rs) ->
  heap ⊆ heap' /\ exists rs', rs = acc ++ rs' /\ Forall2 (copied w heap') changes rs'.
Proof.
  intros Hw. induction changes as [|c changes IH]; intros heap acc heap' rs Hc Hh; cbn [fold_outcome].
  { intros [= <- <-]. split; [done|]. exists []. by rewrite app_nil_r. }
  destruct (materialize_change w (heap, acc) c) as [[h1 acc1]| |] eqn:E1; [|done..]. cbn. intros E.
  destruct (materialize_one w heap acc c h1 acc1 Hw (Hc c ltac:(left)) Hh E1) as (Hs1 & r & -> & Hr).
  destruct (IH h1 (acc ++ [r]) heap' rs (fun c' Hc' => Hc c' ltac:(by right))) as (Hs2 & rs' & -> & Hrs); [by etrans|done|].
  split; [by etrans|]. exists (r :: rs'). rewrite <- app_assoc. split; [done|]. constructor; [by eapply copied_weaken|done].
Qed.

Lemma find_copied w heap changes rs k : Forall2 (copied w heap) changes rs ->
  match find_change changes k, find_key rs k with
  | Some c, Some r => c ∈ changes /\ copied w heap c r /\ tc_key c = k | None, None => True | _, _ => False end.
Proof.
  induction 1 as [|c r changes rs Hr _ IH]; [done|]. unfold find_change, find_key. cbn. rewrite (proj1 Hr).
  case_bool_decide as E; [by split; [left|]|]. fold (find_change changes k) (find_key rs k).
  destruct (find_change changes k), (find_key rs k); [|done..]. destruct IH as [? ?]. by split; [right|].
Qed.
Lemma copied_nodes w heap changes rs : Forall2 (copied w heap) changes rs -> resource_node <$> rs = tc_key <$> changes.
Proof. induction 1 as [|c r changes rs Hr _ IH]; [done|]. cbn. f_equal; [apply Hr|exact IH]. Qed.

Lemma materialize_calm changes w : stores_ok w -> (forall c, c ∈ changes -> change_ok w c) ->
  calm (fun found w' => exists heap, w' = with_heap w heap /\ w_heap w ⊆ heap /\ Forall2 (copied w heap) changes found.1 /\
    (found.2 = false -> forall r, r ∈ found.1 -> GetId (deref heap (original r)) = GetId (deref heap (t_work r)) /\
       (dbName r ∈ opened w -> same_graph heap (dbName r) (deref heap (original r)) (deref heap (t_work r)))))
    (materializeTowerChanges types GetId changes) w.
Proof.
  intros Hw Hc. unfold materializeTowerChanges.
  apply (calm_bind (fun rs w' => exists heap, w' = with_heap w heap /\ w_heap w ⊆ heap /\ Forall2 (copied w heap) changes rs)).
  { unfold calm, heap_step. destruct (fold_outcome (materialize_change w) (w_heap w, []) changes) as [[heap rs]| |] eqn:E; [|apply same_tables_refl..].
    destruct (materialize_fold w changes Hw (w_heap w) [] heap rs Hc ltac:(done) E) as (Hs & rs' & -> & Hrs).
    split; [by apply extend_same|]. by exists heap. }
  intros rs w' _ (heap & -> & Hs & Hrs). eapply calm_bind; [apply calm_lift|]. intros changed w' _ [-> Ech].
  split; [apply same_tables_refl|]. exists heap. split_and!; [done..|]. cbn. intros -> r Hr.
  split; [|by eapply graph_unchanged].
  unfold resourcesChangeRelationGraph in Ech. destruct (registryHasRelations _ _) as [hr| |]; [|done..]. by eapply resources_keep_ids.
Qed.

Lemma alive_patch w c i : change_ok w c -> alive (w_heap w) (field_value (patch (w_heap w) c) i).
Proof. intros Hc. rewrite patch_field. destruct (co_pointers _ _ Hc i) as [? ?]. by case_bool_decide. Qed.
(** What was found of the copies, in the cells the changes came from. *)
Lemma copied_graph w heap c r : change_ok w c -> w_heap w ⊆ heap -> copied w heap c r ->
  same_graph heap (dbName r) (deref heap (original r)) (deref heap (t_work r)) ->
  same_graph (w_heap w) (key_typ (tc_key c)) (deref (w_heap w) (tc_live c)) (patch (w_heap w) c).
Proof.
  intros Hc Hh (Ek & _ & _ & Ep & Eo) Hg specs s Hs Hin. assert (key_typ (tc_key c) = dbName r) as Et by (by rewrite <- Ek).
  rewrite Et in Hs. specialize (Hg specs s Hs Hin). unfold deref in Hg. rewrite Ep, Eo in Hg. cbn in Hg.
  rewrite !(field_ids_weaken (w_heap w) heap) in Hg; [exact Hg|done|by apply alive_patch|done|apply (co_pointers _ _ Hc)].
Qed.

Lemma copied_fits w heap c r : tables_ok w -> change_ok w c -> w_heap w ⊆ heap -> copied w heap c r ->
  GetId (deref heap (original r)) = GetId (deref heap (t_work r)) ->
  detached (with_heap w heap) (t_work r) /\ fits_table GetId (with_heap w heap) (resource_node r) (deref heap (t_work r)).
Proof.
  intros [Hw _] [(v & n & E) _ _ Ht] Hh (Ek & _ & Hn & Hp & Ho) Hid. split; [by eapply fresh_detached|]. rewrite Ek.
  destruct (row_cells _ _ _ E) as (db & Edb & Ec). cbn in Ec. rewrite rowCells_resource in Ec. apply fmap_Some in Ec as (slot & Er & El).
  assert (deref heap (t_work r) = patch (w_heap w) c) as Ew by (unfold deref at 1; by rewrite Hp).
  assert (deref heap (original r) = deref (w_heap w) (tc_live c)) as Eo by (unfold deref at 1; by rewrite Ho).
  unfold resource in Er. destruct (resById db !! key_id (tc_key c)) as [a|] eqn:Ea; [|done].
  destruct (ro_slots _ _ _ (so_rows _ _ Hw _ _ Edb) _ _ Ea) as (slot' & Es & _ & Hi & Hpos). cbn in Er. rewrite Es in Er. injection Er as <-.
  rewrite Ew. split_and!; [|done|by apply Ht]. rewrite <- Ew, <- Hid, Eo, El. done.
Qed.

Lemma publish_settles env p changes w : tables_ok w -> NoDup (tc_key <$> changes) -> (forall c, c ∈ changes -> change_ok w c) ->
  settles (published w changes) (handed_over w changes) (publish_changes types GetId gob_encode env p changes) w.
Proof.
  intros Hok Hnd Hc. pose proof (proj1 Hok) as Hw. unfold publish_changes. eapply settles_bind.
  { by apply calm_retire, materialize_calm. }
  intros [rs changed] w1 Hs1 (heap & -> & Hh & Hrs & Hkeep). cbn [fst snd] in *. destruct changed; [by split; [apply same_tables_refl|]|].
  specialize (Hkeep eq_refl).
  assert (forall c r, c ∈ changes -> r ∈ rs -> copied w heap c r -> dbName r ∈ opened w) as Hopen.
  { intros c r Hin _ (Ek & _). destruct (co_row _ _ (Hc c Hin)) as (v & n & E). destruct (row_cells _ _ _ E) as (db & Edb & _).
    rewrite <- Ek in Edb. by apply elem_of_dom_2 in Edb. }
  assert (atomic (values_written (with_heap w heap) rs) (commitTowerScalarChanges types GetId gob_encode env rs) (with_heap w heap)) as H.
  { apply scalar_commit.
    - by eapply same_tables_ok.
    - by rewrite (copied_nodes _ _ _ _ Hrs).
    - intros r Hr. pose proof Hr as [i Hi]%list_elem_of_lookup. destruct (Forall2_lookup_r _ _ _ _ _ Hrs Hi) as (c & Hci & Hcr).
      eapply copied_fits; [done|apply Hc; by eapply list_elem_of_lookup_2|done|done|]. by apply Hkeep. }
  unfold atomic in H. unfold settles, mbind, st_bind, retire_on_error.
  destruct (commitTowerScalarChanges types GetId gob_encode env rs (with_heap w heap)) as [w2 [[]|e|]]; [|eapply same_tables_trans; [exact H|apply retire_same]|done].
  destruct H as ([[A B C] D] & Hv & Hrow). split; [split; [by split|exact D]|]. split.
  { intros c Hin. pose proof Hin as [i Hi]%list_elem_of_lookup. destruct (Forall2_lookup_l _ _ _ _ _ Hrs Hi) as (r & Hri%list_elem_of_lookup_2 & Hcr).
    eapply copied_graph; [by apply Hc|done|exact Hcr|]. destruct (Hkeep r Hri) as [_ Hg]. by eapply Hg, Hopen. }
  intros k. etrans; [exact (Hrow k)|].
  assert (row (with_heap w heap) k = row w k) as Erow.
  { unfold row. by rewrite (same_cell_row GetId w (with_heap w heap)) by (done || by apply same_tables_rows). }
  pose proof (find_copied w heap changes rs k Hrs) as Hf. destruct (find_change changes k) as [c|], (find_key rs k) as [r|]; [|done..].
  destruct Hf as (_ & (Ek & Ev & _ & Ep & _) & <-). unfold deref. cbn. rewrite Ep. cbn. rewrite <- snd_row in Ev.
  destruct (row w (tc_key c)) as [[v n]|]; [|done]. injection Ev as ->. done.
Qed.
End scalar.

(** ** What a diff finds *)

Section diff.
Context (types : typeEnv) (GetId : goval -> Z) `{!MapOrder nodeKey, !MapOrder string, !MapOrder Z}.
Context (same_bytes : gmap loc goval -> loc -> loc -> list nat -> bool) (other_comparable : string -> bool).
(** Equal memory holds equal values. *)
Hypothesis (same_bytes_sound : forall heap a b run i, same_bytes heap a b run = true -> i ∈ run -> cell_field heap a i = cell_field heap b i).
Notation plan_for := (towerFields types other_comparable).
Notation diff_of := (diffFields types GetId same_bytes).

Lemma segments_keep fs : forall before segs run, run ∈ segs -> exists run', run' ∈ build_segments before segs fs /\ run ⊆ run'.
Proof.
  induction fs as [|f fs IH]; intros before segs run Hr; [by exists run|]. cbn. destruct (negb (segmentEligible f)); [by apply IH|].
  destruct (rev segs) as [|last rest] eqn:E.
  { apply (f_equal (@rev _)) in E. rewrite rev_involutive in E. subst segs. by apply elem_of_nil in Hr. }
  assert (segs = rev rest ++ [last]) as -> by (by rewrite <- (rev_involutive segs), E).
  destruct before; [|apply IH, elem_of_app; by left]. cbn [rev]. apply elem_of_app in Hr as [Hr| ->%list_elem_of_singleton].
  - apply IH, elem_of_app. by left.
  - destruct (IH true (rev rest ++ [last ++ [tf_index f]]) (last ++ [tf_index f])) as (run' & H1 & H2); [apply elem_of_app; right; by left|].
    exists run'. split; [done|]. intros a Ha. apply H2, elem_of_app. by left.
Qed.
Lemma segments_cover fs f : forall before segs, f ∈ fs -> segmentEligible f = true -> exists run, run ∈ build_segments before segs fs /\ tf_index f ∈ run.
Proof.
  induction fs as [|f' fs IH]; intros before segs Hf He; [by apply elem_of_nil in Hf|].
  apply elem_of_cons in Hf as [<-|Hf].
  - cbn. rewrite He. cbn. assert (forall segs' run, run ∈ segs' -> tf_index f ∈ run -> exists run, run ∈ build_segments true segs' fs /\ tf_index f ∈ run) as Hk.
    { intros segs' run H1 H2. destruct (segments_keep fs true segs' run H1) as (run' & ? & Hs). exists run'. split; [done|]. by apply Hs. }
    destruct (rev segs) as [|last rest]; [eapply (Hk _ [tf_index f]); by left|].
    destruct before.
    + eapply (Hk _ (last ++ [tf_index f])); [cbn; apply elem_of_app; right; by left|apply elem_of_app; right; by left].
    + eapply (Hk _ [tf_index f]); [apply elem_of_app; right; by left|by left].
  - cbn. destruct (negb _); [by apply IH|]. destruct (rev segs); [by apply IH|]. destruct before; by apply IH.
Qed.

(** Equal as Go compares them. *)
Definition same_field (heap : gmap loc goval) t (live shadow : loc) (i : nat) : Prop :=
  let a := cell_field heap live i in let b := cell_field heap shadow i in
  a = b \/ relationFieldEqual types heap (field_type types t i) a b = true \/ go_equal (field_type types t i) a b = true.

Lemma unchanged_field heap registered rep n plan f : plan_for (key_typ (bn_key n)) = Ok plan -> f ∈ tp_fields plan -> relational f = false ->
  tf_index f ∉ diff_of heap registered rep n plan -> same_field heap (key_typ (bn_key n)) (bn_live n) (bn_shadow n) (tf_index f).
Proof.
  intros Ep Hf Hr. unfold diffFields, same_field. cbn zeta.
  destruct (tp_equal plan && _) eqn:Eq.
  { intros _. right. right. apply andb_true_iff in Eq as [_ Eq]. rewrite forallb_forall in Eq. apply Eq. by apply list_elem_of_In. }
  set (scal := towerSegmentsEqual _ _ _ _ _). intros Hn.
  destruct (relationFieldEqual types heap (field_type types (key_typ (bn_key n)) (tf_index f)) (cell_field heap (bn_live n) (tf_index f)) (cell_field heap (bn_shadow n) (tf_index f))) eqn:Ef; [by right; left|].
  left. destruct scal eqn:Es.
  - destruct (tf_slice f) eqn:Esl.
    + exfalso. apply Hn, list_elem_of_omap. exists f. split; [done|]. by rewrite Hr, Esl, Ef.
    + unfold towerFields in Ep. destruct (specsByField types _) as [specs| |]; [|done..]. cbn in Ep. destruct (types !! _) as [d|]; [|done].
      injection Ep as <-. cbn in *. destruct (segments_cover (imap (field_plan types specs) (fields d)) f false []) as (run & Hrun & Hi); [done|by unfold segmentEligible; rewrite Hr, Esl|].
      unfold scal, towerSegmentsEqual in Es. rewrite forallb_forall in Es. eapply same_bytes_sound; [|exact Hi]. apply Es. by apply list_elem_of_In.
  - exfalso. apply Hn, list_elem_of_omap. exists f. split; [done|]. rewrite Hr, Ef. by destruct (tf_slice f).
Qed.

(** The field of a struct in its plan. *)
Lemma plan_of_field t plan d specs i f : plan_for t = Ok plan -> types !! t = Some d -> specsByField types t = Ok specs ->
  fields d !! i = Some f -> specs !! fname f = None -> exists g, g ∈ tp_fields plan /\ tf_index g = i /\ relational g = false.
Proof.
  intros Ep Et Es Hf Hs. unfold towerFields in Ep. rewrite Es, Et in Ep. cbn in Ep. injection Ep as <-. cbn.
  exists (field_plan types specs i f). split; [|by unfold field_plan; rewrite Hs].
  apply list_elem_of_lookup. exists i. by rewrite list_lookup_imap, Hf.
Qed.

(** The plan of a field, and what puts a field into a diff. *)
Lemma plan_entry t plan d specs g : plan_for t = Ok plan -> types !! t = Some d -> specsByField types t = Ok specs ->
  g ∈ tp_fields plan -> exists f, fields d !! tf_index g = Some f /\ g = field_plan types specs (tf_index g) f.
Proof.
  intros Ep Et Es Hg. unfold towerFields in Ep. rewrite Es, Et in Ep. cbn in Ep. injection Ep as <-. cbn in Hg.
  apply list_elem_of_lookup in Hg as [j Hj]. rewrite list_lookup_imap in Hj. apply fmap_Some in Hj as (f & Hf & ->).
  assert (tf_index (field_plan types specs j f) = j) as -> by (unfold field_plan; by destruct (specs !! fname f)). by exists f.
Qed.
Lemma diff_reason heap registered rep n plan d specs i f : plan_for (key_typ (bn_key n)) = Ok plan -> types !! key_typ (bn_key n) = Some d ->
  specsByField types (key_typ (bn_key n)) = Ok specs -> fields d !! i = Some f -> i ∈ diff_of heap registered rep n plan ->
  if relational (field_plan types specs i f)
  then relationEqual GetId heap registered (cell_field heap (bn_shadow n) i) (field_plan types specs i f) (tr_relations rep !! (bn_key n, i)) = false
  else relationFieldEqual types heap (field_type types (key_typ (bn_key n)) i) (cell_field heap (bn_live n) i) (cell_field heap (bn_shadow n) i) = false.
Proof.
  intros Ep Et Es Hf. unfold diffFields. cbn zeta. destruct (tp_equal plan && _); [by intros ?%elem_of_nil|].
  intros (g & Hg & E)%list_elem_of_omap. destruct (plan_entry _ _ _ _ _ Ep Et Es Hg) as (f' & Hf' & Eg).
  destruct (if relational g then _ else _) eqn:Eb; [done|]. injection E as <-. rewrite Hf in Hf'. injection Hf' as <-. rewrite <- Eg.
  destruct (relational g); [done|]. destruct (tf_slice g); [done|]. by apply orb_false_iff in Eb as [_ ?].
Qed.
Lemma diff_relation heap registered rep n plan d specs i f r : plan_for (key_typ (bn_key n)) = Ok plan -> types !! key_typ (bn_key n) = Some d ->
  specsByField types (key_typ (bn_key n)) = Ok specs -> fields d !! i = Some f -> specs !! fname f = Some r -> i ∉ diff_of heap registered rep n plan ->
  relationEqual GetId heap registered (cell_field heap (bn_shadow n) i) (field_plan types specs i f) (tr_relations rep !! (bn_key n, i)) = true.
Proof.
  intros Ep Et Es Hf Er. pose proof Ep as Ep'. unfold towerFields in Ep'. rewrite Es, Et in Ep'. cbn in Ep'. injection Ep' as <-. unfold diffFields. cbn zeta.
  rewrite (bool_decide_false (specs = ∅)) by (intros ->; by rewrite lookup_empty in Er). cbn [tp_equal andb]. intros Hn. apply not_false_iff_true. intros Hb.
  apply Hn, list_elem_of_omap. exists (field_plan types specs i f). split; [apply list_elem_of_lookup; exists i; cbn; by rewrite list_lookup_imap, Hf|].
  assert (tf_index (field_plan types specs i f) = i) as -> by (unfold field_plan; by rewrite Er).
  rewrite Hb. unfold field_plan. by rewrite Er.
Qed.

Lemma patch_typed heap c s : entity_typed s (deref heap (tc_live c)) -> entity_typed s (deref heap (tc_shadow c)) -> entity_typed s (patch heap c).
Proof.
  unfold entity_typed. rewrite !Forall_forall. intros H1 H2 f Hf. rewrite patch_field. destruct (H1 f Hf) as [Hi Hl]. split; [done|].
  case_bool_decide; [by apply H2|done].
Qed.
End diff.

(** ** A whole attempt *)

Section attempt.
Context (types : typeEnv) (GetId : goval -> Z) (gob_encode : gotype -> goval -> outcome (list byte)).
Context `{!MapOrder nodeKey, !MapOrder string, !MapOrder Z}.
Context (same_bytes : gmap loc goval -> loc -> loc -> list nat -> bool) (other_comparable : string -> bool) (audit : bool).
Notation tables_ok := (tables_ok GetId).

(** A node of a branch after the callback ran: its live cell is that of its
    row, and its shadow is a cell that holds values of the types of the fields. *)
Record node_ok (w : world) (n : towerBranchNode) : Prop := {
  no_row : exists v m, cell_row w (bn_key n) = Some (bn_live n, v, m);
  no_shape : forall d, types !! key_typ (bn_key n) = Some d -> length (struct_fields (deref (w_heap w) (bn_live n))) = length (fields d);
  no_shadow : is_Some (w_heap w !! bn_shadow n);
  no_typed : forall db, w_dbs w !! key_typ (bn_key n) = Some db ->
    map_Forall (fun _ x => entity_typed (spec x) (deref (w_heap w) (bn_shadow n))) (secondary db);
  no_pointers : forall i, alive (w_heap w) (cell_field (w_heap w) (bn_live n) i) /\ alive (w_heap w) (cell_field (w_heap w) (bn_shadow n) i);
}.
(** What the replica recorded of a relation field when it took the row in, and
    whether the shadow still is as recorded: the id the pointer names, or the
    very elements of the slice. A slice of a type that was never registered
    counts as changed. *)
Definition recorded (w : world) (p : positive) (n : towerBranchNode) (i : nat) : option towerRelationState :=
  rep ← t_replicas (w_tower w) !! p; tr_relations rep !! (bn_key n, i).
Definition as_recorded (w : world) (p : positive) (n : towerBranchNode) (i : nat) (r : relationSpec) : Prop :=
  let v := cell_field (w_heap w) (bn_shadow n) i in
  if many r then slice_registered w (target r) = true /\ exists s, recorded w p n i = Some s /\ rs_many s = Some (slice_elems v)
  else fieldPointerID GetId (w_heap w) v (entityIDFieldIndex types (target r)) =
       (s ← recorded w p n i; if rs_present s then Some (rs_one s) else None).
(** [v] is the struct of the row with the edits of the shadow: a field that
    Go compares as equal, or a relation that is as recorded, is that of the row,
    any other field is that of the shadow. *)
Definition edited (w : world) (p : positive) (n : towerBranchNode) (v : goval) : Prop := forall d specs i f,
  types !! key_typ (bn_key n) = Some d -> specsByField types (key_typ (bn_key n)) = Ok specs -> fields d !! i = Some f ->
  let live := cell_field (w_heap w) (bn_live n) i in let shadow := cell_field (w_heap w) (bn_shadow n) i in
  match specs !! fname f with
  | None =>
      field_value v i = shadow /\ relationFieldEqual types (w_heap w) (field_type types (key_typ (bn_key n)) i) live shadow = false \/
      field_value v i = live /\ same_field types (w_heap w) (key_typ (bn_key n)) (bn_live n) (bn_shadow n) i
  | Some r =>
      field_value v i = shadow /\ ~ as_recorded w p n i r \/ field_value v i = live /\ as_recorded w p n i r
  end.
Notation same_graph := (same_graph types GetId).
(** The end of an attempt that settles. *)
Definition edit_written (w : world) (p : positive) (branch : list towerBranchNode) (w' : world) : Prop :=
  tables_ok w' /\
  (forall n, n ∈ branch -> exists v m v' m', row w (bn_key n) = Some (v, m) /\ row w' (bn_key n) = Some (v', m') /\
    (v' = v /\ m' = m \/ m' = (m + 1)%Z) /\ edited w p n v' /\ same_graph (w_heap w) (key_typ (bn_key n)) v v') /\
  forall k, k ∉ bn_key <$> branch -> row w' k = row w k.
(** The resources handed to a commit of relations. *)
Definition edit_handed (w : world) (p : positive) (branch : list towerBranchNode) (rs : list touchedResource) (w' : world) : Prop :=
  (forall n, n ∈ branch -> match find_key rs (bn_key n) with
    | Some r => row w (bn_key n) = Some (deref (w_heap w') (original r), ver r) /\ edited w p n (deref (w_heap w') (t_work r))
    | None => edited w p n (deref (w_heap w) (bn_live n)) end) /\
  NoDup (resource_node <$> rs) /\ forall r, r ∈ rs -> resource_node r ∈ bn_key <$> branch.

Lemma equal_as_recorded w p rep n i specs f r : t_replicas (w_tower w) !! p = Some rep -> specs !! fname f = Some r ->
  relationEqual GetId (w_heap w) (slice_registered w) (cell_field (w_heap w) (bn_shadow n) i) (field_plan types specs i f) (tr_relations rep !! (bn_key n, i)) = true <->
  as_recorded w p n i r.
Proof.
  intros Ep Er. unfold as_recorded, recorded, field_plan, relationEqual. rewrite Ep, Er. cbn -[slice_registered fieldPointerID entityIDFieldIndex].
  destruct (many r); cbn -[slice_registered fieldPointerID entityIDFieldIndex].
  - destruct (slice_registered w (target r)); [|naive_solver]. destruct (tr_relations rep !! _) as [s|]; cbn; [|naive_solver].
    destruct (rs_many s) as [l|] eqn:El; [rewrite bool_decide_eq_true|]; naive_solver.
  - destruct (tr_relations rep !! _) as [s|]; cbn -[fieldPointerID entityIDFieldIndex];
      destruct (fieldPointerID _ _ _ _) as [id|]; try destruct (rs_present s); cbn; try done; rewrite ?Z.eqb_eq; naive_solver.
Qed.

Definition change_of (w : world) (rep : towerReplica) (n : towerBranchNode) : option towerChange :=
  match towerFields types other_comparable (key_typ (bn_key n)) with
  | Ok plan =>
      let fs := diffFields types GetId same_bytes (w_heap w) (slice_registered w) rep n plan in
      if (0 <? length fs)%nat then Some {| tc_key := bn_key n; tc_live := bn_live n; tc_shadow := bn_shadow n; tc_fields := fs |} else None
  | _ => None
  end.
Lemma diff_changes w rep branch : forall acc changes, fold_outcome (diff_node types GetId same_bytes other_comparable w rep) acc branch = Ok changes ->
  changes = acc ++ omap (change_of w rep) branch /\ forall n, n ∈ branch -> exists plan, towerFields types other_comparable (key_typ (bn_key n)) = Ok plan.
Proof.
  induction branch as [|n branch IH]; intros acc changes; cbn [fold_outcome].
  { intros [= <-]. split; [by rewrite app_nil_r|]. by intros n ?%elem_of_nil. }
  cbn [omap list_omap]. destruct (diff_node _ _ _ _ w rep acc n) as [acc'| |] eqn:En; [|discriminate..].
  intros E. change (fold_outcome (diff_node types GetId same_bytes other_comparable w rep) acc' branch = Ok changes) in E.
  unfold diff_node in En. unfold change_of at 1. destruct (towerFields types other_comparable (key_typ (bn_key n))) as [plan| |] eqn:Ep; [|discriminate..].
  injection En as <-.
  destruct (IH _ _ E) as [-> Hp]. split.
  - destruct (0 <? _)%nat; [by rewrite <- app_assoc|done].
  - intros n' [->|Hn']%elem_of_cons; [by exists plan|by apply Hp].
Qed.

Lemma change_of_fields w rep n c : change_of w rep n = Some c -> tc_key c = bn_key n /\ tc_live c = bn_live n /\ tc_shadow c = bn_shadow n.
Proof. unfold change_of. destruct (towerFields _ _ _); [|done..]. cbn zeta. destruct (0 <? _)%nat; [|done]. by intros [= <-]. Qed.
Lemma changes_sublist w rep branch : tc_key <$> omap (change_of w rep) branch `sublist_of` bn_key <$> branch.
Proof.
  induction branch as [|n branch IH]; cbn; [done|].
  destruct (change_of w rep n) as [c|] eqn:E; [|by apply sublist_cons]. cbn. rewrite (proj1 (change_of_fields _ _ _ _ E)). by apply sublist_skip.
Qed.
Lemma changes_keys w rep branch : NoDup (bn_key <$> branch) -> NoDup (tc_key <$> omap (change_of w rep) branch).
Proof. intros H. eapply sublist_NoDup; [exact H|]. apply changes_sublist. Qed.
Lemma find_change_outside w rep branch k : k ∉ bn_key <$> branch -> find_change (omap (change_of w rep) branch) k = None.
Proof.
  intros Hk. destruct (find_change _ k) as [c|] eqn:E; [|done]. apply List.find_some in E as [Hin Ek%bool_decide_eq_true].
  apply list_elem_of_In, list_elem_of_omap in Hin as (n & Hn & E). destruct Hk. rewrite <- Ek, (proj1 (change_of_fields _ _ _ _ E)). by apply list_elem_of_fmap_2.
Qed.
Lemma find_change_of w rep branch n : NoDup (bn_key <$> branch) -> n ∈ branch -> find_change (omap (change_of w rep) branch) (bn_key n) = change_of w rep n.
Proof.
  induction branch as [|n' branch IH]; [by intros _ ?%elem_of_nil|]. cbn. intros [Hk Hnd]%NoDup_cons Hn.
  assert (forall c, change_of w rep n' = Some c -> tc_key c = bn_key n') as Hc by (intros c E; by apply (change_of_fields _ _ _ _ E)).
  apply elem_of_cons in Hn as [->|Hn].
  - destruct (change_of w rep n') as [c|] eqn:E; [|by apply find_change_outside]. unfold find_change. cbn. rewrite bool_decide_true by (by apply Hc). done.
  - assert (bn_key n' <> bn_key n) as Hne by (intros Heq; apply Hk; rewrite Heq; by apply list_elem_of_fmap_2).
    destruct (change_of w rep n') as [c|] eqn:E; [|by apply IH]. unfold find_change. cbn. rewrite bool_decide_false; [by apply IH|].
    by rewrite (Hc c eq_refl).
Qed.

Lemma change_ok_of w rep n c : tables_ok w -> node_ok w n -> change_of w rep n = Some c -> change_ok w c.
Proof.
  intros [Hw Hi] Hn E. destruct (change_of_fields _ _ _ _ E) as (Ek & El & Es). destruct (no_row _ _ Hn) as (v & m & Ec).
  split; rewrite ?Ek, ?El, ?Es; [by exists v, m|apply Hn|apply Hn|]. intros db Edb name x Hx. apply patch_typed; rewrite ?El, ?Es; [|by eapply (no_typed _ _ Hn)].
  pose proof (indexes_typed _ _ _ _ (Hi _ _ Edb) name x Hx) as Ht. rewrite Forall_forall in Ht. apply Ht.
  destruct (row_cells _ _ _ Ec) as (db' & Edb' & Er). rewrite Edb in Edb'. injection Edb' as <-. apply elem_of_residents. by exists (key_id (bn_key n)).
Qed.

Hypothesis (same_bytes_sound : forall heap a b run i, same_bytes heap a b run = true -> i ∈ run -> cell_field heap a i = cell_field heap b i).

Lemma change_edited w p rep n plan : t_replicas (w_tower w) !! p = Some rep ->
  towerFields types other_comparable (key_typ (bn_key n)) = Ok plan -> node_ok w n ->
  edited w p n (match change_of w rep n with Some c => patch (w_heap w) c | None => deref (w_heap w) (bn_live n) end).
Proof.
  intros Erep Ep Hn d specs i f Et Es Hf. cbn zeta.
  assert (i < length (struct_fields (deref (w_heap w) (bn_live n))))%nat as Hi by (rewrite (no_shape _ _ Hn d Et); by eapply lookup_lt_Some).
  set (fs := diffFields types GetId same_bytes (w_heap w) (slice_registered w) rep n plan).
  assert (field_value (match change_of w rep n with Some c => patch (w_heap w) c | None => deref (w_heap w) (bn_live n) end) i =
    if bool_decide (i ∈ fs) then cell_field (w_heap w) (bn_shadow n) i else cell_field (w_heap w) (bn_live n) i) as ->.
  { unfold change_of. rewrite Ep. cbn zeta. fold fs. destruct (0 <? length fs)%nat eqn:El.
    - rewrite patch_field. cbn [tc_fields tc_live tc_shadow]. by rewrite (bool_decide_ext (i ∈ fs /\ _) (i ∈ fs)) by tauto.
    - rewrite bool_decide_false; [done|]. destruct fs; [apply not_elem_of_nil|done]. }
  pose proof (diff_reason types GetId same_bytes other_comparable (w_heap w) (slice_registered w) rep n plan d specs i f Ep Et Es Hf) as Hin.
  destruct (specs !! fname f) as [r|] eqn:Er.
  - rewrite <- (equal_as_recorded w p rep n i specs f r Erep Er). case_bool_decide as Hd; [left|right]; (split; [done|]).
    + specialize (Hin Hd). unfold field_plan at 1 in Hin. rewrite Er in Hin. cbn [relational] in Hin. by rewrite Hin.
    + by eapply diff_relation.
  - case_bool_decide as Hd; [left|right]; (split; [done|]).
    + specialize (Hin Hd). unfold field_plan in Hin. rewrite Er in Hin. exact Hin.
    + destruct (plan_of_field _ _ _ _ _ _ _ _ Ep Et Es Hf Er) as (g & Hg & <- & Hr). by eapply unchanged_field.
Qed.

Lemma published_edit w p rep branch changes w' : t_replicas (w_tower w) !! p = Some rep -> NoDup (bn_key <$> branch) -> (forall n, n ∈ branch -> node_ok w n) ->
  fold_outcome (diff_node types GetId same_bytes other_comparable w rep) [] branch = Ok changes ->
  published types GetId w changes w' -> edit_written w p branch w'.
Proof.
  intros Erep Hnd Hn E (Hok & Hgr & Hrow). destruct (diff_changes w rep branch [] changes E) as [-> Hp]. cbn [app] in *. split; [done|]. split.
  - intros n Hin. destruct (no_row _ _ (Hn n Hin)) as (v & m & Ec), (Hp n Hin) as [plan Ep].
    pose proof (deref_of _ _ _ _ _ Ec) as <-. pose proof (change_edited w p rep n plan Erep Ep (Hn n Hin)) as Hr.
    assert (row w (bn_key n) = Some (deref (w_heap w) (bn_live n), m)) as Er by (unfold row; by rewrite Ec).
    specialize (Hrow (bn_key n)). rewrite find_change_of in Hrow by done. rewrite Er in Hrow. destruct (change_of w rep n) as [c|] eqn:Ech.
    + eexists _, m, _, (m + 1)%Z. split_and!; [exact Er|exact Hrow|by right|done|].
      destruct (change_of_fields _ _ _ _ Ech) as (<- & <- & _). apply Hgr, list_elem_of_omap. by exists n.
    + eexists _, m, _, m. split_and!; [exact Er|exact Hrow|by left|done|by intros ?].
  - intros k Hk. by rewrite Hrow, find_change_outside.
Qed.
Lemma handed_edit w p rep branch changes rs w' : t_replicas (w_tower w) !! p = Some rep -> NoDup (bn_key <$> branch) -> (forall n, n ∈ branch -> node_ok w n) ->
  fold_outcome (diff_node types GetId same_bytes other_comparable w rep) [] branch = Ok changes ->
  handed_over w changes rs w' -> edit_handed w p branch rs w'.
Proof.
  intros Erep Hnd Hn E (_ & Hh & Hrs). destruct (diff_changes w rep branch [] changes E) as [-> Hp]. cbn [app] in *. split_and!.
  - intros n Hin. destruct (no_row _ _ (Hn n Hin)) as (v & m & Ec), (Hp n Hin) as [plan Ep].
    pose proof (change_edited w p rep n plan Erep Ep (Hn n Hin)) as Hr.
    pose proof (find_copied w _ _ _ (bn_key n) Hrs) as Hf. rewrite find_change_of in Hf by done.
    destruct (change_of w rep n) as [c|] eqn:Ech, (find_key rs (bn_key n)) as [r|]; [|done..].
    destruct Hf as (_ & (_ & Ev & _ & Ew & Eo) & Ek). destruct (change_of_fields _ _ _ _ Ech) as (_ & El & _).
    assert (deref (w_heap w') (t_work r) = patch (w_heap w) c) as -> by (unfold deref at 1; by rewrite Ew).
    assert (deref (w_heap w') (original r) = deref (w_heap w) (tc_live c)) as -> by (unfold deref at 1; by rewrite Eo).
    split; [|done]. rewrite Ek, Ec in Ev. injection Ev as <-. unfold row. rewrite Ec, El. cbn. by rewrite (deref_of _ _ _ _ _ Ec).
  - rewrite (copied_nodes _ _ _ _ Hrs). by apply changes_keys.
  - intros r Hr. apply (list_elem_of_fmap_2 resource_node) in Hr. rewrite (copied_nodes _ _ _ _ Hrs) in Hr.
    eapply elem_of_sublist; [exact Hr|apply changes_sublist].
Qed.

(** ** What is compared *)

(** The nodes of the branch, or the root and the declared nodes. *)
Definition compared (p : positive) (root : nodeKey) (decl : option (list nodeKey)) : st (list towerBranchNode) :=
  match decl with
  | None => branchFor p root
  | Some keys => rep ← replica_at p; lift (fun w => fold_outcome (fun out key => n ← branchNode w rep key; Ok (out ++ [n])) [] (first_keys ∅ (root :: keys)))
  end.

(** Worlds that differ in caches. *)
Record same_view (p : positive) (w w2 : world) : Prop := {
  sv_heap : w_heap w2 = w_heap w; sv_dbs : w_dbs w2 = w_dbs w; sv_closed : w_closed w2 = w_closed w;
  sv_recorded : tr_relations <$> t_replicas (w_tower w2) !! p = tr_relations <$> t_replicas (w_tower w) !! p;
}.
Lemma same_view_refl p w : same_view p w w.
Proof. done. Qed.
Lemma view_tables p w w2 : same_view p w w2 -> same_tables w w2.
Proof. intros [Hh Hd _ _]. split; [intros t; by rewrite Hd|]. intros t db l _ _. by rewrite Hh. Qed.
Lemma cell_row_view p w w2 k : same_view p w w2 -> cell_row w2 k = cell_row w k.
Proof. intros [Hh Hd _ _]. unfold cell_row. by rewrite Hh, Hd. Qed.
Lemma node_ok_view p w w2 n : same_view p w w2 -> node_ok w n -> node_ok w2 n.
Proof. intros Hv [A B C D E]. pose proof Hv as [Hh Hd _ _]. split; rewrite ?Hh, ?Hd; [|done..]. by rewrite (cell_row_view p w w2). Qed.
Lemma registered_view p w w2 t : same_view p w w2 -> slice_registered w2 t = slice_registered w t.
Proof. intros [_ Hd Hc _]. unfold slice_registered. by rewrite Hd, Hc. Qed.
Lemma recorded_view p w w2 n i : same_view p w w2 -> recorded w2 p n i = recorded w p n i.
Proof.
  intros [_ _ _ Hr]. unfold recorded. destruct (t_replicas (w_tower w2) !! p), (t_replicas (w_tower w) !! p); try done. cbn in *. by injection Hr as ->.
Qed.
Lemma edited_view p w w2 n v : same_view p w w2 -> edited w2 p n v -> edited w p n v.
Proof.
  intros Hv. unfold edited, as_recorded. intros H d specs i f Et Es Hf. specialize (H d specs i f Et Es Hf). cbn zeta in *.
  rewrite (sv_heap _ _ _ Hv) in H. destruct (specs !! fname f) as [r|]; [|done]. by rewrite (registered_view p w w2), (recorded_view p w w2) in H.
Qed.
Lemma edit_written_view p w w2 branch w' : same_view p w w2 -> edit_written w2 p branch w' -> edit_written w p branch w'.
Proof.
  intros Hv. assert (forall k, row w2 k = row w k) as Hr by (intros k; unfold row; by rewrite (cell_row_view p w w2)).
  unfold edit_written. rewrite (sv_heap _ _ _ Hv). intros (A & B & C). split_and!; [done| |intros k Hk; rewrite <- Hr; by apply C].
  intros n Hn. destruct (B n Hn) as (v & m & v' & m' & E1 & E2 & E3 & E4 & E5). exists v, m, v', m'. rewrite <- Hr. split_and!; try done. by eapply edited_view.
Qed.
Lemma edit_handed_view p w w2 branch rs w' : same_view p w w2 -> edit_handed w2 p branch rs w' -> edit_handed w p branch rs w'.
Proof.
  intros Hv. assert (forall k, row w2 k = row w k) as Hr by (intros k; unfold row; by rewrite (cell_row_view p w w2)).
  unfold edit_handed. rewrite (sv_heap _ _ _ Hv). intros (A & B & C). split_and!; [|done..].
  intros n Hn. specialize (A n Hn). rewrite Hr in A. destruct (find_key rs (bn_key n)); [destruct A; split; [done|]|]; by eapply edited_view.
Qed.

Lemma branchFor_view p root w : same_view p w (branchFor p root w).1.
Proof.
  unfold branchFor, replica_at, mbind, st_bind, lift. destruct (t_replicas (w_tower w) !! p) as [rep|] eqn:Er; [|done].
  destruct (tr_branches rep !! root) as [cached|]; [done|]. unfold branch_keys.
  destruct (committedOwnershipKeys (w_committed w) root) as [[c keys]| |]; [|done..].
  destruct (fold_outcome _ _ keys) as [b| |]; [|done..]. split; [done..|]. cbn. rewrite lookup_alter_eq, Er. cbn. f_equal.
  unfold cache_branch. by destruct (towerBranchCacheLimit <? _)%Z.
Qed.
Lemma diff_node_view p w w2 rep rep2 acc n : same_view p w w2 -> tr_relations rep2 = tr_relations rep ->
  diff_node types GetId same_bytes other_comparable w2 rep2 acc n = diff_node types GetId same_bytes other_comparable w rep acc n.
Proof.
  intros Hv Hr. unfold diff_node, diffFields. rewrite (sv_heap _ _ _ Hv), Hr. destruct (towerFields types other_comparable _) as [plan| |]; [|done..]. cbn zeta.
  assert (slice_registered w2 = slice_registered w) as ->; [|done]. unfold slice_registered. by rewrite (sv_dbs _ _ _ Hv), (sv_closed _ _ _ Hv).
Qed.
Lemma diff_view p w w2 rep rep2 branch : same_view p w w2 -> tr_relations rep2 = tr_relations rep -> forall acc,
  fold_outcome (diff_node types GetId same_bytes other_comparable w2 rep2) acc branch = fold_outcome (diff_node types GetId same_bytes other_comparable w rep) acc branch.
Proof.
  intros Hv Hr. induction branch as [|n branch IH]; intros acc; cbn [fold_outcome]; [done|]. rewrite (diff_node_view p w w2 rep rep2) by done.
  destruct (diff_node _ _ _ _ w rep acc n); [apply IH|done..].
Qed.
(** Comparing while the nodes are looked up. *)
Lemma lookup_diff w rep keys : forall out branch acc changes, fold_outcome (fun out key => n ← branchNode w rep key; Ok (out ++ [n])) out keys = Ok branch ->
  fold_outcome (fun changes key => n ← branchNode w rep key; diff_node types GetId same_bytes other_comparable w rep changes n) acc keys = Ok changes ->
  exists nodes, branch = out ++ nodes /\ fold_outcome (diff_node types GetId same_bytes other_comparable w rep) acc nodes = Ok changes.
Proof.
  induction keys as [|k keys IH]; intros out branch acc changes; cbn [fold_outcome].
  { intros [= <-] [= <-]. exists []. by rewrite app_nil_r. }
  destruct (branchNode w rep k) as [n| |]; [|done..]. cbn [mbind outcome_bind]. intros E1 E2.
  destruct (diff_node types GetId same_bytes other_comparable w rep acc n) as [acc'| |] eqn:En; [|done..].
  destruct (IH (out ++ [n]) branch acc' changes E1 E2) as (nodes & -> & E). exists (n :: nodes). rewrite <- app_assoc. split; [done|]. cbn [fold_outcome]. by rewrite En.
Qed.

Lemma diffFor_found p root decl w w2 branch : compared p root decl w = (w2, Ok branch) ->
  match diffFor types GetId same_bytes other_comparable audit p root decl w with
  | (w3, Ok changes) => same_view p w w3 /\ exists rep, t_replicas (w_tower w3) !! p = Some rep /\
      fold_outcome (diff_node types GetId same_bytes other_comparable w3 rep) [] branch = Ok changes
  | (w3, _) => same_view p w w3
  end.
Proof.
  destruct decl as [keys|]; unfold compared, diffFor.
  - unfold diffNodes, replica_at, lift, mbind, st_bind. destruct (t_replicas (w_tower w) !! p) as [rep|] eqn:Er; [|done].
    destruct (fold_outcome (fun (out : list towerBranchNode) key => _) [] _) as [b| |] eqn:Eb; [|done..]. intros [= _ <-].
    destruct (fold_outcome (fun (changes : list towerChange) key => _) [] _) as [changes| |] eqn:Ec; [|done..].
    destruct (lookup_diff w rep _ [] b [] changes Eb Ec) as (nodes & -> & Ed). cbn [app].
    destruct audit; cbn; [|split; [done|]; by exists rep].
    unfold auditDeclaration, diffBranch, mbind, st_bind, replica_at, lift. pose proof (branchFor_view p root w) as Hv.
    destruct (branchFor p root w) as [w3 [full| |]]; [|done..]. cbn in Hv.
    assert (exists rep3, t_replicas (w_tower w3) !! p = Some rep3 /\ tr_relations rep3 = tr_relations rep) as (rep3 & Er3 & Etr).
    { pose proof (sv_recorded _ _ _ Hv) as H. rewrite Er in H. cbn in H. apply fmap_Some in H as (rep3 & ? & ?). by exists rep3. }
    rewrite Er3. destruct (fold_outcome _ [] full) as [fulls| |]; [|done..].
    destruct (length fulls =? length changes)%nat; [|destruct (forallb _ fulls); [|done]];
      (split; [done|]; exists rep3; split; [done|]; by rewrite (diff_view p w w3 rep rep3)).
  - unfold diffBranch. intros E. pose proof (branchFor_view p root w) as Hv. rewrite (bind_Ok _ _ _ _ _ E). rewrite E in Hv. cbn in Hv.
    unfold replica_at, lift, mbind, st_bind. destruct (t_replicas (w_tower w2) !! p) as [rep|] eqn:Er; [|done].
    destruct (fold_outcome _ [] branch) as [changes| |] eqn:Ef; [|done..]. split; [done|]. by exists rep.
Qed.

(** The part of an attempt after the callback. *)
Lemma diff_settles env p root decl w w2 branch : compared p root decl w = (w2, Ok branch) -> tables_ok w ->
  NoDup (bn_key <$> branch) -> (forall n, n ∈ branch -> node_ok w n) ->
  settles (edit_written w p branch) (edit_handed w p branch) (changes ← retire_on_error p (diffFor types GetId same_bytes other_comparable audit p root decl);
    if bool_decide (length changes = 0)%nat then mret settled else publish_changes types GetId gob_encode env p changes) w.
Proof.
  intros Eb Hok Hnd Hn. pose proof (diffFor_found p root decl w w2 branch Eb) as H. unfold settles, mbind at 1, st_bind at 1, retire_on_error.
  destruct (diffFor _ _ _ _ _ _ _ _ w) as [w3 [changes|e|]]; [|eapply same_tables_trans; [by eapply view_tables|apply retire_same]|by eapply view_tables].
  destruct H as (Hv & rep & Er & Ef). pose proof (view_tables _ _ _ Hv) as Hs. pose proof (same_tables_ok GetId _ _ Hs Hok) as Hok3.
  assert (forall n, n ∈ branch -> node_ok w3 n) as Hn3 by (intros n Hin; by eapply node_ok_view, Hn).
  assert (settles (edit_written w3 p branch) (edit_handed w3 p branch)
    (if bool_decide (length changes = 0)%nat then mret settled else publish_changes types GetId gob_encode env p changes) w3) as Hp.
  { case_bool_decide as El.
    - destruct changes; [|done]. eapply published_edit; [done..|exact Ef|]. split; [done|]. split; [by intros c ?%elem_of_nil|done].
    - destruct (diff_changes _ _ _ _ _ Ef) as [Ec _]. cbn [app] in Ec. eapply settles_mono; [| |apply publish_settles]; [| |done| |].
      + intros w'. by eapply published_edit.
      + intros rs w'. by eapply handed_edit.
      + rewrite Ec. by apply changes_keys.
      + intros c. rewrite Ec. intros (n & Hin & E)%list_elem_of_omap. by eapply change_ok_of; [|apply Hn3|]. }
  unfold settles in *. destruct ((if bool_decide (length changes = 0)%nat then mret settled else publish_changes types GetId gob_encode env p changes) w3) as [w' [[]| |]].
  - by eapply edit_written_view.
  - by eapply same_tables_trans.
  - destruct Hp. split; [by eapply same_tables_trans|by eapply edit_handed_view].
  - by eapply same_tables_trans.
  - by eapply same_tables_trans.
Qed.
End attempt.

(** C3: (refinement) An attempt to write through the Tower runs the callback on
    the shadows of a branch and then writes the difference to the rows: of the
    whole branch, or of the root and the nodes the callback declared. If it
    settles, every compared row is its old struct with the edits of the shadow:
    a field takes the value of the shadow exactly if Go compares it as different
    from the row or, for a relation, if it is not as the replica recorded it,
    and the relation fields name the same entities as before. A row that is
    written moves to the next version, any other stays as it is, no row outside
    the comparison is touched, and the indexes are in step. If the relations
    changed, no row is touched and the resources handed to the commit of
    relations cover every row with a difference, each at the version and with
    the value of its row, and with a copy that has the edits. In every
    other case - an error, a conflict, a replica out of date - no row is
    touched. The callback is any step that ends in a state where the tables are
    consistent, the compared nodes are those of their rows, and shadows hold
    values of the right shape and no dangling pointers. *)
Theorem tower_writes_the_edit `{!MapOrder nodeKey, !MapOrder string, !MapOrder Z} (types : typeEnv) (GetId : goval -> Z)
    (gob_encode : gotype -> goval -> outcome (list byte)) (same_bytes : gmap loc goval -> loc -> loc -> list nat -> bool)
    (other_comparable : string -> bool) (audit : bool) env p root owner edit decl rep shadow w w1 w2 branch w' r :
  (forall heap a b run i, same_bytes heap a b run = true -> i ∈ run -> cell_field heap a i = cell_field heap b i) ->
  t_replicas (w_tower w) !! p = Some rep -> tr_nodes rep !! root = Some shadow -> edit shadow owner w = (w1, Ok decl) ->
  compared p root decl w1 = (w2, Ok branch) -> tables_ok GetId w1 -> NoDup (bn_key <$> branch) -> (forall n, n ∈ branch -> node_ok types w1 n) ->
  towerAttempt types GetId gob_encode same_bytes other_comparable audit env p root owner edit w = (w', r) ->
  match r with
  | Ok settled => edit_written types GetId w1 p branch w'
  | _ => tables_ok GetId w' /\ (forall k, row w' k = row w1 k) /\
         forall rs, r = Ok (relation_commit rs) -> edit_handed types GetId w1 p branch rs w'
  end.
Proof.
  intros Hsound Ep Es Ee Eb Hok Hnd Hn E.
  assert (same_tables w1 w' -> tables_ok GetId w' /\ forall k, row w' k = row w1 k) as Hsame.
  { intros Hs. split; [by eapply same_tables_ok|]. intros k. unfold row. by rewrite (same_cell_row GetId w1 w') by (apply Hok || by apply same_tables_rows). }
  unfold towerAttempt in E. rewrite (bind_Ok _ _ w w rep) in E by (unfold replica_at, lift; by rewrite Ep). rewrite Es in E.
  rewrite (bind_Ok _ _ w w1 decl) in E by (unfold retire_on_error; by rewrite Ee).
  assert (settles (edit_written types GetId w1 p branch) (edit_handed types GetId w1 p branch) (fun w => (w', r)) w1) as H.
  { rewrite <- E. eapply (settles_bind (fun _ w' => w' = w1)); [eapply calm_mono, calm_lift; by intros ? ? []|]. intros rep1 w3 _ ->.
    eapply settles_bind; [apply calm_gets|]. intros good w3 _ [-> _]. destruct (negb good).
    - unfold settles, mbind, st_bind. pose proof (retire_same p w1) as Hr. by destruct (retire p w1) as [w4 [[]| |]].
    - by eapply diff_settles. }
  unfold settles in H. destruct r as [[]| |]; [exact H| |destruct H as [H Hh]| |]; destruct (Hsame H); split_and!; try done. by intros rs' [= <-].
Qed.

(** ** Deciding the invariant

    For processes whose tables have no indexes. *)

Section decide.
Context (GetId : goval -> Z).

Definition store_check (heap : gmap loc goval) (s : chunkStore) : bool :=
  bool_decide (Forall2 (fun (ch : list _) (tb : list bool) => length ch = length tb) (chunks s) (tomb s)) &&
  bool_decide (length (dirty s) = length (chunks s)) &&
  bool_decide (Forall (fun ch => length ch <= chunkLimit)%nat (chunks s)) &&
  bool_decide (n_slots s = zlen (concat (chunks s))) && bool_decide (dead s = zlen (List.filter id (concat (tomb s)))) &&
  forallb id (concat (imap (fun ci ch => (fun slot => bool_decide (chunk slot = Z.of_nat ci)) <$> ch) (chunks s))) &&
  bool_decide (Forall (fun slot => is_Some (heap !! item slot)) (concat (chunks s))) &&
  bool_decide (NoDup (item <$> concat (chunks s))).
Definition slot_of (s : chunkStore) (r : nat * nat) : option loc := item <$> slot_at s r.
Definition rows_check (heap : gmap loc goval) (db : DB) : bool :=
  store_check heap (store db) &&
  bool_decide (map_Forall (fun id r => match slot_of (store db) r with
    | Some l => bool_decide (l ∈ Range (store db)) && (GetId (deref heap l) =? id)%Z && (0 <? id)%Z | None => false end = true) (resById db)) &&
  bool_decide (Forall (fun l => (resById db !! GetId (deref heap l) ≫= slot_of (store db)) = Some l) (Range (store db))).
Definition tables_check (w : world) : bool :=
  bool_decide (map_Forall (fun t db => Table.name db = t /\ secondary db = ∅ /\ rows_check (w_heap w) db = true /\
    map_Forall (fun t' db' => t' = t \/ Forall (fun l => l ∉ owned db') (owned db)) (w_dbs w)) (w_dbs w)).

Lemma store_check_ok heap s : store_check heap s = true -> store_wf heap s.
Proof.
  unfold store_check. rewrite !andb_true_iff, !bool_decide_eq_true, forallb_forall. intros (((((((A & B) & C) & D) & E) & F) & G) & H).
  split; try done. intros [ci si] slot Hs. unfold slot_at in Hs. apply bind_Some in Hs as (ch & Hc & Hs). cbn in *.
  pose proof (F (bool_decide (chunk slot = Z.of_nat ci))) as Hb. rewrite bool_decide_eq_true in Hb. apply Hb, in_concat.
  eexists. split; apply list_elem_of_In.
  - apply list_elem_of_lookup. exists ci. by rewrite list_lookup_imap, Hc.
  - apply list_elem_of_fmap. exists slot. split; [done|]. by eapply list_elem_of_lookup_2.
Qed.
Lemma rows_check_ok heap db : rows_check heap db = true -> rows_ok GetId heap db.
Proof.
  unfold rows_check. rewrite !andb_true_iff, !bool_decide_eq_true. intros [[A B] C]. split; [by apply store_check_ok| |].
  - intros id r Hr. specialize (B id r Hr). cbn in B. unfold slot_of in B. destruct (slot_at (store db) r) as [slot|]; [|done]. cbn in B.
    rewrite !andb_true_iff, bool_decide_eq_true, Z.eqb_eq, Z.ltb_lt in B. exists slot. naive_solver.
  - intros l Hl. rewrite Forall_forall in C. specialize (C l Hl). apply bind_Some in C as (r & Hr & Hs).
    unfold slot_of in Hs. apply fmap_Some in Hs as (slot & Hs & ->). by exists r, slot.
Qed.
Lemma tables_check_ok w : tables_check w = true -> tables_ok GetId w.
Proof.
  unfold tables_check. rewrite bool_decide_eq_true. intros H. split; [split|].
  - intros t db E. by destruct (H t db E).
  - intros t db E. destruct (H t db E) as (_ & _ & Hr & _). by apply rows_check_ok.
  - intros t t' db db' l E E' Hne Hl. destruct (H t db E) as (_ & _ & _ & Ha). destruct (Ha t' db' E') as [->|Hf]; [done|].
    rewrite Forall_forall in Hf. by apply Hf.
  - intros t db E. destruct (H t db E) as (_ & Es & Hr & _). apply empty_table_ok; [by apply rows_check_ok|done].
Qed.

Definition pointers_check (heap : gmap loc goval) (v : goval) : bool :=
  forallb (fun x => forallb (fun y => match y with VPointer (Some l) => bool_decide (is_Some (heap !! l)) | _ => true end) (x :: slice_elems x)) (struct_fields v).
Lemma pointers_check_ok heap v i : pointers_check heap v = true -> alive heap (field_value v i).
Proof.
  unfold pointers_check, field_value, alive. intros H l Hl. destruct (struct_fields v !! i) as [x|] eqn:E.
  - rewrite forallb_forall in H. specialize (H x). rewrite forallb_forall in H. cbn [default from_option id] in Hl.
    specialize (H ltac:(apply list_elem_of_In; by eapply list_elem_of_lookup_2) (VPointer (Some l)) ltac:(by apply list_elem_of_In)). by apply bool_decide_eq_true in H.
  - cbn in Hl. by apply list_elem_of_singleton in Hl.
Qed.
Definition node_check (types : typeEnv) (w : world) (n : towerBranchNode) : bool :=
  bool_decide ((fun c => c.1.1) <$> cell_row w (bn_key n) = Some (bn_live n)) &&
  bool_decide ((fun d => length (fields d)) <$> types !! key_typ (bn_key n) = Some (length (struct_fields (deref (w_heap w) (bn_live n))))) &&
  bool_decide (is_Some (w_heap w !! bn_shadow n)) &&
  pointers_check (w_heap w) (deref (w_heap w) (bn_live n)) && pointers_check (w_heap w) (deref (w_heap w) (bn_shadow n)).
Lemma nodes_check_ok types w branch : tables_check w = true -> forallb (node_check types w) branch = true -> forall n, n ∈ branch -> node_ok types w n.
Proof.
  unfold tables_check. rewrite bool_decide_eq_true, forallb_forall. intros Ht H n Hn%list_elem_of_In%H.
  unfold node_check in Hn. rewrite !andb_true_iff, !bool_decide_eq_true in Hn. destruct Hn as [[[[A B] C] D] F].
  split; [|intros d Ed; rewrite Ed in B; by injection B|exact C| |intros i; split; by apply pointers_check_ok].
  - destruct (cell_row w (bn_key n)) as [[[l v] m]|]; [|done]. injection A as ->. by eexists _, _.
  - intros db E. destruct (Ht _ _ E) as (_ & -> & _). intros name x. by rewrite lookup_empty.
Qed.
End decide.
(** ** A process with two trees

    Authors own notes. *)
Definition text_field (name : string) : structField := {| fname := name; ftype := TBasic "string" KString; exported := true; tag := [] |}.
Definition note_types : typeEnv :=
  list_to_map [("Author", entity [text_field "Name"; rel_field "Notes" (TSlice (TPointer "Note")) "own,Author"]);
               ("Note", entity [text_field "Text"; rel_field "Author" (TPointer "Author") "ownedby,Id"])].
Definition author (id : Z) (name : string) (notes : list loc) : goval :=
  VStruct [VInt id; VString name; VSlice (Some ((fun l => VPointer (Some l)) <$> notes))].
Definition note (id : Z) (text : string) (by_ : option loc) : goval := VStruct [VInt id; VString text; VPointer by_].
Definition note_world : world :=
  {| w_heap := ∅; w_dbs := ∅; w_closed := list_to_map [("Author", newChunkStore); ("Note", newChunkStore)]; w_engine := {| bind := ∅; states := ∅ |};
     w_committed := resetCommittedOwnership; w_participants := ∅; w_files := ∅; w_shared := openTransactionWAL "transactions.wal";
     w_tower := {| t_replica := None; t_replicas := ∅ |} |}.
(** Runs of fields whose values are the same. *)
Definition same_values (heap : gmap loc goval) (a b : loc) (run : list nat) : bool :=
  forallb (fun i => bool_decide (cell_field heap a i = cell_field heap b i)) run.
Definition no_other (t : string) : bool := false.

Notation note_tx := (Transaction_ note_types graph_id no_encoder no_rows_encoder commit_calm).
Notation note_update := (UpdateWithin note_types graph_id no_encoder no_rows_encoder same_values no_other false commit_calm 3 "Author").
Definition set_field (l : loc) (i : nat) (v : goval) : st unit := on_heap (fun w => Ok (set_node_field (w_heap w) l i v)).
Definition some_cell (l : option loc) : st loc := match l with Some l => mret l | None => panic end.
Definition new_tree (id : Z) : st unit :=
  a ← new_entity (author id "anonymous" []) ≫= some_cell;
  n ← new_entity (note id "draft" (Some a)) ≫= some_cell;
  _ ← set_field a 2 (VSlice (Some [VPointer (Some n)]));
  Create note_types graph_id no_encoder no_rows_encoder commit_calm "Author" (Some a).
Definition opened_notes : st unit :=
  _ ← Open_ note_types graph_id "Author" "Author" 0;
  _ ← Open_ note_types graph_id "Note" "Note" 0;
  _ ← new_tree 1; new_tree 2.
Definition first_note (a : loc) : st loc := lift (fun w =>
  match slice_elems (cell_field (w_heap w) a 2) with VPointer (Some n) :: _ => Ok n | _ => Panic end).
Definition write_note (text : string) (a : loc) : st unit := n ← first_note a; set_field n 1 (VString text).
Definition write_name (text : string) (a : loc) : st unit := set_field a 1 (VString text).
Definition texts (w : world) : list (goval) :=
  omap (fun k => (fun v => field_value v.1 1) <$> row w k) [node "Author" 1; node "Note" 1; node "Author" 2; node "Note" 2]%Z.


(** Two trees with a replica; the callback of an update rewrites note 1. *)
Definition shadowed : st positive := _ ← opened_notes; current_replica note_types graph_id same_values no_other.
Definition edit_1 (a : loc) (_ : nodeKey) : st (option (list nodeKey)) := _ ← write_note "one" a; mret None.
Notation note_attempt := (towerAttempt note_types graph_id no_encoder same_values no_other false commit_calm).
Lemma same_values_sound heap a b run i : same_values heap a b run = true -> i ∈ run -> cell_field heap a i = cell_field heap b i.
Proof. unfold same_values. rewrite forallb_forall. intros H Hi. apply (bool_decide_eq_true (cell_field heap a i = cell_field heap b i)), H. by apply list_elem_of_In. Qed.

(** The process at the points of the attempt. *)
Definition value_of {A} (d : A) (r : outcome A) : A := match r with Ok a => a | _ => d end.
Lemma ran {A} (m : st A) w w' a : w' = (m w).1 -> (m w).2 = Ok a -> m w = (w', Ok a).
Proof. intros -> <-. apply surjective_pairing. Qed.
Lemma found {A} (d : A) (o : option A) : bool_decide (is_Some o) = true -> o = Some (default d o).
Proof. rewrite bool_decide_eq_true. by intros [? ->]. Qed.
Definition no_replica : towerReplica :=
  {| tr_epochs := ∅; tr_nodes := ∅; tr_relations := ∅; tr_walk := []; tr_index := None; tr_branches := ∅; tr_branchNodes := 0 |}.
Definition shadow_world : world := (shadowed note_world).1.
Definition first_replica : towerReplica := default no_replica (t_replicas (w_tower shadow_world) !! 1%positive).
Definition first_shadow : loc := default 1%positive (tr_nodes first_replica !! node "Author" 1).
Definition edited_world : world := (edit_1 first_shadow (node "Author" 1) shadow_world).1.
Definition first_branch := branchFor 1%positive (node "Author" 1) edited_world.
Definition branch_nodes : list towerBranchNode := value_of [] first_branch.2.

Lemma tower_writes_the_edit_witness :
  let r := note_attempt 1%positive (node "Author" 1) (node "Author" 1) edit_1 shadow_world in
  r.2 = Ok settled /\ texts r.1 = [VString "anonymous"; VString "one"; VString "anonymous"; VString "draft"] /\
  length branch_nodes = 2 /\ edit_written note_types graph_id edited_world 1%positive branch_nodes r.1.
Proof.
  intros r. assert (r.2 = Ok settled) as Er by (vm_compute; reflexivity).
  split; [exact Er|]. split; [vm_compute; reflexivity|]. split; [vm_compute; reflexivity|].
  apply (tower_writes_the_edit note_types graph_id no_encoder same_values no_other false commit_calm 1%positive (node "Author" 1) (node "Author" 1) edit_1 None
    first_replica first_shadow shadow_world edited_world first_branch.1 branch_nodes r.1 (Ok settled)).
  - exact same_values_sound.
  - unfold first_replica. apply found. vm_compute. reflexivity.
  - unfold first_shadow. apply found. vm_compute. reflexivity.
  - apply ran; [unfold edited_world; reflexivity|vm_compute; reflexivity].
  - apply ran; [unfold first_branch; reflexivity|vm_compute; reflexivity].
  - apply tables_check_ok. vm_compute. reflexivity.
  - apply (bool_decide_unpack (NoDup (bn_key <$> branch_nodes))). vm_compute. exact I.
  - apply (nodes_check_ok graph_id); vm_compute; reflexivity.
  - rewrite <- Er. apply surjective_pairing.
Defined.

(** ** An attempt with another commit before its last step *)

Section between.
Context (types : typeEnv) (GetId : goval -> Z) (gob_encode : gotype -> goval -> outcome (list byte)) `{!MapOrder nodeKey, !MapOrder string, !MapOrder Z}.
Context (same_bytes : gmap loc goval -> loc -> loc -> list nat -> bool) (other_comparable : string -> bool) (audit : bool).

(** [towerAttempt] with a step of another goroutine between the commit of the
    values and [captureEpochs], where both hold the graph lock shared. *)
Definition publish_with (other : st unit) (env : commit_env) (p : positive) (changes : list towerChange) : st attempt :=
  found ← retire_on_error p (materializeTowerChanges types GetId changes);
  if (found.2 : bool) then mret (relation_commit found.1) else
  _ ← retire_on_error p (commitTowerScalarChanges types GetId gob_encode env found.1);
  _ ← other;
  _ ← captureEpochs p;
  mret settled.
Definition attempt_with (other : st unit) (env : commit_env) (p : positive) (root owner : nodeKey) (edit : loc -> nodeKey -> st (option (list nodeKey))) : st attempt :=
  rep ← replica_at p;
  match tr_nodes rep !! root with
  | None => fail ErrNotFound
  | Some shadow =>
      decl ← retire_on_error p (edit shadow owner);
      rep ← replica_at p;
      good ← gets (fun w => synced w rep);
      if negb good then _ ← retire p; mret again else
      changes ← retire_on_error p (diffFor types GetId same_bytes other_comparable audit p root decl);
      if bool_decide (length changes = 0)%nat then mret settled else publish_with other env p changes
  end.
Lemma attempt_with_nothing env p root owner edit :
  attempt_with (mret tt) env p root owner edit = towerAttempt types GetId gob_encode same_bytes other_comparable audit env p root owner edit.
Proof. reflexivity. Qed.
End between.

(** The update of author 1, the write of author 2. *)
Definition update_1 (other : st unit) : st attempt :=
  _ ← ensure_ownership note_types graph_id;
  p ← current_replica note_types graph_id same_values no_other;
  attempt_with note_types graph_id no_encoder same_values no_other false other commit_calm p (node "Author" 1) (node "Author" 1) edit_1.
Definition write_2 : st unit := note_tx (fun h => get_in note_types graph_id h "Author" 2 ≫= write_note "two").

(** C30 (a defect): [captureEpochs] takes over whatever the epochs are, not only
    what its own commit added to them. A transaction on another tree may commit
    between the last check of the epochs and [captureEpochs], since both hold
    the graph lock shared. The replica then passes for up to date with an old
    shadow of that tree, and the next update of the tree writes the old value
    back. Here a transaction sets the text of note 2 and an update renames its
    author: with the transaction after the update of author 1 both are kept,
    with the transaction inside of it the text is lost, and no one sees an
    error. *)
Theorem captured_epochs_lose_a_write :
  let rename_2 := note_update 2%Z (write_name "bob") in
  let after := (_ ← opened_notes; _ ← update_1 (mret tt); _ ← write_2; rename_2) note_world in
  let between := (_ ← opened_notes; _ ← update_1 write_2; rename_2) note_world in
  after.2 = Ok handled /\ texts after.1 = [VString "anonymous"; VString "one"; VString "bob"; VString "two"] /\
  between.2 = Ok handled /\ texts between.1 = [VString "anonymous"; VString "one"; VString "bob"; VString "draft"].
Proof. vm_compute. by split_and!. Qed.

(** A write of relations that the commit refuses, twice: the transactions it
    ran in stay bound to the copies for good, which [evict] in [Transaction_]
    prevents on the other path. *)
Definition orphan_note (a : loc) : st unit := n ← first_note a; set_field n 2 (VPointer None).
Lemma refused_tower_writes_stay_bound :
  let tower := (_ ← opened_notes; _ ← catch (note_update 1%Z orphan_note); catch (note_update 1%Z orphan_note)) note_world in
  let plain := (_ ← opened_notes; _ ← catch (note_tx (fun h => get_in note_types graph_id h "Author" 1 ≫= orphan_note)); mret tt) note_world in
  tower.2 = Ok (Fail ErrRelationInvariant) /\ size (bind (w_engine tower.1)) = 2 /\ plain.2 = Ok tt /\ size (bind (w_engine plain.1)) = 0.
Proof. vm_compute. by split_and!. Qed.


(** The callback of an update runs without the graph lock. While it runs, a
    transaction and an update change another tree. The update finds the replica
    out of date and [refresh] brings it up to date in place: the shadows of the
    first tree, edited and not published yet, are copied from the rows again.
    The first update then compares equal shadows, under epochs that are current,
    and reports a write that never happened. With the callback entirely before
    or entirely after the other tree's writes, both writes are kept. *)
Definition edit_during (other : st unit) (a : loc) : st unit := _ ← write_note "one" a; other.
Definition other_tree : st unit := _ ← write_2; _ ← note_update 2%Z (write_name "eve"); mret tt.
Lemma refreshed_shadows_lose_an_edit :
  let shown := (_ ← opened_notes; _ ← note_update 1%Z (write_name "bob"); mret tt) in
  let before := (_ ← shown; r ← note_update 1%Z (edit_during (mret tt)); _ ← other_tree; mret r) note_world in
  let after := (_ ← shown; _ ← other_tree; note_update 1%Z (edit_during (mret tt))) note_world in
  let during := (_ ← shown; note_update 1%Z (edit_during other_tree)) note_world in
  (before.2 = Ok handled /\ texts before.1 = [VString "bob"; VString "one"; VString "eve"; VString "two"]) /\
  (after.2 = Ok handled /\ texts after.1 = [VString "bob"; VString "one"; VString "eve"; VString "two"]) /\
  (during.2 = Ok handled /\ texts during.1 = [VString "bob"; VString "draft"; VString "eve"; VString "two"]).
Proof. vm_compute. by split_and!. Qed.
