(* ===== verification/TowerReplica.v ===== *)
(** * What a replica of the Tower shows

    A replica that was built or refreshed has, for every node of the published
    graph, a shadow of its own with the scalar fields of the live row, and no
    live cell was written to make it. *)
From S2P Require Import Prelude GoBytes GoReflect RelationSchema SchemaRows RelationModel RelationGraph CommittedGraph RelationDelta Transaction.
From S2P Require Import WalFrame RowCodec WalLog ChunkStore IndexSpecs SecondaryIndex IndexCommit Storage Table Wiring Aggregate GraphCommit World Commit Api Tower TowerRun CommitSteps CommitEffect TowerEffect.

Lemma fold_outcome_steps {A B} (R : B -> B -> Prop) (f : B -> A -> outcome B) l : (forall b, R b b) -> (forall a b c, R a b -> R b c -> R a c) ->
  (forall b a b', a ∈ l -> f b a = Ok b' -> R b b') -> forall b b', fold_outcome f b l = Ok b' -> R b b'.
Proof.
  intros Hr Ht. induction l as [|a l IH]; intros Hf b b'; cbn; [by intros [= <-]|].
  destruct (f b a) as [b1| |] eqn:E; cbn; [|done..]. intros E2. eapply Ht; [eapply Hf; [left|exact E]|].
  apply IH; [|exact E2]. intros c a' c' Ha'. apply Hf. by right.
Qed.

Section replica.
Context (types : typeEnv) (GetId : goval -> Z) `{!MapOrder nodeKey, !MapOrder string, !MapOrder Z}.
Context (same_bytes : gmap loc goval -> loc -> loc -> list nat -> bool) (other_comparable : string -> bool).
Implicit Types (heap : gmap loc goval) (ns live : gmap nodeKey loc) (t : string).

(** ** Specification *)

Definition scalar_field t (i : nat) : Prop := exists d sp f,
  types !! t = Some d /\ specsByField types t = Ok sp /\ fields d !! i = Some f /\ sp !! fname f = None.
(** Equal, or equal as Go compares slices when they were last compared: nothing
    but shadows has changed since. *)
Definition same_content ns heap t (a b : goval) (i : nat) : Prop := a = b \/
  exists h, (forall l, (forall k, ns !! k <> Some l) -> h !! l = heap !! l) /\ relationFieldEqual types h (field_type types t i) a b = true.
Definition shows live heap ns : Prop := forall key l, live !! key = Some l -> exists s, ns !! key = Some s /\
  forall i, scalar_field (key_typ key) i -> same_content ns heap (key_typ key) (cell_field heap l i) (cell_field heap s i) i.
(** Shadows are cells of their own: allocated, one per node, none of them live. *)
Record private live heap ns : Prop := {
  pr_alloc : forall k s, ns !! k = Some s -> is_Some (heap !! s);
  pr_inj : forall k k' s, ns !! k = Some s -> ns !! k' = Some s -> k = k';
  pr_apart : forall k s k' l, ns !! k = Some s -> live !! k' = Some l -> s <> l;
}.

(** ** Relations and scalars of a type *)

Lemma spec_has_field sp t specs r : specsByField types t = Ok sp -> relationSpecs types t = Ok specs -> r ∈ specs -> is_Some (sp !! fieldName r).
Proof.
  unfold specsByField. intros E Es. rewrite Es in E. injection E as <-. intros Hr.
  assert (forall l (out : gmap string relationSpec), r ∈ l \/ is_Some (out !! fieldName r) ->
    is_Some (foldl (fun out r => <[fieldName r := r]> out) out l !! fieldName r)) as H; [|by apply H; left].
  clear. induction l as [|x l IH]; intros out; cbn; [by intros [?%elem_of_nil|?]|]. intros Hx. apply IH.
  rewrite elem_of_cons in Hx. destruct (decide (fieldName x = fieldName r)) as [->|Hne]; [right; by rewrite lookup_insert_eq|].
  destruct Hx as [[->|?]|?]; [done|by left|right; by rewrite lookup_insert_ne].
Qed.
Lemma scalar_not_relation t i specs r : scalar_field t i -> relationSpecs types t = Ok specs -> r ∈ specs -> fieldIndex r <> i.
Proof.
  intros (d & sp & f & Ed & Esp & Ef & En) Es Hr <-. destruct (spec_has_field sp t specs r Esp Es Hr) as [r' E].
  unfold relationSpecs in Es. rewrite Ed in Es. destruct (parseFields_sound types t 0 _ _ _ Es Hr) as (j & g & Hg & Hp).
  apply parseRelationField_sound in Hp as (_ & Hi & Hn & _). cbn in Hi. rewrite Hi in Ef. rewrite Hg in Ef. injection Ef as ->. congruence.
Qed.

(** ** Steps that write relation fields of shadows *)

(** From [heap] to [heap'] only the cells [P] allows have changed, and of those
    not the scalar fields. *)
Record rewires (P : loc -> string -> Prop) heap heap' : Prop := {
  rw_frame : forall l, (forall t, ~ P l t) -> heap' !! l = heap !! l;
  rw_alloc : forall l, is_Some (heap' !! l) <-> is_Some (heap !! l);
  rw_scalar : forall l i, (forall t, P l t -> scalar_field t i) -> cell_field heap' l i = cell_field heap l i;
}.
Lemma rewires_refl P heap : rewires P heap heap.
Proof. by split. Qed.
Lemma rewires_trans P h1 h2 h3 : rewires P h1 h2 -> rewires P h2 h3 -> rewires P h1 h3.
Proof.
  intros [A B C] [A' B' C']. split.
  - intros l Hl. by rewrite A', A.
  - intros l. by rewrite B', B.
  - intros l i Hi. by rewrite C', C.
Qed.
Lemma rewires_mono P Q h1 h2 : (forall l t, P l t -> Q l t) -> rewires P h1 h2 -> rewires Q h1 h2.
Proof. intros H [A B C]. split; [|done|]; naive_solver. Qed.

Lemma set_field_rewires l t specs r heap v : relationSpecs types t = Ok specs -> r ∈ specs ->
  rewires (fun l' t' => l' = l /\ t' = t) heap (set_node_field heap l (fieldIndex r) v).
Proof.
  intros Es Hr. unfold set_node_field. destruct (heap !! l) as [s|] eqn:E; [|apply rewires_refl]. split.
  - intros l' Hl'. apply lookup_insert_ne. intros <-. by apply (Hl' t).
  - intros l'. destruct (decide (l = l')) as [<-|]; [rewrite lookup_insert_eq, E|rewrite lookup_insert_ne by done]; naive_solver.
  - intros l' i Hi. unfold cell_field, deref. destruct (decide (l = l')) as [<-|]; [|by rewrite lookup_insert_ne].
    rewrite lookup_insert_eq, E. unfold field_value. cbn. destruct (decide (fieldIndex r = i)) as [<-|Hne]; [|by rewrite list_lookup_insert_ne].
    exfalso. eapply scalar_not_relation; [by apply (Hi t)|exact Es|exact Hr|done].
Qed.
Lemma redirect_rewires f heap l r heap' t specs : relationSpecs types t = Ok specs -> r ∈ specs ->
  redirect f heap l r = Ok heap' -> rewires (fun l' t' => l' = l /\ t' = t) heap heap'.
Proof.
  intros Es Hr. unfold redirect. destruct (node_field heap l (fieldIndex r)) as [v|]; [|done]. destruct (negb (many r)); intros [= <-].
  { by eapply set_field_rewires. }
  generalize (seq 0 (length (slice_elems v))). intros js. revert heap. induction js as [|j js IH]; intros heap; [apply rewires_refl|]. cbn.
  eapply rewires_trans; [|apply IH]. destruct (slice_elems _ !! j); [by eapply set_field_rewires|apply rewires_refl].
Qed.
Lemma wire_rewires ns heap q heap' : wireTowerNode types GetId ns heap q = Ok heap' -> rewires (fun l t => l = q.2 /\ t = key_typ q.1) heap heap'.
Proof.
  unfold wireTowerNode. destruct (relationSpecs types (key_typ q.1)) as [specs| |] eqn:Es; cbn; [|done..].
  apply (fold_outcome_steps (rewires _)); [apply rewires_refl|apply rewires_trans|]. intros h r h' Hr. by apply redirect_rewires with specs.
Qed.

(** ** New shadows *)

Record built live heap (acc : gmap loc goval * gmap nodeKey loc) : Prop := {
  bl_heap : heap ⊆ acc.1;
  bl_cells : forall key s, acc.2 !! key = Some s -> heap !! s = None /\ exists l, live !! key = Some l /\ acc.1 !! s = Some (deref heap l);
  bl_inj : forall k k' s, acc.2 !! k = Some s -> acc.2 !! k' = Some s -> k = k';
}.
Lemma add_shadow_built live heap acc key : (forall k l, live !! k = Some l -> is_Some (heap !! l)) -> built live heap acc ->
  built live heap (add_shadow live acc key) /\ (forall k, is_Some (acc.2 !! k) \/ k = key /\ is_Some (live !! key) -> is_Some ((add_shadow live acc key).2 !! k)).
Proof.
  intros Hl [A B C]. unfold add_shadow. destruct (live !! key) as [l|] eqn:E; [|split; [done|by intros k [?|[_ [? ?]]]]].
  destruct (new_cell acc.1 (deref acc.1 l)) as [h s] eqn:En. apply new_cell_spec in En as [Hs ->].
  rewrite (deref_weaken heap) by (done || by eapply Hl). split; [split; cbn|].
  - etrans; [exact A|]. by apply insert_subseteq.
  - intros k s'. rewrite lookup_insert_Some. intros [[<- <-]|[Hk Hs']].
    + split; [by eapply lookup_weaken_None|]. exists l. by rewrite lookup_insert_eq.
    + destruct (B k s' Hs') as (Hn & l' & El & Ec). split; [done|]. exists l'. split; [done|]. rewrite lookup_insert_ne; [done|]. intros ->. congruence.
  - intros k k' s'. rewrite !lookup_insert_Some. intros [[<- <-]|[Hk Hs']] [[<- Hss]|[Hk' Hs'']]; [done| | |by eapply C].
    + destruct (B k' s Hs'') as (_ & l' & _ & Ec). congruence.
    + subst s'. destruct (B k s Hs') as (_ & l' & _ & Ec). congruence.
  - intros k Hk. cbn. destruct (decide (key = k)) as [->|]; [by rewrite lookup_insert_eq|]. rewrite lookup_insert_ne by done. naive_solver.
Qed.
Lemma add_shadows_built live heap keys : (forall k l, live !! k = Some l -> is_Some (heap !! l)) -> forall acc, built live heap acc ->
  built live heap (foldl (add_shadow live) acc keys) /\
  (forall k, is_Some (acc.2 !! k) \/ k ∈ keys /\ is_Some (live !! k) -> is_Some ((foldl (add_shadow live) acc keys).2 !! k)).
Proof.
  intros Hl. induction keys as [|key keys IH]; intros acc Hb; cbn.
  { split; [done|]. by intros k [?|[?%elem_of_nil _]]. }
  destruct (add_shadow_built live heap acc key Hl Hb) as [Hb1 Hk1]. destruct (IH _ Hb1) as [Hb2 Hk2]. split; [done|].
  intros k Hk. apply Hk2. rewrite elem_of_cons in Hk. destruct Hk as [?|[[->|?] ?]]; [left; apply Hk1; by left|left; apply Hk1; by right|by right].
Qed.
Lemma grouped (l : list (nodeKey * loc)) (m0 : gmap string (list nodeKey)) :
  let m := foldl (fun (m : gmap string (list nodeKey)) p => <[key_typ p.1 := default [] (m !! key_typ p.1) ++ [p.1]]> m) m0 l in
  forall key, (exists g, m0 !! key_typ key = Some g /\ key ∈ g) \/ key ∈ l.*1 -> exists g, m !! key_typ key = Some g /\ key ∈ g.
Proof.
  cbn. revert m0. induction l as [|[k v] l IH]; intros m0 key; cbn; [by intros [?|?%elem_of_nil]|]. intros H. apply IH.
  rewrite elem_of_cons in H. destruct H as [(g & Hg & Hin)|[->|?]]; [left|left|by right].
  - destruct (decide (key_typ k = key_typ key)) as [->|]; [rewrite lookup_insert_eq, Hg|rewrite lookup_insert_ne by done; by exists g].
    eexists. split; [done|]. apply elem_of_app. by left.
  - rewrite lookup_insert_eq. eexists. split; [done|]. apply elem_of_app. right. by left.
Qed.
Lemma shadows_built heap live : (forall k l, live !! k = Some l -> is_Some (heap !! l)) ->
  built live heap (buildTowerShadows heap live) /\ forall k, is_Some (live !! k) -> is_Some ((buildTowerShadows heap live).2 !! k).
Proof.
  intros Hl. unfold buildTowerShadows. cbn zeta. pose proof (grouped (map_range live) ∅) as Hg. cbn zeta in Hg. revert Hg.
  generalize (foldl (fun (m : gmap string (list nodeKey)) p => <[key_typ p.1 := default [] (m !! key_typ p.1) ++ [p.1]]> m) ∅ (map_range live)).
  intros byTable Hg. assert (forall gs acc, built live heap acc ->
    let acc' := foldl (fun acc q => foldl (add_shadow live) acc (SortFunc (fun a b => cmp_compare (key_id a) (key_id b)) q.2)) acc gs in
    built live heap acc' /\ (forall k, is_Some (acc.2 !! k) \/ (exists t g, (t, g) ∈ gs /\ k ∈ g) /\ is_Some (live !! k) -> is_Some (acc'.2 !! k))) as H.
  { induction gs as [|[t g] gs IH]; intros acc Hb; cbn.
    { split; [done|]. by intros k [?|[(? & ? & ?%elem_of_nil & _) _]]. }
    destruct (add_shadows_built live heap (SortFunc (fun a b => cmp_compare (key_id a) (key_id b)) g) Hl acc Hb) as [Hb1 Hk1].
    destruct (IH _ Hb1) as [Hb2 Hk2]. split; [done|]. intros k Hk. apply Hk2.
    destruct Hk as [?|[(t' & g' & [[= -> ->]|Hin]%elem_of_cons & Hkg) ?]]; [left; apply Hk1; by left| |right; eauto].
    left. apply Hk1. right. split; [by rewrite SortFunc_perm|done]. }
  destruct (H (map_range byTable) (heap, ∅)) as [Hb Hk].
  { split; cbn; [done|intros k s; by rewrite lookup_empty|intros k k' s; by rewrite lookup_empty]. }
  split; [exact Hb|]. intros k Hlive. apply Hk. right. split; [|done]. destruct (Hg k) as (g & Eg & Hin).
  - right. destruct Hlive as [l El]. apply (list_elem_of_fmap_2' fst _ (k, l)); [|done]. by apply map_range_elem.
  - exists (key_typ k), g. split; [by apply map_range_elem|done].
Qed.

(** ** A replica from nothing *)

(** The cells a set of shadows makes writable. *)
Definition of_shadows ns (l : loc) t : Prop := exists k, ns !! k = Some l /\ t = key_typ k.
Lemma rewires_private live ns heap heap' : rewires (of_shadows ns) heap heap' -> private live heap ns -> private live heap' ns.
Proof. intros [_ A _] [B C D]. split; [|exact C|exact D]. intros k s Hk. apply A. by eapply B. Qed.
Lemma rewires_shows live ns heap heap' : rewires (of_shadows ns) heap heap' -> private live heap ns -> shows live heap ns -> shows live heap' ns.
Proof.
  intros [A B C] [_ Hi Ha] H key l Hl. destruct (H key l Hl) as (s & Hs & Hf). exists s. split; [done|]. intros i Hsc.
  assert (forall t, ~ of_shadows ns l t) as Hnl by (intros t (k & Hk & _); by eapply Ha).
  rewrite (C s i) by (intros t (k & Hk & ->); by rewrite (Hi k key s Hk Hs)).
  rewrite (C l i) by (intros t Ht; by destruct (Hnl t)).
  destruct (Hf i Hsc) as [?|(h & Hh & Heq)]; [by left|right]. exists h. split; [|done]. intros l' Hl'. rewrite A; [by apply Hh|].
  intros t (k & Hk & _). by apply (Hl' k).
Qed.

Lemma wire_all_rewires ns heap heap' (l : list (nodeKey * loc)) : (forall q, q ∈ l -> ns !! q.1 = Some q.2) ->
  fold_outcome (wireTowerNode types GetId ns) heap l = Ok heap' -> rewires (of_shadows ns) heap heap'.
Proof.
  intros Hl. apply (fold_outcome_steps (rewires _)); [apply rewires_refl|apply rewires_trans|]. intros h q h' Hq E.
  eapply rewires_mono; [|by eapply wire_rewires]. intros l' t [-> ->]. exists q.1. by split; [apply Hl|].
Qed.

Lemma built_private live live' heap acc : (forall k l, live !! k = Some l -> is_Some (heap !! l)) -> built live' heap acc -> private live acc.1 acc.2.
Proof.
  intros Hl [A B C]. split; [|exact C|].
  - intros k s Hk. destruct (B k s Hk) as (_ & l & _ & E). by eexists.
  - intros k s k' l Hk Hl' ->. destruct (B k l Hk) as (Hn & _). destruct (Hl k' l Hl') as [? ?]. congruence.
Qed.
Lemma built_shows live heap acc : (forall k l, live !! k = Some l -> is_Some (heap !! l)) -> built live heap acc ->
  (forall k, is_Some (live !! k) -> is_Some (acc.2 !! k)) -> shows live acc.1 acc.2.
Proof.
  intros Hl [A B C] Hk key l E. destruct (Hk key) as [s Es]; [by eexists|]. exists s. split; [done|]. intros i _. left.
  destruct (B key s Es) as (_ & l' & E' & Ec). rewrite E in E'. injection E' as <-. unfold cell_field. f_equal.
  rewrite (deref_weaken heap acc.1 l) by (done || by eapply Hl). unfold deref at 2. by rewrite Ec.
Qed.

Lemma new_replica_ok heap x epochs heap' rep : (forall k l, x_nodes x !! k = Some l -> is_Some (heap !! l)) ->
  new_replica types GetId other_comparable heap x epochs = Ok (heap', rep) ->
  heap ⊆ heap' /\ private (x_nodes x) heap' (tr_nodes rep) /\ shows (x_nodes x) heap' (tr_nodes rep) /\ tr_epochs rep = epochs.
Proof.
  intros Hl. unfold new_replica. cbn zeta. destruct (shadows_built heap (x_nodes x) Hl) as [Hb Hk].
  pose proof (built_private (x_nodes x) _ heap _ Hl Hb) as Hp. pose proof (built_shows _ _ _ Hl Hb Hk) as Hs.
  destruct (buildTowerShadows heap (x_nodes x)) as [h1 ns]. cbn [fst snd] in *.
  destruct (wireTowerNodes types GetId h1 ns) as [h2| |] eqn:E2; [|done..]. cbn. unfold wireTowerNodes in E2.
  apply wire_all_rewires in E2; [|intros [k l] Hq; by apply map_range_elem].
  destruct (snapshotTowerRelations types GetId h2 ns) as [rs| |]; [|done..]. cbn.
  destruct (buildTowerWalk types other_comparable h2 x (x_nodes x) ns) as [walk| |]; [|done..]. cbn. intros [= <- <-]. cbn. split_and!; [|by eapply rewires_private|by eapply rewires_shows|done].
  apply map_subseteq_spec. intros l v Hv. rewrite (rw_frame _ _ _ E2); [by eapply lookup_weaken, (bl_heap _ _ _ Hb)|].
  intros t (k & Hk' & _). destruct (bl_cells _ _ _ Hb k l Hk') as [Hn _]. congruence.
Qed.

(** ** A replica brought up to date *)

Hypothesis (same_bytes_sound : forall heap a b run i, same_bytes heap a b run = true -> i ∈ run -> cell_field heap a i = cell_field heap b i).

Lemma unchanged_content ns heap t l s plan i : towerFields types other_comparable t = Ok plan -> scalar_field t i ->
  towerNodeUnchanged types GetId same_bytes heap t l s plan = true -> same_content ns heap t (cell_field heap l i) (cell_field heap s i) i.
Proof.
  intros Ep (d & sp & f & Ed & Esp & Ef & En). destruct (plan_of_field _ _ _ _ _ _ _ _ Ep Ed Esp Ef En) as (g & Hg & <- & Hr).
  unfold towerNodeUnchanged. rewrite andb_true_iff, forallb_forall. intros [Hseg Hall]. apply list_elem_of_In in Hg as Hg'. specialize (Hall g Hg').
  cbn zeta in Hall. rewrite Hr in Hall. destruct (tf_slice g) eqn:Es; [right; by exists heap|left].
  unfold towerFields in Ep. rewrite Esp, Ed in Ep. cbn in Ep. injection Ep as <-. cbn in *.
  destruct (segments_cover (imap (field_plan types sp) (fields d)) g false []) as (run & Hrun & Hi); [done|by unfold segmentEligible; rewrite Hr, Es|].
  unfold towerSegmentsEqual in Hseg. rewrite forallb_forall in Hseg. eapply same_bytes_sound; [|exact Hi]. apply Hseg. by apply list_elem_of_In.
Qed.

Lemma refresh_nodes_ok live ns l : NoDup l.*1 -> (forall q, q ∈ l -> live !! q.1 = Some q.2) -> forall heap mv heap' mv', private live heap ns ->
  fold_outcome (refresh_node types GetId same_bytes other_comparable ns) (heap, mv) l = Ok (heap', mv') ->
  (forall a, (forall k, k ∈ l.*1 -> ns !! k <> Some a) -> heap' !! a = heap !! a) /\ (forall a, is_Some (heap !! a) -> is_Some (heap' !! a)) /\
  forall q, q ∈ l -> exists s, ns !! q.1 = Some s /\
    forall i, scalar_field (key_typ q.1) i -> same_content ns heap' (key_typ q.1) (cell_field heap' q.2 i) (cell_field heap' s i) i.
Proof.
  induction l as [|[key lv] l IH]; cbn [fold_outcome].
  { intros _ _ heap mv heap' mv' _ [= <- <-]. split_and!; [done|done|]. by intros q ?%elem_of_nil. }
  cbn. intros [Hkey Hnd]%NoDup_cons Hlive heap mv heap' mv' Hp.
  destruct (refresh_node types GetId same_bytes other_comparable ns (heap, mv) (key, lv)) as [[h1 mv1]| |] eqn:E1; cbn; [|done..]. intros E.
  unfold refresh_node in E1. cbn in E1. destruct (towerFields types other_comparable (key_typ key)) as [plan| |] eqn:Ep; [|done..]. cbn in E1.
  destruct (ns !! key) as [s|] eqn:Es; [|done]. pose proof (Hlive (key, lv) ltac:(left)) as Elv. cbn in Elv.
  assert ((forall a, a <> s -> h1 !! a = heap !! a) /\ (forall a, is_Some (heap !! a) -> is_Some (h1 !! a)) /\
    forall i, scalar_field (key_typ key) i -> same_content ns h1 (key_typ key) (cell_field h1 lv i) (cell_field h1 s i) i) as (F1 & A1 & C1).
  { destruct (towerNodeUnchanged _ _ _ _ _ _ _ _) eqn:Eu; injection E1 as <- <-.
    - split_and!; [done|done|]. intros i Hi. by eapply unchanged_content.
    - split_and!; [intros a Ha; by apply lookup_insert_ne|intros a Ha; destruct (decide (s = a)) as [<-|]; [by rewrite lookup_insert_eq|by rewrite lookup_insert_ne]|].
      intros i _. left. unfold cell_field. f_equal. unfold deref at 3. rewrite lookup_insert_eq. unfold deref at 1. rewrite lookup_insert_ne; [done|].
      by apply (pr_apart _ _ _ Hp key s key lv). }
  assert (private live h1 ns) as Hp1 by (destruct Hp as [P1 P2 P3]; split; eauto).
  destruct (IH Hnd (fun q Hq => Hlive q ltac:(by right)) h1 mv1 heap' mv' Hp1 E) as (F2 & A2 & C2). split_and!.
  - intros a Ha. rewrite F2 by (intros k Hk; apply Ha; by right). apply F1. intros ->. apply (Ha key); [by left|done].
  - auto.
  - intros q [->|Hq]%elem_of_cons; [|by apply C2]. exists s. split; [done|]. cbn. intros i Hi.
    assert (heap' !! s = h1 !! s) as Hs by (apply F2; intros k Hk Hks; rewrite (pr_inj _ _ _ Hp k key s Hks Es) in Hk; done).
    assert (heap' !! lv = h1 !! lv) as Hlv by (apply F2; intros k _ Hk; by apply (pr_apart _ _ _ Hp k lv key lv)).
    unfold cell_field, deref. rewrite Hs, Hlv. destruct (C1 i Hi) as [?|(h & Hh & Heq)]; [by left|right]. exists h. split; [|done].
    intros a Ha. rewrite Hh by done. symmetry. apply F2. intros k _. apply Ha.
Qed.

Lemma grow_private live live' heap ns acc : (forall k l, live !! k = Some l -> is_Some (heap !! l)) -> built live' heap acc -> private live heap ns ->
  private live acc.1 (acc.2 ∪ ns).
Proof.
  intros Hl Hb [B C D]. destruct (built_private live live' heap acc Hl Hb) as [B' C' D'].
  assert (forall k k' s, acc.2 !! k = Some s -> ns !! k' = Some s -> False) as Hx.
  { intros k k' s Hk Hk'. destruct (bl_cells _ _ _ Hb k s Hk) as [Hn _]. destruct (B k' s Hk'). congruence. }
  split.
  - intros k s [Hk|[_ Hk]]%lookup_union_Some_raw; [by eapply B'|]. destruct (B k s Hk) as [v Hv]. exists v.
    by eapply lookup_weaken, (bl_heap _ _ _ Hb).
  - intros k k' s [Hk|[_ Hk]]%lookup_union_Some_raw [Hk'|[_ Hk']]%lookup_union_Some_raw; eauto; destruct (Hx _ _ _ Hk Hk') || destruct (Hx _ _ _ Hk' Hk).
  - intros k s k' l [Hk|[_ Hk]]%lookup_union_Some_raw Hl'; [by eapply D'|by eapply D].
Qed.

Lemma rewire_moved_rewires ns moved acc acc' : fold_outcome (rewire_moved types GetId ns) acc moved = Ok acc' -> rewires (of_shadows ns) acc.1 acc'.1.
Proof.
  apply (fold_outcome_steps (fun a b => rewires (of_shadows ns) a.1 b.1)); [intros; apply rewires_refl|intros a b c; apply rewires_trans|].
  intros b key b' _. unfold rewire_moved. destruct (ns !! key) as [s|] eqn:Es; [|done].
  destruct (wireTowerNode types GetId ns b.1 (key, s)) as [h| |] eqn:E; [|done..]. cbn.
  destruct (snapshotTowerRelationsInto types GetId h b.2 (key, s)) as [rs| |]; [|done..]. cbn. intros [= <-].
  eapply rewires_mono; [|by eapply wire_rewires]. intros l t [-> ->]. by exists key.
Qed.

(** What a run of [refresh] or [build_replica] leaves. *)
Definition replica_done (x : committedRelationIndex) (epochs : gmap string Z) (old : gmap nodeKey loc) (w w' : world) (p : positive) : Prop :=
  t_replica (w_tower w') = Some p /\ w_dbs w' = w_dbs w /\ w_participants w' = w_participants w /\
  (forall l v, (forall k, old !! k <> Some l) -> w_heap w !! l = Some v -> w_heap w' !! l = Some v) /\
  exists rep, t_replicas (w_tower w') !! p = Some rep /\ tr_epochs rep = epochs /\
    private (x_nodes x) (w_heap w') (tr_nodes rep) /\ shows (x_nodes x) (w_heap w') (tr_nodes rep).

Lemma on_replica_at p f w w' u rep : on_replica p f w = (w', Ok u) -> t_replicas (w_tower w) !! p = Some rep ->
  w_heap w' = w_heap w /\ w_dbs w' = w_dbs w /\ w_participants w' = w_participants w /\ t_replica (w_tower w') = t_replica (w_tower w) /\
  t_replicas (w_tower w') !! p = Some (f rep).
Proof. unfold on_replica, modify. intros [= <- _] E. cbn. split_and!; [done..|]. by rewrite lookup_alter, decide_True, E. Qed.
Lemma replica_at_inv p w w' rep : replica_at p w = (w', Ok rep) -> w' = w /\ t_replicas (w_tower w) !! p = Some rep.
Proof. unfold replica_at, lift. destruct (t_replicas (w_tower w) !! p); [|done]. by intros [= <- <-]. Qed.

Lemma grow_step p x added w w' u rep : (forall k l, x_nodes x !! k = Some l -> is_Some (w_heap w !! l)) ->
  t_replicas (w_tower w) !! p = Some rep -> private (x_nodes x) (w_heap w) (tr_nodes rep) ->
  grow_replica p x added w = (w', Ok u) -> exists ns, private (x_nodes x) (w_heap w') ns /\ w_heap w ⊆ w_heap w' /\
    (forall k l, ns !! k = Some l -> tr_nodes rep !! k = Some l \/ w_heap w !! l = None) /\
    w_dbs w' = w_dbs w /\ w_participants w' = w_participants w /\ t_replica (w_tower w') = t_replica (w_tower w) /\
    t_replicas (w_tower w') !! p = Some (with_tr_nodes rep ns).
Proof.
  intros Hl Ep Hp. unfold grow_replica. rewrite Ep.
  assert (forall k l, addedTowerNodes x added !! k = Some l -> is_Some (w_heap w !! l)) as Hl' by (intros k l [? _]%map_lookup_filter_Some; by eapply Hl).
  destruct (shadows_built (w_heap w) (addedTowerNodes x added) Hl') as [Hb _].
  pose proof (grow_private _ _ _ _ _ Hl Hb Hp) as Hg. pose proof (bl_heap _ _ _ Hb) as Hh. pose proof (bl_cells _ _ _ Hb) as Hc.
  destruct (buildTowerShadows (w_heap w) (addedTowerNodes x added)) as [h grown]. cbn [fst snd] in *. intros E.
  destruct (on_replica_at _ _ _ _ _ rep E Ep) as (H1 & H2 & H3 & H4 & H5). cbn in H1, H2, H3, H4.
  exists (grown ∪ tr_nodes rep). rewrite H1, H2, H3, H4, H5. split_and!; try done.
  intros k l [Hk|[_ Hk]]%lookup_union_Some_raw; [right; by eapply Hc|by left].
Qed.

Lemma refresh_ok p x epochs w w' rep : t_replica (w_tower w) = Some p -> t_replicas (w_tower w) !! p = Some rep ->
  (forall k l, x_nodes x !! k = Some l -> is_Some (w_heap w !! l)) -> private (x_nodes x) (w_heap w) (tr_nodes rep) ->
  refresh types GetId same_bytes other_comparable (Some p) x epochs w = (w', Ok true) -> replica_done x epochs (tr_nodes rep) w w' p.
Proof.
  intros Ecur Ep Hl Hp. unfold refresh. intros (wa & rep0 & [-> Ep0]%replica_at_inv & E)%bind_inv.
  rewrite Ep in Ep0. injection Ep0 as <-. destruct (negb (same_node_set x rep)); [done|].
  apply bind_inv in E as (w1 & u & Eg & E). destruct (grow_step _ _ _ _ _ _ _ Hl Ep Hp Eg) as (ns & Hp1 & Hh1 & Hn1 & D1 & P1 & C1 & R1).
  apply bind_inv in E as (wb & rep1 & [-> Ep1]%replica_at_inv & E). rewrite R1 in Ep1. injection Ep1 as <-. cbn [tr_nodes with_tr_nodes] in E.
  apply bind_inv in E as (w2 & moved & Ef & E). unfold refresh_cells in Ef. apply heap_step_inv in Ef as (h2 & Ef & ->).
  destruct (refresh_nodes_ok (x_nodes x) ns (map_range (x_nodes x)) (map_range_nodup _) ltac:(intros [k l] Hq; by apply map_range_elem) _ _ _ _ Hp1 Ef) as (F2 & A2 & S2).
  apply bind_inv in E as (w3 & u3 & Er & E). unfold refresh_relations in Er.
  apply bind_inv in Er as (wc & rep2 & [-> Ep2]%replica_at_inv & Er). cbn in Ep2. rewrite R1 in Ep2. injection Ep2 as <-.
  apply bind_inv in Er as (w3' & rs & (h3 & Em & ->)%heap_step_inv & Er). apply rewire_moved_rewires in Em. cbn [fst] in Em.
  destruct (on_replica_at _ _ _ _ _ (with_tr_nodes rep ns) Er R1) as (H3 & D3 & P3 & C3 & R3). cbn in H3, D3, P3, C3.
  apply bind_inv in E as (w4 & u4 & Ew & E). unfold refresh_walk in Ew.
  apply bind_inv in Ew as (wd & rep3 & [-> Ep3]%replica_at_inv & Ew). apply bind_inv in Ew as (we & walk & El & Ew).
  assert (we = w3) as -> by (unfold lift in El; by injection El).
  destruct (on_replica_at _ _ _ _ _ _ Ew R3) as (H4 & D4 & P4 & C4 & R4).
  apply bind_inv in E as (w5 & u5 & Eo & E). destruct (on_replica_at _ _ _ _ _ _ Eo R4) as (H5 & D5 & P5 & C5 & R5).
  injection E as <-. assert (private (x_nodes x) h2 ns) as Hp2 by (destruct Hp1 as [Q1 Q2 Q3]; split; eauto).
  assert (shows (x_nodes x) h2 ns) as Hs2 by (intros key l Hk; by apply (S2 (key, l)), map_range_elem).
  assert (w_heap w5 = h3) as Hh5 by congruence. unfold replica_done. rewrite Hh5. split_and!; try congruence.
  - intros l v Hnl Hv. rewrite (rw_frame _ _ _ Em), F2; [by eapply lookup_weaken| |].
    + intros k _ Hk. destruct (Hn1 k l Hk) as [?|?]; [by eapply Hnl|congruence].
    + intros t (k & Hk & _). destruct (Hn1 k l Hk) as [?|?]; [by eapply Hnl|congruence].
  - eexists. split; [exact R5|]. cbn. split; [done|]. split; [by eapply rewires_private|by eapply rewires_shows].
Qed.

Lemma build_ok x epochs old w w' p : (forall k l, x_nodes x !! k = Some l -> is_Some (w_heap w !! l)) ->
  build_replica types GetId other_comparable x epochs w = (w', Ok p) -> replica_done x epochs old w w' p.
Proof.
  intros Hl. unfold build_replica. intros (w1 & rep & (h & En & ->)%heap_step_inv & E)%bind_inv.
  destruct (new_replica_ok _ _ _ _ _ Hl En) as (Hh & Hp & Hs & He). unfold store_replica in E. injection E as <- <-.
  split_and!; [done..| |].
  - intros l v _ Hv. cbn. by eapply lookup_weaken.
  - exists rep. cbn. by rewrite lookup_insert_eq.
Qed.

Lemma epochs_synced w w' rep : w_dbs w' = w_dbs w -> w_participants w' = w_participants w -> tr_epochs rep = towerParticipantEpochs w -> synced w' rep = true.
Proof.
  intros Hd Hp He. unfold synced. rewrite Hp, He. apply forallb_forall. intros t Ht. apply Z.eqb_eq.
  assert (towerEpoch w' t = towerEpoch w t) as -> by (unfold towerEpoch; by rewrite Hd).
  assert (t ∈ w_participants w) as Hin.
  { apply list_elem_of_In in Ht. unfold set_range in Ht. apply list_elem_of_fmap in Ht as ([t' []] & -> & Hin). apply map_range_elem in Hin.
    by apply lookup_gset_to_gmap_Some in Hin as [? _]. }
  assert (towerParticipantEpochs w !! t = Some (towerEpoch w t)) as ->; [|done]. unfold towerParticipantEpochs.
  apply lookup_set_to_map; [by intros ? ? _ _|]. by exists t.
Qed.
End replica.

(** C5: (invariant of the Tower) When no replica is up to date, [rebuild] - it
    refreshes the current replica in place or builds a new one - leaves one that
    is: its epochs are those of the tables, every node of the published graph
    has a shadow in a cell of its own that is no live cell, every field of the
    shadow that is not a relation has the value of the live row (for a slice, a
    value Go compares as equal), and no cell but the shadows of the old replica
    has changed. *)
Theorem rebuilt_replica_shows_the_rows `{!MapOrder nodeKey, !MapOrder string, !MapOrder Z} (types : typeEnv) (GetId : goval -> Z)
    (same_bytes : gmap loc goval -> loc -> loc -> list nat -> bool) (other_comparable : string -> bool) x w w0 w' p :
  (forall heap a b run i, same_bytes heap a b run = true -> i ∈ run -> cell_field heap a i = cell_field heap b i) ->
  ensure_ownership types GetId w = (w0, Ok tt) -> current_synced w0 = None -> c_index (w_committed w0) = Some x ->
  (forall k l, x_nodes x !! k = Some l -> is_Some (w_heap w0 !! l)) ->
  let old := default ∅ (q ← t_replica (w_tower w0); tr_nodes <$> t_replicas (w_tower w0) !! q) in
  private (x_nodes x) (w_heap w0) old ->
  rebuild types GetId same_bytes other_comparable w = (w', Ok p) ->
  current_synced w' = Some p /\
  (exists rep, t_replicas (w_tower w') !! p = Some rep /\ private (x_nodes x) (w_heap w') (tr_nodes rep) /\
    shows types (x_nodes x) (w_heap w') (tr_nodes rep)) /\
  forall l v, (forall k, old !! k <> Some l) -> w_heap w0 !! l = Some v -> w_heap w' !! l = Some v.
Proof.
  intros Hsound Ee Ec Ex Hl old Hp E. unfold rebuild in E. rewrite (bind_Ok _ _ _ _ _ Ee) in E.
  rewrite (bind_Ok _ _ w0 w0 None) in E by (unfold gets; by rewrite Ec). rewrite (bind_Ok (gets towerParticipantEpochs) _ w0 w0 _ eq_refl) in E.
  rewrite (bind_Ok _ _ w0 w0 (Some x)) in E by (unfold gets; by rewrite Ex). rewrite (bind_Ok (gets (fun w => t_replica (w_tower w))) _ w0 w0 _ eq_refl) in E.
  assert (replica_done types x (towerParticipantEpochs w0) old w0 w' p) as (Hcur & Hd & Hpa & Hfr & rep & Er & He & Hpr & Hsh).
  { apply bind_inv in E as (w1 & refreshed & E1 & E). destruct (t_replica (w_tower w0)) as [q|] eqn:Eq.
    2: { injection E1 as <- <-. by eapply build_ok. }
    destruct (t_replicas (w_tower w0) !! q) as [rep|] eqn:Er.
    2: { unfold refresh in E1. apply bind_inv in E1 as (? & ? & [_ E1]%replica_at_inv & _). congruence. }
    assert (old = tr_nodes rep) as Eo by (unfold old; cbn; by rewrite Er). clearbody old. subst old. destruct refreshed.
    - assert (replica_done types x (towerParticipantEpochs w0) (tr_nodes rep) w0 w1 q) as Hdone by (by eapply refresh_ok).
      destruct Hdone as (Hcur & H). unfold lift in E. rewrite Hcur in E. injection E as <- <-. by split.
    - unfold refresh in E1. apply bind_inv in E1 as (wa & rep0 & [-> _]%replica_at_inv & E1).
      destruct (negb (same_node_set x rep0)); [injection E1 as <-; by eapply build_ok|].
      repeat (apply bind_inv in E1 as (? & ? & _ & E1)). done. }
  split; [|split; [by exists rep|done]]. unfold current_synced. rewrite Hcur. cbn. rewrite Er. cbn. by rewrite (epochs_synced w0).
Qed.

(** ** A refresh

    Two trees with a replica, and a transaction that rewrites note 2. *)
Definition stale_world : world := ((_ ← shadowed; write_2) note_world).1.
Definition ensured_world : world := (ensure_ownership note_types graph_id stale_world).1.
Definition no_index : committedRelationIndex :=
  {| x_nodes := ∅; x_targets := ∅; x_targetFields := ∅; backFields := ∅; x_fields := ∅; x_incoming := ∅; x_owners := ∅ |}.
Definition note_index : committedRelationIndex := default no_index (c_index (w_committed ensured_world)).
Definition refreshed := rebuild note_types graph_id same_values no_other stale_world.
Definition old_shadows : gmap nodeKey loc :=
  default ∅ (q ← t_replica (w_tower ensured_world); tr_nodes <$> t_replicas (w_tower ensured_world) !! q).

Definition private_check (live : gmap nodeKey loc) (heap : gmap loc goval) (ns : gmap nodeKey loc) : bool :=
  bool_decide (map_Forall (fun _ s => is_Some (heap !! s)) ns) && bool_decide (NoDup (map_to_list ns).*2) &&
  bool_decide (map_Forall (fun _ s => s ∉ (map_to_list live).*2) ns).
Lemma private_check_ok live heap ns : private_check live heap ns = true -> private live heap ns.
Proof.
  unfold private_check. rewrite !andb_true_iff, !bool_decide_eq_true. intros [[A B] C]. split; [exact A| |].
  - intros k k' s Hk%elem_of_map_to_list Hk'%elem_of_map_to_list. apply list_elem_of_lookup in Hk as [i Hi], Hk' as [j Hj].
    assert (i = j) as ->; [|congruence]. eapply (NoDup_lookup _ i j s B); rewrite list_lookup_fmap; [by rewrite Hi|by rewrite Hj].
  - intros k s k' l Hk Hl ->. apply (C k l Hk). apply (list_elem_of_fmap_2' snd _ (k', l)); [by apply elem_of_map_to_list|done].
Qed.

Lemma rebuilt_replica_shows_the_rows_witness :
  size old_shadows = 4 /\ current_synced ensured_world = None /\ current_synced refreshed.1 = Some 1%positive /\
  exists rep, t_replicas (w_tower refreshed.1) !! 1%positive = Some rep /\ private (x_nodes note_index) (w_heap refreshed.1) (tr_nodes rep) /\
    shows note_types (x_nodes note_index) (w_heap refreshed.1) (tr_nodes rep).
Proof.
  split; [vm_compute; reflexivity|]. split; [vm_compute; reflexivity|].
  destruct (rebuilt_replica_shows_the_rows note_types graph_id same_values no_other note_index stale_world ensured_world refreshed.1 1%positive) as (H1 & H2 & _).
  - exact same_values_sound.
  - apply ran; [unfold ensured_world; reflexivity|vm_compute; reflexivity].
  - vm_compute. reflexivity.
  - unfold note_index. apply found. vm_compute. reflexivity.
  - apply (bool_decide_unpack (map_Forall (fun _ l => is_Some (w_heap ensured_world !! l)) (x_nodes note_index))). vm_compute. exact I.
  - apply private_check_ok. vm_compute. reflexivity.
  - apply ran; [unfold refreshed; reflexivity|vm_compute; reflexivity].
  - split; [exact H1|exact H2].
Defined.
