(* ===== verification/BranchCopy.v ===== *)
(** * Copies of branches

    What a reader or a transaction gets is a deep copy: of every node of the
    branch two copies in cells of their own, whose relation pointers lead to the
    copies inside the branch and to the live entities outside of it. *)
From S2P Require Import Prelude GoBytes GoReflect RelationSchema SchemaRows RelationModel RelationGraph CommittedGraph PublishedIndex RelationDelta Transaction.
From S2P Require Import ChunkStore IndexSpecs SecondaryIndex IndexCommit Storage Table Aggregate World Commit Api Tower CommitSteps CommitEffect TowerEffect.

(** ** Redirecting a field *)

(** [f] on the pointers of a relation field; an empty slice stays as it is. *)
Definition map_pointers (many : bool) (f : goval -> goval) (v : goval) : goval :=
  if negb many then f v else match slice_elems v with [] => v | l => VSlice (Some (f <$> l)) end.
Definition pointers_in (many : bool) (v : goval) : list goval := if negb many then [v] else slice_elems v.

Lemma set_set heap l i u v : set_node_field (set_node_field heap l i u) l i v = set_node_field heap l i v.
Proof.
  unfold set_node_field. destruct (heap !! l) as [s|] eqn:E; [|by rewrite E]. rewrite lookup_insert_eq. cbn.
  by rewrite list_insert_insert_eq, insert_insert_eq.
Qed.
Lemma set_same heap l i v : node_field heap l i = Some v -> (exists fs, heap !! l = Some (VStruct fs)) -> set_node_field heap l i v = heap.
Proof.
  unfold node_field, set_node_field. intros E [fs El]. rewrite El in *. cbn in *. rewrite list_insert_id by done. by apply insert_id.
Qed.
Lemma node_field_set heap l i u v : node_field heap l i = Some v -> node_field (set_node_field heap l i u) l i = Some u.
Proof.
  unfold node_field, set_node_field. destruct (heap !! l) as [s|]; [|done]. cbn. intros E. rewrite lookup_insert_eq. cbn.
  apply list_lookup_insert_eq. by eapply lookup_lt_Some.
Qed.
Lemma struct_of_field heap l i v : node_field heap l i = Some v -> exists fs, heap !! l = Some (VStruct fs).
Proof.
  unfold node_field. destruct (heap !! l) as [s|]; [|done]. cbn. destruct s; cbn; try done. intros _. by eexists.
Qed.

Lemma redirect_value (f : gmap loc goval -> goval -> goval) (g : goval -> goval) (P : gmap loc goval -> Prop) heap l r heap' :
  redirect f heap l r = Ok heap' -> P heap -> (forall h u, P h -> P (set_node_field h l (fieldIndex r) u)) ->
  (forall h p, P h -> p ∈ pointers_in (many r) (cell_field heap l (fieldIndex r)) -> f h p = g p) ->
  exists v, node_field heap l (fieldIndex r) = Some v /\ heap' = set_node_field heap l (fieldIndex r) (map_pointers (many r) g v).
Proof.
  unfold redirect. destruct (node_field heap l (fieldIndex r)) as [v|] eqn:Ev; [|done]. intros E Hp Hstep Hf. exists v. split; [done|].
  assert (cell_field heap l (fieldIndex r) = v) as Ecf.
  { unfold cell_field, field_value, deref, node_field in *. destruct (heap !! l); [|done]. cbn in *. by rewrite Ev. }
  rewrite Ecf in Hf. unfold map_pointers, pointers_in in *. destruct (negb (many r)).
  { injection E as <-. by rewrite Hf by (done || by left). }
  injection E as <-. set (el := slice_elems v) in *.
  assert (forall m n u, m + n = length el -> slice_elems u = (g <$> take n el) ++ drop n el ->
    foldl (fun heap j => match slice_elems (default (VSlice None) (node_field heap l (fieldIndex r))) !! j with
      | Some p => set_node_field heap l (fieldIndex r) (VSlice (Some (<[j := f heap p]> (slice_elems (default (VSlice None) (node_field heap l (fieldIndex r)))))))
      | None => heap end) (set_node_field heap l (fieldIndex r) u) (seq n m) =
    set_node_field heap l (fieldIndex r) (if (m =? 0)%nat then u else VSlice (Some (g <$> el)))) as H.
  { induction m as [|m IH]; intros n u Hlen Hu; [done|]. cbn [seq foldl]. rewrite !(node_field_set _ _ _ _ _ Ev). change (default (VSlice None) (Some u)) with u.
    rewrite Hu. destruct (el !! n) as [p|] eqn:Ep; [|apply lookup_ge_None in Ep; lia].
    rewrite lookup_app_r by (rewrite length_fmap, length_take; lia). rewrite length_fmap, length_take, Nat.min_l, Nat.sub_diag by lia.
    rewrite (drop_S el p n) by done. cbn [lookup list_lookup]. rewrite set_set.
    rewrite insert_app_r_alt by (rewrite length_fmap, length_take; lia). rewrite length_fmap, length_take, Nat.min_l, Nat.sub_diag by lia. cbn [insert list_insert].
    rewrite Hf by (first [by apply Hstep|by eapply list_elem_of_lookup_2]).
    rewrite IH; [|lia|].
    - destruct m; [|done]. cbn [Nat.eqb]. assert (g <$> el = (g <$> take n el) ++ g p :: (g <$> drop (S n) el)) as ->.
      { rewrite <- fmap_cons, <- fmap_app. by rewrite take_drop_middle. }
      by rewrite (drop_ge el (S n)) by lia.
    - cbn. rewrite (take_S_r el n p) by done. rewrite fmap_app. cbn. by rewrite <- app_assoc. }
  specialize (H (length el) 0 v). rewrite (set_same heap) in H by (done || by eapply struct_of_field).
  rewrite H by (rewrite ?take_0, ?drop_0; (done || lia)). by destruct el.
Qed.

Lemma cell_field_of heap l i v : node_field heap l i = Some v -> cell_field heap l i = v.
Proof.
  unfold cell_field, field_value, deref, node_field. destruct (heap !! l); [|done]. cbn. by intros ->.
Qed.
Lemma cell_field_set heap l i u a j : (a <> l \/ i <> j) -> cell_field (set_node_field heap l i u) a j = cell_field heap a j.
Proof.
  intros H. unfold cell_field, deref, set_node_field. destruct (heap !! l) as [s|] eqn:E; [|done].
  destruct (decide (l = a)) as [<-|]; [|by rewrite lookup_insert_ne]. destruct H as [?|H]; [done|].
  rewrite lookup_insert_eq, E. unfold field_value. cbn. by rewrite list_lookup_insert_ne.
Qed.
Lemma set_fresh (h heap : gmap loc goval) l i v : h ⊆ heap -> h !! l = None -> h ⊆ set_node_field heap l i v.
Proof.
  intros Hh Hl. apply map_subseteq_spec. intros a x Ha. rewrite set_node_field_frame; [by eapply lookup_weaken|]. intros ->. congruence.
Qed.

(** ** Pointers into a branch *)

Section copy.
Context (types : typeEnv) (GetId : goval -> Z) `{!MapOrder nodeKey, !MapOrder string}.
(** The heap before the branch is copied. *)
Context (heap0 : gmap loc goval).

Definition to_copy (rs : list touchedResource) (orig : bool) (r : relationSpec) (p : goval) : goval :=
  match valueID GetId heap0 (readable types r p) with
  | None => p
  | Some id =>
      match find_key rs {| key_typ := target r; key_id := id |} with
      | Some res => VPointer (Some (if orig then original res else t_work res))
      | None => p
      end
  end.
Definition known (p : goval) : Prop := forall l, p = VPointer (Some l) -> is_Some (heap0 !! l).

Lemma known_readable r p : known p -> known (readable types r p).
Proof. intros Hk. unfold readable. destruct (spec_exported types r); [done|]. by destruct p. Qed.
Lemma valueID_known heap p : heap0 ⊆ heap -> known p -> valueID GetId heap p = valueID GetId heap0 p.
Proof.
  intros Hh Hk. destruct p as [| | | | | | | | |[l|]|]; try done. cbn. destruct (Hk l eq_refl) as [v Hv]. by rewrite Hv, (lookup_weaken _ _ _ _ Hv Hh).
Qed.

Lemma find_key_cons r rs key : find_key (r :: rs) key = if decide (resource_node r = key) then Some r else find_key rs key.
Proof. unfold find_key. cbn. case_bool_decide; case_decide; done. Qed.
Lemma positions_lookup rs : NoDup (resource_node <$> rs) -> forall start m key,
  let m' := foldl (fun (m : gmap nodeKey nat) (p : nat * touchedResource) => <[{| key_typ := dbName p.2; key_id := t_id p.2 |} := p.1]> m) m (zip (seq start (length rs)) rs) in
  match find_key rs key with
  | Some r => exists i, m' !! key = Some (start + i) /\ rs !! i = Some r
  | None => m' !! key = m !! key
  end.
Proof.
  induction rs as [|r0 rs IH]; [done|]. cbn [fmap list_fmap]. intros [Hn Hnd]%NoDup_cons start m key. cbn [length seq zip zip_with foldl fst snd].
  specialize (IH Hnd (S start) (<[resource_node r0 := start]> m) key). cbn zeta in IH |- *. rewrite find_key_cons.
  change {| key_typ := dbName r0; key_id := t_id r0 |} with (resource_node r0). case_decide as Ek.
  - subst key. assert (find_key rs (resource_node r0) = None) as Ef.
    { destruct (find_key rs (resource_node r0)) as [r'|] eqn:Ef; [|done]. apply List.find_some in Ef as [Hin Ek%bool_decide_eq_true].
      destruct Hn. rewrite <- Ek. by apply list_elem_of_fmap_2, list_elem_of_In. }
    rewrite Ef in IH. exists 0. split; [|done]. etrans; [exact IH|]. rewrite lookup_insert_eq. f_equal. lia.
  - destruct (find_key rs key) as [r|]; [|by rewrite lookup_insert_ne in IH]. destruct IH as (i & E & Er). exists (S i). split; [|done].
    etrans; [exact E|]. f_equal. lia.
Qed.

Lemma rewire_pointer_spec rs orig r heap p : NoDup (resource_node <$> rs) -> heap0 ⊆ heap -> known p ->
  rewireResourcePointer types GetId rs (resource_positions rs) orig r heap p = to_copy rs orig r p.
Proof.
  intros Hnd Hh Hk. unfold rewireResourcePointer, to_copy. rewrite (valueID_known heap _ Hh (known_readable r p Hk)). destruct (valueID GetId heap0 (readable types r p)) as [id|]; [|done].
  set (key := {| key_typ := target r; key_id := id |}). unfold resource_positions. destruct (Nat.ltb_spec 1 (length rs)) as [Hlt|Hge].
  - pose proof (positions_lookup rs Hnd 0 ∅ key) as E. cbn zeta in E. destruct (find_key rs key) as [res|]; [|by rewrite E, lookup_empty].
    destruct E as (i & -> & Ei). cbn. by rewrite Ei.
  - destruct rs as [|res [|]]; [done| |cbn in Hge; lia]. rewrite find_key_cons. unfold resource_node, key.
    case_decide as Ek.
    + injection Ek as -> ->. by rewrite bool_decide_true, Z.eqb_refl by done.
    + destruct (bool_decide_reflect (dbName res = target r)) as [Et|Et], (Z.eqb_spec (t_id res) id) as [Ei|Ei]; try done. by destruct Ek; f_equal.
Qed.

(** ** The loops over fields and resources *)

(** In the cell [l] the relation fields of [specs] are redirected and the other
    fields are as in [heap]. *)
Definition redirected (rs : list touchedResource) (orig : bool) (specs : list relationSpec) (heap heap' : gmap loc goval) (l : loc) : Prop :=
  (forall i, (forall r, r ∈ specs -> fieldIndex r <> i) -> cell_field heap' l i = cell_field heap l i) /\
  forall r, r ∈ specs -> cell_field heap' l (fieldIndex r) = map_pointers (many r) (to_copy rs orig r) (cell_field heap l (fieldIndex r)).
(** The relation fields of a cell lead to cells that were there before. *)
Definition links_known (heap : gmap loc goval) (specs : list relationSpec) (l : loc) : Prop := forall r p,
  r ∈ specs -> p ∈ pointers_in (many r) (cell_field heap l (fieldIndex r)) -> known p.

Section resource.
Context (rs : list touchedResource) (f : bool -> relationSpec -> gmap loc goval -> goval -> goval).
Hypothesis (Hf : forall orig r h p, heap0 ⊆ h -> known p -> f orig r h p = to_copy rs orig r p).

Lemma one_field orig h l r h' : redirect (f orig r) h l r = Ok h' -> heap0 ⊆ h -> heap0 !! l = None ->
  (forall p, p ∈ pointers_in (many r) (cell_field h l (fieldIndex r)) -> known p) ->
  heap0 ⊆ h' /\ (forall a, a <> l -> h' !! a = h !! a) /\ (forall a j, a <> l \/ fieldIndex r <> j -> cell_field h' a j = cell_field h a j) /\
  cell_field h' l (fieldIndex r) = map_pointers (many r) (to_copy rs orig r) (cell_field h l (fieldIndex r)).
Proof.
  intros E Hh Hl Hk. destruct (redirect_value (f orig r) (to_copy rs orig r) (fun h => heap0 ⊆ h) h l r h' E Hh) as (v & Ev & ->).
  - intros h1 u Hh1. by apply set_fresh.
  - intros h1 p Hh1 Hp. by apply Hf, Hk.
  - split_and!; [by apply set_fresh|intros a Ha; by apply set_node_field_frame|intros a j; apply cell_field_set|].
    rewrite (cell_field_of _ _ _ _ Ev). eapply cell_field_of, node_field_set, Ev.
Qed.

Lemma one_resource w o specs : w <> o -> heap0 !! w = None -> heap0 !! o = None -> NoDup (fieldIndex <$> specs) -> forall h h',
  fold_outcome (fun heap r => heap ← redirect (f false r) heap w r; redirect (f true r) heap o r) h specs = Ok h' ->
  heap0 ⊆ h -> links_known h specs w -> links_known h specs o ->
  heap0 ⊆ h' /\ (forall a, a <> w -> a <> o -> h' !! a = h !! a) /\ redirected rs false specs h h' w /\ redirected rs true specs h h' o.
Proof.
  intros Hne Hw Ho. induction specs as [|r specs IH]; cbn [fold_outcome].
  { intros _ h h' [= <-] Hh _ _. split_and!; [done|done|split; [done|by intros r ?%elem_of_nil]..]. }
  cbn [fmap list_fmap]. intros [Hr Hnd]%NoDup_cons h h' E Hh Kw Ko.
  assert (forall r', r' ∈ specs -> fieldIndex r <> fieldIndex r') as Hne' by (intros r' Hr' Heq; apply Hr; rewrite Heq; by apply list_elem_of_fmap_2).
  destruct (redirect (f false r) h w r) as [h1| |] eqn:E1; [|done..]. cbn in E.
  destruct (redirect (f true r) h1 o r) as [h2| |] eqn:E2; [|done..]. cbn in E.
  destruct (one_field false h w r h1 E1 Hh Hw) as (H1 & F1 & S1 & V1); [intros p; apply Kw; by left|].
  destruct (one_field true h1 o r h2 E2 H1 Ho) as (H2 & F2 & S2 & V2); [intros p; rewrite S1 by (left; done); apply Ko; by left|].
  assert (forall j, j <> fieldIndex r -> cell_field h2 w j = cell_field h w j) as Sw by (intros j Hj; rewrite S2 by (by left); apply S1; right; done).
  assert (forall j, j <> fieldIndex r -> cell_field h2 o j = cell_field h o j) as So by (intros j Hj; rewrite S2 by (right; done); apply S1; left; done).
  destruct (IH Hnd h2 h' E H2) as (H3 & F3 & [Aw Bw] & [Ao Bo]).
  { intros r' p Hr'. rewrite Sw by (intros Heq; by apply (Hne' r')). apply Kw. by right. }
  { intros r' p Hr'. rewrite So by (intros Heq; by apply (Hne' r')). apply Ko. by right. }
  split_and!; [done|intros a ? ?; rewrite F3, F2, F1 by done; done| |].
  - split.
    + intros i Hi. rewrite Aw by (intros; apply Hi; by right). apply Sw. intros ->. apply (Hi r); [by left|done].
    + intros r' [->|Hr']%elem_of_cons.
      * rewrite Aw by (intros r' ?; intros Heq; by apply (Hne' r')). rewrite S2 by (by left). exact V1.
      * rewrite Bw by done. rewrite Sw by (intros Heq; by apply (Hne' r')). done.
  - split.
    + intros i Hi. rewrite Ao by (intros; apply Hi; by right). apply So. intros ->. apply (Hi r); [by left|done].
    + intros r' [->|Hr']%elem_of_cons.
      * rewrite Ao by (intros r' ?; intros Heq; by apply (Hne' r')). rewrite V2, S1 by (left; done). done.
      * rewrite Bo by done. rewrite So by (intros Heq; by apply (Hne' r')). done.
Qed.
End resource.

(** The cells of the copies. *)
Definition cells (rs : list touchedResource) : list loc := concat ((fun r => [t_work r; original r]) <$> rs).
Lemma cells_elem rs l : l ∈ cells rs <-> exists r, r ∈ rs /\ (l = t_work r \/ l = original r).
Proof.
  unfold cells. induction rs as [|r rs IH]; cbn.
  { split; [by intros ?%elem_of_nil|by intros (? & ?%elem_of_nil & _)]. }
  rewrite !elem_of_cons, IH. split.
  - intros [->|[->|(r' & Hr' & H)]]; [exists r; split; [by left|by left]|exists r; split; [by left|by right]|exists r'; split; [by right|done]].
  - intros (r' & [->|Hr']%elem_of_cons & H); [by destruct H; [left|right; left]|right; right; by exists r'].
Qed.
Lemma all_resources (f : bool -> relationSpec -> gmap loc goval -> goval -> goval) rs todo :
  (forall orig r h p, heap0 ⊆ h -> known p -> f orig r h p = to_copy rs orig r p) ->
  NoDup (cells todo) -> (forall l, l ∈ cells todo -> heap0 !! l = None) -> forall h h',
  fold_outcome (fun heap res => specs ← relationSpecs types (dbName res);
    fold_outcome (fun heap r => heap ← redirect (f false r) heap (t_work res) r; redirect (f true r) heap (original res) r) heap specs) h todo = Ok h' ->
  heap0 ⊆ h -> (forall res specs, res ∈ todo -> relationSpecs types (dbName res) = Ok specs -> links_known h specs (t_work res) /\ links_known h specs (original res)) ->
  heap0 ⊆ h' /\ (forall a, a ∉ cells todo -> h' !! a = h !! a) /\
  forall res, res ∈ todo -> exists specs, relationSpecs types (dbName res) = Ok specs /\
    redirected rs false specs h h' (t_work res) /\ redirected rs true specs h h' (original res).
Proof.
  intros Hf. induction todo as [|res todo IH]; cbn [fold_outcome].
  { intros _ _ h h' [= <-] Hh _. split_and!; [done|done|by intros r ?%elem_of_nil]. }
  change (cells (res :: todo)) with (t_work res :: original res :: cells todo).
  intros Hnd Hfresh h h' E Hh Hk. apply NoDup_cons in Hnd as [Hw Hnd]. apply NoDup_cons in Hnd as [Ho Hnd].
  destruct (relationSpecs types (dbName res)) as [specs| |] eqn:Es; [|done..]. cbn in E.
  destruct (fold_outcome _ h specs) as [h1| |] eqn:E1; [|done..]. cbn in E. destruct (Hk res specs ltac:(left) Es) as [Kw Ko].
  destruct (one_resource rs f Hf (t_work res) (original res) specs) with (h := h) (h' := h1) as (H1 & F1 & Rw & Ro); try done.
  { intros Heq. apply Hw. rewrite Heq. by left. }
  { apply Hfresh. by left. }
  { apply Hfresh. right. by left. }
  { by eapply relationSpecs_nodup. }
  assert (forall a, a ∈ cells todo -> h1 !! a = h !! a) as Hsame.
  { intros a Ha. apply F1; intros ->; [apply Hw; by right|done]. }
  assert (forall a j, a ∈ cells todo -> cell_field h1 a j = cell_field h a j) as Hfields by (intros a j Ha; unfold cell_field, deref; by rewrite Hsame).
  assert (forall r, r ∈ todo -> t_work r ∈ cells todo /\ original r ∈ cells todo) as Hin.
  { intros r Hr. split; apply cells_elem; exists r; [by split; [|left]|by split; [|right]]. }
  destruct (IH Hnd (fun l Hl => Hfresh l ltac:(right; right; exact Hl)) h1 h' E H1) as (H2 & F2 & R2).
  { intros r sp Hr Hs. destruct (Hk r sp ltac:(by right) Hs) as [K1 K2], (Hin r Hr) as [I1 I2]. split; intros r' p Hr'; rewrite Hfields by done; [by apply K1|by apply K2]. }
  split_and!; [done|intros a Ha|].
  - rewrite F2; [apply F1; intros ->; apply Ha; [by left|right; by left]|]. intros Hc. apply Ha. right. by right.
  - intros r [->|Hr]%elem_of_cons.
    + exists specs. split; [done|]. assert (forall j, cell_field h' (t_work res) j = cell_field h1 (t_work res) j) as W1.
      { intros j. unfold cell_field, deref. rewrite F2; [done|]. intros Hc. apply Hw. by right. }
      assert (forall j, cell_field h' (original res) j = cell_field h1 (original res) j) as O1 by (intros j; unfold cell_field, deref; by rewrite F2).
      unfold redirected in *. setoid_rewrite W1. setoid_rewrite O1. done.
    + destruct (R2 r Hr) as (sp & Hs & Q1 & Q2), (Hin r Hr) as [I1 I2]. exists sp. split; [done|]. unfold redirected in *.
      split; [destruct Q1 as [A B]|destruct Q2 as [A B]]; (split; [intros i Hi; rewrite A by done; by apply Hfields|intros r' Hr'; rewrite B by done; by rewrite Hfields]).
Qed.

(** ** Taking the copies *)

(** The row a resource was copied from. *)
Definition copied_row (dbs : gmap string DB) (r : touchedResource) (slot : resourceSlot) : Prop :=
  exists db, dbs !! dbName r = Some db /\ resource db (t_id r) = Some slot /\ ver r = version slot.
Definition fresh_copy (dbs : gmap string DB) (h : gmap loc goval) (r : touchedResource) : Prop := exists slot, copied_row dbs r slot /\
  heap0 !! t_work r = None /\ heap0 !! original r = None /\
  h !! t_work r = Some (deref heap0 (item slot)) /\ h !! original r = Some (deref heap0 (item slot)).

Lemma snapshot_fresh dbs h key h' r : heap0 ⊆ h -> (forall db slot, dbs !! key_typ key = Some db -> resource db (key_id key) = Some slot -> is_Some (heap0 !! item slot)) ->
  snapshot_resource h dbs key = Ok (h', r) ->
  h ⊆ h' /\ resource_node r = key /\ fresh_copy dbs h' r /\ h !! t_work r = None /\ h !! original r = None /\ t_work r <> original r.
Proof.
  intros Hh Ha. unfold snapshot_resource, committerFor. destruct (dbs !! key_typ key) as [db|] eqn:Edb; [|done]. cbn. unfold snapshotResource.
  destruct (resource db (key_id key)) as [slot|] eqn:Es; [|done]. unfold copy_cell.
  destruct (new_cell h (deref h (item slot))) as [h1 w] eqn:E1. apply new_cell_spec in E1 as [Hw ->].
  destruct (new_cell _ (deref (<[w:=_]> h) (item slot))) as [h2 o] eqn:E2. apply new_cell_spec in E2 as [Ho ->]. intros [= <- <-]. cbn.
  assert (h ⊆ <[w:=deref h (item slot)]> h) as H1 by (by apply insert_subseteq). destruct (Ha db slot eq_refl Es) as [v Hv].
  assert (deref h (item slot) = v /\ deref heap0 (item slot) = v /\ deref (<[w:=deref h (item slot)]> h) (item slot) = v) as (D1 & D2 & D3).
  { assert (forall h', h ⊆ h' -> deref h' (item slot) = v) as Hd.
    { intros h' Hh'. unfold deref. by rewrite (lookup_weaken heap0 h' (item slot) v) by (done || by etrans). }
    split_and!; [by apply Hd| |by apply Hd]. unfold deref. by rewrite Hv. }
  assert (w <> o) as Hwo by (intros ->; by rewrite lookup_insert_eq in Ho).
  assert (h !! o = None) as Hon by (eapply lookup_weaken_None; [exact Ho|done]). split_and!.
  - etrans; [exact H1|by apply insert_subseteq].
  - unfold resource_node. cbn. by destruct key.
  - exists slot. cbn. split_and!.
    + by exists db.
    + by eapply lookup_weaken_None.
    + by eapply lookup_weaken_None.
    + rewrite lookup_insert_ne, lookup_insert_eq by done. by rewrite D1, D2.
    + rewrite lookup_insert_eq. by rewrite D3, D2.
  - done.
  - done.
  - done.
Qed.
Lemma fresh_copy_weaken dbs h h' r : h ⊆ h' -> fresh_copy dbs h r -> fresh_copy dbs h' r.
Proof. intros Hh (slot & H & A & B & C & D). exists slot. split_and!; try done; by eapply lookup_weaken. Qed.

Lemma clone_fold dbs root keys : NoDup keys ->
  (forall key db slot, key ∈ keys -> dbs !! key_typ key = Some db -> resource db (key_id key) = Some slot -> is_Some (heap0 !! item slot)) ->
  forall h acc work h' rs work', heap0 ⊆ h -> fold_outcome (clone_key dbs root) (h, acc, work) keys = Ok (h', rs, work') ->
  exists rs', rs = acc ++ rs' /\ resource_node <$> rs' = keys /\ h ⊆ h' /\ Forall (fresh_copy dbs h') rs' /\ NoDup (cells rs') /\
    (forall l, l ∈ cells rs' -> h !! l = None) /\ (work' = work \/ exists r, r ∈ rs' /\ resource_node r = root /\ work' = Some (t_work r)).
Proof.
  induction keys as [|key keys IH]; cbn [fold_outcome].
  { intros _ _ h acc work h' rs work' Hh [= <- <- <-]. exists []. rewrite app_nil_r. split_and!; try done; [constructor|by intros l ?%elem_of_nil|by left]. }
  intros [Hk Hnd]%NoDup_cons Ha h acc work h' rs work' Hh.
  destruct (clone_key dbs root (h, acc, work) key) as [[[h1 acc1] work1]| |] eqn:E0; [|discriminate..]. cbn. intros E.
  unfold clone_key in E0. destruct (snapshot_resource h dbs key) as [[h2 r]| |] eqn:E1; [|discriminate..]. injection E0 as <- <- <-.
  destruct (snapshot_fresh dbs h key h2 r Hh (fun db slot => Ha key db slot ltac:(left)) E1) as (S1 & <- & C1 & W1 & O1 & N1).
  destruct (IH Hnd (fun k db slot Hin => Ha k db slot ltac:(by right)) h2 _ _ h' rs work' ltac:(by etrans) E) as (rs' & -> & <- & S2 & F2 & D2 & X2 & R2).
  exists (r :: rs'). rewrite <- app_assoc. change (cells (r :: rs')) with (t_work r :: original r :: cells rs').
  assert (forall a, is_Some (h2 !! a) -> a ∉ cells rs') as Hout by (intros a [v Hv] Hin; by rewrite X2 in Hv).
  assert (is_Some (h2 !! t_work r) /\ is_Some (h2 !! original r)) as [A1 A2] by (destruct C1 as (slot & _ & _ & _ & -> & ->); by split; eexists).
  split_and!; try done.
  - by etrans.
  - constructor; [by eapply fresh_copy_weaken|done].
  - constructor; [|constructor; [by apply Hout|done]]. rewrite elem_of_cons. intros [?|?]; [done|]. by apply (Hout (t_work r)).
  - intros l [->|[->|Hl]%elem_of_cons]%elem_of_cons; [done|done|]. eapply lookup_weaken_None; [by apply X2|done].
  - destruct R2 as [->|(r' & Hr' & Ek & ->)]; [|right; exists r'; by split; [right|]]. case_bool_decide; [right; exists r; by split; [left|]|by left].
Qed.
End copy.

(** ** The theorem *)

Section theorem.
Context (types : typeEnv) (GetId : goval -> Z) `{!MapOrder nodeKey, !MapOrder string}.
Implicit Types (heap : gmap loc goval) (dbs : gmap string DB).

(** The rows of a branch: their cells are there, and so are the entities their
    relation fields lead to. *)
Definition row_linked heap dbs (key : nodeKey) : Prop := forall db slot,
  dbs !! key_typ key = Some db -> resource db (key_id key) = Some slot ->
  is_Some (heap !! item slot) /\ forall specs, relationSpecs types (key_typ key) = Ok specs -> links_known heap heap specs (item slot).
(** The nodes a clone of [root] takes. *)
Definition branch_of (c : committedOwnership) (root : nodeKey) (keys : list nodeKey) : Prop :=
  if committedOwnerHasChildren c root then exists c', committedOwnershipKeys c root = Ok (c', keys) else keys = [root].

(** One copy, the working one or the untouched one, of the row in [slot]. *)
Definition copy_of heap heap' (rs : list touchedResource) (orig : bool) (r : touchedResource) (slot : resourceSlot) : Prop :=
  let l := if orig then original r else t_work r in
  exists specs, relationSpecs types (dbName r) = Ok specs /\
  (forall i, (forall f, f ∈ specs -> fieldIndex f <> i) -> cell_field heap' l i = cell_field heap (item slot) i) /\
  forall f, f ∈ specs -> cell_field heap' l (fieldIndex f) = map_pointers (many f) (to_copy types GetId heap rs orig f) (cell_field heap (item slot) (fieldIndex f)).
Record deep_copy heap dbs heap' (keys : list nodeKey) (rs : list touchedResource) : Prop := {
  dc_old : heap ⊆ heap';
  dc_keys : resource_node <$> rs = keys;
  dc_cells : NoDup (cells rs);
  dc_fresh : forall l, l ∈ cells rs -> heap !! l = None;
  dc_rows : forall r, r ∈ rs -> exists slot, copied_row dbs r slot /\ copy_of heap heap' rs false r slot /\ copy_of heap heap' rs true r slot;
}.

(** The steps both paths end with. *)
Lemma rewired_deep heap dbs h rs keys heap' (f : bool -> relationSpec -> gmap loc goval -> goval -> goval) : NoDup keys ->
  (forall key, key ∈ keys -> row_linked heap dbs key) -> resource_node <$> rs = keys -> heap ⊆ h -> Forall (fresh_copy heap dbs h) rs -> NoDup (cells rs) ->
  (forall orig r h p, heap ⊆ h -> known heap p -> f orig r h p = to_copy types GetId heap rs orig r p) ->
  fold_outcome (fun heap res => specs ← relationSpecs types (dbName res);
    fold_outcome (fun heap r => heap ← redirect (f false r) heap (t_work res) r; redirect (f true r) heap (original res) r) heap specs) h rs = Ok heap' ->
  deep_copy heap dbs heap' keys rs.
Proof.
  intros Hnd Hlink <- Hh Hfresh Hcells Hf E. rewrite Forall_forall in Hfresh.
  assert (forall l, l ∈ cells rs -> heap !! l = None) as Hnone by (intros l (r & Hr & [->| ->])%cells_elem; by destruct (Hfresh r Hr) as (slot & _ & ? & ? & _)).
  assert (forall r slot, r ∈ rs -> copied_row dbs r slot -> forall specs, relationSpecs types (dbName r) = Ok specs -> links_known heap heap specs (item slot)) as Hk.
  { intros r slot Hr (db & Edb & Es & _). by apply (Hlink (resource_node r) ltac:(by apply list_elem_of_fmap_2) db slot). }
  assert (forall r, r ∈ rs -> exists slot, copied_row dbs r slot /\
    (forall j, cell_field h (t_work r) j = cell_field heap (item slot) j) /\ forall j, cell_field h (original r) j = cell_field heap (item slot) j) as Hsame.
  { intros r Hr. destruct (Hfresh r Hr) as (slot & Hrow & _ & _ & Ew & Eo). exists slot. split; [done|]. unfold cell_field.
    split; intros j; unfold deref at 1; by rewrite ?Ew, ?Eo. }
  destruct (all_resources types GetId heap f rs rs Hf Hcells Hnone h heap' E Hh) as (Hold & _ & Hall).
  { intros res specs Hr Es. destruct (Hsame res Hr) as (slot & Hrow & Sw & So). split; intros r' p Hr'; rewrite ?Sw, ?So; by eapply Hk. }
  split; [done|done|done|done|]. intros r Hr. destruct (Hsame r Hr) as (slot & Hrow & Sw & So), (Hall r Hr) as (specs & Es & [A B] & [C D]).
  exists slot. split; [done|]. split; exists specs; (split; [done|]); split.
  - intros i Hi. by rewrite A, Sw.
  - intros f' Hf'. by rewrite B, Sw.
  - intros i Hi. by rewrite C, So.
  - intros f' Hf'. by rewrite D, So.
Qed.

(** ** Success *)

Lemma fold_outcome_succeeds {A B} (P : B -> Prop) (f : B -> A -> outcome B) l : (forall b a, a ∈ l -> P b -> exists b', f b a = Ok b' /\ P b') ->
  forall b, P b -> exists b', fold_outcome f b l = Ok b' /\ P b'.
Proof.
  induction l as [|a l IH]; intros Hf b Hb; [by exists b|]. cbn. destruct (Hf b a ltac:(left) Hb) as (b1 & -> & H1).
  apply IH; [|done]. intros b' a' Ha'. apply Hf. by right.
Qed.
Lemma set_has_field heap l i v a j : is_Some (node_field heap a j) -> is_Some (node_field (set_node_field heap l i v) a j).
Proof.
  unfold node_field, set_node_field. destruct (heap !! l) as [s|] eqn:E; [|done].
  destruct (decide (l = a)) as [<-|]; [|by rewrite lookup_insert_ne]. rewrite E, lookup_insert_eq. cbn.
  intros [x Hx]. apply lookup_lt_is_Some_2. rewrite length_insert. by eapply lookup_lt_Some.
Qed.
Lemma redirect_total f heap l r (P : gmap loc goval -> Prop) : is_Some (node_field heap l (fieldIndex r)) -> P heap ->
  (forall h i v, P h -> P (set_node_field h l i v)) -> exists heap', redirect f heap l r = Ok heap' /\ P heap'.
Proof.
  intros [v Ev] Hp Hs. unfold redirect. rewrite Ev. destruct (negb (many r)); eexists; (split; [done|]); [by apply Hs|].
  generalize (seq 0 (length (slice_elems v))). intros js. revert heap Ev Hp. induction js as [|j js IH]; intros heap Ev Hp; [done|]. cbn.
  assert (forall h, P h -> P (foldl (fun heap j => match slice_elems (default (VSlice None) (node_field heap l (fieldIndex r))) !! j with
      | Some p => set_node_field heap l (fieldIndex r) (VSlice (Some (<[j:=f heap p]> (slice_elems (default (VSlice None) (node_field heap l (fieldIndex r)))))))
      | None => heap end) h js)) as H.
  { clear -Hs. induction js as [|j js IH]; intros h Hh; [done|]. cbn. apply IH. destruct (slice_elems _ !! j); [by apply Hs|done]. }
  apply H. destruct (slice_elems _ !! j); [by apply Hs|done].
Qed.

(** Every row of the branch is there, with a field for every relation. *)
Definition row_whole heap dbs (key : nodeKey) : Prop := exists db slot specs,
  dbs !! key_typ key = Some db /\ resource db (key_id key) = Some slot /\ relationSpecs types (key_typ key) = Ok specs /\
  forall f, f ∈ specs -> is_Some (node_field heap (item slot) (fieldIndex f)).
Definition copies_whole heap (rs : list touchedResource) : Prop := forall r, r ∈ rs -> exists specs, relationSpecs types (dbName r) = Ok specs /\
  forall f, f ∈ specs -> is_Some (node_field heap (t_work r) (fieldIndex f)) /\ is_Some (node_field heap (original r) (fieldIndex f)).
Lemma copies_whole_set heap rs l i v : copies_whole heap rs -> copies_whole (set_node_field heap l i v) rs.
Proof. intros H r Hr. destruct (H r Hr) as (specs & Es & Hf). exists specs. split; [done|]. intros f Hin. destruct (Hf f Hin). split; by apply set_has_field. Qed.
Lemma rewire_succeeds (f : bool -> relationSpec -> gmap loc goval -> goval -> goval) heap rs : copies_whole heap rs -> exists heap',
  fold_outcome (fun heap res => specs ← relationSpecs types (dbName res);
    fold_outcome (fun heap r => heap ← redirect (f false r) heap (t_work res) r; redirect (f true r) heap (original res) r) heap specs) heap rs = Ok heap'.
Proof.
  intros Hw. destruct (fold_outcome_succeeds (fun h => copies_whole h rs) (fun heap res => specs ← relationSpecs types (dbName res);
    fold_outcome (fun heap r => heap ← redirect (f false r) heap (t_work res) r; redirect (f true r) heap (original res) r) heap specs) rs) with (b := heap) as (h' & E & _); [|done|by exists h'].
  intros h res Hres Hh. destruct (Hh res Hres) as (specs & Es & _). rewrite Es. cbn. apply (fold_outcome_succeeds (fun h => copies_whole h rs)); [|done].
  clear h Hh. intros h r Hr Hh. destruct (Hh res Hres) as (specs' & Es' & Hf). rewrite Es in Es'. injection Es' as <-.
  destruct (redirect_total (f false r) h (t_work res) r (fun h => copies_whole h rs)) as (h1 & -> & H1); [by apply Hf|done|intros; by apply copies_whole_set|].
  cbn. destruct (H1 res Hres) as (specs' & Es' & Hf1). rewrite Es in Es'. injection Es' as <-.
  apply (redirect_total (f true r) h1 (original res) r (fun h => copies_whole h rs)); [by apply Hf1|done|intros; by apply copies_whole_set].
Qed.
Lemma snapshot_total heap dbs h key : row_whole heap dbs key -> exists p, snapshot_resource h dbs key = Ok p.
Proof.
  intros (db & slot & specs & Edb & Es & _). unfold snapshot_resource, committerFor. rewrite Edb. cbn. unfold snapshotResource. rewrite Es.
  destruct (copy_cell h (item slot)) as [h1 w]. destruct (copy_cell h1 (item slot)) as [h2 o]. by eexists.
Qed.
Lemma fresh_whole heap dbs h rs : (forall r, r ∈ rs -> row_whole heap dbs (resource_node r)) -> Forall (fresh_copy heap dbs h) rs ->
  (forall r, r ∈ rs -> row_linked heap dbs (resource_node r)) -> copies_whole h rs.
Proof.
  intros Hw Hf Hl r Hr. rewrite Forall_forall in Hf. destruct (Hf r Hr) as (slot & (db & Edb & Es & _) & _ & _ & Ew & Eo).
  destruct (Hw r Hr) as (db' & slot' & specs & Edb' & Es' & Hs & Hfields). cbn in Edb', Es', Hs.
  rewrite Edb in Edb'. injection Edb' as <-. rewrite Es in Es'. injection Es' as <-. exists specs. split; [done|]. intros f Hin.
  destruct (Hfields f Hin) as [x Hx]. destruct (Hl r Hr db slot Edb Es) as [[v Hv] _]. unfold node_field in *. rewrite Hv in Hx.
  rewrite Ew, Eo. unfold deref. rewrite Hv. cbn in *. by split; exists x.
Qed.

Lemma clones_total heap dbs root keys : (forall key, key ∈ keys -> row_whole heap dbs key) -> forall h acc work,
  exists h' rs work', fold_outcome (clone_key dbs root) (h, acc, work) keys = Ok (h', rs, work') /\
    (root ∈ keys \/ is_Some work -> is_Some work').
Proof.
  induction keys as [|key keys IH]; intros Hw h acc work.
  { exists h, acc, work. split; [done|]. by intros [?%elem_of_nil|?]. }
  destruct (snapshot_total heap dbs h key (Hw key ltac:(left))) as [[h1 r] E].
  destruct (IH (fun k Hk => Hw k ltac:(by right)) h1 (acc ++ [r]) (if bool_decide (key = root) then Some (t_work r) else work)) as (h' & rs & work' & E' & Hs).
  exists h', rs, work'. split.
  - cbn [fold_outcome]. assert (clone_key dbs root (h, acc, work) key = Ok (h1, acc ++ [r], if bool_decide (key = root) then Some (t_work r) else work)) as ->; [|exact E'].
    unfold clone_key. by rewrite E.
  - rewrite elem_of_cons. intros [[->|?]|[x ->]]; apply Hs; [right; by rewrite bool_decide_true|by left|right; case_bool_decide; by eexists].
Qed.

Lemma self_pointer_spec heap res orig r h p : heap ⊆ h -> known heap p ->
  rewireSelfRelationPointer types GetId h r (resource_node res) (if (orig : bool) then original res else t_work res) p = to_copy types GetId heap [res] orig r p.
Proof.
  intros Hh Hk. unfold rewireSelfRelationPointer, to_copy. rewrite (valueID_known GetId heap h _ Hh (known_readable types heap r p Hk)). destruct (valueID GetId heap (readable types r p)) as [id|]; [|done].
  rewrite find_key_cons. unfold resource_node. cbn [key_typ key_id]. case_decide as Ek.
  - injection Ek as -> ->. by rewrite bool_decide_true, Z.eqb_refl.
  - destruct (bool_decide_reflect (target r = dbName res)) as [Et|Et], (Z.eqb_spec id (t_id res)) as [Ei|Ei]; try done. by destruct Ek; f_equal.
Qed.

Lemma clone_single heap dbs root : row_whole heap dbs root -> row_linked heap dbs root ->
  exists heap' w rs, cloneSingleOwnershipResource types GetId heap dbs root = Ok (heap', w, rs) /\
    deep_copy heap dbs heap' [root] rs /\ exists r, r ∈ rs /\ resource_node r = root /\ w = t_work r.
Proof.
  intros Hw Hl. destruct (snapshot_total heap dbs heap root Hw) as [[h res] E].
  destruct (snapshot_fresh heap dbs heap root h res ltac:(done) (fun db slot Ed Es => proj1 (Hl db slot Ed Es)) E) as (Hh & Ek & Hc & _ & _ & Hne).
  assert (forall r, r ∈ [res] -> resource_node r = root) as Hone by (by intros r ->%list_elem_of_singleton).
  destruct (rewire_succeeds (fun orig r h p => rewireSelfRelationPointer types GetId h r (resource_node res) (if (orig : bool) then original res else t_work res) p) h [res]) as [h' E'].
  { apply (fresh_whole heap dbs); [by intros r ->%Hone|by constructor|by intros r ->%Hone]. }
  exists h', (t_work res), [res]. unfold cloneSingleOwnershipResource. rewrite E. cbn. split; [|split].
  - assert (rewireSingleOwnershipResource types GetId h root res = Ok h') as ->; [|done]. cbn [fold_outcome] in E'. rewrite Ek in E'.
    unfold rewireSingleOwnershipResource, rewireSelfRelationField. replace (key_typ root) with (dbName res) by (by rewrite <- Ek).
    destruct (relationSpecs types (dbName res)) as [specs| |]; [|done..]. cbn in *. by destruct (fold_outcome _ h specs).
  - apply (rewired_deep heap dbs h [res] [root] h' (fun orig r h p => rewireSelfRelationPointer types GetId h r (resource_node res) (if (orig : bool) then original res else t_work res) p)); [by apply NoDup_singleton|by intros key ->%list_elem_of_singleton|cbn; by rewrite Ek|done|by constructor| | |exact E'].
    + unfold cells. cbn. by repeat constructor; rewrite ?elem_of_cons, ?elem_of_nil; naive_solver.
    + intros orig r h1 p. cbn beta. apply self_pointer_spec.
  - exists res. by split; [left|].
Qed.

(** When the rows of a branch are there, with their relation fields, cloning it
    succeeds: every cell that was there is left alone; each node of the branch,
    in order, is copied into two cells of its own; a copy has the fields of its
    row, except that each relation pointer that names a node of the branch leads
    to the copy of that node. What the reader gets is the working copy of the
    root. Slices are values here; [SliceCells] has the same with their arrays. *)
Lemma clone_copies heap dbs c root keys :
  branch_of c root keys -> root ∈ keys -> NoDup keys -> (forall key, key ∈ keys -> row_whole heap dbs key /\ row_linked heap dbs key) ->
  exists c' heap' w rs, cloneOwnershipAggregate types GetId heap dbs c root = Ok (c', heap', w, rs) /\
    deep_copy heap dbs heap' keys rs /\ exists r, r ∈ rs /\ resource_node r = root /\ w = t_work r.
Proof.
  intros Hb Hroot Hnd Hrows. unfold cloneOwnershipAggregate. unfold branch_of in Hb. destruct (committedOwnerHasChildren c root); cbn [negb].
  2: { subst keys. destruct (Hrows root Hroot) as [Hw Hl]. destruct (clone_single heap dbs root Hw Hl) as (heap' & w & rs & -> & H). by exists c, heap', w, rs. }
  destruct Hb as [c' ->]. cbn [mbind outcome_bind fst snd].
  destruct (clones_total heap dbs root keys (fun k Hk => proj1 (Hrows k Hk)) heap [] None) as (h & rs & work & E & Hsome). rewrite E. cbn [mbind outcome_bind].
  destruct (clone_fold heap dbs root keys Hnd (fun k db slot Hk Ed Es => proj1 (proj2 (Hrows k Hk) db slot Ed Es)) heap [] None h rs work ltac:(done) E)
    as (rs' & -> & Ek & Hh & Hfresh & Hcells & _ & Hwork). cbn [app] in *.
  assert (forall r, r ∈ rs' -> resource_node r ∈ keys) as Hin by (intros r Hr; rewrite <- Ek; by apply list_elem_of_fmap_2).
  destruct (rewire_succeeds (fun orig r => rewireResourcePointer types GetId rs' (resource_positions rs') orig r) h rs') as [h' E'].
  { apply (fresh_whole heap dbs); [intros r Hr; by apply Hrows, Hin|done|intros r Hr; by apply Hrows, Hin]. }
  assert (rewireOwnershipResources types GetId h rs' = Ok h') as -> by exact E'. cbn [mbind outcome_bind].
  destruct (Hsome (or_introl Hroot)) as [w Ew]. destruct Hwork as [Hn|(r & Hr & Er & Hw)]; [congruence|]. subst work. injection Ew as <-.
  exists c', h', (t_work r), rs'. split; [done|]. split; [|by exists r].
  eapply (rewired_deep heap dbs h rs' keys h' (fun orig r => rewireResourcePointer types GetId rs' (resource_positions rs') orig r)); try done; [intros k Hk; by apply Hrows|].
  intros orig f h1 p Hh1 Hp. cbn beta. apply rewire_pointer_spec; [by rewrite Ek|done|done].
Qed.
End theorem.

(** ** A clone of a branch with one owned note *)

Definition row_check (types : typeEnv) (heap : gmap loc goval) (dbs : gmap string DB) (key : nodeKey) : bool :=
  match (db ← dbs !! key_typ key; resource db (key_id key)), relationSpecs types (key_typ key) with
  | Some slot, Ok specs => bool_decide (is_Some (heap !! item slot)) && forallb (fun f =>
      bool_decide (is_Some (node_field heap (item slot) (fieldIndex f))) &&
      forallb (fun p => match p with VPointer (Some l) => bool_decide (is_Some (heap !! l)) | _ => true end)
        (pointers_in (many f) (cell_field heap (item slot) (fieldIndex f)))) specs
  | _, _ => false
  end.
Lemma row_check_ok types heap dbs key : row_check types heap dbs key = true -> row_whole types heap dbs key /\ row_linked types heap dbs key.
Proof.
  unfold row_check. destruct (dbs !! key_typ key) as [db|] eqn:Ed; [|done]. cbn [mbind option_bind].
  destruct (resource db (key_id key)) as [slot|] eqn:Es; [|done].
  destruct (relationSpecs types (key_typ key)) as [specs| |] eqn:Ep; [|done..]. rewrite andb_true_iff, bool_decide_eq_true, forallb_forall. intros [A B].
  split.
  - exists db, slot, specs. split_and!; try done. intros f Hf%list_elem_of_In%B. rewrite andb_true_iff, bool_decide_eq_true in Hf. by destruct Hf.
  - intros db' slot' Ed' Es'. rewrite Ed in Ed'. injection Ed' as <-. rewrite Es in Es'. injection Es' as <-. split; [done|].
    intros specs' Ep' f p Hf Hp l ->. rewrite Ep in Ep'. injection Ep' as <-. apply list_elem_of_In, B in Hf. rewrite andb_true_iff, forallb_forall in Hf.
    destruct Hf as [_ Hf]. apply list_elem_of_In, Hf in Hp. by apply bool_decide_eq_true in Hp.
Qed.

Definition notes_world : world := (opened_notes note_world).1.
Definition note_branch : list nodeKey := [node "Author" 1; node "Note" 1].
(** ** Two reads that overlap *)

(** A transaction that reads author 1 and note 1, which author 1 owns, and
    then edits the note it finds in the branch of the author. *)
Definition edit_through_author (note_first : bool) : st unit := note_tx (fun h =>
  if note_first
  then _ ← get_in note_types graph_id h "Note" 1; a ← get_in note_types graph_id h "Author" 1; write_note "new" a
  else a ← get_in note_types graph_id h "Author" 1; _ ← get_in note_types graph_id h "Note" 1; write_note "new" a).

(** C31 (a defect): A transaction keeps the first copy of every entity it reads,
    but a branch it reads later contains new copies of all its nodes, also of
    those it already has. An edit of such a node through the branch is in a cell
    the transaction does not know: the commit succeeds and drops the edit. With
    the reads in the other order it is written. *)
Theorem overlapping_reads_drop_an_edit :
  let run note_first := (_ ← opened_notes; edit_through_author note_first) note_world in
  (run false).2 = Ok tt /\ texts (run false).1 = [VString "anonymous"; VString "new"; VString "anonymous"; VString "draft"] /\
  (run true).2 = Ok tt /\ texts (run true).1 = [VString "anonymous"; VString "draft"; VString "anonymous"; VString "draft"].
Proof. vm_compute. by split_and!. Qed.
