(* ===== verification/SliceCells.v ===== *)
(** * Copies of branches, with slices in memory (src/db.go,
      src/relation_runtime.go)

    Everywhere else slices are values. In the program a struct holds headers of
    slices, and a copy of the struct shares their arrays with the original, which
    [cloneSliceFields] undoes for the fields of the struct itself. Here the copy
    of a branch runs on a memory with headers and arrays, and does to it what the
    definitions of [Aggregate] do to values; no array that was there is written,
    and every slice a copy holds in an exported field has an array of its own.
    What elements hold - slices and maps inside of structs or arrays - stays
    shared with the live rows and is not modelled as shared. *)
From S2P Require Import Prelude GoBytes GoReflect RelationSchema SchemaRows RelationModel RelationGraph CommittedGraph PublishedIndex RelationDelta Transaction.
From S2P Require Import ChunkStore IndexSpecs SecondaryIndex IndexCommit Storage Table Aggregate World Commit Api Tower CommitSteps CommitEffect TowerEffect BranchCopy.

(** ** Memory *)

(** The array behind a slice; bytes are kept as such. *)
Inductive backing := Elements (l : list goval) | Raw (l : list byte).
Record sliceHeader := { sh_array : positive; sh_off : nat; sh_len : nat; sh_cap : nat }.
(** A field of a struct; a slice that is not nil is a header. *)
Inductive field := Plain (v : goval) | Slice (s : sliceHeader).
Record memory := { structs : gmap loc (list field); arrays : gmap positive backing }.

#[export] Instance backing_eq_dec : EqDecision backing.
Proof. solve_decision. Defined.
#[export] Instance sliceHeader_eq_dec : EqDecision sliceHeader.
Proof. solve_decision. Defined.
#[export] Instance field_eq_dec : EqDecision field.
Proof. solve_decision. Defined.

Definition window {A} (s : sliceHeader) (l : list A) : list A := take (sh_len s) (drop (sh_off s) l).
Definition window_of (s : sliceHeader) (b : backing) : backing :=
  match b with Elements l => Elements (window s l) | Raw l => Raw (window s l) end.
Definition backing_length (b : backing) : nat := match b with Elements l => length l | Raw l => length l end.
Definition field_at (m : memory) (l : loc) (i : nat) : option field := fs ← structs m !! l; fs !! i.

(** The values a memory holds. *)
Definition shown_backing (s : sliceHeader) (b : backing) : goval :=
  match b with Elements l => VSlice (Some (window s l)) | Raw l => VBytes (Some (window s l)) end.
Definition shown (ar : gmap positive backing) (f : field) : goval :=
  match f with
  | Plain v => v
  | Slice s => match ar !! sh_array s with Some b => shown_backing s b | None => VSlice None end
  end.
Definition view (m : memory) : gmap loc goval := (fun fs => VStruct (shown (arrays m) <$> fs)) <$> structs m.

(** ** Copying a struct *)

(** [MakeSlice] and [reflect.Copy]. A field that cannot be set, or is not a
    slice, or nil, is skipped. *)
Definition clone_field (settable : bool) (ar : gmap positive backing) (f : field) : gmap positive backing * field :=
  match f with
  | Slice s =>
      match settable, ar !! sh_array s with
      | true, Some b => let a := fresh (dom ar) in
          (<[a := window_of s b]> ar, Slice {| sh_array := a; sh_off := 0; sh_len := sh_len s; sh_cap := sh_len s |})
      | _, _ => (ar, f)
      end
  | Plain _ => (ar, f)
  end.
Fixpoint cloneSliceFields (ar : gmap positive backing) (defs : list structField) (fs : list field) : gmap positive backing * list field :=
  match fs with
  | [] => (ar, [])
  | f :: fs =>
      let p := clone_field (match defs with d :: _ => exported d | [] => false end) ar f in
      let q := cloneSliceFields p.1 (tail defs) fs in
      (q.1, p.2 :: q.2)
  end.
Definition cloneEntityPointer (m : memory) (d : structDef) (l : loc) : memory * loc :=
  let p := cloneSliceFields (arrays m) (fields d) (default [] (structs m !! l)) in
  let c := fresh (dom (structs m)) in
  ({| structs := <[c := p.2]> (structs m); arrays := p.1 |}, c).

(** ** Writing through headers *)

Definition set_field_at (m : memory) (l : loc) (i : nat) (f : field) : memory :=
  {| structs := alter (fun fs => <[i := f]> fs) l (structs m); arrays := arrays m |}.
Definition element (m : memory) (s : sliceHeader) (j : nat) : option goval :=
  match arrays m !! sh_array s with Some (Elements l) => l !! (sh_off s + j) | _ => None end.
Definition write_element (m : memory) (s : sliceHeader) (j : nat) (v : goval) : memory :=
  {| structs := structs m;
     arrays := alter (fun b => match b with Elements l => Elements (<[sh_off s + j := v]> l) | Raw l => Raw l end) (sh_array s) (arrays m) |}.

Section clone.
Context (types : typeEnv) (GetId : goval -> Z) `{!MapOrder nodeKey} `{!MapOrder string}.
Implicit Types (m : memory) (dbs : gmap string DB).

(** [pointer.Set] on a field, or on each element of a slice in turn. *)
Definition redirect m (f : gmap loc goval -> goval -> goval) (l : loc) r : outcome memory :=
  match field_at m l (fieldIndex r) with
  | None => Panic
  | Some fld =>
      if negb (many r) then Ok (set_field_at m l (fieldIndex r) (Plain (f (view m) (shown (arrays m) fld)))) else
      match fld with
      | Plain _ => Ok m
      | Slice s => Ok (foldl (fun m j => match element m s j with Some p => write_element m s j (f (view m) p) | None => m end) m (seq 0 (sh_len s)))
      end
  end.

Definition rewire_resource m (f : bool -> relationSpec -> gmap loc goval -> goval -> goval) (t : string) (res : touchedResource) : outcome memory :=
  specs ← relationSpecs types t;
  fold_outcome (fun m r => m ← redirect m (f false r) (t_work res) r; redirect m (f true r) (original res) r) m specs.
Definition rewireSingleOwnershipResource m (key : nodeKey) (res : touchedResource) : outcome memory :=
  rewire_resource m (fun orig r h p => rewireSelfRelationPointer types GetId h r key (if (orig : bool) then original res else t_work res) p) (key_typ key) res.
Definition rewireOwnershipResources m (rs : list touchedResource) : outcome memory :=
  fold_outcome (fun m res => rewire_resource m (rewireResourcePointer types GetId rs (resource_positions rs)) (dbName res) res) m rs.

(** [snapshotResource], and the clone of a branch. *)
Definition snapshot_resource m dbs (key : nodeKey) : outcome (memory * touchedResource) :=
  db ← committerFor dbs (key_typ key);
  match types !! key_typ key, resource db (key_id key) with
  | None, _ => Panic
  | _, None => Fail ErrNotFound
  | Some d, Some slot =>
      let w := cloneEntityPointer m d (item slot) in
      let o := cloneEntityPointer w.1 d (item slot) in
      Ok (o.1, {| dbName := key_typ key; t_id := key_id key; ver := version slot; t_work := w.2; original := o.2 |})
  end.
Definition cloneSingleOwnershipResource m dbs (root : nodeKey) : outcome (memory * loc * list touchedResource) :=
  p ← snapshot_resource m dbs root;
  m ← rewireSingleOwnershipResource p.1 root p.2;
  Ok (m, t_work p.2, [p.2]).
Definition clone_key dbs (root : nodeKey) (st : memory * list touchedResource * option loc) (key : nodeKey) :
    outcome (memory * list touchedResource * option loc) :=
  let '(m, rs, rootWork) := st in
  p ← snapshot_resource m dbs key;
  Ok (p.1, rs ++ [p.2], if bool_decide (key = root) then Some (t_work p.2) else rootWork).
Definition cloneOwnershipAggregate m dbs c (root : nodeKey) : outcome (committedOwnership * memory * loc * list touchedResource) :=
  if negb (committedOwnerHasChildren c root) then
    p ← cloneSingleOwnershipResource m dbs root; Ok (c, p.1.1, p.1.2, p.2)
  else
    k ← committedOwnershipKeys c root;
    st ← fold_outcome (clone_key dbs root) (m, [], None) k.2;
    let '(m, rs, rootWork) := st in
    m ← rewireOwnershipResources m rs;
    match rootWork with Some w => Ok (k.1, m, w, rs) | None => Panic end.
End clone.

(** ** Specification *)

(** Headers lead to arrays and stay inside of them; only nil slices are kept as
    values. *)
Definition plain_value (v : goval) : Prop := match v with VSlice (Some _) | VBytes (Some _) => False | _ => True end.
Record memory_ok (m : memory) : Prop := {
  mo_slices : forall l i s, field_at m l i = Some (Slice s) -> exists b, arrays m !! sh_array s = Some b /\ sh_off s + sh_len s <= backing_length b;
  mo_plain : forall l i v, field_at m l i = Some (Plain v) -> plain_value v;
}.
(** The slices in exported fields of a cell of type [t] have arrays that no
    other field leads to, that [m0] did not have, and with no room to append. *)
Definition private_slices (types : typeEnv) (m0 m : memory) (l : loc) (t : string) : Prop := forall d i f s,
  types !! t = Some d -> fields d !! i = Some f -> exported f = true -> field_at m l i = Some (Slice s) ->
  arrays m0 !! sh_array s = None /\ sh_cap s = sh_len s /\
  forall l' i' s', field_at m l' i' = Some (Slice s') -> sh_array s' = sh_array s -> l' = l /\ i' = i.
(** Relation slices hold pointers, other relations are pointers. *)
Definition relations_typed (types : typeEnv) (m : memory) (l : loc) (t : string) : Prop := forall specs r s,
  relationSpecs types t = Ok specs -> r ∈ specs -> field_at m l (fieldIndex r) = Some (Slice s) ->
  many r = true /\ exists es, arrays m !! sh_array s = Some (Elements es).

(** ** Windows *)

Lemma window_insert {A} (s : sliceHeader) (l : list A) j x : j < sh_len s -> window s (<[sh_off s + j := x]> l) = <[j := x]> (window s l).
Proof.
  intros Hj. unfold window. rewrite drop_insert_ge by lia. replace (sh_off s + j - sh_off s) with j by lia. by rewrite take_insert_lt by lia.
Qed.
Lemma window_lookup {A} (s : sliceHeader) (l : list A) j : j < sh_len s -> window s l !! j = l !! (sh_off s + j).
Proof. intros Hj. unfold window. by rewrite lookup_take_lt, lookup_drop by lia. Qed.
Lemma window_length {A} (s : sliceHeader) (l : list A) : sh_off s + sh_len s <= length l -> length (window s l) = sh_len s.
Proof. intros H. unfold window. rewrite length_take, length_drop. lia. Qed.
(** The copy of a slice shows the same elements. *)
Lemma shown_copy s b a : sh_off s + sh_len s <= backing_length b ->
  shown_backing {| sh_array := a; sh_off := 0; sh_len := sh_len s; sh_cap := sh_len s |} (window_of s b) = shown_backing s b.
Proof.
  intros H. assert (forall A (l : list A), sh_off s + sh_len s <= length l ->
    window {| sh_array := a; sh_off := 0; sh_len := sh_len s; sh_cap := sh_len s |} (window s l) = window s l) as Hw.
  { intros A l Hl. unfold window at 1. cbn. rewrite drop_0. apply take_ge. by rewrite window_length. }
  destruct b; cbn in *; by rewrite Hw.
Qed.

(** ** One copy *)

Definition settable (defs : list structField) (i : nat) : bool := match defs !! i with Some d => exported d | None => false end.
Definition headers_ok (ar : gmap positive backing) (fs : list field) : Prop := forall i s, fs !! i = Some (Slice s) ->
  exists b, ar !! sh_array s = Some b /\ sh_off s + sh_len s <= backing_length b.
(** The copy of one field: the same value; behind a header a new array, if the
    field can be set. *)
Definition field_copied (set : bool) (ar ar' : gmap positive backing) (f f' : field) : Prop :=
  match f with
  | Plain v => f' = Plain v
  | Slice s => if set then exists b a, ar !! sh_array s = Some b /\ ar !! a = None /\ ar' !! a = Some (window_of s b) /\
                 f' = Slice {| sh_array := a; sh_off := 0; sh_len := sh_len s; sh_cap := sh_len s |}
               else f' = f
  end.
Lemma settable_tail defs i : settable defs (S i) = settable (tail defs) i.
Proof. unfold settable. by destruct defs. Qed.
Lemma field_copied_weaken set ar ar' ar'' f f' : ar' ⊆ ar'' -> field_copied set ar ar' f f' -> field_copied set ar ar'' f f'.
Proof.
  intros Hs. unfold field_copied. destruct f as [v|s], set; try done. intros (b & a & A & B & C & D). exists b, a. split_and!; try done. by eapply lookup_weaken.
Qed.
Lemma headers_weaken ar ar' fs : ar ⊆ ar' -> headers_ok ar fs -> headers_ok ar' fs.
Proof. intros Hs H i s Hi. destruct (H i s Hi) as (b & E & Hb). exists b. split; [by eapply lookup_weaken|done]. Qed.

Lemma clone_field_spec set ar f : (forall s, f = Slice s -> exists b, ar !! sh_array s = Some b) ->
  ar ⊆ (clone_field set ar f).1 /\ field_copied set ar (clone_field set ar f).1 f (clone_field set ar f).2 /\
  forall s, (clone_field set ar f).2 = Slice s -> is_Some ((clone_field set ar f).1 !! sh_array s).
Proof.
  intros Hf. destruct f as [v|s]; [by split_and!|]. destruct (Hf s eq_refl) as [b Eb]. cbn. destruct set; cbn.
  - rewrite Eb. cbn. assert (ar !! fresh (dom ar) = None) as Hn by apply not_elem_of_dom, is_fresh. split_and!.
    + by apply insert_subseteq.
    + exists b, (fresh (dom ar)). split_and!; [done|done|by rewrite lookup_insert_eq|done].
    + intros s' [= <-]. cbn. rewrite lookup_insert_eq. by eexists.
  - split_and!; [done|done|]. intros s' [= <-]. by eexists.
Qed.

Lemma cloneSliceFields_spec fs : forall ar defs, headers_ok ar fs ->
  let p := cloneSliceFields ar defs fs in
  ar ⊆ p.1 /\ length p.2 = length fs /\
  (forall i f, fs !! i = Some f -> exists f', p.2 !! i = Some f' /\ field_copied (settable defs i) ar p.1 f f') /\
  forall i j s s', p.2 !! i = Some (Slice s) -> p.2 !! j = Some (Slice s') -> settable defs i = true -> sh_array s' = sh_array s -> j = i.
Proof.
  induction fs as [|f fs IH]; intros ar defs Hok; cbn [cloneSliceFields]; [by split_and!|]. cbn zeta.
  set (set0 := match defs with d :: _ => exported d | [] => false end).
  assert (set0 = settable defs 0) as E0 by (unfold set0, settable; by destruct defs).
  destruct (clone_field_spec set0 ar f) as (S1 & C1 & A1); [intros s ->; destruct (Hok 0 s eq_refl) as (b & Eb & _); by exists b|].
  destruct (clone_field set0 ar f) as [ar1 f1]. cbn [fst snd] in *.
  assert (headers_ok ar fs) as Hok' by (intros i s Hi; by apply (Hok (S i))).
  destruct (IH ar1 (tail defs)) as (S2 & L2 & C2 & D2); [by eapply headers_weaken|].
  destruct (cloneSliceFields ar1 (tail defs) fs) as [ar2 fs2]. cbn [fst snd] in *.
  assert (forall i s, fs2 !! i = Some (Slice s) -> (is_Some (ar !! sh_array s) /\ settable (tail defs) i = false) \/
    (ar1 !! sh_array s = None /\ settable (tail defs) i = true)) as Hold.
  { intros i s Hi. destruct (fs !! i) as [g|] eqn:Eg; [|apply lookup_ge_None in Eg; apply lookup_lt_Some in Hi; lia].
    destruct (C2 i g Eg) as (g' & Eg' & Hg). rewrite Hi in Eg'. injection Eg' as <-. unfold field_copied in Hg. destruct g as [v|s0]; [done|].
    destruct (settable (tail defs) i); [right|left]; (split; [|done]).
    - destruct Hg as (b & a & _ & Hn & _ & [= ->]). exact Hn.
    - injection Hg as ->. destruct (Hok' i s0 Eg) as (b & Eb & _). by exists b. }
  split_and!; [by etrans|cbn; by rewrite L2| |].
  - intros [|i] g Hg; cbn in Hg |- *; [injection Hg as ->; exists f1; split; [done|]; rewrite <- E0; by eapply field_copied_weaken|].
    destruct (C2 i g Hg) as (g' & Eg' & Hc). exists g'. split; [done|]. rewrite settable_tail. unfold field_copied in *. destruct g as [v|s0]; [done|].
    destruct (settable (tail defs) i); [|done]. destruct Hc as (b & a & Eb & Hn & Ea & ->). destruct (Hok' i s0 Hg) as (b0 & Eb0 & _).
    rewrite (lookup_weaken _ _ _ _ Eb0 S1) in Eb. injection Eb as <-. exists b0, a. split_and!; [done|by eapply lookup_weaken_None|done|done].
  - assert (forall s i s', f1 = Slice s -> fs2 !! i = Some (Slice s') -> sh_array s' = sh_array s -> settable defs 0 = true \/ settable (tail defs) i = true -> False) as Hx.
    { intros s i s' -> Hi Ea Hs. pose proof (A1 s eq_refl) as Hal. unfold field_copied in C1. destruct f as [v|s0]; [done|]. rewrite <- E0 in Hs.
      destruct (Hold i s' Hi) as [[[x Hx] Hset]|[Hn Hset]]; [|rewrite <- Ea, Hn in Hal; by destruct Hal].
      destruct Hs as [Hs|Hs]; [|congruence]. rewrite Hs in C1. destruct C1 as (b & a & _ & Hn & _ & [= ->]). cbn in Ea. congruence. }
    intros [|i] [|j] s s' Hi Hj Hset Ea; cbn in Hi, Hj; [done|exfalso..|].
    + injection Hi as ->. eapply Hx; [done|exact Hj|done|by left].
    + injection Hj as ->. eapply Hx; [done|exact Hi|by symmetry|right]. by rewrite <- settable_tail.
    + f_equal. eapply D2; try done. by rewrite <- settable_tail.
Qed.

(** ** The copies of a run *)

Lemma shown_weaken ar ar' f : ar ⊆ ar' -> (forall s, f = Slice s -> is_Some (ar !! sh_array s)) -> shown ar' f = shown ar f.
Proof. intros Hs Hf. destruct f as [v|s]; [done|]. destruct (Hf s eq_refl) as [b Eb]. cbn. by rewrite Eb, (lookup_weaken _ _ _ _ Eb Hs). Qed.
Lemma view_lookup m l : view m !! l = (fun fs => VStruct (shown (arrays m) <$> fs)) <$> structs m !! l.
Proof. apply lookup_fmap. Qed.
Lemma dom_view m : dom (view m) = dom (structs m).
Proof. apply dom_fmap_L. Qed.
Lemma field_at_cell m l i f : field_at m l i = Some f -> exists fs, structs m !! l = Some fs /\ fs !! i = Some f.
Proof. unfold field_at. destruct (structs m !! l) as [fs|]; [|done]. by exists fs. Qed.
Lemma node_field_view m l i : node_field (view m) l i = shown (arrays m) <$> field_at m l i.
Proof. unfold node_field, field_at. rewrite view_lookup. destruct (structs m !! l) as [fs|]; [|done]. cbn. by rewrite list_lookup_fmap. Qed.

Section proof.
Context (types : typeEnv) (GetId : goval -> Z) `{!MapOrder nodeKey} `{!MapOrder string}.
Implicit Types (m : memory) (dbs : gmap string DB).

(** From [m0], with the copies [cs] made, each of a type. *)
Record copies_in (m0 : memory) (cs : list (loc * string)) (m : memory) : Prop := {
  ci_ok : memory_ok m;
  ci_structs : forall l, is_Some (structs m0 !! l) -> structs m !! l = structs m0 !! l;
  ci_arrays : arrays m0 ⊆ arrays m;
  ci_new : forall l t, (l, t) ∈ cs -> structs m0 !! l = None /\ is_Some (structs m !! l);
  ci_private : forall l t, (l, t) ∈ cs -> private_slices types m0 m l t;
  ci_typed : forall l t, (l, t) ∈ cs -> relations_typed types m l t;
}.

Lemma copy_step m0 cs m d src t : copies_in m0 cs m -> memory_ok m0 -> is_Some (structs m0 !! src) -> types !! t = Some d -> relations_typed types m0 src t ->
  let p := cloneEntityPointer m d src in copies_in m0 ((p.2, t) :: cs) p.1 /\ copy_cell (view m) src = (view p.1, p.2).
Proof.
  intros [Hok Hst Har Hnew Hpriv Htyp] Hok0 [fs Efs] Ed Ht. pose proof (Hst src ltac:(by eexists)) as Esrc. rewrite Efs in Esrc.
  unfold cloneEntityPointer. rewrite Esrc. cbn [default from_option id].
  assert (headers_ok (arrays m) fs) as Hh by (intros i s Hi; apply (mo_slices _ Hok src i); unfold field_at; by rewrite Esrc).
  destruct (cloneSliceFields_spec fs (arrays m) (fields d) Hh) as (S & L & C & D).
  destruct (cloneSliceFields (arrays m) (fields d) fs) as [ar fs']. cbn [fst snd] in *.
  set (c := fresh (dom (structs m))). assert (structs m !! c = None) as Hc by apply not_elem_of_dom, is_fresh.
  set (m' := {| structs := <[c := fs']> (structs m); arrays := ar |}).
  assert (forall i f', fs' !! i = Some f' -> exists f, fs !! i = Some f /\ field_copied (settable (fields d) i) (arrays m) ar f f') as C'.
  { intros i f' Hi. destruct (fs !! i) as [f|] eqn:Ef; [|apply lookup_ge_None in Ef; apply lookup_lt_Some in Hi; lia].
    destruct (C i f Ef) as (g & Eg & Hg). rewrite Hi in Eg. injection Eg as <-. by exists f. }
  assert (forall i f, field_at m' c i = Some f <-> fs' !! i = Some f) as Fc by (intros i f; unfold field_at; cbn; by rewrite lookup_insert_eq).
  assert (forall l i, l <> c -> field_at m' l i = field_at m l i) as Fo by (intros l i Hl; unfold field_at; cbn; by rewrite lookup_insert_ne).
  assert (forall l i s, field_at m l i = Some (Slice s) -> is_Some (arrays m !! sh_array s)) as Hal.
  { intros l i s Hl. destruct (mo_slices _ Hok l i s Hl) as (b & Eb & _). by exists b. }
  assert (forall l, is_Some (structs m0 !! l) -> l <> c) as Hne by (intros l Hl ->; rewrite <- Hst in Hl by done; rewrite Hc in Hl; by destruct Hl).
  assert (forall i s, fs' !! i = Some (Slice s) ->
    if settable (fields d) i then arrays m !! sh_array s = None /\ sh_cap s = sh_len s /\
      exists b s0, fs !! i = Some (Slice s0) /\ arrays m !! sh_array s0 = Some b /\ ar !! sh_array s = Some (window_of s0 b) /\ sh_off s = 0 /\ sh_len s = sh_len s0
    else fs !! i = Some (Slice s)) as Hslice.
  { intros i s Hi. destruct (C' i _ Hi) as (f & Ef & Hf). unfold field_copied in Hf. destruct f as [v|s0]; [done|].
    destruct (settable (fields d) i); [|by injection Hf as ->]. destruct Hf as (b & a & Eb & Hn & Ea & [= ->]). cbn. split_and!; [done|done|].
    by exists b, s0. }
  assert (forall l t', (l, t') ∈ cs -> l <> c) as Hnc by (intros l t' Hin ->; destruct (Hnew c t' Hin) as [_ [x Hx]]; congruence).
  split; [split|].
  - split.
    + intros l i s Hl. destruct (decide (l = c)) as [->|Hlc].
      * apply Fc in Hl. specialize (Hslice i s Hl). destruct (settable (fields d) i).
        -- destruct Hslice as (_ & _ & b & s0 & E0 & Eb & Ea & Eo & El). exists (window_of s0 b). split; [done|]. rewrite Eo, El.
           destruct (Hh i s0 E0) as (b' & Eb' & Hb). rewrite Eb in Eb'. injection Eb' as <-. destruct b; cbn in *; by rewrite window_length.
        -- destruct (Hh i s Hslice) as (b & Eb & Hb). exists b. split; [by eapply lookup_weaken|done].
      * rewrite Fo in Hl by done. destruct (mo_slices _ Hok l i s Hl) as (b & Eb & Hb). exists b. split; [by eapply lookup_weaken|done].
    + intros l i v Hl. destruct (decide (l = c)) as [->|Hlc].
      * apply Fc in Hl. destruct (C' i _ Hl) as (f & Ef & Hf). unfold field_copied in Hf. destruct f as [v'|s0].
        -- injection Hf as ->. apply (mo_plain _ Hok src i). unfold field_at. by rewrite Esrc.
        -- destruct (settable (fields d) i); [|done]. by destruct Hf as (b & a & _ & _ & _ & ?).
      * rewrite Fo in Hl by done. by apply (mo_plain _ Hok l i).
  - intros l Hl. cbn. rewrite lookup_insert_ne by (by apply not_eq_sym, Hne). by apply Hst.
  - cbn. by etrans.
  - intros l t' [[= -> ->]|Hin]%elem_of_cons; (split; [|cbn; apply lookup_insert_is_Some']).
    + destruct (structs m0 !! c) eqn:E; [|done]. by destruct (Hne c ltac:(by eexists)).
    + by left.
    + by eapply Hnew.
    + right. by eapply Hnew.
  - intros l t' [[= -> ->]|Hin]%elem_of_cons d' i f s Ed' Hf He Hl.
    + rewrite Ed in Ed'. injection Ed' as <-. apply Fc in Hl. pose proof (Hslice i s Hl) as Hs.
      assert (settable (fields d) i = true) as Hset by (unfold settable; by rewrite Hf). rewrite Hset in Hs. destruct Hs as (Hn & Hcap & _). split_and!; [|done|].
      * by eapply lookup_weaken_None.
      * intros l' i' s' Hl' Ea. destruct (decide (l' = c)) as [->|Hlc]; [split; [done|]; apply Fc in Hl'; by eapply D|].
        rewrite Fo in Hl' by done. pose proof (Hal l' i' s' Hl') as Hx. rewrite Ea, Hn in Hx. by destruct Hx.
    + assert (l <> c) as Hlc by (by eapply Hnc).
      rewrite Fo in Hl by done. destruct (Hpriv l t' Hin d' i f s Ed' Hf He Hl) as (A & B & U). split_and!; [done|done|].
      intros l' i' s' Hl' Ea. destruct (decide (l' = c)) as [->|Hlc']; [|rewrite Fo in Hl' by done; by eapply U]. exfalso.
      apply Fc in Hl'. specialize (Hslice i' s' Hl'). destruct (settable (fields d) i').
      * destruct Hslice as (Hn & _). pose proof (Hal l i s Hl) as Hx. rewrite <- Ea, Hn in Hx. by destruct Hx.
      * destruct (U src i' s') as [-> _]; [unfold field_at; by rewrite Esrc|done|]. by rewrite (proj1 (Hnew l t' Hin)) in Efs.
  - intros l t' [[= -> ->]|Hin]%elem_of_cons specs r s Es Hr Hl.
    + apply Fc in Hl. pose proof (Hslice (fieldIndex r) s Hl) as Hs. destruct (settable (fields d) (fieldIndex r)).
      * destruct Hs as (_ & _ & b & s0 & E0 & Eb & Ea & _). destruct (Ht specs r s0 Es Hr) as (Hm & es & Ees); [unfold field_at; by rewrite Efs|].
        rewrite (lookup_weaken _ _ _ _ Ees Har) in Eb. injection Eb as <-. split; [done|]. by eexists.
      * destruct (Ht specs r s Es Hr) as (Hm & es & Ees); [unfold field_at; by rewrite Efs|]. split; [done|]. exists es. eapply lookup_weaken; [exact Ees|]. cbn. by etrans.
    + rewrite Fo in Hl by (by eapply Hnc). destruct (Htyp l t' Hin specs r s Es Hr Hl) as (Hm & es & Ees). split; [done|]. exists es. by eapply lookup_weaken.
  - unfold copy_cell, new_cell. rewrite dom_view. fold c. f_equal. apply map_eq. intros l. rewrite view_lookup. unfold m'. cbn [structs arrays].
    destruct (decide (l = c)) as [->|Hlc].
    + rewrite !lookup_insert_eq. unfold deref. rewrite view_lookup, Esrc. cbn. do 2 f_equal. apply list_eq. intros i. rewrite !list_lookup_fmap.
      destruct (fs !! i) as [f|] eqn:Ef; [|assert (fs' !! i = None) as -> by (apply lookup_ge_None; apply lookup_ge_None in Ef; lia); done].
      destruct (C i f Ef) as (f' & -> & Hf). cbn. f_equal. unfold field_copied in Hf. destruct f as [v|s0]; [by rewrite Hf|].
      destruct (Hh i s0 Ef) as (b & Eb & Hb). cbn. rewrite Eb. destruct (settable (fields d) i).
      * destruct Hf as (b' & a & Eb' & _ & Ea & ->). rewrite Eb in Eb'. injection Eb' as <-. cbn. rewrite Ea. symmetry. by apply shown_copy.
      * rewrite Hf. cbn. by rewrite (lookup_weaken _ _ _ _ Eb S).
    + rewrite !lookup_insert_ne, view_lookup by done. destruct (structs m !! l) as [gs|] eqn:El; [|done]. cbn. do 2 f_equal. apply list_fmap_ext.
      intros i f Hf. symmetry. apply shown_weaken; [done|]. intros s ->. apply (Hal l i). unfold field_at. by rewrite El.
Qed.

(** ** One write through a copy *)

Lemma write_step m0 cs m l t d i f s j x es : copies_in m0 cs m -> (l, t) ∈ cs -> types !! t = Some d -> fields d !! i = Some f -> exported f = true ->
  field_at m l i = Some (Slice s) -> arrays m !! sh_array s = Some (Elements es) -> j < sh_len s ->
  copies_in m0 cs (write_element m s j x) /\
  view (write_element m s j x) = set_node_field (view m) l i (VSlice (Some (<[j := x]> (window s es)))).
Proof.
  intros [Hok Hst Har Hnew Hpriv Htyp] Hin Ed Hf He Hs Ees Hj. destruct (Hpriv l t Hin d i f s Ed Hf He Hs) as (Hn & Hcap & U).
  set (m' := write_element m s j x). assert (arrays m' !! sh_array s = Some (Elements (<[sh_off s + j := x]> es))) as Ea.
  { unfold m', write_element. cbn. by rewrite lookup_alter_eq, Ees. }
  assert (forall a, a <> sh_array s -> arrays m' !! a = arrays m !! a) as Eo by (intros a Ha; unfold m', write_element; cbn; by rewrite lookup_alter_ne).
  assert (forall l i, field_at m' l i = field_at m l i) as Ef by done.
  assert (forall a b, arrays m !! a = Some b -> exists b', arrays m' !! a = Some b' /\ backing_length b' = backing_length b) as Hlen.
  { intros a b E. destruct (decide (a = sh_array s)) as [->|Ha]; [|rewrite Eo by done; by exists b].
    rewrite Ees in E. injection E as <-. eexists. split; [exact Ea|]. cbn. by rewrite length_insert. }
  split; [split|].
  - split; [|exact (mo_plain _ Hok)]. intros l' i' s' E. destruct (mo_slices _ Hok l' i' s' E) as (b & Eb & Hb). destruct (Hlen _ _ Eb) as (b' & Eb' & El). exists b'. by rewrite El.
  - exact Hst.
  - apply map_subseteq_spec. intros a b E. rewrite Eo; [by eapply lookup_weaken|]. intros ->. congruence.
  - exact Hnew.
  - exact Hpriv.
  - intros l' t' Hin' specs r s' Es Hr E. destruct (Htyp l' t' Hin' specs r s' Es Hr E) as (Hm & es' & Ees'). split; [done|].
    destruct (decide (sh_array s' = sh_array s)) as [->|Ha]; [by eexists|]. exists es'. by rewrite Eo.
  - destruct (field_at_cell _ _ _ _ Hs) as (fs & Efs & Ei). unfold set_node_field. rewrite view_lookup, Efs. cbn [fmap option_fmap option_map struct_fields].
    apply map_eq. intros l'. rewrite view_lookup. destruct (decide (l' = l)) as [->|Hl].
    + rewrite lookup_insert_eq. change (structs m' !! l) with (structs m !! l). rewrite Efs. cbn. do 2 f_equal. apply list_eq. intros i'.
      rewrite list_lookup_fmap. destruct (decide (i' = i)) as [->|Hi].
      * rewrite list_lookup_insert_eq by (rewrite length_fmap; by eapply lookup_lt_Some). rewrite Ei. cbn [fmap option_fmap option_map shown]. change (alter _ (sh_array s) (arrays m)) with (arrays m'). rewrite Ea. cbn.
        by rewrite window_insert.
      * rewrite list_lookup_insert_ne, list_lookup_fmap by done. destruct (fs !! i') as [[v|s']|] eqn:Ei'; [done| |done]. cbn. change (alter _ (sh_array s) (arrays m)) with (arrays m'). rewrite Eo; [done|].
        intros Eq. destruct (U l i' s') as [_ ?]; [unfold field_at; by rewrite Efs|done|done].
    + rewrite lookup_insert_ne, view_lookup by done. change (structs m' !! l') with (structs m !! l'). destruct (structs m !! l') as [gs|] eqn:Eg; [|done].
      cbn. do 2 f_equal. apply list_fmap_ext. intros i' [v|s'] Ei'; [done|]. cbn. change (alter _ (sh_array s) (arrays m)) with (arrays m'). rewrite Eo; [done|].
      intros Eq. destruct (U l' i' s') as [? _]; [unfold field_at; by rewrite Eg|done|done].
Qed.
Lemma write_same m s j p : element m s j = Some p -> write_element m s j p = m.
Proof.
  unfold element, write_element. destruct (arrays m !! sh_array s) as [[l|l]|] eqn:E; [|done..]. intros El. destruct m as [st ar]. cbn in *. f_equal.
  apply map_eq. intros a. destruct (decide (a = sh_array s)) as [->|Ha]; [|by rewrite lookup_alter_ne].
  rewrite lookup_alter_eq, E. cbn. do 2 f_equal. by apply list_insert_id.
Qed.
Lemma set_step m0 cs m l t i v : copies_in m0 cs m -> (l, t) ∈ cs -> plain_value v ->
  copies_in m0 cs (set_field_at m l i (Plain v)) /\ view (set_field_at m l i (Plain v)) = set_node_field (view m) l i v.
Proof.
  intros [Hok Hst Har Hnew Hpriv Htyp] Hin Hv. set (m' := set_field_at m l i (Plain v)).
  assert (forall a, a <> l -> structs m' !! a = structs m !! a) as Eo by (intros a Ha; unfold m', set_field_at; cbn; by rewrite lookup_alter_ne).
  assert (structs m' !! l = (fun fs => <[i := Plain v]> fs) <$> structs m !! l) as El by (unfold m', set_field_at; cbn; by rewrite lookup_alter_eq).
  assert (forall l' i' g, field_at m' l' i' = Some g -> g = Plain v \/ field_at m l' i' = Some g) as Hfield.
  { intros l' i' g. unfold field_at. destruct (decide (l' = l)) as [->|Hl]; [|rewrite Eo by done; by right]. rewrite El.
    destruct (structs m !! l) as [fs|]; [|done]. cbn. rewrite list_lookup_insert_Some. intros [(-> & <- & _)|[_ ?]]; [by left|by right]. }
  assert (forall l' i' s, field_at m' l' i' = Some (Slice s) -> field_at m l' i' = Some (Slice s)) as Hslice.
  { intros l' i' s E. by destruct (Hfield _ _ _ E). }
  assert (structs m0 !! l = None) as Hl by (by eapply Hnew). split; [split|].
  - split; [intros l' i' s E; by eapply (mo_slices _ Hok), Hslice|]. intros l' i' w E. destruct (Hfield _ _ _ E) as [[= ->]|E']; [done|by eapply (mo_plain _ Hok)].
  - intros l' Hl'. rewrite Eo; [by apply Hst|]. intros ->. rewrite Hl in Hl'. by destruct Hl'.
  - exact Har.
  - intros l' t' Hin'. destruct (Hnew l' t' Hin') as [A B]. split; [done|]. destruct (decide (l' = l)) as [->|Hne]; [|by rewrite Eo]. rewrite El. by apply fmap_is_Some.
  - intros l' t' Hin' d k f s Ed Hf He E. destruct (Hpriv l' t' Hin' d k f s Ed Hf He (Hslice _ _ _ E)) as (A & B & U). split_and!; [done|done|].
    intros a k' s' E' Eq. by eapply U; [apply Hslice|].
  - intros l' t' Hin' specs r s Es Hr E. exact (Htyp l' t' Hin' specs r s Es Hr (Hslice _ _ _ E)).
  - apply map_eq. intros l'. rewrite view_lookup. unfold set_node_field. rewrite view_lookup.
    destruct (decide (l' = l)) as [->|Hne].
    + rewrite El. destruct (structs m !! l) as [fs|] eqn:Efs; cbn; [|by rewrite view_lookup, Efs]. rewrite lookup_insert_eq. do 2 f_equal. by rewrite list_fmap_insert.
    + rewrite Eo by done. destruct (structs m !! l) as [fs|]; cbn; [rewrite lookup_insert_ne by done|]; by rewrite view_lookup.
Qed.

(** ** Redirecting *)

Section redirect.
Context (m0 : memory) (cs : list (loc * string)) (f : gmap loc goval -> goval -> goval) (l : loc) (t : string) (d : structDef) (specs : list relationSpec) (r : relationSpec).
Context (Hin : (l, t) ∈ cs) (Hd : types !! t = Some d) (Hdef : def_ok d) (Hspecs : relationSpecs types t = Ok specs) (Hr : r ∈ specs).
(** What is redirected, in a field that can be read. *)
Context (Hsame : forall h p, spec_exported types r = false -> f h p = p) (Hplain : forall h p, plain_value p -> plain_value (f h p)).

Lemma redirect_loop s js : (forall j, j ∈ js -> j < sh_len s) -> forall m es, copies_in m0 cs m -> field_at m l (fieldIndex r) = Some (Slice s) ->
  arrays m !! sh_array s = Some (Elements es) ->
  let m' := foldl (fun m j => match element m s j with Some p => write_element m s j (f (view m) p) | None => m end) m js in
  copies_in m0 cs m' /\ view m' = foldl (fun heap j =>
    match slice_elems (default (VSlice None) (node_field heap l (fieldIndex r))) !! j with
    | Some p => set_node_field heap l (fieldIndex r)
        (VSlice (Some (<[j := f heap p]> (slice_elems (default (VSlice None) (node_field heap l (fieldIndex r)))))))
    | None => heap
    end) (view m) js.
Proof.
  induction js as [|j js IH]; intros Hjs m es Hm Hs Ees; [done|]. cbn zeta. cbn [foldl].
  assert (j < sh_len s) as Hj by (apply Hjs; left). rewrite node_field_view, Hs. cbn [fmap option_fmap option_map shown]. rewrite Ees. cbn [shown_backing default from_option id slice_elems].
  destruct (mo_slices _ (ci_ok _ _ _ Hm) _ _ _ Hs) as (b & Eb & Hb). rewrite Ees in Eb. injection Eb as <-. cbn in Hb.
  rewrite window_lookup by done. assert (element m s j = es !! (sh_off s + j)) as Ee by (unfold element; by rewrite Ees).
  destruct (es !! (sh_off s + j)) as [p|] eqn:Ep; [|apply lookup_ge_None in Ep; lia]. rewrite Ee.
  destruct (spec_exported types r) eqn:Ex.
  - destruct (specs_sound types t d specs r Hd Hdef Hspecs Hr) as (g & Hg & _ & Ho).
    unfold spec_exported, field_exported, named_field in Ex. rewrite Ho, Hd in Ex. cbn in Ex. rewrite Hg in Ex. cbn in Ex.
    assert (fields d !! fieldIndex r = Some g) as Hfield by (by apply field_index_Some in Hg as [? _]).
    destruct (write_step m0 cs m l t d (fieldIndex r) g s j (f (view m) p) es Hm Hin Hd Hfield Ex Hs Ees Hj) as [Hm1 <-].
    eapply IH; [intros k Hk; apply Hjs; by right|done|done|]. unfold write_element. cbn. rewrite lookup_alter_eq, Ees. done.
  - rewrite (Hsame (view m) p eq_refl), (write_same m s j p) by done. rewrite list_insert_id by (by rewrite window_lookup).
    rewrite (set_same (view m)); [eapply IH; [intros k Hk; apply Hjs; by right|done..]| |].
    + rewrite node_field_view, Hs. cbn. by rewrite Ees.
    + destruct (field_at_cell _ _ _ _ Hs) as (fs & Efs & _). rewrite view_lookup, Efs. by eexists.
Qed.

Lemma redirect_sim m h' : copies_in m0 cs m -> Aggregate.redirect f (view m) l r = Ok h' ->
  exists m', redirect m f l r = Ok m' /\ view m' = h' /\ copies_in m0 cs m'.
Proof.
  intros Hm. unfold Aggregate.redirect, redirect. rewrite node_field_view. destruct (field_at m l (fieldIndex r)) as [fld|] eqn:Ef; [|done]. cbn [fmap option_fmap option_map].
  assert (forall s, fld = Slice s -> many r = true /\ exists es, arrays m !! sh_array s = Some (Elements es)) as Ht.
  { intros s ->. by apply (ci_typed _ _ _ Hm l t Hin specs r s Hspecs Hr). }
  destruct (many r) eqn:Em; cbn [negb].
  - intros [= <-]. destruct fld as [v|s].
    + exists m. split_and!; [done| |done]. pose proof (mo_plain _ (ci_ok _ _ _ Hm) _ _ _ Ef) as Hv. assert (slice_elems v = []) as E; [|cbn [shown]; by rewrite E].
      by destruct v as [| | | | |[]|[]| | | |].
    + destruct (Ht s eq_refl) as (_ & es & Ees). destruct (redirect_loop s (seq 0 (sh_len s))) with (m := m) (es := es) as [A B]; try done.
      { intros j Hj. apply elem_of_seq in Hj. lia. }
      eexists. split_and!; [reflexivity| |exact A]. rewrite B. cbn [shown]. rewrite Ees. cbn [shown_backing slice_elems default from_option id].
      destruct (mo_slices _ (ci_ok _ _ _ Hm) _ _ _ Ef) as (b & Eb & Hb). rewrite Ees in Eb. injection Eb as <-. cbn in Hb. by rewrite window_length.
  - intros [= <-]. destruct fld as [v|s]; [|by destruct (Ht s eq_refl)]. cbn [shown].
    destruct (set_step m0 cs m l t (fieldIndex r) (f (view m) v) Hm Hin) as [A B]; [apply Hplain; by apply (mo_plain _ (ci_ok _ _ _ Hm) _ _ _ Ef)|].
    eexists. by split_and!.
Qed.
End redirect.

(** ** The steps of a clone *)

Lemma copies_mono m0 cs cs' m : (forall p, p ∈ cs' -> p ∈ cs) -> copies_in m0 cs m -> copies_in m0 cs' m.
Proof. intros H [A B C D E F]. split; [done..| | |]; intros l t Hl; [eapply D|eapply E|eapply F]; by apply H. Qed.
(** The cells of resources, with their types. *)
Definition typed_cells (rs : list touchedResource) : list (loc * string) := concat ((fun r => [(t_work r, dbName r); (original r, dbName r)]) <$> rs).
Lemma typed_cells_elem rs p : p ∈ typed_cells rs <-> exists r, r ∈ rs /\ (p = (t_work r, dbName r) \/ p = (original r, dbName r)).
Proof.
  unfold typed_cells. induction rs as [|r rs IH]; cbn.
  { split; [by intros ?%elem_of_nil|by intros (? & ?%elem_of_nil & _)]. }
  rewrite !elem_of_cons, IH. split.
  - intros [->|[->|(r' & Hr' & H)]]; [exists r; split; [by left|by left]|exists r; split; [by left|by right]|exists r'; split; [by right|done]].
  - intros (r' & [->|Hr']%elem_of_cons & H); [by destruct H; [left|right; left]|right; right; by exists r'].
Qed.

(** What a rewiring does to pointers: nothing in a field that cannot be read. *)
Definition rewiring (f : bool -> relationSpec -> gmap loc goval -> goval -> goval) : Prop := forall orig r h p,
  (spec_exported types r = false -> f orig r h p = p) /\ (plain_value p -> plain_value (f orig r h p)).
Lemma unreadable h r p : spec_exported types r = false -> valueID GetId h (readable types r p) = None.
Proof. intros E. unfold readable. rewrite E. by destruct p. Qed.
Lemma self_rewiring key res : rewiring (fun orig r h p => rewireSelfRelationPointer types GetId h r key (if (orig : bool) then original res else t_work res) p).
Proof.
  intros orig r h p. unfold rewireSelfRelationPointer. split; [intros E; by rewrite unreadable|]. intros Hp. by repeat case_match.
Qed.
Lemma resource_rewiring rs : rewiring (rewireResourcePointer types GetId rs (resource_positions rs)).
Proof.
  intros orig r h p. unfold rewireResourcePointer. split; [intros E; by rewrite unreadable|]. intros Hp. by repeat case_match.
Qed.

Lemma rewire_sim m0 cs f t d res m h' : rewiring f -> types !! t = Some d -> def_ok d -> (t_work res, t) ∈ cs -> (original res, t) ∈ cs -> copies_in m0 cs m ->
  (specs ← relationSpecs types t;
   fold_outcome (fun heap r => heap ← Aggregate.redirect (f false r) heap (t_work res) r; Aggregate.redirect (f true r) heap (original res) r) (view m) specs) = Ok h' ->
  exists m', rewire_resource types m f t res = Ok m' /\ view m' = h' /\ copies_in m0 cs m'.
Proof.
  intros Hf Hd Hdef Hw Ho Hm. unfold rewire_resource. destruct (relationSpecs types t) as [specs| |] eqn:Es; [|done..]. cbn [mbind outcome_bind].
  assert (forall todo, (forall r, r ∈ todo -> r ∈ specs) -> forall m, copies_in m0 cs m ->
    fold_outcome (fun heap r => heap ← Aggregate.redirect (f false r) heap (t_work res) r; Aggregate.redirect (f true r) heap (original res) r) (view m) todo = Ok h' ->
    exists m', fold_outcome (fun m r => m ← redirect m (f false r) (t_work res) r; redirect m (f true r) (original res) r) m todo = Ok m' /\ view m' = h' /\ copies_in m0 cs m') as H.
  2: { by apply H. }
  clear m Hm. induction todo as [|r todo IH]; intros Hin m Hm; cbn [fold_outcome].
  { intros [= <-]. by exists m. }
  assert (r ∈ specs) as Hr by (apply Hin; left).
  destruct (Aggregate.redirect (f false r) (view m) (t_work res) r) as [h1| |] eqn:E1; [|done..]. cbn [mbind outcome_bind].
  destruct (redirect_sim m0 cs (f false r) (t_work res) t d specs r Hw Hd Hdef Es Hr (fun h p => proj1 (Hf false r h p)) (fun h p => proj2 (Hf false r h p)) m h1 Hm E1)
    as (m1 & -> & <- & Hm1). cbn [mbind outcome_bind].
  destruct (Aggregate.redirect (f true r) (view m1) (original res) r) as [h2| |] eqn:E2; [|done..].
  destruct (redirect_sim m0 cs (f true r) (original res) t d specs r Ho Hd Hdef Es Hr (fun h p => proj1 (Hf true r h p)) (fun h p => proj2 (Hf true r h p)) m1 h2 Hm1 E2)
    as (m2 & -> & <- & Hm2). apply IH; [intros r' Hr'; apply Hin; by right|done].
Qed.

(** A row of the branch, its type and the slices of its relations. *)
Definition row_typed m dbs (key : nodeKey) : Prop := (exists d, types !! key_typ key = Some d /\ def_ok d) /\
  forall db slot, dbs !! key_typ key = Some db -> resource db (key_id key) = Some slot ->
    is_Some (structs m !! item slot) /\ relations_typed types m (item slot) (key_typ key).

Lemma snapshot_sim m0 dbs acc key m h' res : memory_ok m0 -> row_typed m0 dbs key -> copies_in m0 (typed_cells acc) m ->
  Aggregate.snapshot_resource (view m) dbs key = Ok (h', res) ->
  exists m', snapshot_resource types m dbs key = Ok (m', res) /\ view m' = h' /\ copies_in m0 (typed_cells (acc ++ [res])) m' /\ resource_node res = key.
Proof.
  intros Hok0 [(d & Hd & _) Hrow] Hm. unfold Aggregate.snapshot_resource, snapshot_resource, committerFor. destruct (dbs !! key_typ key) as [db|] eqn:Edb; [|done].
  cbn [mbind outcome_bind]. unfold snapshotResource. rewrite Hd. destruct (resource db (key_id key)) as [slot|] eqn:Es; [|done].
  destruct (Hrow db slot eq_refl Es) as [Hcell Ht].
  destruct (copy_step m0 _ m d (item slot) (key_typ key) Hm Hok0 Hcell Hd Ht) as [H1 ->]. set (w := cloneEntityPointer m d (item slot)) in *. cbn [fst snd].
  destruct (copy_step m0 _ w.1 d (item slot) (key_typ key) H1 Hok0 Hcell Hd Ht) as [H2 ->]. set (o := cloneEntityPointer w.1 d (item slot)) in *.
  intros [= <- <-]. exists o.1. split_and!; [done|done| |unfold resource_node; cbn; by destruct key]. eapply copies_mono; [|exact H2].
  intros p (r & [Hr| ->%list_elem_of_singleton]%elem_of_app & Hp)%typed_cells_elem.
  - right. right. apply typed_cells_elem. by exists r.
  - cbn in Hp. destruct Hp as [->| ->]; [right; left|left].
Qed.

Lemma clone_sim m0 dbs root keys : memory_ok m0 -> (forall key, key ∈ keys -> row_typed m0 dbs key) -> forall m acc work h' rs work',
  copies_in m0 (typed_cells acc) m -> fold_outcome (Aggregate.clone_key dbs root) (view m, acc, work) keys = Ok (h', rs, work') ->
  exists m', fold_outcome (clone_key types dbs root) (m, acc, work) keys = Ok (m', rs, work') /\ view m' = h' /\ copies_in m0 (typed_cells rs) m' /\
    forall r, r ∈ rs -> r ∈ acc \/ resource_node r ∈ keys.
Proof.
  intros Hok0. induction keys as [|key keys IH]; intros Hrows m acc work h' rs work' Hm; cbn [fold_outcome].
  { intros [= <- <- <-]. exists m. split_and!; try done. by left. }
  destruct (Aggregate.clone_key dbs root (view m, acc, work) key) as [[[h1 acc1] work1]| |] eqn:E0; [|discriminate..]. intros E.
  unfold Aggregate.clone_key in E0. destruct (Aggregate.snapshot_resource (view m) dbs key) as [[h2 res]| |] eqn:E1; [|discriminate..]. injection E0 as <- <- <-.
  destruct (snapshot_sim m0 dbs acc key m h2 res Hok0 (Hrows key ltac:(left)) Hm E1) as (m1 & Es & <- & Hm1 & Ek).
  destruct (IH (fun k Hk => Hrows k ltac:(by right)) m1 _ _ h' rs work' Hm1 E) as (m' & E' & Hv & Hm' & Hin). exists m'. split_and!; [|done|done|].
  - assert (clone_key types dbs root (m, acc, work) key = Ok (m1, acc ++ [res], if bool_decide (key = root) then Some (t_work res) else work)) as ->; [|exact E'].
    unfold clone_key. by rewrite Es.
  - intros r Hr. destruct (Hin r Hr) as [[?| ->%list_elem_of_singleton]%elem_of_app|?]; [by left|right; rewrite Ek; by left|right; by right].
Qed.

Lemma rewire_all_sim m0 rs todo (f : bool -> relationSpec -> gmap loc goval -> goval -> goval) : rewiring f -> (forall r, r ∈ todo -> r ∈ rs) ->
  (forall r, r ∈ rs -> exists d, types !! dbName r = Some d /\ def_ok d) -> forall m h', copies_in m0 (typed_cells rs) m ->
  fold_outcome (fun heap res => specs ← relationSpecs types (dbName res);
    fold_outcome (fun heap r => heap ← Aggregate.redirect (f false r) heap (t_work res) r; Aggregate.redirect (f true r) heap (original res) r) heap specs) (view m) todo = Ok h' ->
  exists m', fold_outcome (fun m res => rewire_resource types m f (dbName res) res) m todo = Ok m' /\ view m' = h' /\ copies_in m0 (typed_cells rs) m'.
Proof.
  intros Hf Hsub Htypes. induction todo as [|res todo IH]; intros m h' Hm; cbn [fold_outcome]; [intros [= <-]; by exists m|].
  destruct (specs ← relationSpecs types (dbName res); _) as [h1| |] eqn:E1; [|done..]. cbn [mbind outcome_bind]. assert (res ∈ rs) as Hres by (apply Hsub; left). destruct (Htypes res Hres) as (d & Hd & Hdef).
  destruct (rewire_sim m0 (typed_cells rs) f (dbName res) d res m h1 Hf Hd Hdef) as (m1 & -> & <- & Hm1); [| |done|done|].
  { apply typed_cells_elem. exists res. split; [done|by left]. }
  { apply typed_cells_elem. exists res. split; [done|by right]. }
  apply IH; [intros r Hr; apply Hsub; by right|done].
Qed.

(** From the copy of values to that of memory. *)
Lemma aggregate_sim m dbs c root keys c' h' w rs : memory_ok m -> branch_of c root keys -> root ∈ keys -> (forall key, key ∈ keys -> row_typed m dbs key) ->
  Aggregate.cloneOwnershipAggregate types GetId (view m) dbs c root = Ok (c', h', w, rs) ->
  exists m', cloneOwnershipAggregate types GetId m dbs c root = Ok (c', m', w, rs) /\ view m' = h' /\ copies_in m (typed_cells rs) m'.
Proof.
  intros Hok Hb Hroot Hrows. assert (copies_in m (typed_cells []) m) as H0 by (split; try done; intros l t ?%elem_of_nil; done).
  unfold branch_of in Hb. unfold Aggregate.cloneOwnershipAggregate, cloneOwnershipAggregate. destruct (committedOwnerHasChildren c root); cbn [negb].
  - destruct Hb as [c1 Ek]. rewrite Ek. cbn [mbind outcome_bind fst snd].
    destruct (fold_outcome (Aggregate.clone_key dbs root) (view m, [], None) keys) as [[[h1 rs1] work]| |] eqn:E1; [|done..]. cbn [mbind outcome_bind].
    destruct (clone_sim m dbs root keys Hok Hrows m [] None h1 rs1 work H0 E1) as (m1 & -> & <- & Hm1 & Hin). cbn [mbind outcome_bind].
    destruct (Aggregate.rewireOwnershipResources types GetId (view m1) rs1) as [h2| |] eqn:E2; [|done..]. cbn [mbind outcome_bind].
    destruct (rewire_all_sim m rs1 rs1 (rewireResourcePointer types GetId rs1 (resource_positions rs1)) (resource_rewiring rs1) (fun r Hr => Hr)) with (m := m1) (h' := h2)
      as (m2 & E & <- & Hm2); [|done|exact E2|].
    { intros r Hr. destruct (Hin r Hr) as [?%elem_of_nil|Hk]; [done|]. by destruct (Hrows _ Hk) as [? _]. }
    unfold rewireOwnershipResources. rewrite E. cbn [mbind outcome_bind]. destruct work as [w1|]; [|done]. intros [= <- <- <- <-]. by exists m2.
  - subst keys. unfold Aggregate.cloneSingleOwnershipResource, cloneSingleOwnershipResource.
    destruct (Aggregate.snapshot_resource (view m) dbs root) as [[h1 res]| |] eqn:E1; [|done..]. cbn [mbind outcome_bind fst snd].
    destruct (snapshot_sim m dbs [] root m h1 res Hok (Hrows root Hroot) H0 E1) as (m1 & -> & <- & Hm1 & Ek). cbn [mbind outcome_bind fst snd].
    destruct (Aggregate.rewireSingleOwnershipResource types GetId (view m1) root res) as [h2| |] eqn:E2; [|done..]. cbn [mbind outcome_bind fst snd].
    destruct (Hrows root Hroot) as [(d & Hd & Hdef) _]. unfold rewireSingleOwnershipResource.
    assert (dbName res = key_typ root) as Et by (by rewrite <- Ek).
    destruct (rewire_sim m (typed_cells ([] ++ [res])) _ (key_typ root) d res m1 h2 (self_rewiring root res) Hd Hdef) as (m2 & -> & <- & Hm2);
      [apply typed_cells_elem; exists res; rewrite Et; split; [left|by left]|apply typed_cells_elem; exists res; rewrite Et; split; [left|by right]|done|exact E2|].
    cbn [mbind outcome_bind fst snd]. intros [= <- <- <- <-]. by exists m2.
Qed.

(** C19: (deep copies) When the rows of a branch are there, with their relation
    fields, cloning it for a reader or a transaction succeeds. No struct and no
    array that was there is written, although a copied struct first shares the
    arrays of its slices with the row: the slices in the exported fields of a
    copy get arrays of their own, which nothing else leads to and which have no
    room to append, before pointers in them are redirected. Each node of the
    branch, in order, is copied into two cells of its own; a copy has the fields
    of its row, except that each relation pointer that names a node of the branch
    leads to the copy of that node, from a working copy to the working copy and
    from the untouched copy to the untouched one, while all others lead where
    the row leads. What the reader gets is the working copy of the root. Slices
    in unexported fields, and what elements hold, stay shared with the rows. *)
Theorem clone_is_a_deep_copy m dbs c root keys :
  memory_ok m -> branch_of c root keys -> root ∈ keys -> NoDup keys ->
  (forall key, key ∈ keys -> row_whole types (view m) dbs key /\ row_linked types (view m) dbs key /\ row_typed m dbs key) ->
  exists c' m' w rs, cloneOwnershipAggregate types GetId m dbs c root = Ok (c', m', w, rs) /\
    (forall l fs, structs m !! l = Some fs -> structs m' !! l = Some fs) /\ arrays m ⊆ arrays m' /\
    (forall r l, r ∈ rs -> l = t_work r \/ l = original r -> private_slices types m m' l (dbName r)) /\
    deep_copy types GetId (view m) dbs (view m') keys rs /\ exists r, r ∈ rs /\ resource_node r = root /\ w = t_work r.
Proof.
  intros Hok Hb Hroot Hnd Hrows.
  destruct (clone_copies types GetId (view m) dbs c root keys Hb Hroot Hnd) as (c' & h' & w & rs & E & Hdeep & Hw); [intros k Hk; by destruct (Hrows k Hk) as (? & ? & _)|].
  destruct (aggregate_sim m dbs c root keys c' h' w rs Hok Hb Hroot (fun k Hk => proj2 (proj2 (Hrows k Hk))) E) as (m' & E' & <- & Hm).
  exists c', m', w, rs. split_and!; [done| |by eapply ci_arrays| |done|done].
  - intros l fs El. by rewrite (ci_structs _ _ _ Hm) by (by eexists).
  - intros r l Hr Hl. eapply ci_private; [exact Hm|]. apply typed_cells_elem. exists r. split; [done|]. by destruct Hl as [->| ->]; [left|right].
Qed.
End proof.

(** ** A clone of a branch with one owned note

    The memory of the process with two trees: every slice has an array of its
    own, with room for one more element. *)
Definition load_field (ar : gmap positive backing) (v : goval) : gmap positive backing * field :=
  let a := fresh (dom ar) in
  match v with
  | VSlice (Some l) => (<[a := Elements (l ++ [VPointer None])]> ar, Slice {| sh_array := a; sh_off := 0; sh_len := length l; sh_cap := S (length l) |})
  | VBytes (Some l) => (<[a := Raw l]> ar, Slice {| sh_array := a; sh_off := 0; sh_len := length l; sh_cap := length l |})
  | _ => (ar, Plain v)
  end.
Definition load_struct (m : memory) (p : loc * goval) : memory :=
  let q := foldl (fun q v => let r := load_field q.1 v in (r.1, q.2 ++ [r.2])) (arrays m, []) (struct_fields p.2) in
  {| structs := <[p.1 := q.2]> (structs m); arrays := q.1 |}.
Definition load (heap : gmap loc goval) : memory := foldl load_struct {| structs := ∅; arrays := ∅ |} (map_to_list heap).

Definition field_check (m : memory) (f : field) : bool :=
  match f with
  | Plain (VSlice (Some _)) | Plain (VBytes (Some _)) => false
  | Plain _ => true
  | Slice s => match arrays m !! sh_array s with Some b => (sh_off s + sh_len s <=? backing_length b)%nat | None => false end
  end.
Definition memory_check (m : memory) : bool := bool_decide (map_Forall (fun _ fs => forallb (field_check m) fs = true) (structs m)).
Lemma memory_check_ok m : memory_check m = true -> memory_ok m.
Proof.
  unfold memory_check. rewrite bool_decide_eq_true. intros H.
  assert (forall l i f, field_at m l i = Some f -> field_check m f = true) as Hf.
  { intros l i f (fs & Efs & Ei)%field_at_cell. specialize (H l fs Efs). cbn in H. rewrite forallb_forall in H. apply H, list_elem_of_In. by eapply list_elem_of_lookup_2. }
  split.
  - intros l i s E%Hf. cbn in E. destruct (arrays m !! sh_array s) as [b|]; [|done]. exists b. split; [done|]. by apply Nat.leb_le.
  - intros l i v E%Hf. cbn in E. by destruct v as [| | | | |[]|[]| | | |].
Qed.
Definition typed_check (types : typeEnv) (m : memory) (dbs : gmap string DB) (key : nodeKey) : bool :=
  match types !! key_typ key, (db ← dbs !! key_typ key; resource db (key_id key)), relationSpecs types (key_typ key) with
  | Some d, Some slot, Ok specs => bool_decide (NoDup (fname <$> fields d)) && bool_decide (is_Some (structs m !! item slot)) &&
      forallb (fun r => match field_at m (item slot) (fieldIndex r) with
        | Some (Slice s) => many r && match arrays m !! sh_array s with Some (Elements _) => true | _ => false end | _ => true end) specs
  | _, _, _ => false
  end.
Lemma typed_check_ok types m dbs key : typed_check types m dbs key = true -> row_typed types m dbs key.
Proof.
  unfold typed_check. destruct (types !! key_typ key) as [d|] eqn:Ed; [|done]. destruct (dbs !! key_typ key) as [db|] eqn:Edb; [|done]. cbn [mbind option_bind].
  destruct (resource db (key_id key)) as [slot|] eqn:Es; [|done]. destruct (relationSpecs types (key_typ key)) as [specs| |] eqn:Ep; [|done..].
  rewrite !andb_true_iff, !bool_decide_eq_true, forallb_forall. intros [[A B] C]. split; [by exists d|].
  intros db' slot' Edb' Es'. rewrite Edb in Edb'. injection Edb' as <-. rewrite Es in Es'. injection Es' as <-. split; [done|].
  intros specs' r s Ep' Hr E. rewrite Ep in Ep'. injection Ep' as <-. apply list_elem_of_In, C in Hr. rewrite E, andb_true_iff in Hr. destruct Hr as [Hm Hr].
  split; [done|]. destruct (arrays m !! sh_array s) as [[es|]|]; [by exists es|done..].
Qed.

Definition notes_memory : memory := load (w_heap notes_world).
Definition notes_copied (c' : committedOwnership) (m' : memory) (w : loc) (rs : list touchedResource) : Prop :=
  cloneOwnershipAggregate note_types graph_id notes_memory (w_dbs notes_world) (w_committed notes_world) (node "Author" 1) = Ok (c', m', w, rs) /\
  (forall l fs, structs notes_memory !! l = Some fs -> structs m' !! l = Some fs) /\ arrays notes_memory ⊆ arrays m' /\
  (forall r l, r ∈ rs -> l = t_work r \/ l = original r -> private_slices note_types notes_memory m' l (dbName r)) /\
  deep_copy note_types graph_id (view notes_memory) (w_dbs notes_world) (view m') note_branch rs /\ exists r, r ∈ rs /\ resource_node r = node "Author" 1 /\ w = t_work r.
Lemma clone_is_a_deep_copy_witness :
  view notes_memory = w_heap notes_world /\ committedOwnerHasChildren (w_committed notes_world) (node "Author" 1) = true /\
  exists c' m' w rs, notes_copied c' m' w rs.
Proof.
  split; [apply (bool_decide_eq_true_1 (view notes_memory = w_heap notes_world)); vm_compute; reflexivity|].
  assert (committedOwnerHasChildren (w_committed notes_world) (node "Author" 1) = true) as Hc by (vm_compute; reflexivity).
  split; [exact Hc|].
  apply (clone_is_a_deep_copy note_types graph_id notes_memory (w_dbs notes_world) (w_committed notes_world) (node "Author" 1) note_branch).
  - apply memory_check_ok. vm_compute. reflexivity.
  - unfold branch_of. rewrite Hc. assert (snd <$> committedOwnershipKeys (w_committed notes_world) (node "Author" 1) = Ok note_branch) as E by (vm_compute; reflexivity).
    destruct (committedOwnershipKeys (w_committed notes_world) (node "Author" 1)) as [[c' keys]| |]; [|discriminate E..]. injection E as ->. by exists c'.
  - left.
  - apply (bool_decide_unpack (NoDup note_branch)). vm_compute. exact I.
  - intros key Hk. assert (forallb (fun key => row_check note_types (view notes_memory) (w_dbs notes_world) key && typed_check note_types notes_memory (w_dbs notes_world) key) note_branch = true) as H by (vm_compute; reflexivity).
    rewrite forallb_forall in H. specialize (H key ltac:(by apply list_elem_of_In)). apply andb_true_iff in H as [H1 H2].
    apply row_check_ok in H1 as [? ?]. split; [done|]. split; [done|]. by apply typed_check_ok.
Defined.
