(* ===== verification/CommitGuard.v ===== *)
(** * The checks every commit makes

    On each of its paths - values alone, an index delta, a new model, a single
    write - a commit succeeds only if the rows its transaction changed, created
    or staged for deletion are as the transaction knows them. Nothing is assumed
    of the tables or of the transaction. What a delete takes along is not
    checked, which the last section shows. *)
From S2P Require Import Prelude GoBytes GoReflect RelationSchema SchemaRows RelationModel RelationGraph CommittedGraph RelationDelta Transaction.
From S2P Require Import WalFrame RowCodec WalLog ChunkStore IndexSpecs SecondaryIndex IndexCommit Storage Table Wiring Aggregate GraphCommit World Commit Api CommitSteps CommitEffect TowerEffect.

(** The version of a row, if there is one. *)
Definition row_version (w : world) (k : nodeKey) : option Z := db ← w_dbs w !! key_typ k; resourceVersion db (key_id k).

(** ** Checks that pass *)

(** [m] succeeds only without a change, where [P] holds. *)
Definition passes (P : world -> Prop) (m : st unit) : Prop := forall w w' u, m w = (w', Ok u) -> w' = w /\ P w.
Lemma each_passes {A} (P : A -> world -> Prop) (f : A -> st unit) l : (forall a, a ∈ l -> passes (P a) (f a)) -> passes (fun w => forall a, a ∈ l -> P a w) (each f l).
Proof.
  induction l as [|a l IH]; intros Hf w w' u E.
  { injection E as <- _. split; [done|]. by intros a ?%elem_of_nil. }
  cbn [each] in E. apply bind_inv in E as (w1 & u1 & E1 & E). destruct (Hf a ltac:(left) _ _ _ E1) as [-> Ha].
  destruct (IH (fun b Hb => Hf b ltac:(by right)) _ _ _ E) as [-> Hl]. split; [done|]. intros b [->|Hb]%elem_of_cons; auto.
Qed.
Lemma version_lift w w' t id v : lift (fun w => db ← committerFor (w_dbs w) t; Ok (resourceVersion db id)) w = (w', Ok v) ->
  w' = w /\ v = row_version w {| key_typ := t; key_id := id |}.
Proof.
  unfold lift, committerFor, row_version. cbn [key_typ key_id]. destruct (w_dbs w !! t) as [db|]; [|done]. cbn. by intros [= <- <-].
Qed.

Section guard.
Context (types : typeEnv) (GetId : goval -> Z) (gob_encode : gotype -> goval -> outcome (list byte))
  (gob_encode_rows : structDef -> list goval -> outcome (list byte)).
Context `{!MapOrder nodeKey, !MapOrder string, !MapOrder Z}.

Lemma check_version_passes h r : passes (fun w => row_version w (resource_node r) = Some (ver r)) (check_version types GetId h r).
Proof.
  intros w w' u E. unfold check_version in E. apply bind_inv in E as (w1 & v & [-> ->]%version_lift & E).
  case_bool_decide as Ev; [by injection E as <- _|]. apply bind_inv in E as (? & ? & _ & E). done.
Qed.
Lemma check_create_passes k : passes (fun w => row_version w k = None) (check_create k).
Proof.
  intros w w' u E. unfold check_create in E. apply bind_inv in E as (w1 & v & [-> ->]%version_lift & E).
  case_bool_decide as Ev; [|done]. injection E as <- _. by destruct k.
Qed.
Lemma check_delete_passes (cs : gmap nodeKey loc) p : passes (fun w => cs !! p.1 = None -> row_version w p.1 = Some (sd_ver p.2)) (check_delete cs p).
Proof.
  intros w w' u E. unfold check_delete in E. case_bool_decide as Ec; [injection E as <- _; split; [done|]; intros Hn; by rewrite Hn in Ec; destruct Ec|].
  apply bind_inv in E as (w1 & v & [-> ->]%version_lift & E). case_bool_decide as Ev; [|done]. injection E as <- _. by destruct p as [[] ?].
Qed.

(** ** The plan keeps the resources *)

Lemma target_resources heap tables d own r txrs cs changed tgt st : RelationDelta.materialize_target types tables d own r txrs cs (heap, changed) tgt = Ok st ->
  changed ⊆ st.2.
Proof.
  unfold materialize_target. destruct (cs !! tgt) as [child|].
  - destruct (indexedOwnBackReferenceMatches _ _ _ _ _) as [[]| |]; cbn; [by intros [= <-]| |done..].
    destruct (setIndexedOwnBackReference _ _ _ _ _); cbn; [by intros [= <-]|done..].
  - destruct (ownershipTargetResource _ _ _ _ _ _ _ _ _) as [[[h [res|]] done_]| |]; cbn; [|by intros [= <-]|done..].
    destruct (indexedOwnBackReferenceMatches _ _ _ _ _) as [[]| |]; cbn; [by intros [= <-]| |done..].
    destruct (setIndexedOwnBackReference _ _ _ _ _); cbn; [|done..]. intros [= <-]. cbn. destruct done_; set_solver.
Qed.
Lemma delta_resources heap tables d txrs changed cs heap' rs : RelationDelta.materializeOwnBackReferences types heap tables d txrs changed cs = Ok (heap', rs) ->
  changed ⊆ rs.
Proof.
  unfold RelationDelta.materializeOwnBackReferences. intros E. change (changed ⊆ (heap', rs).2). revert E. apply (fold_outcome_inv (fun st => changed ⊆ st.2)); [|done].
  intros st e st' _ Hst. destruct (if_spec (fd_field e)) as [r|]; [|done]. destruct (_ || _); [by intros [= <-]|].
  destruct (overrideValue _ _); [|done]. apply (fold_outcome_inv (fun st => changed ⊆ st.2)); [|done].
  intros [h c] tgt st1 _ Hc E. etrans; [exact Hc|]. by eapply target_resources.
Qed.
Lemma model_resources heap dbs m txrs changed cs deleted heap' m' rs :
  GraphCommit.materializeOwnBackReferences types GetId heap dbs m txrs changed cs deleted = Ok (heap', m', rs) -> changed ⊆ rs.
Proof.
  unfold GraphCommit.materializeOwnBackReferences. destruct (fold_outcome _ tt _) as [u| |]; cbn; [|done..].
  set (available := foldl _ _ _). destruct (fold_outcome _ _ (refs m)) as [st| |] eqn:E; cbn; [|done..]. intros [= <- <- <-]. revert E.
  apply (fold_outcome_inv (fun st : gmap loc goval * relationModel * list touchedResource * gset nodeKey => changed ⊆ st.1.2)); [|done].
  intros [[[h m1] c] keys] ref st' _ Hc. unfold materialize_ref. destruct (back_reference_due _ _ _ _) as [[]| |]; cbn; [|by intros [= <-]|done..].
  case_bool_decide; [by intros [= <-]|]. destruct (cs !! r_target ref).
  - destruct (syncOwnSliceBackReference _ _ _ _); cbn; [by intros [= <-]|done..].
  - case_bool_decide; [destruct (syncOwnSliceBackReference _ _ _ _); cbn; [by intros [= <-]|done..]|].
    destruct (match available !! r_target ref with Some _ => _ | None => _ end) as [[h1 res]| |]; cbn; [|done..].
    destruct (syncOwnSliceBackReference _ _ _ _) as [[h2 []]| |]; cbn; [| |done..]; intros [= <-]; cbn; set_solver.
Qed.

Lemma plan_keeps tx touched w w' touched' plan : plan_graph types GetId tx touched w = (w', Ok (touched', plan)) -> w_dbs w' = w_dbs w /\ touched ⊆ touched'.
Proof.
  unfold plan_graph. intros (w1 & delta & E1 & E)%bind_inv. assert (w1 = w) as -> by (unfold lift in E1; by injection E1). destruct delta as [d|].
  - apply heap_step_inv in E as (heap & E & ->). split; [done|].
    destruct (RelationDelta.materializeOwnBackReferences _ _ _ _ _ _ _) as [[h1 rs]| |] eqn:Em; [|done..]. cbn in E. injection E as <- <- <-.
    by eapply delta_resources.
  - apply heap_step_inv in E as (heap & E & ->). split; [done|].
    destruct (validateTransactionGraph _ _ _ _ _ _ _ _ _) as [v| |]; [|done..]. cbn in E.
    destruct (GraphCommit.materializeOwnBackReferences _ _ _ _ _ _ _ _ _) as [[[h1 m1] rs]| |] eqn:Em; [|done..]. cbn in E. injection E as <- <- <-.
    by eapply model_resources.
Qed.

(** Every row a transaction names, at the versions it saw. *)
Definition versions_seen (w : world) (tx : transactionState) (rs : list touchedResource) : Prop :=
  (forall r, r ∈ rs -> row_version w (resource_node r) = Some (ver r)) /\
  (forall k, is_Some (creates tx !! k) -> row_version w k = None) /\
  (forall k sd, deletes tx !! k = Some sd -> creates tx !! k = None -> row_version w k = Some (sd_ver sd)).

Lemma locked_guard env h tx touched plan w w' : commit_locked types GetId gob_encode gob_encode_rows env h tx touched plan w = (w', Ok tt) ->
  versions_seen w tx touched.
Proof.
  unfold commit_locked. intros (w1 & u1 & [-> Hc]%(each_passes _ _ _ (fun k _ => check_create_passes k)) & E)%bind_inv.
  apply bind_inv in E as (w2 & u2 & [-> Hv]%(each_passes _ _ _ (fun r _ => check_version_passes h r)) & E).
  apply bind_inv in E as (w3 & u3 & [-> Hd]%(each_passes _ _ _ (fun p _ => check_delete_passes (creates tx) p)) & _). split_and!; [done| |].
  - intros k [l El]. apply Hc. apply (list_elem_of_fmap_2' fst _ (k, l)); [by apply map_range_elem|done].
  - intros k sd Ek. apply (Hd (k, sd)). by apply map_range_elem.
Qed.

(** C4: (optimistic concurrency) Whatever a transaction did, if its commit
    succeeds then - on every path of the commit - the transaction was active,
    each row whose copy it changed was still at the version the transaction read,
    each entity it creates was not there, and each row it staged for deletion was
    at the version it saw (unless it also creates it). The rows that are deleted
    along with those, because a deleted row owns them, are not checked:
    [cascade_deletes_a_newer_row]. *)
Theorem commit_needs_current_rows env h tx w w' : states (w_engine w) !! h = Some tx ->
  commit types GetId gob_encode gob_encode_rows env h w = (w', Ok tt) ->
  active tx = true /\ versions_seen w tx (changedResources types GetId (w_heap w) (copyResources tx)).
Proof.
  intros Eh. unfold commit. intros (wa & tx' & Et & E)%bind_inv. unfold find_tx, lift in Et. rewrite Eh in Et. injection Et as <- <-.
  destruct (active tx); [|done]. split; [done|]. cbn [negb] in E.
  apply bind_inv in E as (wb & rs & Ers & E). unfold gets in Ers. injection Ers as <- <-. set (rs := changedResources _ _ _ _) in *. cbn zeta in E.
  set (structural := negb (bool_decide (creates tx = ∅)) || negb (bool_decide (deletes tx = ∅))) in *.
  assert (structural = false -> creates tx = ∅ /\ deletes tx = ∅) as Hst.
  { unfold structural. rewrite orb_false_iff, !negb_false_iff, !bool_decide_eq_true. done. }
  assert (structural = false -> (forall r, r ∈ rs -> row_version w (resource_node r) = Some (ver r)) -> versions_seen w tx rs) as Hplain.
  { intros [Ec Ed]%Hst Hr. split_and!; [done|rewrite Ec; intros k [l El]; by rewrite lookup_empty in El|rewrite Ed; intros k sd El; by rewrite lookup_empty in El]. }
  destruct (bool_decide (rs = []) && negb structural) eqn:Enone.
  { apply andb_true_iff in Enone as [Enil%bool_decide_eq_true Es%negb_true_iff]. apply Hplain; [done|]. rewrite Enil. by intros r ?%elem_of_nil. }
  apply bind_inv in E as (wc & changed & Ec & E). assert (wc = w) as -> by (unfold lift in Ec; by injection Ec). clear Ec.
  apply bind_inv in E as (wd & access & Ea & E). unfold gets in Ea. injection Ea as <- <-.
  apply bind_inv in E as (w1 & [touched plan] & Ep & E).
  assert (w_dbs w1 = w_dbs w /\ rs ⊆ touched) as [Hd Hsub].
  { destruct (transactionGraphAccess _ _ _ _ _); [injection Ep as <- <- <-; done..|by eapply plan_keeps]. }
  assert (forall k, row_version w1 k = row_version w k) as Hrv by (intros k; unfold row_version; by rewrite Hd).
  apply bind_inv in E as (w2 & single & Es & E). assert (w2 = w1) as -> by (unfold lift in Es; by injection Es). unfold lift in Es. injection Es as Es.
  assert (versions_seen w1 tx touched -> versions_seen w tx rs) as Hdone.
  { intros (A & B & C). split_and!; [intros r Hr; rewrite <- Hrv; by apply A, Hsub|intros k; rewrite <- Hrv; apply B|intros k sd; rewrite <- Hrv; apply C]. }
  destruct single as [r|]; [|by eapply Hdone, locked_guard].
  unfold commitSingleWrite in E. apply bind_inv in E as (w3 & u & [-> Hr]%check_version_passes & _).
  destruct plan as [|d|m deleted]; [|done..]. destruct touched as [|r0 [|r1 l]]; [done| |done]. destruct structural; [done|].
  destruct (committerFor (w_dbs w1) (dbName r0)) as [db| |]; [|done..]. cbn in Es. case_bool_decide; [|done]. injection Es as <-.
  apply Hplain; [done|]. intros r' Hr'. apply Hsub, list_elem_of_singleton in Hr' as ->. by rewrite <- Hrv.
Qed.
End guard.

(** ** A commit by an index delta

    After two trees, the create of a third, staged. *)
Definition staged_notes : st positive :=
  _ ← opened_notes;
  h ← begin_tx;
  a ← new_entity (author 3 "anonymous" []) ≫= some_cell;
  n ← new_entity (note 3 "draft" (Some a)) ≫= some_cell;
  _ ← set_field a 2 (VSlice (Some [VPointer (Some n)]));
  _ ← create_in note_types graph_id h "Author" (Some a);
  mret h.
Definition created_world : world := (staged_notes note_world).1.
Definition created_handle : positive := value_of 1%positive (staged_notes note_world).2.
Definition no_tx : transactionState :=
  {| active := false; Transaction.resource := None; resources := []; resourcePos := None; bindings := []; creates := ∅; deletes := ∅ |}.
Definition created_tx : transactionState := default no_tx (states (w_engine created_world) !! created_handle).
Definition created_commit := commit note_types graph_id no_encoder no_rows_encoder commit_calm created_handle created_world.

Lemma commit_needs_current_rows_witness :
  size (creates created_tx) = 2 /\ row created_commit.1 (node "Note" 3) <> None /\ active created_tx = true /\
  versions_seen created_world created_tx (changedResources note_types graph_id (w_heap created_world) (copyResources created_tx)).
Proof.
  split; [vm_compute; reflexivity|]. split; [vm_compute; discriminate|].
  apply (commit_needs_current_rows note_types graph_id no_encoder no_rows_encoder commit_calm created_handle created_tx created_world created_commit.1).
  - unfold created_tx. apply found. vm_compute. reflexivity.
  - apply ran; [unfold created_commit; reflexivity|vm_compute; reflexivity].
Defined.

(** ** What a delete takes along

    A transaction reads author 1 with its note and stages the delete of the
    author; before it commits, another transaction rewrites the note. The commit
    succeeds and deletes the note with the author, although the note is no longer
    at the version the transaction read. *)
Definition staged_delete : st positive :=
  _ ← opened_notes;
  h ← begin_tx;
  _ ← get_in note_types graph_id h "Author" 1;
  _ ← delete_in h "Author" 1;
  _ ← note_tx (fun h => get_in note_types graph_id h "Author" 1 ≫= write_note "rewritten");
  mret h.
Definition deleted_world : world := (staged_delete note_world).1.
Definition deleted_handle : positive := value_of 1%positive (staged_delete note_world).2.
Definition deleted_tx : transactionState := default no_tx (states (w_engine deleted_world) !! deleted_handle).
(** A delete saves the tables, so that gob has to write rows. *)
Definition any_rows (d : structDef) (v : list goval) : outcome (list byte) := Ok [].
Definition deleted_commit := commit note_types graph_id no_encoder any_rows commit_calm deleted_handle deleted_world.
Lemma cascade_deletes_a_newer_row :
  ver <$> find_key (copyResources deleted_tx) (node "Note" 1) = Some 0%Z /\
  row_version deleted_world (node "Note" 1) = Some 1%Z /\
  deleted_commit.2 = Ok tt /\ row deleted_commit.1 (node "Note" 1) = None.
Proof. vm_compute. by split_and!. Qed.
