(* ===== verification/Durability.v ===== *)
(** * Commits survive a restart (src/engine.go, src/wal.go, src/storage.go)

    What a process that starts again finds of the commits of the one before: the
    log rows a commit writes, the log after it, the table [loadStore] builds from
    the chunk files and that log. For a table without relations, written by
    transactions of its own, the rows it finds are the rows that were there. *)
From S2P Require Import Prelude GoBytes GoReflect RelationSchema SchemaRows RelationModel CommittedGraph RelationDelta Transaction.
From S2P Require Import WalFrame RowCodec WalLog ChunkStore IndexSpecs SecondaryIndex IndexCommit Storage Recovery Table Wiring Aggregate GraphCommit World Commit Api CommitSteps CommitEffect.

Section rows.
Context (types : typeEnv) (GetId : goval -> Z) (gob_encode : gotype -> goval -> outcome (list byte))
  (gob_decode : gotype -> list byte -> outcome goval) (gob_decode_rows : structDef -> list byte -> outcome (list goval)).
Context (t : string) (d : structDef).
Implicit Types (heap : val_heap) (files : disk) (frames : list (list walRow)) (id : Z) (v : goval).
Notation rt := (row_gotype d).

(** ** Specification *)

(** A table of a type without relations, whose row type can be built. *)
Record plain_table : Prop := {
  pt_def : types !! t = Some d; pt_ok : def_ok d; pt_fields : fields d <> [];
  pt_plain : relationSpecs types t = Ok []; pt_schema : is_Some (match schemaFor types t with Ok sch => Some sch | _ => None end);
}.

(** An entity the log can hold: it is of the type, its id is its own, floats
    are no signalling NaN, slices of bytes are not of a named byte type (the
    codec writes those and panics when it reads them, see [RowCodec]), and gob
    gives it back if gob has to write it. *)
Record storable id v : Prop := {
  sv_ok : struct_ok d v; sv_id : GetId v = id; sv_range : (0 < id < 2 ^ 63)%Z;
  sv_float : no_signalling rt v = true; sv_bytes : copyable rt v = true; sv_gob : forall payload, gob_encode rt v = Ok payload -> gob_decode rt payload = Ok v;
}.

(** What [os.Open] finds. *)
Definition log_file files (path : string) : opened_file := match files !! path with Some contents => ReadUpTo contents | None => NotExist end.

(** A new process loads the table with the rows [m]. *)
Definition restarts (dir : outcome (list dirEntry)) (own shared : opened_file) (m : gmap Z goval) : Prop := forall heap,
  exists heap' s vl, loadStore types GetId gob_decode_rows gob_decode t None dir own shared heap = Ok (heap', s) /\
    holds types GetId t heap' s vl /\ list_to_map vl = m.

(** A process that starts on the files of [w] finds the rows [r]. *)
Definition restarts_with (dir : outcome (list dirEntry)) (w : world) (r : nodeKey -> option (goval * Z)) : Prop := exists db m,
  w_dbs w !! t = Some db /\
  restarts dir (log_file (w_files w) (wal_path (db_wal db))) (log_file (w_files w) (tw_path (w_shared w))) m /\
  forall id, m !! id = fst <$> r {| key_typ := t; key_id := id |}.

(** The chunk files and the logs hold the rows of the table: the log is a list
    of whole frames, the transaction log has nothing of the table, and the two
    logs are not one file. *)
Record logged (dir : outcome (list dirEntry)) (w : world) : Prop := {
  lg_table : exists db frames rec m0, w_dbs w !! t = Some db /\ wal_path (db_wal db) <> tw_path (w_shared w) /\
    default [] (w_files w !! wal_path (db_wal db)) = log_bytes frames /\ Forall frame_ok frames /\
    fold_outcome (recoverRow gob_decode rt) [] (concat frames) = Ok rec /\ Forall (Recovery.row_ok types GetId t) rec /\
    restarts dir NotExist NotExist m0 /\
    forall id, foldl replay_row m0 rec !! id = fst <$> row w {| key_typ := t; key_id := id |};
  lg_shared : replayTransactionWAL gob_decode t rt (log_file (w_files w) (tw_path (w_shared w))) = Ok [];
  lg_rows : forall id v n, row w {| key_typ := t; key_id := id |} = Some (v, n) -> storable id v;
}.

(** ** One row, written and read back *)

Hypothesis (Ht : plain_table).

Lemma plain_rowType sch : schemaFor types t = Ok sch -> row_gotype (rowType sch) = rt.
Proof.
  intros Hsch. destruct Ht as [Hd Hok Hf Hs _]. assert (specsByField types t = Ok ∅) as Hsp by (unfold specsByField; by rewrite Hs).
  unfold schemaFor in Hsch. rewrite Hsp, Hd in Hsch.
  assert (forall fs, schemaColumns types ∅ fs =
    Ok ((fun f => (fname f, fname f)) <$> fs, (fun f => column (fname f) (exported f) (ftype f)) <$> fs)) as Hcols.
  { induction fs as [|f fs IH]; [done|]. cbn. by rewrite lookup_empty, IH. }
  rewrite Hcols in Hsch. cbn in Hsch. unfold StructOf in Hsch. destruct (_ && _) in Hsch; [|done]. cbn in Hsch. injection Hsch as <-.
  unfold row_gotype. cbn. f_equal. rewrite <- list_fmap_compose. done.
Qed.

Lemma struct_value_ok v : struct_ok d v -> value_ok rt v = true.
Proof.
  intros (l & -> & Hl). unfold row_gotype. cbn [value_ok]. induction Hl as [|f x fs l Hx _ IH]; [done|]. cbn. by rewrite Hx.
Qed.

Lemma plain_entity heap v : struct_ok d v -> entity_ok types heap t v /\ normalizeToSchema types heap t v = Ok v.
Proof.
  intros Hv. destruct Ht as [Hd Hok Hf Hs [sch Hsch]]. split.
  - exists d. split_and!; [done..|]. intros r specs field l E Hr. rewrite Hs in E. injection E as <-. by apply elem_of_nil in Hr.
  - destruct (schemaFor types t) as [sch'| |] eqn:E; [|done..]. destruct Hv as (l & -> & Hl). apply Forall2_length in Hl.
    by apply (direct_row types t d sch' heap (VStruct l) Hd Hok Hs E).
Qed.

Lemma storable_row id v : storable id v -> row_of types GetId t id v.
Proof.
  intros Hv. destruct (plain_entity ∅ v (sv_ok _ _ Hv)) as [He Hn]. exists ∅, v. split_and!; [done|done|].
  intros heap0 heap' e' E. destruct (row_inflates types t ∅ v v heap0 He Hn) as (h & e & E' & _ & Hrow & Hlen).
  rewrite E in E'. injection E' as <- <-. specialize (Hrow heap' (heap_difference_sub _ _)). destruct Ht as [Hd Hok Hf Hs [sch Hsch]].
  specialize (Hlen d Hd). destruct (schemaFor types t) as [sch'| |] eqn:Es; [|done..].
  rewrite (direct_row types t d sch' heap' e' Hd Hok Hs Es Hlen) in Hrow. injection Hrow as Hrow.
  rewrite <- (sv_id _ _ Hv), <- Hrow. destruct e'; cbn in Hlen |- *; try done; by destruct (fields d).
Qed.

(** The log row of a write, as replay gives it back. *)
Definition recovered_of (it : pendingWrite) : recoveredRow :=
  if w_deleted it then {| rec_id := w_id it; rec_row := None; deleted := true |}
  else {| rec_id := w_id it; rec_row := Some (work it); deleted := false |}.
Definition item_ok (it : pendingWrite) : Prop := if w_deleted it then (0 < w_id it < 2 ^ 63)%Z else storable (w_id it) (work it).

Lemma encodeWrite_recovers heap it r : item_ok it -> encodeWrite types gob_encode heap t it = Ok r ->
  sint_range 64 (Id r) /\ forall acc, recoverRow gob_decode rt acc r = Ok (acc ++ [recovered_of it]).
Proof.
  unfold item_ok, encodeWrite, recovered_of. destruct (w_deleted it).
  - intros Hid [= <-]. cbn [Id Row]. rewrite to_sint_small by (unfold sint_range; lia). split; [unfold sint_range; lia|]. intros acc.
    unfold recoverRow. cbn [Id Row]. destruct (Z.ltb_spec (- w_id it) 0); [|lia]. cbn [andb]. change (zlen [] =? 0)%Z with true. cbn iota.
    by rewrite Z.opp_involutive, to_sint_small by (unfold sint_range; lia).
  - intros Hv E. destruct Ht as [Hd Hok Hf Hs Hsch]. assert (directSchema types t = true) as Hdir by (unfold directSchema; by rewrite Hs).
    rewrite Hdir, Hd in E. cbn in E. unfold flatten in E. rewrite Hdir in E. cbn in E.
    destruct (encodeRow gob_encode rt (work it)) as [b| |] eqn:Eb; [|done..]. cbn in E. injection E as <-. cbn [Id Row].
    pose proof (sv_range _ _ Hv). split; [unfold sint_range; lia|]. intros acc. unfold recoverRow. cbn [Id Row].
    destruct (Z.ltb_spec (w_id it) 0); [lia|]. cbn [andb]. destruct (Z.leb_spec (w_id it) 0); [lia|].
    assert (decodeRow gob_decode b rt = Ok (work it)) as ->; [|done].
    pose proof (codec_reads_back gob_encode gob_decode rt (work it) (struct_value_ok _ (sv_ok _ _ Hv))) as Hc. destruct (scalarRowSize rt (work it)).
    + destruct Hc as (b' & Eb' & _ & Hc). rewrite Eb in Eb'. injection Eb' as ->. by rewrite (Hc (sv_float _ _ Hv)), (sv_bytes _ _ Hv).
    + destruct (Hc b Eb) as (payload & Ep & ->). by apply (sv_gob _ _ Hv).
Qed.

Lemma encodeWrites_recover heap items rows : Forall item_ok items -> encodeWrites types gob_encode heap t items = Ok rows ->
  Forall (fun r => sint_range 64 (Id r)) rows /\ forall acc, fold_outcome (recoverRow gob_decode rt) acc rows = Ok (acc ++ (recovered_of <$> items)).
Proof.
  intros Hall. unfold encodeWrites.
  cut (forall out, fold_outcome (fun rows it => row ← encodeWrite types gob_encode heap t it; Ok (rows ++ [row])) out items = Ok rows ->
    exists rows', rows = out ++ rows' /\ Forall (fun r => sint_range 64 (Id r)) rows' /\
      forall acc, fold_outcome (recoverRow gob_decode rt) acc rows' = Ok (acc ++ (recovered_of <$> items))).
  { intros H E. destruct (H [] E) as (rows' & -> & ?). done. }
  induction Hall as [|it items Hit _ IH]; intros out E; cbn [fold_outcome] in E.
  { injection E as <-. exists []. rewrite app_nil_r. split_and!; [done|constructor|]. intros acc. cbn. by rewrite app_nil_r. }
  destruct (encodeWrite types gob_encode heap t it) as [r| |] eqn:Er; [|done..]. cbn in E.
  destruct (encodeWrite_recovers heap it r Hit Er) as [Hr Hrec]. destruct (IH _ E) as (rows' & -> & Hrows & Hrecs).
  exists (r :: rows'). rewrite <- app_assoc. split_and!; [done|by constructor|]. intros acc. cbn [fold_outcome]. rewrite Hrec. cbn [mbind outcome_bind].
  by rewrite Hrecs, <- app_assoc.
Qed.

Lemma recovered_rows_ok items : Forall item_ok items -> Forall (Recovery.row_ok types GetId t) (recovered_of <$> items).
Proof.
  intros H. apply Forall_fmap. eapply Forall_impl; [exact H|]. intros it Hit. unfold item_ok in Hit. unfold compose, recovered_of.
  destruct (w_deleted it); [by left|]. right. split; [done|]. eexists. split; [done|]. by apply storable_row.
Qed.

(** Replaying items with different ids. *)
Lemma replay_other items (m : gmap Z goval) id : id ∉ w_id <$> items -> foldl replay_row m (recovered_of <$> items) !! id = m !! id.
Proof.
  revert m. induction items as [|it items IH]; intros m Hid; [done|]. cbn in Hid |- *. apply not_elem_of_cons in Hid as [Hne Hid].
  rewrite IH by done. unfold replay_row, recovered_of. destruct (w_deleted it); cbn; [by rewrite lookup_delete_ne|by rewrite lookup_insert_ne].
Qed.
Lemma replay_item items (m : gmap Z goval) it : NoDup (w_id <$> items) -> it ∈ items ->
  foldl replay_row m (recovered_of <$> items) !! w_id it = if w_deleted it then None else Some (work it).
Proof.
  revert m. induction items as [|it' items IH]; intros m Hnd Hin; [by apply elem_of_nil in Hin|]. cbn in Hnd |- *. apply NoDup_cons in Hnd as [Hnot Hnd].
  apply elem_of_cons in Hin as [->|Hin]; [|by apply IH]. rewrite replay_other by done. unfold replay_row, recovered_of.
  destruct (w_deleted it'); cbn; [by rewrite lookup_delete_eq|by rewrite lookup_insert_eq].
Qed.

(** ** The log *)

Lemma row_in_frame (rows : list walRow) r : r ∈ rows -> (zlen (Row r) <= zlen (frame_body rows))%Z.
Proof.
  intros Hr. unfold frame_body. rewrite zlen_app, zlen_be_put.
  apply list_elem_of_split in Hr as (l1 & l2 & ->). rewrite fmap_app, concat_app, fmap_cons, concat_cons, !zlen_app. change (row_bytes r) with (wal_row_bytes r). unfold wal_row_bytes.
  rewrite !zlen_app, !zlen_be_put. pose proof (zlen_nonneg (concat (row_bytes <$> l1))). pose proof (zlen_nonneg (concat (row_bytes <$> l2))). lia.
Qed.
Lemma small_frame_ok (rows : list walRow) : Forall (fun r => sint_range 64 (Id r)) rows -> (zlen (frame_body rows) <= maxUint32)%Z -> frame_ok rows.
Proof.
  intros Hid Hle. split; [|done]. apply Forall_forall. intros r Hr. rewrite Forall_forall in Hid. split; [by apply Hid|].
  pose proof (row_in_frame rows r Hr). lia.
Qed.

Lemma replay_log_file files path : replayWAL gob_decode rt (log_file files path) = replayWAL gob_decode rt (ReadUpTo (default [] (files !! path))).
Proof. unfold log_file. by destruct (files !! path). Qed.
Lemma replay_whole files path frames : default [] (files !! path) = log_bytes frames -> Forall frame_ok frames ->
  replayWAL gob_decode rt (log_file files path) = fold_outcome (recoverRow gob_decode rt) [] (concat frames).
Proof.
  intros E Hok. rewrite replay_log_file, E. unfold replayWAL, replay_file.
  assert (forall frames : list (list walRow), complete_frames frames (zlen (log_bytes frames)) = frames) as Hall.
  { clear. intros frames. induction frames as [|f frames IH]; [done|]. unfold log_bytes in *. cbn [complete_frames]. rewrite fmap_cons, concat_cons, zlen_app.
    pose proof (zlen_nonneg (concat (frame_bytes <$> frames))). destruct (Z.leb_spec (zlen (frame_bytes f)) (zlen (frame_bytes f) + zlen (concat (frame_bytes <$> frames)))); [|lia].
    f_equal. etransitivity; [|exact IH]. f_equal. lia. }
  pose proof (replay_loop_crash (recoverRow gob_decode rt) frames (zlen (log_bytes frames)) (S (length (log_bytes frames))) [] Hok (zlen_nonneg _)) as H.
  rewrite Hall in H. assert (ztake (zlen (log_bytes frames)) (log_bytes frames) = log_bytes frames) as Ez
    by (rewrite <- (app_nil_r (log_bytes frames)) at 2; apply ztake_app).
  rewrite Ez in H. apply H. lia.
Qed.

Lemma restarts_from dir own shared m0 rec : restarts dir NotExist NotExist m0 -> replayWAL gob_decode rt own = Ok rec ->
  replayTransactionWAL gob_decode t rt shared = Ok [] -> Forall (Recovery.row_ok types GetId t) rec -> restarts dir own shared (foldl replay_row m0 rec).
Proof.
  intros H0 Eown Eshared Hrec heap. destruct (H0 heap) as (heap1 & s & vl & E & Hh & Hm). destruct (pt_schema Ht) as [sch Hsch].
  unfold loadStore in *. destruct (schemaFor types t) as [sch'| |] eqn:Es; [|done..]. cbn in E |- *. rewrite (plain_rowType sch' Es) in *.
  destruct (sortedChunkFiles dir) as [paths| |]; [|done..]. cbn in E |- *.
  destruct (fold_outcome _ (heap, []) paths) as [results| |]; [|done..]. cbn in E |- *.
  destruct (fold_outcome _ (results.1, newChunkStore) results.2) as [[h s1]| |]; [|done..]. cbn [mbind outcome_bind fst snd] in E |- *.
  rewrite Eown, Eshared. cbn [mbind outcome_bind]. rewrite app_nil_r.
  assert (h = heap1 /\ s1 = s) as [-> ->].
  { cbn in E. unfold applyRecoveredRows in E. cbn in E. rewrite bool_decide_true in E by done. by injection E as -> ->. }
  destruct (recovered types GetId t heap1 s vl rec Hh Hrec) as (heap' & s' & vl' & E' & Hh' & Hv). exists heap', s', vl'.
  split_and!; [done|done|]. by rewrite Hv, Hm.
Qed.

(** A process that is killed now. *)
Lemma logged_restarts dir w : logged dir w -> restarts_with dir w (row w).
Proof.
  intros [(db & frames & rec & m0 & Edb & _ & Efile & Hok & Erec & Hrec & H0 & Hm) Hsh _]. exists db, (foldl replay_row m0 rec).
  split_and!; [done| |done]. apply restarts_from; [done| |done|done]. by erewrite replay_whole.
Qed.
End rows.

(** ** Steps that leave the files alone *)

Definition keeps_logs {A} (m : st A) : Prop := forall w, logs (m w).1 = logs w.
Create HintDb logs.

Lemma keeps_lift {A} (f : world -> outcome A) : keeps_logs (lift f).
Proof. done. Qed.
Lemma keeps_bind {A B} (m : st A) (f : A -> st B) : keeps_logs m -> (forall a, keeps_logs (f a)) -> keeps_logs (a ← m; f a).
Proof.
  intros Hm Hf w. specialize (Hm w). unfold mbind, st_bind. destruct (m w) as [w1 [a| |]]; [|done..]. cbn in Hm. by rewrite <- Hm, Hf.
Qed.
Lemma keeps_each {A} (f : A -> st unit) l : (forall a, keeps_logs (f a)) -> keeps_logs (each f l).
Proof. intros Hf. induction l as [|a l IH]; [done|]. cbn [each]. by apply keeps_bind. Qed.
Lemma keeps_table t f : (forall heap db, db_wal (f heap db).2 = db_wal db) -> keeps_logs (on_table t f).
Proof.
  intros Hf w. unfold on_table. destruct (w_dbs w !! t) as [db|] eqn:E; [|done]. unfold logs. cbn. rewrite fmap_insert, Hf, insert_id; [done|].
  by rewrite lookup_fmap, E.
Qed.
#[export] Hint Resolve keeps_lift keeps_bind keeps_each keeps_table : logs.

Section applying.
Context (GetId : goval -> Z) `{!MapOrder nodeKey, !MapOrder string}.

Lemma applyWrite_wal heap db id l : db_wal (applyWrite heap db id l).2 = db_wal db.
Proof. unfold applyWrite. by repeat case_match. Qed.
Lemma add_wal heap db l : db_wal (add GetId heap db l).2 = db_wal db.
Proof. unfold add. by repeat case_match. Qed.
Lemma relationDelete_wal heap db ids : db_wal (relationDelete GetId heap db ids) = db_wal db.
Proof.
  unfold relationDelete. destruct (bool_decide (ids = ∅)); [done|]. destruct (DeleteFunc _ _ _) as [s removed].
  match goal with |- context [foldl ?f _ _] => set (F := f) end.
  assert (forall ls db, db_wal (foldl F db ls) = db_wal db) as HF.
  { clear. induction ls as [|l ls IH]; intros db; cbn; [done|by rewrite IH]. }
  destruct (0 <? length removed)%nat; cbn; by rewrite HF.
Qed.

Lemma apply_changes_logs h rs cs ds tcs : keeps_logs (apply_changes GetId h rs cs ds tcs).
Proof.
  unfold apply_changes, finish_values, prepareTransactionIndexes, finishTransactionIndexes.
  apply keeps_bind; [auto with logs|]. intros _. apply keeps_bind; [apply keeps_each; intros r; apply keeps_table; intros; apply applyWrite_wal|]. intros _.
  apply keeps_bind.
  { generalize (map_range cs). intros l. induction l as [|p l IH]; [done|]. cbn [apply_creates]. apply keeps_bind; [apply keeps_table; intros; apply add_wal|by intros _]. }
  intros _. apply keeps_bind; [|intros _; apply keeps_bind; [auto with logs|done]].
  intros w. unfold applyDeletedNodes. apply keeps_each. intros t. apply keeps_table. intros. apply relationDelete_wal.
Qed.
End applying.

(** ** A commit writes its log once *)

Section commits.
Context (types : typeEnv) (GetId : goval -> Z) (gob_encode : gotype -> goval -> outcome (list byte))
  (gob_encode_rows : structDef -> list goval -> outcome (list byte)).
Context (gob_decode : gotype -> list byte -> outcome goval) (gob_decode_rows : structDef -> list byte -> outcome (list goval)).
Context `{!MapOrder nodeKey, !MapOrder string, !MapOrder Z}.
Context (t : string) (d : structDef).
Notation commit := (commit types GetId gob_encode gob_encode_rows).
Notation touched_of w tx := (changedResources types GetId (w_heap w) (copyResources tx)).
Notation storable := (storable GetId gob_encode gob_decode d).

(** What the transaction writes to the log. *)
Definition commit_changes (w : world) (tx : transactionState) : list (nodeKey * option loc) := all_changes (touched_of w tx) (creates tx) (dom (deletes tx)).
Definition commit_items (w : world) (tx : transactionState) : list pendingWrite := pending_write (w_heap w) <$> table_changes t (commit_changes w tx).

(** A transaction of this table alone. *)
Record own_tx (w : world) (tx : transactionState) : Prop := {
  ow_copies : forall r, r ∈ copyResources tx -> dbName r = t /\
    (GetId (deref (w_heap w) (t_work r)) = t_id r -> storable (t_id r) (deref (w_heap w) (t_work r)));
  ow_creates : forall k l, creates tx !! k = Some l -> key_typ k = t /\ storable (key_id k) (deref (w_heap w) l);
  ow_deletes : forall k, is_Some (deletes tx !! k) -> key_typ k = t;
}.

Definition log_write (env : commit_env) (items : list pendingWrite) : st unit :=
  on_files t (fun heap db files => logWrites types gob_encode heap db (ev_append env) files items).

Lemma sort_one (a : string) : SortFunc string_compare [a] = [a].
Proof. apply Permutation_singleton_r. apply SortFunc_perm. Qed.

Lemma log_one env (tcs : gmap string (list pendingWrite)) items w : tcs = {[ t := items ]} ->
  logTransactionChanges types gob_encode (ev_append env) tcs w = log_write env items w.
Proof.
  intros ->. unfold logTransactionChanges. rewrite map_range_one. cbn [fmap list_fmap fst]. rewrite sort_one.
  unfold log_write, on_files. by rewrite lookup_singleton_eq.
Qed.

Lemma changes_own w tx k c : own_tx w tx -> (k, c) ∈ commit_changes w tx -> key_typ k = t.
Proof.
  intros [H1 H2 H3]. unfold commit_changes. destruct c as [c|].
  - rewrite all_changes_write. intros [_ [(r & Hr & <- & _)|E]]; [|by apply (H2 k c)].
    rewrite changedResources_filter, list_elem_of_In, filter_In in Hr. by apply H1, list_elem_of_In, Hr.
  - rewrite all_changes_delete. intros [[sd E]%elem_of_dom _]. apply H3. by exists sd.
Qed.
Lemma changes_items w tx k c : (k, c) ∈ commit_changes w tx -> key_typ k = t -> pending_write (w_heap w) (key_id k, c) ∈ commit_items w tx.
Proof. intros Hin Hk. unfold commit_items. apply list_elem_of_fmap_2, table_changes_elem. destruct k as [t' id]. cbn in *. by subst. Qed.
Lemma items_nodup w tx : NoDup (commit_changes w tx).*1 -> NoDup (w_id <$> commit_items w tx).
Proof.
  intros H. unfold commit_items. rewrite <- list_fmap_compose.
  assert (w_id ∘ pending_write (w_heap w) <$> table_changes t (commit_changes w tx) = (table_changes t (commit_changes w tx)).*1) as ->
    by (apply list_fmap_ext; intros _ [id [c|]] _; done).
  by apply table_changes_nodup.
Qed.

(** A transaction that only deletes what it creates commits and logs nothing. *)
Lemma nothing_logged w tx : own_tx w tx -> current types GetId w tx -> commit_items w tx = [] ->
  forall k, committed_row w (touched_of w tx) (creates tx) (dom (deletes tx)) k = row w k.
Proof.
  intros Hown (_ & Hnew & _) E. assert (forall k c, (k, c) ∉ commit_changes w tx) as Hno.
  { intros k c Hin. pose proof (changes_items w tx k c Hin (changes_own w tx k c Hown Hin)) as H. rewrite E in H. by apply elem_of_nil in H. }
  intros k. unfold committed_row. case_bool_decide as Ed.
  - destruct (creates tx !! k) as [l|] eqn:Ec; [by rewrite Hnew by (by eexists)|]. destruct (Hno k None). by apply all_changes_delete.
  - destruct (creates tx !! k) as [l|] eqn:Ec; [destruct (Hno k (Some l)); apply all_changes_write; split; [done|by right]|].
    destruct (find_key _ k) as [r|] eqn:Er; [|done]. apply find_key_Some in Er as [Hr Hk]. destruct (Hno k (Some (t_work r))).
    apply all_changes_write. split; [done|]. left. by exists r.
Qed.

(** A commit changes nothing, or has nothing to log, or logs its items and then
    leaves the files alone. *)
Lemma commit_runs env h tx w (P : world * outcome unit -> Prop) :
  states (w_engine w) !! h = Some tx -> tables_ok GetId w -> tx_ok GetId w tx -> values_only types GetId w tx -> own_tx w tx ->
  (forall w1 r, (forall b, r <> Ok b) -> unchanged w w1 -> P (w1, r)) ->
  (touched_of w tx = [] -> creates tx = ∅ -> deletes tx = ∅ -> P (evict_tx h w)) ->
  (forall rest, keeps_logs rest -> current types GetId w tx -> commit_items w tx = [] -> P (rest w)) ->
  (forall rest, keeps_logs rest -> current types GetId w tx -> NoDup (w_id <$> commit_items w tx) ->
     (forall r, r ∈ touched_of w tx -> GetId (deref (w_heap w) (t_work r)) = t_id r) -> P ((_ ← log_write env (commit_items w tx); rest) w)) ->
  P (commit env h w).
Proof.
  intros Eh Hok Htx Hval Hown Hno Hnone Hempty Hsome. assert (forall r, r ∈ touched_of w tx -> dbName r = t) as Hdb.
  { intros r Hr. rewrite changedResources_filter, list_elem_of_In, filter_In in Hr. by apply (ow_copies _ _ Hown), list_elem_of_In, Hr. }
  destruct (commit_cases types GetId gob_encode gob_encode_rows env h tx w Eh Hval)
    as [(r & -> & Hr)|[(Ers & Ec & Ed & ->)|(Hids & [(Hne & ->)|(r & db & Ers & Ec & Ed & Edb & Esec & ->)])]].
  - apply Hno; [by intros []|apply unchanged_refl].
  - by apply Hnone.
  - apply (locked_checks types GetId gob_encode gob_encode_rows h tx w Eh Hok Htx Hids); [done|]. intros Hcur Hck.
    assert (forall t', is_Some (pending_changes (w_heap w) (transactionChanges (touched_of w tx) (creates tx) (dom (deletes tx))) !! t') -> t' = t /\ commit_items w tx <> []) as Hpend.
    { intros t' [l El]. unfold pending_changes in El. rewrite lookup_fmap in El. apply fmap_Some in El as (l' & El & _).
      destruct (transactionChanges_spec (touched_of w tx) (creates tx) (dom (deletes tx)) t') as [_ Hk].
      destruct (Hk ltac:(by eexists)) as (k & Hin & <-). apply list_elem_of_fmap in Hin as ([k' c] & -> & Hin).
      pose proof (changes_own w tx k' c Hown Hin) as Hk'. split; [done|]. intros E. pose proof (changes_items w tx k' c Hin Hk') as H. rewrite E in H.
      by apply elem_of_nil in H. }
    destruct (decide (commit_items w tx = [])) as [Enil|Hitems].
    { assert (pending_changes (w_heap w) (transactionChanges (touched_of w tx) (creates tx) (dom (deletes tx))) = ∅) as ->.
      { apply map_empty. intros t'. apply eq_None_not_Some. intros Hs. by destruct (Hpend t' Hs). }
      assert (forall rest : st unit, (_ ← logTransactionChanges types gob_encode (ev_append env) ∅; rest) w = rest w) as ->.
      { intros rest. unfold logTransactionChanges. by rewrite map_range_empty. }
      by apply Hempty; [apply apply_changes_logs|..]. }
    assert (pending_changes (w_heap w) (transactionChanges (touched_of w tx) (creates tx) (dom (deletes tx))) = {[ t := commit_items w tx ]}) as Etcs.
    { apply map_eq. intros t'. pose proof (items_of w (touched_of w tx) (creates tx) (dom (deletes tx)) t') as Ei.
      fold (commit_changes w tx) in Ei. destruct (decide (t' = t)) as [->|Hne'].
      - rewrite lookup_singleton_eq. destruct (pending_changes _ _ !! t) as [l|] eqn:El; cbn in Ei; [by rewrite Ei|]. by destruct Hitems.
      - rewrite lookup_singleton_ne by done. apply eq_None_not_Some. intros Hs. by destruct (Hpend t' Hs). }
    assert (forall rest : st unit, (_ ← logTransactionChanges types gob_encode (ev_append env)
      (pending_changes (w_heap w) (transactionChanges (touched_of w tx) (creates tx) (dom (deletes tx)))); rest) w = (_ ← log_write env (commit_items w tx); rest) w) as Elog.
    { intros rest. unfold mbind, st_bind. by rewrite (log_one env _ _ w Etcs). }
    rewrite Elog. apply Hsome; [apply apply_changes_logs|done|apply items_nodup; eapply changes_nodup; exact Hck|].
    intros r Hr. by apply (touched_fits types GetId tx w Htx Hids).
  - unfold commitSingleWrite. eapply run_quiet; [eapply check_version_quiet; [exact Eh|]|done|].
    { intros r' Hr'. by destruct (tx_copies _ _ _ Htx r' Hr') as (? & ? & _). }
    intros [] Hv. cbn beta in Hv.
    assert (commit_items w tx = [pending_write (w_heap w) (t_id r, Some (t_work r))]) as Eitems.
    { unfold commit_items, commit_changes. rewrite Ers, Ec, Ed, dom_empty_L. unfold all_changes. rewrite map_range_empty, set_range_empty. unfold table_changes.
      cbn [List.filter fmap list_fmap app]. rewrite (bool_decide_false (resource_node r ∈ ∅)) by set_solver.
      cbn [fmap list_fmap app List.filter fst snd resource_node key_typ negb]. rewrite bool_decide_true; [done|]. apply Hdb. rewrite Ers. left. }
    assert (forall rest : st unit, (_ ← on_files (dbName r) (fun heap db files => logWrites types gob_encode heap db (ev_append env) files [pending_write heap (t_id r, Some (t_work r))]);
      rest) w = (_ ← log_write env (commit_items w tx); rest) w) as Elog.
    { intros rest. rewrite Eitems, (Hdb r) by (rewrite Ers; left). reflexivity. }
    rewrite Elog. apply Hsome.
    + apply keeps_bind; [apply keeps_table; intros; apply applyWrite_wal|done].
    + split_and!.
      * intros r' Hr'. rewrite Ers in Hr'. apply list_elem_of_singleton in Hr' as ->. by rewrite snd_row.
      * rewrite Ec. intros k [l El]. by rewrite lookup_empty in El.
      * rewrite Ed. intros k sd El. by rewrite lookup_empty in El.
    + rewrite Eitems. apply NoDup_singleton.
    + intros r' Hr'. by apply (touched_fits types GetId tx w Htx Hids).
Qed.

(** ** What the log says after the commit *)

Notation item_ok := (item_ok GetId gob_encode gob_decode d).
Notation logged := (logged types GetId gob_encode gob_decode gob_decode_rows t d).
Notation restarts_with := (restarts_with types GetId gob_decode gob_decode_rows t).
Notation committed_rows w tx := (committed_row w (touched_of w tx) (creates tx) (dom (deletes tx))).

Lemma written_storable w tx k l : own_tx w tx -> (forall r, r ∈ touched_of w tx -> GetId (deref (w_heap w) (t_work r)) = t_id r) ->
  (k, Some l) ∈ commit_changes w tx -> storable (key_id k) (deref (w_heap w) l).
Proof.
  intros Hown Hid [_ [(r & Hr & <- & <-)|E]]%all_changes_write; [|by apply (ow_creates _ _ Hown k l)].
  pose proof (Hid r Hr) as Hi. rewrite changedResources_filter, list_elem_of_In, filter_In in Hr. by apply (ow_copies _ _ Hown); [apply list_elem_of_In, Hr|].
Qed.

Lemma commit_items_ok dir w tx : logged dir w -> own_tx w tx -> current types GetId w tx ->
  (forall r, r ∈ touched_of w tx -> GetId (deref (w_heap w) (t_work r)) = t_id r) -> Forall item_ok (commit_items w tx).
Proof.
  intros Hlog Hown (_ & _ & Hdel) Hid. apply Forall_forall. intros it ([id c] & -> & Hin)%list_elem_of_fmap. apply table_changes_elem in Hin.
  unfold item_ok. destruct c as [l|]; cbn.
  - by apply (written_storable w tx _ l Hown Hid Hin).
  - apply all_changes_delete in Hin as [[sd E]%elem_of_dom Hn]. specialize (Hdel _ _ E Hn).
    destruct (row w {| key_typ := t; key_id := id |}) as [[v n]|] eqn:Er; [|done]. by apply (sv_range _ _ _ _ _ _ (lg_rows _ _ _ _ _ _ _ _ _ Hlog id v n Er)).
Qed.

(** Replaying the items of a commit onto the rows gives the committed rows. *)
Lemma commit_view w tx (m : gmap Z goval) : own_tx w tx -> current types GetId w tx -> NoDup (w_id <$> commit_items w tx) ->
  (forall id, m !! id = fst <$> row w {| key_typ := t; key_id := id |}) ->
  forall id, foldl replay_row m (recovered_of <$> commit_items w tx) !! id = fst <$> committed_rows w tx {| key_typ := t; key_id := id |}.
Proof.
  intros Hown (_ & Hnew & _) Hnd Hm id. set (k := {| key_typ := t; key_id := id |}). unfold committed_row.
  assert (forall c, (k, c) ∈ commit_changes w tx -> foldl replay_row m (recovered_of <$> commit_items w tx) !! id = deref (w_heap w) <$> c) as Hin.
  { intros c Hc. pose proof (replay_item (commit_items w tx) m _ Hnd (changes_items w tx k c Hc eq_refl)) as E. by destruct c. }
  assert ((forall c, (k, c) ∉ commit_changes w tx) -> foldl replay_row m (recovered_of <$> commit_items w tx) !! id = fst <$> row w k) as Hout.
  { intros Hno. rewrite replay_other; [by rewrite Hm|]. intros (it & -> & Hit)%list_elem_of_fmap. apply list_elem_of_fmap in Hit as ([id' c] & -> & Hit).
    apply table_changes_elem in Hit. assert (w_id (pending_write (w_heap w) (id', c)) = id') as Eid by (by destruct c).
    change (({| key_typ := t; key_id := id' |}, c) ∈ commit_changes w tx) in Hit. rewrite <- Eid in Hit. by apply (Hno c). }
  case_bool_decide as Ed; [|destruct (creates tx !! k) as [l|] eqn:Ec].
  - destruct (creates tx !! k) as [l|] eqn:Ec; [|by apply (Hin None), all_changes_delete].
    rewrite Hout; [by rewrite Hnew by (by eexists)|]. intros [c|] H; [by apply all_changes_write in H as [? _]|]. apply all_changes_delete in H as [_ ?]. congruence.
  - apply (Hin (Some l)), all_changes_write. split; [done|by right].
  - destruct (find_key _ k) as [r|] eqn:Er.
    + apply find_key_Some in Er as [Hr Hk]. apply (Hin (Some (t_work r))), all_changes_write. split; [done|]. left. by exists r.
    + apply Hout. intros [l|] H; [|by apply all_changes_delete in H as [? _]]. apply all_changes_write in H as [_ [(r & Hr & Hk & _)|E]]; [|congruence].
      apply (find_key_None _ _ Er). rewrite <- Hk. by apply list_elem_of_fmap_2.
Qed.

Lemma recovers_app acc rec rows recs : fold_outcome (recoverRow gob_decode (row_gotype d)) [] acc = Ok rec ->
  (forall out, fold_outcome (recoverRow gob_decode (row_gotype d)) out rows = Ok (out ++ recs)) ->
  fold_outcome (recoverRow gob_decode (row_gotype d)) [] (acc ++ rows) = Ok (rec ++ recs).
Proof. intros E1 E2. by rewrite fold_outcome_app, E1; cbn; rewrite E2. Qed.

(** The two states the log can be in after a write: with the items, which it is
    when the write succeeds, or without. *)
Lemma log_write_result dir env items w w1 r (Ht : plain_table types t d) : logged dir w -> Forall item_ok items ->
  (0 <= WalLog.written (ev_append env))%Z ->
  (forall rows, encodeWrites types gob_encode (w_heap w) t items = Ok rows -> (zlen (frame_body rows) < 2 ^ 64)%Z) ->
  (forall db, w_dbs w !! t = Some db -> Table.name db = t) ->
  log_write env items w = (w1, r) ->
  exists db wl rec m0, w_dbs w !! t = Some db /\ wal_path wl = wal_path (db_wal db) /\
    logs w1 = (w_files w1, <[t := wl]> (db_wal <$> w_dbs w), w_shared w) /\
    wal_path (db_wal db) <> tw_path (w_shared w) /\ (forall p, p <> wal_path (db_wal db) -> w_files w1 !! p = w_files w !! p) /\
    restarts types GetId gob_decode gob_decode_rows t dir NotExist NotExist m0 /\ Forall (Recovery.row_ok types GetId t) rec /\
    (forall id, foldl replay_row m0 rec !! id = fst <$> row w {| key_typ := t; key_id := id |}) /\
    (r = Ok tt -> exists frames, default [] (w_files w1 !! wal_path (db_wal db)) = log_bytes frames /\ Forall frame_ok frames /\
       fold_outcome (recoverRow gob_decode (row_gotype d)) [] (concat frames) = Ok (rec ++ (recovered_of <$> items))) /\
    (replayWAL gob_decode (row_gotype d) (log_file (w_files w1) (wal_path (db_wal db))) = Ok rec \/
     replayWAL gob_decode (row_gotype d) (log_file (w_files w1) (wal_path (db_wal db))) = Ok (rec ++ (recovered_of <$> items))).
Proof.
  intros [(db & frames & rec & m0 & Edb & Hne & Efile & Hok & Erec & Hrec & H0 & Hm) Hsh Hrows] Hitems Hwr Hsmall Hname E.
  unfold log_write, on_files, logWrites in E. rewrite Edb, (Hname db Edb) in E.
  assert (replayWAL gob_decode (row_gotype d) (log_file (w_files w) (wal_path (db_wal db))) = Ok rec) as Hold by (by erewrite replay_whole).
  destruct (encodeWrites types gob_encode (w_heap w) t items) as [rows|e|] eqn:Eenc.
  2,3: injection E as <- <-; exists db, (db_wal db), rec, m0; cbn; split_and!; [done|done| |done..|by left];
    unfold logs; cbn; by rewrite fmap_insert.
  destruct (encodeWrites_recover types GetId gob_encode gob_decode t d Ht (w_heap w) items rows Hitems Eenc) as [Hids Hreads].
  pose proof (appendFrame_file (db_wal db) (ev_append env) (w_files w) {| Rows := rows |} (Hsmall rows eq_refl) Hwr) as Hf.
  pose proof (encodeWALFrame_ok {| Rows := rows |} (Hsmall rows eq_refl)) as Henc.
  destruct (appendFrame (db_wal db) (ev_append env) (w_files w) {| Rows := rows |}) as [[wl fs] ra] eqn:Eapp. injection E as <- <-.
  destruct Hf as (Hp & Hother & len & Hlen & Hfile & Hfull & Hsucc). rewrite Efile in Hfile. cbn [Rows] in *.
  exists db, wl, rec, m0. split_and!; [done|done| |done|done|done|done|done| |].
  - unfold logs. cbn. by rewrite fmap_insert.
  - intros ->. destruct (Hsucc eq_refl) as (Hfw & Hisok & _). exists (frames ++ [rows]). rewrite Hfw in Hfull. symmetry in Hfull. apply Z.leb_le in Hfull. split_and!.
    + cbn. rewrite Hfile, log_bytes_snoc. f_equal. rewrite <- (app_nil_r (frame_bytes rows)) at 1. rewrite ztake_app_ge by done. unfold ztake. by rewrite take_nil, app_nil_r.
    + apply Forall_app. split; [done|]. constructor; [|done]. apply small_frame_ok; [done|]. rewrite Henc in Hisok.
      by destruct (Z.leb_spec (zlen (frame_body rows)) maxUint32).
    + rewrite concat_app. cbn [concat]. rewrite app_nil_r. by apply recovers_app.
  - cbn. destruct (Z.leb_spec (zlen (frame_body rows)) maxUint32) as [Hle|Hgt].
    + rewrite replay_log_file, Hfile, replay_appended; [|apply Forall_app; split; [done|constructor; [by apply small_frame_ok|done]]|done].
      destruct (_ <=? len)%Z; [right; by apply recovers_app|left; by rewrite app_nil_r].
    + left. rewrite <- Hold, !replay_log_file. do 2 f_equal. clear -Eapp Henc. unfold appendFrame in Eapp.
      assert (default [] (open_append (w_files w) (wal_path (db_wal db)) !! wal_path (db_wal db)) = default [] (w_files w !! wal_path (db_wal db))) as Ho.
      { unfold open_append. destruct (w_files w !! wal_path (db_wal db)) eqn:E; by rewrite ?lookup_insert_eq, ?E. }
      destruct (WalLog.opened (db_wal db)); [|destruct (open_error _)]; rewrite ?Henc in Eapp; injection Eapp as <- <- <-; done.
Qed.

(** ** The same files *)

Lemma logs_eq w w1 db : logs w1 = logs w -> w_dbs w !! t = Some db ->
  w_files w1 = w_files w /\ w_shared w1 = w_shared w /\ exists db1, w_dbs w1 !! t = Some db1 /\ db_wal db1 = db_wal db.
Proof.
  intros [= Hf Hd Hs] E. split_and!; [done|done|]. apply (f_equal (lookup t)) in Hd. rewrite !lookup_fmap, E in Hd. cbn in Hd.
  destruct (w_dbs w1 !! t) as [db1|]; [|done]. injection Hd as Hd. by exists db1.
Qed.
Lemma restarts_with_logs dir w w1 rows : logs w1 = logs w -> restarts_with dir w rows -> restarts_with dir w1 rows.
Proof.
  intros Hl (db & m & Edb & Hr & Hm). destruct (logs_eq w w1 db Hl Edb) as (Ef & Es & db1 & E1 & Ew). exists db1, m. by rewrite Ew, Ef, Es.
Qed.

Lemma logged_logs dir w w1 : logs w1 = logs w -> (forall k, row w1 k = row w k) -> logged dir w -> logged dir w1.
Proof.
  intros Hl Hr [(db & frames & rec & m0 & Edb & A & B & C & D & E & F & G) H2 H3]. destruct (logs_eq w w1 db Hl Edb) as (Ef & Es & db1 & E1 & Ew). split.
  - exists db1, frames, rec, m0. rewrite Ew, Ef, Es. split_and!; try done. intros id. by rewrite Hr.
  - by rewrite Ef, Es.
  - intros id v n. rewrite Hr. apply H3.
Qed.

(** After a write to the log, whatever comes next, a restart finds the rows as
    they were or the committed rows; once the rows are the committed ones, the
    files hold them. *)
Lemma after_log dir env w tx w1 r1 w' (Ht : plain_table types t d) : logged dir w -> own_tx w tx -> current types GetId w tx ->
  (forall r, r ∈ touched_of w tx -> GetId (deref (w_heap w) (t_work r)) = t_id r) -> NoDup (w_id <$> commit_items w tx) ->
  (0 <= WalLog.written (ev_append env))%Z ->
  (forall rows, encodeWrites types gob_encode (w_heap w) t (commit_items w tx) = Ok rows -> (zlen (frame_body rows) < 2 ^ 64)%Z) ->
  (forall db, w_dbs w !! t = Some db -> Table.name db = t) ->
  log_write env (commit_items w tx) w = (w1, r1) -> logs w' = logs w1 ->
  (restarts_with dir w' (row w) \/ restarts_with dir w' (committed_rows w tx)) /\
  (r1 = Ok tt -> (forall k, row w' k = committed_rows w tx k) -> logged dir w') /\
  forall db, w_dbs w !! t = Some db -> forall p, p <> wal_path (db_wal db) -> w_files w' !! p = w_files w !! p.
Proof.
  intros Hlog Hown Hcur Hid Hnd Hwr Hsmall Hname Elog Hl. pose proof (commit_items_ok dir w tx Hlog Hown Hcur Hid) as Hitems.
  destruct (log_write_result dir env _ w w1 r1 Ht Hlog Hitems Hwr Hsmall Hname Elog)
    as (db & wl & rec & m0 & Edb & Hp & Hw1 & Hne & Hother & H0 & Hrec & Hm & Hwhole & Hreplay).
  rewrite Hw1 in Hl. injection Hl as Hf Hd Hs. rewrite <- Hf in *.
  apply (f_equal (lookup t)) in Hd. rewrite lookup_fmap, lookup_insert_eq in Hd. apply fmap_Some in Hd as (db' & Edb' & ->).
  assert (replayTransactionWAL gob_decode t (row_gotype d) (log_file (w_files w') (tw_path (w_shared w'))) = Ok []) as Hsh.
  { rewrite Hs. unfold log_file. rewrite Hother by done. exact (lg_shared _ _ _ _ _ _ _ _ _ Hlog). }
  assert (Forall (Recovery.row_ok types GetId t) (rec ++ (recovered_of <$> commit_items w tx))) as Hrec'.
  { apply Forall_app. split; [done|]. by eapply recovered_rows_ok. }
  pose proof (commit_view w tx _ Hown Hcur Hnd Hm) as Hview. setoid_rewrite <- foldl_app in Hview. split_and!.
  - rewrite <- Hp in Hreplay. destruct Hreplay as [Hr|Hr].
    + left. exists db', (foldl replay_row m0 rec). split_and!; [done| |done]. by eapply restarts_from.
    + right. exists db', (foldl replay_row m0 (rec ++ (recovered_of <$> commit_items w tx))). split_and!; [done| |done]. by eapply restarts_from.
  - intros Hr1 Hrows. destruct (Hwhole Hr1) as (frames & Efile & Hok & Efold). split; [|done|].
    + exists db', frames, (rec ++ (recovered_of <$> commit_items w tx)), m0. rewrite Hp, Hs. split_and!; try done. intros id. by rewrite Hview, Hrows.
    + intros id v n Erow. rewrite Hrows in Erow. unfold committed_row in Erow. set (k := {| key_typ := t; key_id := id |}) in *.
      case_bool_decide as Ed; [done|]. destruct (creates tx !! k) as [l|] eqn:Ec.
      { injection Erow as <- _. apply (written_storable w tx k l Hown Hid), all_changes_write. split; [done|by right]. }
      destruct (find_key _ k) as [r|] eqn:Er.
      * injection Erow as <- _. apply find_key_Some in Er as [Hr Hk]. apply (written_storable w tx k _ Hown Hid), all_changes_write. split; [done|]. left. by exists r.
      * exact (lg_rows _ _ _ _ _ _ _ _ _ Hlog id v n Erow).
  - intros db0 Edb0. rewrite Edb in Edb0. injection Edb0 as <-. done.
Qed.

Definition survives dir w tx w' (r : outcome unit) : Prop :=
  match r with
  | Ok _ => logged dir w' /\ restarts_with dir w' (row w')
  | _ => restarts_with dir w' (row w) \/ restarts_with dir w' (committed_rows w tx)
  end.

(** C2: (durability) Let the chunk files and the log of a table without
    relations hold its rows, with whole frames only and nothing of the table in
    the transaction log. A transaction that reads and writes that table alone,
    and puts only values there that the log can hold ([storable]: no signalling
    NaN, no slice of a named byte type, gob reads back what it writes), commits.
    Whatever the operating system answers, at whatever byte the write of the log
    breaks off, a process that starts afterwards finds the table as it was before
    the commit or as the commit makes it. When the commit reports success it
    finds the rows the commit left, and the files and the log are again as they
    have to be for the next commit; after a failure the log may end in a torn
    frame, and nothing is said of later commits
    ([torn_append_loses_acknowledged_frame]). No file but the log of the table
    changes. *)
Theorem commits_survive_restart dir env h tx w w' r :
  plain_table types t d -> states (w_engine w) !! h = Some tx -> tables_ok GetId w -> tx_ok GetId w tx -> values_only types GetId w tx ->
  own_tx w tx -> logged dir w -> (0 <= WalLog.written (ev_append env))%Z ->
  (forall rows, encodeWrites types gob_encode (w_heap w) t (commit_items w tx) = Ok rows -> (zlen (frame_body rows) < 2 ^ 64)%Z) ->
  commit env h w = (w', r) ->
  survives dir w tx w' r /\ forall db, w_dbs w !! t = Some db -> forall p, p <> wal_path (db_wal db) -> w_files w' !! p = w_files w !! p.
Proof.
  intros Ht Eh Hok Htx Hval Hown Hlog Hwr Hsmall E.
  pose proof (commit_atomic types GetId gob_encode gob_encode_rows env h tx w Eh Hok Htx Hval) as Hat. unfold atomic in Hat. rewrite E in Hat.
  pose proof (logged_restarts types GetId gob_encode gob_decode gob_decode_rows t d Ht dir w Hlog) as Hnow.
  revert E. apply (commit_runs env h tx w (fun run => run = (w', r) -> survives dir w tx w' r /\ _)); try done.
  - intros w1 r1 Hr1 [_ Hl] [= -> ->]. split.
    + unfold survives. destruct r as [[]|e|]; [by destruct (Hr1 tt)|left; by eapply restarts_with_logs..].
    + intros db Edb. by destruct (logs_eq w w' db Hl Edb) as (-> & _).
  - intros _ _ _ [= <- <-]. split; [|done]. unfold survives. split; [|exact Hnow]. by apply (logged_logs dir w).
  - intros rest Hrest Hcur Enil Erun. pose proof (Hrest w) as Hl. rewrite Erun in Hl. cbn in Hl.
    pose proof (nothing_logged w tx Hown Hcur Enil) as Hsame. split; [|intros db Edb; by destruct (logs_eq w w' db Hl Edb) as (-> & _)].
    unfold survives. destruct r as [[]|e|]; [|left; by eapply restarts_with_logs..].
    assert (logged dir w') as Hlog'; [|split; [done|by eapply logged_restarts]].
    apply (logged_logs dir w); [done| |done]. intros k. destruct Hat as (_ & _ & _ & Hrow). rewrite Hrow. apply Hsame.
  - intros rest Hrest Hcur Hnd Hid Erun.
    destruct (log_write env (commit_items w tx) w) as [w1 r1] eqn:Elog.
    assert (logs w' = logs w1 /\ (is_ok r = true -> r1 = Ok tt)) as [Hl Hr].
    { unfold mbind, st_bind in Erun. rewrite Elog in Erun. destruct r1 as [[]|e|]; [|by injection Erun as <- <-..].
      split; [|done]. pose proof (Hrest w1) as H. by rewrite Erun in H. }
    destruct (after_log dir env w tx w1 r1 w' Ht Hlog Hown Hcur Hid Hnd Hwr Hsmall (fun db => so_name _ _ (proj1 Hok) t db) Elog Hl) as (H1 & H2 & H3).
    split; [|exact H3]. unfold survives. destruct r as [[]|e|]; [|exact H1..].
    assert (logged dir w') as Hlog' by (apply H2; [by apply Hr|]; by destruct Hat as (_ & _ & _ & Hrow)). split; [done|]. by eapply logged_restarts.
Qed.
End commits.

(** ** Witness: the first account of an empty directory *)

Definition account_def : structDef := default {| fields := []; is_entity := false |} (account_types !! "Account").
Lemma account_plain : plain_table account_types "Account" account_def.
Proof.
  split; [done| | |vm_compute; reflexivity|vm_compute; by eexists].
  - unfold def_ok. cbn. repeat constructor; set_solver.
  - done.
Qed.
Lemma ann_storable gob_decode : storable account_id no_encoder gob_decode account_def 1 (account 1 "ann").
Proof. split; [|done|lia|done|done|done]. eexists. split; [done|]. repeat constructor. Qed.
Lemma staged_own gob_decode : own_tx account_id no_encoder gob_decode "Account" account_def staged_world staged_tx.
Proof.
  split.
  - intros r Hr. by apply elem_of_nil in Hr.
  - intros k l Hk. cbn in Hk. apply lookup_singleton_Some in Hk as [<- <-]. split; [done|]. apply ann_storable.
  - intros k Hk. change (deletes staged_tx) with (∅ : gmap nodeKey stagedDelete) in Hk. rewrite lookup_empty in Hk. by destruct Hk.
Qed.
Definition no_gob (_ : gotype) (_ : list byte) : outcome goval := Fail malformed.
Definition no_gob_rows (_ : structDef) (_ : list byte) : outcome (list goval) := Fail malformed.
Lemma staged_logged : logged account_types account_id no_encoder no_gob no_gob_rows "Account" account_def (Ok []) staged_world.
Proof.
  split.
  - exists account_db, [], [], ∅. split_and!; [done|done|done|constructor|done|constructor| |done].
    intros heap. exists heap, newChunkStore, []. split_and!; [vm_compute; reflexivity| |done].
    split; [apply newChunkStore_wf|constructor|constructor].
  - vm_compute. reflexivity.
  - intros id v n E. change (row staged_world {| key_typ := "Account"; key_id := id |}) with (@None (goval * Z)) in E. done.
Qed.

Lemma commits_survive_restart_witness :
  exists w', commit account_types account_id no_encoder no_rows_encoder commit_calm 1 staged_world = (w', Ok tt) /\
    row w' ann = Some (account 1 "ann", 0%Z) /\
    logged account_types account_id no_encoder no_gob no_gob_rows "Account" account_def (Ok []) w' /\
    restarts_with account_types account_id no_gob no_gob_rows "Account" (Ok []) w' (row w').
Proof.
  destruct (commit account_types account_id no_encoder no_rows_encoder commit_calm 1 staged_world) as [w' r] eqn:E.
  assert (values_only account_types account_id staged_world staged_tx) as Hv.
  { intros changed Hc. vm_compute in Hc. injection Hc as <-. vm_compute. discriminate. }
  assert (r = Ok tt) as -> by (pose proof (f_equal snd E) as Er; vm_compute in Er; by symmetry).
  assert (row w' ann = Some (account 1 "ann", 0%Z)) as Hrow by (rewrite <- (f_equal fst E : _ = w'); vm_compute; reflexivity).
  exists w'. split; [done|]. split; [exact Hrow|].
  refine (proj1 (commits_survive_restart account_types account_id no_encoder no_rows_encoder no_gob no_gob_rows "Account" account_def
    (Ok []) commit_calm 1 staged_tx staged_world w' (Ok tt) account_plain eq_refl staged_tables_ok staged_tx_ok Hv (staged_own no_gob) staged_logged _ _ E)).
  - done.
  - intros rows Er. vm_compute in Er. injection Er as <-. vm_compute. reflexivity.
Defined.
